(* ===== verification/_CoqProject ===== *)
-Q . S2P
Prelude.v
Hash.v
Heap.v
RlweArith.v
RlweNtt.v
RlwePoly.v
RlweSample.v
BarrierTree.v
Errors.v
Header.v
Merkle.v
ServerTree.v
BarrierWire.v
BarrierCrypto.v
BarrierBuild.v
BarrierRecover.v
Slots.v
Roster.v
ServerUpdate.v
Window.v
AnchorSeed.v
RlweHash.v
Journal.v
RoomState.v
Alias.v
Members.v
MsgReplay.v
MsgCrypto.v
MsgAuth.v
Messages.v
Chat.v
Delivery.v
Srx.v
Accept.v
AcceptLemmas.v
Ledger.v
AcceptRuns.v
AcceptWindow.v
SrxRuns.v
AcceptSamples.v
