(* ===== verification/Prelude.v ===== *)
(** * cityg: a group-messaging service with a post-compromise barrier tree

    The program is a server and a client for end-to-end encrypted groups.  The
    members of a group hold the leaves of a binary tree of KEM keys, the barrier
    tree.  A member who heals the group after a revocation, or refreshes its own
    key, sends a barrier update: new public keys on its path and one wrapped path
    secret per node that covers the other members, from which each of them
    derives the new barrier key.  Joins and updates travel as anchors, CBOR
    headers with signatures, proofs and commitments.  The orchestrator accepts
    anchors one by one into a window of heads; the server keeps the roster of each
    group, lends the slots of the tree to members, checks every update against its
    own copy of the tree, adopts it and writes the accepted bundle to its journal.
    With the keys of an epoch the members sign and encrypt messages, which the
    server keeps for a retention period and hands to the members of the epoch.

    ** Files

    Shared:
    - [Prelude]: results, [u64] arithmetic on [Z] with its saturating and checked
      operations, byte strings as lists of [Z], loops over lists, the tactics
      [ok_step], [inv_all], [rstep] and [bool_prop].
    - [Hash]: the labelled hash H_L and the key derivation of
      [msphf-core/src/hash.rs] and [hkdf.rs].  BLAKE3 and the CBOR encoder are the
      class [Hashing], what is relied on of them the class [HashingLaws].
    - [Errors]: the error types and freeze codes.
    - [Heap]: arithmetic of the heap-ordered tree.

    The barrier tree:
    - [BarrierTree]: [cityg-client/src/barrier.rs]; paths, resolution, blanking,
      records, the tree hash.
    - [ServerTree]: the tree functions of [cityg-server/src/lib.rs], with the
      cached and the incremental hash.
    - [BarrierWire]: the wire format and its three parsers (client, acceptor,
      server).
    - [BarrierCrypto]: [cityg-client/src/barrier_crypto.rs] and
      [pqcrypto-kyber/src/lib.rs]; ML-KEM and ChaCha20-Poly1305 are classes.
    - [BarrierBuild], [BarrierRecover]: building and recovering an update
      ([barrier_build.rs], [barrier_recovery.rs]).

    The server:
    - [Merkle]: set roots, membership and non-membership witnesses
      ([msphf-core/src/merkle.rs], [witness.rs], [cityg-client/src/witness.rs]).
    - [Slots], [Roster]: slot leases, tickets, membership and capacity
      ([cityg-server/src/roster_state.rs], [lib.rs], [persisted_state.rs]).
    - [ServerUpdate]: [validate_barrier_update_against_roster] of
      [cityg-server/src/lib.rs] and the adoption of its outcome.

    Acceptance ([msphf-orchestrator/src]):
    - [Header]: header keys ([hdr.rs]), field readers and presence rules.
    - [Window]: clock, multi-head window, replay guard, pivot store, receiver and
      verification caches ([time.rs], [mhw.rs], [receiver.rs], [accept/cache.rs]).
    - [AnchorSeed]: the identifiers of an anchor ([anchor-seed/src/lib.rs],
      [msphf-core/src/instance.rs]).
    - [Srx]: the revocation payload of a merge.
    - [Accept]: the acceptance context and [accept_anchor] with its join and merge
      paths ([accept/mod.rs], [join.rs], [merge.rs], [stages.rs], [state.rs],
      [telemetry.rs]).  A method that mutates the context and may fail is a
      function from the context to the context it leaves and a result, in the
      monad [acc].
    - [AcceptLemmas]: proof rules for [acc] and what each path leaves unchanged.
    - [Ledger]: the abstract machine that acceptance implements for one group.
    - [AcceptRuns], [AcceptWindow], [SrxRuns]: runs of acceptance.
    - [AcceptSamples]: a model hash and codec and three concrete anchors that
      acceptance takes, on which the theorems about runs are evaluated.

    The lattice hash of an anchor:
    - [RlweArith], [RlweNtt], [RlwePoly]: arithmetic modulo 3329 at its machine
      widths, the two transforms and polynomials ([msphf-core/src/rlwe]).
    - [RlweSample]: the matrix and the noise from an output stream (class [Xof]).
    - [RlweHash]: the projective hash and its evaluation with and without the
      hashing key ([msphf-rlwe/src/lib.rs]).

    The server's storage and its rooms:
    - [Journal]: the journal of accepted bundles and the recovery from it
      ([cityg-server/src/journal_io.rs], [accept_epoch] and
      [recover_from_state] of [lib.rs]), over any staging function (class
      [Staging]) and with a disk that may fail inside a write.
    - [RoomState]: the volatile state of the rooms and the handlers that use it
      ([cityg-runtime/src/volatile.rs], [service.rs]).
    - [Alias]: the alias registry ([cityg-runtime/src/alias.rs]).
    - [Members]: member listings, from the handler of the API
      ([cityg-api/src/member_listing.rs]) to their verification by the client
      ([cityg-gui/src/native/member_validation.rs], [network_members.rs]).

    Messages:
    - [MsgReplay], [MsgCrypto], [MsgAuth]: the replay window, the encryption and
      the signature of messages ([cityg-client/src/message_crypto.rs],
      [message_auth.rs]).
    - [Messages]: sending and fetching ([cityg-gui/src/native/network_messages.rs]).
    - [Chat]: the conversation of a session ([session_state.rs],
      [session_fetch.rs]).
    - [Delivery]: the message routes of the API
      ([cityg-api/src/message_routes.rs]) and the path of a message through all of
      these.

    ** What the theorems show

    - Updates.  What a member builds, the server accepts ([ServerUpdate]) and
      every member with a key on a covering node recovers, with the same barrier
      key and tree ([BarrierRecover]); an update the server accepts has the keys,
      pairs and hashes its tree prescribes, a revoked slot gets no ciphertext, a
      member on a blanked slot recovers nothing, and adoption keeps the state of
      the group consistent.  Client and server agree on tree hashes, snapshots and
      the wire format ([ServerTree], [BarrierWire]); the tree hash binds the tree
      and resolutions cover exactly the members ([BarrierTree]).
    - Roster.  Leases, tickets, members and capacity stay consistent along every
      run of the server's operations, a ticket stays redeemable, a revoked lease is
      refused, and a membership change does what it says ([Slots], [Roster]).
    - Witnesses.  Witnesses built for a set validate against its root and the root
      binds the set ([Merkle]).
    - Window and caches.  The window, the replay guard and the caches keep their
      invariants and bounds through every operation ([Window]).
    - Acceptance.  Every call of [accept_anchor], accepted or refused, is a step of
      the ledger ([Ledger]).  So along every run the counters of a group stay in
      order and bounded, no device is locked out, and no epoch id is accepted twice
      ([AcceptRuns]); an accepted revocation is proved by its payload also when the
      cache skips the check ([SrxRuns]); a merge retires one head ([AcceptWindow]).
    - Lattice hash.  The transforms are inverse to each other up to a constant
      and evaluate polynomials, rejection sampling computes its reference and ends
      once the streams hold enough candidates, and the two ways of evaluating the
      hash give one value ([RlwePoly], [RlweSample], [RlweHash]).
    - Journal.  When every write but the last completes or does not start, the file
      holds exactly the accepted bundles, also if the last one stopped anywhere,
      and a restart replays them ([Journal]).
    - Rooms.  The state of the rooms stays well formed, its backlog implements a log
      of the accepted posts with a retention period, and its snapshot restores it
      ([RoomState]); an alias stays with its first key until the leaf is revoked
      ([Alias]); the verification of a member listing ends whatever the server
      answers, succeeds on what the server lists and binds a listing of a given
      size to its root ([Members]).
    - Messages.  What is encrypted decrypts, a message passes exactly when it
      encodes a signature that verifies under the key its leaf was derived from, a
      recorded index is refused through pruning and restarts while it is in its
      queue, a fetch delivers exactly the new verified messages, the
      conversation shows each once and is never ahead of the disk, and what one
      member types is what another reads ([MsgCrypto], [MsgAuth], [MsgReplay],
      [Messages], [Chat], [Delivery]).
    - Divergences: non-membership validation accepts members ([Merkle]), restored
      groups restart slot generations ([Slots]), the two keys of a pivot differ
      ([AnchorSeed]), regular anchors are never accepted
      ([AcceptLemmas.regular_anchor_refused]), the product between the
      transforms is not that of the ring ([RlwePoly]), the noise and the domain of
      a reduction exceed what is documented ([RlweSample], [RlweArith]), an
      incomplete journal record swallows later ones ([Journal]), an epoch becomes unusable when its bundle expires
      ([RoomState]), a root also verifies as a listing of one member and the
      members shown are not those verified ([Members]), a restart forgets which
      replay tuples were used last ([MsgReplay]), and a malformed message
      panics its receivers ([Messages]).

    ** Conventions

    - A Rust [u64] is a [Z]; where the code saturates, checks or wraps, so does the
      model.  [HashMap] and [BTreeMap] are [gmap]; where the iteration order of a
      hash map matters it is a parameter.
    - Code outside the repository is an operation of a class ([Hashing],
      [MerkleHash], [MlKem], [Aead], [WireCodec], [HistoryCodec], [SrxProofs],
      [AnchorProofs], [Xof], [HpCodec], [EnvelopeCodec], [Dilithium], [HexCodec],
      [Nfc]).  Laws are assumed of the hash (digest length, injective encoding), of
      ML-KEM and the AEAD (they decrypt what they encrypt), of the decoders (they
      read back what the encoder writes) and of the key pairs that sign messages
      (what they sign verifies); nothing is assumed of the other signatures and of
      the proof systems, and unforgeability is never assumed.
    - [Staging] is the one class that stands for code of the repository: the
      journal's theorems hold for any staging function, so that
      [apply_bundle_to_state] is an operation of the class and only the round trip
      of the bundle's encoding is assumed.
    - What the environment does is an argument: the clock, the randomness of a
      signature, the outcome of a write, the answers of a server.
    - No hash is assumed injective.  Where a statement rests on collision
      resistance it is a disjunction with a collision among the inputs hashed for
      the data it is about: an explicit list, or, for runs, any set that holds the
      inputs of the anchors offered ([AcceptRuns.within]).
    - Recursions on node indices carry the fuel [TREE_FUEL], more than the depth of
      any tree indexed by [u64]; level loops carry the number of leaves, which
      halves at each turn; the journal's loop carries the length of the file and
      the walk over a member listing the number of requests.  The lemmas
      [path_loop_enough], [collect_resolution_targets_spec], [root_loop_one],
      [load_fuel] and [verify_loop_fuel] say that the fuel suffices.

    ** What is not modelled

    The proof systems (CAPSS, LB-VRF, Smallwood) and the RPO-256 permutation; the
    construction and reception of anchors in [msphf-orchestrator/src/lib.rs], which
    draw randomness and call them; the composition of [apply_bundle_to_state],
    whose parts are modelled one by one; room administration, history authorities
    and broadcast-key rotation; tickets and barrier helpers of the runtime, the
    remaining routes of the API with their authorization headers and rate limits,
    the transport of the API client, the worker, storage back ends, configuration,
    the session files and the user interface; logging, zeroisation and timing. *)

From stdpp Require Export base numbers option list list_numbers sorting strings gmap fin_maps fin_sets.
From Stdlib Require Export ZArith Lia Bool.

Global Set Default Proof Using "Type".
Global Open Scope Z_scope.

(** ** Results

    Rust's [Result<A, E>]; [?] is the monadic bind. *)

Inductive result (E A : Type) : Type :=
  | Ok (a : A)
  | Err (e : E).
Arguments Ok {E A} a.
Arguments Err {E A} e.

Instance result_ret E : MRet (result E) := fun A a => Ok a.
Instance result_bind E : MBind (result E) := fun A B f m =>
  match m with Ok a => f a | Err e => Err e end.
Instance result_fmap E : FMap (result E) := fun A B f m =>
  match m with Ok a => Ok (f a) | Err e => Err e end.

Definition ok_or {E A} (o : option A) (e : E) : result E A :=
  match o with Some a => Ok a | None => Err e end.

Definition map_err {E F A} (f : E -> F) (r : result E A) : result F A :=
  match r with Ok a => Ok a | Err e => Err (f e) end.

(** [if b { return Err(e) }] *)
Definition fail_if {E} (b : bool) (e : E) : result E unit :=
  if b then Err e else Ok tt.

Definition is_ok {E A} (r : result E A) : bool :=
  match r with Ok _ => true | Err _ => false end.

Definition result_ok {E A} (r : result E A) : option A :=
  match r with Ok a => Some a | Err _ => None end.

(** A [for] loop over a list with [?] inside: state [S], elements [A]. *)
Fixpoint fold_res {E S A} (f : S -> A -> result E S) (s : S) (l : list A) : result E S :=
  match l with
  | [] => Ok s
  | a :: l' => s' ← f s a; fold_res f s' l'
  end.

(** [iter().map(f).collect::<Result<Vec<_>, _>>()] *)
Fixpoint map_res {E A B} (f : A -> result E B) (l : list A) : result E (list B) :=
  match l with
  | [] => Ok []
  | a :: l' => b ← f a; bs ← map_res f l'; Ok (b :: bs)
  end.

(** [iter().map(f).collect::<Option<Vec<_>>>()] *)
Fixpoint map_opt {A B} (f : A -> option B) (l : list A) : option (list B) :=
  match l with
  | [] => Some []
  | a :: l' => b ← f a; bs ← map_opt f l'; Some (b :: bs)
  end.

(** ** Machine integers

    [u64], [u32] and [usize] (a 64-bit target) are kept in [Z]; the
    saturating and checked operations the source calls are written out. *)

Definition U64_MAX : Z := 18446744073709551615.
Definition U32_MAX : Z := 4294967295.

Definition is_u64 (n : Z) : Prop := 0 <= n <= U64_MAX.
Definition is_u64b (n : Z) : bool := (0 <=? n) && (n <=? U64_MAX).

Definition sat_add (a b : Z) : Z := Z.min U64_MAX (a + b).
Definition sat_sub (a b : Z) : Z := Z.max 0 (a - b).
Definition sat_mul (a b : Z) : Z := Z.min U64_MAX (a * b).
Definition checked_add (a b : Z) : option Z :=
  if a + b <=? U64_MAX then Some (a + b) else None.
Definition checked_sub (a b : Z) : option Z :=
  if b <=? a then Some (a - b) else None.
Definition checked_mul (a b : Z) : option Z :=
  if a * b <=? U64_MAX then Some (a * b) else None.
Definition div_ceil (a b : Z) : Z := (a + b - 1) / b.

(** [u64::is_power_of_two] *)
Definition is_power_of_two (n : Z) : bool := (0 <? n) && (n =? 2 ^ Z.log2 n).

(** ** Byte strings

    [Vec<u8>], [&[u8]] and [[u8; 32]]; bytes are [Z]s. *)

Abbreviation bytes := (list Z).

Definition len {A} (l : list A) : Z := Z.of_nat (length l).

Definition bytes_eqb (a b : bytes) : bool := bool_decide (a = b).

Lemma bytes_eqb_refl a : bytes_eqb a a = true.
Proof. by apply bool_decide_eq_true. Qed.

Definition zero32 : bytes := replicate 32 0.
Definition ZERO_ROOT : bytes := zero32.

Definition is_byte (b : Z) : Prop := 0 <= b < 256.
Definition is_bytes (l : bytes) : Prop := Forall is_byte l.

(** [n.to_be_bytes()] for a [w]-byte integer. *)
Fixpoint be_bytes (w : nat) (n : Z) : bytes :=
  match w with
  | O => []
  | S w' => be_bytes w' (n / 256) ++ [n mod 256]
  end.

(** [from_be_bytes] *)
Definition be_value (l : bytes) : Z := fold_left (fun acc b => acc * 256 + b) l 0.

(** The bytes of a string literal, [b"..."]. *)
Fixpoint str_bytes (s : string) : bytes :=
  match s with
  | EmptyString => []
  | String c s' => Z.of_N (Ascii.N_of_ascii c) :: str_bytes s'
  end.

(** Rust's lexicographic order on [&[u8]] and [[u8; N]]. *)
Fixpoint bytes_cmp (a b : bytes) : comparison :=
  match a, b with
  | [], [] => Eq
  | [], _ :: _ => Lt
  | _ :: _, [] => Gt
  | x :: a', y :: b' =>
      match x ?= y with Eq => bytes_cmp a' b' | c => c end
  end.

Definition bytes_le (a b : bytes) : Prop := bytes_cmp a b <> Gt.
Definition bytes_lt (a b : bytes) : Prop := bytes_cmp a b = Lt.
Definition bytes_ltb (a b : bytes) : bool :=
  match bytes_cmp a b with Lt => true | _ => false end.

Instance bytes_le_dec : RelDecision bytes_le.
Proof. intros a b. unfold bytes_le. destruct (bytes_cmp a b); solve [left; done | right; congruence]. Defined.
Instance bytes_lt_dec : RelDecision bytes_lt.
Proof. intros a b. unfold bytes_lt. destruct (bytes_cmp a b); solve [left; done | right; congruence]. Defined.

(** ** Vectors indexed by [u64]

    [v.get(i as usize)] and [if let Some(e) = v.get_mut(i as usize) { *e = x }]. *)

Definition vget {A} (v : list A) (i : Z) : option A :=
  if 0 <=? i then v !! Z.to_nat i else None.

Definition vset {A} (v : list A) (i : Z) (x : A) : list A :=
  if 0 <=? i then <[Z.to_nat i := x]> v else v.

(** [(lo..hi).collect()] *)
Definition zrange (lo hi : Z) : list Z := seqZ lo (hi - lo).

(** ** Tactics *)

Create HintDb cityg.
Create Rewrite HintDb cityg.

(** Splits a hypothesis that a monadic computation succeeded. *)
Ltac inv_res H :=
  match type of H with
  | mbind _ ?m = Ok _ =>
      let x := fresh "x" in let E := fresh "E" in
      destruct m as [x|] eqn:E; [cbn in H | discriminate H]
  | fail_if ?b _ = Ok _ => destruct b eqn:?; [discriminate H | cbn in H]
  end.

Ltac inv_all :=
  repeat match goal with
  | H : mbind _ _ = Ok _ |- _ => inv_res H
  | H : fail_if ?b _ = Ok _ |- _ =>
      let E := fresh "E" in destruct b eqn:E; [discriminate H | clear H]
  | H : ok_or ?o _ = Ok _ |- _ =>
      let E := fresh "E" in destruct o eqn:E; cbn in H; [| discriminate H]
  | H : Ok _ = Ok _ |- _ => injection H as H; subst
  | H : Err _ = Ok _ |- _ => discriminate H
  end.

Lemma bind_Ok {E A B} (a : A) (f : A -> result E B) : mbind f (Ok a) = f a.
Proof. reflexivity. Qed.

(** One bind of [H], by rewriting; [x] is the value bound, [E] the equation. *)
Tactic Notation "ok_step" hyp(H) "as" simple_intropattern(x) ident(E) :=
  match type of H with
  | mbind _ ?m = Ok _ => destruct m as [x|] eqn:E; [rewrite bind_Ok in H | discriminate H]
  end.

Lemma ok_or_Some {E A} (a : A) (e : E) : ok_or (Some a) e = Ok a.
Proof. reflexivity. Qed.

Lemma fail_if_false {E} (e : E) : fail_if false e = Ok tt.
Proof. reflexivity. Qed.

(** Steps through the binds of a computation by rewriting, without asking the
    kernel to compare the computations. *)
Ltac rstep := repeat first [rewrite ok_or_Some | rewrite fail_if_false | rewrite bind_Ok].

(** Turns boolean comparisons into propositions. *)
Ltac bool_prop :=
  repeat match goal with
  | H : _ && _ = true |- _ => apply andb_true_iff in H as [? ?]
  | H : _ || _ = false |- _ => apply orb_false_iff in H as [? ?]
  | H : negb _ = true |- _ => apply negb_true_iff in H
  | H : negb _ = false |- _ => apply negb_false_iff in H
  | H : (_ <? _) = true |- _ => apply Z.ltb_lt in H
  | H : (_ <? _) = false |- _ => apply Z.ltb_ge in H
  | H : (_ <=? _) = true |- _ => apply Z.leb_le in H
  | H : (_ <=? _) = false |- _ => apply Z.leb_gt in H
  | H : (_ =? _) = true |- _ => apply Z.eqb_eq in H
  | H : (_ =? _) = false |- _ => apply Z.eqb_neq in H
  | H : bool_decide _ = true |- _ => apply bool_decide_eq_true in H
  | H : bool_decide _ = false |- _ => apply bool_decide_eq_false in H
  | H : bytes_eqb _ _ = true |- _ => apply bool_decide_eq_true in H
  | H : bytes_eqb _ _ = false |- _ => apply bool_decide_eq_false in H
  end.

(** [lia] with the Euclidean equations of [/] and [mod]. *)
Ltac mlia := Z.to_euclidean_division_equations; lia.

(** Case split on the first [if] of the goal. *)
Ltac case_if :=
  match goal with
  | |- context [if ?b then _ else _] => let E := fresh "E" in destruct b eqn:E
  end.

(** ** Generic lemmas *)

Section Results.
  Context {E : Type}.

Lemma fold_res_app {S A} (f : S -> A -> result E S) s l1 l2 :
  fold_res f s (l1 ++ l2) = (s' ← fold_res f s l1; fold_res f s' l2).
Proof.
  revert s; induction l1 as [|a l1 IH]; intros s; cbn; [done|].
  destruct (f s a); cbn; [apply IH|done].
Qed.

(** A loop preserves whatever every iteration preserves. *)
Lemma fold_res_inv {S A} (P : S -> Prop) (f : S -> A -> result E S) s l s' :
  (forall s a s', a ∈ l -> P s -> f s a = Ok s' -> P s') ->
  P s -> fold_res f s l = Ok s' -> P s'.
Proof.
  revert s; induction l as [|a l IH]; cbn; intros s Hstep HP H.
  - by inv_all.
  - inv_res H. eapply IH; [|eapply Hstep; eauto using list_elem_of_here|exact H].
    intros ? ? ? ?; apply Hstep; by constructor.
Qed.

Lemma fold_res_ok_total {S A} (P : S -> Prop) (f : S -> A -> result E S) s l :
  (forall s a, a ∈ l -> P s -> exists s', f s a = Ok s' /\ P s') ->
  P s -> exists s', fold_res f s l = Ok s' /\ P s'.
Proof.
  revert s; induction l as [|a l IH]; cbn; intros s Hstep HP; [eauto|].
  destruct (Hstep s a) as (s1 & -> & H1); [by constructor|done|]; cbn.
  apply IH; [|done]. intros; apply Hstep; [by constructor|done].
Qed.

Lemma map_res_Forall2 {A B} (f : A -> result E B) l l' :
  map_res f l = Ok l' <-> Forall2 (fun a b => f a = Ok b) l l'.
Proof.
  split.
  - revert l'; induction l as [|a l IH]; cbn; intros l' H; inv_all; constructor; auto.
  - induction 1 as [|a b l l' Hab _ IH]; cbn; [done|]. by rewrite Hab; cbn; rewrite IH.
Qed.

Lemma map_res_pure {A B} (f : A -> result E B) (g : A -> B) l :
  (forall a, a ∈ l -> f a = Ok (g a)) -> map_res f l = Ok (map g l).
Proof.
  induction l as [|a l IH]; cbn; intros H; [done|].
  rewrite H by constructor; cbn. rewrite IH; [done|]. intros; apply H; by constructor.
Qed.

End Results.

(** *** Vectors *)

Section Vectors.
  Context {A : Type}.
  Implicit Types (v : list A).

Lemma len_nonneg v : 0 <= len v.
Proof. unfold len; lia. Qed.

Lemma len_app v1 v2 : len (v1 ++ v2) = len v1 + len v2.
Proof. unfold len. rewrite length_app; lia. Qed.

Lemma len_vset v i x : len (vset v i x) = len v.
Proof. unfold len, vset. case_if; [by rewrite length_insert|done]. Qed.

Lemma vget_elem (l : list A) i x : vget l i = Some x -> x ∈ l.
Proof. unfold vget. case_if; [|done]. apply list_elem_of_lookup_2. Qed.

Lemma vget_Some_range v i x : vget v i = Some x -> 0 <= i < len v.
Proof.
  unfold vget, len. case_if; [|done]. intros H%lookup_lt_Some. bool_prop. lia.
Qed.

Lemma vget_is_Some v i : 0 <= i < len v -> is_Some (vget v i).
Proof.
  intros [? ?]. unfold vget, len in *. rewrite (proj2 (Z.leb_le 0 i)) by lia.
  apply lookup_lt_is_Some_2. lia.
Qed.

Lemma vget_None v i : len v <= i -> vget v i = None.
Proof.
  intros. destruct (vget v i) eqn:E; [|done]. apply vget_Some_range in E. lia.
Qed.

Lemma vget_vset_eq v i x : 0 <= i < len v -> vget (vset v i x) i = Some x.
Proof.
  intros [? ?]. unfold vget, vset, len in *. rewrite (proj2 (Z.leb_le 0 i)) by lia.
  apply list_lookup_insert_eq. lia.
Qed.

Lemma vget_vset_ne v i j x : i <> j -> vget (vset v i x) j = vget v j.
Proof.
  intros Hne. unfold vget, vset. destruct (0 <=? i) eqn:Ei; [|done].
  destruct (0 <=? j) eqn:Ej; [|done]. bool_prop.
  apply list_lookup_insert_ne. lia.
Qed.

Lemma vget_ext v1 v2 : len v1 = len v2 -> (forall i, 0 <= i < len v1 -> vget v1 i = vget v2 i) -> v1 = v2.
Proof.
  unfold len. intros Hl H. apply list_eq. intros i.
  destruct (decide (i < length v1)%nat) as [Hi|Hi].
  - specialize (H (Z.of_nat i)). unfold vget in H.
    rewrite (proj2 (Z.leb_le 0 (Z.of_nat i))), Nat2Z.id in H by lia. apply H; lia.
  - rewrite !lookup_ge_None_2; [done|lia|lia].
Qed.

End Vectors.

#[export] Hint Rewrite @len_vset @len_app : cityg.

Lemma elem_of_zrange lo hi i : i ∈ zrange lo hi <-> lo <= i < hi.
Proof. unfold zrange. rewrite elem_of_seqZ. lia. Qed.

Lemma zrange_NoDup lo hi : NoDup (zrange lo hi).
Proof. apply NoDup_seqZ. Qed.

(** *** Power-of-two test *)

Lemma is_power_of_two_spec n :
  is_power_of_two n = true <-> exists k, 0 <= k /\ n = 2 ^ k.
Proof.
  unfold is_power_of_two. split.
  - intros H. bool_prop. exists (Z.log2 n). split; [apply Z.log2_nonneg|done].
  - intros (k & Hk & ->). rewrite Z.log2_pow2 by done.
    rewrite Z.eqb_refl, (proj2 (Z.ltb_lt 0 (2 ^ k))); [done|]. apply Z.pow_pos_nonneg; lia.
Qed.

(** *** The byte order is a total order *)

Lemma bytes_cmp_refl a : bytes_cmp a a = Eq.
Proof. induction a as [|x a IH]; cbn; [done|]. by rewrite Z.compare_refl. Qed.

Lemma bytes_cmp_eq a b : bytes_cmp a b = Eq <-> a = b.
Proof.
  split; [|intros ->; apply bytes_cmp_refl].
  revert b; induction a as [|x a IH]; intros [|y b]; cbn; try done.
  destruct (Z.compare_spec x y); try done. intros; f_equal; auto.
Qed.

Lemma bytes_cmp_antisym a b : bytes_cmp b a = CompOpp (bytes_cmp a b).
Proof.
  revert b; induction a as [|x a IH]; intros [|y b]; cbn; try done.
  rewrite (Z.compare_antisym x y). destruct (x ?= y) eqn:E; cbn; auto.
Qed.

Lemma bytes_lt_trans a b c : bytes_lt a b -> bytes_lt b c -> bytes_lt a c.
Proof.
  unfold bytes_lt. revert b c; induction a as [|x a IH]; intros [|y b] [|z c]; cbn; try done.
  destruct (Z.compare_spec x y), (Z.compare_spec y z); try done; intros;
    subst; rewrite ?Z.compare_refl; eauto;
    rewrite (proj2 (Z.compare_lt_iff _ _)) by lia; done.
Qed.

Lemma bytes_le_lteq a b : bytes_le a b <-> bytes_lt a b \/ a = b.
Proof.
  unfold bytes_le, bytes_lt. rewrite <- bytes_cmp_eq.
  destruct (bytes_cmp a b); naive_solver.
Qed.

Instance bytes_lt_irrefl : Irreflexive bytes_lt.
Proof. intros a. unfold bytes_lt, complement. by rewrite bytes_cmp_refl. Qed.

Instance bytes_lt_transitive : Transitive bytes_lt.
Proof. intros a b c. apply bytes_lt_trans. Qed.

Instance bytes_le_trans : Transitive bytes_le.
Proof.
  intros a b c. rewrite !bytes_le_lteq.
  intros [?| ->] [?| ->]; eauto using bytes_lt_trans.
Qed.

Instance bytes_le_total : Total bytes_le.
Proof.
  intros a b. unfold bytes_le. rewrite (bytes_cmp_antisym a b).
  destruct (bytes_cmp a b); cbn; [left|left|right]; done.
Qed.

Instance bytes_le_antisymm : AntiSymm (=) bytes_le.
Proof.
  intros a b. unfold bytes_le. rewrite (bytes_cmp_antisym a b), <- bytes_cmp_eq.
  destruct (bytes_cmp a b); cbn; naive_solver.
Qed.

(** *** Fixed-width encodings *)

Lemma length_be_bytes w n : length (be_bytes w n) = w.
Proof.
  revert n; induction w as [|w IH]; intros n; cbn; [done|].
  rewrite length_app, IH; cbn; lia.
Qed.

Lemma be_value_app l b : be_value (l ++ [b]) = be_value l * 256 + b.
Proof. unfold be_value. by rewrite fold_left_app. Qed.

Lemma be_value_be_bytes w n : 0 <= n < 256 ^ Z.of_nat w -> be_value (be_bytes w n) = n.
Proof.
  revert n; induction w as [|w IH]; intros n Hn; cbn [be_bytes].
  - cbn in *. lia.
  - rewrite Nat2Z.inj_succ, Z.pow_succ_r in Hn by lia.
    rewrite be_value_app, IH; [pose proof (Z.div_mod n 256); lia|].
    split; [apply Z.div_pos; lia|apply Z.div_lt_upper_bound; lia].
Qed.

Lemma be_bytes_inj w n m :
  0 <= n < 256 ^ Z.of_nat w -> 0 <= m < 256 ^ Z.of_nat w ->
  be_bytes w n = be_bytes w m -> n = m.
Proof.
  intros Hn Hm H. by rewrite <- (be_value_be_bytes w n), H, be_value_be_bytes.
Qed.

(** *** Sorted lists *)

Lemma StronglySorted_reverse {A} (R : relation A) l :
  StronglySorted R l -> StronglySorted (flip R) (reverse l).
Proof.
  induction 1 as [|x l Hl IH Hx]; [constructor|]. rewrite reverse_cons.
  apply StronglySorted_app_2; [|done|repeat constructor].
  intros a b Ha Hb%list_elem_of_singleton. subst. rewrite elem_of_reverse in Ha.
  rewrite Forall_forall in Hx. by apply Hx.
Qed.

Lemma sorted_lt_NoDup (l : list Z) : StronglySorted Z.lt l -> NoDup l.
Proof.
  induction 1 as [|x l Hl IH Hx]; constructor; [|done].
  intros Hin. rewrite Forall_forall in Hx. specialize (Hx x Hin). lia.
Qed.

Lemma sorted_lt_unique (l1 l2 : list Z) :
  StronglySorted Z.lt l1 -> StronglySorted Z.lt l2 -> (forall x, x ∈ l1 <-> x ∈ l2) -> l1 = l2.
Proof.
  intros H1 H2 Heq. eapply (StronglySorted_unique_strong Z.lt); [|done|done|].
  - intros x1 x2 _ _. lia.
  - apply NoDup_Permutation; [by apply sorted_lt_NoDup|by apply sorted_lt_NoDup|done].
Qed.

Lemma merge_sort_le_sorted (l : list Z) : StronglySorted Z.le (merge_sort Z.le l).
Proof. apply StronglySorted_merge_sort; [intros ???; lia|intros ??; lia]. Qed.

(** Sorting a strictly decreasing list reverses it. *)
Lemma merge_sort_decreasing (l : list Z) :
  StronglySorted (flip Z.lt) l -> merge_sort Z.le l = reverse l.
Proof.
  intros Hd. eapply (StronglySorted_unique_strong Z.le).
  - intros x1 x2 _ _. lia.
  - apply merge_sort_le_sorted.
  - apply StronglySorted_reverse in Hd. eapply StronglySorted_ind with (3 := Hd); [constructor|].
    intros x l' _ IH Hx. constructor; [done|]. eapply Forall_impl; [exact Hx|]. unfold flip. lia.
  - by rewrite merge_sort_Permutation, reverse_Permutation.
Qed.

(** ** Little-endian integers *)

(** [n.to_le_bytes()] for a [w]-byte integer, [n as uW] included. *)
Fixpoint le_bytes (w : nat) (n : Z) : bytes :=
  match w with
  | O => []
  | S w => n mod 256 :: le_bytes w (n / 256)
  end.

(** [from_le_bytes] *)
Definition le_value (l : bytes) : Z := foldr (fun b acc => b + 256 * acc) 0 l.

Lemma length_le_bytes w n : length (le_bytes w n) = w.
Proof. revert n. induction w as [|w IH]; intros n; cbn; [done|]. by rewrite IH. Qed.

Lemma len_to_le w n : len (le_bytes w n) = Z.of_nat w.
Proof. unfold len. by rewrite length_le_bytes. Qed.

Lemma le_bytes_bytes w n : is_bytes (le_bytes w n).
Proof. revert n. induction w as [|w IH]; intros n; cbn; constructor; [apply Z.mod_pos_bound; lia|apply IH]. Qed.

Lemma le_value_bytes w n : 0 <= n < 256 ^ Z.of_nat w -> le_value (le_bytes w n) = n.
Proof.
  revert n. induction w as [|w IH]; intros n Hn; [cbn in *; lia|].
  rewrite Nat2Z.inj_succ, Z.pow_succ_r in Hn by lia. change (n mod 256 + 256 * le_value (le_bytes w (n / 256)) = n).
  rewrite IH; [|split; [apply Z.div_pos; lia|apply Z.div_lt_upper_bound; lia]]. pose proof (Z.div_mod n 256). lia.
Qed.

Lemma le_bytes_value l : is_bytes l -> le_bytes (length l) (le_value l) = l.
Proof.
  induction 1 as [|b l Hb _ IH]; [done|]. unfold is_byte in Hb. cbn [length le_bytes].
  change (le_value (b :: l)) with (b + 256 * le_value l). rewrite Z.mul_comm, Z.mod_add, Z.div_add, Z.mod_small, Z.div_small by lia.
  by rewrite Z.add_0_l, IH.
Qed.

Lemma le_value_range l : is_bytes l -> 0 <= le_value l < 256 ^ len l.
Proof.
  induction 1 as [|b l Hb _ IH]; [by cbn|]. unfold is_byte in Hb. change (le_value (b :: l)) with (b + 256 * le_value l).
  unfold len in *. cbn [length]. rewrite Nat2Z.inj_succ, Z.pow_succ_r by lia. lia.
Qed.

Lemma is_bytes_app a b : is_bytes (a ++ b) <-> is_bytes a /\ is_bytes b.
Proof. apply Forall_app. Qed.

Lemma u32_field l : is_bytes l -> len l = 4 -> le_bytes 4 (le_value l) = l /\ 0 <= le_value l <= U32_MAX.
Proof.
  intros Hb Hl. pose proof (le_value_range l Hb) as Hr. rewrite Hl in Hr. split; [|unfold U32_MAX; lia].
  replace 4%nat with (length l) by (unfold len in Hl; lia). by apply le_bytes_value.
Qed.
