(* ===== verification/Hash.v ===== *)
(** * Hashing and serialisation

    Models [crates/msphf-core/src/hash.rs] ([validate_label],
    [hash_serialized], [h_l]) and [crates/msphf-core/src/hkdf.rs]
    ([hkdf_blake3]).  The BLAKE3 primitive and ciborium's encoder are
    operations of the class [Hashing]; what the code relies on of them is the
    class [HashingLaws].  [Value] is ciborium's [Value]: a serialised struct
    with named fields is a [VMap] with text keys, a tuple struct a [VArray], a
    one-field tuple struct its field. *)

From S2P Require Import Prelude.

(** ** CBOR values *)

Inductive Value : Type :=
  | VInteger (z : Z)
  | VBytes (b : bytes)
  | VFloat (bits : Z)
  | VText (s : string)
  | VBool (b : bool)
  | VNull
  | VTag (t : Z) (v : Value)
  | VArray (l : list Value)
  | VMap (l : list (Value * Value)).

(** A struct with named fields. *)
Definition VStruct (fields : list (string * Value)) : Value :=
  VMap ((fun '(k, v) => (VText k, v)) <$> fields).

(** ** The hash interface *)

(** [blake3_derive_key ctx input] is [Hasher::new_derive_key(ctx)] fed with
    [input]; [blake3_keyed key input] is [Hasher::new_keyed(key)]; [cbor] is
    [ciborium::ser::into_writer]. *)
Class Hashing := {
  blake3_derive_key : string -> bytes -> bytes;
  blake3_keyed : bytes -> bytes -> bytes;
  cbor : Value -> bytes
}.

Class HashingLaws (H : Hashing) := {
  derive_key_len : forall ctx m, length (blake3_derive_key ctx m) = 32%nat;
  keyed_len : forall k m, length (blake3_keyed k m) = 32%nat;
  cbor_inj : forall v w, cbor v = cbor w -> v = w
}.

Definition CITY_G_PREFIX : bytes := str_bytes "city-g|".
Definition CITY_G_HL_DERIVE_CTX : string := "city-g|h_l|v1".

Definition label_contains_nul (label : string) : bool :=
  existsb (Z.eqb 0) (str_bytes label).

Definition validate_label (label : string) : result string unit :=
  fail_if (String.prefix "xof|" label)
    "label must not start with 'xof|' (reserved for XOF namespace)" ;;
  fail_if (label_contains_nul label) "label must not contain embedded NUL bytes".

Section Hashing.
  Context {HS : Hashing}.

Definition hash_input (prefix : bytes) (label : string) (value : Value) : bytes :=
  prefix ++ str_bytes label ++ [0] ++ cbor value.

Definition hash_serialized (prefix : bytes) (label : string) (value : Value) : result string bytes :=
  validate_label label ;;
  Ok (blake3_derive_key CITY_G_HL_DERIVE_CTX (hash_input prefix label value)).

Definition h_l (label : string) (args : Value) : result string bytes :=
  hash_serialized CITY_G_PREFIX label args.

Definition hkdf_blake3 (salt ikm info : bytes) : bytes :=
  let prk := blake3_keyed salt ikm in
  blake3_keyed prk (info ++ [1]).

(** Two different inputs among those of [S] with one digest.  Taken over all
    inputs such a pair exists for any hash of fixed length, so a theorem that
    ends in a collision says which inputs it is found among: finitely many, those
    that the code hashes for the data at hand. *)
Definition hl_collision (S : string -> Value -> Prop) : Prop :=
  exists l1 v1 l2 v2, S l1 v1 /\ S l2 v2 /\
    hash_input CITY_G_PREFIX l1 v1 <> hash_input CITY_G_PREFIX l2 v2 /\
    blake3_derive_key CITY_G_HL_DERIVE_CTX (hash_input CITY_G_PREFIX l1 v1) =
    blake3_derive_key CITY_G_HL_DERIVE_CTX (hash_input CITY_G_PREFIX l2 v2).

(** The inputs of a list. *)
Definition listed (inputs : list (string * Value)) (label : string) (v : Value) : Prop := (label, v) ∈ inputs.

Lemma hl_collision_mono (S T : string -> Value -> Prop) : (forall l v, S l v -> T l v) -> hl_collision S -> hl_collision T.
Proof. intros H (l1 & v1 & l2 & v2 & H1 & H2 & Hne & Heq). exists l1, v1, l2, v2. auto. Qed.

(** No two inputs of a list collide, by evaluation. *)
Definition digest_of (p : string * Value) : bytes :=
  blake3_derive_key CITY_G_HL_DERIVE_CTX (hash_input CITY_G_PREFIX p.1 p.2).

Lemma collision_free inputs : bool_decide (NoDup (map digest_of inputs)) = true -> ~ hl_collision (listed inputs).
Proof.
  intros H%bool_decide_eq_true (l1 & v1 & l2 & v2 & H1 & H2 & Hne & Heq). rewrite NoDup_alt in H.
  apply list_elem_of_lookup in H1 as [i Hi], H2 as [j Hj].
  assert (i = j) as ->; [|rewrite Hi in Hj; congruence].
  apply (H i j (digest_of (l1, v1))); rewrite list_lookup_fmap; [by rewrite Hi|]. rewrite Hj. cbn. by f_equal.
Qed.

Lemma h_l_ok label v :
  validate_label label = Ok tt ->
  h_l label v = Ok (blake3_derive_key CITY_G_HL_DERIVE_CTX (hash_input CITY_G_PREFIX label v)).
Proof. intros H. unfold h_l, hash_serialized. by rewrite H. Qed.

End Hashing.

#[global] Arguments h_l {HS} label args : simpl never.
#[global] Arguments hkdf_blake3 {HS} salt ikm info : simpl never.

(** ** Labels separate domains *)

Lemma str_bytes_inj s t : str_bytes s = str_bytes t -> s = t.
Proof.
  revert t; induction s as [|c s IH]; intros [|c' t]; cbn; try done.
  intros H. injection H as H1 H2. f_equal; [|by apply IH].
  apply N2Z.inj in H1. by rewrite <- (Ascii.ascii_N_embedding c), H1, Ascii.ascii_N_embedding.
Qed.

(** A NUL-terminated prefix without NUL bytes is determined by the whole. *)
Lemma nul_terminated_inj (a b x y : bytes) :
  0 ∉ a -> 0 ∉ b -> a ++ 0 :: x = b ++ 0 :: y -> a = b /\ x = y.
Proof.
  revert b; induction a as [|c a IH]; intros [|d b]; cbn; intros Ha Hb H.
  - by injection H as ->.
  - injection H as <- _. exfalso; apply Hb; by constructor.
  - injection H as -> _. exfalso; apply Ha; by constructor.
  - injection H as -> H. apply not_elem_of_cons in Ha as [_ Ha], Hb as [_ Hb].
    by destruct (IH b Ha Hb H) as [-> ->].
Qed.

Lemma validate_label_nul label : validate_label label = Ok tt -> 0 ∉ str_bytes label.
Proof.
  unfold validate_label. intros H. inv_all. unfold label_contains_nul in *.
  intros Hin. assert (existsb (Z.eqb 0) (str_bytes label) = true) as Hc; [|congruence].
  apply existsb_exists. exists 0. split; [by apply list_elem_of_In|done].
Qed.

Lemma hash_input_inj {HS : Hashing} {HL : HashingLaws HS} prefix l1 l2 v1 v2 :
  validate_label l1 = Ok tt -> validate_label l2 = Ok tt ->
  hash_input prefix l1 v1 = hash_input prefix l2 v2 -> l1 = l2 /\ v1 = v2.
Proof.
  intros H1%validate_label_nul H2%validate_label_nul H.
  unfold hash_input in H. apply app_inv_head in H.
  apply nul_terminated_inj in H as [Hl Hv]; [|done|done].
  split; [by apply str_bytes_inj|by apply cbor_inj].
Qed.

Lemma h_l_Ok_inv {HS : Hashing} l v r :
  h_l l v = Ok r ->
  validate_label l = Ok tt /\
  r = blake3_derive_key CITY_G_HL_DERIVE_CTX (hash_input CITY_G_PREFIX l v).
Proof. unfold h_l, hash_serialized. intros H. inv_all. by destruct x. Qed.

Lemma h_l_inj {HS : Hashing} {HL : HashingLaws HS} (S : string -> Value -> Prop) l1 l2 v1 v2 r :
  h_l l1 v1 = Ok r -> h_l l2 v2 = Ok r -> S l1 v1 -> S l2 v2 -> (l1 = l2 /\ v1 = v2) \/ hl_collision S.
Proof.
  intros [H1 ->]%h_l_Ok_inv [H2 Hr]%h_l_Ok_inv HS1 HS2.
  destruct (decide (hash_input CITY_G_PREFIX l1 v1 = hash_input CITY_G_PREFIX l2 v2)) as [He|Hne].
  - left. by eapply hash_input_inj.
  - right. by exists l1, v1, l2, v2.
Qed.

Lemma h_l_len {HS : Hashing} {HL : HashingLaws HS} l v r : h_l l v = Ok r -> length r = 32%nat.
Proof. intros [_ ->]%h_l_Ok_inv. apply derive_key_len. Qed.

Lemma len_digest {HS : Hashing} {HL : HashingLaws HS} p : len (digest_of p) = 32.
Proof. unfold len, digest_of. by rewrite derive_key_len. Qed.

(** ** A concrete instance

    An injective encoder and a fixed-length mixing function, used to evaluate
    the definitions on concrete inputs. *)

Definition value_leaf := (Z + bytes + string + bool)%type.

Fixpoint value_tree (v : Value) : gen_tree value_leaf :=
  match v with
  | VInteger z => GenNode 0 [GenLeaf (inl (inl (inl z)))]
  | VBytes b => GenNode 1 [GenLeaf (inl (inl (inr b)))]
  | VFloat z => GenNode 2 [GenLeaf (inl (inl (inl z)))]
  | VText s => GenNode 3 [GenLeaf (inl (inr s))]
  | VBool b => GenNode 4 [GenLeaf (inr b)]
  | VNull => GenNode 5 []
  | VTag t v => GenNode 6 [GenLeaf (inl (inl (inl t))); value_tree v]
  | VArray l => GenNode 7 (map value_tree l)
  | VMap l => GenNode 8 (map (fun '(k, v) => GenNode 9 [value_tree k; value_tree v]) l)
  end.

Fixpoint tree_value (t : gen_tree value_leaf) : Value :=
  match t with
  | GenNode 0 [GenLeaf (inl (inl (inl z)))] => VInteger z
  | GenNode 1 [GenLeaf (inl (inl (inr b)))] => VBytes b
  | GenNode 2 [GenLeaf (inl (inl (inl z)))] => VFloat z
  | GenNode 3 [GenLeaf (inl (inr s))] => VText s
  | GenNode 4 [GenLeaf (inr b)] => VBool b
  | GenNode 6 [GenLeaf (inl (inl (inl t))); v] => VTag t (tree_value v)
  | GenNode 7 l => VArray (map tree_value l)
  | GenNode 8 l =>
      VMap (map (fun t => match t with
                          | GenNode 9 [k; v] => (tree_value k, tree_value v)
                          | _ => (VNull, VNull) end) l)
  | _ => VNull
  end.

Lemma Value_ind' (P : Value -> Prop) :
  (forall z, P (VInteger z)) -> (forall b, P (VBytes b)) -> (forall z, P (VFloat z)) ->
  (forall s, P (VText s)) -> (forall b, P (VBool b)) -> P VNull ->
  (forall t v, P v -> P (VTag t v)) ->
  (forall l, Forall P l -> P (VArray l)) ->
  (forall l, Forall (fun kv => P kv.1 /\ P kv.2) l -> P (VMap l)) ->
  forall v, P v.
Proof.
  intros Hi Hb Hf Ht Hbo Hn Htag Ha Hm.
  fix IH 1. intros [z|b|z|s|b| |t v|l|l];
    [apply Hi|apply Hb|apply Hf|apply Ht|apply Hbo|apply Hn|apply Htag, IH| |].
  - apply Ha. induction l as [|x l IHl]; constructor; [apply IH|exact IHl].
  - apply Hm. induction l as [|[k v] l IHl]; constructor; [split; apply IH|exact IHl].
Qed.

Lemma tree_value_tree v : tree_value (value_tree v) = v.
Proof.
  induction v as [z|b|z|s|b| |t v IH|l IH|l IH] using Value_ind'; cbn; try congruence.
  - f_equal. induction IH as [|x l Hx _ IHl]; cbn; [done|]. by rewrite Hx, IHl.
  - f_equal. induction IH as [|[k v] l [Hk Hv] _ IHl]; cbn in *; [done|]. by rewrite Hk, Hv, IHl.
Qed.

Instance value_eq_dec : EqDecision Value.
Proof.
  refine (fun v w => cast_if (decide (value_tree v = value_tree w))); [|congruence].
  rewrite <- (tree_value_tree v), <- (tree_value_tree w). congruence.
Defined.

Instance value_countable : Countable Value :=
  inj_countable' value_tree tree_value tree_value_tree.

(** A 32-byte digest that folds the input into its first byte and spreads a
    running sum over the others. *)
Definition toy_digest (seed : Z) (m : bytes) : bytes :=
  let acc := fold_left (fun a b => (a * 257 + b + 1) mod (256 ^ 31)) m seed in
  be_bytes 32 (acc mod (256 ^ 31)).

Definition toy_cbor (v : Value) : bytes := [Zpos (encode v)].
#[global] Arguments toy_cbor v : simpl never.

Definition toy_hashing : Hashing := {|
  blake3_derive_key ctx m := toy_digest (be_value (str_bytes ctx)) m;
  blake3_keyed k m := toy_digest (be_value k + 1) m;
  cbor := toy_cbor
|}.

Instance toy_hashing_laws : HashingLaws toy_hashing.
Proof.
  split; cbn.
  - intros. reflexivity.
  - intros. reflexivity.
  - intros v w H. unfold toy_cbor in H. injection H as H. by apply (inj encode).
Qed.
