(* ===== verification/Heap.v ===== *)
(** * Geometry of a heap-ordered perfect binary tree

    Lemmas on ancestors, levels, siblings and the divergence point of two
    leaves, shared by the client's and the server's barrier tree.  Nodes are
    numbered from one: the parent of [m] is [m / 2]. *)

From S2P Require Import Prelude.

(** The [k]-th ancestor. *)
Definition anc (m k : Z) : Z := m / 2 ^ k.

(** The other child of the parent. *)
Definition sib (m : Z) : Z := if m mod 2 =? 0 then m + 1 else m - 1.

(** The nodes from [node] (numbered from zero) up to the root. *)
Definition path_of (node : Z) : list Z :=
  (fun k => anc (node + 1) k - 1) <$> seqZ 0 (Z.log2 (node + 1) + 1).

Section Ancestors.
  Implicit Types m k a b : Z.

Lemma anc_0 m : anc m 0 = m.
Proof. unfold anc. by rewrite Z.pow_0_r, Z.div_1_r. Qed.

Lemma anc_anc m a b : 0 <= a -> 0 <= b -> anc (anc m a) b = anc m (a + b).
Proof.
  intros. unfold anc. rewrite Z.div_div, Z.pow_add_r by lia. done.
Qed.

Lemma anc_1 m : anc m 1 = m / 2.
Proof. unfold anc. by rewrite Z.pow_1_r. Qed.

Lemma anc_succ m k : 0 <= k -> anc m (k + 1) = anc m k / 2.
Proof. intros. rewrite <- anc_1, anc_anc by lia. done. Qed.

Lemma anc_succ_l m k : 0 <= k -> anc m (k + 1) = anc (m / 2) k.
Proof. intros. rewrite <- anc_1, anc_anc, Z.add_comm by lia. done. Qed.

Lemma log2_anc m k : 0 < m -> 0 <= k <= Z.log2 m -> Z.log2 (anc m k) = Z.log2 m - k.
Proof.
  intros. unfold anc. rewrite <- Z.shiftr_div_pow2, Z.log2_shiftr by lia. lia.
Qed.

Lemma anc_pos m k : 0 < m -> 0 <= k <= Z.log2 m -> 0 < anc m k.
Proof.
  intros. unfold anc. apply Z.div_str_pos. split; [apply Z.pow_pos_nonneg; lia|].
  etrans; [apply Z.pow_le_mono_r|apply Z.log2_spec]; lia.
Qed.

Lemma anc_top m : 0 < m -> anc m (Z.log2 m) = 1.
Proof.
  intros. pose proof (Z.log2_nonneg m). pose proof (anc_pos m (Z.log2 m)).
  pose proof (log2_anc m (Z.log2 m)).
  assert (Z.log2 (anc m (Z.log2 m)) = 0) as Hz by lia.
  apply Z.log2_null in Hz. lia.
Qed.

Lemma anc_inj m a b :
  0 < m -> 0 <= a <= Z.log2 m -> 0 <= b <= Z.log2 m -> anc m a = anc m b -> a = b.
Proof.
  intros Hm Ha Hb H. pose proof (log2_anc m a Hm Ha). pose proof (log2_anc m b Hm Hb).
  rewrite H in *. lia.
Qed.

Lemma anc_le m k : 0 <= m -> 0 <= k -> anc m k <= m.
Proof.
  intros. unfold anc. apply Z.div_le_upper_bound; [apply Z.pow_pos_nonneg; lia|].
  pose proof (Z.pow_pos_nonneg 2 k). nia.
Qed.

Lemma anc_nonneg m k : 0 <= m -> 0 <= k -> 0 <= anc m k.
Proof. intros. unfold anc. apply Z.div_pos; [done|]. apply Z.pow_pos_nonneg; lia. Qed.

Lemma anc_pos_le_log2 m k : 0 < m -> 0 <= k -> 0 < anc m k -> k <= Z.log2 m.
Proof.
  intros Hm Hk Hp. destruct (decide (k <= Z.log2 m)) as [|Hgt]; [done|exfalso].
  assert (anc m k = 0); [|lia]. unfold anc. apply Z.div_small. split; [lia|].
  eapply Z.lt_le_trans; [apply Z.log2_spec; done|]. apply Z.pow_le_mono_r; lia.
Qed.

Lemma half_eq_sib a b : a / 2 = b / 2 -> a <> b -> b = sib a.
Proof.
  intros. unfold sib. pose proof (Z.div_mod a 2). pose proof (Z.div_mod b 2).
  pose proof (Z.mod_pos_bound a 2). pose proof (Z.mod_pos_bound b 2). case_if; bool_prop; lia.
Qed.

Lemma sib_half m : sib m / 2 = m / 2.
Proof.
  unfold sib. pose proof (Z.div_mod m 2). pose proof (Z.mod_pos_bound m 2).
  symmetry. case_if; bool_prop.
  - apply Z.div_unique with 1; lia.
  - apply Z.div_unique with 0; lia.
Qed.

Lemma sib_ne m : sib m <> m.
Proof. unfold sib. case_if; lia. Qed.

Lemma sib_anc m k : 1 <= k -> anc (sib m) k = anc m k.
Proof.
  intros. replace k with (k - 1 + 1) by lia. rewrite !anc_succ_l by lia.
  by rewrite sib_half.
Qed.

Lemma log2_half m : 1 < m -> Z.log2 (m / 2) = Z.log2 m - 1.
Proof.
  intros. rewrite <- anc_1. apply log2_anc; [lia|].
  pose proof (Z.log2_le_mono 2 m). cbn in *. lia.
Qed.

Lemma log2_sib m : 1 < m -> Z.log2 (sib m) = Z.log2 m.
Proof.
  intros Hm. assert (1 < sib m).
  { unfold sib. pose proof (Z.div_mod m 2). pose proof (Z.mod_pos_bound m 2). case_if; bool_prop; [lia|].
    destruct (decide (m = 2)) as [->|]; [done|]. lia. }
  pose proof (log2_half m Hm). pose proof (log2_half (sib m)).
  rewrite sib_half in *. lia.
Qed.

End Ancestors.

(** ** Levels *)

Lemma log2_level m l : 0 <= l -> 2 ^ l <= m < 2 ^ (l + 1) -> Z.log2 m = l.
Proof. intros. apply Z.log2_unique; [done|]. by rewrite <- Z.add_1_r. Qed.

Lemma level_log2 m : 0 < m -> 2 ^ Z.log2 m <= m < 2 ^ (Z.log2 m + 1).
Proof. intros. rewrite Z.add_1_r. by apply Z.log2_spec. Qed.

Lemma log2_double m : 0 < m -> Z.log2 (2 * m) = Z.log2 m + 1.
Proof. intros. rewrite Z.log2_double by done. lia. Qed.

Lemma log2_succ_double m : 0 < m -> Z.log2 (2 * m + 1) = Z.log2 m + 1.
Proof. intros. rewrite Z.log2_succ_double by done. lia. Qed.

(** A descendant of [m] is a descendant of one of its children. *)
Lemma anc_child x h m : 1 <= h -> anc x h = m -> anc x (h - 1) = 2 * m \/ anc x (h - 1) = 2 * m + 1.
Proof.
  intros Hh <-. replace (anc x h) with (anc x (h - 1) / 2).
  - pose proof (Z.div_mod (anc x (h - 1)) 2). pose proof (Z.mod_pos_bound (anc x (h - 1)) 2). lia.
  - rewrite <- anc_succ by lia. f_equal; lia.
Qed.

Lemma half_double m : 2 * m / 2 = m.
Proof. rewrite Z.mul_comm. by apply Z.div_mul. Qed.

Lemma half_succ_double m : (2 * m + 1) / 2 = m.
Proof. symmetry. apply Z.div_unique with 1; lia. Qed.

(** ** Divergence of two nodes of one level *)

Lemma diverge_step a b (n : nat) :
  a <> b -> anc a (Z.of_nat n) = anc b (Z.of_nat n) ->
  exists k, 0 <= k < Z.of_nat n /\ anc a k <> anc b k /\ anc a (k + 1) = anc b (k + 1).
Proof.
  intros Hne. induction n as [|n IH]; intros H.
  - rewrite !anc_0 in H. done.
  - rewrite Nat2Z.inj_succ in *.
    destruct (decide (anc a (Z.of_nat n) = anc b (Z.of_nat n))) as [He|He].
    + destruct (IH He) as (k & ? & ? & ?). exists k. split; [lia|done].
    + exists (Z.of_nat n). split_and!; [lia|lia|done|done].
Qed.

(** Two distinct nodes of level [l] have exactly one level at which their
    ancestors are siblings. *)
Lemma diverge a b :
  0 < a -> 0 < b -> Z.log2 a = Z.log2 b -> a <> b ->
  exists k, 0 <= k < Z.log2 a /\ anc b k = sib (anc a k) /\
    (forall j, k < j -> anc a j = anc b j) /\
    (forall j, 0 <= j <= k -> anc a j <> anc b j).
Proof.
  intros Ha Hb Hl Hne. pose proof (Z.log2_nonneg a).
  destruct (diverge_step a b (Z.to_nat (Z.log2 a))) as (k & Hk & Hd & He); [done| |].
  { rewrite Z2Nat.id by done. rewrite anc_top, Hl, anc_top; done. }
  rewrite Z2Nat.id in Hk by done.
  exists k. split_and!; [lia|lia| | |].
  - apply half_eq_sib; [|done]. rewrite <- !anc_succ by lia. done.
  - intros j Hj. replace j with (k + 1 + (j - (k + 1))) by lia.
    rewrite <- !(anc_anc _ (k + 1)) by lia. by rewrite He.
  - intros j Hj He'. apply Hd. replace k with (j + (k - j)) by lia.
    rewrite <- !(anc_anc _ j) by lia. by rewrite He'.
Qed.

(** ** Direct paths *)

Lemma elem_of_path_of node i :
  i ∈ path_of node <-> exists k, 0 <= k <= Z.log2 (node + 1) /\ i + 1 = anc (node + 1) k.
Proof.
  unfold path_of. rewrite list_elem_of_fmap. split.
  - intros (k & -> & Hk). apply elem_of_seqZ in Hk. exists k. split; lia.
  - intros (k & Hk & Hi). exists k. rewrite elem_of_seqZ. split; lia.
Qed.

Lemma path_of_0 : path_of 0 = [0].
Proof. reflexivity. Qed.

Lemma parent_succ node : (node - 1) / 2 + 1 = (node + 1) / 2.
Proof. rewrite <- Z.div_add by done. f_equal; lia. Qed.

Lemma path_of_step node : 0 < node -> path_of node = node :: path_of ((node - 1) / 2).
Proof.
  intros. unfold path_of. rewrite parent_succ, log2_half by lia.
  pose proof (Z.log2_pos (node + 1)).
  rewrite seqZ_cons by lia. rewrite fmap_cons, anc_0. f_equal; [lia|].
  replace (Z.succ 0) with (0 + 1) by lia.
  apply list_eq. intros i. rewrite !list_lookup_fmap.
  destruct (decide (Z.of_nat i < Z.log2 (node + 1))) as [Hi|Hi].
  - rewrite !lookup_seqZ_lt by lia. cbn. f_equal. f_equal.
    rewrite <- anc_succ_l by lia. f_equal; lia.
  - rewrite !lookup_seqZ_ge by lia. done.
Qed.

Lemma path_of_self node : 0 <= node -> node ∈ path_of node.
Proof.
  intros. apply elem_of_path_of. exists 0. rewrite anc_0. pose proof (Z.log2_nonneg (node + 1)). lia.
Qed.

Lemma path_of_root node : 0 <= node -> 0 ∈ path_of node.
Proof.
  intros. apply elem_of_path_of. exists (Z.log2 (node + 1)).
  rewrite anc_top by lia. pose proof (Z.log2_nonneg (node + 1)). lia.
Qed.

Lemma path_of_range node i : 0 <= node -> i ∈ path_of node -> 0 <= i <= node.
Proof.
  intros Hn (k & Hk & Hi)%elem_of_path_of.
  pose proof (anc_pos (node + 1) k). pose proof (anc_le (node + 1) k). lia.
Qed.

Lemma path_of_length node : 0 <= node -> len (path_of node) = Z.log2 (node + 1) + 1.
Proof.
  intros. unfold len, path_of. rewrite length_fmap, length_seqZ.
  pose proof (Z.log2_nonneg (node + 1)). lia.
Qed.

Lemma path_of_NoDup node : 0 <= node -> NoDup (path_of node).
Proof.
  intros. apply NoDup_fmap_2_strong; [|apply NoDup_seqZ].
  intros a b Ha%elem_of_seqZ Hb%elem_of_seqZ Hab. apply (anc_inj (node + 1)); lia.
Qed.

Lemma vget_path_of node k :
  0 <= k <= Z.log2 (node + 1) -> vget (path_of node) k = Some (anc (node + 1) k - 1).
Proof.
  intros Hk. unfold vget. rewrite (proj2 (Z.leb_le 0 k)) by lia.
  unfold path_of. rewrite list_lookup_fmap, lookup_seqZ_lt by lia. cbn. do 3 f_equal. lia.
Qed.

(** Induction along a path from the root. *)
Lemma path_of_ind (P : Z -> Prop) :
  P 0 -> (forall node, 0 < node -> P ((node - 1) / 2) -> P node) -> forall node, 0 <= node -> P node.
Proof.
  intros H0 Hs. apply Zlt_0_ind. intros node IH Hn. destruct (decide (node = 0)) as [->|]; [done|].
  apply Hs; [lia|]. apply IH.
  split; [apply Z.div_pos; lia|]. apply Z.div_lt_upper_bound; lia.
Qed.

Lemma path_of_head node : 0 <= node -> exists tl, path_of node = node :: tl.
Proof.
  intros. destruct (decide (node = 0)) as [->|]; [by exists []|].
  rewrite path_of_step by lia. eauto.
Qed.

Lemma path_of_last node : 0 <= node -> last (path_of node) = Some 0.
Proof.
  revert node. apply path_of_ind; [done|]. intros node Hn IH. rewrite path_of_step by done.
  destruct (path_of_head ((node - 1) / 2)) as [tl Htl]; [apply Z.div_pos; lia|].
  rewrite Htl in *. by rewrite last_cons_cons.
Qed.

Lemma path_of_decreasing node : 0 <= node -> StronglySorted (flip Z.lt) (path_of node).
Proof.
  revert node. apply path_of_ind; [repeat constructor|]. intros node Hn IH.
  rewrite path_of_step by done. constructor; [done|]. apply Forall_forall.
  intros x Hx. apply path_of_range in Hx; [|apply Z.div_pos; lia]. unfold flip.
  assert ((node - 1) / 2 < node); [|lia]. apply Z.div_lt_upper_bound; lia.
Qed.

(** The path of an ancestor is a suffix. *)
Lemma path_of_suffix x s : 0 <= x -> s ∈ path_of x -> exists l, path_of x = l ++ path_of s.
Proof.
  revert x. apply (path_of_ind (fun x => s ∈ path_of x -> exists l, path_of x = l ++ path_of s)).
  - rewrite path_of_0. intros ->%list_elem_of_singleton. by exists [].
  - intros x Hx IH Hs. rewrite path_of_step in Hs |- * by done.
    apply elem_of_cons in Hs as [->|Hs]; [exists []; by rewrite (path_of_step x)|].
    destruct (IH Hs) as [l ->]. by exists (x :: l).
Qed.

Lemma path_of_trans x y z : 0 <= x -> y ∈ path_of x -> z ∈ path_of y -> z ∈ path_of x.
Proof. intros Hx Hy Hz. destruct (path_of_suffix x y Hx Hy) as [l ->]. set_solver. Qed.
