(* ===== verification/RlweArith.v ===== *)
(** * Arithmetic modulo 3329 on machine integers

    Models [crates/msphf-core/src/rlwe/constants.rs] and [arithmetic.rs].  A
    Rust [i16], [i32] or [i64] is a [Z] in its signed range; the operators are
    those of a release build, which wrap, and [as] casts truncate.  The lemmas
    say on which inputs nothing wraps and what is computed there. *)

From S2P Require Import Prelude.
From Stdlib Require Import Morphisms Setoid.

(** ** Signed machine integers *)

Definition wrap (w : Z) (z : Z) : Z := (z + 2 ^ (w - 1)) mod 2 ^ w - 2 ^ (w - 1).
Definition i16 (z : Z) : Z := wrap 16 z.
Definition i32 (z : Z) : Z := wrap 32 z.
Definition i64 (z : Z) : Z := wrap 64 z.

Definition is_i16 (z : Z) : Prop := - 2 ^ 15 <= z < 2 ^ 15.
Definition is_i32 (z : Z) : Prop := - 2 ^ 31 <= z < 2 ^ 31.

(** ** The parameter set *)

Definition N : Z := 256.
Definition Q : Z := 3329.
Definition K : Z := 3.
Definition QINV : Z := 62209.
Definition MONT_R : Z := 2285.
Definition R2_MOD_Q : Z := 1353.
Definition BARRETT_MU : Z := 20159.
Definition F_INV_NTT : Z := 1441.

Definition ZETAS_FWD : list Z := [
  -1044; -758; -359; -1517; 1493; 1422; 287; 202; -171; 622; 1577; 182; 962; -1202; -1474; 1468;
  573; -1325; 264; 383; -829; 1458; -1602; -130; -681; 1017; 732; 608; -1542; 411; -205; -1571;
  1223; 652; -552; 1015; -1293; 1491; -282; -1544; 516; -8; -320; -666; -1618; -1162; 126; 1469;
  -853; -90; -271; 830; 107; -1421; -247; -951; -398; 961; -1508; -725; 448; -1065; 677; -1275;
  -1103; 430; 555; 843; -1251; 871; 1550; 105; 422; 587; 177; -235; -291; -460; 1574; 1653; -246;
  778; 1159; -147; -777; 1483; -602; 1119; -1590; 644; -872; 349; 418; 329; -156; -75; 817; 1097;
  603; 610; 1322; -1285; -1465; 384; -1215; -136; 1218; -1335; -874; 220; -1187; -1659; -1185;
  -1530; -1278; 794; -1510; -854; -870; 478; -108; -308; 996; 991; 958; -1460; 1522; 1628].

(** ** Operations *)

Definition montgomery_reduce (a : Z) : Z :=
  let u := Z.land (i32 (i64 (a * QINV))) 65535 in
  let t := i32 (u * Q) in
  let res := Z.shiftr (i32 (a - t)) 16 in
  i16 (i32 (res + Z.land (Z.shiftr res 31) Q)).

Definition montgomery_reduce_i64 (a : Z) : Z :=
  let u := i32 (Z.land (i64 (a * QINV)) 65535) in
  let t := i64 (u * Q) in
  let res := i32 (Z.shiftr (i64 (a - t)) 16) in
  i16 (i32 (res + Z.land (Z.shiftr res 31) Q)).

Definition fqmul (a b : Z) : Z := montgomery_reduce (i32 (a * b)).

Definition barrett_reduce (a : Z) : Z :=
  let t := i32 (Z.shiftr (i32 (i32 (BARRETT_MU * a) + 2 ^ 25)) 26 * Q) in
  let a := i32 (a - t) in
  let r := i32 (a - Q) in
  i16 (i32 (r + Z.land (Z.shiftr r 31) Q)).

(** The [debug_assert!] of [barrett_reduce]. *)
Definition barrett_domain (a : Z) : bool := Z.abs a <? Q * Q.

Definition montgomery_add (a b : Z) : Z :=
  let res := i32 (i32 (a + b) - Q) in
  i16 (i32 (res + Z.land (Z.shiftr res 31) Q)).

Definition montgomery_sub (a b : Z) : Z :=
  let res := i32 (a - b) in
  i16 (i32 (res + Z.land (Z.shiftr res 31) Q)).

(** ** Wrapping *)

Lemma wrap_small w z : 0 < w -> - 2 ^ (w - 1) <= z < 2 ^ (w - 1) -> wrap w z = z.
Proof.
  intros Hw Hz. unfold wrap. rewrite Z.mod_small; [lia|].
  replace (2 ^ w) with (2 * 2 ^ (w - 1)); [lia|]. rewrite <- Z.pow_succ_r by lia. f_equal; lia.
Qed.

Lemma i16_small z : is_i16 z -> i16 z = z.
Proof. intros H. apply wrap_small; [lia|exact H]. Qed.
Lemma i32_small z : is_i32 z -> i32 z = z.
Proof. intros H. apply wrap_small; [lia|exact H]. Qed.
Lemma i64_small z : - 2 ^ 63 <= z < 2 ^ 63 -> i64 z = z.
Proof. intros H. apply wrap_small; [lia|exact H]. Qed.

Lemma i16_range z : is_i16 (i16 z).
Proof. unfold i16, wrap, is_i16. pose proof (Z.mod_pos_bound (z + 2 ^ (16 - 1)) (2 ^ 16)). lia. Qed.

(** Truncation keeps the residue modulo the smaller power. *)
Lemma i32_mod16 z : i32 z mod 65536 = z mod 65536.
Proof. unfold i32, wrap. change (2 ^ (32 - 1)) with 2147483648. change (2 ^ 32) with 4294967296. mlia. Qed.
Lemma i64_mod16 z : i64 z mod 65536 = z mod 65536.
Proof.
  unfold i64, wrap. change (2 ^ (64 - 1)) with 9223372036854775808. change (2 ^ 64) with 18446744073709551616. mlia.
Qed.

Lemma land_u16 z : Z.land z 65535 = z mod 65536.
Proof. change 65535 with (Z.ones 16). by rewrite Z.land_ones. Qed.

(** The sign mask: [(r >> 31) & q]. *)
Lemma sign_mask r : is_i32 r -> Z.land (Z.shiftr r 31) Q = if r <? 0 then Q else 0.
Proof.
  unfold is_i32. intros H. rewrite Z.shiftr_div_pow2 by lia. destruct (r <? 0) eqn:E; bool_prop.
  - replace (r / 2 ^ 31) with (-1) by mlia. reflexivity.
  - rewrite Z.div_small by lia. reflexivity.
Qed.

(** The conditional addition that ends every operation. *)
Lemma cond_add r :
  - 2 ^ 15 - Q <= r < 2 ^ 15 ->
  i16 (i32 (r + Z.land (Z.shiftr r 31) Q)) = if r <? 0 then i16 (r + Q) else r.
Proof.
  unfold Q at 1. intros Hr. rewrite sign_mask by (unfold is_i32; lia). unfold Q. destruct (r <? 0) eqn:E; bool_prop.
  - rewrite i32_small by (unfold is_i32; lia). done.
  - rewrite i32_small, i16_small by (unfold is_i32, is_i16; lia). lia.
Qed.

(** ** Congruence modulo [Q] *)

Declare Scope cong_scope.
Definition cong (a b : Z) : Prop := (a - b) mod Q = 0.
Notation "a ≡ₙ b" := (cong a b) (at level 70) : cong_scope.
Open Scope cong_scope.

Lemma cong_iff a b : a ≡ₙ b <-> exists k, a = b + k * Q.
Proof.
  unfold cong. rewrite Z.mod_divide by (unfold Q; lia). split; intros [k Hk]; exists k; lia.
Qed.

Instance cong_equiv : Equivalence cong.
Proof.
  split.
  - intros a. apply cong_iff. exists 0. lia.
  - intros a b [k Hk]%cong_iff. apply cong_iff. exists (- k). lia.
  - intros a b c [k Hk]%cong_iff [l Hl]%cong_iff. apply cong_iff. exists (k + l). lia.
Qed.

Instance cong_add : Proper (cong ==> cong ==> cong) Z.add.
Proof. intros a b [k Hk]%cong_iff c d [l Hl]%cong_iff. apply cong_iff. exists (k + l). lia. Qed.
Instance cong_sub : Proper (cong ==> cong ==> cong) Z.sub.
Proof. intros a b [k Hk]%cong_iff c d [l Hl]%cong_iff. apply cong_iff. exists (k - l). lia. Qed.
Instance cong_mul : Proper (cong ==> cong ==> cong) Z.mul.
Proof.
  intros a b [k Hk]%cong_iff c d [l Hl]%cong_iff. apply cong_iff. subst. exists (b * l + k * d + k * l * Q). ring.
Qed.
Instance cong_opp : Proper (cong ==> cong) Z.opp.
Proof. intros a b [k Hk]%cong_iff. apply cong_iff. exists (- k). lia. Qed.

Lemma cong_multiple a k : a + k * Q ≡ₙ a.
Proof. apply cong_iff. by exists k. Qed.

Lemma cong_eval a b : (a - b) mod Q =? 0 = true -> a ≡ₙ b.
Proof. by intros H%Z.eqb_eq. Qed.

Lemma cong_small a b : a ≡ₙ b -> 0 <= a < Q -> 0 <= b < Q -> a = b.
Proof. intros [k Hk]%cong_iff Ha Hb. unfold Q in *. lia. Qed.

(** [2 ^ 16] is invertible: its inverse is 169. *)
Definition RINV : Z := 169.

Lemma RINV_spec : 65536 * RINV ≡ₙ 1.
Proof. by apply cong_eval. Qed.

Lemma cong_scale a b : 65536 * a ≡ₙ b -> a ≡ₙ b * RINV.
Proof.
  intros H. rewrite <- H. transitivity (a * (65536 * RINV)); [|apply eq_subrelation; [typeclasses eauto|ring]].
  rewrite RINV_spec. apply eq_subrelation; [typeclasses eauto|ring].
Qed.

(** ** Montgomery reduction *)

(** The inputs for which no operation of [montgomery_reduce] overflows. *)
Definition mont_domain (a : Z) : Prop := - 2 ^ 31 + 65536 * Q <= a < 2 ^ 31.

(** The quotient before the conditional addition. *)
Definition mont_quotient (a : Z) : Z := (a - (a * QINV) mod 65536 * Q) / 65536.

(** [Q * QINV] is 1 modulo [2 ^ 16], so the difference is a multiple of it. *)
Lemma mont_quotient_exact a : 65536 * mont_quotient a = a - (a * QINV) mod 65536 * Q.
Proof.
  unfold mont_quotient. set (u := (a * QINV) mod 65536).
  assert (Z.divide 65536 (a - u * Q)) as [k Hk].
  { apply Z.mod_divide; [lia|]. subst u. rewrite Zminus_mod, Zmult_mod_idemp_l, <- Zminus_mod.
    replace (a - a * QINV * Q) with (a * (1 - QINV * Q)) by ring.
    change (1 - QINV * Q) with (- 3160 * 65536). rewrite Z.mul_assoc. apply Z_mod_mult. }
  rewrite Hk, Z.div_mul by lia. ring.
Qed.

Lemma mont_quotient_bound a : a - 65535 * Q <= 65536 * mont_quotient a <= a.
Proof.
  rewrite mont_quotient_exact. pose proof (Z.mod_pos_bound (a * QINV) 65536). unfold Q. lia.
Qed.

Lemma montgomery_reduce_eq a :
  mont_domain a ->
  montgomery_reduce a = let r := mont_quotient a in if r <? 0 then r + Q else r.
Proof.
  intros Ha. unfold montgomery_reduce. rewrite land_u16, i32_mod16, i64_mod16.
  pose proof (Z.mod_pos_bound (a * QINV) 65536). pose proof (mont_quotient_bound a) as Hb.
  unfold mont_domain, Q in *.
  rewrite (i32_small ((a * QINV) mod 65536 * 3329)) by (unfold is_i32; lia).
  rewrite (i32_small (a - _)) by (unfold is_i32; lia). rewrite Z.shiftr_div_pow2 by lia.
  change (2 ^ 16) with 65536. change 3329 with Q. fold (mont_quotient a). cbv zeta. set (r := mont_quotient a) in *.
  rewrite cond_add by (unfold Q; lia). case_if; bool_prop; [apply i16_small; unfold is_i16, Q; lia|done].
Qed.

Lemma montgomery_reduce_cong a : mont_domain a -> montgomery_reduce a ≡ₙ a * RINV.
Proof.
  intros Ha. rewrite montgomery_reduce_eq by done. apply cong_scale. cbv zeta.
  transitivity (65536 * mont_quotient a).
  - case_if; [|reflexivity]. replace (65536 * (mont_quotient a + Q)) with (65536 * mont_quotient a + 65536 * Q) by ring.
    apply cong_multiple.
  - rewrite mont_quotient_exact. apply cong_iff. exists (- ((a * QINV) mod 65536)). ring.
Qed.

(** Where the result lies: below [Q] and not far below zero. *)
Lemma montgomery_reduce_bound a b :
  mont_domain a -> Z.abs a <= 65536 * b -> - b <= montgomery_reduce a <= Z.max (Q - 1) b.
Proof.
  intros Ha Hb. rewrite montgomery_reduce_eq by done. pose proof (mont_quotient_bound a).
  cbv zeta. unfold Q in *. case_if; bool_prop; lia.
Qed.

Lemma montgomery_reduce_canonical a : 0 <= a < 65536 * Q -> 0 <= montgomery_reduce a < Q.
Proof.
  intros Ha. rewrite montgomery_reduce_eq by (unfold mont_domain, Q in *; lia).
  pose proof (mont_quotient_bound a). cbv zeta. unfold Q in *. case_if; bool_prop; lia.
Qed.

(** The two widths agree where the narrow one does not overflow. *)
Lemma montgomery_reduce_i64_eq a : mont_domain a -> montgomery_reduce_i64 a = montgomery_reduce a.
Proof.
  intros Ha. rewrite montgomery_reduce_eq by done. unfold montgomery_reduce_i64. rewrite land_u16, i64_mod16.
  pose proof (Z.mod_pos_bound (a * QINV) 65536). pose proof (mont_quotient_bound a) as Hb.
  unfold mont_domain, Q in *.
  rewrite (i32_small ((a * QINV) mod 65536)) by (unfold is_i32; lia).
  rewrite (i64_small ((a * QINV) mod 65536 * 3329)) by lia.
  rewrite (i64_small (a - _)) by lia. rewrite Z.shiftr_div_pow2 by lia.
  change (2 ^ 16) with 65536. change 3329 with Q. fold (mont_quotient a). cbv zeta. set (r := mont_quotient a) in *.
  rewrite (i32_small r) by (unfold is_i32; lia).
  rewrite cond_add by (unfold Q; lia). case_if; bool_prop; [apply i16_small; unfold is_i16, Q; lia|done].
Qed.

(** ** Products *)

Lemma mont_domain_product a b : is_i16 a -> is_i16 b -> is_i32 (a * b) /\ mont_domain (a * b).
Proof. unfold is_i16, is_i32, mont_domain, Q. intros. nia. Qed.

Lemma fqmul_cong a b : is_i16 a -> is_i16 b -> fqmul a b ≡ₙ a * b * RINV.
Proof.
  intros Ha Hb. destruct (mont_domain_product a b Ha Hb). unfold fqmul. rewrite i32_small by done.
  by apply montgomery_reduce_cong.
Qed.

(** A product by a coefficient of size at most [m] has size below [Q], unless
    the other factor is large. *)
Lemma fqmul_bound a b m k :
  is_i16 a -> is_i16 b -> Z.abs a <= m -> m * Z.abs b <= 65536 * k -> - k <= fqmul a b <= Z.max (Q - 1) k.
Proof.
  intros Ha Hb Hm Hk. destruct (mont_domain_product a b Ha Hb). unfold fqmul. rewrite i32_small by done.
  apply montgomery_reduce_bound; [done|]. rewrite Z.abs_mul. nia.
Qed.

(** ** Barrett reduction *)

(** The inputs on which [BARRETT_MU * a + (1 << 25)] fits an [i32]. *)
Definition BARRETT_LIMIT : Z := 104862.

Lemma barrett_reduce_eq a :
  Z.abs a <= BARRETT_LIMIT -> barrett_reduce a = a - (BARRETT_MU * a + 2 ^ 25) / 2 ^ 26 * Q.
Proof.
  unfold BARRETT_LIMIT, barrett_reduce, BARRETT_MU. intros Ha.
  rewrite (i32_small (20159 * a)) by (unfold is_i32; lia).
  rewrite (i32_small (20159 * a + _)) by (unfold is_i32; lia).
  rewrite Z.shiftr_div_pow2 by lia. set (t := (20159 * a + 2 ^ 25) / 2 ^ 26).
  assert (2 ^ 26 * t <= 20159 * a + 2 ^ 25 < 2 ^ 26 * t + 2 ^ 26) as Ht by (subst t; mlia).
  cbv zeta. rewrite (i32_small (t * Q)) by (unfold is_i32, Q; lia).
  rewrite (i32_small (a - _)) by (unfold is_i32, Q; lia). rewrite (i32_small (_ - Q)) by (unfold is_i32, Q; lia).
  rewrite cond_add by (unfold Q; lia). rewrite (proj2 (Z.ltb_lt _ _)) by (unfold Q; lia).
  rewrite i16_small by (unfold is_i16, Q; lia). lia.
Qed.

Lemma barrett_reduce_correct a :
  Z.abs a <= BARRETT_LIMIT -> barrett_reduce a ≡ₙ a /\ -1665 <= barrett_reduce a <= 1665.
Proof.
  intros Ha. rewrite barrett_reduce_eq by done. unfold BARRETT_LIMIT, BARRETT_MU in *.
  set (t := (20159 * a + 2 ^ 25) / 2 ^ 26).
  assert (2 ^ 26 * t <= 20159 * a + 2 ^ 25 < 2 ^ 26 * t + 2 ^ 26) as Ht by (subst t; mlia).
  split; [|unfold Q; lia]. apply cong_iff. exists (- t). lia.
Qed.

(** ** Addition and subtraction *)

Lemma montgomery_add_eq a b :
  - 2 ^ 15 <= a + b < 2 ^ 15 -> montgomery_add a b = if a + b <? Q then a + b else a + b - Q.
Proof.
  unfold montgomery_add. intros Hab. rewrite (i32_small (a + b)), (i32_small (a + b - Q)) by (unfold is_i32, Q; lia).
  cbv zeta. rewrite cond_add by (unfold Q; lia).
  destruct (a + b <? Q) eqn:E; bool_prop.
  - rewrite (proj2 (Z.ltb_lt _ _)) by lia. rewrite i16_small by (unfold is_i16, Q in *; lia). lia.
  - by rewrite (proj2 (Z.ltb_ge _ _)) by lia.
Qed.

Lemma montgomery_sub_eq a b :
  - 2 ^ 15 <= a - b < 2 ^ 15 -> montgomery_sub a b = if a - b <? 0 then i16 (a - b + Q) else a - b.
Proof.
  unfold montgomery_sub. intros Hab. rewrite (i32_small (a - b)) by (unfold is_i32, Q; lia).
  cbv zeta. by rewrite cond_add by (unfold Q; lia).
Qed.

Lemma montgomery_add_cong a b : - 2 ^ 15 <= a + b < 2 ^ 15 -> montgomery_add a b ≡ₙ a + b.
Proof.
  intros Hab. rewrite montgomery_add_eq by done. case_if; [reflexivity|].
  apply cong_iff. exists (-1). lia.
Qed.

(** On reduced operands the results are the residues. *)
Lemma montgomery_add_canonical a b : 0 <= a < Q -> 0 <= b < Q -> montgomery_add a b = (a + b) mod Q.
Proof. unfold Q. intros Ha Hb. rewrite montgomery_add_eq by lia. unfold Q. case_if; bool_prop; mlia. Qed.

Lemma montgomery_sub_canonical a b : 0 <= a < Q -> 0 <= b < Q -> montgomery_sub a b = (a - b) mod Q.
Proof.
  unfold Q. intros Ha Hb. rewrite montgomery_sub_eq by lia. unfold Q. case_if; bool_prop.
  - rewrite i16_small by (unfold is_i16; lia). mlia.
  - mlia.
Qed.

Lemma cong_mod a : a mod Q ≡ₙ a.
Proof. unfold cong. by rewrite Zminus_mod_idemp_l, Z.sub_diag. Qed.

Lemma cong_mod_eq a b : a ≡ₙ b <-> a mod Q = b mod Q.
Proof.
  split.
  - intros [k ->]%cong_iff. by apply Z_mod_plus_full.
  - intros H. transitivity (a mod Q); [symmetry; apply cong_mod|]. rewrite H. apply cong_mod.
Qed.

Global Opaque cong.

(** [barrett_reduce] returns a residue between -1665 and 1665 for inputs up
    to 104862 in absolute value, all that the transforms give it.  The domain its
    assertion admits is a hundred times larger: just above that bound the product
    with [BARRETT_MU] overflows and the result is not a residue of the input. *)
Theorem barrett_reduce_domain :
  (forall a, Z.abs a <= BARRETT_LIMIT -> barrett_reduce a ≡ₙ a /\ -1665 <= barrett_reduce a <= 1665) /\
  barrett_domain (BARRETT_LIMIT + 1) = true /\ ~ barrett_reduce (BARRETT_LIMIT + 1) ≡ₙ BARRETT_LIMIT + 1.
Proof.
  split_and!; [exact barrett_reduce_correct|reflexivity|]. intros H%cong_mod_eq. vm_compute in H. discriminate H.
Qed.
