(* ===== verification/RlweNtt.v ===== *)
(** * The number-theoretic transform

    Models [crates/msphf-core/src/rlwe/ntt.rs] and [poly.rs] with [polyvec.rs].
    A coefficient array [[i16; N]] is a list of 256 integers.  The loops are
    recursions with fuel, which [ntt_blocks_enough] and [ntt_layers_enough] show
    to suffice.  Both transforms are layers of independent butterflies; the
    first section says what such a layer computes, whatever the butterfly is. *)

From S2P Require Import Prelude RlweArith.
From Stdlib Require Import Morphisms Setoid.

(** ** Operations *)

Definition read (coeffs : list Z) (idx : Z) : Z := default 0 (vget coeffs idx).
Definition write (coeffs : list Z) (idx value : Z) : list Z := vset coeffs idx value.

(** The body of the innermost loop of [ntt]. *)
Definition ntt_butterfly (zeta len : Z) (a : list Z) (j : Z) : list Z :=
  let t := fqmul zeta (read a (j + len)) in
  let tmp := read a j in
  let sum := i32 (tmp + t) in
  let diff := i32 (tmp - t) in
  let a := write a (j + len) (i16 diff) in
  write a j (i16 sum).

(** The body of the innermost loop of [inv_ntt]. *)
Definition inv_butterfly (zeta len : Z) (a : list Z) (j : Z) : list Z :=
  let t := read a j in
  let sum := i32 (t + read a (j + len)) in
  let diff := i32 (read a (j + len) - t) in
  let a := write a j (barrett_reduce sum) in
  write a (j + len) (fqmul zeta (i16 diff)).

(** [while start < N], with the index [k] of the next twiddle factor. *)
Fixpoint ntt_blocks (fuel : nat) (len start k : Z) (a : list Z) : Z * list Z :=
  match fuel with
  | O => (k, a)
  | S fuel =>
      if start <? N then
        ntt_blocks fuel len (start + 2 * len) (k + 1)
          (foldl (ntt_butterfly (read ZETAS_FWD k) len) a (zrange start (start + len)))
      else (k, a)
  end.

Fixpoint inv_blocks (fuel : nat) (len start k : Z) (a : list Z) : Z * list Z :=
  match fuel with
  | O => (k, a)
  | S fuel =>
      if start <? N then
        inv_blocks fuel len (start + 2 * len) (sat_sub k 1)
          (foldl (inv_butterfly (read ZETAS_FWD k) len) a (zrange start (start + len)))
      else (k, a)
  end.

(** The fuel of the inner loop: a block is at least four wide. *)
Definition BLOCK_FUEL : nat := 65.

(** [while len >= 2] *)
Fixpoint ntt_layers (fuel : nat) (len k : Z) (a : list Z) : list Z :=
  match fuel with
  | O => a
  | S fuel =>
      if 2 <=? len then
        let '(k, a) := ntt_blocks BLOCK_FUEL len 0 k a in
        ntt_layers fuel (Z.shiftr len 1) k a
      else a
  end.

(** [while len <= 128] *)
Fixpoint inv_layers (fuel : nat) (len k : Z) (a : list Z) : list Z :=
  match fuel with
  | O => a
  | S fuel =>
      if len <=? 128 then
        let '(k, a) := inv_blocks BLOCK_FUEL len 0 k a in
        inv_layers fuel (Z.shiftl len 1) k a
      else a
  end.

(** The fuel of the outer loop: [len] takes seven values. *)
Definition LAYER_FUEL : nat := 8.

Definition ntt (a : list Z) : list Z := ntt_layers LAYER_FUEL 128 1 a.

Definition inv_ntt (a : list Z) : list Z :=
  map (fun coeff => fqmul coeff F_INV_NTT) (inv_layers LAYER_FUEL 2 (len ZETAS_FWD - 1) a).

(** ** The loops end before the fuel does *)

Lemma ntt_blocks_enough f1 f2 len start k a :
  0 < len -> N - start <= 2 * len * Z.of_nat f1 -> N - start <= 2 * len * Z.of_nat f2 ->
  ntt_blocks f1 len start k a = ntt_blocks f2 len start k a.
Proof.
  revert f2 start k a; induction f1 as [|f1 IH]; intros [|f2] start k a Hl H1 H2; cbn [ntt_blocks]; [done| | |].
  - by rewrite (proj2 (Z.ltb_ge start N)) by lia.
  - by rewrite (proj2 (Z.ltb_ge start N)) by lia.
  - case_if; [|done]. apply IH; [done|nia|nia].
Qed.

Lemma inv_blocks_enough f1 f2 len start k a :
  0 < len -> N - start <= 2 * len * Z.of_nat f1 -> N - start <= 2 * len * Z.of_nat f2 ->
  inv_blocks f1 len start k a = inv_blocks f2 len start k a.
Proof.
  revert f2 start k a; induction f1 as [|f1 IH]; intros [|f2] start k a Hl H1 H2; cbn [inv_blocks]; [done| | |].
  - by rewrite (proj2 (Z.ltb_ge start N)) by lia.
  - by rewrite (proj2 (Z.ltb_ge start N)) by lia.
  - case_if; [|done]. apply IH; [done|nia|nia].
Qed.

Lemma ntt_layers_enough f1 f2 l k a :
  l < 2 ^ (1 + Z.of_nat f1) -> l < 2 ^ (1 + Z.of_nat f2) -> ntt_layers f1 l k a = ntt_layers f2 l k a.
Proof.
  revert f2 l k a; induction f1 as [|f1 IH]; intros [|f2] l k a H1 H2; cbn [ntt_layers]; [done| | |].
  - by rewrite (proj2 (Z.leb_gt 2 l)) by (cbn in *; lia).
  - by rewrite (proj2 (Z.leb_gt 2 l)) by (cbn in *; lia).
  - case_if; [|done]. destruct (ntt_blocks _ _ _ _ _) as [k' a'].
    rewrite !Nat2Z.inj_succ, !Z.add_succ_r, !Z.pow_succ_r in * by lia.
    apply IH; rewrite Z.shiftr_div_pow2 by lia; apply Z.div_lt_upper_bound; lia.
Qed.

(** ** A layer of butterflies

    [f] maps the two coefficients of a pair to their new values. *)

Section Layer.
  Implicit Types (f : Z -> Z -> Z * Z) (a : list Z).

Definition pair_step f (l : Z) (a : list Z) (j : Z) : list Z :=
  let r := f (read a j) (read a (j + l)) in write (write a j r.1) (j + l) r.2.

(** The new value at [p] when the pairs [(j, j + l)] with [lo <= j < hi] are done. *)
Definition pair_value f (l lo hi : Z) (a : list Z) (p : Z) : Z :=
  if (lo <=? p) && (p <? hi) then (f (read a p) (read a (p + l))).1
  else if (lo + l <=? p) && (p <? hi + l) then (f (read a (p - l)) (read a p)).2
  else read a p.

Lemma read_write_eq a i v : 0 <= i < len a -> read (write a i v) i = v.
Proof. intros H. unfold read, write. by rewrite vget_vset_eq. Qed.

Lemma read_write_ne a i j v : i <> j -> read (write a i v) j = read a j.
Proof. intros H. unfold read, write. by rewrite vget_vset_ne. Qed.

Lemma len_write a i v : len (write a i v) = len a.
Proof. apply len_vset. Qed.

Lemma len_pairs f l a js : len (foldl (pair_step f l) a js) = len a.
Proof.
  revert a; induction js as [|j js IH]; intros a; cbn; [done|]. rewrite IH. unfold pair_step.
  by rewrite !len_write.
Qed.

Lemma zrange_snoc lo n : 0 <= n -> zrange lo (lo + (n + 1)) = zrange lo (lo + n) ++ [lo + n].
Proof.
  intros Hn. unfold zrange. replace (lo + (n + 1) - lo) with (n + 1) by lia. replace (lo + n - lo) with n by lia.
  rewrite seqZ_app by lia. f_equal.
Qed.

Lemma read_pairs f l lo n a p :
  0 <= lo -> 0 <= n <= l -> lo + 2 * l <= len a ->
  read (foldl (pair_step f l) a (zrange lo (lo + n))) p = pair_value f l lo (lo + n) a p.
Proof.
  intros Hlo Hn Hlen. revert p. assert (0 <= n) as Hn0 by lia. revert Hn. pattern n.
  apply natlike_ind; [| |done]; clear n Hn0.
  - intros _ p. rewrite Z.add_0_r. unfold zrange. rewrite Z.sub_diag. cbn. unfold pair_value.
    rewrite (proj2 (andb_false_iff _ _)), (proj2 (andb_false_iff _ _)); [done| |];
      rewrite Z.leb_gt, Z.ltb_ge; lia.
  - intros n Hn0 IH Hn p. unfold Z.succ. rewrite zrange_snoc, foldl_app by lia. cbn [foldl].
    set (b := foldl _ _ _) in *. unfold pair_step at 1.
    assert (forall q, read b q = pair_value f l lo (lo + n) a q) as Hb by (intros; apply IH; lia).
    assert (len b = len a) as Hlb by apply len_pairs.
    assert (read b (lo + n) = read a (lo + n)) as Hx.
    { rewrite Hb. unfold pair_value. rewrite (proj2 (Z.ltb_ge _ _)), andb_false_r by lia.
      by rewrite (proj2 (Z.leb_gt _ _)) by lia. }
    assert (read b (lo + n + l) = read a (lo + n + l)) as Hy.
    { rewrite Hb. unfold pair_value. rewrite (proj2 (Z.ltb_ge _ _)), andb_false_r by lia.
      by rewrite (proj2 (Z.ltb_ge (lo + n + l) _)), andb_false_r by lia. }
    cbv zeta. rewrite Hx, Hy. destruct (decide (p = lo + n + l)) as [->|Hp2].
    { rewrite read_write_eq by (rewrite len_write; lia). unfold pair_value.
      rewrite (proj2 (Z.ltb_ge _ _)), andb_false_r by lia.
      rewrite (proj2 (Z.leb_le _ _)), (proj2 (Z.ltb_lt _ _)) by lia. cbn. by replace (lo + n + l - l) with (lo + n) by lia. }
    rewrite read_write_ne by done. destruct (decide (p = lo + n)) as [->|Hp1].
    { rewrite read_write_eq by lia. unfold pair_value.
      by rewrite (proj2 (Z.leb_le _ _)), (proj2 (Z.ltb_lt _ _)) by lia. }
    rewrite read_write_ne, Hb by done. unfold pair_value.
    destruct (lo <=? p) eqn:E1, (p <? lo + n) eqn:E2, (p <? lo + (n + 1)) eqn:E3, (lo + l <=? p) eqn:E4,
      (p <? lo + n + l) eqn:E5, (p <? lo + (n + 1) + l) eqn:E6; bool_prop; cbn; try done; lia.
Qed.

(** All blocks of a layer; [g i] is the butterfly of block [i]. *)
Definition block_step (g : Z -> Z -> Z -> Z * Z) (l : Z) (a : list Z) (i : Z) : list Z :=
  foldl (pair_step (g i) l) a (zrange (2 * l * i) (2 * l * i + l)).

Definition layer (g : Z -> Z -> Z -> Z * Z) (l n : Z) (a : list Z) : list Z :=
  foldl (block_step g l) a (zrange 0 n).

Definition layer_value (g : Z -> Z -> Z -> Z * Z) (l : Z) (a : list Z) (p : Z) : Z :=
  let i := p / (2 * l) in
  if p mod (2 * l) <? l then (g i (read a p) (read a (p + l))).1
  else (g i (read a (p - l)) (read a p)).2.

Lemma len_layer g l n a : len (layer g l n a) = len a.
Proof.
  unfold layer. generalize (zrange 0 n) as js. intros js. revert a.
  induction js as [|i js IH]; intros a; cbn; [done|]. rewrite IH. unfold block_step. apply len_pairs.
Qed.

Lemma pair_value_in f l i a p :
  0 < l -> 2 * l * i <= p < 2 * l * (i + 1) ->
  pair_value f l (2 * l * i) (2 * l * i + l) a p = layer_value (fun _ => f) l a p.
Proof.
  intros Hl Hp. unfold pair_value, layer_value.
  assert (p mod (2 * l) = p - 2 * l * i) as ->.
  { rewrite Z.mod_eq by lia. replace (p / (2 * l)) with i; [ring|]. apply (Z.div_unique_pos p (2 * l) i (p - 2 * l * i)); lia. }
  destruct (p - 2 * l * i <? l) eqn:E; bool_prop.
  - by rewrite (proj2 (Z.leb_le _ _)), (proj2 (Z.ltb_lt _ _)) by lia.
  - rewrite (proj2 (Z.ltb_ge _ _)), andb_false_r by lia.
    by rewrite (proj2 (Z.leb_le _ _)), (proj2 (Z.ltb_lt _ _)) by lia.
Qed.

Lemma pair_value_out f l lo a p : p < lo \/ lo + 2 * l <= p -> 0 <= l -> pair_value f l lo (lo + l) a p = read a p.
Proof.
  intros Hp Hl. unfold pair_value.
  rewrite (proj2 (andb_false_iff _ _)), (proj2 (andb_false_iff _ _)); [done| |];
    rewrite Z.leb_gt, Z.ltb_ge; lia.
Qed.

Lemma layer_value_ext g l a b p :
  0 < l -> read a p = read b p -> (p mod (2 * l) < l -> read a (p + l) = read b (p + l)) ->
  (l <= p mod (2 * l) -> read a (p - l) = read b (p - l)) -> layer_value g l a p = layer_value g l b p.
Proof.
  intros Hl H1 H2 H3. unfold layer_value. cbv zeta. rewrite H1. case_if; bool_prop.
  - by rewrite H2 by lia.
  - by rewrite H3 by lia.
Qed.

Lemma read_layer g l n a p :
  0 < l -> 0 <= n -> 2 * l * n <= len a -> 0 <= p ->
  read (layer g l n a) p = if p <? 2 * l * n then layer_value g l a p else read a p.
Proof.
  intros Hl Hn Hlen. unfold layer. revert p Hlen. pattern n. apply natlike_ind; [| |done]; clear n Hn.
  - intros p _ Hp. rewrite Z.mul_0_r. by rewrite (proj2 (Z.ltb_ge p 0)) by lia.
  - intros n Hn IH p Hlen Hp. unfold Z.succ in *. pose proof (zrange_snoc 0 n Hn) as Hz. rewrite !Z.add_0_l in Hz.
    rewrite Hz, foldl_app. cbn [foldl]. fold (layer g l n a) in *. set (b := layer g l n a) in *.
    assert (forall q, 0 <= q -> read b q = if q <? 2 * l * n then layer_value g l a q else read a q) as Hb
      by (intros; apply IH; [nia|done]).
    assert (len b = len a) as Hlb by apply len_layer.
    unfold block_step at 1. rewrite read_pairs by nia.
    destruct (decide (2 * l * n <= p < 2 * l * (n + 1))) as [Hin|Hout].
    + rewrite pair_value_in by done. rewrite (proj2 (Z.ltb_lt _ _)) by lia.
      assert (p / (2 * l) = n) as Hdiv by (symmetry; apply (Z.div_unique_pos p (2 * l) n (p - 2 * l * n)); lia).
      assert (p mod (2 * l) = p - 2 * l * n) as Hmod by (rewrite Z.mod_eq, Hdiv by lia; ring).
      transitivity (layer_value g l b p); [unfold layer_value; by rewrite Hdiv|].
      apply layer_value_ext; [done| |intros|intros]; rewrite Hb by lia; by rewrite (proj2 (Z.ltb_ge _ _)) by lia.
    + rewrite pair_value_out, Hb by lia. destruct (p <? 2 * l * n) eqn:E; bool_prop.
      * by rewrite (proj2 (Z.ltb_lt _ _)) by lia.
      * by rewrite (proj2 (Z.ltb_ge _ _)) by lia.
Qed.

End Layer.

(** ** The transforms as layers *)

(** The twiddle factor of node [k]. *)
Definition zeta (k : Z) : Z := read ZETAS_FWD k.

Definition fwd (z x y : Z) : Z * Z :=
  let t := fqmul z y in (i16 (i32 (x + t)), i16 (i32 (x - t))).
Definition bwd (z x y : Z) : Z * Z :=
  (barrett_reduce (i32 (x + y)), fqmul z (i16 (i32 (y - x)))).

Definition fwd_layer (l : Z) : list Z -> list Z := layer (fun i => fwd (zeta (128 / l + i))) l (128 / l).
Definition inv_layer (l : Z) : list Z -> list Z := layer (fun i => bwd (zeta (2 * (128 / l) - 1 - i))) l (128 / l).

Lemma write_comm a i j v w : i <> j -> write (write a i v) j w = write (write a j w) i v.
Proof.
  intros H. unfold write, vset. destruct (0 <=? i) eqn:Ei, (0 <=? j) eqn:Ej; try done. bool_prop.
  apply list_insert_insert_ne. lia.
Qed.

Lemma ntt_butterfly_pair z l a j : 0 < l -> ntt_butterfly z l a j = pair_step (fwd z) l a j.
Proof. intros Hl. unfold ntt_butterfly, pair_step, fwd. cbn. apply write_comm. lia. Qed.

Lemma inv_butterfly_pair z l a j : inv_butterfly z l a j = pair_step (bwd z) l a j.
Proof. unfold inv_butterfly, pair_step, bwd. cbv zeta. cbn [fst snd]. reflexivity. Qed.

Lemma foldl_ext {A B} (f g : B -> A -> B) (l : list A) b : (forall b a, f b a = g b a) -> foldl f b l = foldl g b l.
Proof. intros H. revert b; induction l as [|a l IH]; intros b; cbn; [done|]. by rewrite H, IH. Qed.

Lemma zrange_cons lo hi : lo < hi -> zrange lo hi = lo :: zrange (lo + 1) hi.
Proof. intros H. unfold zrange. rewrite seqZ_cons by lia. f_equal. f_equal; lia. Qed.

Lemma zrange_nil lo hi : hi <= lo -> zrange lo hi = [].
Proof. intros H. unfold zrange. apply seqZ_nil. lia. Qed.

Lemma ntt_blocks_layer f l k n i a :
  0 < l -> 2 * l * n = N -> 0 <= i <= n -> n - i < Z.of_nat f ->
  ntt_blocks f l (2 * l * i) (k + i) a =
  (k + n, foldl (block_step (fun i => fwd (zeta (k + i))) l) a (zrange i n)).
Proof.
  intros Hl Hn. revert i a; induction f as [|f IH]; intros i a Hi Hf; [lia|]. cbn [ntt_blocks].
  destruct (decide (i = n)) as [->|Hne].
  - rewrite (proj2 (Z.ltb_ge _ _)), zrange_nil by lia. done.
  - rewrite (proj2 (Z.ltb_lt _ _)) by nia. replace (2 * l * i + 2 * l) with (2 * l * (i + 1)) by ring.
    rewrite <- Z.add_assoc, IH, (zrange_cons i n) by lia. cbn [foldl]. do 2 f_equal. unfold block_step.
    apply foldl_ext. intros. by apply ntt_butterfly_pair.
Qed.

Lemma inv_blocks_layer f l k n i a :
  0 < l -> 2 * l * n = N -> 0 <= i <= n -> n - i < Z.of_nat f -> n <= k ->
  inv_blocks f l (2 * l * i) (k - i) a =
  (k - n, foldl (block_step (fun i => bwd (zeta (k - i))) l) a (zrange i n)).
Proof.
  intros Hl Hn. revert i a; induction f as [|f IH]; intros i a Hi Hf Hk; [lia|]. cbn [inv_blocks].
  destruct (decide (i = n)) as [->|Hne].
  - rewrite (proj2 (Z.ltb_ge _ _)), zrange_nil by lia. done.
  - rewrite (proj2 (Z.ltb_lt _ _)) by nia. replace (2 * l * i + 2 * l) with (2 * l * (i + 1)) by ring.
    unfold sat_sub. rewrite Z.max_r by lia. replace (k - i - 1) with (k - (i + 1)) by ring.
    rewrite (foldl_ext _ (pair_step (bwd (zeta (k - i))) l)) by (intros; apply inv_butterfly_pair).
    rewrite IH, (zrange_cons i n) by lia. reflexivity.
Qed.

Definition FWD_LENS : list Z := [128; 64; 32; 16; 8; 4; 2].
Definition INV_LENS : list Z := [2; 4; 8; 16; 32; 64; 128].

Lemma ntt_layers_step f l n a :
  2 <= l -> 2 * l * n = N -> 0 <= n -> ntt_layers (S f) l n a = ntt_layers f (Z.shiftr l 1) (2 * n) (fwd_layer l a).
Proof.
  intros Hl Hn H0. cbn [ntt_layers]. rewrite (proj2 (Z.leb_le 2 l)) by done.
  pose proof (ntt_blocks_layer BLOCK_FUEL l n n 0 a) as E. rewrite Z.mul_0_r, Z.add_0_r in E.
  assert (128 / l = n) as Hd by (unfold N in Hn; symmetry; apply Z.div_unique_exact; lia).
  rewrite E by (unfold BLOCK_FUEL, N in *; nia). unfold fwd_layer. rewrite Hd. by replace (2 * n) with (n + n) by ring.
Qed.

Lemma ntt_as_layers a : ntt a = foldl (fun a l => fwd_layer l a) a FWD_LENS.
Proof.
  unfold ntt, LAYER_FUEL.
  rewrite (ntt_layers_step _ 128 1) by (unfold N; lia). change (Z.shiftr 128 1) with 64. change (2 * 1) with 2.
  rewrite (ntt_layers_step _ 64 2) by (unfold N; lia). change (Z.shiftr 64 1) with 32. change (2 * 2) with 4.
  rewrite (ntt_layers_step _ 32 4) by (unfold N; lia). change (Z.shiftr 32 1) with 16. change (2 * 4) with 8.
  rewrite (ntt_layers_step _ 16 8) by (unfold N; lia). change (Z.shiftr 16 1) with 8. change (2 * 8) with 16.
  rewrite (ntt_layers_step _ 8 16) by (unfold N; lia). change (Z.shiftr 8 1) with 4. change (2 * 16) with 32.
  rewrite (ntt_layers_step _ 4 32) by (unfold N; lia). change (Z.shiftr 4 1) with 2. change (2 * 32) with 64.
  rewrite (ntt_layers_step _ 2 64) by (unfold N; lia). change (Z.shiftr 2 1) with 1. change (2 * 64) with 128.
  cbn [ntt_layers]. change (2 <=? 1) with false. unfold FWD_LENS. cbn [foldl]. reflexivity.
Qed.

Lemma inv_layers_step f l n a :
  2 <= l <= 128 -> 2 * l * n = N -> 0 < n ->
  inv_layers (S f) l (2 * n - 1) a = inv_layers f (Z.shiftl l 1) (n - 1) (inv_layer l a).
Proof.
  intros Hl Hn H0. cbn [inv_layers]. rewrite (proj2 (Z.leb_le l 128)) by lia.
  pose proof (inv_blocks_layer BLOCK_FUEL l (2 * n - 1) n 0 a) as E. rewrite Z.mul_0_r, !Z.sub_0_r in E.
  assert (128 / l = n) as Hd by (unfold N in Hn; symmetry; apply Z.div_unique_exact; lia).
  rewrite E by (unfold BLOCK_FUEL, N in *; nia). unfold inv_layer. rewrite Hd. by replace (2 * n - 1 - n) with (n - 1) by ring.
Qed.

Lemma inv_layers_as_layers a : inv_layers LAYER_FUEL 2 127 a = foldl (fun a l => inv_layer l a) a INV_LENS.
Proof.
  unfold LAYER_FUEL. change 127 with (2 * 64 - 1).
  rewrite (inv_layers_step _ 2 64) by (unfold N; lia). change (64 - 1) with (2 * 32 - 1). change (Z.shiftl 2 1) with 4.
  rewrite (inv_layers_step _ 4 32) by (unfold N; lia). change (32 - 1) with (2 * 16 - 1). change (Z.shiftl 4 1) with 8.
  rewrite (inv_layers_step _ 8 16) by (unfold N; lia). change (16 - 1) with (2 * 8 - 1). change (Z.shiftl 8 1) with 16.
  rewrite (inv_layers_step _ 16 8) by (unfold N; lia). change (8 - 1) with (2 * 4 - 1). change (Z.shiftl 16 1) with 32.
  rewrite (inv_layers_step _ 32 4) by (unfold N; lia). change (4 - 1) with (2 * 2 - 1). change (Z.shiftl 32 1) with 64.
  rewrite (inv_layers_step _ 64 2) by (unfold N; lia). change (2 - 1) with (2 * 1 - 1). change (Z.shiftl 64 1) with 128.
  rewrite (inv_layers_step _ 128 1) by (unfold N; lia). change (Z.shiftl 128 1) with 256.
  cbn [inv_layers]. change (256 <=? 128) with false. unfold INV_LENS. cbn [foldl]. reflexivity.
Qed.

(** ** What a layer computes modulo [Q] *)

Definition bounded (b : Z) (a : list Z) : Prop := forall p, Z.abs (read a p) <= b.

(** The twiddle factor out of the Montgomery domain. *)
Definition root (k : Z) : Z := zeta k * RINV.

Definition fwd_sem (l : Z) (x : Z -> Z) (p : Z) : Z :=
  let z := root (128 / l + p / (2 * l)) in
  if p mod (2 * l) <? l then x p + z * x (p + l) else x (p - l) - z * x p.

Definition inv_sem (l : Z) (x : Z -> Z) (p : Z) : Z :=
  let z := root (2 * (128 / l) - 1 - p / (2 * l)) in
  if p mod (2 * l) <? l then x p + x (p + l) else z * (x p - x (p - l)).

(** The inputs of an inverse layer on which nothing wraps. *)
Definition inv_ready (l : Z) (a : list Z) : Prop :=
  forall p, 0 <= p < N -> p mod (2 * l) < l ->
    is_i16 (read a p) /\ is_i16 (read a (p + l)) /\ is_i16 (read a (p + l) - read a p).

Lemma dyadic l : l ∈ FWD_LENS -> 2 <= l <= 128 /\ 2 * l * (128 / l) = N.
Proof.
  intros H. unfold FWD_LENS in H.
  repeat (apply elem_of_cons in H as [->|H]; [vm_compute; split; [split; discriminate|reflexivity]|]).
  by apply elem_of_nil in H.
Qed.

Lemma read_elem a p : read a p = 0 \/ read a p ∈ a.
Proof. unfold read. destruct (vget a p) eqn:E; cbn; [right; by eapply vget_elem|by left]. Qed.

Lemma read_forall (P : Z -> Prop) a p : P 0 -> Forall P a -> P (read a p).
Proof. intros H0 Ha. destruct (read_elem a p) as [->|Hin]; [done|]. rewrite Forall_forall in Ha. by apply Ha. Qed.

Lemma bounded_forall b a : 0 <= b -> Forall (fun c => Z.abs c <= b) a -> bounded b a.
Proof. intros Hb Ha p. by apply (read_forall (fun c => Z.abs c <= b)). Qed.

Lemma zeta_bound k : Z.abs (zeta k) <= 1659.
Proof.
  revert k. apply bounded_forall; [lia|].
  apply (Forall_impl (fun c => Z.abs c <=? 1659 = true)); [|intros; by apply Z.leb_le].
  apply Forall_forall. intros c Hc. revert c Hc. apply Forall_forall. repeat constructor.
Qed.

Lemma zeta_i16 k : is_i16 (zeta k).
Proof. pose proof (zeta_bound k). unfold is_i16. lia. Qed.

Lemma fqmul_zeta k y : is_i16 y -> fqmul (zeta k) y ≡ₙ root k * y /\ Z.abs (fqmul (zeta k) y) <= Q.
Proof.
  intros Hy. pose proof (zeta_bound k). split.
  - rewrite fqmul_cong by (done || apply zeta_i16). unfold root. apply eq_subrelation; [typeclasses eauto|ring].
  - pose proof (fqmul_bound (zeta k) y 1659 (Q - 1)) as Hb. unfold is_i16, Q in *.
    specialize (Hb ltac:(lia) Hy ltac:(lia) ltac:(lia)). lia.
Qed.

Lemma fwd_spec b k x y :
  b <= 7 * Q -> Z.abs x <= b -> Z.abs y <= b ->
  let r := fwd (zeta k) x y in
  r.1 ≡ₙ x + root k * y /\ r.2 ≡ₙ x - root k * y /\ Z.abs r.1 <= b + Q /\ Z.abs r.2 <= b + Q /\ Z.abs (r.2 - r.1) <= 2 * Q.
Proof.
  intros Hb Hx Hy. destruct (fqmul_zeta k y) as [Ht Hbt]; [unfold is_i16, Q in *; lia|]. unfold fwd. cbv zeta. cbn [fst snd].
  set (t := fqmul (zeta k) y) in *. unfold Q in Hb, Hbt.
  rewrite !i32_small, !i16_small by (unfold is_i16, is_i32; lia).
  split_and!; [apply cong_add; [reflexivity|exact Ht]|apply cong_sub; [reflexivity|exact Ht]|unfold Q; lia..].
Qed.

Lemma bwd_spec k x y :
  is_i16 x -> is_i16 y -> is_i16 (y - x) ->
  let r := bwd (zeta k) x y in
  r.1 ≡ₙ x + y /\ r.2 ≡ₙ root k * (y - x) /\ Z.abs r.1 <= Q /\ Z.abs r.2 <= Q.
Proof.
  intros Hx Hy Hd. unfold bwd. cbv zeta. cbn [fst snd].
  rewrite !i32_small, i16_small by (unfold is_i16, is_i32 in *; lia).
  destruct (fqmul_zeta k (y - x) Hd) as [H1 H2].
  destruct (barrett_reduce_correct (x + y)) as [H3 H4]; [unfold is_i16, BARRETT_LIMIT in *; lia|].
  split_and!; [done|done|unfold Q; lia|done].
Qed.

Lemma layer_partner l p :
  l ∈ FWD_LENS -> 0 <= p < N ->
  (p mod (2 * l) < l -> 0 <= p + l < N /\ (p + l) / (2 * l) = p / (2 * l) /\ (p + l) mod (2 * l) = p mod (2 * l) + l) /\
  (l <= p mod (2 * l) -> 0 <= p - l < N /\ (p - l) / (2 * l) = p / (2 * l) /\ (p - l) mod (2 * l) = p mod (2 * l) - l).
Proof.
  intros [Hl Hn]%dyadic Hp. pose proof (Z.div_mod p (2 * l)) as Hdm. pose proof (Z.mod_pos_bound p (2 * l)) as Hmod.
  set (i := p / (2 * l)) in *. set (r := p mod (2 * l)) in *. set (n := 128 / l) in *.
  assert (0 <= i < n) as Hi by (unfold N in *; nia).
  split; intros Hr; (split; [unfold N in *; nia|split; [symmetry|symmetry]]).
  - apply (Z.div_unique_pos _ _ i (r + l)); lia.
  - apply (Z.mod_unique_pos _ _ i (r + l)); lia.
  - apply (Z.div_unique_pos _ _ i (r - l)); lia.
  - apply (Z.mod_unique_pos _ _ i (r - l)); lia.
Qed.

Lemma read_fwd_layer l a p :
  l ∈ FWD_LENS -> len a = N -> 0 <= p < N ->
  read (fwd_layer l a) p = layer_value (fun i => fwd (zeta (128 / l + i))) l a p.
Proof.
  intros [Hl Hn]%dyadic Ha Hp. unfold fwd_layer. unfold N in *. rewrite read_layer by nia.
  by rewrite (proj2 (Z.ltb_lt _ _)) by lia.
Qed.

Lemma read_inv_layer l a p :
  l ∈ FWD_LENS -> len a = N -> 0 <= p < N ->
  read (inv_layer l a) p = layer_value (fun i => bwd (zeta (2 * (128 / l) - 1 - i))) l a p.
Proof.
  intros [Hl Hn]%dyadic Ha Hp. unfold inv_layer. unfold N in *. rewrite read_layer by nia.
  by rewrite (proj2 (Z.ltb_lt _ _)) by lia.
Qed.

Lemma read_out a p : len a <= p \/ p < 0 -> read a p = 0.
Proof.
  intros [H|H]; unfold read; [by rewrite vget_None|]. unfold vget. by rewrite (proj2 (Z.leb_gt 0 p)) by lia.
Qed.

Lemma bounded_in b a : len a = N -> 0 <= b -> (forall p, 0 <= p < N -> Z.abs (read a p) <= b) -> bounded b a.
Proof.
  intros Ha Hb H p. destruct (decide (0 <= p < N)); [by apply H|]. rewrite read_out by lia. lia.
Qed.

Lemma fwd_layer_spec l a b p :
  l ∈ FWD_LENS -> len a = N -> bounded b a -> b <= 7 * Q -> 0 <= p < N ->
  read (fwd_layer l a) p ≡ₙ fwd_sem l (read a) p /\ Z.abs (read (fwd_layer l a) p) <= b + Q.
Proof.
  intros Hl Ha Hb H7 Hp. rewrite read_fwd_layer by done. unfold layer_value, fwd_sem. cbv zeta. case_if.
  - by destruct (fwd_spec b (128 / l + p / (2 * l)) _ _ H7 (Hb p) (Hb (p + l))) as (H1 & _ & H3 & _).
  - by destruct (fwd_spec b (128 / l + p / (2 * l)) _ _ H7 (Hb (p - l)) (Hb p)) as (_ & H2 & _ & H4 & _).
Qed.

Lemma fwd_layer_len l a : len (fwd_layer l a) = len a.
Proof. apply len_layer. Qed.
Lemma inv_layer_len l a : len (inv_layer l a) = len a.
Proof. apply len_layer. Qed.

Lemma fwd_layer_bounded l a b :
  l ∈ FWD_LENS -> len a = N -> bounded b a -> b <= 7 * Q -> bounded (b + Q) (fwd_layer l a).
Proof.
  intros Hl Ha Hb H7. pose proof (Hb 0). apply bounded_in; [by rewrite fwd_layer_len|unfold Q; lia|].
  intros p Hp. by apply fwd_layer_spec.
Qed.

Lemma fwd_layer_ready l a b :
  l ∈ FWD_LENS -> len a = N -> bounded b a -> b <= 7 * Q -> inv_ready l (fwd_layer l a).
Proof.
  intros Hl Ha Hb H7 p Hp Hr. destruct (layer_partner l p Hl Hp) as [[Hp' [Hd Hm]] _]; [done|].
  rewrite !read_fwd_layer by done. unfold layer_value. cbv zeta. rewrite Hd, Hm.
  rewrite (proj2 (Z.ltb_lt (p mod (2 * l)) l)) by done. pose proof (Z.mod_pos_bound p (2 * l)).
  apply dyadic in Hl as [Hl _]. rewrite (proj2 (Z.ltb_ge (p mod (2 * l) + l) l)) by lia.
  replace (p + l - l) with p by lia.
  destruct (fwd_spec b (128 / l + p / (2 * l)) _ _ H7 (Hb p) (Hb (p + l))) as (_ & _ & H3 & H4 & H5).
  unfold is_i16, Q in *. split_and!; lia.
Qed.

Lemma inv_layer_spec l a p :
  l ∈ FWD_LENS -> len a = N -> inv_ready l a -> 0 <= p < N ->
  read (inv_layer l a) p ≡ₙ inv_sem l (read a) p /\ Z.abs (read (inv_layer l a) p) <= Q.
Proof.
  intros Hl Ha Hr Hp. rewrite read_inv_layer by done. unfold layer_value, inv_sem. cbv zeta.
  set (k := 2 * (128 / l) - 1 - p / (2 * l)). case_if; bool_prop.
  - destruct (Hr p Hp) as (H1 & H2 & H3); [done|]. by destruct (bwd_spec k _ _ H1 H2 H3) as (? & _ & ? & _).
  - destruct (layer_partner l p Hl Hp) as [_ [Hp' [Hd Hm]]]; [done|].
    destruct (Hr (p - l) Hp') as (H1 & H2 & H3).
    { rewrite Hm. pose proof (Z.mod_pos_bound p (2 * l)). apply dyadic in Hl as [Hl _]. lia. }
    replace (p - l + l) with p in * by lia. by destruct (bwd_spec k _ _ H1 H2 H3) as (_ & ? & _ & ?).
Qed.

Lemma bounded_ready l a : bounded Q a -> inv_ready l a.
Proof.
  intros Hb p _ _. pose proof (Hb p). pose proof (Hb (p + l)). unfold is_i16, Q in *. split_and!; lia.
Qed.

Lemma inv_layer_bounded l a : l ∈ FWD_LENS -> len a = N -> inv_ready l a -> bounded Q (inv_layer l a).
Proof.
  intros Hl Ha Hr. apply bounded_in; [by rewrite inv_layer_len|unfold Q; lia|].
  intros p Hp. by apply inv_layer_spec.
Qed.

(** ** The inverse transform undoes the transform *)

Lemma in_zrange_forallb (P : Z -> bool) lo hi i : forallb P (zrange lo hi) = true -> lo <= i < hi -> P i = true.
Proof. intros H Hi. rewrite forallb_forall in H. apply H, list_elem_of_In, elem_of_zrange, Hi. Qed.

Definition congb (a b : Z) : bool := (a - b) mod Q =? 0.

Lemma congb_cong a b : congb a b = true -> a ≡ₙ b.
Proof. apply cong_eval. Qed.

Lemma root_pair_table :
  forallb (fun l => forallb (fun i => congb (root (128 / l + i) * root (2 * (128 / l) - 1 - i)) (-1)) (zrange 0 (128 / l)))
    FWD_LENS = true.
Proof. vm_compute. reflexivity. Qed.

(** The twiddle factors of a block in the two directions. *)
Lemma root_pair l i : l ∈ FWD_LENS -> 0 <= i < 128 / l -> root (128 / l + i) * root (2 * (128 / l) - 1 - i) ≡ₙ -1.
Proof.
  intros Hl Hi. pose proof root_pair_table as H. rewrite forallb_forall in H.
  specialize (H l (proj1 (list_elem_of_In _ _) Hl)). by apply cong_eval, (in_zrange_forallb _ _ _ i H).
Qed.

Ltac cong_ring := apply eq_subrelation; [typeclasses eauto|ring].

Lemma block_index l p : l ∈ FWD_LENS -> 0 <= p < N -> 0 <= p / (2 * l) < 128 / l.
Proof.
  intros [Hl Hn]%dyadic Hp. split; [apply Z.div_pos; lia|]. apply Z.div_lt_upper_bound; lia.
Qed.

Lemma undo_layer_sem l (x y : Z -> Z) c p :
  l ∈ FWD_LENS -> 0 <= p < N -> (forall q, 0 <= q < N -> y q ≡ₙ c * fwd_sem l x q) -> inv_sem l y p ≡ₙ 2 * c * x p.
Proof.
  intros Hl Hp Hy. pose proof (Z.mod_pos_bound p (2 * l)) as Hm. destruct (dyadic l Hl) as [Hl2 _].
  destruct (layer_partner l p Hl Hp) as [H1 H2]. unfold inv_sem. cbv zeta.
  pose proof (root_pair l (p / (2 * l)) Hl (block_index l p Hl Hp)) as Hz. case_if; bool_prop.
  - destruct (H1 E) as (Hq & Hd & Hr). rewrite (Hy p Hp), (Hy (p + l) Hq). unfold fwd_sem. cbv zeta. rewrite Hd, Hr.
    rewrite (proj2 (Z.ltb_lt (p mod (2 * l)) l)), (proj2 (Z.ltb_ge (p mod (2 * l) + l) l)) by lia.
    replace (p + l - l) with p by lia. cong_ring.
  - destruct (H2 E) as (Hq & Hd & Hr). rewrite (Hy p Hp), (Hy (p - l) Hq). unfold fwd_sem. cbv zeta. rewrite Hd, Hr.
    rewrite (proj2 (Z.ltb_ge (p mod (2 * l)) l)), (proj2 (Z.ltb_lt (p mod (2 * l) - l) l)) by lia.
    replace (p - l + l) with p by lia. set (z := root (128 / l + _)) in *. set (z' := root (2 * _ - 1 - _)) in *.
    transitivity (-2 * c * x p * (z * z')); [cong_ring|]. rewrite Hz. cong_ring.
Qed.

Lemma undo_layer l a b bnd c :
  l ∈ FWD_LENS -> len a = N -> bounded bnd a -> bnd <= 7 * Q -> len b = N -> inv_ready l b ->
  (forall p, 0 <= p < N -> read b p ≡ₙ c * read (fwd_layer l a) p) ->
  forall p, 0 <= p < N -> read (inv_layer l b) p ≡ₙ 2 * c * read a p.
Proof.
  intros Hl Ha Hbnd H7 Hb Hr Hc p Hp. etransitivity; [by apply inv_layer_spec|].
  apply undo_layer_sem; [done|done|]. intros q Hq. rewrite Hc by done.
  apply cong_mul; [reflexivity|]. by eapply fwd_layer_spec.
Qed.

Lemma fwd_layers_kept a (ls : list Z) b :
  len a = N -> bounded b a -> Forall (fun l => l ∈ FWD_LENS) ls -> b + Q * len ls <= 8 * Q ->
  len (foldl (fun a l => fwd_layer l a) a ls) = N /\ bounded (b + Q * len ls) (foldl (fun a l => fwd_layer l a) a ls).
Proof.
  intros Ha Hb Hls. revert a b Ha Hb. induction Hls as [|l ls Hl Hls IH]; intros a b Ha Hb H8.
  - cbn [foldl]. change (len (@nil Z)) with 0. by rewrite Z.mul_0_r, Z.add_0_r.
  - cbn [foldl]. change (len (l :: ls)) with (Z.of_nat (S (length ls))) in *. rewrite Nat2Z.inj_succ in *. fold (len ls) in *.
    replace (b + Q * Z.succ (len ls)) with (b + Q + Q * len ls) in * by lia. pose proof (len_nonneg ls).
    apply IH; [by rewrite fwd_layer_len|apply fwd_layer_bounded; [done..|unfold Q in *; lia]|done].
Qed.

(** Undoing the layers [ls], the last one first, scales by [2] for each. *)
Lemma undo_layers ls a bnd b c :
  Forall (fun l => l ∈ FWD_LENS) ls -> len a = N -> bounded bnd a -> bnd + Q * len ls <= 8 * Q ->
  len b = N -> bounded Q b ->
  (forall p, 0 <= p < N -> read b p ≡ₙ c * read (foldl (fun a l => fwd_layer l a) a ls) p) ->
  let r := foldl (fun a l => inv_layer l a) b (reverse ls) in
  len r = N /\ bounded Q r /\ forall p, 0 <= p < N -> read r p ≡ₙ 2 ^ len ls * c * read a p.
Proof.
  revert b c. induction ls as [|l ls IH] using rev_ind; intros b c Hls Ha Hbnd H8 Hb HbQ Hc; cbv zeta.
  - change (2 ^ len (@nil Z)) with 1. change (reverse (@nil Z)) with (@nil Z). cbn [foldl] in *.
    split_and!; [done|done|]. intros p Hp. rewrite Hc by done. cong_ring.
  - apply Forall_app in Hls as [Hls Hl]. apply Forall_cons in Hl as [Hl _]. rewrite len_app in *. change (len [l]) with 1 in *.
    rewrite foldl_snoc in Hc. rewrite reverse_snoc. cbn [foldl].
    destruct (fwd_layers_kept a ls bnd) as [Hla Hba]; [done..|unfold Q in *; lia|].
    set (d := foldl _ a ls) in *. pose proof (bounded_ready l b HbQ) as Hr.
    pose proof (undo_layer l d b (bnd + Q * len ls) c Hl Hla Hba ltac:(lia) Hb Hr Hc) as Hu.
    destruct (IH (inv_layer l b) (2 * c)) as (H1 & H2 & H3); [done..|unfold Q in *; lia| | |done|].
    + by rewrite inv_layer_len.
    + by apply inv_layer_bounded.
    + split_and!; [done|done|]. intros p Hp. rewrite H3 by done. rewrite Z.pow_add_r by (lia || apply len_nonneg). cong_ring.
Qed.

(** The first inverse layer works on coefficients as large as [8 * Q], of which
    only the differences of its pairs have to fit. *)
Lemma undo_all ls l a e c :
  Forall (fun l => l ∈ FWD_LENS) ls -> l ∈ FWD_LENS -> len a = N -> bounded Q a -> Q + Q * len ls <= 7 * Q ->
  len e = N -> inv_ready l e ->
  (forall p, 0 <= p < N -> read e p ≡ₙ c * read (foldl (fun a l => fwd_layer l a) a (ls ++ [l])) p) ->
  let r := foldl (fun a l => inv_layer l a) e (l :: reverse ls) in
  len r = N /\ bounded Q r /\ forall p, 0 <= p < N -> read r p ≡ₙ 2 ^ len ls * (2 * c) * read a p.
Proof.
  intros Hls Hl Ha HbQ H7 He Hr Hc. rewrite foldl_snoc in Hc. cbn [foldl].
  destruct (fwd_layers_kept a ls Q) as [Hd Hdb]; [done..|unfold Q in *; lia|].
  apply (undo_layers ls a Q); [done..|unfold Q in *; lia| | |].
  - by rewrite inv_layer_len.
  - by apply inv_layer_bounded.
  - by eapply undo_layer; [done|exact Hd|exact Hdb|done..].
Qed.

Lemma lens_split : FWD_LENS = [128; 64; 32; 16; 8; 4] ++ [2] /\ INV_LENS = 2 :: reverse [128; 64; 32; 16; 8; 4].
Proof. done. Qed.

Lemma lens_in : Forall (fun l => l ∈ FWD_LENS) [128; 64; 32; 16; 8; 4] /\ 2 ∈ FWD_LENS.
Proof. unfold FWD_LENS. split; [repeat constructor; set_solver|set_solver]. Qed.

Lemma inv_layers_ntt a e c :
  len a = N -> bounded Q a -> len e = N -> inv_ready 2 e ->
  (forall p, 0 <= p < N -> read e p ≡ₙ c * read (ntt a) p) ->
  let r := inv_layers LAYER_FUEL 2 127 e in
  len r = N /\ bounded Q r /\ forall p, 0 <= p < N -> read r p ≡ₙ 128 * c * read a p.
Proof.
  intros Ha HbQ He Hr Hc. cbv zeta. rewrite inv_layers_as_layers. rewrite ntt_as_layers in Hc.
  destruct lens_split as [H1 H2], lens_in as [H3 H4]. rewrite H2. rewrite H1 in Hc.
  destruct (undo_all [128; 64; 32; 16; 8; 4] 2 a e c H3 H4 Ha HbQ ltac:(vm_compute; discriminate) He Hr Hc) as (G1 & G2 & G3).
  split_and!; [exact G1|exact G2|]. intros p Hp. rewrite (G3 p Hp).
  replace (2 ^ len [128; 64; 32; 16; 8; 4]) with 64 by reflexivity. cong_ring.
Qed.

Lemma ntt_kept a : len a = N -> bounded Q a -> len (ntt a) = N /\ bounded (8 * Q) (ntt a) /\ inv_ready 2 (ntt a).
Proof.
  intros Ha HbQ. rewrite ntt_as_layers. destruct lens_split as [H1 _], lens_in as [H3 H4]. rewrite H1, foldl_snoc.
  destruct (fwd_layers_kept a [128; 64; 32; 16; 8; 4] Q) as [Hd Hdb]; [done..|vm_compute; discriminate|].
  replace (Q + Q * len [128; 64; 32; 16; 8; 4]) with (7 * Q) in Hdb by reflexivity.
  split_and!; [by rewrite fwd_layer_len| |].
  - replace (8 * Q) with (7 * Q + Q) by reflexivity. apply fwd_layer_bounded; [done..|reflexivity].
  - by eapply fwd_layer_ready; [..|exact Hdb|].
Qed.

Lemma read_map f a p : 0 <= p < len a -> read (map f a) p = f (read a p).
Proof.
  intros Hp. unfold read, vget. rewrite (proj2 (Z.leb_le 0 p)) by lia. rewrite list_lookup_fmap.
  destruct (a !! Z.to_nat p) eqn:E; [done|]. apply lookup_ge_None in E. unfold len in Hp. lia.
Qed.

Lemma fqmul_final c : Z.abs c <= Q -> fqmul c F_INV_NTT ≡ₙ c * F_INV_NTT * RINV /\ -74 <= fqmul c F_INV_NTT < Q.
Proof.
  intros Hc. assert (is_i16 c) by (unfold is_i16, Q in *; lia). assert (is_i16 F_INV_NTT) by (unfold is_i16, F_INV_NTT; lia).
  split; [by apply fqmul_cong|]. pose proof (fqmul_bound c F_INV_NTT Q 74) as Hb. unfold F_INV_NTT, Q in *.
  specialize (Hb ltac:(done) ltac:(done) ltac:(lia) ltac:(lia)). lia.
Qed.

Lemma inv_ntt_read a e c p :
  len a = N -> bounded Q a -> len e = N -> inv_ready 2 e -> (forall p, 0 <= p < N -> read e p ≡ₙ c * read (ntt a) p) ->
  0 <= p < N -> read (inv_ntt e) p ≡ₙ c * read a p * 2 ^ 16 /\ -74 <= read (inv_ntt e) p < Q.
Proof.
  intros Ha HbQ He Hr Hc Hp. destruct (inv_layers_ntt a e c Ha HbQ He Hr Hc) as (Hl & Hb & Hd). unfold inv_ntt.
  change (len ZETAS_FWD - 1) with 127. rewrite read_map by (rewrite Hl; done).
  destruct (fqmul_final _ (Hb p)) as [Hf Hr']. split; [|exact Hr']. etransitivity; [exact Hf|]. rewrite (Hd p Hp).
  transitivity (c * read a p * (128 * F_INV_NTT * RINV)); [cong_ring|].
  apply cong_mul; [reflexivity|]. by apply cong_eval.
Qed.

(** ** The transform evaluates the polynomial

    After the layer of width [l] the array holds [N / l] blocks; block [b] is the
    polynomial modulo [X ^ l - block_root l b]. *)

Fixpoint zsum (n : nat) (f : Z -> Z) : Z :=
  match n with O => 0 | S n => zsum n f + f (Z.of_nat n) end.

Lemma zsum_cong n f g : (forall m, 0 <= m < Z.of_nat n -> f m ≡ₙ g m) -> zsum n f ≡ₙ zsum n g.
Proof.
  induction n as [|n IH]; intros H; cbn [zsum]; [reflexivity|].
  apply cong_add; [apply IH; intros; apply H; lia|apply H; lia].
Qed.

Lemma zsum_ext n f g : (forall m, 0 <= m < Z.of_nat n -> f m = g m) -> zsum n f = zsum n g.
Proof.
  induction n as [|n IH]; intros H; cbn [zsum]; [reflexivity|].
  f_equal; [apply IH; intros; apply H; lia|apply H; lia].
Qed.

Lemma zsum_scale c n f : c * zsum n f = zsum n (fun m => c * f m).
Proof. induction n as [|n IH]; cbn [zsum]; lia. Qed.

Lemma zsum_add n f g : zsum n f + zsum n g = zsum n (fun m => f m + g m).
Proof. induction n as [|n IH]; cbn [zsum]; lia. Qed.

(** Even and odd terms. *)
Lemma zsum_double n f : zsum (2 * n) f = zsum n (fun m => f (2 * m)) + zsum n (fun m => f (2 * m + 1)).
Proof.
  induction n as [|n IH]; [done|]. replace (2 * S n)%nat with (S (S (2 * n))) by lia. cbn [zsum]. rewrite IH.
  replace (Z.of_nat (2 * n)) with (2 * Z.of_nat n) by lia. replace (Z.of_nat (S (2 * n))) with (2 * Z.of_nat n + 1) by lia. lia.
Qed.

Definition block_root (l b : Z) : Z :=
  if l =? N then -1 else (if Z.even b then 1 else -1) * root (128 / l + b / 2).

Definition holds_blocks (l : Z) (a c : list Z) : Prop :=
  forall p, 0 <= p < N ->
    read c p ≡ₙ zsum (Z.to_nat (N / l)) (fun m => read a (p mod l + l * m) * block_root l (p / l) ^ m).

Lemma block_root_table :
  forallb (fun l => forallb (fun i => congb (block_root (2 * l) i) (root (128 / l + i) * root (128 / l + i))) (zrange 0 (128 / l)))
    FWD_LENS = true.
Proof. vm_compute. reflexivity. Qed.

(** The twiddle factor of a block is a square root of the block's root. *)
Lemma block_root_square l i :
  l ∈ FWD_LENS -> 0 <= i < 128 / l -> block_root (2 * l) i ≡ₙ root (128 / l + i) ^ 2.
Proof.
  intros Hl Hi. pose proof block_root_table as H. rewrite forallb_forall in H.
  specialize (H l (proj1 (list_elem_of_In _ _) Hl)). rewrite Z.pow_2_r. by apply cong_eval, (in_zrange_forallb _ _ _ i H).
Qed.

Lemma cong_pow a b m : 0 <= m -> a ≡ₙ b -> a ^ m ≡ₙ b ^ m.
Proof.
  intros Hm H. pattern m. apply natlike_ind; [reflexivity| |done]. intros n Hn IH.
  rewrite !Z.pow_succ_r by done. by apply cong_mul.
Qed.

(** Two halves of a sum in powers of [z ^ 2] make one in powers of [z]. *)
Lemma merge_halves n (f : Z -> Z) (beta z : Z) :
  beta ≡ₙ z ^ 2 ->
  zsum n (fun m => f (2 * m) * beta ^ m) + z * zsum n (fun m => f (2 * m + 1) * beta ^ m) ≡ₙ
  zsum (2 * n) (fun m => f m * z ^ m).
Proof.
  intros Hb. rewrite zsum_double, zsum_scale. apply cong_add; apply zsum_cong; intros m Hm.
  - apply cong_mul; [reflexivity|]. rewrite Z.pow_mul_r by lia. apply cong_pow; [lia|done].
  - rewrite Z.pow_add_r, Z.pow_mul_r, Z.pow_1_r by lia. rewrite (cong_pow _ _ m ltac:(lia) Hb). cong_ring.
Qed.

Lemma N_div l : l ∈ FWD_LENS -> Z.to_nat (N / l) = (2 * Z.to_nat (N / (2 * l)))%nat /\ N / (2 * l) = 128 / l.
Proof.
  intros [Hl Hn]%dyadic. set (n := 128 / l) in *.
  assert (N / (2 * l) = n) as -> by (symmetry; apply Z.div_unique_exact; lia).
  assert (N / l = 2 * n) as -> by (symmetry; apply Z.div_unique_exact; lia). split; [|done]. unfold N in *. nia.
Qed.

Lemma block_root_even l i : l <> N -> block_root l (2 * i) = root (128 / l + i).
Proof.
  intros Hl. unfold block_root. rewrite (proj2 (Z.eqb_neq l N)), Z.even_mul by done. cbn [Z.even orb].
  rewrite (Z.mul_comm 2 i), Z.div_mul by lia. ring.
Qed.

Lemma block_root_odd l i : l <> N -> block_root l (2 * i + 1) = - root (128 / l + i).
Proof.
  intros Hl. unfold block_root. rewrite (proj2 (Z.eqb_neq l N)) by done.
  assert (Z.even (2 * i + 1) = false) as -> by (rewrite Z.even_add, Z.even_mul; done).
  assert ((2 * i + 1) / 2 = i) as -> by (symmetry; apply (Z.div_unique_pos _ _ i 1); lia). ring.
Qed.

Lemma fwd_layer_blocks l a c b :
  l ∈ FWD_LENS -> len c = N -> bounded b c -> b <= 7 * Q -> holds_blocks (2 * l) a c -> holds_blocks l a (fwd_layer l c).
Proof.
  intros Hl Hc Hb H7 Hh p Hp. etransitivity; [by eapply fwd_layer_spec|]. destruct (N_div l Hl) as [-> Hn2].
  set (n := Z.to_nat (N / (2 * l))) in *. destruct (dyadic l Hl) as [Hl2 HlN].
  destruct (layer_partner l p Hl Hp) as [P1 P2]. pose proof (block_index l p Hl Hp) as Hi.
  pose proof (block_root_square l _ Hl Hi) as Hsq. unfold fwd_sem. cbv zeta.
  set (i := p / (2 * l)) in *. set (z := root (128 / l + i)) in *.
  pose proof (Z.div_mod p (2 * l) ltac:(lia)) as Hdm. fold i in Hdm. pose proof (Z.mod_pos_bound p (2 * l) ltac:(lia)) as Hm.
  set (r := p mod (2 * l)) in *. destruct (r <? l) eqn:E; bool_prop.
  - destruct (P1 E) as (Hq & Hd & Hr). rewrite (Hh p Hp), (Hh (p + l) Hq). rewrite Hr, Hd. fold i r.
    assert (p / l = 2 * i) as -> by (symmetry; apply (Z.div_unique_pos _ _ _ r); lia).
    assert (p mod l = r) as -> by (symmetry; apply (Z.mod_unique_pos _ _ (2 * i) r); lia).
    rewrite block_root_even by (unfold N; lia). fold z.
    etransitivity; [|exact (merge_halves n (fun m => read a (r + l * m)) (block_root (2 * l) i) z Hsq)].
    apply eq_subrelation; [typeclasses eauto|]. f_equal; [|f_equal]; apply zsum_ext; intros m _; do 2 f_equal; ring.
  - destruct (P2 E) as (Hq & Hd & Hr). rewrite (Hh p Hp), (Hh (p - l) Hq). rewrite Hr, Hd. fold i r.
    assert (p / l = 2 * i + 1) as -> by (symmetry; apply (Z.div_unique_pos _ _ _ (r - l)); lia).
    assert (p mod l = r - l) as -> by (symmetry; apply (Z.mod_unique_pos _ _ (2 * i + 1) (r - l)); lia).
    rewrite block_root_odd by (unfold N; lia). fold z.
    assert (block_root (2 * l) i ≡ₙ (- z) ^ 2) as Hsq' by (rewrite Hsq; cong_ring).
    etransitivity; [|exact (merge_halves n (fun m => read a (r - l + l * m)) (block_root (2 * l) i) (- z) Hsq')].
    apply eq_subrelation; [typeclasses eauto|]. rewrite Z.mul_opp_l, Z.add_opp_r.
    f_equal; [|f_equal]; apply zsum_ext; intros m _; do 2 f_equal; ring.
Qed.

Fixpoint halving (w : Z) (ls : list Z) : Prop :=
  match ls with [] => True | l :: ls => w = 2 * l /\ l ∈ FWD_LENS /\ halving l ls end.

Lemma fwd_layers_blocks ls w a c b :
  halving w ls -> len c = N -> bounded b c -> b + Q * len ls <= 8 * Q -> holds_blocks w a c ->
  holds_blocks (default w (last ls)) a (foldl (fun a l => fwd_layer l a) c ls).
Proof.
  revert w c b. induction ls as [|l ls IH]; intros w c b Hh Hc Hb H8 Hw; [done|].
  destruct Hh as (-> & Hl & Hh). cbn [foldl]. pose proof (len_nonneg ls).
  assert (len (l :: ls) = len ls + 1) as Hlen by (unfold len; cbn [length]; lia). rewrite Hlen in H8.
  assert (b <= 7 * Q) by (unfold Q in *; lia).
  replace (default (2 * l) (last (l :: ls))) with (default l (last ls)) by (rewrite last_cons; by destruct (last ls)).
  apply (IH l _ (b + Q)); [done|by rewrite fwd_layer_len|by apply fwd_layer_bounded|lia|by eapply fwd_layer_blocks].
Qed.

(** Pair [i] of the result is the polynomial modulo [X ^ 2 - gamma i]. *)
Definition gamma (i : Z) : Z := block_root 2 i.

Lemma ntt_read a i r :
  len a = N -> bounded Q a -> 0 <= i < 128 -> 0 <= r < 2 ->
  read (ntt a) (2 * i + r) ≡ₙ zsum 128 (fun m => read a (2 * m + r) * gamma i ^ m).
Proof.
  intros Ha HbQ Hi Hr. rewrite ntt_as_layers.
  assert (holds_blocks N a a) as H0.
  { intros p Hp. rewrite Z.div_same by done. change (Z.to_nat 1) with 1%nat. cbn [zsum Z.of_nat].
    rewrite Z.mul_0_r, Z.add_0_r, Z.pow_0_r, Z.mod_small by done. cong_ring. }
  assert (halving N FWD_LENS) as Hh.
  { destruct lens_split as [E _]. pose proof lens_in as [H1 H2]. rewrite E at 1. rewrite !Forall_cons in H1.
    cbn [halving app]. naive_solver. }
  pose proof (fwd_layers_blocks FWD_LENS N a a Q Hh Ha HbQ ltac:(vm_compute; discriminate) H0 (2 * i + r)) as H.
  change (default N (last FWD_LENS)) with 2 in H. specialize (H ltac:(unfold N; lia)).
  assert ((2 * i + r) mod 2 = r) as Hm by (symmetry; apply (Z.mod_unique_pos _ _ i r); lia).
  assert ((2 * i + r) / 2 = i) as Hd by (symmetry; apply (Z.div_unique_pos _ _ i r); lia).
  rewrite Hm, Hd in H. etransitivity; [exact H|]. change (Z.to_nat (N / 2)) with 128%nat.
  apply zsum_cong. intros m _. unfold gamma. rewrite (Z.add_comm r). reflexivity.
Qed.
