(* ===== verification/RlwePoly.v ===== *)
(** * Polynomials and their products

    Models [crates/msphf-core/src/rlwe/poly.rs] and [polyvec.rs], and shows what
    the transform, the coefficient-wise product and the inverse transform compute
    together. *)

From S2P Require Import Prelude RlweArith RlweNtt.
From Stdlib Require Import Morphisms Setoid.

(** ** Operations *)

Module Poly.

Record t := { coeffs : list Z }.

Definition zero : t := {| coeffs := replicate 256 0 |}.
Definition from_coeffs (c : list Z) : t := {| coeffs := c |}.
Definition to_ntt (p : t) : t := {| coeffs := ntt (coeffs p) |}.
Definition from_ntt (p : t) : t := {| coeffs := inv_ntt (coeffs p) |}.

Definition reduce (p : t) : t :=
  {| coeffs := map (fun c => let reduced := barrett_reduce c in
                             if reduced <? 0 then i16 (reduced + Q) else reduced) (coeffs p) |}.

Definition to_mont (p : t) : t := reduce p.

Definition add_assign (p other : t) : t := {| coeffs := zip_with montgomery_add (coeffs p) (coeffs other) |}.
Definition sub_assign (p other : t) : t := {| coeffs := zip_with montgomery_sub (coeffs p) (coeffs other) |}.
Definition pointwise_mul (p other : t) : t := {| coeffs := zip_with fqmul (coeffs p) (coeffs other) |}.

(** An array of [N] 16-bit coefficients. *)
Definition wf (p : t) : Prop := len (coeffs p) = N /\ Forall is_i16 (coeffs p).

(** Coefficients in the range [0..Q). *)
Definition reduced (p : t) : Prop := len (coeffs p) = N /\ Forall (fun c => 0 <= c < Q) (coeffs p).

End Poly.

Module PolyVec.

Record t := { polys : list Poly.t }.

Definition zero : t := {| polys := [Poly.zero; Poly.zero; Poly.zero] |}.
Definition ntt (v : t) : t := {| polys := map Poly.to_ntt (polys v) |}.
Definition inv_ntt (v : t) : t := {| polys := map Poly.from_ntt (polys v) |}.

End PolyVec.

(** ** Coefficients of zipped arrays *)

Lemma len_zip (f : Z -> Z -> Z) a b : len a = len b -> len (zip_with f a b) = len a.
Proof. unfold len. rewrite length_zip_with. lia. Qed.

Lemma read_zip f a b p : len a = len b -> 0 <= p < len a -> read (zip_with f a b) p = f (read a p) (read b p).
Proof.
  intros Hl Hp. unfold read, vget, len in *. rewrite (proj2 (Z.leb_le 0 p)) by lia. rewrite lookup_zip_with.
  destruct (lookup_lt_is_Some_2 a (Z.to_nat p)) as [x ->]; [lia|].
  destruct (lookup_lt_is_Some_2 b (Z.to_nat p)) as [y ->]; [lia|]. done.
Qed.

Lemma list_of_reads a : (forall p, 0 <= p < len a -> read a p ∈ a).
Proof.
  intros p Hp. destruct (vget_is_Some a p Hp) as [x Hx]. unfold read. rewrite Hx. by eapply vget_elem.
Qed.

Lemma Forall_reads (P : Z -> Prop) a : (forall p, 0 <= p < len a -> P (read a p)) <-> Forall P a.
Proof.
  split.
  - intros H. apply Forall_lookup. intros i x Hi. specialize (H (Z.of_nat i)). unfold read, vget, len in H.
    rewrite (proj2 (Z.leb_le 0 (Z.of_nat i))), Nat2Z.id, Hi in H by lia. apply H. apply lookup_lt_Some in Hi. lia.
  - intros H p Hp. rewrite Forall_forall in H. by apply H, list_of_reads.
Qed.

Lemma reduced_bounded a : Forall (fun c => 0 <= c < Q) a -> bounded Q a.
Proof. intros H. apply bounded_forall; [done|]. eapply Forall_impl; [exact H|]. cbn. intros; lia. Qed.

(** ** Ranges kept by the operations *)

Lemma reduce_coeff c :
  is_i16 c -> (let reduced := barrett_reduce c in if reduced <? 0 then i16 (reduced + Q) else reduced) = c mod Q.
Proof.
  intros Hc. destruct (barrett_reduce_correct c) as [Hcong Hb]; [unfold is_i16, BARRETT_LIMIT in *; lia|]. cbv zeta.
  apply cong_mod_eq in Hcong. rewrite <- Hcong. case_if; bool_prop.
  - rewrite i16_small by (unfold is_i16, Q; lia). unfold Q. mlia.
  - unfold Q. mlia.
Qed.

Lemma reduce_reduced p :
  Poly.wf p -> Poly.reduced (Poly.reduce p) /\
  forall i, 0 <= i < N -> read (Poly.coeffs (Poly.reduce p)) i = read (Poly.coeffs p) i mod Q.
Proof.
  intros [Hl Hf].
  assert (forall i, 0 <= i < N -> read (Poly.coeffs (Poly.reduce p)) i = read (Poly.coeffs p) i mod Q) as Hr.
  { intros i Hi. cbn [Poly.reduce Poly.coeffs]. rewrite read_map by lia. apply reduce_coeff. rewrite <- Forall_reads in Hf. apply Hf. lia. }
  assert (len (Poly.coeffs (Poly.reduce p)) = N) as Hlen by (cbn; unfold len in *; by rewrite length_map).
  split; [split; [done|]|done]. apply Forall_reads. intros i Hi. rewrite Hr by lia. by apply Z.mod_pos_bound.
Qed.

Lemma zip_reduced (f g : Z -> Z -> Z) a b :
  (forall x y, 0 <= x < Q -> 0 <= y < Q -> f x y = g x y mod Q) ->
  len a = N -> Forall (fun c => 0 <= c < Q) a -> len b = N -> Forall (fun c => 0 <= c < Q) b ->
  Poly.reduced {| Poly.coeffs := zip_with f a b |} /\
  forall i, 0 <= i < N -> read (zip_with f a b) i = g (read a i) (read b i) mod Q.
Proof.
  intros Hf Hla Ha Hlb Hb. rewrite <- Forall_reads in Ha, Hb.
  assert (forall i, 0 <= i < N -> read (zip_with f a b) i = g (read a i) (read b i) mod Q) as Hr.
  { intros i Hi. rewrite read_zip by lia. apply Hf; [apply Ha|apply Hb]; lia. }
  split; [|done]. split; cbn [Poly.coeffs]; [rewrite len_zip; lia|]. apply Forall_reads. intros i Hi.
  rewrite len_zip in Hi by lia. rewrite Hr by lia. by apply Z.mod_pos_bound.
Qed.

(** On reduced polynomials addition and subtraction are those of the ring. *)
Lemma add_assign_reduced p q :
  Poly.reduced p -> Poly.reduced q -> Poly.reduced (Poly.add_assign p q) /\
  forall i, 0 <= i < N -> read (Poly.coeffs (Poly.add_assign p q)) i = (read (Poly.coeffs p) i + read (Poly.coeffs q) i) mod Q.
Proof. intros [? ?] [? ?]. apply zip_reduced; [apply montgomery_add_canonical|done..]. Qed.

Lemma sub_assign_reduced p q :
  Poly.reduced p -> Poly.reduced q -> Poly.reduced (Poly.sub_assign p q) /\
  forall i, 0 <= i < N -> read (Poly.coeffs (Poly.sub_assign p q)) i = (read (Poly.coeffs p) i - read (Poly.coeffs q) i) mod Q.
Proof. intros [? ?] [? ?]. apply zip_reduced; [apply montgomery_sub_canonical|done..]. Qed.

(** ** Products

    The transform stops at pairs of coefficients, so the even and the odd
    coefficients are transformed apart. *)

(** The product of [x] and [y] modulo [Y ^ 128 + 1]. *)
Definition negacyclic (x y : Z -> Z) (m : Z) : Z :=
  zsum 128 (fun i => if i <=? m then x i * y (m - i) else - (x i * y (128 + m - i))).

(** The even coefficients times the even ones, the odd ones times the odd ones. *)
Definition split_mul (a b : list Z) : list Z :=
  map (fun p => negacyclic (fun i => read a (2 * i + p mod 2)) (fun j => read b (2 * j + p mod 2)) (p / 2) mod Q) (zrange 0 N).

(** Coefficient [p] of the product in the ring modulo [X ^ 256 + 1]. *)
Definition ring_mul (a b : list Z) (p : Z) : Z :=
  zsum 256 (fun i => if i <=? p then read a i * read b (p - i) else - (read a i * read b (256 + p - i))) mod Q.

Lemma zsum_app n k f : zsum (n + k) f = zsum n f + zsum k (fun m => f (Z.of_nat n + m)).
Proof.
  induction k as [|k IH]; [rewrite Nat.add_0_r; cbn; lia|]. rewrite Nat.add_succ_r. cbn [zsum]. rewrite IH, Nat2Z.inj_add. lia.
Qed.

Lemma zsum_swap n k (f : Z -> Z -> Z) : zsum n (fun i => zsum k (f i)) = zsum k (fun j => zsum n (fun i => f i j)).
Proof.
  induction n as [|n IH]; cbn [zsum].
  - symmetry. induction k as [|k IH]; cbn [zsum]; lia.
  - by rewrite IH, zsum_add.
Qed.

(** A sum over a full turn may start anywhere. *)
Lemma zsum_rotate (n : nat) (i : Z) f :
  0 <= i <= Z.of_nat n -> zsum n (fun m => if i <=? m then f (m - i) else f (Z.of_nat n + m - i)) = zsum n f.
Proof.
  intros Hi. set (k := Z.to_nat i). set (d := (n - k)%nat).
  assert (zsum n f = zsum (d + k) f) as -> by (f_equal; lia).
  assert (forall h, zsum n h = zsum (k + d) h) as -> by (intros; f_equal; lia). rewrite !zsum_app, Z.add_comm. f_equal.
  - apply zsum_ext. intros m Hm. rewrite (proj2 (Z.leb_le _ _)) by lia. f_equal. lia.
  - apply zsum_ext. intros m Hm. rewrite (proj2 (Z.leb_gt _ _)) by lia. f_equal. lia.
Qed.

Lemma negacyclic_eval (x y : Z -> Z) g :
  g ^ 128 ≡ₙ -1 ->
  zsum 128 (fun m => negacyclic x y m * g ^ m) ≡ₙ zsum 128 (fun i => x i * g ^ i) * zsum 128 (fun j => y j * g ^ j).
Proof.
  intros Hg. set (Y := zsum 128 (fun j => y j * g ^ j)).
  set (t := fun m i => (if i <=? m then x i * y (m - i) else - (x i * y (128 + m - i))) * g ^ m).
  transitivity (zsum 128 (fun i => zsum 128 (fun m => t m i))).
  { rewrite zsum_swap. apply zsum_cong. intros m _. unfold negacyclic, t. rewrite Z.mul_comm, zsum_scale.
    apply zsum_cong. intros i _. cong_ring. }
  rewrite Z.mul_comm, zsum_scale. apply zsum_cong. intros i Hi.
  transitivity (zsum 128 (fun m => if i <=? m then x i * g ^ i * (y (m - i) * g ^ (m - i))
                                   else x i * g ^ i * (y (Z.of_nat 128 + m - i) * g ^ (Z.of_nat 128 + m - i)))).
  - apply zsum_cong. intros m Hm. unfold t. change (Z.of_nat 128) with 128. case_if; bool_prop.
    + replace (g ^ m) with (g ^ i * g ^ (m - i)) by (rewrite <- Z.pow_add_r by lia; f_equal; lia). cong_ring.
    + transitivity (x i * y (128 + m - i) * (g ^ 128 * g ^ m)); [rewrite Hg; cong_ring|].
      replace (g ^ 128 * g ^ m) with (g ^ i * g ^ (128 + m - i)) by (rewrite <- !Z.pow_add_r by lia; f_equal; lia). cong_ring.
  - rewrite (zsum_rotate 128 i (fun j => x i * g ^ i * (y j * g ^ j))) by lia.
    rewrite <- zsum_scale. fold Y. generalize Y. intros y'. cong_ring.
Qed.

Definition square (g : Z) : Z := g * g mod Q.

Lemma square_pow g h m : 0 <= m -> h ≡ₙ g ^ m -> square h ≡ₙ g ^ (2 * m).
Proof.
  intros Hm H. unfold square. rewrite cong_mod, H, <- Z.pow_add_r by done. by replace (2 * m) with (m + m) by ring.
Qed.

Lemma gamma_table : forallb (fun i => congb (Nat.iter 7 square (gamma i)) (-1)) (zrange 0 128) = true.
Proof. vm_compute. reflexivity. Qed.

Lemma gamma_root i : 0 <= i < 128 -> gamma i ^ 128 ≡ₙ -1.
Proof.
  intros Hi. pose proof (congb_cong _ _ (in_zrange_forallb _ _ _ i gamma_table Hi)) as H. cbn [Nat.iter] in H.
  rewrite <- H. symmetry. generalize (gamma i). intros g. change 128 with (2 * (2 * (2 * (2 * (2 * (2 * (2 * 1))))))).
  do 7 (apply square_pow; [lia|]). by rewrite Z.pow_1_r.
Qed.

(** ** What the coefficient-wise product computes *)

Lemma map_zrange_read f p : 0 <= p < N -> read (map f (zrange 0 N)) p = f p.
Proof.
  intros Hp. unfold read, vget. rewrite (proj2 (Z.leb_le 0 p)), list_lookup_fmap by lia. unfold zrange.
  rewrite (lookup_seqZ_lt 0 (N - 0) (Z.to_nat p)) by lia. cbn. f_equal. lia.
Qed.

Lemma len_map_zrange (f : Z -> Z) : len (map f (zrange 0 N)) = N.
Proof. unfold len. rewrite length_map. unfold zrange. rewrite length_seqZ. unfold N. lia. Qed.

Lemma split_mul_reduced a b : len (split_mul a b) = N /\ bounded Q (split_mul a b).
Proof.
  split; [apply len_map_zrange|]. apply reduced_bounded, Forall_reads. intros p Hp.
  unfold split_mul in *. rewrite len_map_zrange in Hp. rewrite map_zrange_read by done. by apply Z.mod_pos_bound.
Qed.

Lemma split_index p : 0 <= p < N -> exists i r, p = 2 * i + r /\ 0 <= i < 128 /\ 0 <= r < 2 /\ p / 2 = i /\ p mod 2 = r.
Proof.
  unfold N. intros Hp. exists (p / 2), (p mod 2). pose proof (Z.div_mod p 2). pose proof (Z.mod_pos_bound p 2). split_and!; try done; try lia; mlia.
Qed.

Lemma ntt_split_mul a b p :
  len a = N -> bounded Q a -> len b = N -> bounded Q b -> 0 <= p < N ->
  read (ntt (split_mul a b)) p ≡ₙ read (ntt a) p * read (ntt b) p.
Proof.
  intros Ha HaQ Hb HbQ Hp. destruct (split_index p Hp) as (i & r & -> & Hi & Hr & _ & _).
  destruct (split_mul_reduced a b) as [Hl HQ]. rewrite !ntt_read by done.
  rewrite <- negacyclic_eval by (by apply gamma_root). apply zsum_cong. intros m Hm. apply cong_mul; [|reflexivity].
  unfold split_mul. rewrite map_zrange_read by (unfold N; lia). rewrite cong_mod.
  replace ((2 * m + r) mod 2) with r by (apply (Z.mod_unique_pos _ _ m r); lia).
  by replace ((2 * m + r) / 2) with m by (apply (Z.div_unique_pos _ _ m r); lia).
Qed.

Lemma pointwise_coeff x y :
  Z.abs x <= 8 * Q -> Z.abs y <= 8 * Q -> fqmul x y ≡ₙ RINV * (x * y) /\ Z.abs (fqmul x y) <= 10823.
Proof.
  unfold Q. intros Hx Hy. assert (is_i16 x) by (unfold is_i16; lia). assert (is_i16 y) by (unfold is_i16; lia). split.
  - rewrite fqmul_cong by done. cong_ring.
  - pose proof (fqmul_bound x y (8 * Q) 10823) as H1. unfold Q in H1. specialize (H1 ltac:(done) ltac:(done) ltac:(lia) ltac:(lia)). lia.
Qed.

Lemma inv_ready_small a b l : bounded b a -> 2 * b < 2 ^ 15 -> inv_ready l a.
Proof. intros Hb H p _ _. pose proof (Hb p). pose proof (Hb (p + l)). unfold is_i16. split_and!; lia. Qed.


Definition ramp : list Z := map (fun i => 7 * i mod Q) (zrange 0 N).

Lemma ramp_small : len ramp = N /\ Forall (fun c => Z.abs c <= Q) ramp.
Proof.
  split; [apply len_map_zrange|]. apply Forall_forall. intros c (i & -> & _)%list_elem_of_fmap.
  pose proof (Z.mod_pos_bound (7 * i) Q ltac:(done)). lia.
Qed.


(** The transform evaluates: pair [i] of its result is the remainder of the
    polynomial modulo [X ^ 2 - gamma i], for 128 different roots [gamma i] of
    [Y ^ 128 + 1]. *)
Theorem ntt_evaluates (a : list Z) :
  len a = N -> Forall (fun c => Z.abs c <= Q) a ->
  (forall i r, 0 <= i < 128 -> 0 <= r < 2 ->
     read (ntt a) (2 * i + r) ≡ₙ zsum 128 (fun m => read a (2 * m + r) * gamma i ^ m)) /\
  (forall i, 0 <= i < 128 -> gamma i ^ 128 ≡ₙ -1) /\ NoDup (map (fun i => gamma i mod Q) (zrange 0 128)).
Proof.
  intros Ha HQ. pose proof (bounded_forall Q a ltac:(done) HQ) as Hb. split_and!.
  - intros i r Hi Hr. by apply ntt_read.
  - apply gamma_root.
  - apply (bool_decide_unpack _). vm_compute. exact I.
Qed.

Lemma ntt_evaluates_witness : len ramp = N /\ read (ntt ramp) (2 * 0 + 0) ≡ₙ zsum 128 (fun m => read ramp (2 * m + 0) * gamma 0 ^ m).
Proof.
  destruct ramp_small as [H1 H2]. split; [exact H1|].
  exact (proj1 (ntt_evaluates ramp H1 H2) 0 0 ltac:(split; [discriminate|reflexivity]) ltac:(split; [discriminate|reflexivity])).
Defined.

(** The product by way of the transforms. *)
Definition ntt_product (a b : list Z) : list Z :=
  Poly.coeffs (Poly.from_ntt (Poly.pointwise_mul (Poly.to_ntt (Poly.from_coeffs a)) (Poly.to_ntt (Poly.from_coeffs b)))).

Lemma ntt_product_read a b p :
  len a = N -> bounded Q a -> len b = N -> bounded Q b -> 0 <= p < N ->
  read (ntt_product a b) p ≡ₙ read (split_mul a b) p.
Proof.
  intros Ha HA Hb HB Hp. destruct (ntt_kept a Ha HA) as (Hla & H8a & _), (ntt_kept b Hb HB) as (Hlb & H8b & _).
  unfold ntt_product. cbn [Poly.from_ntt Poly.pointwise_mul Poly.to_ntt Poly.from_coeffs Poly.coeffs].
  set (e := zip_with fqmul (ntt a) (ntt b)). assert (len e = N) as He by (subst e; rewrite len_zip; lia).
  assert (forall q, 0 <= q < N -> read e q = fqmul (read (ntt a) q) (read (ntt b) q)) as Hre
    by (intros; subst e; apply read_zip; lia).
  assert (bounded 10823 e) as Hbe.
  { apply bounded_in; [done|lia|]. intros q Hq. rewrite Hre by done. exact (proj2 (pointwise_coeff _ _ (H8a q) (H8b q))). }
  destruct (split_mul_reduced a b) as [Hls HQs].
  destruct (inv_ntt_read (split_mul a b) e RINV p Hls HQs He) as [H _]; [exact (inv_ready_small e _ 2 Hbe ltac:(lia))|..|exact Hp|].
  - intros q Hq. rewrite Hre by done. etransitivity; [exact (proj1 (pointwise_coeff _ _ (H8a q) (H8b q)))|].
    apply cong_mul; [reflexivity|]. symmetry. by apply ntt_split_mul.
  - etransitivity; [exact H|]. transitivity (read (split_mul a b) p * (65536 * RINV)); [cong_ring|].
    rewrite RINV_spec. cong_ring.
Qed.

(** The polynomial [X]. *)
Definition poly_X : list Z := 0 :: 1 :: replicate 254 0.

Lemma poly_X_small : len poly_X = N /\ bounded Q poly_X.
Proof.
  split; [done|]. apply bounded_forall; [done|]. unfold poly_X. do 2 (apply Forall_cons; split; [vm_compute; congruence|]).
  apply Forall_replicate. vm_compute. congruence.
Qed.

Lemma poly_X_squares :
  read (split_mul poly_X poly_X) 1 = 1 /\ read (split_mul poly_X poly_X) 2 = 0 /\
  ring_mul poly_X poly_X 1 = 0 /\ ring_mul poly_X poly_X 2 = 1.
Proof. unfold split_mul. rewrite !map_zrange_read by done. vm_compute. done. Qed.

(** C39: [pointwise_mul] between the two transforms multiplies the even
    coefficients with each other and the odd ones with each other, modulo
    [Y ^ 128 + 1] each.  That is not the product of the polynomials modulo
    [X ^ 256 + 1]: the square of [X] comes out as [X]. *)
Theorem pointwise_product (a b : list Z) :
  len a = N -> Forall (fun c => Z.abs c <= Q) a -> len b = N -> Forall (fun c => Z.abs c <= Q) b ->
  (forall p, 0 <= p < N -> read (ntt_product a b) p ≡ₙ read (split_mul a b) p) /\
  read (ntt_product poly_X poly_X) 1 ≡ₙ 1 /\ read (ntt_product poly_X poly_X) 2 ≡ₙ 0 /\
  ring_mul poly_X poly_X 1 = 0 /\ ring_mul poly_X poly_X 2 = 1.
Proof.
  intros Ha HaQ Hb HbQ. destruct poly_X_small as [HX HXQ], poly_X_squares as (H1 & H2 & H3 & H4). split_and!; [|..|exact H3|exact H4].
  - intros p Hp. by apply ntt_product_read; [|apply bounded_forall| |apply bounded_forall|].
  - pose proof (ntt_product_read _ _ 1 HX HXQ HX HXQ ltac:(split; [discriminate|reflexivity])) as G. rewrite H1 in G. exact G.
  - pose proof (ntt_product_read _ _ 2 HX HXQ HX HXQ ltac:(split; [discriminate|reflexivity])) as G. rewrite H2 in G. exact G.
Qed.

Lemma pointwise_product_witness : read (ntt_product ramp ramp) 3 ≡ₙ read (split_mul ramp ramp) 3.
Proof.
  destruct ramp_small as [H1 H2]. destruct (pointwise_product ramp ramp H1 H2 H1 H2) as [H _].
  apply H. vm_compute. split; congruence.
Defined.
