(* ===== verification/RlweSample.v ===== *)
(** * Sampling of polynomials

    Models [crates/msphf-core/src/rlwe/matrix.rs] and [noise.rs], and [xof_reader]
    and [xof32] of [hash.rs].  SHAKE-128 and the extendable output of BLAKE3 are
    the class [Xof]: an unbounded stream of bytes for each input.  The rejection
    loop of [generate_poly] runs as long as the stream makes it; its fuel counts
    the buffers read. *)

From S2P Require Import Prelude RlweArith RlweNtt RlwePoly.
From Stdlib Require Import Morphisms Setoid.

(** Byte [i] of the output of SHAKE-128, and of BLAKE3 in key-derivation mode. *)
Class Xof := {
  shake128 : bytes -> Z -> Z;
  blake3_xof : string -> bytes -> Z -> Z
}.

Class XofLaws (X : Xof) := {
  shake128_byte : forall m i, is_byte (shake128 m i);
  blake3_xof_byte : forall ctx m i, is_byte (blake3_xof ctx m i)
}.

(** [reader.read(&mut buf)] and [reader.fill(&mut buf)], from position [pos]. *)
Definition read_stream (stream : Z -> Z) (pos n : Z) : bytes := map stream (zrange pos (pos + n)).

(** ** Constant-time rejection sampling *)

Definition ct_select_i16 (current replacement mask : Z) : Z :=
  Z.lor (Z.land current (Z.lnot mask)) (Z.land replacement mask).

(** One 12-bit candidate: taken when it is below [Q] and there is room. *)
Definition take_candidate (st : list Z * Z) (t : Z) : list Z * Z :=
  let '(coeffs, filled) := st in
  let idx := Z.min filled (N - 1) in
  let space := Z.land (Z.shiftr (i32 (filled - N)) 31) 1 in
  let valid := Z.land (Z.shiftr (i32 (t - Q)) 31) 1 in
  let take := Z.land valid space in
  let mask := i16 (- take) in
  let value := montgomery_reduce (i32 (t * R2_MOD_Q)) in
  (write coeffs idx (ct_select_i16 (read coeffs idx) value mask), filled + take).

Definition candidates (b0 b1 b2 : Z) : Z * Z :=
  (Z.land (Z.lor b0 (Z.shiftl b1 8)) 4095, Z.land (Z.lor (Z.shiftr b1 4) (Z.shiftl b2 4)) 4095).

(** [while idx + 3 <= buf.len()], with the [break] once the array is full. *)
Fixpoint scan_buf (buf : bytes) (st : list Z * Z) : list Z * Z :=
  match buf with
  | b0 :: b1 :: b2 :: rest =>
      let '(t0, t1) := candidates b0 b1 b2 in
      let st := take_candidate (take_candidate st t0) t1 in
      if N <=? st.2 then st else scan_buf rest st
  | _ => st
  end.

Definition BUF_BYTES : Z := 3 * div_ceil N 2.

(** [while filled < N]; [None] when the fuel runs out first. *)
Fixpoint fill_poly (fuel : nat) (stream : Z -> Z) (pos : Z) (st : list Z * Z) : option (list Z) :=
  if st.2 <? N then
    match fuel with
    | O => None
    | S fuel => fill_poly fuel stream (pos + BUF_BYTES) (scan_buf (read_stream stream pos BUF_BYTES) st)
    end
  else Some st.1.

Definition generate_poly `{Xof} (fuel : nat) (seed : bytes) (a b : Z) : option Poly.t :=
  coeffs ← fill_poly fuel (shake128 (seed ++ [a; b])) 0 (replicate 256 0, 0);
  Some {| Poly.coeffs := coeffs |}.

Abbreviation Matrix := (list (list Poly.t)).

Definition expand_a `{Xof} (fuel : nat) (seed : bytes) : option Matrix :=
  map_opt (fun i => map_opt (fun j => generate_poly fuel seed i j) (zrange 0 K)) (zrange 0 K).

(** ** Noise *)

Definition cbd_coeff (buf : bytes) (i : Z) : Z :=
  let idx := i * 4 in
  let byte_index := idx / 8 in
  let bit_offset := idx mod 8 in
  let bits := Z.land (Z.shiftr (read buf byte_index) bit_offset) 15 in
  let bits := if 4 <? bit_offset
              then Z.lor bits (Z.land (Z.shiftl (read buf (byte_index + 1)) (8 - bit_offset)) 15)
              else bits in
  let a := Z.land bits 3 in
  let b := Z.land (Z.shiftr bits 2) 3 in
  let val := a - b in
  Z.rem (val + Q) Q.

Definition cbd_eta2_poly (buf : bytes) : result string (list Z) :=
  fail_if (len buf * 2 <? N) "insufficient randomness for cbd_eta2" ;;
  Ok (map (cbd_coeff buf) (zrange 0 N)).

(** ** What the sampler keeps *)

(** The candidates of a buffer, two for every three bytes. *)
Fixpoint buf_candidates (buf : bytes) : list Z :=
  match buf with
  | b0 :: b1 :: b2 :: rest => (candidates b0 b1 b2).1 :: (candidates b0 b1 b2).2 :: buf_candidates rest
  | _ => []
  end.

Fixpoint stream_candidates (n : nat) (stream : Z -> Z) (pos : Z) : list Z :=
  match n with
  | O => []
  | S n => buf_candidates (read_stream stream pos BUF_BYTES) ++ stream_candidates n stream (pos + BUF_BYTES)
  end.

Definition valid (t : Z) : bool := t <? Q.

(** The reference: the first 256 candidates below [Q], in the Montgomery domain. *)
Definition to_mont (t : Z) : Z := t * 2 ^ 16 mod Q.
Definition sampled (cs : list Z) : list Z := map to_mont (take 256 (List.filter valid cs)).

(** The state of the loops once the candidates [cs] are seen. *)
Definition state_of (cs : list Z) : list Z * Z :=
  (sampled cs ++ replicate (256 - length (sampled cs)) 0, len (sampled cs)).

Lemma sign_bit r : is_i32 r -> Z.land (Z.shiftr r 31) 1 = if r <? 0 then 1 else 0.
Proof.
  unfold is_i32. intros H. rewrite Z.shiftr_div_pow2 by lia. destruct (r <? 0) eqn:E; bool_prop.
  - replace (r / 2 ^ 31) with (-1) by mlia. reflexivity.
  - rewrite Z.div_small by lia. reflexivity.
Qed.

Lemma ct_select_spec c v (b : bool) : ct_select_i16 c v (if b then -1 else 0) = if b then v else c.
Proof.
  unfold ct_select_i16. destruct b.
  - change (Z.lnot (-1)) with 0. by rewrite Z.land_0_r, Z.land_m1_r.
  - change (Z.lnot 0) with (-1). by rewrite Z.land_0_r, Z.land_m1_r, Z.lor_0_r.
Qed.

Lemma take_candidate_eq coeffs filled t :
  0 <= filled <= N -> 0 <= t < 4096 ->
  take_candidate (coeffs, filled) t =
  let ok := (t <? Q) && (filled <? N) in
  let idx := Z.min filled (N - 1) in
  (write coeffs idx (if ok then montgomery_reduce (t * R2_MOD_Q) else read coeffs idx), filled + if ok then 1 else 0).
Proof.
  intros Hf Ht. unfold take_candidate. rewrite (i32_small (filled - N)), (i32_small (t - Q)), (i32_small (t * R2_MOD_Q))
    by (unfold is_i32, N, Q, R2_MOD_Q in *; lia).
  rewrite !sign_bit by (unfold is_i32, N, Q in *; lia).
  assert (t - Q <? 0 = (t <? Q)) as -> by (apply eq_iff_eq_true; rewrite !Z.ltb_lt; lia).
  assert (filled - N <? 0 = (filled <? N)) as -> by (apply eq_iff_eq_true; rewrite !Z.ltb_lt; lia). cbv zeta.
  destruct (t <? Q), (filled <? N); cbn [andb Z.land Pos.land].
  - by rewrite (ct_select_spec _ _ true).
  - by rewrite (ct_select_spec _ _ false).
  - by rewrite (ct_select_spec _ _ false).
  - by rewrite (ct_select_spec _ _ false).
Qed.

Lemma mont_value t : 0 <= t < Q -> montgomery_reduce (t * R2_MOD_Q) = to_mont t.
Proof.
  intros Ht. unfold to_mont. apply cong_small; [|apply montgomery_reduce_canonical; unfold R2_MOD_Q, Q in *; lia|by apply Z.mod_pos_bound].
  rewrite montgomery_reduce_cong by (unfold mont_domain, R2_MOD_Q, Q in *; lia). rewrite cong_mod.
  transitivity (t * (R2_MOD_Q * RINV)); [cong_ring|]. apply cong_mul; [reflexivity|]. by apply cong_eval.
Qed.

Lemma filter_snoc cs t : List.filter valid (cs ++ [t]) = List.filter valid cs ++ if valid t then [t] else [].
Proof. by rewrite List.filter_app. Qed.

Lemma length_sampled cs : length (sampled cs) = Nat.min 256 (length (List.filter valid cs)).
Proof. unfold sampled. by rewrite length_map, length_take. Qed.

(** A full array takes nothing more. *)
Lemma sampled_full cs more : (256 <= length (List.filter valid cs))%nat -> sampled (cs ++ more) = sampled cs.
Proof. intros H. unfold sampled. rewrite List.filter_app, take_app_le by done. done. Qed.

Lemma sampled_more cs t :
  (length (List.filter valid cs) < 256)%nat -> sampled (cs ++ [t]) = sampled cs ++ if valid t then [to_mont t] else [].
Proof.
  intros H. unfold sampled. rewrite filter_snoc. destruct (valid t).
  - rewrite take_ge by (rewrite length_app; cbn; lia). rewrite (take_ge (List.filter valid cs)) by lia. by rewrite List.map_app.
  - by rewrite !app_nil_r.
Qed.

Lemma write_read (a : list Z) i : 0 <= i < len a -> write a i (read a i) = a.
Proof.
  intros Hi. apply vget_ext; [apply len_vset|]. intros j Hj. unfold write, read in *.
  destruct (decide (i = j)) as [<-|Hne].
  - rewrite vget_vset_eq by done. by destruct (vget_is_Some a i Hi) as [x ->].
  - by rewrite vget_vset_ne.
Qed.

Lemma write_append (l : list Z) n v : (0 < n)%nat -> write (l ++ replicate n 0) (len l) v = (l ++ [v]) ++ replicate (n - 1) 0.
Proof.
  intros Hn. unfold write, vset, len. rewrite (proj2 (Z.leb_le _ _)), Nat2Z.id by lia.
  rewrite insert_app_r_alt, Nat.sub_diag by lia. destruct n; [lia|]. cbn. rewrite Nat.sub_0_r, <- app_assoc. done.
Qed.

Lemma len_state cs : len (state_of cs).1 = N /\ 0 <= (state_of cs).2 <= N.
Proof.
  unfold state_of, len, N. cbn [fst snd]. rewrite length_app, length_replicate. rewrite length_sampled. lia.
Qed.

Lemma take_candidate_state cs t : 0 <= t < 4096 -> take_candidate (state_of cs) t = state_of (cs ++ [t]).
Proof.
  intros Ht. destruct (len_state cs) as [Hl Hf]. rewrite (surjective_pairing (state_of cs)), take_candidate_eq by done.
  cbv zeta. fold (valid t). unfold state_of in *. cbn [fst snd] in *. pose proof (length_sampled cs) as Hs. unfold len, N in *.
  destruct (decide (length (List.filter valid cs) < 256)%nat) as [Hlt|Hge].
  - rewrite sampled_more by done. rewrite (proj2 (Z.ltb_lt _ 256)) by lia. rewrite Z.min_l by lia. destruct (valid t) eqn:Ev.
    + cbn [andb]. rewrite mont_value by (unfold valid in Ev; bool_prop; lia). f_equal; [|rewrite length_app; cbn; lia].
      pose proof (write_append (sampled cs) (256 - length (sampled cs)) (to_mont t) ltac:(lia)) as Hw. unfold len in Hw.
      rewrite Hw, length_app. cbn [length]. do 2 f_equal. lia.
    + cbn [andb]. rewrite app_nil_r. f_equal; [|lia]. apply write_read. unfold len. lia.
  - rewrite sampled_full by lia. rewrite (proj2 (Z.ltb_ge _ 256)), andb_false_r by lia. f_equal; [|lia].
    apply write_read. unfold len. lia.
Qed.

Lemma candidate_range b0 b1 b2 : 0 <= (candidates b0 b1 b2).1 < 4096 /\ 0 <= (candidates b0 b1 b2).2 < 4096.
Proof.
  unfold candidates. cbn [fst snd]. change 4095 with (Z.ones 12). rewrite !Z.land_ones by lia.
  split; by apply Z.mod_pos_bound.
Qed.

Lemma state_full cs more : N <= (state_of cs).2 -> state_of (cs ++ more) = state_of cs.
Proof.
  unfold state_of, len, N. cbn [snd]. intros H. rewrite length_sampled in H. by rewrite sampled_full by lia.
Qed.

Lemma scan_buf_state buf cs : scan_buf buf (state_of cs) = state_of (cs ++ buf_candidates buf).
Proof.
  remember (length buf) as n eqn:Hn. revert buf cs Hn. induction (lt_wf n) as [n _ IH]. intros buf cs ->.
  destruct buf as [|b0 [|b1 [|b2 rest]]]; cbn [scan_buf buf_candidates]; [by rewrite app_nil_r..|].
  pose proof (candidate_range b0 b1 b2) as [H0 H1]. destruct (candidates b0 b1 b2) as [t0 t1]. cbn [fst snd] in *.
  rewrite !take_candidate_state by done. rewrite <- app_assoc. cbn [app].
  replace (cs ++ t0 :: t1 :: buf_candidates rest) with ((cs ++ [t0; t1]) ++ buf_candidates rest) by (by rewrite <- app_assoc).
  case_if; bool_prop; [symmetry; exact (state_full _ _ E)|]. apply (IH (length rest)); [cbn; lia|done].
Qed.

Lemma fill_poly_state fuel stream pos cs :
  let all := cs ++ stream_candidates fuel stream pos in
  fill_poly fuel stream pos (state_of cs) =
  if (256 <=? length (List.filter valid all))%nat then Some (sampled all) else None.
Proof.
  cbv zeta. revert pos cs; induction fuel as [|fuel IH]; intros pos cs; cbn [fill_poly stream_candidates].
  - rewrite app_nil_r. destruct ((state_of cs).2 <? N) eqn:E; bool_prop; unfold state_of, len, N in E; cbn [snd] in E;
      rewrite length_sampled in E.
    + by rewrite (proj2 (Nat.leb_gt _ _)) by lia.
    + rewrite (proj2 (Nat.leb_le _ _)) by lia. unfold state_of. cbn [fst]. rewrite length_sampled.
      rewrite Nat.min_l by lia. by rewrite app_nil_r.
  - destruct ((state_of cs).2 <? N) eqn:E; bool_prop.
    + rewrite scan_buf_state, IH. by rewrite <- app_assoc.
    + unfold state_of, len, N in E. cbn [snd] in E. rewrite length_sampled in E.
      rewrite sampled_full, List.filter_app, length_app, (proj2 (Nat.leb_le _ _)) by lia.
      unfold state_of. cbn [fst]. rewrite length_sampled, Nat.min_l by lia. by rewrite app_nil_r.
Qed.

Lemma state_nil : (replicate 256 0, 0) = state_of [].
Proof. reflexivity. Qed.

Lemma generate_poly_eq `{Xof} fuel seed a b :
  let cs := stream_candidates fuel (shake128 (seed ++ [a; b])) 0 in
  generate_poly fuel seed a b =
  if (256 <=? length (List.filter valid cs))%nat then Some {| Poly.coeffs := sampled cs |} else None.
Proof. cbv zeta. unfold generate_poly. rewrite state_nil, fill_poly_state. cbn [app]. by case_match. Qed.

Lemma stream_candidates_app n k stream pos :
  stream_candidates (n + k) stream pos =
  stream_candidates n stream pos ++ stream_candidates k stream (pos + BUF_BYTES * Z.of_nat n).
Proof.
  revert pos; induction n as [|n IH]; intros pos; cbn [Nat.add stream_candidates app].
  - by rewrite Z.mul_0_r, Z.add_0_r.
  - rewrite IH, <- app_assoc. do 3 f_equal. lia.
Qed.

Lemma generate_poly_mono `{Xof} n m seed a b p :
  generate_poly n seed a b = Some p -> (n <= m)%nat -> generate_poly m seed a b = Some p.
Proof.
  rewrite !generate_poly_eq. intros Hn Hm. replace m with (n + (m - n))%nat by lia. rewrite stream_candidates_app.
  destruct (256 <=? _)%nat eqn:E in Hn; [|done]. apply Nat.leb_le in E.
  rewrite List.filter_app, length_app, (proj2 (Nat.leb_le _ _)), sampled_full by lia. done.
Qed.

Lemma sampled_reduced cs : (256 <= length (List.filter valid cs))%nat -> Poly.reduced {| Poly.coeffs := sampled cs |}.
Proof.
  intros H. split; cbn [Poly.coeffs]; [unfold len, N; rewrite length_sampled; lia|].
  apply Forall_forall. intros c (t & -> & _)%list_elem_of_fmap. by apply Z.mod_pos_bound.
Qed.

(** ** Theorems *)

(** C28: the constant-time loop of [generate_poly], with its masked writes, its
    clamped index and its early exit, returns exactly the first 256 candidates
    below [Q] of the stream, in the Montgomery domain; it is still running
    exactly when the buffers read so far hold fewer. *)
Theorem generate_poly_reference `{Xof} (fuel : nat) (seed : bytes) (a b : Z) :
  let cs := stream_candidates fuel (shake128 (seed ++ [a; b])) 0 in
  generate_poly fuel seed a b =
  if (256 <=? length (List.filter valid cs))%nat
  then Some {| Poly.coeffs := map (fun t => t * 2 ^ 16 mod Q) (take 256 (List.filter valid cs)) |} else None.
Proof. apply generate_poly_eq. Qed.

Lemma map_opt_total {A B} (f : nat -> A -> option B) (P : B -> Prop) (l : list A) :
  (forall n m a b, (n <= m)%nat -> f n a = Some b -> f m a = Some b) ->
  (forall a, a ∈ l -> exists n b, f n a = Some b /\ P b) ->
  exists n bs, (forall m, (n <= m)%nat -> map_opt (f m) l = Some bs) /\ length bs = length l /\ Forall P bs.
Proof.
  intros Hmono. induction l as [|a l IH]; intros Hl; [exists 0%nat, []; done|].
  destruct (Hl a) as (n1 & b & Hb & HP); [by constructor|].
  destruct IH as (n2 & bs & Hbs & Hlen & HPs); [intros; apply Hl; by constructor|].
  exists (n1 `max` n2)%nat, (b :: bs). split_and!; [|cbn; lia|by constructor].
  intros m Hm. cbn [map_opt]. rewrite (Hmono n1 m a b) by (lia || done). cbn. by rewrite Hbs by lia.
Qed.

(** The stream of [seed], [a] and [b] holds 256 candidates below [Q] sooner or later. *)
Definition enough_candidates `{Xof} (seed : bytes) (a b : Z) : Prop :=
  exists n, (256 <= length (List.filter valid (stream_candidates n (shake128 (seed ++ [a; b])) 0)))%nat.

Lemma generate_poly_total `{Xof} seed a b :
  enough_candidates seed a b -> exists n p, generate_poly n seed a b = Some p /\ Poly.reduced p.
Proof.
  intros [n Hn]. exists n. eexists. rewrite generate_poly_eq, (proj2 (Nat.leb_le _ _)) by done. split; [done|by apply sampled_reduced].
Qed.

Lemma expand_a_terminates_lemma `{Xof} (seed : bytes) :
  (forall i j, 0 <= i < K -> 0 <= j < K -> enough_candidates seed i j) ->
  exists n M, (forall m, (n <= m)%nat -> expand_a m seed = Some M) /\ length M = 3%nat /\
    Forall (fun row => length row = 3%nat /\ Forall Poly.reduced row) M.
Proof.
  intros Hs. unfold expand_a. change 3%nat with (length (zrange 0 K)).
  apply (map_opt_total (fun n i => map_opt (fun j => generate_poly n seed i j) (zrange 0 K))
           (fun row => length row = length (zrange 0 K) /\ Forall Poly.reduced row)).
  - intros n m i row Hnm Hrow. revert row Hrow. generalize (zrange 0 K). intros l.
    induction l as [|j l IH]; intros row Hrow; cbn [map_opt] in *; [done|].
    destruct (generate_poly n seed i j) eqn:E; [|done]. rewrite (generate_poly_mono n m seed i j _ E Hnm). cbn in *.
    destruct (map_opt _ l) eqn:E'; [|done]. by rewrite (IH _ eq_refl).
  - intros i Hi%elem_of_zrange.
    destruct (map_opt_total (fun n j => generate_poly n seed i j) Poly.reduced (zrange 0 K)) as (n & row & H1 & H2 & H3).
    + intros n m j p Hnm Hp. by eapply generate_poly_mono.
    + intros j Hj%elem_of_zrange. by apply generate_poly_total, Hs.
    + exists n, row. split; [by apply H1|done].
Qed.

(** The rejection loops of [expand_a] terminate: if each of the nine streams
    holds 256 candidates below [Q], the matrix is returned, the same for every
    larger number of buffers, with three rows of three polynomials whose
    coefficients are reduced. *)
Theorem expand_a_terminates `{Xof} (seed : bytes) :
  (forall i j, 0 <= i < K -> 0 <= j < K -> enough_candidates seed i j) ->
  exists n M, (forall m, (n <= m)%nat -> expand_a m seed = Some M) /\ length M = 3%nat /\
    Forall (fun row => length row = 3%nat /\ Forall Poly.reduced row) M.
Proof. apply expand_a_terminates_lemma. Qed.

(** A stream for evaluation. *)
Definition toy_xof : Xof := {|
  shake128 m i := (foldl Z.add 0 m * 7 + 19 * i) mod 251;
  blake3_xof ctx m i := (foldl Z.add 0 m + 3 * i) mod 256
|}.

Instance toy_xof_laws : XofLaws toy_xof.
Proof. split; intros; cbn; unfold is_byte; [pose proof (Z.mod_pos_bound (foldl Z.add 0 m * 7 + 19 * i) 251); lia|by apply Z.mod_pos_bound]. Qed.

Lemma toy_enough i j : 0 <= i < K -> 0 <= j < K -> enough_candidates (H := toy_xof) [5] i j.
Proof.
  intros Hi Hj. exists 2%nat. apply Nat.leb_le.
  assert (forallb (fun i => forallb (fun j =>
    Nat.leb 256 (length (List.filter valid (stream_candidates 2 (@shake128 toy_xof ([5] ++ [i; j])) 0)))) (zrange 0 K)) (zrange 0 K) = true) as H
    by (vm_compute; reflexivity).
  exact (in_zrange_forallb _ _ _ j (in_zrange_forallb _ _ _ i H Hi) Hj).
Qed.

Lemma expand_a_terminates_witness : exists n M, expand_a (H := toy_xof) n [5] = Some M /\ length M = 3%nat.
Proof.
  destruct (expand_a_terminates (H := toy_xof) [5] toy_enough) as (n & M & H1 & H2 & _). exists n, M.
  split; [apply H1; apply Nat.le_refl|exact H2].
Defined.

Lemma cbd_coeff_range buf i :
  exists v, -3 <= v <= 3 /\ cbd_coeff buf i = v mod Q.
Proof.
  unfold cbd_coeff. cbv zeta. set (bits := if 4 <? i * 4 mod 8 then _ else Z.land _ 15).
  exists (Z.land bits 3 - Z.land (Z.shiftr bits 2) 3). change 3 with (Z.ones 2). rewrite !Z.land_ones by lia.
  pose proof (Z.mod_pos_bound bits (2 ^ 2)). pose proof (Z.mod_pos_bound (Z.shiftr bits 2) (2 ^ 2)).
  change (2 ^ 2) with 4 in *. change (Z.ones 2) with 3. split; [lia|].
  rewrite Z.rem_mod_nonneg by (unfold Q; lia). rewrite <- (Z.mul_1_l Q) at 1. by apply Z_mod_plus_full.
Qed.

(** [cbd_eta2_poly] fills the array from any buffer of 128 bytes and refuses
    a shorter one; every coefficient is the residue of an integer from -3 to 3,
    and both bounds occur.  The noise is the difference of two 2-bit integers,
    so it leaves the range from -2 to 2 of a centred binomial with parameter 2. *)
Theorem cbd_eta2_range (buf : bytes) :
  (if len buf <? 128 then cbd_eta2_poly buf = Err "insufficient randomness for cbd_eta2"
   else exists out, cbd_eta2_poly buf = Ok out /\ len out = N /\
        forall i, 0 <= i < N -> exists v, -3 <= v <= 3 /\ read out i = v mod Q) /\
  (forall v, v = -3 \/ v = 3 -> exists buf out, is_bytes buf /\ len buf = 128 /\ cbd_eta2_poly buf = Ok out /\
     read out 0 = v mod Q /\ v mod Q ∉ map (fun w => w mod Q) (zrange (-2) 3)).
Proof.
  split.
  - unfold cbd_eta2_poly, N. destruct (len buf <? 128) eqn:E; bool_prop.
    + by rewrite (proj2 (Z.ltb_lt _ _)) by lia.
    + rewrite (proj2 (Z.ltb_ge _ _)) by lia. cbn [fail_if mbind result_bind]. eexists. split; [done|].
      split; [apply len_map_zrange|]. intros i Hi. rewrite map_zrange_read by done. apply cbd_coeff_range.
  - intros v Hv. exists (replicate 128 (if v =? 3 then 3 else 12)). eexists. split_and!.
    + apply Forall_replicate. unfold is_byte. case_if; lia.
    + unfold len. by rewrite length_replicate.
    + destruct Hv as [->| ->]; reflexivity.
    + destruct Hv as [->| ->]; vm_compute; reflexivity.
    + apply (bool_decide_unpack _). destruct Hv as [->| ->]; vm_compute; exact I.
Qed.
