(* ===== verification/BarrierTree.v ===== *)
(** * The barrier tree, client side

    Models the tree functions of [crates/cityg-client/src/barrier.rs]: the
    size check of [n_max], direct paths, siblings, blanking, the join and
    revocation sets applied to a snapshot, resolution targets and the tree
    hash.  A snapshot is the vector of the [2 * n_max - 1] public keys of a
    perfect binary tree in heap order, an empty key being a blank node.

    The recursions of the source run on node indices; here they carry the
    fuel [TREE_FUEL], which every [u64] index leaves unspent
    ([path_loop_enough], [collect_resolution_targets_spec]).  The proofs
    number the heap from one: node [i] is [i + 1], its parent [(i + 1) / 2],
    its [k]-th ancestor [anc (i + 1) k]. *)

From S2P Require Import Prelude Hash Heap.

Abbreviation snapshot := (list bytes).

Definition DEFAULT_BARRIER_N_MAX : Z := 1024.
Definition MAX_BARRIER_N_MAX : Z := 65536.

(** Depth of any chain of halvings or doublings of a [u64] index. *)
Definition TREE_FUEL : nat := 65.
#[global] Arguments TREE_FUEL : simpl never.

Record BarrierJoinSnapshotRecord := {
  join_slot_index : Z;
  join_slot_generation : Z;
  join_ek_leaf : bytes
}.

Record BarrierRevokedSnapshotRecord := {
  revoked_slot_index : Z;
  revoked_slot_generation : Z
}.

Definition validate_barrier_n_max (n_max : Z) : result string Z :=
  fail_if ((n_max =? 0) || negb (is_power_of_two n_max))
    "barrier n_max must be a non-zero power of two" ;;
  fail_if (MAX_BARRIER_N_MAX <? n_max) "barrier n_max exceeds MAX_BARRIER_N_MAX" ;;
  Ok n_max.

Definition expected_barrier_tree_nodes (n_max : Z) : result string Z :=
  n_max ← validate_barrier_n_max n_max;
  ok_or (v ← checked_mul n_max 2; checked_sub v 1) "invalid barrier n_max".

(** The [while let Some(&node) = path_nodes.last()] loop: the nodes it pushes. *)
Fixpoint path_loop (fuel : nat) (node : Z) : list Z :=
  match fuel with
  | O => []
  | S fuel' =>
      if node =? 0 then []
      else let parent := (node - 1) / 2 in parent :: path_loop fuel' parent
  end.

Definition barrier_path_nodes (n_max updater_slot_index : Z) : result string (list Z) :=
  n_max ← validate_barrier_n_max n_max;
  fail_if (n_max <=? updater_slot_index) "invalid barrier update tree parameters" ;;
  let leaf_base := sat_sub n_max 1 in
  let leaf := sat_add leaf_base updater_slot_index in
  Ok (leaf :: path_loop TREE_FUEL leaf).

Definition sibling_node (node : Z) : option Z :=
  if node =? 0 then None
  else if node mod 2 =? 0 then Some (node - 1) else Some (node + 1).

(** [snapshot.get_mut(index).ok_or(..)?.clear()] *)
Definition clear_node (snap : snapshot) (node : Z) : result string snapshot :=
  match vget snap node with
  | Some _ => Ok (vset snap node [])
  | None => Err "barrier node index out of range"
  end.

Fixpoint blank_leaf_loop (fuel : nat) (snap : snapshot) (node : Z) : result string snapshot :=
  match fuel with
  | O => Err "out of fuel"
  | S fuel' =>
      snap ← clear_node snap node;
      if node =? 0 then Ok snap else blank_leaf_loop fuel' snap ((node - 1) / 2)
  end.

Definition blank_leaf_and_path (snap : snapshot) (leaf_node : Z) : result string snapshot :=
  blank_leaf_loop TREE_FUEL snap leaf_node.

Fixpoint blank_internal_loop (fuel : nat) (snap : snapshot) (node : Z) : result string snapshot :=
  match fuel with
  | O => Err "out of fuel"
  | S fuel' =>
      if 0 <? node then
        let node := (node - 1) / 2 in
        snap ← clear_node snap node;
        blank_internal_loop fuel' snap node
      else Ok snap
  end.

Definition blank_internal_path_from_leaf (snap : snapshot) (leaf_node : Z) : result string snapshot :=
  blank_internal_loop TREE_FUEL snap leaf_node.

Definition apply_revoked_set_to_snapshot (snap : snapshot) (n_max : Z) (revoked_indices : list Z)
    : result string snapshot :=
  let leaf_base := sat_sub n_max 1 in
  fold_res (fun snap slot_index => blank_leaf_and_path snap (sat_add leaf_base slot_index))
    snap revoked_indices.

(** [Vec::dedup]: consecutive repetitions are dropped. *)
Fixpoint vec_dedup (l : list Z) : list Z :=
  match l with
  | x :: (y :: _) as tl => if x =? y then vec_dedup tl else x :: vec_dedup tl
  | l => l
  end.

Definition revoked_slot_indices_from_records (records : list BarrierRevokedSnapshotRecord) : list Z :=
  vec_dedup (merge_sort Z.le (revoked_slot_index <$> records)).

Definition apply_revoked_records_to_snapshot (snap : snapshot) (n_max : Z)
    (records : list BarrierRevokedSnapshotRecord) : result string snapshot :=
  apply_revoked_set_to_snapshot snap n_max (revoked_slot_indices_from_records records).

Definition apply_join_set_to_snapshot (snap : snapshot) (n_max : Z)
    (join_records : list BarrierJoinSnapshotRecord) : result string snapshot :=
  let leaf_base := sat_sub n_max 1 in
  fold_res (fun snap record =>
      let leaf_node := sat_add leaf_base (join_slot_index record) in
      match vget snap leaf_node with
      | None => Err "barrier node index out of range"
      | Some _ => blank_internal_path_from_leaf (vset snap leaf_node (join_ek_leaf record)) leaf_node
      end)
    snap join_records.

Definition expected_same_rrh_barrier_reason (join_records : list BarrierJoinSnapshotRecord)
    (updater_slot_index : Z) : Z :=
  if existsb (fun record => join_slot_index record =? updater_slot_index) join_records then 2 else 1.

Definition left_child (node : Z) : option Z := v ← checked_mul node 2; checked_add v 1.
Definition right_child (node : Z) : option Z := v ← checked_mul node 2; checked_add v 2.

Fixpoint collect_resolution_loop (fuel : nat) (snap : snapshot) (node leaf_base : Z)
    (targets : list Z) : result string (list Z) :=
  match fuel with
  | O => Err "out of fuel"
  | S fuel' =>
      match vget snap node with
      | None => Ok targets
      | Some pk =>
          if negb (bytes_eqb pk []) then Ok (targets ++ [node])
          else if leaf_base <=? node then Ok targets
          else
            left ← ok_or (left_child node) "barrier tree index overflow";
            right ← ok_or (right_child node) "barrier tree index overflow";
            targets ← collect_resolution_loop fuel' snap left leaf_base targets;
            collect_resolution_loop fuel' snap right leaf_base targets
      end
  end.

Definition collect_resolution_targets (snap : snapshot) (node leaf_base : Z) (targets : list Z)
    : result string (list Z) :=
  collect_resolution_loop TREE_FUEL snap node leaf_base targets.

Section TreeHash.
  Context {HS : Hashing}.

Definition compute_barrier_pkhash (ek : bytes) : result string bytes :=
  h_l "barrier/pk-hash" (VBytes ek).

Definition leaf_hash_preimage (n_max node_index : Z) (pk : bytes) : Value :=
  VStruct [("n_max", VInteger n_max); ("node_index", VInteger node_index); ("pk", VBytes pk)].

Definition node_hash_preimage (n_max node_index : Z) (pk left_hash right_hash : bytes) : Value :=
  VStruct [("n_max", VInteger n_max); ("node_index", VInteger node_index); ("pk", VBytes pk);
           ("left_hash", VBytes left_hash); ("right_hash", VBytes right_hash)].

Fixpoint compute_barrier_tree_hash_recursive (fuel : nat) (node leaf_base n_max : Z)
    (pk_entries : snapshot) : result string bytes :=
  match fuel with
  | O => Err "out of fuel"
  | S fuel' =>
      pk ← ok_or (vget pk_entries node) "barrier node index out of range";
      if leaf_base <=? node then h_l "barrier/tree/leaf-hash" (leaf_hash_preimage n_max node pk)
      else
        left ← ok_or (left_child node) "barrier tree index overflow";
        right ← ok_or (right_child node) "barrier tree index overflow";
        left_hash ← compute_barrier_tree_hash_recursive fuel' left leaf_base n_max pk_entries;
        right_hash ← compute_barrier_tree_hash_recursive fuel' right leaf_base n_max pk_entries;
        h_l "barrier/tree/node-hash" (node_hash_preimage n_max node pk left_hash right_hash)
  end.

Definition compute_barrier_tree_hash (n_max : Z) (pk_entries : snapshot) : result string bytes :=
  n_max ← validate_barrier_n_max n_max;
  expected_len ← ok_or (v ← checked_mul n_max 2; checked_sub v 1) "barrier tree size overflow";
  fail_if (negb (len pk_entries =? expected_len)) "barrier tree size mismatch" ;;
  let leaf_base := sat_sub n_max 1 in
  compute_barrier_tree_hash_recursive TREE_FUEL 0 leaf_base n_max pk_entries.

Definition compute_revocation_roots_hash (revoked_since_root revoked_root : bytes) : result string bytes :=
  h_l "barrier/roots" (VArray [VBytes revoked_since_root; VBytes revoked_root]).

End TreeHash.

(** ** Well-formed trees *)

Definition tree_wf (n_max : Z) (snap : snapshot) : Prop :=
  validate_barrier_n_max n_max = Ok n_max /\ len snap = 2 * n_max - 1.

Definition leaf_node (n_max slot : Z) : Z := n_max - 1 + slot.

Lemma validate_barrier_n_max_spec n r :
  validate_barrier_n_max n = Ok r <-> r = n /\ exists d, 0 <= d <= 16 /\ n = 2 ^ d.
Proof.
  unfold validate_barrier_n_max, MAX_BARRIER_N_MAX. split.
  - intros H. inv_all. bool_prop. split; [done|].
    match goal with H : is_power_of_two _ = true |- _ =>
      apply is_power_of_two_spec in H as (d & Hd & ->) end.
    exists d. split; [|done]. split; [done|].
    apply (Z.pow_le_mono_r_iff 2); [by change (2 ^ 16) with 65536|lia|lia].
  - intros (-> & d & Hd & ->).
    assert (2 ^ d <= 65536) by (change 65536 with (2 ^ 16); apply Z.pow_le_mono_r; lia).
    assert (0 < 2 ^ d) by (apply Z.pow_pos_nonneg; lia).
    rewrite (proj2 (Z.eqb_neq (2 ^ d) 0)) by lia.
    rewrite (proj2 (is_power_of_two_spec (2 ^ d))) by (exists d; lia). cbn.
    rewrite (proj2 (Z.ltb_ge 65536 (2 ^ d))) by lia. done.
Qed.

(** The facts every lemma about a validated tree needs. *)
Lemma n_max_bounds n :
  validate_barrier_n_max n = Ok n ->
  n = 2 ^ Z.log2 n /\ 0 <= Z.log2 n <= 16 /\ 1 <= n <= 65536.
Proof.
  intros (_ & d & Hd & ->)%validate_barrier_n_max_spec. rewrite Z.log2_pow2 by lia.
  assert (0 < 2 ^ d) by (apply Z.pow_pos_nonneg; lia).
  assert (2 ^ d <= 65536) by (change 65536 with (2 ^ 16); apply Z.pow_le_mono_r; lia).
  split_and!; lia.
Qed.

Lemma leaf_log2 n slot :
  validate_barrier_n_max n = Ok n -> 0 <= slot < n ->
  Z.log2 (leaf_node n slot + 1) = Z.log2 n.
Proof.
  intros (Hn & Hd & _)%n_max_bounds Hs. unfold leaf_node.
  apply log2_level; [lia|]. rewrite Z.pow_add_r, Z.pow_1_r by lia. lia.
Qed.

Lemma leaf_sat n slot :
  1 <= n <= 65536 -> 0 <= slot <= U32_MAX -> sat_add (sat_sub n 1) slot = leaf_node n slot.
Proof. unfold sat_add, sat_sub, leaf_node, U64_MAX, U32_MAX. lia. Qed.

(** ** Paths *)

Lemma path_loop_enough fuel node :
  0 <= node -> Z.log2 (node + 1) <= Z.of_nat fuel -> node :: path_loop fuel node = path_of node.
Proof.
  revert node; induction fuel as [|fuel IH]; intros node Hn Hf; cbn [path_loop].
  - assert (node = 0) as ->; [|done].
    pose proof (Z.log2_nonneg (node + 1)). assert (Z.log2 (node + 1) = 0) as H0 by lia.
    apply Z.log2_null in H0. lia.
  - case_if; bool_prop; [by subst|]. rewrite path_of_step by lia. f_equal.
    apply IH; [apply Z.div_pos; lia|]. rewrite parent_succ, log2_half by lia. lia.
Qed.

Lemma log2_fuel node : 0 <= node <= U64_MAX -> Z.log2 (node + 1) < Z.of_nat TREE_FUEL.
Proof.
  intros. apply Z.log2_lt_pow2; [lia|]. change (Z.of_nat TREE_FUEL) with 65.
  unfold U64_MAX in *. lia.
Qed.

Lemma barrier_path_nodes_eq n slot :
  validate_barrier_n_max n = Ok n -> 0 <= slot < n ->
  barrier_path_nodes n slot = Ok (path_of (leaf_node n slot)).
Proof.
  intros Hv Hs. unfold barrier_path_nodes. rewrite Hv; cbn.
  rewrite (proj2 (Z.leb_gt n slot)) by lia. cbn [fail_if].
  pose proof (n_max_bounds n Hv) as (_ & _ & ?). cbn.
  rewrite leaf_sat by (unfold U32_MAX; lia). f_equal.
  apply path_loop_enough; [unfold leaf_node; lia|].
  pose proof (log2_fuel (leaf_node n slot)). unfold leaf_node, U64_MAX in *. lia.
Qed.

Lemma sibling_node_sib node : 0 < node -> sibling_node node = Some (sib (node + 1) - 1).
Proof.
  intros. unfold sibling_node, sib. rewrite (proj2 (Z.eqb_neq node 0)) by lia.
  destruct (node mod 2 =? 0) eqn:E1, ((node + 1) mod 2 =? 0) eqn:E2; bool_prop; f_equal; mlia.
Qed.

(** ** Blanking *)

Definition blanked (snap : snapshot) (nodes : list Z) : snapshot :=
  foldl (fun s i => vset s i []) snap nodes.

Lemma len_blanked snap nodes : len (blanked snap nodes) = len snap.
Proof.
  unfold blanked. revert snap; induction nodes as [|i nodes IH]; intros snap; cbn; [done|].
  by rewrite IH, len_vset.
Qed.

Lemma vget_blanked snap nodes i :
  vget (blanked snap nodes) i =
    if bool_decide (i ∈ nodes) then (fun _ => []) <$> vget snap i else vget snap i.
Proof.
  unfold blanked. revert snap; induction nodes as [|j nodes IH]; intros snap; cbn; [done|].
  rewrite IH. destruct (decide (i = j)) as [->|Hne].
  - rewrite (bool_decide_true (j ∈ j :: nodes)) by constructor.
    assert (vget (vset snap j []) j = (fun _ => []) <$> vget snap j) as ->.
    { destruct (vget snap j) as [x|] eqn:E; cbn.
      - apply vget_Some_range in E. by apply vget_vset_eq.
      - destruct (vget (vset snap j []) j) eqn:E'; [|done].
        apply vget_Some_range in E'. rewrite len_vset in E'.
        apply vget_is_Some in E' as [? ?]. congruence. }
    by destruct (vget snap j); cbn; case_if.
  - rewrite vget_vset_ne by done.
    case_if; bool_prop; case_if; bool_prop; set_solver.
Qed.

Lemma blanked_app snap l1 l2 : blanked snap (l1 ++ l2) = blanked (blanked snap l1) l2.
Proof. unfold blanked. apply foldl_app. Qed.

Lemma clear_node_ok snap node : 0 <= node < len snap -> clear_node snap node = Ok (vset snap node []).
Proof. intros H%vget_is_Some. destruct H as [x H]. unfold clear_node. by rewrite H. Qed.

Lemma blank_leaf_loop_eq fuel snap node :
  0 <= node < len snap -> Z.log2 (node + 1) < Z.of_nat fuel ->
  blank_leaf_loop fuel snap node = Ok (blanked snap (path_of node)).
Proof.
  revert snap node; induction fuel as [|fuel IH]; intros snap node Hn Hf; cbn [blank_leaf_loop].
  - pose proof (Z.log2_nonneg (node + 1)). lia.
  - rewrite clear_node_ok by done. cbn. case_if; bool_prop; [by subst|].
    rewrite path_of_step by lia. rewrite IH; [done| |rewrite parent_succ, log2_half by lia; lia].
    rewrite len_vset. split; [apply Z.div_pos; lia|]. apply Z.div_lt_upper_bound; lia.
Qed.

Lemma blank_internal_loop_eq fuel snap node :
  0 <= node < len snap -> Z.log2 (node + 1) < Z.of_nat fuel ->
  blank_internal_loop fuel snap node = Ok (blanked snap (tail (path_of node))).
Proof.
  revert snap node; induction fuel as [|fuel IH]; intros snap node Hn Hf; cbn [blank_internal_loop].
  - pose proof (Z.log2_nonneg (node + 1)). lia.
  - case_if; bool_prop; [|assert (node = 0) as -> by lia; done].
    rewrite path_of_step by lia. cbn [tail].
    assert (0 <= (node - 1) / 2 < node).
    { split; [apply Z.div_pos; lia|]. apply Z.div_lt_upper_bound; lia. }
    rewrite clear_node_ok by lia. cbn.
    rewrite IH; [|rewrite len_vset; lia|rewrite parent_succ, log2_half by lia; lia].
    f_equal. destruct (decide ((node - 1) / 2 = 0)) as [->|Hz]; [done|].
    rewrite (path_of_step ((node - 1) / 2)) by lia. done.
Qed.

Lemma blank_leaf_and_path_eq snap node :
  0 <= node < len snap -> len snap <= U64_MAX ->
  blank_leaf_and_path snap node = Ok (blanked snap (path_of node)).
Proof. intros. apply blank_leaf_loop_eq; [done|]. apply log2_fuel; lia. Qed.

Lemma blank_internal_path_from_leaf_eq snap node :
  0 <= node < len snap -> len snap <= U64_MAX ->
  blank_internal_path_from_leaf snap node = Ok (blanked snap (tail (path_of node))).
Proof. intros. apply blank_internal_loop_eq; [done|]. apply log2_fuel; lia. Qed.

(** ** Levels of a validated tree

    [at_height d h m]: node [m] (from one) of a tree with [2 ^ d] leaves has
    height [h], so its subtree has [2 ^ h] leaves. *)

Definition at_height (d : Z) (h : nat) (m : Z) : Prop :=
  0 < m /\ Z.of_nat h <= d /\ Z.log2 m = d - Z.of_nat h.

Lemma at_height_bounds d h m : at_height d h m -> 1 <= m < 2 ^ (d + 1).
Proof.
  intros (Hm & Hh & Hl). pose proof (level_log2 m Hm). split; [lia|].
  eapply Z.lt_le_trans; [apply H|]. apply Z.pow_le_mono_r; lia.
Qed.

Lemma at_height_children d h m :
  at_height d (S h) m -> at_height d h (2 * m) /\ at_height d h (2 * m + 1).
Proof.
  intros (Hm & Hh & Hl). unfold at_height. rewrite log2_double, log2_succ_double by done. lia.
Qed.

Lemma at_height_leaf d h m : at_height d h m -> (2 ^ d - 1 <=? m - 1) = bool_decide (h = 0%nat).
Proof.
  intros (Hm & Hh & Hl). pose proof (level_log2 m Hm) as Hb. rewrite Hl in Hb.
  destruct h as [|h].
  - rewrite bool_decide_true by done. apply Z.leb_le. rewrite Z.sub_0_r in Hb. lia.
  - rewrite bool_decide_false by done. apply Z.leb_gt.
    assert (2 ^ (d - Z.of_nat (S h) + 1) <= 2 ^ d); [apply Z.pow_le_mono_r; lia|lia].
Qed.

Lemma at_height_in_range n snap h m :
  tree_wf n snap -> at_height (Z.log2 n) h m ->
  0 <= m - 1 < len snap /\ m <= 131071.
Proof.
  intros [Hv Hl] Hm%at_height_bounds. destruct (n_max_bounds n Hv) as (Hn & Hd & ?).
  rewrite Z.pow_add_r, Z.pow_1_r, <- Hn in Hm by lia. lia.
Qed.

Lemma children_ok m : 1 <= m <= 131071 ->
  left_child (m - 1) = Some (2 * m - 1) /\ right_child (m - 1) = Some (2 * m + 1 - 1).
Proof.
  intros. unfold left_child, right_child, checked_mul, checked_add, U64_MAX.
  rewrite (proj2 (Z.leb_le _ _)) by lia. cbn.
  rewrite !(proj2 (Z.leb_le _ _)) by lia. split; f_equal; lia.
Qed.

Lemma at_height_root n : validate_barrier_n_max n = Ok n -> at_height (Z.log2 n) (Z.to_nat (Z.log2 n)) 1.
Proof. intros (_ & ? & _)%n_max_bounds. unfold at_height. rewrite Z2Nat.id by lia. cbn. lia. Qed.

Lemma at_height_fuel n h m : validate_barrier_n_max n = Ok n -> at_height (Z.log2 n) h m -> (h < TREE_FUEL)%nat.
Proof. intros (_ & ? & _)%n_max_bounds (_ & ? & _). unfold TREE_FUEL. lia. Qed.

#[global] Opaque TREE_FUEL.

(** ** Resolutions *)

(** The resolution by recursion on the height: the topmost non-blank nodes of
    the subtree, from left to right. *)
Fixpoint resolution (snap : snapshot) (h : nat) (m : Z) : list Z :=
  match vget snap (m - 1) with
  | None => []
  | Some (_ :: _) => [m - 1]
  | Some [] =>
      match h with
      | O => []
      | S h' => resolution snap h' (2 * m) ++ resolution snap h' (2 * m + 1)
      end
  end.

Lemma collect_resolution_loop_eq n snap fuel h m targets :
  tree_wf n snap -> at_height (Z.log2 n) h m -> (h < fuel)%nat ->
  collect_resolution_loop fuel snap (m - 1) (n - 1) targets = Ok (targets ++ resolution snap h m).
Proof.
  intros Hwf. revert h m targets. induction fuel as [|fuel IH]; intros h m targets Hm Hf; [lia|].
  cbn [collect_resolution_loop].
  destruct (at_height_in_range n snap h m Hwf Hm) as [Hr Hb].
  destruct (n_max_bounds n (proj1 Hwf)) as (Hn & Hd & _).
  pose proof (at_height_leaf _ _ _ Hm) as Hleaf. rewrite <- Hn in Hleaf.
  apply vget_is_Some in Hr as [pk Hpk]. rewrite Hpk, Hleaf.
  destruct h as [|h]; cbn [resolution]; rewrite Hpk; destruct pk; cbn; try done.
  - by rewrite app_nil_r.
  - destruct (children_ok m) as [-> ->]; [destruct Hm; lia|]. cbn.
    apply at_height_children in Hm as [Hl Hr].
    rewrite (IH h) by (done || lia). cbn. rewrite (IH h) by (done || lia).
    by rewrite (assoc_L (++)).
Qed.

Lemma collect_resolution_targets_spec n snap h m :
  tree_wf n snap -> at_height (Z.log2 n) h m ->
  collect_resolution_targets snap (m - 1) (n - 1) [] = Ok (resolution snap h m).
Proof.
  intros Hwf Hm. unfold collect_resolution_targets.
  rewrite (collect_resolution_loop_eq n snap _ h); [done|done|done|].
  eapply at_height_fuel; [apply Hwf|done].
Qed.

(** A target is a non-blank descendant of the node. *)
Lemma resolution_sound snap h m t :
  t ∈ resolution snap h m ->
  (exists pk, vget snap t = Some pk /\ pk <> []) /\
  exists j, 0 <= j <= Z.of_nat h /\ anc (t + 1) j = m.
Proof.
  revert m; induction h as [|h IH]; intros m; cbn [resolution];
    destruct (vget snap (m - 1)) as [[|b pk]|] eqn:E; try set_solver.
  - intros ->%list_elem_of_singleton. split; [eauto|]. exists 0. rewrite anc_0. lia.
  - intros [H|H]%elem_of_app; apply IH in H as (Hpk & j & Hj & Ha); (split; [done|]);
      exists (j + 1); (split; [lia|]); rewrite anc_succ, Ha by lia;
      [apply half_double|apply half_succ_double].
  - intros ->%list_elem_of_singleton. split; [eauto|]. exists 0. rewrite anc_0. lia.
Qed.

Lemma resolution_range snap h m t : t ∈ resolution snap h m -> 0 <= t < len snap.
Proof. intros ((pk & H & _) & _)%resolution_sound. by apply vget_Some_range in H. Qed.

(** Subtrees of different children share no node. *)
Lemma resolution_children_disjoint snap h m t :
  0 < m -> t ∈ resolution snap h (2 * m) -> t ∈ resolution snap h (2 * m + 1) -> False.
Proof.
  intros Hm Hl Hr. pose proof (resolution_range _ _ _ _ Hl).
  apply resolution_sound in Hl as (_ & j & Hj & Ha). apply resolution_sound in Hr as (_ & k & Hk & Hb).
  assert (j <= Z.log2 (t + 1)) by (apply anc_pos_le_log2; lia).
  assert (k <= Z.log2 (t + 1)) by (apply anc_pos_le_log2; lia).
  pose proof (log2_anc (t + 1) j). pose proof (log2_anc (t + 1) k).
  rewrite Ha in *. rewrite Hb in *.
  rewrite log2_double, log2_succ_double in * by lia.
  assert (j = k) as -> by lia. lia.
Qed.

Lemma resolution_NoDup snap h m : 0 < m -> NoDup (resolution snap h m).
Proof.
  revert m; induction h as [|h IH]; intros m Hm; cbn [resolution];
    destruct (vget snap (m - 1)) as [[|b pk]|]; try apply NoDup_singleton; try apply NoDup_nil_2.
  apply NoDup_app. split_and!; [apply IH; lia| |apply IH; lia].
  intros t Hl Hr. by eapply resolution_children_disjoint.
Qed.

(** Every non-blank leaf below the node is covered by a target, and by one only. *)
Lemma resolution_covers snap h m x :
  0 < m -> anc x (Z.of_nat h) = m -> (exists pk, vget snap (x - 1) = Some pk /\ pk <> []) ->
  (forall k, 0 <= k <= Z.of_nat h -> is_Some (vget snap (anc x k - 1))) ->
  exists k, 0 <= k <= Z.of_nat h /\ anc x k - 1 ∈ resolution snap h m.
Proof.
  revert m; induction h as [|h IH]; intros m Hm Hx (pk & Hpk & Hne) Hin; cbn [resolution].
  - cbn in Hx. rewrite anc_0 in Hx. subst x. rewrite Hpk. destruct pk; [done|].
    exists 0. rewrite anc_0. set_solver by lia.
  - destruct (Hin (Z.of_nat (S h))) as [q Hq]; [lia|]. rewrite Hx in Hq. rewrite Hq.
    destruct q as [|b q].
    + apply anc_child in Hx; [|lia]. rewrite Nat2Z.inj_succ in *.
      replace (Z.succ (Z.of_nat h) - 1) with (Z.of_nat h) in Hx by lia.
      destruct Hx as [Hx|Hx]; (edestruct IH as (k & Hk & Ht);
        [|exact Hx|by eauto|intros; apply Hin; lia|]; [lia|]); exists k; (split; [lia|]); set_solver.
    + exists (Z.of_nat (S h)). rewrite Hx. split; [lia|set_solver].
Qed.

Lemma resolution_child_ancestor snap h m x k t :
  0 < m -> 0 < x -> anc x (Z.of_nat (S h)) = m -> 0 <= k <= Z.of_nat (S h) ->
  t = 2 * m \/ t = 2 * m + 1 ->
  anc x k - 1 ∈ resolution snap h t -> k <= Z.of_nat h /\ anc x (Z.of_nat h) = t.
Proof.
  intros Hm Hx0 Hx Hk Ht Hin. apply resolution_sound in Hin as (_ & j & Hj & He).
  assert (Z.of_nat (S h) <= Z.log2 x) by (apply anc_pos_le_log2; lia).
  assert (t / 2 = m) by (destruct Ht as [->| ->]; [apply half_double|apply half_succ_double]).
  rewrite Z.sub_add, anc_anc in He by lia.
  assert (k + j <= Z.log2 x) by (apply anc_pos_le_log2; lia).
  assert (anc x (k + j + 1) = m) by (rewrite anc_succ, He by lia; done).
  assert (k + j + 1 <= Z.log2 x) by (apply anc_pos_le_log2; lia).
  assert (k + j + 1 = Z.of_nat (S h)) by (apply (anc_inj x); lia).
  split; [lia|]. by replace (Z.of_nat h) with (k + j) by lia.
Qed.

Lemma resolution_cover_unique snap h m x a b :
  0 < m -> 0 < x -> anc x (Z.of_nat h) = m ->
  0 <= a <= Z.of_nat h -> 0 <= b <= Z.of_nat h ->
  anc x a - 1 ∈ resolution snap h m -> anc x b - 1 ∈ resolution snap h m -> a = b.
Proof.
  revert m; induction h as [|h IH]; intros m Hm Hx0 Hx Ha Hb; [lia|]. cbn [resolution].
  assert (Z.of_nat (S h) <= Z.log2 x) by (apply anc_pos_le_log2; lia).
  destruct (vget snap (m - 1)) as [[|c pk]|] eqn:E; [| |set_solver].
  - intros [H1|H1]%elem_of_app [H2|H2]%elem_of_app;
      pose proof (fun Ht => resolution_child_ancestor _ _ m x a _ Hm Hx0 Hx Ha Ht H1) as Ca;
      pose proof (fun Ht => resolution_child_ancestor _ _ m x b _ Hm Hx0 Hx Hb Ht H2) as Cb;
      (destruct Ca as [? Ca]; [by auto|]); (destruct Cb as [? Cb]; [by auto|]); try lia;
      (eapply IH; [| |exact Ca| | |exact H1|exact H2]; lia).
  - intros H1%list_elem_of_singleton H2%list_elem_of_singleton. apply (anc_inj x); lia.
Qed.

(** ** The tree hash *)

Definition node_pk (snap : snapshot) (m : Z) : bytes := default [] (vget snap (m - 1)).

Section TreeDigest.
  Context {HS : Hashing}.

Definition hl_digest (label : string) (v : Value) : bytes :=
  blake3_derive_key CITY_G_HL_DERIVE_CTX (hash_input CITY_G_PREFIX label v).

#[global] Arguments hl_digest label v : simpl never.

(** The tree hash by recursion on the height. *)
Fixpoint tree_digest (n_max : Z) (snap : snapshot) (h : nat) (m : Z) : bytes :=
  match h with
  | O => hl_digest "barrier/tree/leaf-hash" (leaf_hash_preimage n_max (m - 1) (node_pk snap m))
  | S h' =>
      hl_digest "barrier/tree/node-hash"
        (node_hash_preimage n_max (m - 1) (node_pk snap m)
           (tree_digest n_max snap h' (2 * m)) (tree_digest n_max snap h' (2 * m + 1)))
  end.

Lemma h_l_digest label v : validate_label label = Ok tt -> h_l label v = Ok (hl_digest label v).
Proof. apply h_l_ok. Qed.

Lemma compute_barrier_tree_hash_recursive_eq n snap fuel h m :
  tree_wf n snap -> at_height (Z.log2 n) h m -> (h < fuel)%nat ->
  compute_barrier_tree_hash_recursive fuel (m - 1) (n - 1) n snap = Ok (tree_digest n snap h m).
Proof.
  intros Hwf. revert h m. induction fuel as [|fuel IH]; intros h m Hm Hf; [lia|].
  cbn [compute_barrier_tree_hash_recursive].
  destruct (at_height_in_range n snap h m Hwf Hm) as [Hr Hb].
  destruct (n_max_bounds n (proj1 Hwf)) as (Hn & Hd & _).
  pose proof (at_height_leaf _ _ _ Hm) as Hleaf. rewrite <- Hn in Hleaf.
  apply vget_is_Some in Hr as [pk Hpk].
  assert (node_pk snap m = pk) as Hnp by (unfold node_pk; by rewrite Hpk).
  rewrite Hpk, Hleaf. cbn. destruct h as [|h]; cbn -[validate_label]; rewrite Hnp.
  - by rewrite h_l_digest.
  - destruct (children_ok m) as [-> ->]; [destruct Hm; lia|]. cbn.
    apply at_height_children in Hm as [Hl Hr].
    rewrite (IH h) by (done || lia). cbn. rewrite (IH h) by (done || lia).
    cbn. by rewrite h_l_digest.
Qed.

Lemma tree_size_ok n : 1 <= n <= 65536 ->
  (v ← checked_mul n 2; checked_sub v 1) = Some (2 * n - 1).
Proof.
  intros. unfold checked_mul, U64_MAX. rewrite (proj2 (Z.leb_le _ _)) by lia. cbn.
  unfold checked_sub. rewrite (proj2 (Z.leb_le _ _)) by lia. f_equal; lia.
Qed.

Lemma compute_barrier_tree_hash_ok n snap :
  tree_wf n snap ->
  compute_barrier_tree_hash n snap = Ok (tree_digest n snap (Z.to_nat (Z.log2 n)) 1).
Proof.
  intros Hwf. pose proof Hwf as [Hv Hl]. destruct (n_max_bounds n Hv) as (Hn & Hd & ?).
  unfold compute_barrier_tree_hash. rewrite Hv. cbn. rewrite tree_size_ok by lia.
  cbn -[Z.mul]. rewrite Hl, Z.eqb_refl. cbn.
  replace (sat_sub n 1) with (n - 1) by (unfold sat_sub; lia).
  pose proof (at_height_root n Hv) as Hr.
  replace 0 with (1 - 1) by lia.
  rewrite (compute_barrier_tree_hash_recursive_eq n snap _ (Z.to_nat (Z.log2 n)) 1); [done|done|done|].
  by eapply at_height_fuel.
Qed.

Lemma compute_barrier_tree_hash_inv n snap r :
  compute_barrier_tree_hash n snap = Ok r ->
  tree_wf n snap /\ r = tree_digest n snap (Z.to_nat (Z.log2 n)) 1.
Proof.
  intros H. assert (tree_wf n snap) as Hwf; [|split; [done|]].
  - unfold compute_barrier_tree_hash in H. inv_all.
    apply validate_barrier_n_max_spec in E as E'. destruct E' as [-> _].
    destruct (n_max_bounds n E) as (_ & _ & ?).
    rewrite tree_size_ok in * by lia. bool_prop. simplify_eq. done.
  - rewrite compute_barrier_tree_hash_ok in H by done. by inv_all.
Qed.

Lemma hl_digest_inj {HL : HashingLaws HS} (S : string -> Value -> Prop) l1 l2 v1 v2 :
  validate_label l1 = Ok tt -> validate_label l2 = Ok tt -> S l1 v1 -> S l2 v2 ->
  hl_digest l1 v1 = hl_digest l2 v2 -> (l1 = l2 /\ v1 = v2) \/ hl_collision S.
Proof. intros H1 H2 HS1 HS2 H. eapply (h_l_inj S l1 l2); [rewrite h_l_digest by done; by f_equal..|done|done]. Qed.

(** What is hashed for the digest of a subtree. *)
Fixpoint tree_inputs (n_max : Z) (snap : snapshot) (h : nat) (m : Z) : list (string * Value) :=
  match h with
  | O => [("barrier/tree/leaf-hash", leaf_hash_preimage n_max (m - 1) (node_pk snap m))]
  | S h' =>
      ("barrier/tree/node-hash",
        node_hash_preimage n_max (m - 1) (node_pk snap m)
          (tree_digest n_max snap h' (2 * m)) (tree_digest n_max snap h' (2 * m + 1)))
      :: tree_inputs n_max snap h' (2 * m) ++ tree_inputs n_max snap h' (2 * m + 1)
  end.

(** Equal digests of a subtree: equal keys below, or a collision. *)
Lemma tree_digest_binding {HL : HashingLaws HS} (S : string -> Value -> Prop) n s1 s2 h m :
  (forall l v, (l, v) ∈ tree_inputs n s1 h m -> S l v) -> (forall l v, (l, v) ∈ tree_inputs n s2 h m -> S l v) ->
  tree_digest n s1 h m = tree_digest n s2 h m ->
  (forall x j, 0 <= j <= Z.of_nat h -> anc x j = m -> node_pk s1 x = node_pk s2 x) \/ hl_collision S.
Proof.
  revert m; induction h as [|h IH]; intros m H1 H2 H; cbn [tree_digest tree_inputs] in *.
  - apply (hl_digest_inj S) in H as [[_ H]|?]; [|by right|done|done|apply H1; by constructor|apply H2; by constructor]. left.
    intros x j Hj. assert (j = 0) as -> by lia. rewrite anc_0. intros ->.
    by injection H.
  - apply (hl_digest_inj S) in H as [[_ H]|?]; [|by right|done|done|apply H1; by constructor|apply H2; by constructor].
    injection H as Hpk Hl Hr.
    destruct (IH (2 * m)) as [Hl'|?]; [set_solver|set_solver|done| |by right].
    destruct (IH (2 * m + 1)) as [Hr'|?]; [set_solver|set_solver|done| |by right].
    left. intros x j Hj Hx. destruct (decide (j = 0)) as [->|Hj0].
    + rewrite anc_0 in Hx. by subst.
    + apply anc_child in Hx as [Hx|Hx]; [| |lia]; [apply (Hl' x (j - 1))|apply (Hr' x (j - 1))]; lia.
Qed.

(** What is hashed for the tree hash of a snapshot. *)
Definition tree_hash_inputs (n_max : Z) (snap : snapshot) : list (string * Value) :=
  tree_inputs n_max snap (Z.to_nat (Z.log2 n_max)) 1.

Lemma tree_inputs_top n snap h m : exists v r l,
  tree_inputs n snap h m = (l, v) :: r /\ tree_digest n snap h m = hl_digest l v /\ validate_label l = Ok tt /\
  (v = leaf_hash_preimage n (m - 1) (node_pk snap m) \/ exists a b, v = node_hash_preimage n (m - 1) (node_pk snap m) a b).
Proof. destruct h; cbn; [do 3 eexists; split_and!; [done..|by left]|do 3 eexists; split_and!; [done..|right; eauto]]. Qed.

End TreeDigest.

(** ** Revocations and joins *)

Section Snapshots.
  Context (n : Z).

Definition in_range (slot : Z) : Prop := 0 <= slot < n.

Definition revoked_nodes (slots : list Z) : list Z :=
  slots ≫= (fun slot => path_of (leaf_node n slot)).

Lemma elem_of_revoked_nodes slots i :
  i ∈ revoked_nodes slots <-> exists slot, slot ∈ slots /\ i ∈ path_of (leaf_node n slot).
Proof. unfold revoked_nodes. rewrite list_elem_of_bind. naive_solver. Qed.

Lemma leaf_in_range snap slot :
  tree_wf n snap -> in_range slot -> 0 <= leaf_node n slot < len snap /\ len snap <= U64_MAX.
Proof.
  intros [Hv Hl] Hs. destruct (n_max_bounds n Hv) as (_ & _ & ?).
  unfold leaf_node, in_range, U64_MAX in *. lia.
Qed.

Lemma tree_wf_blanked snap nodes : tree_wf n snap -> tree_wf n (blanked snap nodes).
Proof. intros [? ?]. split; [done|]. by rewrite len_blanked. Qed.

Lemma tree_wf_vset snap i pk : tree_wf n snap -> tree_wf n (vset snap i pk).
Proof. intros [? ?]. split; [done|]. by rewrite len_vset. Qed.

Lemma apply_revoked_set_eq snap slots :
  tree_wf n snap -> Forall in_range slots ->
  apply_revoked_set_to_snapshot snap n slots = Ok (blanked snap (revoked_nodes slots)).
Proof.
  intros Hwf Hs. unfold apply_revoked_set_to_snapshot.
  destruct (n_max_bounds n (proj1 Hwf)) as (_ & _ & ?).
  revert snap Hwf. induction Hs as [|slot slots Hs _ IH]; intros snap Hwf; cbn; [done|].
  rewrite leaf_sat by (unfold in_range, U32_MAX in *; lia).
  pose proof (leaf_in_range snap slot Hwf Hs).
  rewrite blank_leaf_and_path_eq by lia. cbn.
  rewrite IH by (by apply tree_wf_blanked). by rewrite blanked_app.
Qed.

(** One join: the leaf takes the new key, its ancestors are blanked. *)
Definition join_leaf (snap : snapshot) (record : BarrierJoinSnapshotRecord) : snapshot :=
  let leaf := leaf_node n (join_slot_index record) in
  blanked (vset snap leaf (join_ek_leaf record)) (tail (path_of leaf)).

Lemma apply_join_set_eq snap records :
  tree_wf n snap -> Forall (fun r => in_range (join_slot_index r)) records ->
  apply_join_set_to_snapshot snap n records = Ok (foldl join_leaf snap records).
Proof.
  intros Hwf Hs. unfold apply_join_set_to_snapshot.
  destruct (n_max_bounds n (proj1 Hwf)) as (_ & _ & ?).
  revert snap Hwf. induction Hs as [|r records Hs _ IH]; intros snap Hwf; cbn; [done|].
  rewrite leaf_sat by (unfold in_range, U32_MAX in *; lia).
  pose proof (leaf_in_range snap _ Hwf Hs).
  destruct (vget_is_Some snap (leaf_node n (join_slot_index r))) as [x Hx]; [lia|].
  rewrite Hx, blank_internal_path_from_leaf_eq by (rewrite len_vset; lia). cbn.
  by rewrite IH by (by apply tree_wf_blanked, tree_wf_vset).
Qed.

Lemma tree_wf_join_leaf snap r : tree_wf n snap -> tree_wf n (join_leaf snap r).
Proof. intros. by apply tree_wf_blanked, tree_wf_vset. Qed.

Lemma tree_wf_joins snap records : tree_wf n snap -> tree_wf n (foldl join_leaf snap records).
Proof.
  revert snap; induction records as [|r records IH]; intros snap H; cbn; [done|].
  apply IH. by apply tree_wf_join_leaf.
Qed.

End Snapshots.

(** *** Sorting and deduplicating the revoked slots *)

Lemma vec_dedup_elem_of l x : x ∈ vec_dedup l <-> x ∈ l.
Proof.
  induction l as [|a [|b l] IH]; [done|done|].
  change (vec_dedup (a :: b :: l)) with
    (if a =? b then vec_dedup (b :: l) else a :: vec_dedup (b :: l)).
  case_if; bool_prop; rewrite ?elem_of_cons, IH, ?elem_of_cons; naive_solver.
Qed.

Lemma vec_dedup_sorted l : StronglySorted Z.le l -> StronglySorted Z.lt (vec_dedup l).
Proof.
  induction l as [|a [|b l] IH]; intros H; [constructor|repeat constructor|].
  change (vec_dedup (a :: b :: l)) with
    (if a =? b then vec_dedup (b :: l) else a :: vec_dedup (b :: l)).
  apply StronglySorted_inv in H as [H Ha]. case_if; bool_prop; [by apply IH|].
  constructor; [by apply IH|]. apply Forall_forall. intros x Hx%list_elem_of_In.
  rewrite <- list_elem_of_In in Hx. rewrite vec_dedup_elem_of in Hx.
  apply StronglySorted_inv in H as [_ Hb]. rewrite Forall_forall in Ha, Hb.
  rewrite elem_of_cons in Hx. destruct Hx as [->|Hx].
  - specialize (Ha b ltac:(set_solver)). lia.
  - specialize (Hb x Hx). specialize (Ha b ltac:(set_solver)). lia.
Qed.

Lemma revoked_slot_indices_elem_of records x :
  x ∈ revoked_slot_indices_from_records records <-> x ∈ revoked_slot_index <$> records.
Proof.
  unfold revoked_slot_indices_from_records. rewrite vec_dedup_elem_of.
  by rewrite merge_sort_Permutation.
Qed.

Lemma revoked_slot_indices_sorted records :
  StronglySorted Z.lt (revoked_slot_indices_from_records records).
Proof.
  apply vec_dedup_sorted. apply StronglySorted_merge_sort.
  - intros ???; lia.
  - intros a b; lia.
Qed.

(** ** Properties *)

(** On a validated [n_max] and a slot below it, [barrier_path_nodes]
    returns the direct path of the slot's leaf: it starts at the leaf
    [n_max - 1 + slot], every next node is the parent [(node - 1) / 2], it ends at
    the root, repeats no node and has [log2 n_max + 1] nodes; a slot outside
    the tree is an error. *)
Theorem barrier_path_nodes_correct n slot :
  validate_barrier_n_max n = Ok n -> 0 <= slot ->
  if slot <? n then
    exists p, barrier_path_nodes n slot = Ok p /\
      vget p 0 = Some (n - 1 + slot) /\ vget p (Z.log2 n) = Some 0 /\
      len p = Z.log2 n + 1 /\ NoDup p /\
      forall k a, 0 <= k < Z.log2 n -> vget p k = Some a -> vget p (k + 1) = Some ((a - 1) / 2)
  else exists e, barrier_path_nodes n slot = Err e.
Proof.
  intros Hv Hs. destruct (slot <? n) eqn:E; bool_prop.
  - pose proof (n_max_bounds n Hv) as (Hn & Hd & ?).
    pose proof (leaf_log2 n slot Hv ltac:(lia)) as Hl.
    assert (0 <= leaf_node n slot) by (unfold leaf_node; lia).
    exists (path_of (leaf_node n slot)). split_and!.
    + apply barrier_path_nodes_eq; [done|lia].
    + rewrite vget_path_of, anc_0 by lia. f_equal. unfold leaf_node. lia.
    + rewrite <- Hl at 1. rewrite vget_path_of, anc_top by lia. done.
    + rewrite path_of_length, Hl by done. done.
    + by apply path_of_NoDup.
    + intros k a Hk Ha. rewrite vget_path_of in Ha by lia. injection Ha as <-.
      rewrite vget_path_of, anc_succ by lia. f_equal. mlia.
  - eexists. unfold barrier_path_nodes. rewrite Hv. cbn.
    rewrite (proj2 (Z.leb_le n slot)) by lia. done.
Qed.

Lemma barrier_path_nodes_correct_witness :
  exists p, barrier_path_nodes 8 5 = Ok p /\ len p = 4.
Proof.
  destruct (barrier_path_nodes_correct 8 5) as (p & H & _ & _ & Hl & _); [reflexivity|lia|].
  by exists p.
Defined.

(** The tree hash binds the whole tree: two snapshots with one tree hash
    have the same size and the same public keys, unless the labelled hash has
    a collision among the inputs hashed for the two. *)
Theorem compute_barrier_tree_hash_binding {HS : Hashing} {HL : HashingLaws HS} n1 n2 s1 s2 r :
  compute_barrier_tree_hash n1 s1 = Ok r -> compute_barrier_tree_hash n2 s2 = Ok r ->
  (n1 = n2 /\ s1 = s2) \/ hl_collision (listed (tree_hash_inputs n1 s1 ++ tree_hash_inputs n2 s2)).
Proof.
  intros [Hw1 ->]%compute_barrier_tree_hash_inv [Hw2 H]%compute_barrier_tree_hash_inv.
  match goal with |- _ \/ hl_collision ?T => set (S := T) end. assert (n1 = n2 \/ hl_collision S) as [->|?]; [| |by right].
  { destruct (tree_inputs_top n1 s1 (Z.to_nat (Z.log2 n1)) 1) as (v1 & r1 & l1 & E1 & D1 & V1 & P1).
    destruct (tree_inputs_top n2 s2 (Z.to_nat (Z.log2 n2)) 1) as (v2 & r2 & l2 & E2 & D2 & V2 & P2). rewrite D1, D2 in H.
    destruct (hl_digest_inj S l1 l2 v1 v2) as [[_ ->]|?]; [done|done|unfold S, listed, tree_hash_inputs; rewrite E1; set_solver|
      unfold S, listed, tree_hash_inputs; rewrite E2; set_solver|done| |by right].
    left. destruct P1 as [->|(?&?&->)], P2 as [P2|(?&?&P2)]; by injection P2. }
  destruct (tree_digest_binding S n2 s1 s2 (Z.to_nat (Z.log2 n2)) 1) as [Hb|?]; [unfold S, listed, tree_hash_inputs; set_solver..|done| |by right].
  clear H. rename Hb into H. left. split; [done|].
  destruct (n_max_bounds n2 (proj1 Hw1)) as (Hn & Hd & ?).
  destruct Hw1 as [Hv Hl1], Hw2 as [_ Hl2]. apply vget_ext; [congruence|]. intros i Hi.
  destruct (vget_is_Some s1 i Hi) as [p1 E1]. destruct (vget_is_Some s2 i ltac:(lia)) as [p2 E2].
  assert (node_pk s1 (i + 1) = node_pk s2 (i + 1)) as Hp.
  { apply (H (i + 1) (Z.log2 (i + 1))); [|apply anc_top; lia].
    rewrite Z2Nat.id by lia. split; [apply Z.log2_nonneg|].
    assert (Z.log2 (i + 1) < Z.log2 n2 + 1); [|lia].
    apply Z.log2_lt_pow2; [lia|]. rewrite Z.pow_add_r, Z.pow_1_r, <- Hn by lia. lia. }
  unfold node_pk in Hp. replace (i + 1 - 1) with i in Hp by lia. rewrite E1, E2 in Hp. cbn in Hp.
  by rewrite E1, E2, Hp.
Qed.

Lemma compute_barrier_tree_hash_binding_witness :
  let _ := toy_hashing in
  exists r, compute_barrier_tree_hash 2 [[]; [1]; [2]] = Ok r /\
    ((2 = 2 /\ [[]; [1]; [2]] = [[]; [1]; [2]]) \/
     hl_collision (listed (tree_hash_inputs 2 [[]; [1]; [2]] ++ tree_hash_inputs 2 [[]; [1]; [2]]))).
Proof.
  intros HS. eexists. split; [apply (compute_barrier_tree_hash_ok (HS := toy_hashing)); by split|].
  eapply (compute_barrier_tree_hash_binding (HS := toy_hashing) 2 2);
    apply (compute_barrier_tree_hash_ok (HS := toy_hashing)); by split.
Defined.

(** Resolution targets cover exactly: for a node of a well-formed tree
    [collect_resolution_targets] returns, without repetition, non-blank nodes,
    and every non-blank leaf below the node has exactly one target on its
    direct path. *)
Theorem collect_resolution_targets_cover n snap h m slot :
  tree_wf n snap -> at_height (Z.log2 n) h m -> 0 <= slot < n ->
  anc (leaf_node n slot + 1) (Z.of_nat h) = m ->
  exists targets, collect_resolution_targets snap (m - 1) (n - 1) [] = Ok targets /\ NoDup targets /\
    (forall t, t ∈ targets -> exists pk, vget snap t = Some pk /\ pk <> []) /\
    forall pk, vget snap (leaf_node n slot) = Some pk -> pk <> [] ->
      exists t, t ∈ targets /\ t ∈ path_of (leaf_node n slot) /\
        forall t', t' ∈ targets -> t' ∈ path_of (leaf_node n slot) -> t' = t.
Proof.
  intros Hwf Hm Hs Hanc. pose proof (leaf_log2 n slot (proj1 Hwf) Hs) as Hl.
  assert (0 < leaf_node n slot + 1) by (destruct (leaf_in_range n snap slot Hwf Hs); lia).
  destruct Hm as (Hm0 & Hh & Hlm) eqn:Em. clear Em.
  exists (resolution snap h m). split_and!.
  - by apply collect_resolution_targets_spec.
  - by apply resolution_NoDup.
  - intros t Ht. by apply resolution_sound in Ht as [? _].
  - intros pk Hpk Hne.
    destruct (resolution_covers snap h m (leaf_node n slot + 1)) as (k & Hk & Hin); [done|done| | |].
    + exists pk. by rewrite Z.add_simpl_r.
    + intros k Hk. apply vget_is_Some.
      pose proof (anc_pos (leaf_node n slot + 1) k). pose proof (anc_le (leaf_node n slot + 1) k).
      destruct (leaf_in_range n snap slot Hwf Hs). lia.
    + exists (anc (leaf_node n slot + 1) k - 1). split_and!; [done| |].
      * apply elem_of_path_of. exists k. lia.
      * intros t' Ht' (j & Hj & Hej)%elem_of_path_of.
        assert (t' = anc (leaf_node n slot + 1) j - 1) as -> by lia.
        assert (j <= Z.of_nat h).
        { apply resolution_sound in Ht' as (_ & i & Hi & He).
          rewrite Z.sub_add, anc_anc in He by lia.
          assert (j + i <= Z.log2 (leaf_node n slot + 1)) by (apply anc_pos_le_log2; lia).
          assert (j + i = Z.of_nat h); [apply (anc_inj (leaf_node n slot + 1)); lia|lia]. }
        by rewrite (resolution_cover_unique snap h m (leaf_node n slot + 1) j k) by (done || lia).
Qed.

Lemma collect_resolution_targets_cover_witness :
  exists targets, collect_resolution_targets [[]; []; [9]; [5]; []; []; [7]] 1 3 [] = Ok targets /\
    exists t, t ∈ targets /\ t ∈ path_of 3.
Proof.
  destruct (collect_resolution_targets_cover 4 [[]; []; [9]; [5]; []; []; [7]] 1 2 0)
    as (ts & H & _ & _ & Hc); [by split|by repeat split|lia|reflexivity|].
  exists ts. split; [exact H|].
  destruct (Hc [5]) as (t & ? & ? & _); [reflexivity|done|]. by exists t.
Defined.

(** Revoked members receive nothing: once the revoked records are applied,
    no resolution target of any node lies on the direct path of a revoked
    slot, so no path secret is encrypted to a key a revoked member holds. *)
Theorem revoked_slots_excluded n snap records h m record snap' targets :
  tree_wf n snap -> Forall (fun r => 0 <= revoked_slot_index r < n) records ->
  apply_revoked_records_to_snapshot snap n records = Ok snap' ->
  at_height (Z.log2 n) h m ->
  collect_resolution_targets snap' (m - 1) (n - 1) [] = Ok targets ->
  record ∈ records ->
  forall t, t ∈ targets -> t ∉ path_of (leaf_node n (revoked_slot_index record)).
Proof.
  intros Hwf Hrec Happ Hm Hcol Hin t Ht Hpath. unfold apply_revoked_records_to_snapshot in Happ.
  rewrite apply_revoked_set_eq in Happ; [|done|].
  2:{ apply Forall_forall. intros s Hs. rewrite revoked_slot_indices_elem_of in Hs.
      apply list_elem_of_fmap in Hs as (r & -> & Hr). rewrite Forall_forall in Hrec. by apply Hrec. }
  injection Happ as <-.
  rewrite (collect_resolution_targets_spec n _ h) in Hcol by (try done; by apply tree_wf_blanked).
  injection Hcol as <-. apply resolution_sound in Ht as [(pk & Hpk & Hne) _].
  rewrite vget_blanked, bool_decide_true in Hpk.
  - destruct (vget snap t); naive_solver.
  - apply elem_of_revoked_nodes. exists (revoked_slot_index record). split; [|done].
    apply revoked_slot_indices_elem_of. by apply list_elem_of_fmap_2.
Qed.

Lemma revoked_slots_excluded_witness :
  collect_resolution_targets [[]; []; [9]; [5]; []; [7]; [8]] 0 3 [] = Ok [3; 2] /\
  3 ∉ path_of (leaf_node 4 1).
Proof.
  split; [by vm_compute|].
  apply (revoked_slots_excluded 4 [[1]; [2]; [9]; [5]; [6]; [7]; [8]]
    [{| revoked_slot_index := 1; revoked_slot_generation := 0 |}] 2 1
    {| revoked_slot_index := 1; revoked_slot_generation := 0 |}
    [[]; []; [9]; [5]; []; [7]; [8]] [3; 2]).
  - by split.
  - repeat constructor; cbn; lia.
  - by vm_compute.
  - by repeat split.
  - by vm_compute.
  - constructor.
  - constructor.
Defined.
