(* ===== verification/Errors.v ===== *)
(** * Error values

    The error types of [crates/msphf-orchestrator/src/mhw.rs],
    [crates/msphf-orchestrator/src/accept/mod.rs], [accept/errors.rs],
    [crates/msphf-core/src/errors.rs] and [crates/cityg-client/src/lib.rs]
    that the modelled code returns, with the freeze codes it uses.  Errors of
    type [anyhow::Error] are their message. *)

From S2P Require Import Prelude.

Record FreezeError := { freeze_code : Z; freeze_reason : string }.

Inductive WitnessValidationError :=
  | CborMalformed
  | NonCanonical
  | LeafBindMismatch
  | ProjEvalFail
  | PathOversize.

Inductive WitnessReplayField := XkHash | RhoCommit.

Inductive MsphfError :=
  | MsphfUnimplemented (msg : string)
  | MsphfSerialization (msg : string)
  | MsphfInvalidInput (msg : string)
  | MsphfWitnessReplayMismatch (field : WitnessReplayField)
  | MsphfWitness (e : WitnessValidationError).

Inductive AcceptanceError :=
  | AFreeze (e : FreezeError)
  | AMsphf (e : MsphfError).

Inductive ReceiverError :=
  | RFreeze (e : FreezeError)
  | REpochExpired
  | RUnknownHead
  | RMsphf (e : MsphfError).

Inductive CityGError :=
  | Msphf (e : MsphfError)
  | Acceptance (e : AcceptanceError)
  | Receiver (e : ReceiverError)
  | Io (msg : string)
  | InvalidInput (msg : string).

Definition freeze (code : Z) (reason : string) : FreezeError :=
  {| freeze_code := code; freeze_reason := reason |}.

Definition FREEZE_HASH_CBOR := freeze 9071 "cbor_malformed".
Definition FREEZE_HASH_NONCANONICAL := freeze 9072 "nonmem_noncanonical".
Definition FREEZE_HASH_LEAF_BIND := freeze 9073 "leaf_bind_mismatch".
Definition FREEZE_HASH_PROJ_FAIL := freeze 9074 "proj_eval_fail".
Definition FREEZE_HASH_PATH_OVERSIZE := freeze 9075 "path_oversize".
Definition FREEZE_HASH_MEM_MALFORMED := freeze 90721 "mem_malformed".
Definition FREEZE_NONMEM_ADJ_INCOHERENT := freeze 9072 "nonmem_adj_incoherent".
Definition FREEZE_SRX_INVALID := freeze 930 "srx_invalid".
Definition FREEZE_SRX_SET_CONFLICT_PARENT := freeze 9076 "set_conflict_parent".
Definition FREEZE_SRX_SET_CONFLICT_SUBSET := freeze 9078 "set_conflict_subset".
Definition FREEZE_SRX_ANCHOR_MISSING := freeze 930 "srx_anchor_missing".
Definition FREEZE_SRX_ANCHOR_MISMATCH := freeze 930 "srx_anchor_mismatch".
Definition FREEZE_SRX_ANCHOR_OOB := freeze 930 "srx_anchor_oob".
Definition FREEZE_SRX_ANCHOR_POOL_UNSORTED := freeze 930 "srx_anchor_pool_unsorted".
Definition FREEZE_BARRIER_TREE_HASH_CHAIN_FAILURE := freeze 9608 "barrier_tree_hash_chain_failure".
Definition FREEZE_SEEDCTX_MISMATCH := freeze 922 "msphf_seedctx_mismatch".
Definition FREEZE_BARRIER_UPDATER_INVALID := freeze 9601 "barrier_updater_invalid".
Definition FREEZE_BARRIER_EXPECTEDPAIRS_FAILURE := freeze 9603 "barrier_expectedpairs_failure".
Definition FREEZE_BARRIER_MERGE_DELEGATION_FORBIDDEN := freeze 9604 "barrier_merge_delegation_forbidden".
Definition FREEZE_BARRIER_PROACTIVE_FORBIDDEN := freeze 9605 "barrier_proactive_forbidden".
Definition FREEZE_BARRIER_UPDATE_MALFORMED := freeze 9607 "barrier_update_malformed".
Definition FREEZE_BARRIER_TREE_SNAPSHOT_AUTH_FAILURE := freeze 9609 "barrier_tree_snapshot_auth_failure".
Definition FREEZE_BARRIER_GENESIS_REQUIRED := freeze 96010 "barrier_genesis_required".
Definition FREEZE_BARRIER_UPDATE_REQUIRED_ON_REVOCATION_CHANGE :=
  freeze 96011 "barrier_update_required_on_revocation_change".
Definition FREEZE_BARRIER_PCS_REFRESH_RATE_LIMITED := freeze 96012 "pcs_refresh_rate_limited".
Definition FREEZE_BARRIER_NON_REVOCATION_REASON_FORBIDDEN_WHILE_PENDING_REVOCATIONS :=
  freeze 96013 "barrier_non_revocation_reason_forbidden_while_pending_revocations".
Definition FREEZE_TSWE_SALT_MISMATCH := freeze 922 "msphf_seedctx_mismatch".
Definition FREEZE_SRX_REQUIRED := freeze 929 "srx_required".
Definition FREEZE_SRX_SET_CONFLICT_REVOKE := freeze 9077 "set_conflict_revoke".
Definition FREEZE_SRX_HINT_UNDER := freeze 930 "srx_hint_under".
Definition FREEZE_SRX_OVERSIZE_HINT := freeze 930 "srx_oversize_hint".
Definition FREEZE_SRX_FRONTIER_MISMATCH := freeze 930 "srx_frontier_mismatch".
Definition FREEZE_SRX_COMMIT_MISMATCH := freeze 930 "srx_commit_mismatch".
Definition FREEZE_SRX_SMALLWOOD_INVALID := freeze 929 "srx_smallwood_invalid".
Definition FREEZE_CAPSS_INVALID := freeze 923 "msphf_lin_invalid".
Definition FREEZE_VRF_INVALID := freeze 923 "vrf_invalid".
Definition FREEZE_PROOFS_COMMIT_INVALID := freeze 923 "proof_invalid".
Definition FREEZE_POP_INVALID := freeze 921 "msphf_crs_untrusted".
Definition FREEZE_BOOTSTRAP_INVALID := freeze 931 "bootstrap_invalid".
Definition FREEZE_BOOTSTRAP_UNSUPPORTED := freeze 932 "bootstrap_unsupported".
Definition FREEZE_SUITE_DEPRECATED := freeze 934 "suite_deprecated".
Definition FREEZE_SUITE_FORBIDDEN := freeze 934 "suite_forbidden".
Definition FREEZE_STARK_OVERSIZE := freeze 923 "msphf_hp_binding_invalid".
Definition FREEZE_RHO_PARITY := freeze 924 "msphf_rho_parity".
Definition FREEZE_MSPHF_RHO_PARITY := freeze 924 "msphf_rho_parity".
Definition FREEZE_MH_HEADS_INVALID := freeze 927 "mh_heads_invalid".
Definition FREEZE_EPOCHID_MISMATCH := freeze 928 "epochid_mismatch".
Definition FREEZE_FIELD_MISSING := freeze 9071 "cbor_malformed".
Definition FREEZE_TSWE_ALG_INVALID := freeze 921 "msphf_crs_untrusted".
Definition FREEZE_MERKLE_SUITE_INVALID := freeze 921 "msphf_crs_untrusted".
Definition FREEZE_KBROAD_ALG_INVALID := freeze 921 "msphf_crs_untrusted".
Definition FREEZE_KBROAD_PARENT_MISMATCH := freeze 921 "kbroad_parent_mismatch".
Definition FREEZE_PARENT_EID_FORBIDDEN := freeze 921 "parent_eid_forbidden".
Definition FREEZE_MSPHF_CRS_INVALID := freeze 921 "msphf_crs_untrusted".
Definition FREEZE_MERGE_JOIN_KEYS := freeze 921 "msphf_crs_untrusted".
Definition FREEZE_PARAMS_ID_INVALID := freeze 921 "msphf_crs_untrusted".
Definition FREEZE_FS_POLICY_WINDOW_INCOMPATIBLE := freeze 9480 "fs_policy_window_incompatible".
Definition FREEZE_FS_JOIN_MISSING := freeze 9441 "fs_join_missing".
Definition FREEZE_FS_BASE_MISMATCH := freeze 9450 "fs_base_mismatch".
Definition FREEZE_FS_DEV_CHAIN_BREAK := freeze 9470 "fs_dev_chain_break".
Definition FREEZE_FS_DEV_CHAIN_BIND_MISMATCH := freeze 9472 "fs_dev_chain_bind_mismatch".
Definition FREEZE_FS_POLICY_VERSION_UNSUPPORTED := freeze 9446 "fs_policy_version_unsupported".
Definition FREEZE_FS_FORWARD_JUMP_DEVICE := freeze 9474 "fs_forward_jump_device".
Definition FREEZE_FS_FORWARD_JUMP_FIRST := freeze 9475 "fs_forward_jump_first".
Definition FREEZE_FS_FORWARD_JUMP_GROUP := freeze 9476 "fs_forward_jump_group".
Definition FREEZE_FS_CHECKPOINT_BACKDATE := freeze 9471 "fs_checkpoint_backdate".
Definition FREEZE_FS_CHECKPOINT_MONOTONICITY := freeze 9473 "fs_checkpoint_monotonicity".
Definition WINDOW_FULL := freeze 925 "mh_window_full".
Definition MERGE_INVALID := freeze 927 "mh_merge_invalid".
Definition FREEZE_MH_PARENT_MISMATCH := freeze 926 "mh_parent_mismatch".

Instance freeze_eq_dec : EqDecision FreezeError.
Proof. solve_decision. Defined.
Instance witness_error_eq_dec : EqDecision WitnessValidationError.
Proof. solve_decision. Defined.
Instance witness_replay_eq_dec : EqDecision WitnessReplayField.
Proof. solve_decision. Defined.
Instance msphf_error_eq_dec : EqDecision MsphfError.
Proof. solve_decision. Defined.
Instance acceptance_error_eq_dec : EqDecision AcceptanceError.
Proof. solve_decision. Defined.
Instance receiver_error_eq_dec : EqDecision ReceiverError.
Proof. solve_decision. Defined.
Instance cityg_error_eq_dec : EqDecision CityGError.
Proof. solve_decision. Defined.

(** [CityGError::from] of the error of [h_l]. *)
Definition from_hash {A} (r : result string A) : result CityGError A :=
  map_err (fun e => Msphf (MsphfInvalidInput e)) r.

Definition freeze_err {A} (e : FreezeError) : result CityGError A := Err (Acceptance (AFreeze e)).

(** Early returns with a freeze. *)
Definition afreeze {A} (e : FreezeError) : result AcceptanceError A := Err (AFreeze e).
Definition afreeze_if (b : bool) (e : FreezeError) : result AcceptanceError unit := fail_if b (AFreeze e).

(** [impl From<MsphfError> for AcceptanceError] *)
Definition acceptance_from_msphf (e : MsphfError) : AcceptanceError :=
  match e with
  | MsphfWitness CborMalformed => AFreeze FREEZE_HASH_CBOR
  | MsphfWitness NonCanonical => AFreeze FREEZE_HASH_NONCANONICAL
  | MsphfWitness LeafBindMismatch => AFreeze FREEZE_HASH_LEAF_BIND
  | MsphfWitness ProjEvalFail => AFreeze FREEZE_HASH_PROJ_FAIL
  | MsphfWitness PathOversize => AFreeze FREEZE_HASH_PATH_OVERSIZE
  | other => AMsphf other
  end.
