(* ===== verification/Header.v ===== *)
(** * The anchor header and its field readers

    Models the header keys of [crates/msphf-orchestrator/src/hdr.rs] and, of
    [crates/msphf-orchestrator/src/accept/mod.rs], the readers of single header
    fields, the classification of an anchor by the keys it carries
    ([classify_anchor_type], [is_known_header_key],
    [enforce_anchor_presence_rules]) and the parsers of [mh_heads], [mh_note],
    [barrier_update_reason] and the rollup replay.  A header is the decoded CBOR map
    from integer keys to values. *)

From stdpp Require Import pretty.
From S2P Require Import Prelude Hash Errors.

Abbreviation header := (gmap Z Value).

(** ** Header keys *)

Definition HDR_TSWE_ALG : Z := 90.
Definition HDR_SEED_CTX_HASH : Z := 91.
Definition HDR_MERKLE_SUITE : Z := 92.
Definition HDR_RHO_COMMIT : Z := 93.
Definition HDR_SEED_BUNDLE_COMMIT : Z := 94.
Definition HDR_VRF_PROOF : Z := 95.
Definition HDR_HP_BYTES : Z := 97.
Definition HDR_CRS_ID : Z := 98.
Definition HDR_HP_COMMIT : Z := 99.
Definition HDR_KBROAD_ALG : Z := 104.
Definition HDR_KBROAD_PUB : Z := 105.
Definition HDR_PARAMS_ID : Z := 106.
Definition HDR_POP_ALG : Z := 107.
Definition HDR_POP_PK : Z := 108.
Definition HDR_POP_SIG : Z := 109.
Definition HDR_PARENT_ROOT : Z := 110.
Definition HDR_JOIN_DELTA_ROOT : Z := 111.
Definition HDR_VRF_ID : Z := 116.
Definition HDR_PROOF_MODE : Z := 119.
Definition HDR_SRX_MODE : Z := 120.
Definition HDR_SRX_COMMIT : Z := 121.
Definition HDR_SRX_PAYLOAD : Z := 122.
Definition HDR_SRX_HINT_COUNTS : Z := 123.
Definition HDR_SRX_HINT_SIZES : Z := 124.
Definition HDR_PROOFS_COMMIT : Z := 125.
Definition HDR_SRX_ROOT_SW : Z := 160.
Definition HDR_SRX_SMALLWOOD : Z := 161.
Definition HDR_MH_HEADS : Z := 130.
Definition HDR_ROLLUP_PIVOT_WEID : Z := 131.
Definition HDR_ROLLUP_PROVENANCE_COMMIT : Z := 132.
Definition HDR_ROLLUP_EPOCH_REPLAY : Z := 133.
Definition HDR_ROLLUP_VCK_COMMIT : Z := 134.
Definition HDR_MERGE_DELEGATION_SIG : Z := 135.
Definition HDR_KBROAD_REPLAY : Z := 136.
Definition HDR_ROLLUP_FS_MODE : Z := 138.
Definition HDR_BOOTSTRAP_ALG : Z := 170.
Definition HDR_BOOTSTRAP_SIG : Z := 171.
Definition HDR_BOOTSTRAP_PK : Z := 172.
Definition HDR_BARRIER_UPDATE : Z := 175.
Definition HDR_BARRIER_VERSION : Z := 176.
Definition HDR_BARRIER_LEAF_PK : Z := 177.
Definition HDR_BARRIER_UPDATE_REASON : Z := 178.
Definition HDR_JOIN_FINALIZE_AUTH : Z := 179.
Definition HDR_BARRIER_HISTORY_COMMITMENT : Z := 180.
Definition HDR_BARRIER_FULL_VERIFICATION_RECEIPT : Z := 181.
Definition HDR_BARRIER_GLOBAL_HISTORY_ATTESTATION : Z := 182.
Definition HDR_BARRIER_FULL_VERIFICATION_WITNESS : Z := 183.
Definition HDR_POLICY_VERSION : Z := 140.
Definition HDR_FS_POLICY_VERSION : Z := 139.
Definition HDR_FS_EC : Z := 141.
Definition HDR_FS_EPOCH_COMMIT : Z := 142.
Definition HDR_FS_EPOCH_BASE_TS : Z := 143.
Definition HDR_FS_EVOLUTION_BOUNDARY : Z := 144.
Definition HDR_FS_PURGE_TIMES : Z := 145.
Definition HDR_FS_CAPSS : Z := 146.
Definition HDR_FS_DEV_PREV_COMMIT : Z := 152.
Definition HDR_FS_DEV_COMMIT : Z := 153.
Definition HDR_VRF_MASK_A : Z := 154.
Definition HDR_VRF_MASK_B : Z := 155.
Definition HDR_VRF_PUBLIC_KEY : Z := 156.
Definition HDR_FS_CHECKPOINT_EC : Z := 148.
Definition HDR_REVOKED_SINCE_ROOT : Z := 112.
Definition HDR_REVOKED_ROOT : Z := 113.

(** ** Text *)

(** Number of continuation bytes and the range of the first one, for the
    leading byte of a well-formed UTF-8 sequence. *)
Definition utf8_lead (b : Z) : option (nat * Z * Z) :=
  if b <? 128 then Some (0%nat, 0, 0)
  else if (194 <=? b) && (b <=? 223) then Some (1%nat, 128, 191)
  else if b =? 224 then Some (2%nat, 160, 191)
  else if b =? 237 then Some (2%nat, 128, 159)
  else if (225 <=? b) && (b <=? 239) then Some (2%nat, 128, 191)
  else if b =? 240 then Some (3%nat, 144, 191)
  else if (241 <=? b) && (b <=? 243) then Some (3%nat, 128, 191)
  else if b =? 244 then Some (3%nat, 128, 143)
  else None.

(** [n] further bytes of a sequence, the first of them between [lo] and [hi]. *)
Fixpoint utf8_valid (n : nat) (lo hi : Z) (l : bytes) : bool :=
  match n, l with
  | O, [] => true
  | O, b :: l => match utf8_lead b with Some (n, lo, hi) => utf8_valid n lo hi l | None => false end
  | S _, [] => false
  | S n, b :: l => (lo <=? b) && (b <=? hi) && utf8_valid n 128 191 l
  end.

Fixpoint bytes_str (l : bytes) : string :=
  match l with [] => EmptyString | b :: l => String (Ascii.ascii_of_N (Z.to_N b)) (bytes_str l) end.

(** [std::str::from_utf8]: a string is its UTF-8 bytes. *)
Definition from_utf8 (l : bytes) : option string :=
  if utf8_valid 0 0 0 l then Some (bytes_str l) else None.

(** Value of a decimal digit. *)
Definition digit_value (c : Ascii.ascii) : option Z :=
  let n := Z.of_N (Ascii.N_of_ascii c) in
  if (48 <=? n) && (n <=? 57) then Some (n - 48) else None.

Fixpoint parse_digits (acc : Z) (s : string) : option Z :=
  match s with
  | EmptyString => Some acc
  | String c s =>
      d ← digit_value c; m ← checked_mul acc 10; a ← checked_add m d; parse_digits a s
  end.

(** [str::parse::<u64>] *)
Definition parse_u64 (s : string) : option Z :=
  match s with
  | EmptyString => None
  | String c rest =>
      if (Z.of_N (Ascii.N_of_ascii c) =? 43) then
        match rest with EmptyString => None | _ => parse_digits 0 rest end
      else parse_digits 0 s
  end.

(** [u64::to_string] *)
Definition u64_to_string (n : Z) : string := pretty (Z.to_N n).

(** ** Field readers *)

Definition u64_try_from (z : Z) : option Z := if is_u64b z then Some z else None.

Definition freeze_on {A} (o : option A) (e : FreezeError) : result AcceptanceError A := ok_or o (AFreeze e).

(** [AcceptanceError::from] of the error of [h_l]. *)
Definition acc_hash {A} (r : result string A) : result AcceptanceError A :=
  map_err (fun e => acceptance_from_msphf (MsphfInvalidInput e)) r.

Definition contains_key (hdr : header) (key : Z) : bool := bool_decide (is_Some (hdr !! key)).

Definition as_bytes (v : Value) : option bytes := match v with VBytes b => Some b | _ => None end.

Definition get_bytes (hdr : header) (key : Z) : option bytes := hdr !! key ≫= as_bytes.

(** A 32-byte string. *)
Definition bytes32 (v : Value) : option bytes :=
  match v with VBytes b => if len b =? 32 then Some b else None | _ => None end.

Definition value_bytes32 (v : Value) (freeze : FreezeError) : result AcceptanceError bytes := freeze_on (bytes32 v) freeze.

Definition header_bytes32_or_freeze (hdr : header) (key : Z) (freeze : FreezeError) : result AcceptanceError bytes :=
  value ← freeze_on (hdr !! key) freeze; value_bytes32 value freeze.

Definition header_u64_or_freeze (hdr : header) (key : Z) (freeze : FreezeError) : result AcceptanceError Z :=
  value ← freeze_on (hdr !! key) freeze;
  match value with
  | VInteger int => freeze_on (u64_try_from int) freeze
  | _ => afreeze freeze
  end.

Definition header_value_bytes (hdr : header) (key : Z) (freeze : FreezeError) : result AcceptanceError bytes :=
  value ← freeze_on (hdr !! key) freeze;
  match value with
  | VBytes b => Ok b
  | VText t => Ok (str_bytes t)
  | _ => afreeze freeze
  end.

(** A string given as text or as its UTF-8 bytes. *)
Definition text_of (v : Value) : option string :=
  match v with VText t => Some t | VBytes b => from_utf8 b | _ => None end.

Definition header_string_or_freeze (hdr : header) (key : Z) : result AcceptanceError string :=
  freeze_on (hdr !! key ≫= text_of) FREEZE_FIELD_MISSING.

Definition header_bytes_or_freeze (hdr : header) (key : Z) : result AcceptanceError bytes :=
  freeze_on (get_bytes hdr key) FREEZE_FIELD_MISSING.

Definition extract_pop_signature (hdr : header) : result AcceptanceError bytes :=
  freeze_on (get_bytes hdr HDR_POP_SIG) FREEZE_POP_INVALID.

Definition is_all_zero (b : bytes) : bool := forallb (fun x => x =? 0) b.

(** ** Which keys an anchor may carry *)

Definition BARRIER_LEAF_PUBLIC_KEY_BYTES : Z := 1184.

Definition MERGE_ONLY_KEYS : list Z :=
  [HDR_MH_HEADS; HDR_ROLLUP_PIVOT_WEID; HDR_ROLLUP_PROVENANCE_COMMIT; HDR_ROLLUP_EPOCH_REPLAY; HDR_ROLLUP_VCK_COMMIT;
   HDR_MERGE_DELEGATION_SIG; HDR_KBROAD_REPLAY; HDR_ROLLUP_FS_MODE; HDR_FS_EVOLUTION_BOUNDARY; HDR_FS_PURGE_TIMES;
   HDR_FS_CHECKPOINT_EC].

Definition SRX_ONLY_KEYS : list Z := [HDR_SRX_COMMIT; HDR_SRX_PAYLOAD; HDR_SRX_ROOT_SW; HDR_SRX_SMALLWOOD].
Definition LEGACY_SRX_KEYS : list Z := [HDR_SRX_MODE; HDR_SRX_HINT_COUNTS; HDR_SRX_HINT_SIZES].

(** The keys every anchor may carry; 20 and 102 have no name in the source. *)
Definition COMMON_KEYS : list Z :=
  [20; HDR_TSWE_ALG; HDR_SEED_CTX_HASH; HDR_MERKLE_SUITE; HDR_RHO_COMMIT; HDR_SEED_BUNDLE_COMMIT; HDR_VRF_PROOF;
   HDR_HP_BYTES; HDR_CRS_ID; HDR_HP_COMMIT; 102; HDR_KBROAD_ALG; HDR_KBROAD_PUB; HDR_PARAMS_ID; HDR_POP_ALG; HDR_POP_PK;
   HDR_POP_SIG; HDR_PARENT_ROOT; HDR_JOIN_DELTA_ROOT; HDR_REVOKED_SINCE_ROOT; HDR_REVOKED_ROOT; HDR_VRF_ID;
   HDR_PROOF_MODE; HDR_SRX_MODE; HDR_SRX_COMMIT; HDR_SRX_PAYLOAD; HDR_SRX_HINT_COUNTS; HDR_SRX_HINT_SIZES;
   HDR_PROOFS_COMMIT; HDR_POLICY_VERSION; HDR_FS_POLICY_VERSION; HDR_FS_EC; HDR_FS_EPOCH_COMMIT; HDR_FS_EPOCH_BASE_TS;
   HDR_FS_CAPSS; HDR_FS_DEV_PREV_COMMIT; HDR_FS_DEV_COMMIT; HDR_BARRIER_UPDATE; HDR_BARRIER_VERSION; HDR_BARRIER_LEAF_PK;
   HDR_BARRIER_UPDATE_REASON; HDR_JOIN_FINALIZE_AUTH; HDR_BARRIER_HISTORY_COMMITMENT;
   HDR_BARRIER_FULL_VERIFICATION_RECEIPT; HDR_BARRIER_GLOBAL_HISTORY_ATTESTATION; HDR_BARRIER_FULL_VERIFICATION_WITNESS;
   HDR_VRF_MASK_A; HDR_VRF_MASK_B; HDR_VRF_PUBLIC_KEY; HDR_SRX_ROOT_SW; HDR_SRX_SMALLWOOD; HDR_BOOTSTRAP_ALG;
   HDR_BOOTSTRAP_SIG; HDR_BOOTSTRAP_PK].

Inductive AnchorType := Join | MergeAnchor | Regular.

#[global] Instance anchor_type_eq_dec : EqDecision AnchorType.
Proof. solve_decision. Defined.

Definition classify_anchor_type (hdr : header) : AnchorType :=
  if contains_key hdr HDR_BARRIER_UPDATE || contains_key hdr HDR_BARRIER_UPDATE_REASON
     || existsb (contains_key hdr) MERGE_ONLY_KEYS
  then MergeAnchor
  else if contains_key hdr HDR_BARRIER_LEAF_PK then Join else Regular.

Definition is_merge_anchor (hdr : header) : bool := bool_decide (classify_anchor_type hdr = MergeAnchor).

Definition is_known_header_key (key : Z) (is_merge : bool) : bool :=
  (is_merge && bool_decide (key ∈ MERGE_ONLY_KEYS)) || bool_decide (key ∈ COMMON_KEYS).

Definition ensure_known_header_keys (hdr : header) (is_merge : bool) : result AcceptanceError unit :=
  afreeze_if (negb (forallb (fun kv => is_known_header_key kv.1 is_merge) (map_to_list hdr))) FREEZE_HASH_CBOR.

Definition leaf_pk_ok (hdr : header) : bool :=
  match get_bytes hdr HDR_BARRIER_LEAF_PK with
  | Some pk => len pk =? BARRIER_LEAF_PUBLIC_KEY_BYTES
  | None => false
  end.

Definition enforce_anchor_presence_rules (hdr : header) (anchor_type : AnchorType) : result AcceptanceError unit :=
  match anchor_type with
  | MergeAnchor | Regular => afreeze_if (contains_key hdr HDR_BARRIER_LEAF_PK) FREEZE_HASH_CBOR
  | Join => afreeze_if (negb (leaf_pk_ok hdr)) FREEZE_HASH_CBOR
  end.

(** ** Field parsers *)

(** [is_sorted_unique] of accept/mod.rs: strictly increasing, the empty list included. *)
Fixpoint heads_sorted (l : list bytes) : bool :=
  match l with
  | a :: (b :: _) as rest => bytes_ltb a b && heads_sorted rest
  | _ => true
  end.

Definition parse_mh_heads (hdr : header) : result AcceptanceError (option (list bytes)) :=
  match hdr !! HDR_MH_HEADS with
  | Some (VArray entries) =>
      heads ← map_res (fun v => value_bytes32 v FREEZE_MH_HEADS_INVALID) entries;
      afreeze_if (bool_decide (heads = []) || negb (heads_sorted heads)) FREEZE_MH_HEADS_INVALID ;;
      Ok (Some heads)
  | _ => Ok None
  end.

Definition parse_mh_note (hdr : header) : result MsphfError (option string) :=
  match hdr !! 102 with
  | None => Ok None
  | Some (VText note) => Ok (Some note)
  | Some _ => Err (MsphfInvalidInput "mh_note not text")
  end.

Definition parse_barrier_update_reason (hdr : header) : result AcceptanceError (option Z) :=
  if contains_key hdr HDR_BARRIER_UPDATE then
    match hdr !! HDR_BARRIER_UPDATE_REASON with
    | Some (VInteger int) =>
        reason ← freeze_on (u64_try_from int) FREEZE_BARRIER_UPDATE_MALFORMED;
        afreeze_if (2 <? reason) FREEZE_BARRIER_UPDATE_MALFORMED ;;
        Ok (Some reason)
    | _ => afreeze FREEZE_BARRIER_UPDATE_MALFORMED
    end
  else
    afreeze_if (contains_key hdr HDR_BARRIER_UPDATE_REASON) FREEZE_BARRIER_UPDATE_MALFORMED ;; Ok None.

Record RollupEpochEntry := {
  re_weid : bytes;
  re_xk_hash : bytes;
  re_parent_root : bytes;
  re_join_delta_root : bytes;
  re_revoked_since_root : bytes;
  re_revoked_root : bytes;
  re_is_join : bool
}.

(** One entry of the replay, the epoch of the entry before it being [prev]. *)
Definition parse_replay_entry (prev : option bytes) (entry : Value) : result AcceptanceError RollupEpochEntry :=
  match entry with
  | VArray [weid_v; xk_v; roots; flag] =>
      weid ← value_bytes32 weid_v FREEZE_HASH_CBOR;
      afreeze_if (match prev with Some p => negb (bytes_ltb p weid) | None => false end) FREEZE_HASH_CBOR ;;
      xk_hash ← value_bytes32 xk_v FREEZE_HASH_CBOR;
      match roots with
      | VArray [parent_v; join_v; since_v; revoked_v] =>
          parent_root ← value_bytes32 parent_v FREEZE_HASH_CBOR;
          join_delta_root ← value_bytes32 join_v FREEZE_HASH_CBOR;
          revoked_since_root ← value_bytes32 since_v FREEZE_HASH_CBOR;
          revoked_root ← value_bytes32 revoked_v FREEZE_HASH_CBOR;
          match flag with
          | VBool is_join =>
              Ok {| re_weid := weid; re_xk_hash := xk_hash; re_parent_root := parent_root;
                    re_join_delta_root := join_delta_root; re_revoked_since_root := revoked_since_root;
                    re_revoked_root := revoked_root; re_is_join := is_join |}
          | _ => afreeze FREEZE_HASH_CBOR
          end
      | _ => afreeze FREEZE_HASH_CBOR
      end
  | _ => afreeze FREEZE_HASH_CBOR
  end.

Fixpoint parse_replay_entries (prev : option bytes) (entries : list Value) : result AcceptanceError (list RollupEpochEntry) :=
  match entries with
  | [] => Ok []
  | entry :: rest =>
      e ← parse_replay_entry prev entry;
      es ← parse_replay_entries (Some (re_weid e)) rest;
      Ok (e :: es)
  end.

Definition parse_rollup_epoch_replay (value : Value) : result AcceptanceError (list RollupEpochEntry) :=
  match value with
  | VArray entries => parse_replay_entries None entries
  | _ => afreeze FREEZE_HASH_CBOR
  end.

(** ** Digests of header fields *)

Section Digests.
  Context {HS : Hashing}.

(** Zero when the anchor carries no update. *)
Definition compute_barrier_update_digest (hdr : header) : result AcceptanceError bytes :=
  match hdr !! HDR_BARRIER_UPDATE with
  | None => Ok zero32
  | Some (VBytes raw) => acc_hash (h_l "barrier/update/digest" (VBytes raw))
  | Some _ => afreeze FREEZE_BARRIER_UPDATE_MALFORMED
  end.

Definition compute_revocation_roots_hash (hdr : header) : result AcceptanceError bytes :=
  revoked_since_root ← header_bytes32_or_freeze hdr HDR_REVOKED_SINCE_ROOT FREEZE_FIELD_MISSING;
  revoked_root ← header_bytes32_or_freeze hdr HDR_REVOKED_ROOT FREEZE_FIELD_MISSING;
  acc_hash (h_l "barrier/roots" (VArray [VBytes revoked_since_root; VBytes revoked_root])).

End Digests.

(** ** What a successful read says *)

Lemma afreeze_if_inv b e u : afreeze_if b e = Ok u -> b = false.
Proof. by destruct b. Qed.

Lemma freeze_on_inv {A} (o : option A) e a : freeze_on o e = Ok a -> o = Some a.
Proof. destruct o; cbn; [by intros [= ->]|done]. Qed.

Lemma acc_hash_inv {A} (r : result string A) a : acc_hash r = Ok a -> r = Ok a.
Proof. unfold acc_hash. destruct r; cbn; [by intros [= ->]|done]. Qed.

Lemma bytes32_inv v b : bytes32 v = Some b -> v = VBytes b /\ len b = 32.
Proof. destruct v; cbn; try done. case_if; [|done]. intros [= ->]. bool_prop. done. Qed.

Lemma header_bytes32_inv (hdr : header) key e b :
  header_bytes32_or_freeze hdr key e = Ok b -> hdr !! key = Some (VBytes b) /\ len b = 32.
Proof.
  unfold header_bytes32_or_freeze, value_bytes32. intros H. ok_step H as v E. apply freeze_on_inv in E, H.
  by apply bytes32_inv in H as [-> ?].
Qed.

Lemma u64_try_from_inv z n : u64_try_from z = Some n -> n = z /\ is_u64 n.
Proof.
  unfold u64_try_from, is_u64b, is_u64. case_if; [|done]. intros [= ->]. bool_prop. lia.
Qed.

Lemma header_u64_inv (hdr : header) key e n :
  header_u64_or_freeze hdr key e = Ok n -> hdr !! key = Some (VInteger n) /\ is_u64 n.
Proof.
  unfold header_u64_or_freeze. intros H. ok_step H as v E. apply freeze_on_inv in E. destruct v; try done.
  by apply freeze_on_inv, u64_try_from_inv in H as [-> ?].
Qed.

Lemma header_bytes_inv (hdr : header) key b : header_bytes_or_freeze hdr key = Ok b -> get_bytes hdr key = Some b.
Proof. apply freeze_on_inv. Qed.

Lemma contains_key_false (hdr : header) key : contains_key hdr key = false <-> hdr !! key = None.
Proof. unfold contains_key. rewrite bool_decide_eq_false. by rewrite <- eq_None_not_Some. Qed.

Lemma contains_key_true (hdr : header) key : contains_key hdr key = true <-> is_Some (hdr !! key).
Proof. apply bool_decide_eq_true. Qed.

(** An anchor with a reason is a merge. *)
Lemma classify_reason hdr : is_Some (hdr !! HDR_BARRIER_UPDATE_REASON) -> classify_anchor_type hdr = MergeAnchor.
Proof.
  intros H%contains_key_true. unfold classify_anchor_type. rewrite H. by destruct (contains_key hdr HDR_BARRIER_UPDATE).
Qed.

Lemma reason_of_update hdr r :
  parse_barrier_update_reason hdr = Ok r ->
  match r with
  | Some n => is_Some (hdr !! HDR_BARRIER_UPDATE) /\ hdr !! HDR_BARRIER_UPDATE_REASON = Some (VInteger n) /\ 0 <= n <= 2
  | None => hdr !! HDR_BARRIER_UPDATE = None /\ hdr !! HDR_BARRIER_UPDATE_REASON = None
  end.
Proof.
  unfold parse_barrier_update_reason. destruct (contains_key hdr HDR_BARRIER_UPDATE) eqn:E.
  - apply contains_key_true in E. destruct (hdr !! HDR_BARRIER_UPDATE_REASON) as [[]|]; try done. intros H.
    ok_step H as n E1. ok_step H as u E2. injection H as <-. apply freeze_on_inv, u64_try_from_inv in E1 as [-> Hn].
    apply afreeze_if_inv in E2. bool_prop. unfold is_u64 in Hn. split_and!; [done..|lia|lia].
  - apply contains_key_false in E. intros H. ok_step H as u E2. injection H as <-. apply afreeze_if_inv, contains_key_false in E2.
    done.
Qed.
