(* ===== verification/Merkle.v ===== *)
(** * Merkle sets and their witnesses

    The canonical Merkle set root, frontier and paths of
    [crates/msphf-core/src/merkle.rs]; the membership and non-membership
    witnesses a client builds ([crates/cityg-client/src/witness.rs]); their
    validation ([crates/msphf-core/src/witness.rs]) and the anchored
    adjacency checks of the acceptor
    ([crates/msphf-orchestrator/src/accept/mod.rs]).  The RPO-256 hash is a
    parameter: every theorem holds for any function of its type.

    The theorems: the root exists for every strictly increasing set and binds
    the set among sets of the same size, a path built for a member validates
    against the root, and non-membership validation accepts an empty path for
    almost every query. *)

From S2P Require Import Prelude Hash Errors.

(** [rpo256::v2]: [node], [interval_node] and [hash_with_tag]. *)
Class MerkleHash := {
  rpo_node : bytes -> bytes -> bytes;
  rpo_interval_node : bytes -> bytes -> bytes;
  rpo_hash_with_tag : Z -> bytes -> bytes
}.

(** Digests are 32 bytes. *)
Class MerkleHashLaws (MH : MerkleHash) := {
  rpo_node_len : forall l r, len (rpo_node l r) = 32;
  rpo_tag_len : forall t m, len (rpo_hash_with_tag t m) = 32
}.

Definition MAX_MERKLE_DEPTH : Z := 64.

Record RawPathEntry := { sibling : bytes; dir : Z }.

Record RawMembershipWitness := { rmw_leaf_id : bytes; rmw_root : bytes; rmw_path : list RawPathEntry }.

Record RawNonMembershipWitness := {
  rnw_query : bytes;
  rnw_root : bytes;
  rnw_left : option bytes;
  rnw_right : option bytes;
  rnw_path : list RawPathEntry;
  rnw_left_below : list RawPathEntry;
  rnw_right_below : list RawPathEntry;
  rnw_above : list RawPathEntry;
  rnw_nmint : option bytes;
  rnw_lca_left_height : option Z;
  rnw_lca_right_height : option Z
}.

Record ValidatedMembership := { vm_leaf_id : bytes; vm_root : bytes; vm_path : list (Z * bytes) }.

Record ValidatedNonMembership := {
  vn_query : bytes;
  vn_root : bytes;
  vn_left : option bytes;
  vn_right : option bytes;
  vn_path : list (Z * bytes)
}.

#[global] Instance raw_path_entry_eq_dec : EqDecision RawPathEntry.
Proof. solve_decision. Defined.

Section Merkle.
  Context {MH : MerkleHash}.

(** ** [merkle.rs] *)

Definition hash_node (left right : bytes) : bytes := rpo_node left right.
Definition hash_interval (left right : bytes) : bytes := rpo_interval_node left right.

Definition hash_interval_binding (left_id left_leaf right_id right_leaf : bytes)
    (lca_left_height lca_right_height : Z) : bytes :=
  rpo_hash_with_tag 5572183428872423758
    (left_id ++ left_leaf ++ right_id ++ right_leaf ++ [lca_left_height; lca_right_height]).

(** [leaves.windows(2).any(|window| window[0] >= window[1])] *)
Fixpoint not_increasing (leaves : list bytes) : bool :=
  match leaves with
  | a :: (b :: _) as tl => negb (bytes_ltb a b) || not_increasing tl
  | _ => false
  end.

(** One iteration of the level loops: the pairs of [chunks_exact(2)], then the
    carried digest of an odd level. *)
Fixpoint next_level (level : list bytes) : list bytes :=
  match level with
  | a :: b :: tl => hash_node a b :: next_level tl
  | _ => level
  end.

Fixpoint root_loop (fuel : nat) (level : list bytes) : list bytes :=
  match fuel with
  | O => level
  | S fuel' => if 1 <? len level then root_loop fuel' (next_level level) else level
  end.

Definition canonical_set_root (leaves : list bytes) : result MsphfError bytes :=
  match leaves with
  | [] => Ok zero32
  | [leaf] => Ok leaf
  | _ =>
      fail_if (not_increasing leaves) (MsphfInvalidInput "set must be strictly increasing") ;;
      ok_or (head (root_loop (length leaves) leaves)) (MsphfInvalidInput "index out of bounds")
  end.

Fixpoint frontier_loop (fuel : nat) (level frontier : list bytes) : list bytes :=
  match fuel with
  | O => frontier
  | S fuel' =>
      if 1 <? len level then
        let frontier' := if len level mod 2 =? 1 then frontier ++ option_list (last level) else frontier in
        frontier_loop fuel' (next_level level) frontier'
      else frontier
  end.

Definition canonical_frontier (leaves : list bytes) : result MsphfError (list bytes) :=
  match leaves with
  | [] => Ok []
  | _ =>
      fail_if (not_increasing leaves) (MsphfInvalidInput "set must be strictly increasing") ;;
      Ok (frontier_loop (length leaves) leaves [])
  end.

Definition apply_path (acc : bytes) (path : list (Z * bytes)) : bytes :=
  foldl (fun acc '(d, sib) => if d =? 0 then hash_node acc sib else hash_node sib acc) acc path.

(** ** The client's witnesses *)

(** [level.iter().position(|leaf| leaf == target)] *)
Fixpoint position_of (target : bytes) (l : list bytes) : option Z :=
  match l with
  | [] => None
  | x :: tl => if bytes_eqb x target then Some 0 else Z.succ <$> position_of target tl
  end.

(** The [while level.len() > 1] loop of [canonical_membership_path]. *)
Fixpoint membership_path_loop (fuel : nat) (level : list bytes) (index : Z) : list RawPathEntry :=
  match fuel with
  | O => []
  | S fuel' =>
      if 1 <? len level then
        let step :=
          if index mod 2 =? 0 then
            if index + 1 <? len level then [{| sibling := default [] (vget level (index + 1)); dir := 0 |}] else []
          else [{| sibling := default [] (vget level (index - 1)); dir := 1 |}] in
        step ++ membership_path_loop fuel' (next_level level) (index / 2)
      else []
  end.

Definition canonical_membership_path (leaves : list bytes) (target : bytes) : result CityGError (list RawPathEntry) :=
  if len leaves <=? 1 then Ok []
  else
    index ← ok_or (position_of target leaves) (InvalidInput "membership target missing from leaf set");
    Ok (membership_path_loop (length leaves) leaves index).

(** [fold_step_into] and [build_chain] of [split_interval_paths]. *)
Definition fold_step_into (acc : bytes) (entry : RawPathEntry) : result CityGError bytes :=
  fail_if (negb (len (sibling entry) =? 32)) (InvalidInput "invalid path entry") ;;
  if dir entry =? 0 then Ok (hash_node acc (sibling entry))
  else if dir entry =? 1 then Ok (hash_node (sibling entry) acc)
  else Err (InvalidInput "invalid path entry").

Fixpoint build_chain (acc : bytes) (path : list RawPathEntry) : result CityGError (list bytes) :=
  match path with
  | [] => Ok [acc]
  | entry :: tl =>
      acc' ← fold_step_into acc entry;
      rest ← build_chain acc' tl;
      Ok (acc :: rest)
  end.

(** The loop that counts the digests the two chains share from the root. *)
Fixpoint common_prefix (l r : list bytes) : nat :=
  match l, r with
  | a :: l', b :: r' => if bytes_eqb a b then S (common_prefix l' r') else O
  | _, _ => O
  end.

Definition split_interval_paths (left_leaf : bytes) (left_path : list RawPathEntry) (right_leaf : bytes)
    (right_path : list RawPathEntry) (parent_root : bytes)
    : result CityGError (list RawPathEntry * list RawPathEntry * list RawPathEntry * Z * Z) :=
  left_chain ← build_chain left_leaf left_path;
  right_chain ← build_chain right_leaf right_path;
  left_root ← ok_or (last left_chain) (InvalidInput "empty membership path");
  right_root ← ok_or (last right_chain) (InvalidInput "empty membership path");
  fail_if (negb (bytes_eqb left_root parent_root) || negb (bytes_eqb right_root parent_root))
    (InvalidInput "membership path inconsistent with root") ;;
  let common := common_prefix (reverse left_chain) (reverse right_chain) in
  fail_if (Nat.eqb common 0) (InvalidInput "anchors share no ancestry") ;;
  let left_len := length left_path in
  let right_len := length right_path in
  fail_if (Nat.ltb left_len common || Nat.ltb right_len common) (InvalidInput "invalid LCA depth") ;;
  let left_below := take (left_len - common) left_path in
  let right_below := take (right_len - common) right_path in
  let shared_suffix_len := (common - 1)%nat in
  above ← (if Nat.ltb 0 shared_suffix_len then
      let suffix_left := drop (left_len - shared_suffix_len) left_path in
      let suffix_right := drop (right_len - shared_suffix_len) right_path in
      fail_if (negb (bool_decide (suffix_left = suffix_right))) (InvalidInput "shared suffix mismatch") ;;
      fail_if (existsb (fun entry => 1 <? dir entry) suffix_left) (InvalidInput "shared suffix malformed") ;;
      Ok suffix_left
    else Ok []);
  fail_if (255 <? len left_below + 1) (InvalidInput "lca depth overflow") ;;
  fail_if (255 <? len right_below + 1) (InvalidInput "lca depth overflow") ;;
  Ok (left_below, right_below, above, len left_below + 1, len right_below + 1).

(** [partition_point(|leaf| leaf < query)] *)
Fixpoint partition_point (query : bytes) (leaves : list bytes) : Z :=
  match leaves with
  | [] => 0
  | leaf :: tl => if bytes_ltb leaf query then 1 + partition_point query tl else 0
  end.

Definition sentinel_nonmem (root query : bytes) : RawNonMembershipWitness :=
  {| rnw_query := query; rnw_root := root; rnw_left := None; rnw_right := None; rnw_path := [];
     rnw_left_below := []; rnw_right_below := []; rnw_above := []; rnw_nmint := None;
     rnw_lca_left_height := None; rnw_lca_right_height := None |}.

Definition one_bound_witness (root query : bytes) (left right : option bytes) (path : list RawPathEntry)
    : RawNonMembershipWitness :=
  {| rnw_query := query; rnw_root := root; rnw_left := left; rnw_right := right; rnw_path := path;
     rnw_left_below := []; rnw_right_below := []; rnw_above := []; rnw_nmint := None;
     rnw_lca_left_height := None; rnw_lca_right_height := None |}.

(** The [match (left, right)] of [parent_nonmem_witness]. *)
Definition bound_witness (parent_leaves : list bytes) (parent_root query : bytes) (lo hi : option bytes)
    : result CityGError RawNonMembershipWitness :=
  match lo, hi with
  | Some l, Some r =>
      left_path ← canonical_membership_path parent_leaves l;
      right_path ← canonical_membership_path parent_leaves r;
      split ← split_interval_paths l left_path r right_path parent_root;
      let '(left_below, right_below, above, lca_left_h, lca_right_h) := split in
      Ok {| rnw_query := query; rnw_root := parent_root; rnw_left := Some l; rnw_right := Some r;
            rnw_path := []; rnw_left_below := left_below; rnw_right_below := right_below;
            rnw_above := above;
            rnw_nmint := Some (hash_interval_binding l l r r lca_left_h lca_right_h);
            rnw_lca_left_height := Some lca_left_h; rnw_lca_right_height := Some lca_right_h |}
  | Some l, None =>
      path ← canonical_membership_path parent_leaves l;
      Ok (one_bound_witness parent_root query (Some l) None path)
  | None, Some r =>
      path ← canonical_membership_path parent_leaves r;
      Ok (one_bound_witness parent_root query None (Some r) path)
  | None, None => Err (InvalidInput "non-empty parent set yielded no interval boundary")
  end.

Definition parent_nonmem_witness (parent_leaves : list bytes) (parent_root query : bytes)
    : result CityGError (RawNonMembershipWitness * option bytes * option bytes) :=
  if bool_decide (parent_leaves = []) then Ok (sentinel_nonmem parent_root query, None, None)
  else
    let pos := partition_point query parent_leaves in
    let lo := if 0 <? pos then vget parent_leaves (pos - 1) else None in
    let hi := if pos <? len parent_leaves then vget parent_leaves pos else None in
    witness ← bound_witness parent_leaves parent_root query lo hi;
    Ok (witness, lo, hi).

(** ** Validation *)

Definition witness_error {A} (e : WitnessValidationError) : result MsphfError A := Err (MsphfWitness e).
Definition reject_if (b : bool) (e : WitnessValidationError) : result MsphfError unit := fail_if b (MsphfWitness e).

Definition to_array32 (b : bytes) : result MsphfError bytes :=
  if len b =? 32 then Ok b else witness_error CborMalformed.

Definition validate_path (path : list RawPathEntry) : result MsphfError (list (Z * bytes)) :=
  reject_if (MAX_MERKLE_DEPTH <? len path) PathOversize ;;
  map_res (fun entry =>
    reject_if (1 <? dir entry) ProjEvalFail ;;
    sib ← to_array32 (sibling entry);
    Ok (dir entry, sib)) path.

Definition validate_membership_against (raw : RawMembershipWitness) (expected_root : bytes)
    : result MsphfError ValidatedMembership :=
  leaf ← to_array32 (rmw_leaf_id raw);
  witness_root ← to_array32 (rmw_root raw);
  reject_if (negb (bytes_eqb witness_root expected_root)) ProjEvalFail ;;
  path ← validate_path (rmw_path raw);
  reject_if (negb (bytes_eqb (apply_path leaf path) expected_root)) ProjEvalFail ;;
  Ok {| vm_leaf_id := leaf; vm_root := expected_root; vm_path := path |}.

Definition fold_step (acc : bytes) (entry : RawPathEntry) : result MsphfError bytes :=
  reject_if (negb (len (sibling entry) =? 32)) CborMalformed ;;
  if dir entry =? 0 then Ok (hash_node acc (sibling entry))
  else if dir entry =? 1 then Ok (hash_node (sibling entry) acc)
  else witness_error CborMalformed.

Definition fold_extended_anchor (acc : bytes) (path : list RawPathEntry) : result MsphfError bytes :=
  fold_res fold_step acc path.

(** The two-bound case of [validate_nonmembership_against]. *)
Definition validate_interval (raw : RawNonMembershipWitness) (expected_root left_bytes right_bytes : bytes)
    : result MsphfError ValidatedNonMembership :=
  reject_if (negb (bool_decide (rnw_path raw = []))) NonCanonical ;;
  lca_left_height ← ok_or (rnw_lca_left_height raw) (MsphfWitness NonCanonical);
  lca_right_height ← ok_or (rnw_lca_right_height raw) (MsphfWitness NonCanonical);
  reject_if (negb (lca_left_height =? len (rnw_left_below raw) + 1)
             || negb (lca_right_height =? len (rnw_right_below raw) + 1)) NonCanonical ;;
  nmint ← ok_or (rnw_nmint raw) (MsphfWitness NonCanonical);
  reject_if (negb (len nmint =? 32)) CborMalformed ;;
  left_anchor ← fold_extended_anchor left_bytes (rnw_left_below raw);
  right_anchor ← fold_extended_anchor right_bytes (rnw_right_below raw);
  acc ← fold_res fold_step (hash_node left_anchor right_anchor) (rnw_above raw);
  reject_if (64 <? len (rnw_left_below raw) + len (rnw_right_below raw) + len (rnw_above raw)) PathOversize ;;
  reject_if (negb (bytes_eqb acc expected_root)) NonCanonical ;;
  reject_if (negb (bytes_eqb nmint
    (hash_interval_binding left_bytes left_bytes right_bytes right_bytes lca_left_height lca_right_height)))
    NonCanonical ;;
  query ← to_array32 (rnw_query raw);
  Ok {| vn_query := query; vn_root := expected_root; vn_left := Some left_bytes; vn_right := Some right_bytes;
        vn_path := [] |}.

Definition validate_nonmembership_against (raw : RawNonMembershipWitness) (expected_root : bytes)
    : result MsphfError ValidatedNonMembership :=
  reject_if (negb (len (rnw_query raw) =? 32)) CborMalformed ;;
  root ← to_array32 (rnw_root raw);
  reject_if (negb (bytes_eqb root expected_root)) ProjEvalFail ;;
  lo ← match rnw_left raw with
    | Some l =>
        reject_if (negb (len l =? 32)) CborMalformed ;;
        reject_if (negb (bytes_ltb l (rnw_query raw))) NonCanonical ;;
        Some <$> to_array32 l
    | None => Ok None
    end;
  hi ← match rnw_right raw with
    | Some r =>
        reject_if (negb (len r =? 32)) CborMalformed ;;
        reject_if (negb (bytes_ltb (rnw_query raw) r)) NonCanonical ;;
        Some <$> to_array32 r
    | None => Ok None
    end;
  match lo, hi with
  | Some l, Some r => reject_if (negb (bytes_ltb l r)) NonCanonical
  | _, _ => Ok tt
  end ;;
  path ← validate_path (rnw_path raw);
  match lo, hi with
  | Some l, Some r => validate_interval raw expected_root l r
  | None, None =>
      reject_if (negb (bool_decide (path = []))) NonCanonical ;;
      reject_if (existsb (fun byte => negb (byte =? 0)) expected_root) NonCanonical ;;
      query ← to_array32 (rnw_query raw);
      Ok {| vn_query := query; vn_root := expected_root; vn_left := lo; vn_right := hi; vn_path := path |}
  | _, _ =>
      let base := match lo, hi with
        | Some l, Some r => hash_interval l r
        | Some l, None => l
        | None, Some r => r
        | None, None => []
        end in
      reject_if (negb (bytes_eqb (apply_path base path) expected_root)) NonCanonical ;;
      query ← to_array32 (rnw_query raw);
      Ok {| vn_query := query; vn_root := expected_root; vn_left := lo; vn_right := hi; vn_path := path |}
  end.

(** ** The acceptor's SRX checks *)

Record AnchoredNonMembership := {
  an_witness : RawNonMembershipWitness;
  an_left_ref : option Z;
  an_right_ref : option Z
}.

(** The error arms of the three validation loops. *)
Definition membership_error (subset : FreezeError) (err : MsphfError) : AcceptanceError :=
  match err with
  | MsphfWitness ProjEvalFail => AFreeze subset
  | MsphfWitness _ => AFreeze FREEZE_HASH_MEM_MALFORMED
  | _ => acceptance_from_msphf err
  end.

Definition nonmembership_error (conflict : FreezeError) (err : MsphfError) : AcceptanceError :=
  match err with
  | MsphfWitness ProjEvalFail => AFreeze conflict
  | _ => acceptance_from_msphf err
  end.

Definition validate_membership_array (witnesses : list RawMembershipWitness) (expected_root : bytes)
    : result AcceptanceError (list ValidatedMembership) :=
  acc ← fold_res (fun (acc : gset bytes * list ValidatedMembership) witness =>
    entry ← map_err (membership_error FREEZE_SRX_SET_CONFLICT_SUBSET)
              (validate_membership_against witness expected_root);
    afreeze_if (bool_decide (vm_leaf_id entry ∈ acc.1)) FREEZE_SRX_INVALID ;;
    Ok ({[vm_leaf_id entry]} ∪ acc.1, acc.2 ++ [entry])) (∅, []) witnesses;
  Ok acc.2.

Definition validate_anchor_reference (anchor_mem_pool : list RawMembershipWitness) (expected_root : bytes)
    (bound : option bytes) (index : option Z) : result AcceptanceError (option ValidatedMembership) :=
  match bound, index with
  | None, None => Ok None
  | None, Some _ => afreeze FREEZE_SRX_ANCHOR_MISSING
  | Some _, None => afreeze FREEZE_SRX_ANCHOR_MISSING
  | Some bound, Some idx =>
      afreeze_if (negb (len bound =? 32)) FREEZE_SRX_ANCHOR_MISMATCH ;;
      witness ← ok_or (vget anchor_mem_pool idx) (AFreeze FREEZE_SRX_ANCHOR_OOB);
      afreeze_if (negb (len (rmw_leaf_id witness) =? 32) || negb (len (rmw_root witness) =? 32))
        FREEZE_HASH_MEM_MALFORMED ;;
      afreeze_if (64 <? len (rmw_path witness)) FREEZE_HASH_PATH_OVERSIZE ;;
      validated ← map_err (membership_error FREEZE_SRX_ANCHOR_MISMATCH)
                    (validate_membership_against witness expected_root);
      afreeze_if (negb (bytes_eqb (vm_root validated) expected_root)
                  || negb (bytes_eqb (vm_leaf_id validated) bound)) FREEZE_SRX_ANCHOR_MISMATCH ;;
      Ok (Some validated)
  end.

(** One side of [verify_anchored_adjacency]: anchor and bound agree. *)
Definition anchor_matches (anchor : option ValidatedMembership) (bound : option bytes) : bool :=
  match anchor, bound with
  | Some a, Some b => bytes_eqb (vm_leaf_id a) b
  | None, None => true
  | _, _ => false
  end.

Definition verify_anchored_adjacency (entry : ValidatedNonMembership)
    (left_anchor right_anchor : option ValidatedMembership) : result AcceptanceError unit :=
  afreeze_if (negb (anchor_matches left_anchor (vn_left entry))) FREEZE_NONMEM_ADJ_INCOHERENT ;;
  afreeze_if (negb (anchor_matches right_anchor (vn_right entry))) FREEZE_NONMEM_ADJ_INCOHERENT ;;
  match left_anchor, right_anchor with
  | Some _, Some _ =>
      match vn_left entry, vn_right entry with
      | Some l, Some r =>
          afreeze_if (negb (bytes_ltb l (vn_query entry) && bytes_ltb (vn_query entry) r))
            FREEZE_NONMEM_ADJ_INCOHERENT
      | _, _ => afreeze FREEZE_NONMEM_ADJ_INCOHERENT
      end
  | None, Some right_mem =>
      afreeze_if (negb (forallb (fun p => p.1 =? 0) (vm_path right_mem))) FREEZE_NONMEM_ADJ_INCOHERENT ;;
      afreeze_if (negb (bool_decide (vn_path entry = vm_path right_mem))) FREEZE_NONMEM_ADJ_INCOHERENT
  | Some left_mem, None =>
      afreeze_if (negb (forallb (fun p => p.1 =? 1) (vm_path left_mem))) FREEZE_NONMEM_ADJ_INCOHERENT ;;
      afreeze_if (negb (bool_decide (vn_path entry = vm_path left_mem))) FREEZE_NONMEM_ADJ_INCOHERENT
  | None, None => Ok tt
  end.

Definition validate_anchored_nonmem_array (witnesses : list AnchoredNonMembership)
    (anchor_mem_pool : list RawMembershipWitness) (expected_root : bytes) (conflict : FreezeError)
    : result AcceptanceError (list ValidatedNonMembership) :=
  acc ← fold_res (fun (acc : gset bytes * list ValidatedNonMembership) anchor =>
    entry ← map_err (nonmembership_error conflict)
              (validate_nonmembership_against (an_witness anchor) expected_root);
    afreeze_if (bool_decide (vn_query entry ∈ acc.1)) FREEZE_SRX_INVALID ;;
    left_anchor ← validate_anchor_reference anchor_mem_pool expected_root
      (rnw_left (an_witness anchor)) (an_left_ref anchor);
    right_anchor ← validate_anchor_reference anchor_mem_pool expected_root
      (rnw_right (an_witness anchor)) (an_right_ref anchor);
    verify_anchored_adjacency entry left_anchor right_anchor ;;
    Ok ({[vn_query entry]} ∪ acc.1, acc.2 ++ [entry])) (∅, []) witnesses;
  Ok acc.2.

(** [prev_key >= (root, leaf)] on pairs of digests. *)
Definition pair_ltb (a b : bytes * bytes) : bool :=
  match bytes_cmp a.1 b.1 with Lt => true | Eq => bytes_ltb a.2 b.2 | Gt => false end.

Definition validate_anchor_pool (pool : list RawMembershipWitness) : result AcceptanceError unit :=
  fold_res (fun prev witness =>
    afreeze_if (negb (len (rmw_leaf_id witness) =? 32) || negb (len (rmw_root witness) =? 32))
      FREEZE_HASH_MEM_MALFORMED ;;
    afreeze_if (64 <? len (rmw_path witness)) FREEZE_HASH_PATH_OVERSIZE ;;
    let key := (rmw_root witness, rmw_leaf_id witness) in
    afreeze_if match prev with Some p => negb (pair_ltb p key) | None => false end
      FREEZE_SRX_ANCHOR_POOL_UNSORTED ;;
    Ok (Some key)) None pool ;;
  Ok tt.

Definition interval_contains (witness : ValidatedNonMembership) (leaf : bytes) : bool :=
  match vn_left witness, vn_right witness with
  | None, None => forallb (fun b => b =? 0) (vn_root witness)
  | lo, hi =>
      negb (match lo with Some l => negb (bytes_ltb l leaf) | None => false end)
      && negb (match hi with Some r => negb (bytes_ltb leaf r) | None => false end)
  end.

Definition ensure_nonmem_coverage (leaves : list bytes) (witnesses : list ValidatedNonMembership)
    : result AcceptanceError unit :=
  fold_res (fun _ leaf =>
    afreeze_if (negb (existsb (fun w => interval_contains w leaf) witnesses)) FREEZE_SRX_INVALID) tt leaves.

Definition ensure_mem_coverage (leaves : list bytes) (witnesses : list ValidatedMembership)
    : result AcceptanceError unit :=
  let covered : gset bytes := list_to_set (vm_leaf_id <$> witnesses) in
  fold_res (fun _ leaf => afreeze_if (negb (bool_decide (leaf ∈ covered))) FREEZE_SRX_SET_CONFLICT_SUBSET) tt leaves.

End Merkle.

(** ** Levels *)

Lemma pairs_ind {A} (P : list A -> Prop) :
  P [] -> (forall a, P [a]) -> (forall a b l, P l -> P (a :: b :: l)) -> forall l, P l.
Proof.
  intros H0 H1 H2 l. enough (P l /\ forall a, P (a :: l)) as [? _] by done.
  induction l as [|x l [IH1 IH2]]; [by split|]. split; [apply IH2|]. intros a. by apply H2.
Qed.

Lemma not_increasing_false l : not_increasing l = false <-> StronglySorted bytes_lt l.
Proof.
  induction l as [|a l IH]; [split; [constructor|done]|]. destruct l as [|b l].
  { split; [intros _; repeat constructor|done]. }
  change (not_increasing (a :: b :: l)) with (negb (bytes_ltb a b) || not_increasing (b :: l)).
  rewrite orb_false_iff, negb_false_iff, IH. unfold bytes_ltb. split.
  - intros [Hab Hs]. assert (bytes_lt a b) as Hlt by (unfold bytes_lt; by destruct (bytes_cmp a b)).
    constructor; [done|]. constructor; [done|]. apply StronglySorted_inv in Hs as [_ Hf].
    eapply Forall_impl; [exact Hf|]. intros c. by apply bytes_lt_trans.
  - intros [Hs Hf]%StronglySorted_inv. split; [|done]. apply Forall_cons in Hf as [Hab _].
    unfold bytes_lt in Hab. by rewrite Hab.
Qed.

Section Levels.
  Context {MH : MerkleHash}.

Lemma length_next_level l : length (next_level l) = ((length l + 1) / 2)%nat.
Proof.
  induction l as [|a|a b l IH] using pairs_ind; [done|done|].
  cbn [next_level length]. rewrite IH. replace (S (S (length l)) + 1)%nat with (1 * 2 + (length l + 1))%nat by lia.
  rewrite Nat.div_add_l by done. lia.
Qed.

Lemma next_level_shrinks l : (1 < length l)%nat -> (0 < length (next_level l) < length l)%nat.
Proof.
  intros H. rewrite length_next_level. pose proof (Nat.div_mod_eq (length l + 1) 2).
  pose proof (Nat.mod_upper_bound (length l + 1) 2). lia.
Qed.

(** The level loop ends with one digest. *)
Lemma root_loop_one fuel l :
  l <> [] -> (length l <= fuel)%nat -> exists r, root_loop fuel l = [r].
Proof.
  revert l; induction fuel as [|fuel IH]; intros l Hne Hl; [destruct l; cbn in Hl; [done|lia]|].
  cbn [root_loop]. destruct (Z.ltb_spec 1 (len l)) as [H|H].
  - pose proof (next_level_shrinks l). unfold len in H.
    apply IH; [|lia]. intros Hn. rewrite Hn in *. cbn in *. lia.
  - destruct l as [|a [|b l]]; [done|by exists a|]. unfold len in H. cbn in H. lia.
Qed.

Lemma canonical_set_root_total l :
  StronglySorted bytes_lt l -> exists r, canonical_set_root l = Ok r.
Proof.
  intros Hs. destruct l as [|a [|b l]]; [by eexists|by eexists|]. unfold canonical_set_root.
  apply not_increasing_false in Hs. rewrite Hs. rstep.
  destruct (root_loop_one (length (a :: b :: l)) (a :: b :: l)) as [r Hr]; [done|done|].
  exists r. by rewrite Hr.
Qed.

(** Two nodes among those of [S] with one digest. *)
Definition node_collision (S : list (bytes * bytes)) : Prop :=
  exists p q, p ∈ S /\ q ∈ S /\ p <> q /\ rpo_node p.1 p.2 = rpo_node q.1 q.2.

Lemma node_collision_mono S T : S ⊆ T -> node_collision S -> node_collision T.
Proof. intros H (p & q & Hp & Hq & Hne & Heq). exists p, q. auto. Qed.

(** The nodes that one iteration, and the whole loop, hash. *)
Fixpoint level_nodes (level : list bytes) : list (bytes * bytes) :=
  match level with
  | a :: b :: tl => (a, b) :: level_nodes tl
  | _ => []
  end.

Fixpoint loop_nodes (fuel : nat) (level : list bytes) : list (bytes * bytes) :=
  match fuel with
  | O => []
  | S fuel' => if 1 <? len level then level_nodes level ++ loop_nodes fuel' (next_level level) else []
  end.

Lemma next_level_inj S l1 l2 :
  level_nodes l1 ⊆ S -> level_nodes l2 ⊆ S ->
  length l1 = length l2 -> next_level l1 = next_level l2 -> l1 = l2 \/ node_collision S.
Proof.
  revert l2; induction l1 as [|a|a b l IH] using pairs_ind; intros l2 H1 H2 Hl Hn.
  - left. by destruct l2.
  - left. by destruct l2 as [|c [|d l2]].
  - destruct l2 as [|c [|d l2]]; [done|done|]. cbn in Hn, H1, H2. injection Hn as Hh Ht.
    destruct (decide ((a, b) = (c, d))) as [[= -> ->]|Hne]; [|right; exists (a, b), (c, d); set_solver].
    destruct (IH l2) as [->|?]; [set_solver|set_solver|cbn in Hl; lia|done|by left|by right].
Qed.

Lemma root_loop_inj S fuel l1 l2 :
  loop_nodes fuel l1 ⊆ S -> loop_nodes fuel l2 ⊆ S ->
  length l1 = length l2 -> root_loop fuel l1 = root_loop fuel l2 -> l1 = l2 \/ node_collision S.
Proof.
  revert l1 l2; induction fuel as [|fuel IH]; intros l1 l2 H1 H2 Hl Hr; cbn in Hr, H1, H2; [by left|].
  unfold len in Hr, H1, H2. rewrite Hl in Hr, H1. destruct (1 <? Z.of_nat (length l2)); [|by left].
  destruct (IH (next_level l1) (next_level l2)) as [Hn|?]; [set_solver|set_solver|by rewrite !length_next_level, Hl|done| |by right].
  apply next_level_inj; [set_solver|set_solver|done|done].
Qed.

(** The nodes hashed for the root of a set. *)
Definition root_nodes (leaves : list bytes) : list (bytes * bytes) := loop_nodes (length leaves) leaves.

(** The position of a digest in the next level, and what it becomes. *)
Definition step_entry (l : list bytes) (i : nat) : list RawPathEntry :=
  if Nat.even i then
    match l !! S i with Some s => [{| sibling := s; dir := 0 |}] | None => [] end
  else match l !! Nat.pred i with Some s => [{| sibling := s; dir := 1 |}] | None => [] end.

Definition path_value (path : list RawPathEntry) : list (Z * bytes) := (fun e => (dir e, sibling e)) <$> path.

Lemma next_level_lookup l i x :
  l !! i = Some x -> next_level l !! (i / 2)%nat = Some (apply_path x (path_value (step_entry l i))).
Proof.
  revert i; induction l as [|a|a b l IH] using pairs_ind; intros i Hi; [done| |].
  - apply list_lookup_singleton_Some in Hi as [-> ->]. done.
  - destruct i as [|[|i]]; cbn in Hi; [by injection Hi as ->|by injection Hi as ->|].
    replace (S (S i) / 2)%nat with (S (i / 2)) by (replace (S (S i)) with (1 * 2 + i)%nat by lia;
      rewrite Nat.div_add_l by done; lia).
    change (next_level l !! (i / 2)%nat = Some (apply_path x (path_value (step_entry (a :: b :: l) (S (S i)))))).
    rewrite (IH i Hi). unfold step_entry. cbn [Nat.even].
    f_equal. f_equal. destruct (Nat.even i) eqn:He; [done|]. destruct i as [|i]; [done|]. done.
Qed.

Lemma step_entry_eq l i x :
  l !! i = Some x ->
  (if Z.of_nat i mod 2 =? 0 then
     if Z.of_nat i + 1 <? len l then [{| sibling := default [] (vget l (Z.of_nat i + 1)); dir := 0 |}] else []
   else [{| sibling := default [] (vget l (Z.of_nat i - 1)); dir := 1 |}]) = step_entry l i.
Proof.
  intros Hi. pose proof (lookup_lt_Some _ _ _ Hi). unfold step_entry.
  destruct (Nat.even i) eqn:He.
  - apply Nat.even_spec in He as [k ->]. replace (Z.of_nat (2 * k) mod 2 =? 0) with true by
      (symmetry; apply Z.eqb_eq; mlia).
    unfold vget, len. destruct (l !! S (2 * k)) eqn:Hs.
    + apply lookup_lt_Some in Hs as Hlt. rewrite (proj2 (Z.ltb_lt _ _)) by lia.
      rewrite (proj2 (Z.leb_le _ _)) by lia. replace (Z.to_nat _) with (S (2 * k)) by lia. by rewrite Hs.
    + apply lookup_ge_None in Hs. by rewrite (proj2 (Z.ltb_ge _ _)) by lia.
  - assert (Nat.odd i = true) as Ho by (unfold Nat.odd; by rewrite He).
    apply Nat.odd_spec in Ho as [k ->]. replace (Z.of_nat (2 * k + 1) mod 2 =? 0) with false by
      (symmetry; apply Z.eqb_neq; mlia).
    unfold vget. rewrite (proj2 (Z.leb_le _ _)) by lia. replace (Z.to_nat _) with (Nat.pred (2 * k + 1)) by lia.
    destruct (l !! Nat.pred (2 * k + 1)) eqn:Hs; [done|]. apply lookup_ge_None in Hs. lia.
Qed.

(** The path of position [i]. *)
Lemma membership_path_step fuel l i x :
  (1 < length l)%nat -> l !! i = Some x ->
  membership_path_loop (S fuel) l (Z.of_nat i)
  = step_entry l i ++ membership_path_loop fuel (next_level l) (Z.of_nat (i / 2)).
Proof.
  intros Hl Hi. cbn [membership_path_loop]. rewrite (proj2 (Z.ltb_lt _ _)) by (unfold len; lia).
  rewrite (step_entry_eq l i x Hi). by rewrite Nat2Z.inj_div.
Qed.

Lemma membership_path_stop fuel l i : (length l <= 1)%nat -> membership_path_loop fuel l i = [].
Proof.
  intros Hl. destruct fuel; [done|]. cbn. by rewrite (proj2 (Z.ltb_ge _ _)) by (unfold len; lia).
Qed.

Lemma apply_path_app x p q : apply_path x (p ++ q) = apply_path (apply_path x p) q.
Proof. apply foldl_app. Qed.

Lemma half_lt l i x : l !! i = Some x -> is_Some (next_level l !! (i / 2)%nat).
Proof. intros H. rewrite (next_level_lookup _ _ _ H). eauto. Qed.

Lemma membership_path_root fuel l i x :
  (length l <= fuel)%nat -> l !! i = Some x ->
  root_loop fuel l = [apply_path x (path_value (membership_path_loop fuel l (Z.of_nat i)))].
Proof.
  revert l i x; induction fuel as [|fuel IH]; intros l i x Hl Hi.
  { apply lookup_lt_Some in Hi. lia. }
  destruct (decide (1 < length l)%nat) as [H1|H1].
  - rewrite (membership_path_step fuel l i x H1 Hi). cbn [root_loop].
    rewrite (proj2 (Z.ltb_lt _ _)) by (unfold len; lia).
    unfold path_value. rewrite fmap_app, apply_path_app.
    apply IH; [pose proof (next_level_shrinks l H1); lia|by apply next_level_lookup].
  - rewrite membership_path_stop by lia. cbn [root_loop]. rewrite (proj2 (Z.ltb_ge _ _)) by (unfold len; lia).
    destruct l as [|a [|b l]]; [done| |cbn in H1; lia].
    by apply list_lookup_singleton_Some in Hi as [-> ->].
Qed.

End Levels.

(** ** Paths *)

Section Paths.
  Context {MH : MerkleHash} {ML : MerkleHashLaws MH}.

Definition digest (b : bytes) : Prop := len b = 32.
Definition entry_ok (e : RawPathEntry) : Prop := (dir e = 0 \/ dir e = 1) /\ digest (sibling e).

Lemma next_level_digests l : Forall digest l -> Forall digest (next_level l).
Proof using ML.
  induction l as [|a|a b l IH] using pairs_ind; cbn; [done|done|].
  intros (_ & [_ H]%Forall_cons)%Forall_cons. constructor; [apply rpo_node_len|by apply IH].
Qed.

Lemma step_entry_ok l i : Forall digest l -> Forall entry_ok (step_entry l i).
Proof.
  intros Hl. unfold step_entry. rewrite Forall_forall in Hl.
  destruct (Nat.even i); [destruct (l !! S i) eqn:H|destruct (l !! Nat.pred i) eqn:H]; constructor; try done;
    (split; [cbn; lia|]); apply Hl; by eapply list_elem_of_lookup_2.
Qed.

Lemma membership_path_entries fuel l i x :
  Forall digest l -> l !! i = Some x -> Forall entry_ok (membership_path_loop fuel l (Z.of_nat i)).
Proof using ML.
  revert l i x; induction fuel as [|fuel IH]; intros l i x Hl Hi; [done|].
  destruct (decide (1 < length l)%nat) as [H1|H1]; [|by rewrite membership_path_stop by lia].
  rewrite (membership_path_step fuel l i x H1 Hi). apply Forall_app. split; [by apply step_entry_ok|].
  destruct (half_lt l i x Hi) as [y Hy]. eapply IH; [by apply next_level_digests|done].
Qed.

(** A set of at most [2^k] leaves has paths of at most [k] entries. *)
Lemma membership_path_length fuel l i x k :
  (length l <= 2 ^ k)%nat -> l !! i = Some x ->
  (length (membership_path_loop fuel l (Z.of_nat i)) <= k)%nat.
Proof.
  revert l i x k; induction fuel as [|fuel IH]; intros l i x k Hl Hi; [cbn; lia|].
  destruct (decide (1 < length l)%nat) as [H1|H1]; [|rewrite membership_path_stop by lia; cbn; lia].
  rewrite (membership_path_step fuel l i x H1 Hi), length_app.
  assert (length (step_entry l i) <= 1)%nat.
  { unfold step_entry. destruct (Nat.even i); [destruct (l !! S i)|destruct (l !! Nat.pred i)]; cbn; lia. }
  destruct k as [|k]; [cbn in Hl; lia|]. destruct (half_lt l i x Hi) as [y Hy].
  enough (length (membership_path_loop fuel (next_level l) (Z.of_nat (i / 2))) <= k)%nat by lia.
  eapply IH; [|done]. rewrite length_next_level. cbn [Nat.pow] in Hl.
  apply Nat.lt_succ_r, Nat.Div0.div_lt_upper_bound. lia.
Qed.

Lemma membership_path_len fuel l i x (k : Z) :
  0 <= k -> len l <= 2 ^ k -> l !! i = Some x -> len (membership_path_loop fuel l (Z.of_nat i)) <= k.
Proof.
  intros Hk Hl Hi. enough (length (membership_path_loop fuel l (Z.of_nat i)) <= Z.to_nat k)%nat by (unfold len; lia).
  eapply membership_path_length; [|done]. apply Nat2Z.inj_le. rewrite Nat2Z.inj_pow, Z2Nat.id by done. exact Hl.
Qed.

Lemma root_loop_digests fuel l : Forall digest l -> Forall digest (root_loop fuel l).
Proof using ML.
  revert l; induction fuel as [|fuel IH]; intros l Hl; cbn; [done|].
  destruct (1 <? len l); [apply IH; by apply next_level_digests|done].
Qed.

Lemma to_array32_ok b : digest b -> to_array32 b = Ok b.
Proof. intros H. unfold to_array32. by rewrite (proj2 (Z.eqb_eq _ _) H). Qed.

Lemma validate_path_ok p : Forall entry_ok p -> len p <= 64 -> validate_path p = Ok (path_value p).
Proof.
  intros Hp Hl. unfold validate_path, reject_if, MAX_MERKLE_DEPTH. rewrite (proj2 (Z.ltb_ge _ _)) by lia. rstep.
  clear Hl. induction Hp as [|e p [Hd Hs] Hp IH]; [done|]. cbn [map_res].
  rewrite (proj2 (Z.ltb_ge _ _)) by lia. rstep. rewrite to_array32_ok by done. rstep.
  rewrite IH. done.
Qed.

(** *** Finding a member *)

Lemma position_of_lookup l i x : NoDup l -> l !! i = Some x -> position_of x l = Some (Z.of_nat i).
Proof.
  revert i; induction l as [|y l IH]; intros i Hnd Hi; [done|]. cbn.
  apply NoDup_cons in Hnd as [Hy Hnd]. destruct i as [|i]; cbn in Hi.
  - injection Hi as ->. by rewrite bytes_eqb_refl.
  - unfold bytes_eqb. rewrite bool_decide_false by (intros ->; apply Hy; by eapply list_elem_of_lookup_2).
    rewrite (IH i Hnd Hi). cbn. f_equal. lia.
Qed.

Lemma sorted_NoDup (l : list bytes) : StronglySorted bytes_lt l -> NoDup l.
Proof.
  induction 1 as [|x l Hs IH Hf]; [constructor|]. constructor; [|done]. intros Hx.
  rewrite Forall_forall in Hf. by apply (irreflexivity bytes_lt x), Hf.
Qed.

Lemma membership_path_eq l i x :
  NoDup l -> l !! i = Some x ->
  canonical_membership_path l x = Ok (membership_path_loop (length l) l (Z.of_nat i)).
Proof.
  intros Hnd Hi. unfold canonical_membership_path. destruct (Z.leb_spec (len l) 1) as [H|H].
  - rewrite membership_path_stop by (unfold len in H; lia). done.
  - by rewrite (position_of_lookup l i x Hnd Hi).
Qed.

Lemma set_root_loop l r : l <> [] -> canonical_set_root l = Ok r -> root_loop (length l) l = [r].
Proof.
  intros Hne Hr. destruct (root_loop_one (length l) l) as [x Hx]; [done|done|]. rewrite Hx.
  destruct l as [|a [|b l]]; [done| |].
  { cbn [root_loop length] in Hx. change (1 <? len [a]) with false in Hx. cbn in Hr. congruence. }
  unfold canonical_set_root in Hr. destruct (not_increasing _); [done|]. rewrite fail_if_false, bind_Ok, Hx in Hr.
  cbn in Hr. congruence.
Qed.

Lemma set_root_digest l r : l <> [] -> Forall digest l -> canonical_set_root l = Ok r -> digest r.
Proof using ML.
  intros Hne Hl Hr. apply set_root_loop in Hr; [|done]. pose proof (root_loop_digests (length l) l Hl) as H.
  rewrite Hr in H. by apply Forall_cons in H as [? _].
Qed.

Lemma member_path_root l i x r :
  NoDup l -> l !! i = Some x -> canonical_set_root l = Ok r ->
  apply_path x (path_value (membership_path_loop (length l) l (Z.of_nat i))) = r.
Proof.
  intros Hnd Hi Hr. apply set_root_loop in Hr; [|by intros ->].
  rewrite (membership_path_root (length l) l i x) in Hr by done. congruence.
Qed.

End Paths.

(** ** Intervals *)

Section Intervals.
  Context {MH : MerkleHash} {ML : MerkleHashLaws MH}.

(** No level of the tree repeats a digest. *)
Fixpoint levels_distinct (fuel : nat) (l : list bytes) : Prop :=
  match fuel with
  | O => True
  | S fuel' => NoDup l /\ ((1 < length l)%nat -> levels_distinct fuel' (next_level l))
  end.

(** The paths of two neighbours meet: below the meeting point the left path
    only climbs right children and the right path only left children, above it
    they are one path. *)
Lemma adjacent_paths fuel l i x y :
  (length l <= fuel)%nat -> levels_distinct fuel l -> l !! i = Some x -> l !! S i = Some y ->
  exists lb rb above,
    let a := apply_path x (path_value lb) in
    let b := apply_path y (path_value rb) in
    membership_path_loop fuel l (Z.of_nat i) = lb ++ {| sibling := b; dir := 0 |} :: above /\
    membership_path_loop fuel l (Z.of_nat (S i)) = rb ++ {| sibling := a; dir := 1 |} :: above /\
    a <> b /\ Forall (fun e => dir e = 1) lb /\ Forall (fun e => dir e = 0) rb.
Proof.
  revert l i x y; induction fuel as [|fuel IH]; intros l i x y Hl Hd Hi Hj.
  { apply lookup_lt_Some in Hi. lia. }
  pose proof (lookup_lt_Some _ _ _ Hj) as Hlt. assert (1 < length l)%nat as H1 by lia.
  destruct Hd as [Hnd Hd]. specialize (Hd H1). pose proof (next_level_shrinks l H1).
  rewrite (membership_path_step fuel l i x H1 Hi), (membership_path_step fuel l (S i) y H1 Hj).
  destruct (Nat.even i) eqn:He.
  - exists [], [], (membership_path_loop fuel (next_level l) (Z.of_nat (i / 2))).
    unfold step_entry. rewrite He, Nat.even_succ. unfold Nat.odd. rewrite He. cbn [negb Nat.pred].
    rewrite Hi, Hj. apply Nat.even_spec in He as [k ->].
    replace (S (2 * k) / 2)%nat with (2 * k / 2)%nat.
    2:{ replace (S (2 * k)) with (1 + k * 2)%nat by lia. rewrite Nat.div_add by done.
        rewrite (Nat.mul_comm 2 k), Nat.div_mul by done. done. }
    cbn. split_and!; try done. intros ->. assert (2 * k = S (2 * k))%nat; [|lia].
    by eapply (NoDup_lookup l).
  - assert (Nat.even (S i) = true) as He' by (rewrite Nat.even_succ; unfold Nat.odd; by rewrite He).
    assert (S i / 2 = S (i / 2))%nat as Hhalf.
    { assert (Nat.odd i = true) as [k ->]%Nat.odd_spec by (unfold Nat.odd; by rewrite He).
      replace (S (2 * k + 1)) with (0 + (k + 1) * 2)%nat by lia.
      replace (2 * k + 1)%nat with (1 + k * 2)%nat by lia. rewrite !Nat.div_add by done. cbn. lia. }
    pose proof (next_level_lookup l i x Hi) as Hi'. pose proof (next_level_lookup l (S i) y Hj) as Hj'.
    rewrite Hhalf in *.
    destruct (IH (next_level l) (i / 2)%nat _ _ ltac:(lia) Hd Hi' Hj') as (lb & rb & above & -> & -> & Hne & Hlb & Hrb).
    exists (step_entry l i ++ lb), (step_entry l (S i) ++ rb), above. cbn zeta.
    unfold path_value in *. rewrite !fmap_app, !apply_path_app, <- !(assoc_L (++)). split_and!; try done.
    + apply Forall_app. split; [|done]. unfold step_entry. rewrite He. destruct (l !! Nat.pred i); by repeat constructor.
    + apply Forall_app. split; [|done]. unfold step_entry. rewrite He'. destruct (l !! S (S i)); by repeat constructor.
Qed.

(** The chain of digests along a path. *)
Fixpoint chain (x : bytes) (p : list RawPathEntry) : list bytes :=
  x :: match p with [] => [] | e :: tl => chain (apply_path x (path_value [e])) tl end.

Lemma build_chain_ok x p : Forall entry_ok p -> build_chain x p = Ok (chain x p).
Proof.
  intros Hp. revert x. induction Hp as [|e p [Hd Hs] Hp IH]; intros x; [done|]. cbn [build_chain chain].
  unfold fold_step_into, digest in *. rewrite (proj2 (Z.eqb_eq _ _) Hs). cbn [negb]. rstep.
  cbn [path_value fmap list_fmap apply_path foldl].
  destruct Hd as [-> | ->]; cbn; rewrite IH; done.
Qed.

Lemma chain_app x p q : exists l, length l = length p /\ chain x (p ++ q) = l ++ chain (apply_path x (path_value p)) q.
Proof.
  revert x; induction p as [|e p IH]; intros x; [by exists []|]. cbn [app chain].
  destruct (IH (apply_path x (path_value [e]))) as (l & Hl & ->). exists (x :: l). cbn. by rewrite Hl.
Qed.

Lemma last_chain x p : last (chain x p) = Some (apply_path x (path_value p)).
Proof.
  destruct (chain_app x p []) as (l & _ & H). rewrite app_nil_r in H. rewrite H. cbn [chain]. apply last_snoc.
Qed.

Lemma length_chain x p : length (chain x p) = S (length p).
Proof. revert x; induction p as [|e p IH]; intros x; [done|]. cbn [chain length]. by rewrite IH. Qed.

Lemma common_prefix_app p a b l r : a <> b -> common_prefix (p ++ a :: l) (p ++ b :: r) = length p.
Proof.
  intros Hab. induction p as [|x p IH]; cbn.
  - unfold bytes_eqb. by rewrite bool_decide_false.
  - rewrite bytes_eqb_refl. by rewrite IH.
Qed.

Lemma split_interval_ok x y lb rb above (root : bytes) :
  let a := apply_path x (path_value lb) in
  let b := apply_path y (path_value rb) in
  Forall entry_ok (lb ++ {| sibling := b; dir := 0 |} :: above) ->
  Forall entry_ok (rb ++ {| sibling := a; dir := 1 |} :: above) -> a <> b ->
  apply_path (hash_node a b) (path_value above) = root -> len lb <= 64 -> len rb <= 64 ->
  split_interval_paths x (lb ++ {| sibling := b; dir := 0 |} :: above) y (rb ++ {| sibling := a; dir := 1 |} :: above) root
  = Ok (lb, rb, above, len lb + 1, len rb + 1).
Proof.
  intros a b Hl Hr Hab Hroot Hlb Hrb. unfold split_interval_paths.
  rewrite (build_chain_ok x) by done. rstep. rewrite (build_chain_ok y) by done. rstep.
  rewrite !last_chain. rstep. unfold path_value at 1 2. rewrite !fmap_app, !apply_path_app.
  change (apply_path x ((fun e => (dir e, sibling e)) <$> lb)) with a.
  change (apply_path y ((fun e => (dir e, sibling e)) <$> rb)) with b.
  change (apply_path a _) with (apply_path (hash_node a b) (path_value above)) at 1.
  change (apply_path b _) with (apply_path (hash_node a b) (path_value above)) at 1.
  rewrite Hroot, bytes_eqb_refl. cbn [negb orb]. rstep.
  destruct (chain_app x lb ({| sibling := b; dir := 0 |} :: above)) as (l1 & _ & ->).
  destruct (chain_app y rb ({| sibling := a; dir := 1 |} :: above)) as (l2 & _ & ->).
  change (chain (apply_path x (path_value lb)) ({| sibling := b; dir := 0 |} :: above))
    with ([a] ++ chain (hash_node a b) above).
  change (chain (apply_path y (path_value rb)) ({| sibling := a; dir := 1 |} :: above))
    with ([b] ++ chain (hash_node a b) above).
  rewrite !(assoc_L (++)), !reverse_app, !reverse_singleton. cbn [app].
  rewrite common_prefix_app by done. rewrite length_reverse, length_chain. cbn [Nat.eqb]. rstep.
  rewrite !length_app. cbn [length].
  rewrite (proj2 (Nat.ltb_ge (length lb + S (length above)) (S (length above)))) by lia.
  rewrite (proj2 (Nat.ltb_ge (length rb + S (length above)) (S (length above)))) by lia. cbn [orb]. rstep.
  replace (length lb + S (length above) - S (length above))%nat with (length lb) by lia.
  replace (length rb + S (length above) - S (length above))%nat with (length rb) by lia.
  rewrite !take_app_length. replace (S (length above) - 1)%nat with (length above) by lia.
  replace (length lb + S (length above) - length above)%nat with (length lb + 1)%nat by lia.
  replace (length rb + S (length above) - length above)%nat with (length rb + 1)%nat by lia.
  rewrite <- !drop_drop, !drop_app_length. cbn [drop]. rewrite !drop_0.
  assert (existsb (fun entry => 1 <? dir entry) above = false) as Hex.
  { apply Forall_app in Hl as [_ [_ Ha]%Forall_cons]. clear -Ha. induction Ha as [|e p [Hd _] _ IH]; [done|].
    cbn. rewrite (proj2 (Z.ltb_ge _ _)) by lia. done. }
  assert ((if Nat.ltb 0 (length above) then
      fail_if (negb (bool_decide (above = above))) (InvalidInput "shared suffix mismatch") ;;
      fail_if (existsb (fun entry => 1 <? dir entry) above) (InvalidInput "shared suffix malformed") ;;
      Ok above else Ok []) = Ok above) as ->.
  { destruct above; [done|]. cbn [Nat.ltb Nat.leb length]. rewrite bool_decide_true by done. rewrite Hex. done. }
  rstep. rewrite !(proj2 (Z.ltb_ge _ _)) by lia. done.
Qed.

End Intervals.

(** ** The position of a query *)

Section Query.
  Context {MH : MerkleHash} {ML : MerkleHashLaws MH}.

Lemma bytes_ltb_lt a b : bytes_ltb a b = true <-> bytes_lt a b.
Proof. unfold bytes_ltb, bytes_lt. destruct (bytes_cmp a b); naive_solver. Qed.

Lemma bytes_lt_total a b : a <> b -> bytes_ltb a b = false -> bytes_lt b a.
Proof.
  unfold bytes_ltb, bytes_lt. intros Hne. rewrite (bytes_cmp_antisym a b).
  destruct (bytes_cmp a b) eqn:H; [|done|done]. by apply bytes_cmp_eq in H.
Qed.

(** [partition_point] splits a sorted set at an absent query. *)
Lemma partition_point_spec l q :
  StronglySorted bytes_lt l -> q ∉ l ->
  exists l1 l2, l = l1 ++ l2 /\ partition_point q l = Z.of_nat (length l1) /\
    Forall (fun x => bytes_lt x q) l1 /\ Forall (fun x => bytes_lt q x) l2.
Proof.
  induction l as [|x l IH]; intros Hs Hq; [by exists [], []|]. cbn.
  apply StronglySorted_inv in Hs as [Hs Hf]. apply not_elem_of_cons in Hq as [Hqx Hq].
  destruct (bytes_ltb x q) eqn:Hx.
  - destruct (IH Hs Hq) as (l1 & l2 & -> & -> & H1 & H2). exists (x :: l1), l2. split_and!; [done|cbn; lia| |done].
    constructor; [by apply bytes_ltb_lt|done].
  - apply bytes_lt_total in Hx; [|done]. exists [], (x :: l). split_and!; [done|done|constructor|].
    constructor; [done|]. eapply Forall_impl; [exact Hf|]. intros y. by apply bytes_lt_trans.
Qed.

(** The bounds of the query. *)
Lemma query_bounds l q :
  StronglySorted bytes_lt l -> q ∉ l -> l <> [] ->
  let pos := partition_point q l in
  let lo := if 0 <? pos then vget l (pos - 1) else None in
  let hi := if pos <? len l then vget l pos else None in
  exists i, match lo, hi with
    | Some x, Some y => l !! i = Some x /\ l !! S i = Some y /\ bytes_lt x q /\ bytes_lt q y
    | Some x, None => l !! i = Some x /\ S i = length l /\ bytes_lt x q
    | None, Some y => l !! i = Some y /\ i = O /\ bytes_lt q y
    | None, None => False
    end.
Proof.
  intros Hs Hq Hne. destruct (partition_point_spec l q Hs Hq) as (l1 & l2 & Hl & Hp & H1 & H2).
  cbn zeta. rewrite Hp. unfold vget, len. rewrite Forall_forall in H1, H2.
  destruct (Z.ltb_spec 0 (Z.of_nat (length l1))); destruct (Z.ltb_spec (Z.of_nat (length l1)) (Z.of_nat (length l))).
  - rewrite !(proj2 (Z.leb_le _ _)) by lia. exists (length l1 - 1)%nat.
    replace (Z.to_nat (Z.of_nat (length l1) - 1)) with (length l1 - 1)%nat by lia. rewrite Nat2Z.id.
    destruct (lookup_lt_is_Some_2 l (length l1 - 1)) as [x Hx]; [lia|].
    destruct (lookup_lt_is_Some_2 l (length l1)) as [y Hy]; [lia|]. rewrite Hx, Hy.
    replace (S (length l1 - 1)) with (length l1) by lia. split_and!; try done.
    + apply H1. rewrite Hl, lookup_app_l in Hx by lia. by eapply list_elem_of_lookup_2.
    + apply H2. rewrite Hl, lookup_app_r in Hy by lia. by eapply list_elem_of_lookup_2.
  - rewrite (proj2 (Z.leb_le _ _)) by lia. exists (length l1 - 1)%nat.
    replace (Z.to_nat (Z.of_nat (length l1) - 1)) with (length l1 - 1)%nat by lia.
    destruct (lookup_lt_is_Some_2 l (length l1 - 1)) as [x Hx]; [rewrite Hl, length_app; lia|]. rewrite Hx.
    rewrite Hl, length_app in *. split_and!; [done|lia|].
    apply H1. rewrite lookup_app_l in Hx by lia. by eapply list_elem_of_lookup_2.
  - destruct l1; [|cbn in *; lia]. cbn. exists O. destruct l as [|x l]; [done|]. cbn. split_and!; try done.
    apply H2. cbn in Hl. rewrite <- Hl. constructor.
  - subst l. destruct l1; [|cbn in *; lia]. destruct l2; [done|]. cbn in *. lia.
Qed.

End Query.

(** ** Order of a sorted set *)

Lemma sorted_lookup (l : list bytes) i j x y :
  StronglySorted bytes_lt l -> l !! i = Some x -> l !! j = Some y -> (i < j)%nat -> bytes_lt x y.
Proof.
  intros Hs. revert i j. induction Hs as [|z l Hs IH Hf]; intros i j Hi Hj Hij; [done|].
  destruct j as [|j]; [lia|]. cbn in Hj. destruct i as [|i]; cbn in Hi; [|apply (IH i j); [done|done|lia]].
  injection Hi as ->. rewrite Forall_forall in Hf. apply Hf. by eapply list_elem_of_lookup_2.
Qed.

Lemma bytes_ltb_ge a b : a = b \/ bytes_lt b a -> bytes_ltb a b = false.
Proof.
  intros H. apply not_true_is_false. rewrite bytes_ltb_lt. intros Hab.
  destruct H as [->|H]; [by apply (irreflexivity bytes_lt b)|]. apply (irreflexivity bytes_lt a). by etrans.
Qed.

Lemma sorted_outside (l : list bytes) i j x y :
  StronglySorted bytes_lt l -> l !! i = Some x -> l !! j = Some y ->
  (i <= j -> bytes_ltb y x = false)%nat /\ (j <= i -> bytes_ltb x y = false)%nat.
Proof.
  intros Hs Hi Hj. split; intros Hij; apply bytes_ltb_ge.
  - destruct (decide (i = j)) as [->|]; [left; congruence|right; apply (sorted_lookup l i j); [done..|lia]].
  - destruct (decide (i = j)) as [->|]; [left; congruence|right; apply (sorted_lookup l j i); [done..|lia]].
Qed.

(** ** Validation succeeds *)

Section Validates.
  Context {MH : MerkleHash} {ML : MerkleHashLaws MH}.

Lemma member_validates leaf root path :
  digest leaf -> digest root -> Forall entry_ok path -> len path <= 64 ->
  apply_path leaf (path_value path) = root ->
  validate_membership_against {| rmw_leaf_id := leaf; rmw_root := root; rmw_path := path |} root
  = Ok {| vm_leaf_id := leaf; vm_root := root; vm_path := path_value path |}.
Proof.
  intros Hl Hr Hp Hlen Ha. unfold validate_membership_against, reject_if. cbn [rmw_leaf_id rmw_root rmw_path].
  rewrite !to_array32_ok by done. rstep.
  rewrite bytes_eqb_refl. cbn [negb]. rstep. rewrite validate_path_ok by done. rstep.
  by rewrite Ha, bytes_eqb_refl.
Qed.

Lemma fold_steps_ok x p : Forall entry_ok p -> fold_res fold_step x p = Ok (apply_path x (path_value p)).
Proof.
  intros Hp. revert x. induction Hp as [|e p [Hd Hs] Hp IH]; intros x; [done|]. cbn [fold_res].
  assert (fold_step x e = Ok (apply_path x (path_value [e]))) as ->; [|rstep; apply IH].
  unfold fold_step, reject_if, digest in *. rewrite (proj2 (Z.eqb_eq _ _) Hs). cbn [negb]. rstep.
  cbn. by destruct Hd as [-> | ->].
Qed.

(** A bound on one side only. *)
Lemma one_bound_validates root query lo hi x path :
  (lo = Some x /\ hi = None /\ bytes_lt x query) \/ (lo = None /\ hi = Some x /\ bytes_lt query x) ->
  digest query -> digest root -> digest x -> Forall entry_ok path -> len path <= 64 ->
  apply_path x (path_value path) = root ->
  validate_nonmembership_against (one_bound_witness root query lo hi path) root
  = Ok {| vn_query := query; vn_root := root; vn_left := lo; vn_right := hi; vn_path := path_value path |}.
Proof.
  intros Hb Hq Hr Hx Hp Hlen Ha. unfold validate_nonmembership_against, reject_if.
  cbn [rnw_query rnw_root rnw_left rnw_right rnw_path one_bound_witness].
  rewrite (proj2 (Z.eqb_eq _ _) Hq). cbn [negb]. rstep. rewrite (to_array32_ok root), (to_array32_ok query) by done. rstep.
  rewrite bytes_eqb_refl. cbn [negb]. rstep.
  destruct Hb as [(-> & -> & Hb)|(-> & -> & Hb)]; apply bytes_ltb_lt in Hb;
    rewrite (proj2 (Z.eqb_eq _ _) Hx); cbn [negb]; rstep; rewrite Hb; cbn [negb]; rstep;
    rewrite (to_array32_ok x) by done; cbn [fmap result_fmap]; rstep; rewrite validate_path_ok by done; rstep;
    rewrite Ha, bytes_eqb_refl; cbn [negb]; by rstep.
Qed.

(** The root, taken as a leaf with an empty path, is a valid anchor. *)
Lemma root_as_anchor root :
  digest root ->
  validate_anchor_reference [{| rmw_leaf_id := root; rmw_root := root; rmw_path := [] |}] root (Some root) (Some 0)
  = Ok (Some {| vm_leaf_id := root; vm_root := root; vm_path := [] |}).
Proof.
  intros Hr. unfold validate_anchor_reference, afreeze_if. rewrite (proj2 (Z.eqb_eq _ _) Hr). cbn [negb]. rstep.
  change (vget [{| rmw_leaf_id := root; rmw_root := root; rmw_path := [] |}] 0)
    with (Some {| rmw_leaf_id := root; rmw_root := root; rmw_path := [] |}). rstep.
  cbn [rmw_leaf_id rmw_root rmw_path]. rewrite (proj2 (Z.eqb_eq _ _) Hr). cbn [negb orb]. rstep.
  change (64 <? len (@nil RawPathEntry)) with false. rstep. rewrite member_validates by done. cbn [map_err]. rstep.
  cbn [vm_root vm_leaf_id]. by rewrite !bytes_eqb_refl.
Qed.

(** Two neighbouring bounds. *)
Lemma interval_validates root query x y lb rb above :
  let a := apply_path x (path_value lb) in
  let b := apply_path y (path_value rb) in
  digest query -> digest root -> digest x -> digest y -> bytes_lt x query -> bytes_lt query y ->
  Forall entry_ok lb -> Forall entry_ok rb -> Forall entry_ok above ->
  len lb + len rb + len above <= 64 ->
  apply_path (hash_node a b) (path_value above) = root ->
  validate_nonmembership_against
    {| rnw_query := query; rnw_root := root; rnw_left := Some x; rnw_right := Some y; rnw_path := [];
       rnw_left_below := lb; rnw_right_below := rb; rnw_above := above;
       rnw_nmint := Some (hash_interval_binding x x y y (len lb + 1) (len rb + 1));
       rnw_lca_left_height := Some (len lb + 1); rnw_lca_right_height := Some (len rb + 1) |} root
  = Ok {| vn_query := query; vn_root := root; vn_left := Some x; vn_right := Some y; vn_path := [] |}.
Proof using ML.
  intros a b Hq Hr Hx Hy Hxq Hqy Hlb Hrb Hab Hlen Ha. pose proof (bytes_lt_trans _ _ _ Hxq Hqy) as Hxy.
  apply bytes_ltb_lt in Hxq, Hqy, Hxy. unfold validate_nonmembership_against, reject_if.
  cbn [rnw_query rnw_root rnw_left rnw_right rnw_path].
  rewrite (proj2 (Z.eqb_eq _ _) Hq). cbn [negb]. rstep. rewrite (to_array32_ok root), (to_array32_ok query) by done. rstep.
  rewrite bytes_eqb_refl. cbn [negb]. rstep.
  rewrite (proj2 (Z.eqb_eq _ _) Hx), Hxq. cbn [negb]. rstep. rewrite (to_array32_ok x) by done. cbn [fmap result_fmap].
  rstep. rewrite (proj2 (Z.eqb_eq _ _) Hy), Hqy. cbn [negb]. rstep. rewrite (to_array32_ok y) by done.
  cbn [fmap result_fmap]. rstep. rewrite Hxy. cbn [negb]. rstep. rewrite validate_path_ok; [|done|done]. rstep.
  unfold validate_interval, reject_if. cbn [rnw_query rnw_path rnw_lca_left_height rnw_lca_right_height rnw_left_below
    rnw_right_below rnw_above rnw_nmint]. rewrite bool_decide_true by done. cbn [negb]. rstep.
  rewrite !Z.eqb_refl. cbn [negb orb]. rstep.
  assert (len (hash_interval_binding x x y y (len lb + 1) (len rb + 1)) =? 32 = true) as ->
    by (apply Z.eqb_eq, rpo_tag_len). cbn [negb]. rstep.
  unfold fold_extended_anchor. rewrite fold_steps_ok by done. rstep. rewrite fold_steps_ok by done. rstep.
  rewrite fold_steps_ok by done. rstep. rewrite (proj2 (Z.ltb_ge _ _)) by lia. rstep.
  subst a b. rewrite Ha, !bytes_eqb_refl. cbn [negb]. rstep. by rewrite (to_array32_ok query) by done.
Qed.

End Validates.

(** ** Honest witnesses *)

Section Honest.
  Context {MH : MerkleHash} {ML : MerkleHashLaws MH}.
  Context (leaves : list bytes) (root query : bytes).
  Context (Hs : StronglySorted bytes_lt leaves) (Hd : Forall digest leaves) (Hn : len leaves <= 2 ^ 32).
  Context (Hdist : levels_distinct (length leaves) leaves) (Hq : digest query).
  Context (Hr : canonical_set_root leaves = Ok root).

Definition accepted (w : RawNonMembershipWitness) (v : ValidatedNonMembership) (lo hi : option bytes) : Prop :=
  validate_nonmembership_against w root = Ok v /\
  vn_query v = query /\ vn_left v = lo /\ vn_right v = hi /\
  interval_contains v query = true /\ (forall leaf, leaf ∈ leaves -> interval_contains v leaf = false).

Lemma leaf_digest i x : leaves !! i = Some x -> digest x.
Proof using Hd. intros Hi. rewrite Forall_forall in Hd. apply Hd. by eapply list_elem_of_lookup_2. Qed.

#[local] Abbreviation path_to i := (membership_path_loop (length leaves) leaves (Z.of_nat i)).

Lemma path_facts i x :
  leaves !! i = Some x ->
  canonical_membership_path leaves x = Ok (path_to i) /\ Forall entry_ok (path_to i) /\
  len (path_to i) <= 32 /\ apply_path x (path_value (path_to i)) = root /\ digest root.
Proof using ML Hs Hd Hn Hr.
  intros Hi. pose proof (sorted_NoDup leaves Hs) as Hnd. split_and!.
  - by apply membership_path_eq.
  - by eapply membership_path_entries.
  - eapply membership_path_len; [lia|exact Hn|exact Hi].
  - by apply member_path_root.
  - eapply (set_root_digest leaves); [by intros Hl; rewrite Hl in Hi|done|done].
Qed.

Lemma lower_bound_ok i x :
  leaves !! i = Some x -> S i = length leaves -> bytes_lt x query ->
  exists w v, bound_witness leaves root query (Some x) None = Ok w /\ accepted w v (Some x) None.
Proof using ML Hs Hd Hn Hq Hr.
  intros Hi Hlast Hx. destruct (path_facts i x Hi) as (Hp & He & Hl & Ha & Hroot).
  eexists _, _. split; [cbn; by rewrite Hp|]. split; [apply (one_bound_validates _ _ _ _ x); try done|].
  { left. by split_and!. } { by eapply leaf_digest. } { lia. }
  split_and!; try done.
  - cbn. by rewrite (proj2 (bytes_ltb_lt _ _) Hx).
  - intros leaf [j Hj]%list_elem_of_lookup_1. pose proof (lookup_lt_Some _ _ _ Hj).
    destruct (sorted_outside leaves i j x leaf Hs Hi Hj) as [_ H2]. cbn. by rewrite H2 by lia.
Qed.

Lemma upper_bound_ok y :
  leaves !! O = Some y -> bytes_lt query y ->
  exists w v, bound_witness leaves root query None (Some y) = Ok w /\ accepted w v None (Some y).
Proof using ML Hs Hd Hn Hq Hr.
  intros Hi Hy. destruct (path_facts O y Hi) as (Hp & He & Hl & Ha & Hroot).
  eexists _, _. split; [cbn; by rewrite Hp|]. split; [apply (one_bound_validates _ _ _ _ y); try done|].
  { right. by split_and!. } { by eapply leaf_digest. } { lia. }
  split_and!; try done.
  - cbn. by rewrite (proj2 (bytes_ltb_lt _ _) Hy).
  - intros leaf [j Hj]%list_elem_of_lookup_1.
    destruct (sorted_outside leaves O j y leaf Hs Hi Hj) as [H1 _]. cbn. by rewrite H1 by lia.
Qed.

Lemma both_bounds_ok i x y :
  leaves !! i = Some x -> leaves !! S i = Some y -> bytes_lt x query -> bytes_lt query y ->
  exists w v, bound_witness leaves root query (Some x) (Some y) = Ok w /\ accepted w v (Some x) (Some y).
Proof using ML Hs Hd Hn Hdist Hq Hr.
  intros Hi Hj Hx Hy. destruct (path_facts i x Hi) as (Hp & He & Hl & Ha & Hroot).
  destruct (path_facts (S i) y Hj) as (Hp' & He' & Hl' & Ha' & _).
  destruct (adjacent_paths (length leaves) leaves i x y) as (lb & rb & above & E1 & E2 & Hne & _ & _); try done.
  rewrite E1 in *. rewrite E2 in *. pose proof He as Hsplit. rewrite Forall_app, Forall_cons in Hsplit.
  destruct Hsplit as (Hlb & _ & Hab). pose proof He' as Hsplit. rewrite Forall_app in Hsplit. destruct Hsplit as [Hrb _].
  unfold path_value in Ha. rewrite fmap_app, apply_path_app in Ha. cbn in Ha.
  rewrite !len_app in Hl, Hl'. unfold len in Hl, Hl'. cbn [length] in Hl, Hl'.
  eexists _, _. split.
  { cbn [bound_witness]. rewrite Hp. rstep. rewrite Hp'. rstep. rewrite split_interval_ok; try done; [unfold len; lia..]. }
  split; [apply interval_validates; try done|]; try (by eapply leaf_digest).
  { unfold len. lia. }
  split_and!; try done.
  - cbn. by rewrite (proj2 (bytes_ltb_lt _ _) Hx), (proj2 (bytes_ltb_lt _ _) Hy).
  - intros leaf [j Hlj]%list_elem_of_lookup_1. destruct (sorted_outside leaves i j x leaf Hs Hi Hlj) as [_ H2].
    destruct (sorted_outside leaves (S i) j y leaf Hs Hj Hlj) as [H1 _]. cbn.
    destruct (decide (j <= i)%nat); [by rewrite H2 by lia|rewrite H1 by lia; apply andb_false_r].
Qed.

Lemma bound_witness_ok lo hi i :
  match lo, hi with
  | Some x, Some y => leaves !! i = Some x /\ leaves !! S i = Some y /\ bytes_lt x query /\ bytes_lt query y
  | Some x, None => leaves !! i = Some x /\ S i = length leaves /\ bytes_lt x query
  | None, Some y => leaves !! i = Some y /\ i = O /\ bytes_lt query y
  | None, None => False
  end ->
  exists w v, bound_witness leaves root query lo hi = Ok w /\ accepted w v lo hi.
Proof using ML Hs Hd Hn Hdist Hq Hr.
  destruct lo as [x|], hi as [y|]; [|intros (? & ? & ?)|intros (? & -> & ?)|done].
  - intros (? & ? & ? & ?). by eapply both_bounds_ok.
  - by eapply lower_bound_ok.
  - by apply upper_bound_ok.
Qed.

End Honest.

(** ** Properties *)

Section Properties.
  Context {MH : MerkleHash} {ML : MerkleHashLaws MH}.

(** Two sets of the same size with the same root. *)
Lemma set_root_inj (l1 l2 : list bytes) r :
  length l1 = length l2 -> canonical_set_root l1 = Ok r -> canonical_set_root l2 = Ok r ->
  l1 = l2 \/ node_collision (root_nodes l1 ++ root_nodes l2).
Proof using.
  intros Hl Hr1 Hr2. destruct (decide (l1 = [])) as [->|Hne]; [left; by destruct l2|].
  apply set_root_loop in Hr1; [|done]. apply set_root_loop in Hr2; [|by intros ->; destruct l1].
  apply (root_loop_inj _ (length l1)); [intros x Hx; apply elem_of_app; by left|
    rewrite Hl; intros x Hx; apply elem_of_app; by right|done|]. rewrite Hl at 2. congruence.
Qed.

(** The canonical set root exists for every strictly increasing set and
    binds it: two strictly increasing sets of one size with the same root are
    the same set, or two of the nodes hashed for them collide. *)
Theorem canonical_set_root_binding (l1 l2 : list bytes) :
  StronglySorted bytes_lt l1 -> StronglySorted bytes_lt l2 -> length l1 = length l2 ->
  exists r1 r2, canonical_set_root l1 = Ok r1 /\ canonical_set_root l2 = Ok r2 /\
    (r1 = r2 -> l1 = l2 \/ node_collision (root_nodes l1 ++ root_nodes l2)).
Proof using.
  intros H1 H2 Hl. destruct (canonical_set_root_total l1 H1) as [r1 Hr1].
  destruct (canonical_set_root_total l2 H2) as [r2 Hr2]. exists r1, r2. split_and!; [done|done|]. intros ->.
  by apply (set_root_inj l1 l2 r2).
Qed.

(** The path built for a member of a strictly increasing set of digests
    validates against the set's root: witness construction and validation
    agree for every member of a set of at most 2^64 leaves. *)
Theorem membership_witness_validates (leaves : list bytes) (leaf root : bytes) :
  StronglySorted bytes_lt leaves -> Forall digest leaves -> len leaves <= 2 ^ 64 ->
  leaf ∈ leaves -> canonical_set_root leaves = Ok root ->
  exists path, canonical_membership_path leaves leaf = Ok path /\
    validate_membership_against {| rmw_leaf_id := leaf; rmw_root := root; rmw_path := path |} root
    = Ok {| vm_leaf_id := leaf; vm_root := root; vm_path := path_value path |}.
Proof using ML.
  intros Hs Hd Hn Hleaf Hr. pose proof (sorted_NoDup leaves Hs) as Hnd.
  apply list_elem_of_lookup_1 in Hleaf as [i Hi].
  exists (membership_path_loop (length leaves) leaves (Z.of_nat i)).
  split; [by apply membership_path_eq|]. apply member_validates.
  - rewrite Forall_forall in Hd. apply Hd. by eapply list_elem_of_lookup_2.
  - eapply (set_root_digest leaves); [by intros ->|done|done].
  - by eapply membership_path_entries.
  - eapply membership_path_len; [lia|exact Hn|exact Hi].
  - by apply member_path_root.
Qed.

(** A client can show that a query is absent: for every 32-byte query
    outside a strictly increasing set of at most 2^32 digests, with no digest
    repeated on a level, the witness is built and validated, its bounds are
    neighbours of the query in the set, and no member of the set lies between
    them. *)
Theorem nonmembership_witness_validates (leaves : list bytes) (query root : bytes) :
  StronglySorted bytes_lt leaves -> Forall digest leaves -> len leaves <= 2 ^ 32 ->
  levels_distinct (length leaves) leaves -> digest query -> query ∉ leaves ->
  canonical_set_root leaves = Ok root ->
  exists w v lo hi, parent_nonmem_witness leaves root query = Ok (w, lo, hi) /\
    validate_nonmembership_against w root = Ok v /\
    vn_query v = query /\ vn_left v = lo /\ vn_right v = hi /\
    interval_contains v query = true /\
    (forall leaf, leaf ∈ leaves -> interval_contains v leaf = false).
Proof using ML.
  intros Hs Hd Hn Hdist Hq Hnin Hr.
  destruct (decide (leaves = [])) as [->|Hne].
  { cbn in Hr. injection Hr as <-. eexists _, _, _, _. split; [reflexivity|]. unfold validate_nonmembership_against.
    cbn [rnw_query sentinel_nonmem rnw_root rnw_left rnw_right rnw_path]. unfold reject_if.
    rewrite (proj2 (Z.eqb_eq _ _) Hq), (to_array32_ok query) by done. split; [reflexivity|].
    split_and!; try done. intros leaf []%elem_of_nil. }
  destruct (query_bounds leaves query Hs Hnin Hne) as [i Hb].
  unfold parent_nonmem_witness. rewrite bool_decide_false by done.
  set (lo := if 0 <? partition_point query leaves then _ else None) in *.
  set (hi := if partition_point query leaves <? len leaves then _ else None) in *.
  destruct (bound_witness_ok leaves root query Hs Hd Hn Hdist Hq Hr lo hi i Hb)
    as (w & v & Hw & Hv & Hvq & Hvl & Hvr & Hc & Hout).
  exists w, v, lo, hi. rewrite Hw. by split_and!.
Qed.

(** C36: Non-membership validation does not establish non-membership: for every
    set and every query other than the root itself, members included, the root
    taken as a bound with an empty path passes validation, the anchor checks
    and the coverage check of the acceptor. *)
Theorem nonmembership_accepts_members (leaves : list bytes) (query root : bytes) (conflict : FreezeError) :
  canonical_set_root leaves = Ok root -> digest root -> query ∈ leaves -> digest query -> query <> root ->
  exists w v, validate_anchored_nonmem_array [w] [{| rmw_leaf_id := root; rmw_root := root; rmw_path := [] |}]
                root conflict = Ok [v] /\
    vn_query v = query /\ ensure_nonmem_coverage [query] [v] = Ok tt.
Proof using.
  intros _ Hr _ Hq Hne.
  destruct (bytes_ltb root query) eqn:Hlt.
  - exists {| an_witness := one_bound_witness root query (Some root) None []; an_left_ref := Some 0; an_right_ref := None |}.
    eexists. unfold validate_anchored_nonmem_array. cbn [fold_res an_witness an_left_ref an_right_ref].
    rewrite (one_bound_validates root query (Some root) None root []) by (try done; left; by rewrite <- bytes_ltb_lt).
    cbn [map_err]. rstep. cbn [vn_query fst]. rewrite bool_decide_false by apply not_elem_of_empty. unfold afreeze_if at 1. rstep.
    cbn [one_bound_witness rnw_left rnw_right]. rewrite root_as_anchor by done. rstep. cbn [validate_anchor_reference]. rstep.
    unfold verify_anchored_adjacency, afreeze_if. cbn [anchor_matches vn_left vn_right vm_leaf_id vm_path forallb vn_path].
    rewrite bytes_eqb_refl. cbn [negb path_value fmap list_fmap]. rstep.
    split; [reflexivity|]. split; [done|]. cbn. by rewrite Hlt.
  - apply bytes_lt_total in Hlt; [|done].
    exists {| an_witness := one_bound_witness root query None (Some root) []; an_left_ref := None; an_right_ref := Some 0 |}.
    eexists. unfold validate_anchored_nonmem_array. cbn [fold_res an_witness an_left_ref an_right_ref].
    rewrite (one_bound_validates root query None (Some root) root []) by (try done; by right).
    cbn [map_err]. rstep. cbn [vn_query fst]. rewrite bool_decide_false by apply not_elem_of_empty. unfold afreeze_if at 1. rstep.
    cbn [one_bound_witness rnw_left rnw_right]. rewrite root_as_anchor by done. cbn [validate_anchor_reference]. rstep.
    unfold verify_anchored_adjacency, afreeze_if. cbn [anchor_matches vn_left vn_right vm_leaf_id vm_path forallb vn_path].
    rewrite bytes_eqb_refl. cbn [negb path_value fmap list_fmap]. rstep.
    split; [reflexivity|]. split; [done|]. cbn. by rewrite (proj2 (bytes_ltb_lt _ _) Hlt).
Qed.

End Properties.

(** ** Witnesses *)

Definition toy_merkle : MerkleHash := {|
  rpo_node l r := toy_digest 11 (l ++ r);
  rpo_interval_node l r := toy_digest 12 (l ++ r);
  rpo_hash_with_tag t m := toy_digest t m
|}.

#[global] Instance toy_merkle_laws : MerkleHashLaws toy_merkle.
Proof. split; intros; unfold len; cbn [rpo_node rpo_hash_with_tag toy_merkle]; unfold toy_digest; by rewrite length_be_bytes. Qed.

Definition leaf_of (n : Z) : bytes := be_bytes 32 n.
Definition sample_leaves : list bytes := [leaf_of 1; leaf_of 2; leaf_of 5; leaf_of 8; leaf_of 9].
Definition sample_root : bytes :=
  match @canonical_set_root toy_merkle sample_leaves with Ok r => r | Err _ => [] end.

Lemma sample_sorted : StronglySorted bytes_lt sample_leaves.
Proof. by apply not_increasing_false. Qed.

Lemma sample_digests : Forall digest sample_leaves.
Proof. repeat constructor. Qed.

Lemma canonical_set_root_binding_witness :
  exists r1 r2, @canonical_set_root toy_merkle sample_leaves = Ok r1 /\
    @canonical_set_root toy_merkle sample_leaves = Ok r2 /\
    (r1 = r2 -> sample_leaves = sample_leaves \/
       @node_collision toy_merkle (@root_nodes toy_merkle sample_leaves ++ @root_nodes toy_merkle sample_leaves)).
Proof.
  apply (@canonical_set_root_binding toy_merkle sample_leaves sample_leaves).
  - apply sample_sorted.
  - apply sample_sorted.
  - reflexivity.
Defined.

Lemma membership_witness_validates_witness :
  exists path, @canonical_membership_path toy_merkle sample_leaves (leaf_of 5) = Ok path /\
    is_ok (@validate_membership_against toy_merkle
      {| rmw_leaf_id := leaf_of 5; rmw_root := sample_root; rmw_path := path |} sample_root) = true.
Proof.
  destruct (@membership_witness_validates toy_merkle _ sample_leaves (leaf_of 5) sample_root) as (path & Hp & Hv).
  - apply sample_sorted.
  - apply sample_digests.
  - by vm_compute.
  - by repeat constructor.
  - by vm_compute.
  - exists path. rewrite Hv. by split.
Defined.

Lemma nonmembership_witness_validates_witness :
  exists w v lo hi, @parent_nonmem_witness toy_merkle sample_leaves sample_root (leaf_of 4) = Ok (w, lo, hi) /\
    @validate_nonmembership_against toy_merkle w sample_root = Ok v.
Proof.
  destruct (@nonmembership_witness_validates toy_merkle _ sample_leaves (leaf_of 4) sample_root)
    as (w & v & lo & hi & Hw & Hv & _).
  - apply sample_sorted.
  - apply sample_digests.
  - by vm_compute.
  - cbn [levels_distinct length sample_leaves].
    repeat (split; [apply (bool_decide_unpack _); by vm_compute|intros _]). done.
  - done.
  - apply (bool_decide_unpack _). by vm_compute.
  - by vm_compute.
  - exists w, v, lo, hi. split; [exact Hw|exact Hv].
Defined.

Lemma nonmembership_accepts_members_witness :
  exists w v, @validate_anchored_nonmem_array toy_merkle [w]
      [{| rmw_leaf_id := sample_root; rmw_root := sample_root; rmw_path := [] |}] sample_root
      FREEZE_SRX_SET_CONFLICT_PARENT = Ok [v] /\ vn_query v = leaf_of 5.
Proof.
  destruct (@nonmembership_accepts_members toy_merkle sample_leaves (leaf_of 5) sample_root
    FREEZE_SRX_SET_CONFLICT_PARENT) as (w & v & Hw & Hq & _).
  - by vm_compute.
  - by vm_compute.
  - by repeat constructor.
  - done.
  - apply (bool_decide_unpack _). by vm_compute.
  - by exists w, v.
Defined.
