(* ===== verification/ServerTree.v ===== *)
(** * The barrier tree, server side

    Models the tree functions of [crates/cityg-server/src/lib.rs]: the tree
    hash, its memoised and incremental variants with the hash caches the
    server keeps, direct paths, resolutions, the expected (source, target)
    pairs of an update, and the join and revocation records applied to a
    snapshot.  The theorems relate them to the client's functions of
    [BarrierTree]: both sides compute one tree hash and one set of targets, and
    the incremental hash is the hash from scratch. *)

From S2P Require Import Prelude Hash Heap BarrierTree Errors.

Abbreviation BarrierHashCache := (gmap Z bytes).

Record BarrierJoinOccupancyRecord := {
  occ_join_slot_index : Z;
  occ_join_slot_generation : Z;
  occ_join_ek_leaf : bytes
}.

Record BarrierRevokedOccupancyRecord := {
  occ_revoked_slot_index : Z;
  occ_revoked_slot_generation : Z
}.

(** The index computations of a node's children. *)
Definition child_indices (node_index : Z) : result CityGError (Z * Z) :=
  left ← ok_or (left_child node_index) (InvalidInput "barrier tree index overflow");
  right ← ok_or (right_child node_index) (InvalidInput "barrier tree index overflow");
  Ok (left, right).

Section ServerHash.
  Context {HS : Hashing}.

Definition leaf_hash_args (n_max node_index : Z) (pk : bytes) : Value :=
  VStruct [("n_max", VInteger n_max); ("node_index", VInteger node_index); ("pk", VBytes pk)].

Definition node_hash_args (n_max node_index : Z) (pk left_hash right_hash : bytes) : Value :=
  VStruct [("n_max", VInteger n_max); ("node_index", VInteger node_index); ("pk", VBytes pk);
           ("left_hash", VBytes left_hash); ("right_hash", VBytes right_hash)].

Fixpoint compute_barrier_tree_hash_recursive (fuel : nat) (node_index n_max n_max_usize : Z)
    (pk_entries : snapshot) : result CityGError bytes :=
  match fuel with
  | O => Err (InvalidInput "out of fuel")
  | S fuel' =>
      let leaf_base := sat_sub n_max_usize 1 in
      pk ← ok_or (vget pk_entries node_index) (InvalidInput "barrier node index out of range");
      if leaf_base <=? node_index then
        from_hash (h_l "barrier/tree/leaf-hash" (leaf_hash_args n_max node_index pk))
      else
        children ← child_indices node_index;
        left_hash ← compute_barrier_tree_hash_recursive fuel' children.1 n_max n_max_usize pk_entries;
        right_hash ← compute_barrier_tree_hash_recursive fuel' children.2 n_max n_max_usize pk_entries;
        from_hash (h_l "barrier/tree/node-hash"
                     (node_hash_args n_max node_index pk left_hash right_hash))
  end.

Definition compute_barrier_tree_hash (n_max : Z) (pk_entries : snapshot) : result CityGError bytes :=
  expected_len ← ok_or (v ← checked_mul n_max 2; checked_sub v 1) (InvalidInput "barrier tree size overflow");
  fail_if (negb (len pk_entries =? expected_len)) (InvalidInput "barrier tree size mismatch") ;;
  compute_barrier_tree_hash_recursive TREE_FUEL 0 n_max n_max pk_entries.

(** [base_cache.and_then(|hashes| hashes.get(&node_index))] *)
Definition base_cache_get (base_cache : option BarrierHashCache) (node_index : Z) : option bytes :=
  match base_cache with Some hashes => hashes !! node_index | None => None end.

Fixpoint compute_barrier_subtree_hash_cached (fuel : nat) (node_index n_max n_max_usize : Z)
    (pk_entries : snapshot) (base_cache : option BarrierHashCache) (cache : BarrierHashCache)
    : result CityGError (bytes * BarrierHashCache) :=
  match fuel with
  | O => Err (InvalidInput "out of fuel")
  | S fuel' =>
      match cache !! node_index with
      | Some existing => Ok (existing, cache)
      | None =>
      match base_cache_get base_cache node_index with
      | Some existing => Ok (existing, cache)
      | None =>
          let leaf_base := sat_sub n_max_usize 1 in
          pk ← ok_or (vget pk_entries node_index) (InvalidInput "barrier node index out of range");
          if leaf_base <=? node_index then
            hash ← from_hash (h_l "barrier/tree/leaf-hash" (leaf_hash_args n_max node_index pk));
            Ok (hash, <[node_index := hash]> cache)
          else
            children ← child_indices node_index;
            l ← compute_barrier_subtree_hash_cached fuel' children.1 n_max n_max_usize pk_entries base_cache cache;
            r ← compute_barrier_subtree_hash_cached fuel' children.2 n_max n_max_usize pk_entries base_cache l.2;
            hash ← from_hash (h_l "barrier/tree/node-hash" (node_hash_args n_max node_index pk l.1 r.1));
            Ok (hash, <[node_index := hash]> r.2)
      end
      end
  end.

Record BarrierHashAfterInput := {
  hai_n_max : Z;
  hai_n_max_usize : Z;
  hai_updated_entries : snapshot;
  hai_impacted_nodes : gset Z;
  hai_base_before_cache : option BarrierHashCache
}.

Fixpoint compute_barrier_subtree_hash_after_changes (fuel : nat) (node_index : Z)
    (input : BarrierHashAfterInput) (before_cache after_cache : BarrierHashCache)
    : result CityGError (bytes * BarrierHashCache * BarrierHashCache) :=
  match fuel with
  | O => Err (InvalidInput "out of fuel")
  | S fuel' =>
      match after_cache !! node_index with
      | Some existing => Ok (existing, before_cache, after_cache)
      | None =>
          if negb (bool_decide (node_index ∈ hai_impacted_nodes input)) then
            r ← compute_barrier_subtree_hash_cached TREE_FUEL node_index (hai_n_max input)
                  (hai_n_max_usize input) (hai_updated_entries input)
                  (hai_base_before_cache input) before_cache;
            Ok (r.1, r.2, after_cache)
          else
            let leaf_base := sat_sub (hai_n_max_usize input) 1 in
            pk ← ok_or (vget (hai_updated_entries input) node_index)
                   (InvalidInput "barrier node index out of range");
            if leaf_base <=? node_index then
              hash ← from_hash (h_l "barrier/tree/leaf-hash"
                                  (leaf_hash_args (hai_n_max input) node_index pk));
              Ok (hash, before_cache, <[node_index := hash]> after_cache)
            else
              children ← child_indices node_index;
              l ← compute_barrier_subtree_hash_after_changes fuel' children.1 input before_cache after_cache;
              r ← compute_barrier_subtree_hash_after_changes fuel' children.2 input l.1.2 l.2;
              hash ← from_hash (h_l "barrier/tree/node-hash"
                                  (node_hash_args (hai_n_max input) node_index pk l.1.1 r.1.1));
              Ok (hash, r.1.2, <[node_index := hash]> r.2)
      end
  end.

(** [loop { impacted.insert(current); if current == 0 { break } current = (current - 1) / 2 }] *)
Fixpoint impacted_loop (fuel : nat) (current : Z) (impacted : gset Z) : gset Z :=
  match fuel with
  | O => impacted
  | S fuel' =>
      let impacted := {[current]} ∪ impacted in
      if current =? 0 then impacted else impacted_loop fuel' ((current - 1) / 2) impacted
  end.

Definition compute_barrier_tree_hash_with_changes (n_max : Z) (updated_entries : snapshot)
    (changed_nodes : gset Z) (base_before_cache : option BarrierHashCache)
    (before_cache : BarrierHashCache)
    : result CityGError (bytes * BarrierHashCache * BarrierHashCache) :=
  expected_len ← ok_or (v ← checked_mul n_max 2; checked_sub v 1) (InvalidInput "barrier tree size overflow");
  fail_if (negb (len updated_entries =? expected_len)) (InvalidInput "barrier tree size mismatch") ;;
  if bool_decide (changed_nodes = ∅) then
    root ← compute_barrier_tree_hash n_max updated_entries;
    Ok (root, before_cache, ∅)
  else
    fail_if (existsb (fun node => expected_len <=? node) (elements changed_nodes))
      (InvalidInput "barrier node index out of range") ;;
    let impacted_nodes :=
      foldl (fun impacted node => impacted_loop TREE_FUEL node impacted) ∅ (elements changed_nodes) in
    compute_barrier_subtree_hash_after_changes TREE_FUEL 0
      {| hai_n_max := n_max; hai_n_max_usize := n_max; hai_updated_entries := updated_entries;
         hai_impacted_nodes := impacted_nodes; hai_base_before_cache := base_before_cache |}
      before_cache ∅.

Definition compute_barrier_pkhash (ek : bytes) : result CityGError bytes :=
  from_hash (h_l "barrier/pk-hash" (VBytes ek)).

Definition compute_revocation_roots_hash (revoked_since_root revoked_root : bytes) : result CityGError bytes :=
  from_hash (h_l "barrier/roots" (VArray [VBytes revoked_since_root; VBytes revoked_root])).

End ServerHash.

Fixpoint direct_path_loop (fuel : nat) (node : Z) : list Z :=
  match fuel with
  | O => []
  | S fuel' =>
      if 0 <? node then let node := (node - 1) / 2 in node :: direct_path_loop fuel' node else []
  end.

Definition direct_path_nodes (node : Z) : list Z := node :: direct_path_loop TREE_FUEL node.

Definition sibling_node (node : Z) : option Z :=
  if node =? 0 then None
  else if Z.land node 1 =? 0 then Some (sat_sub node 1) else Some (sat_add node 1).

Fixpoint collect_resolution_nodes (fuel : nat) (pk_entries : snapshot) (node leaf_base : Z)
    (out : list Z) : list Z :=
  match fuel with
  | O => out
  | S fuel' =>
      match vget pk_entries node with
      | None => out
      | Some pk =>
          if negb (bytes_eqb pk []) then out ++ [node]
          else if leaf_base <=? node then out
          else
            let left := sat_add (sat_mul node 2) 1 in
            let right := sat_add (sat_mul node 2) 2 in
            let out := collect_resolution_nodes fuel' pk_entries left leaf_base out in
            collect_resolution_nodes fuel' pk_entries right leaf_base out
      end
  end.

(** The order of [(u64, u64)] that [sort_unstable] uses. *)
Definition pair_le (a b : Z * Z) : Prop := a.1 < b.1 \/ (a.1 = b.1 /\ a.2 <= b.2).

Instance pair_le_dec : RelDecision pair_le.
Proof. intros a b. unfold pair_le. apply _. Defined.

Fixpoint expected_pairs_loop (pk_entries : snapshot) (leaf_base : Z) (path_nodes : list Z)
    : result CityGError (list (Z * Z)) :=
  match path_nodes with
  | child :: (source :: _) as tl =>
      sibling ← ok_or (sibling_node child) (InvalidInput "barrier_update malformed");
      let targets := merge_sort Z.le (collect_resolution_nodes TREE_FUEL pk_entries sibling leaf_base []) in
      rest ← expected_pairs_loop pk_entries leaf_base tl;
      Ok (((fun target => (source, target)) <$> targets) ++ rest)
  | _ => Ok []
  end.

Definition collect_expected_pairs (pk_entries : snapshot) (path_nodes : list Z) (n_max : Z)
    : result CityGError (list (Z * Z)) :=
  if len path_nodes <? 2 then Ok []
  else
    let leaf_base := sat_sub n_max 1 in
    pairs ← expected_pairs_loop pk_entries leaf_base path_nodes;
    Ok (merge_sort pair_le pairs).

Definition clear_barrier_path (pk_entries : snapshot) (leaf_node : Z) (include_leaf : bool) : snapshot :=
  let nodes := direct_path_nodes leaf_node in
  foldl (fun entries node => vset entries node []) pk_entries
    (if include_leaf then nodes else tail nodes).

Definition apply_join_records_to_snapshot (pk_entries : snapshot) (n_max : Z)
    (join_records : list BarrierJoinOccupancyRecord) : result CityGError snapshot :=
  let leaf_base := sat_sub n_max 1 in
  fold_res (fun entries record =>
      leaf_node ← ok_or (checked_add leaf_base (occ_join_slot_index record))
                    (InvalidInput "barrier_update malformed");
      fail_if (bool_decide (vget entries leaf_node = None)) (InvalidInput "barrier_update malformed") ;;
      Ok (clear_barrier_path (vset entries leaf_node (occ_join_ek_leaf record)) leaf_node false))
    pk_entries join_records.

Definition apply_revoked_records_to_snapshot (pk_entries : snapshot) (n_max : Z)
    (revoked_records : list BarrierRevokedOccupancyRecord) : result CityGError snapshot :=
  let leaf_base := sat_sub n_max 1 in
  fst <$> fold_res (fun (st : snapshot * gset Z) record =>
      let '(entries, seen) := st in
      if bool_decide (occ_revoked_slot_index record ∈ seen) then Ok (entries, seen)
      else
        let seen := {[occ_revoked_slot_index record]} ∪ seen in
        leaf_node ← ok_or (checked_add leaf_base (occ_revoked_slot_index record))
                      (InvalidInput "barrier_update malformed");
        fail_if (bool_decide (vget entries leaf_node = None)) (InvalidInput "barrier_update malformed") ;;
        Ok (clear_barrier_path entries leaf_node true, seen))
    (pk_entries, ∅) revoked_records.

(** ** Digests by node index *)

Definition height (n i : Z) : nat := Z.to_nat (Z.log2 n - Z.log2 (i + 1)).

(** [x] is a node of the subtree of [i] in a tree of [2 * n - 1] nodes. *)
Definition below (n i x : Z) : Prop :=
  0 <= x < 2 * n - 1 /\ exists j, 0 <= j /\ anc (x + 1) j = i + 1.

Section Below.
  Context (n : Z) (Hv : validate_barrier_n_max n = Ok n).

Lemma log2_node_le i : 0 <= i < 2 * n - 1 -> Z.log2 (i + 1) <= Z.log2 n.
Proof using Hv.
  intros. destruct (n_max_bounds n Hv) as (Hn & Hd & ?).
  assert (Z.log2 (i + 1) < Z.log2 n + 1); [|lia].
  apply Z.log2_lt_pow2; [lia|]. rewrite Z.pow_add_r, Z.pow_1_r, <- Hn by lia. lia.
Qed.

Lemma at_height_node i : 0 <= i < 2 * n - 1 -> at_height (Z.log2 n) (height n i) (i + 1).
Proof using Hv.
  intros. pose proof (log2_node_le i). pose proof (Z.log2_nonneg (i + 1)).
  unfold at_height, height. rewrite Z2Nat.id by lia. lia.
Qed.

Lemma height_fuel i : 0 <= i < 2 * n - 1 -> (height n i < TREE_FUEL)%nat.
Proof using Hv. intros. eapply at_height_fuel; [exact Hv|by apply at_height_node]. Qed.

Lemma height_leaf i : 0 <= i < 2 * n - 1 -> (n - 1 <=? i) = bool_decide (height n i = 0%nat).
Proof using Hv.
  intros H. pose proof (at_height_leaf _ _ _ (at_height_node i H)) as Hl.
  destruct (n_max_bounds n Hv) as (Hn & _). rewrite <- Hn in Hl.
  by replace (i + 1 - 1) with i in Hl by lia.
Qed.

Lemma height_internal i : 0 <= i < n - 1 ->
  exists h, height n i = S h /\ height n (2 * i + 1) = h /\ height n (2 * i + 2) = h.
Proof using Hv.
  intros. pose proof (height_leaf i ltac:(lia)) as Hl. rewrite (proj2 (Z.leb_gt (n - 1) i)) in Hl by lia.
  symmetry in Hl. apply bool_decide_eq_false in Hl.
  destruct (height n i) as [|h] eqn:E; [done|]. exists h. split; [done|].
  unfold height in *. replace (2 * i + 1 + 1) with (2 * (i + 1)) by lia.
  replace (2 * i + 2 + 1) with (2 * (i + 1) + 1) by lia.
  rewrite log2_double, log2_succ_double by lia. lia.
Qed.

Lemma below_refl i : 0 <= i < 2 * n - 1 -> below n i i.
Proof. intros. split; [done|]. exists 0. by rewrite anc_0. Qed.

Lemma below_inv i x : 0 <= i -> below n i x -> x = i \/ below n (2 * i + 1) x \/ below n (2 * i + 2) x.
Proof.
  intros Hi [Hx (j & Hj & Ha)]. destruct (decide (j = 0)) as [->|Hj0].
  - left. rewrite anc_0 in Ha. lia.
  - right. apply anc_child in Ha as [Ha|Ha]; [left|right|lia]; (split; [done|]); exists (j - 1); lia.
Qed.

Lemma below_left i x : 0 <= i -> below n (2 * i + 1) x -> below n i x.
Proof.
  intros Hi [Hx (j & Hj & Ha)]. split; [done|]. exists (j + 1). split; [lia|].
  rewrite anc_succ, Ha by lia. mlia.
Qed.

Lemma below_right i x : 0 <= i -> below n (2 * i + 2) x -> below n i x.
Proof.
  intros Hi [Hx (j & Hj & Ha)]. split; [done|]. exists (j + 1). split; [lia|].
  rewrite anc_succ, Ha by lia. mlia.
Qed.

Lemma below_leaf i x : n - 1 <= i < 2 * n - 1 -> below n i x -> x = i.
Proof using Hv.
  intros Hi [Hx (j & Hj & Ha)]. destruct (n_max_bounds n Hv) as (Hn & Hd & ?).
  assert (j <= Z.log2 (x + 1)) by (apply anc_pos_le_log2; lia).
  pose proof (log2_anc (x + 1) j ltac:(lia) ltac:(lia)) as Hl. rewrite Ha in Hl.
  pose proof (log2_node_le x Hx).
  assert (Z.log2 n <= Z.log2 (i + 1)) by (apply Z.log2_le_mono; lia).
  assert (j = 0) as -> by lia. rewrite anc_0 in Ha. lia.
Qed.

Lemma below_path i x : 0 <= i -> below n i x -> i ∈ path_of x.
Proof.
  intros Hi [Hx (j & Hj & Ha)]. apply elem_of_path_of. exists j. split; [|lia].
  split; [done|]. apply anc_pos_le_log2; lia.
Qed.

Lemma below_root x : 0 <= x < 2 * n - 1 -> below n 0 x.
Proof.
  intros. split; [done|]. exists (Z.log2 (x + 1)). split; [apply Z.log2_nonneg|].
  rewrite anc_top by lia. done.
Qed.

Lemma child_indices_ok i : 0 <= i < n - 1 -> child_indices i = Ok (2 * i + 1, 2 * i + 2).
Proof using Hv.
  intros. destruct (n_max_bounds n Hv) as (_ & _ & ?). unfold child_indices.
  pose proof (children_ok (i + 1) ltac:(lia)) as [Hl Hr].
  replace (i + 1 - 1) with i in * by lia. rewrite Hl, Hr. cbn. do 2 f_equal; lia.
Qed.

End Below.

Section Digests.
  Context {HS : Hashing} (n : Z) (Hv : validate_barrier_n_max n = Ok n).

Definition node_digest (snap : snapshot) (i : Z) : bytes :=
  tree_digest n snap (height n i) (i + 1).

Lemma node_digest_leaf snap i pk :
  n - 1 <= i < 2 * n - 1 -> vget snap i = Some pk ->
  from_hash (h_l "barrier/tree/leaf-hash" (leaf_hash_args n i pk)) = Ok (node_digest snap i).
Proof using Hv.
  intros Hi Hpk. pose proof (n_max_bounds n Hv) as (_ & _ & ?).
  pose proof (height_leaf n Hv i ltac:(lia)) as Hl. rewrite (proj2 (Z.leb_le (n - 1) i)) in Hl by lia.
  symmetry in Hl. apply bool_decide_eq_true in Hl.
  unfold node_digest. rewrite Hl. cbn [tree_digest]. unfold node_pk.
  replace (i + 1 - 1) with i by lia. rewrite Hpk. by rewrite h_l_digest.
Qed.

Lemma node_digest_internal snap i pk :
  0 <= i < n - 1 -> vget snap i = Some pk ->
  from_hash (h_l "barrier/tree/node-hash"
    (node_hash_args n i pk (node_digest snap (2 * i + 1)) (node_digest snap (2 * i + 2))))
  = Ok (node_digest snap i).
Proof using Hv.
  intros Hi Hpk. destruct (height_internal n Hv i Hi) as (h & Hh & Hl & Hr).
  unfold node_digest. rewrite Hh, Hl, Hr. cbn [tree_digest]. unfold node_pk.
  replace (i + 1 - 1) with i by lia. rewrite Hpk.
  replace (2 * i + 1 + 1) with (2 * (i + 1)) by lia.
  replace (2 * i + 2 + 1) with (2 * (i + 1) + 1) by lia. by rewrite h_l_digest.
Qed.

(** The digest of a node depends on its subtree only. *)
Definition same_below (s1 s2 : snapshot) (i : Z) : Prop :=
  forall x, below n i x -> vget s1 x = vget s2 x.

Lemma same_below_children s1 s2 i :
  0 <= i -> same_below s1 s2 i -> same_below s1 s2 (2 * i + 1) /\ same_below s1 s2 (2 * i + 2).
Proof. intros Hi H. split; intros x Hx; apply H; [by apply below_left|by apply below_right]. Qed.

Lemma node_digest_ext s1 s2 i :
  0 <= i < 2 * n - 1 -> same_below s1 s2 i -> node_digest s1 i = node_digest s2 i.
Proof using Hv.
  remember (height n i) as h eqn:Eh. revert i Eh. induction h as [|h IH]; intros i Eh Hi Hs;
    unfold node_digest; rewrite <- Eh; cbn [tree_digest]; unfold node_pk;
    replace (i + 1 - 1) with i by lia; rewrite (Hs i) by (by apply below_refl); [done|].
  assert (0 <= i < n - 1).
  { pose proof (height_leaf n Hv i Hi) as Hl. rewrite <- Eh in Hl. cbn in Hl.
    apply Z.leb_gt in Hl. lia. }
  destruct (height_internal n Hv i ltac:(lia)) as (h' & Hh & Hl & Hr).
  assert (h' = h) as -> by congruence.
  destruct (same_below_children s1 s2 i ltac:(lia) Hs) as [H1 H2].
  pose proof (IH (2 * i + 1) (eq_sym Hl) ltac:(lia) H1) as Dl.
  pose proof (IH (2 * i + 2) (eq_sym Hr) ltac:(lia) H2) as Dr.
  unfold node_digest in Dl, Dr. rewrite Hl in Dl. rewrite Hr in Dr.
  replace (2 * i + 1 + 1) with (2 * (i + 1)) in Dl by lia.
  replace (2 * i + 2 + 1) with (2 * (i + 1) + 1) in Dr by lia. by rewrite Dl, Dr.
Qed.

Lemma server_hash_recursive_eq snap fuel i :
  len snap = 2 * n - 1 -> 0 <= i < 2 * n - 1 -> (height n i < fuel)%nat ->
  compute_barrier_tree_hash_recursive fuel i n n snap = Ok (node_digest snap i).
Proof using Hv.
  intros Hlen. pose proof (n_max_bounds n Hv) as (_ & _ & ?).
  revert i; induction fuel as [|fuel IH]; intros i Hi Hf; [lia|].
  cbn [compute_barrier_tree_hash_recursive].
  replace (sat_sub n 1) with (n - 1) by (unfold sat_sub; lia).
  destruct (vget_is_Some snap i ltac:(lia)) as [pk Hpk]. rewrite Hpk. cbn.
  destruct (n - 1 <=? i) eqn:E; bool_prop.
  - apply node_digest_leaf; [lia|done].
  - destruct (height_internal n Hv i ltac:(lia)) as (h & Hh & Hl & Hr).
    rewrite (child_indices_ok n Hv) by lia. cbn [fst snd mbind result_bind].
    rewrite IH by lia. cbn. rewrite IH by lia. cbn. apply node_digest_internal; [lia|done].
Qed.

Lemma server_tree_hash_ok snap :
  len snap = 2 * n - 1 -> compute_barrier_tree_hash n snap = Ok (node_digest snap 0).
Proof using Hv.
  intros Hlen. pose proof (n_max_bounds n Hv) as (_ & _ & ?).
  unfold compute_barrier_tree_hash. rewrite tree_size_ok by lia. cbn -[Z.mul].
  rewrite Hlen, Z.eqb_refl. cbn. apply server_hash_recursive_eq; [done|lia|].
  apply height_fuel; [done|lia].
Qed.

Lemma node_digest_root snap : node_digest snap 0 = tree_digest n snap (Z.to_nat (Z.log2 n)) 1.
Proof. unfold node_digest, height. cbn. by rewrite Z.sub_0_r. Qed.

End Digests.

(** ** Impacted nodes *)

Lemma impacted_loop_elem fuel i (s : gset Z) x :
  0 <= i -> Z.log2 (i + 1) < Z.of_nat fuel ->
  x ∈ impacted_loop fuel i s <-> x ∈ path_of i \/ x ∈ s.
Proof.
  revert i s; induction fuel as [|fuel IH]; intros i s Hi Hf; cbn [impacted_loop].
  - pose proof (Z.log2_nonneg (i + 1)). lia.
  - case_if; bool_prop.
    + subst. rewrite path_of_0. set_solver.
    + rewrite IH; [|apply Z.div_pos; lia|rewrite parent_succ, log2_half by lia; lia].
      rewrite (path_of_step i) by lia. set_solver.
Qed.

Lemma impacted_fold_elem (l : list Z) (s : gset Z) x :
  Forall (fun i => 0 <= i <= U64_MAX) l ->
  x ∈ foldl (fun impacted node => impacted_loop TREE_FUEL node impacted) s l <->
  x ∈ s \/ exists i, i ∈ l /\ x ∈ path_of i.
Proof.
  revert s; induction l as [|i l IH]; intros s Hl; cbn; [set_solver|].
  apply Forall_cons in Hl as [Hi Hl]. rewrite IH by done.
  rewrite impacted_loop_elem by (try lia; by apply log2_fuel). set_solver.
Qed.

(** ** Hash caches *)

Section Caches.
  Context {HS : Hashing} (n : Z) (Hv : validate_barrier_n_max n = Ok n).

(** Every cached value is the digest of its node in [snap]. *)
Definition cache_ok (snap : snapshot) (cache : BarrierHashCache) : Prop :=
  forall i v, cache !! i = Some v -> 0 <= i < 2 * n - 1 /\ v = node_digest n snap i.

Definition base_ok (snap : snapshot) (base : option BarrierHashCache) : Prop :=
  match base with Some c => cache_ok snap c | None => True end.

(** With a node the cache holds the nodes of [nodes] below it. *)
Definition closed_for (nodes : gset Z) (cache : BarrierHashCache) : Prop :=
  forall i x, is_Some (cache !! i) -> below n i x -> x ∈ nodes -> is_Some (cache !! x).

Lemma cache_ok_empty snap : cache_ok snap ∅.
Proof. intros i v. by rewrite lookup_empty. Qed.

Lemma closed_for_empty nodes : closed_for nodes ∅.
Proof. intros i x [v Hv']. by rewrite lookup_empty in Hv'. Qed.

Lemma cache_ok_insert snap cache i :
  0 <= i < 2 * n - 1 -> cache_ok snap cache -> cache_ok snap (<[i := node_digest n snap i]> cache).
Proof.
  intros Hi Hc j v. rewrite lookup_insert. case_decide; [|apply Hc]. intros [= <-]. by subst.
Qed.

Lemma base_cache_get_ok snap base i v :
  base_ok snap base -> base_cache_get base i = Some v -> v = node_digest n snap i.
Proof. destruct base as [c|]; cbn; [|done]. intros Hb H. by apply Hb in H as [_ ?]. Qed.

(** Keys that a subtree traversal adds: what was cached stays cached, and the
    nodes of [nodes] below [i] are cached afterwards. *)
Definition covers (nodes : gset Z) (i : Z) (cache cache' : BarrierHashCache) : Prop :=
  (forall x, is_Some (cache !! x) -> is_Some (cache' !! x)) /\
  (forall x, below n i x -> x ∈ nodes -> is_Some (cache' !! x)).

Lemma covers_hit nodes i cache :
  closed_for nodes cache -> is_Some (cache !! i) -> covers nodes i cache cache.
Proof. intros Hc Hi. split; [done|]. intros x Hb Hx. by eapply Hc. Qed.

Lemma covers_insert_leaf nodes i v cache :
  n - 1 <= i < 2 * n - 1 -> covers nodes i cache (<[i := v]> cache).
Proof using Hv.
  intros Hi. split.
  - intros x Hx. rewrite lookup_insert. by case_decide.
  - intros x ->%(below_leaf n Hv) _; [|done]. rewrite lookup_insert_eq. eauto.
Qed.

Lemma covers_insert_node nodes i v c0 c1 c2 :
  0 <= i -> covers nodes (2 * i + 1) c0 c1 -> covers nodes (2 * i + 2) c1 c2 ->
  covers nodes i c0 (<[i := v]> c2).
Proof.
  intros Hi [H1 H1'] [H2 H2']. split; intros x Hx; rewrite lookup_insert; case_decide; eauto.
  apply below_inv in Hx as [->|[Hx|Hx]]; [done|by eauto|by eauto|done].
Qed.

Lemma closed_for_insert nodes i v cache cache' :
  0 <= i -> closed_for nodes cache -> covers nodes i cache (<[i := v]> cache') ->
  closed_for nodes cache' -> closed_for nodes (<[i := v]> cache').
Proof.
  intros Hi Hc [_ Hcov] Hc' j x [w Hj] Hb Hx. rewrite lookup_insert in Hj. case_decide; subst.
  - by apply Hcov.
  - assert (is_Some (cache' !! x)) by (eapply Hc'; eauto). rewrite lookup_insert. by case_decide.
Qed.

Definition all_nodes : gset Z := list_to_set (seqZ 0 (2 * n - 1)).

Lemma elem_of_all_nodes x : x ∈ all_nodes <-> 0 <= x < 2 * n - 1.
Proof. unfold all_nodes. rewrite elem_of_list_to_set, elem_of_seqZ. lia. Qed.

Definition grows (cache cache' : BarrierHashCache) : Prop :=
  forall x, is_Some (cache !! x) -> is_Some (cache' !! x).

Lemma grows_refl c : grows c c.
Proof. by intros x. Qed.

Lemma grows_insert i v (c c' : BarrierHashCache) : grows c c' -> grows c (<[i := v]> c').
Proof. intros H x Hx%H. rewrite lookup_insert. by case_decide. Qed.

Lemma grows_trans c1 c2 c3 : grows c1 c2 -> grows c2 c3 -> grows c1 c3.
Proof. unfold grows. eauto. Qed.

(** The memoised hash returns the digest, keeps the cache correct and, without
    a base cache, fills it for the whole subtree. *)
Lemma cached_hash_spec snap s0 base fuel i cache :
  len snap = 2 * n - 1 -> base_ok s0 base ->
  0 <= i < 2 * n - 1 -> (height n i < fuel)%nat -> same_below n snap s0 i ->
  cache_ok s0 cache ->
  exists cache', compute_barrier_subtree_hash_cached fuel i n n snap base cache
      = Ok (node_digest n s0 i, cache') /\ cache_ok s0 cache' /\ grows cache cache' /\
    (base = None -> closed_for all_nodes cache ->
      closed_for all_nodes cache' /\ covers all_nodes i cache cache').
Proof using Hv.
  intros Hlen Hbase. pose proof (n_max_bounds n Hv) as (_ & _ & ?).
  revert i cache; induction fuel as [|fuel IH]; intros i cache Hi Hf Hs Hc; [lia|].
  cbn [compute_barrier_subtree_hash_cached].
  destruct (cache !! i) as [v|] eqn:Ec.
  { destruct (Hc i v Ec) as [_ ->]. exists cache. split_and!; [done|done|apply grows_refl|].
    intros _ Hcl. split; [done|]. apply covers_hit; [done|by eauto]. }
  destruct (base_cache_get base i) as [v|] eqn:Eb.
  { rewrite (base_cache_get_ok s0 base i v) by done. exists cache. split_and!; [done|done|apply grows_refl|].
    intros ->. done. }
  replace (sat_sub n 1) with (n - 1) by (unfold sat_sub; lia).
  destruct (vget_is_Some snap i ltac:(lia)) as [pk Hpk]. rewrite Hpk. cbn [ok_or mbind result_bind].
  rewrite (Hs i (below_refl n i Hi)) in Hpk.
  destruct (n - 1 <=? i) eqn:E; bool_prop.
  - rewrite (node_digest_leaf n Hv s0) by (done || lia). cbn.
    eexists; split; [done|]. split; [by apply cache_ok_insert|].
    split; [apply grows_insert, grows_refl|]. intros _ Hcl.
    assert (covers all_nodes i cache (<[i := node_digest n s0 i]> cache)) by (apply covers_insert_leaf; lia).
    split; [|done]. apply (closed_for_insert _ _ _ cache); (done || lia).
  - destruct (height_internal n Hv i ltac:(lia)) as (h & Hh & Hl & Hr).
    rewrite (child_indices_ok n Hv) by lia. cbn [fst snd mbind result_bind].
    destruct (same_below_children n snap s0 i ltac:(lia) Hs) as [Hsl Hsr].
    destruct (IH (2 * i + 1) cache ltac:(lia) ltac:(lia) Hsl Hc) as (c1 & -> & Hc1 & Hg1 & Hv1).
    cbn [fst snd mbind result_bind].
    destruct (IH (2 * i + 2) c1 ltac:(lia) ltac:(lia) Hsr Hc1) as (c2 & -> & Hc2 & Hg2 & Hv2).
    cbn [fst snd mbind result_bind].
    rewrite (node_digest_internal n Hv s0) by (done || lia). cbn.
    eexists; split; [done|]. split; [by apply cache_ok_insert|].
    split; [by eapply grows_insert, grows_trans|].
    intros Hn Hcl. destruct (Hv1 Hn Hcl) as [Hcl1 Hcov1]. destruct (Hv2 Hn Hcl1) as [Hcl2 Hcov2].
    assert (covers all_nodes i cache (<[i := node_digest n s0 i]> c2)).
    { eapply covers_insert_node; [lia|done|done]. }
    split; [|done]. apply (closed_for_insert _ _ _ cache); (done || lia).
Qed.

(** *** Incremental rehash *)

Section AfterChanges.
  Context (input : BarrierHashAfterInput) (s0 new : snapshot) (Hnew : hai_updated_entries input = new).
  Context (Hn1 : hai_n_max input = n) (Hn2 : hai_n_max_usize input = n).
  Context (Hlen : len new = 2 * n - 1).
  Context (Hbase : base_ok s0 (hai_base_before_cache input)).
  (** A node outside the impacted set has the same subtree as before. *)
  Context (Himp : forall i, 0 <= i < 2 * n - 1 -> i ∉ hai_impacted_nodes input -> same_below n new s0 i).
  (** The impacted set is closed under ancestors. *)
  Context (Hup : forall i x, 0 <= i -> below n i x -> x ∈ hai_impacted_nodes input ->
                   i ∈ hai_impacted_nodes input).

Lemma covers_not_impacted i cache :
  0 <= i -> i ∉ hai_impacted_nodes input -> covers (hai_impacted_nodes input) i cache cache.
Proof using Hup. intros Hi Hni. split; [done|]. intros x Hb Hx. exfalso. by eapply Hni, Hup. Qed.

Lemma after_changes_spec fuel i before after :
  0 <= i < 2 * n - 1 -> (height n i < fuel)%nat ->
  cache_ok s0 before -> cache_ok new after -> closed_for (hai_impacted_nodes input) after ->
  exists before' after',
    compute_barrier_subtree_hash_after_changes fuel i input before after
      = Ok (node_digest n new i, before', after') /\
    cache_ok s0 before' /\ cache_ok new after' /\
    (forall x, is_Some (before !! x) -> is_Some (before' !! x)) /\
    closed_for (hai_impacted_nodes input) after' /\
    covers (hai_impacted_nodes input) i after after'.
Proof using All.
  pose proof (n_max_bounds n Hv) as (_ & _ & ?). set (imp := hai_impacted_nodes input).
  revert i before after; induction fuel as [|fuel IH]; intros i before after Hi Hf Hb Ha Hcl; [lia|].
  cbn [compute_barrier_subtree_hash_after_changes].
  destruct (after !! i) as [v|] eqn:Ec.
  { destruct (Ha i v Ec) as [_ ->]. exists before, after. split_and!; try done.
    apply covers_hit; [done|by eauto]. }
  rewrite Hn1, Hn2, Hnew. fold imp.
  destruct (bool_decide (i ∈ imp)) eqn:Ei; cbn [negb]; bool_prop.
  2:{ destruct (cached_hash_spec new s0 (hai_base_before_cache input) TREE_FUEL i before)
        as (c' & -> & Hc' & Hg & _); [done|done|done|by apply height_fuel|by apply Himp|done|].
      cbn. exists c', after. split_and!; try done; [|by apply covers_not_impacted; [lia|]].
      do 2 f_equal. f_equal. symmetry. apply node_digest_ext; [done|done|by apply Himp]. }
  replace (sat_sub n 1) with (n - 1) by (unfold sat_sub; lia).
  destruct (vget_is_Some new i ltac:(lia)) as [pk Hpk]. rewrite Hpk. cbn [ok_or mbind result_bind].
  destruct (n - 1 <=? i) eqn:E; bool_prop.
  - rewrite (node_digest_leaf n Hv new) by (done || lia). cbn.
    assert (covers imp i after (<[i := node_digest n new i]> after)) by (apply covers_insert_leaf; lia).
    eexists _, _; split; [done|]. split_and!; try done; [by apply cache_ok_insert|].
    apply (closed_for_insert _ _ _ after); (done || lia).
  - destruct (height_internal n Hv i ltac:(lia)) as (h & Hh & Hl & Hr).
    rewrite (child_indices_ok n Hv) by lia. cbn [fst snd mbind result_bind].
    destruct (IH (2 * i + 1) before after) as (b1 & a1 & -> & Hb1 & Ha1 & Hg1 & Hcl1 & Hcov1); try (done || lia).
    cbn [fst snd mbind result_bind].
    destruct (IH (2 * i + 2) b1 a1) as (b2 & a2 & -> & Hb2 & Ha2 & Hg2 & Hcl2 & Hcov2); try (done || lia).
    cbn [fst snd mbind result_bind].
    rewrite (node_digest_internal n Hv new) by (done || lia). cbn.
    assert (covers imp i after (<[i := node_digest n new i]> a2)) by (eapply covers_insert_node; [lia|done|done]).
    eexists _, _; split; [done|]. split_and!; try done; [by apply cache_ok_insert|by eauto|].
    apply (closed_for_insert _ _ _ after); (done || lia).
Qed.

End AfterChanges.
End Caches.

(** ** Agreement with the client *)

Lemma direct_path_loop_eq fuel node : direct_path_loop fuel node = path_loop fuel node \/ node < 0.
Proof.
  destruct (decide (node < 0)); [by right|left].
  revert node n; induction fuel as [|fuel IH]; intros node Hn; cbn; [done|].
  destruct (node =? 0) eqn:E; bool_prop; [by subst|].
  rewrite (proj2 (Z.ltb_lt 0 node)) by lia. f_equal. apply IH.
  assert (0 <= (node - 1) / 2) by (apply Z.div_pos; lia). lia.
Qed.

Lemma direct_path_nodes_eq node : 0 <= node <= U64_MAX -> direct_path_nodes node = path_of node.
Proof.
  intros. unfold direct_path_nodes. destruct (direct_path_loop_eq TREE_FUEL node) as [->|?]; [|lia].
  apply path_loop_enough; [lia|]. pose proof (log2_fuel node). lia.
Qed.

Lemma server_sibling_node_eq node :
  0 <= node < U64_MAX -> sibling_node node = BarrierTree.sibling_node node.
Proof.
  intros. unfold sibling_node, BarrierTree.sibling_node, sat_sub, sat_add.
  change 1 with (Z.ones 1) at 1. rewrite Z.land_ones by lia. change (2 ^ 1) with 2.
  case_if; [done|]. bool_prop. case_if; f_equal; lia.
Qed.

Lemma collect_resolution_nodes_eq n snap fuel h m out :
  tree_wf n snap -> at_height (Z.log2 n) h m -> (h < fuel)%nat ->
  collect_resolution_nodes fuel snap (m - 1) (n - 1) out = out ++ resolution snap h m.
Proof.
  intros Hwf. revert h m out. induction fuel as [|fuel IH]; intros h m out Hm Hf; [lia|].
  cbn [collect_resolution_nodes].
  destruct (at_height_in_range n snap h m Hwf Hm) as [Hr Hb].
  destruct (n_max_bounds n (proj1 Hwf)) as (Hn & Hd & _).
  pose proof (at_height_leaf _ _ _ Hm) as Hleaf. rewrite <- Hn in Hleaf.
  apply vget_is_Some in Hr as [pk Hpk]. rewrite Hpk, Hleaf.
  destruct h as [|h]; cbn [resolution]; rewrite Hpk; destruct pk; cbn; try done.
  - by rewrite app_nil_r.
  - replace (sat_add (sat_mul (m - 1) 2) 1) with (2 * m - 1)
      by (unfold sat_add, sat_mul, U64_MAX; destruct Hm; lia).
    replace (sat_add (sat_mul (m - 1) 2) 2) with (2 * m + 1 - 1)
      by (unfold sat_add, sat_mul, U64_MAX; destruct Hm; lia).
    apply at_height_children in Hm as [Hl Hr].
    rewrite (IH h (2 * m)) by (done || lia). rewrite (IH h (2 * m + 1)) by (done || lia).
    by rewrite (assoc_L (++)).
Qed.

Lemma collect_resolution_nodes_spec n snap h m :
  tree_wf n snap -> at_height (Z.log2 n) h m ->
  collect_resolution_nodes TREE_FUEL snap (m - 1) (n - 1) [] = resolution snap h m.
Proof.
  intros Hwf Hm. rewrite (collect_resolution_nodes_eq n snap _ h); [done|done|done|].
  eapply at_height_fuel; [apply Hwf|done].
Qed.

Lemma blanked_ext snap l1 l2 : (forall x, x ∈ l1 <-> x ∈ l2) -> blanked snap l1 = blanked snap l2.
Proof.
  intros H. apply vget_ext; [by rewrite !len_blanked|]. intros i _. rewrite !vget_blanked.
  by rewrite (bool_decide_ext (i ∈ l1) (i ∈ l2)).
Qed.

Section Records.
  Context (n : Z).

Lemma clear_barrier_path_eq snap slot incl :
  tree_wf n snap -> in_range n slot ->
  clear_barrier_path snap (leaf_node n slot) incl =
    blanked snap (if incl : bool then path_of (leaf_node n slot) else tail (path_of (leaf_node n slot))).
Proof.
  intros Hwf Hs. destruct (leaf_in_range n snap slot Hwf Hs). unfold clear_barrier_path.
  rewrite direct_path_nodes_eq by lia. done.
Qed.

Lemma checked_leaf slot : validate_barrier_n_max n = Ok n -> in_range n slot ->
  checked_add (sat_sub n 1) slot = Some (leaf_node n slot).
Proof.
  intros Hv Hs. destruct (n_max_bounds n Hv) as (_ & _ & ?). unfold in_range in Hs.
  unfold checked_add, sat_sub, leaf_node, U64_MAX. rewrite (proj2 (Z.leb_le _ _)) by lia. f_equal; lia.
Qed.

Lemma leaf_present snap slot : tree_wf n snap -> in_range n slot ->
  bool_decide (vget snap (leaf_node n slot) = None) = false.
Proof.
  intros Hwf Hs. destruct (leaf_in_range n snap slot Hwf Hs) as [H _].
  apply vget_is_Some in H as [x Hx]. apply bool_decide_eq_false. by rewrite Hx.
Qed.

(** The server's join record as the client's. *)
Definition client_join (r : BarrierJoinOccupancyRecord) : BarrierJoinSnapshotRecord :=
  {| join_slot_index := occ_join_slot_index r; join_slot_generation := occ_join_slot_generation r;
     join_ek_leaf := occ_join_ek_leaf r |}.

Definition client_revoked (r : BarrierRevokedOccupancyRecord) : BarrierRevokedSnapshotRecord :=
  {| revoked_slot_index := occ_revoked_slot_index r; revoked_slot_generation := occ_revoked_slot_generation r |}.

Lemma apply_join_records_eq snap records :
  tree_wf n snap -> Forall (fun r => in_range n (occ_join_slot_index r)) records ->
  apply_join_records_to_snapshot snap n records = Ok (foldl (join_leaf n) snap (client_join <$> records)).
Proof.
  intros Hwf Hs. unfold apply_join_records_to_snapshot.
  revert snap Hwf. induction Hs as [|r records Hs _ IH]; intros snap Hwf; cbn [fold_res]; [done|].
  rewrite checked_leaf by (done || apply Hwf). cbn [ok_or mbind result_bind].
  rewrite leaf_present by done. cbn [fail_if mbind result_bind].
  rewrite clear_barrier_path_eq by (done || by apply tree_wf_vset).
  apply IH. by apply tree_wf_blanked, tree_wf_vset.
Qed.

Lemma apply_revoked_loop_eq snap (seen : gset Z) records :
  tree_wf n snap -> Forall (fun r => in_range n (occ_revoked_slot_index r)) records ->
  (forall s i, s ∈ seen -> i ∈ path_of (leaf_node n s) -> vget snap i = (fun _ => []) <$> vget snap i) ->
  fst <$> fold_res (fun (st : snapshot * gset Z) record =>
      let '(entries, seen) := st in
      if bool_decide (occ_revoked_slot_index record ∈ seen) then Ok (entries, seen)
      else
        let seen := {[occ_revoked_slot_index record]} ∪ seen in
        leaf_node ← ok_or (checked_add (sat_sub n 1) (occ_revoked_slot_index record))
                      (InvalidInput "barrier_update malformed");
        fail_if (bool_decide (vget entries leaf_node = None)) (InvalidInput "barrier_update malformed") ;;
        Ok (clear_barrier_path entries leaf_node true, seen)) (snap, seen) records
  = Ok (blanked snap (revoked_nodes n (occ_revoked_slot_index <$> records))).
Proof.
  intros Hwf Hs. revert snap seen Hwf. induction Hs as [|r records Hs _ IH]; intros snap seen Hwf Hseen;
    cbn [fold_res]; [done|].
  case_bool_decide as Hin.
  - cbn [mbind result_bind]. rewrite IH by done. f_equal.
    apply vget_ext; [by rewrite !len_blanked|]. intros i _. rewrite !vget_blanked.
    unfold revoked_nodes. cbn [fmap list_fmap list_bind mbind].
    destruct (decide (i ∈ path_of (leaf_node n (occ_revoked_slot_index r)))) as [Hi|Hi].
    + rewrite (bool_decide_true (i ∈ _ ++ _)) by set_solver.
      rewrite <- (Hseen _ i Hin Hi). by case_if.
    + match goal with |- (if bool_decide ?P then _ else _) = (if bool_decide ?Q then _ else _) =>
        rewrite (bool_decide_ext P Q) end; [done|set_solver].
  - rewrite checked_leaf by (done || apply Hwf). cbn [ok_or mbind result_bind].
    rewrite leaf_present by done. cbn [fail_if mbind result_bind].
    rewrite clear_barrier_path_eq by done.
    rewrite IH; [by rewrite <- blanked_app|by apply tree_wf_blanked|].
    intros s i Hsn Hi. rewrite !vget_blanked. apply elem_of_union in Hsn as [->%elem_of_singleton|Hsn].
    + rewrite bool_decide_true by done. by destruct (vget snap i).
    + pose proof (Hseen s i Hsn Hi) as E.
      destruct (vget snap i); cbn in E; [injection E as ->|]; by case_if.
Qed.

Lemma apply_revoked_records_eq snap records :
  tree_wf n snap -> Forall (fun r => in_range n (occ_revoked_slot_index r)) records ->
  apply_revoked_records_to_snapshot snap n records
  = Ok (blanked snap (revoked_nodes n (occ_revoked_slot_index <$> records))).
Proof. intros. apply apply_revoked_loop_eq; [done|done|]. intros s i Hs. set_solver. Qed.

End Records.

(** ** Properties *)

(** Client and server compute one tree hash: on a validated [n_max] both
    succeed on the same snapshots and return the same digest. *)
Theorem server_client_tree_hash_agree {HS : Hashing} n snap :
  validate_barrier_n_max n = Ok n ->
  result_ok (compute_barrier_tree_hash n snap) = result_ok (BarrierTree.compute_barrier_tree_hash n snap).
Proof.
  intros Hv. destruct (decide (len snap = 2 * n - 1)) as [Hl|Hl].
  - rewrite (server_tree_hash_ok n Hv) by done. rewrite BarrierTree.compute_barrier_tree_hash_ok by done.
    cbn. by rewrite node_digest_root.
  - destruct (n_max_bounds n Hv) as (_ & _ & ?).
    unfold compute_barrier_tree_hash, BarrierTree.compute_barrier_tree_hash. rewrite Hv. cbn -[Z.mul].
    rewrite tree_size_ok by lia. cbn -[Z.mul]. by rewrite (proj2 (Z.eqb_neq _ _)).
Qed.

Lemma server_client_tree_hash_agree_witness :
  let HS := toy_hashing in
  result_ok (compute_barrier_tree_hash 2 [[]; [1]; [2]])
  = result_ok (BarrierTree.compute_barrier_tree_hash 2 [[]; [1]; [2]]).
Proof. intros HS. apply (server_client_tree_hash_agree 2). reflexivity. Defined.

(** Caches put together. *)
Lemma cache_ok_union {HS : Hashing} n snap (c1 c2 : BarrierHashCache) :
  cache_ok n snap c1 ->
  (forall i v, c1 !! i = None -> c2 !! i = Some v -> 0 <= i < 2 * n - 1 /\ v = node_digest n snap i) ->
  cache_ok n snap (c1 ∪ c2).
Proof. intros H1 H2 i v [Hi|[Hni Hi]]%lookup_union_Some_raw; [by apply H1|by apply H2]. Qed.

Lemma cache_ok_base {HS : Hashing} n snap (c : BarrierHashCache) base :
  cache_ok n snap c -> base_ok n snap base -> cache_ok n snap (c ∪ default ∅ base).
Proof.
  intros Hc Hb. apply cache_ok_union; [done|]. intros i v _ Hi.
  destruct base; cbn in Hi; [by apply Hb|]. by rewrite lookup_empty in Hi.
Qed.

(** A cache of one snapshot serves another with the same subtrees. *)
Lemma cache_ok_transfer {HS : Hashing} n old new (c : BarrierHashCache) :
  validate_barrier_n_max n = Ok n -> cache_ok n old c ->
  (forall i v, c !! i = Some v -> same_below n new old i) -> cache_ok n new c.
Proof.
  intros Hv Hc Hs i v Hi. destruct (Hc i v Hi) as [Hr ->]. split; [done|].
  apply node_digest_ext; [done|done|]. intros x Hx. symmetry. by apply (Hs i _ Hi).
Qed.

Lemma tree_hash_with_changes_ok {HS : Hashing} n old new changed base before :
  validate_barrier_n_max n = Ok n -> len new = 2 * n - 1 ->
  (forall i, i ∈ changed -> 0 <= i < 2 * n - 1) ->
  (forall i, 0 <= i < 2 * n - 1 -> i ∉ changed -> vget new i = vget old i) ->
  base_ok n old base -> cache_ok n old before ->
  exists root before' after,
    compute_barrier_tree_hash_with_changes n new changed base before = Ok (root, before', after) /\
    compute_barrier_tree_hash n new = Ok root /\
    cache_ok n old before' /\ grows before before' /\
    cache_ok n new (after ∪ (before' ∪ default ∅ base)).
Proof.
  intros Hv Hlen Hrange Hsame Hbase Hbefore. destruct (n_max_bounds n Hv) as (_ & _ & ?).
  unfold compute_barrier_tree_hash_with_changes. rewrite tree_size_ok by lia. cbn -[Z.mul].
  rewrite Hlen, Z.eqb_refl. cbn -[Z.mul]. case_bool_decide as Hch.
  { rewrite (server_tree_hash_ok n Hv) by done. cbn. eexists _, before, ∅. split_and!; try done.
    - apply grows_refl.
    - rewrite (left_id_L ∅ (∪)). eapply cache_ok_transfer; [done|by apply cache_ok_base|].
      intros i v _ x [Hx _]. apply Hsame; [done|]. subst changed. apply not_elem_of_empty. }
  destruct (existsb _ _) eqn:Eex; cbn -[Z.mul].
  { apply existsb_exists in Eex as (x & Hx%list_elem_of_In & Hle). bool_prop.
    apply elem_of_elements, Hrange in Hx. lia. }
  set (imp := foldl _ _ _).
  assert (forall x, x ∈ imp <-> exists i, i ∈ changed /\ x ∈ path_of i) as Himp.
  { intros x. unfold imp. rewrite impacted_fold_elem; [set_solver|].
    apply Forall_forall. intros i Hi%elem_of_elements%Hrange. unfold U64_MAX. lia. }
  destruct (after_changes_spec n Hv {| hai_n_max := n; hai_n_max_usize := n; hai_updated_entries := new;
      hai_impacted_nodes := imp; hai_base_before_cache := base |} old new eq_refl eq_refl eq_refl Hlen Hbase)
    with (fuel := TREE_FUEL) (i := 0) (before := before) (after := (∅ : BarrierHashCache))
    as (before' & after & -> & Hb' & Ha' & Hg & _ & _ & Hcov).
  - intros i Hi Hni x Hb. apply Hsame; [apply Hb|]. intros Hx. apply Hni, Himp.
    exists x. split; [done|]. apply (below_path n); [lia|done].
  - intros i x Hi Hb Hx. apply Himp in Hx as (c & Hc & Hp). apply Himp. exists c. split; [done|].
    apply elem_of_path_of in Hp as (k & Hk & He). destruct Hb as [_ (j & Hj & Ha)].
    specialize (Hrange c Hc). rewrite He, anc_anc in Ha by lia.
    apply elem_of_path_of. exists (k + j). split; [|lia]. split; [lia|]. apply anc_pos_le_log2; lia.
  - lia.
  - apply height_fuel; [done|lia].
  - done.
  - apply cache_ok_empty.
  - apply closed_for_empty.
  - exists (node_digest n new 0), before', after. split_and!; try done.
    + by apply server_tree_hash_ok.
    + apply cache_ok_union; [done|]. intros i v Hni Hi. apply (cache_ok_base n old before' base) in Hi as [Hr ->]; [|done|done].
      split; [done|]. apply node_digest_ext; [done|done|]. intros x Hb. symmetry. apply Hsame; [apply Hb|]. intros Hx.
      destruct (Hcov i) as [w Hw]; [by apply below_root| |congruence].
      cbn. apply Himp. exists x. split; [done|]. apply (below_path n); [lia|done].
Qed.

(** The incremental rehash is a full rehash.  When the caches hold
    digests of the old snapshot and the new one differs from it only at the
    changed nodes, [compute_barrier_tree_hash_with_changes] returns the tree
    hash of the new snapshot, the old caches stay correct, and the caches
    merged as the server merges them (after over before over base) hold only
    digests of the new snapshot. *)
Theorem compute_barrier_tree_hash_with_changes_correct {HS : Hashing} n old new changed base before :
  validate_barrier_n_max n = Ok n -> len new = 2 * n - 1 ->
  (forall i, i ∈ changed -> 0 <= i < 2 * n - 1) ->
  (forall i, 0 <= i < 2 * n - 1 -> i ∉ changed -> vget new i = vget old i) ->
  base_ok n old base -> cache_ok n old before ->
  exists root before' after,
    compute_barrier_tree_hash_with_changes n new changed base before = Ok (root, before', after) /\
    compute_barrier_tree_hash n new = Ok root /\
    cache_ok n old before' /\ grows before before' /\
    cache_ok n new (after ∪ (before' ∪ default ∅ base)).
Proof. apply tree_hash_with_changes_ok. Qed.

Lemma compute_barrier_tree_hash_with_changes_correct_witness :
  let HS := toy_hashing in
  exists root before' after,
    compute_barrier_tree_hash_with_changes 2 [[9]; [1]; [2]] {[0]} None ∅ = Ok (root, before', after) /\
    compute_barrier_tree_hash 2 [[9]; [1]; [2]] = Ok root.
Proof.
  intros HS.
  destruct (compute_barrier_tree_hash_with_changes_correct 2 [[]; [1]; [2]] [[9]; [1]; [2]] {[0]} None ∅)
    as (r & b & a & H1 & H2 & _).
  - reflexivity.
  - reflexivity.
  - intros i ->%elem_of_singleton. lia.
  - intros i Hi Hne. assert (i = 1 \/ i = 2) as [->| ->] by set_solver by lia; reflexivity.
  - done.
  - apply cache_ok_empty.
  - by exists r, b, a.
Defined.

(** Client and server derive one pre-update snapshot: on a well-formed
    tree and slots inside it, applying join records and then revoked records
    gives the same snapshot on both sides, though the server drops repeated
    slots as it goes and the client sorts and deduplicates them first. *)
Theorem server_client_snapshot_agree n snap joins revoked :
  tree_wf n snap ->
  Forall (fun r => in_range n (occ_join_slot_index r)) joins ->
  Forall (fun r => in_range n (occ_revoked_slot_index r)) revoked ->
  exists pre,
    (s ← apply_join_records_to_snapshot snap n joins;
     apply_revoked_records_to_snapshot s n revoked) = Ok pre /\
    (s ← apply_join_set_to_snapshot snap n (client_join <$> joins);
     BarrierTree.apply_revoked_records_to_snapshot s n (client_revoked <$> revoked)) = Ok pre /\
    tree_wf n pre.
Proof.
  intros Hwf Hj Hr. rewrite apply_join_records_eq by done.
  rewrite apply_join_set_eq by (done || by apply Forall_fmap). cbn.
  pose proof (tree_wf_joins n snap (client_join <$> joins) Hwf) as Hwf'.
  rewrite apply_revoked_records_eq by done.
  unfold BarrierTree.apply_revoked_records_to_snapshot.
  rewrite apply_revoked_set_eq; [|done|].
  - eexists. split; [done|]. split; [|by apply tree_wf_blanked]. f_equal. apply blanked_ext. intros x.
    rewrite !elem_of_revoked_nodes. setoid_rewrite revoked_slot_indices_elem_of.
    by rewrite <- list_fmap_compose.
  - apply Forall_forall. intros s Hs. rewrite revoked_slot_indices_elem_of in Hs.
    rewrite <- list_fmap_compose in Hs. apply list_elem_of_fmap in Hs as (r & -> & Hin).
    rewrite Forall_forall in Hr. by apply Hr.
Qed.

Lemma server_client_snapshot_agree_witness :
  exists pre,
    (s ← apply_join_records_to_snapshot [[]; []; []] 2
           [{| occ_join_slot_index := 0; occ_join_slot_generation := 0; occ_join_ek_leaf := [7] |}];
     apply_revoked_records_to_snapshot s 2
       [{| occ_revoked_slot_index := 1; occ_revoked_slot_generation := 0 |};
        {| occ_revoked_slot_index := 1; occ_revoked_slot_generation := 1 |}]) = Ok pre.
Proof.
  edestruct (server_client_snapshot_agree 2 [[]; []; []]) as (pre & H & _); [by split| | |exists pre; exact H].
  - repeat constructor; cbn; lia.
  - repeat constructor; cbn; lia.
Defined.
