(* ===== verification/BarrierWire.v ===== *)
(** * The barrier-update wire format

    The wire types of a barrier update and its three parsers: the client's
    ([crates/cityg-client/src/barrier_update.rs]), the acceptor's
    ([crates/msphf-orchestrator/src/accept/barrier.rs]) and the server's
    ([parse_barrier_update] of [crates/cityg-server/src/lib.rs]).  The parsers
    walk the same loops over paths, public keys and ciphertexts; the loops are
    defined once, over the error value each parser returns.  The theorems
    characterise what each parser accepts by one predicate, [wire_wf], and so
    relate the three. *)

From S2P Require Import Prelude Hash Errors Header Heap BarrierTree.

Definition PUBLIC_KEY_BYTES : Z := 1184.
Definition SECRET_KEY_BYTES : Z := 2400.
Definition CIPHERTEXT_BYTES : Z := 1088.


(** ** Wire types *)

Record NodeCiphertextWire := {
  ncw_source : Z;
  ncw_target : Z;
  ncw_target_pk_hash : bytes;
  ncw_kem_ct : bytes;
  ncw_wrapped_ps : bytes
}.

Record NewPublicKeyWire := { npk_node : Z; npk_ek : bytes }.

Record KemTreeCoverPayloadWire := {
  cpw_updater_slot_index : Z;
  cpw_updater_slot_generation : Z;
  cpw_path_nodes : list Z;
  cpw_revoked_hint : option (list Z);
  cpw_node_ciphertexts : list NodeCiphertextWire;
  cpw_new_public_keys : list NewPublicKeyWire
}.

Record BarrierUpdateWire := {
  buw_mode : string;
  buw_barrier_version : Z;
  buw_prev_barrier_version : Z;
  buw_tree_size : Z;
  buw_revocation_roots_hash : bytes;
  buw_kem_tree_hash_before : bytes;
  buw_kem_tree_hash_after : bytes;
  buw_cover_payload : bytes
}.

Definition ciphertext_value (c : NodeCiphertextWire) : Value :=
  VArray [VInteger (ncw_source c); VInteger (ncw_target c); VBytes (ncw_target_pk_hash c);
          VBytes (ncw_kem_ct c); VBytes (ncw_wrapped_ps c)].

Definition public_key_value (k : NewPublicKeyWire) : Value :=
  VArray [VInteger (npk_node k); VBytes (npk_ek k)].

Definition cover_value (c : KemTreeCoverPayloadWire) : Value :=
  VArray [VInteger (cpw_updater_slot_index c); VInteger (cpw_updater_slot_generation c);
          VArray (VInteger <$> cpw_path_nodes c);
          match cpw_revoked_hint c with None => VNull | Some l => VArray (VInteger <$> l) end;
          VArray (ciphertext_value <$> cpw_node_ciphertexts c);
          VArray (public_key_value <$> cpw_new_public_keys c)].

Definition update_value (w : BarrierUpdateWire) : Value :=
  VArray [VText (buw_mode w); VInteger (buw_barrier_version w); VInteger (buw_prev_barrier_version w);
          VInteger (buw_tree_size w); VBytes (buw_revocation_roots_hash w);
          VBytes (buw_kem_tree_hash_before w); VBytes (buw_kem_tree_hash_after w);
          VBytes (buw_cover_payload w)].

(** [ciborium::de::from_reader] at the two wire types.  A decoded integer of
    type [u64] is in range; an encoded value decodes to itself. *)
Class WireCodec := {
  decode_update : bytes -> option BarrierUpdateWire;
  decode_cover : bytes -> option KemTreeCoverPayloadWire
}.

Definition cover_u64 (c : KemTreeCoverPayloadWire) : Prop :=
  is_u64 (cpw_updater_slot_index c) /\ is_u64 (cpw_updater_slot_generation c) /\
  Forall is_u64 (cpw_path_nodes c) /\ Forall is_u64 (default [] (cpw_revoked_hint c)) /\
  Forall (fun x => is_u64 (ncw_source x) /\ is_u64 (ncw_target x)) (cpw_node_ciphertexts c) /\
  Forall (fun x => is_u64 (npk_node x)) (cpw_new_public_keys c).

Definition update_u64 (w : BarrierUpdateWire) : Prop :=
  is_u64 (buw_barrier_version w) /\ is_u64 (buw_prev_barrier_version w) /\ is_u64 (buw_tree_size w).

Class WireCodecLaws {HS : Hashing} (WC : WireCodec) := {
  decode_update_u64 : forall raw w, decode_update raw = Some w -> update_u64 w;
  decode_cover_u64 : forall raw c, decode_cover raw = Some c -> cover_u64 c;
  decode_encode_update : forall w, update_u64 w -> decode_update (cbor (update_value w)) = Some w;
  decode_encode_cover : forall c, cover_u64 c -> decode_cover (cbor (cover_value c)) = Some c
}.

(** ** Loops of the parsers *)

Section Loops.
  Context {E : Type} (err : string -> E).

(** [for node in path { if node > max .. ; if !seen.insert(node) .. }] *)
Definition path_seen_loop (max_index : Z) (path : list Z) : result E (gset Z) :=
  fold_res (fun (seen : gset Z) node =>
      fail_if (max_index <? node) (err "path node out of range") ;;
      fail_if (bool_decide (node ∈ seen)) (err "duplicate path node") ;;
      Ok ({[node]} ∪ seen)) ∅ path.

(** [for pair in path.windows(2) { .. (child - 1) / 2 != parent .. }] *)
Fixpoint windows_loop (path : list Z) : result E unit :=
  match path with
  | child :: (parent :: _) as tl =>
      fail_if ((child =? 0) || negb ((child - 1) / 2 =? parent)) (err "invalid parent chain") ;;
      windows_loop tl
  | _ => Ok tt
  end.

(** [prev.is_some_and(|p| p >= value)] *)
Definition prev_ge (prev : option Z) (value : Z) : bool :=
  match prev with Some p => value <=? p | None => false end.

Definition hint_loop (hint : option (list Z)) : result E (option Z) :=
  fold_res (fun prev value =>
      fail_if (prev_ge prev value) (err "hint not increasing") ;; Ok (Some value))
    None (default [] hint).

(** The loop over [new_public_keys]: previous node, nodes seen. *)
Definition keys_loop (max_index leaf_base : Z) (keys : list NewPublicKeyWire)
    : result E (option Z * gset Z) :=
  fold_res (fun '(prev, seen) k =>
      fail_if (max_index <? npk_node k) (err "new_public_keys node out of range") ;;
      fail_if (leaf_base <=? npk_node k) (err "new_public_keys may reference only internal nodes") ;;
      fail_if (negb (len (npk_ek k) =? PUBLIC_KEY_BYTES)) (err "new_public_keys ek length") ;;
      fail_if (prev_ge prev (npk_node k)) (err "new_public_keys must be sorted") ;;
      fail_if (bool_decide (npk_node k ∈ (seen : gset Z))) (err "new_public_keys duplicate") ;;
      Ok (Some (npk_node k), {[npk_node k]} ∪ seen)) (None, ∅) keys.

(** The order of [(u64, u64)]. *)
Definition pair_leb (a b : Z * Z) : bool := (a.1 <? b.1) || ((a.1 =? b.1) && (a.2 <=? b.2)).

Definition prev_pair_ge (prev : option (Z * Z)) (pair : Z * Z) : bool :=
  match prev with Some p => pair_leb pair p | None => false end.

(** The loop over [node_ciphertexts]. *)
Definition ciphertexts_loop (max_index : Z) (cts : list NodeCiphertextWire)
    : result E (option (Z * Z)) :=
  fold_res (fun prev c =>
      fail_if ((max_index <? ncw_source c) || (max_index <? ncw_target c)) (err "node_ciphertext index out of range") ;;
      fail_if (negb (len (ncw_target_pk_hash c) =? 16)) (err "target_pk_hash must be 16 bytes") ;;
      fail_if (negb (len (ncw_kem_ct c) =? CIPHERTEXT_BYTES)) (err "kem_ct length mismatch") ;;
      fail_if (negb (len (ncw_wrapped_ps c) =? 48)) (err "wrapped_ps must be 48 bytes") ;;
      fail_if (prev_pair_ge prev (ncw_source c, ncw_target c)) (err "node_ciphertexts must be sorted") ;;
      Ok (Some (ncw_source c, ncw_target c))) None cts.

(** [bytes.try_into::<[u8; n]>()] *)
Definition to_array (n : Z) (b : bytes) : result E bytes :=
  fail_if (negb (len b =? n)) (err "wrong length") ;; Ok b.

(** The [HashSet]/[BTreeSet] of [path_nodes.iter().skip(1)]. *)
Definition expected_node_set (path : list Z) : gset Z := list_to_set (tail path).

(** Decode, re-encode, compare. *)
Definition parse_deterministic_cbor {HS : Hashing} {T} (decode : bytes -> option T)
    (to_value : T -> Value) (raw : bytes) : result E T :=
  decoded ← ok_or (decode raw) (err "cbor decode");
  fail_if (negb (bytes_eqb (cbor (to_value decoded)) raw)) (err "non-canonical encoding") ;;
  Ok decoded.

End Loops.

(** ** The client's parser *)

Record ParsedNodeCiphertext := {
  pnc_source_node : Z;
  pnc_target_node : Z;
  pnc_target_pk_hash : bytes;
  pnc_kem_ct : bytes;
  pnc_wrapped_ps : bytes
}.

(** [new_public_keys] is a [BTreeMap]: its entries in key order. *)
Record ParsedBarrierUpdate := {
  pbu_barrier_version : Z;
  pbu_prev_barrier_version : Z;
  pbu_tree_size : Z;
  pbu_revocation_roots_hash : bytes;
  pbu_kem_tree_hash_before : bytes;
  pbu_kem_tree_hash_after : bytes;
  pbu_updater_slot_index : Z;
  pbu_updater_slot_generation : Z;
  pbu_path_nodes : list Z;
  pbu_node_ciphertexts : list ParsedNodeCiphertext;
  pbu_new_public_keys : list (Z * bytes)
}.

Definition parsed_ciphertext (c : NodeCiphertextWire) : ParsedNodeCiphertext :=
  {| pnc_source_node := ncw_source c; pnc_target_node := ncw_target c;
     pnc_target_pk_hash := ncw_target_pk_hash c; pnc_kem_ct := ncw_kem_ct c;
     pnc_wrapped_ps := ncw_wrapped_ps c |}.

Definition parsed_key (k : NewPublicKeyWire) : Z * bytes := (npk_node k, npk_ek k).

Section Parsers.
  Context {HS : Hashing} {WC : WireCodec}.

Definition normalize_max_barrier_update_bytes (limit : Z) : result string Z :=
  fail_if (limit =? 0) "max_barrier_update_bytes must be positive" ;; Ok limit.

Definition compute_barrier_update_digest (raw_update : bytes) : result string bytes :=
  h_l "barrier/update/digest" (VBytes raw_update).

Definition parse_barrier_update_for_recover (raw_update : bytes) (expected_n_max : Z)
    (max_barrier_update_bytes : Z) : result string ParsedBarrierUpdate :=
  let err s := s in
  fail_if (max_barrier_update_bytes <? len raw_update) "barrier_update exceeds max_barrier_update_bytes" ;;
  expected_n_max ← validate_barrier_n_max expected_n_max;
  w ← parse_deterministic_cbor err decode_update update_value raw_update;
  fail_if (negb (bool_decide (buw_mode w = "barrier-v1"))) "unsupported barrier update mode" ;;
  fail_if (negb (buw_tree_size w =? expected_n_max)) "barrier tree_size mismatch" ;;
  c ← parse_deterministic_cbor err decode_cover cover_value (buw_cover_payload w);
  fail_if (expected_n_max <=? cpw_updater_slot_index c) "barrier updater_slot_index out of range" ;;
  expected_nodes ← ok_or (v ← checked_mul expected_n_max 2; checked_sub v 1) "barrier tree size overflow";
  let max_index := sat_sub expected_nodes 1 in
  let leaf_base := sat_sub expected_n_max 1 in
  let expected_leaf := sat_add leaf_base (cpw_updater_slot_index c) in
  let path_nodes := cpw_path_nodes c in
  fail_if (len path_nodes =? 0) "barrier path_nodes must be non-empty" ;;
  fail_if (negb (bool_decide (head path_nodes = Some expected_leaf)))
    "barrier path_nodes must start at updater leaf node" ;;
  fail_if (negb (bool_decide (last path_nodes = Some 0))) "barrier path_nodes must end at root node" ;;
  path_seen_loop err max_index path_nodes ;;
  windows_loop err path_nodes ;;
  fail_if (negb (len (cpw_new_public_keys c) =? Z.of_nat (size (expected_node_set path_nodes))))
    "barrier new_public_keys length does not match ExpectedNodeSet" ;;
  seen ← keys_loop err max_index leaf_base (cpw_new_public_keys c);
  fail_if (negb (bool_decide (seen.2 = expected_node_set path_nodes)))
    "barrier new_public_keys must match ExpectedNodeSet exactly" ;;
  ciphertexts_loop err max_index (cpw_node_ciphertexts c) ;;
  rrh ← to_array err 32 (buw_revocation_roots_hash w);
  before ← to_array err 32 (buw_kem_tree_hash_before w);
  after ← to_array err 32 (buw_kem_tree_hash_after w);
  Ok {| pbu_barrier_version := buw_barrier_version w;
        pbu_prev_barrier_version := buw_prev_barrier_version w;
        pbu_tree_size := buw_tree_size w;
        pbu_revocation_roots_hash := rrh;
        pbu_kem_tree_hash_before := before;
        pbu_kem_tree_hash_after := after;
        pbu_updater_slot_index := cpw_updater_slot_index c;
        pbu_updater_slot_generation := cpw_updater_slot_generation c;
        pbu_path_nodes := path_nodes;
        pbu_node_ciphertexts := parsed_ciphertext <$> cpw_node_ciphertexts c;
        pbu_new_public_keys := parsed_key <$> cpw_new_public_keys c |}.

(** ** The acceptor's parser *)

Record AcceptParsedBarrierUpdate := {
  apu_barrier_version : Z;
  apu_prev_barrier_version : Z;
  apu_tree_size : Z;
  apu_updater_slot_index : Z;
  apu_updater_slot_generation : Z;
  apu_revocation_roots_hash : bytes;
  apu_kem_tree_hash_before : bytes;
  apu_kem_tree_hash_after : bytes
}.

(** [malformed_at]: every structural failure is one freeze. *)
Definition malformed_at (detail : string) : AcceptanceError := AFreeze FREEZE_BARRIER_UPDATE_MALFORMED.

Definition validate_revoked_hint (hint : option (list Z)) : result AcceptanceError unit :=
  hint_loop malformed_at hint ;; Ok tt.

Definition validate_path_nodes (path_nodes : list Z) (updater_slot_index n_max max_index : Z)
    : result AcceptanceError unit :=
  fail_if (len path_nodes =? 0) (malformed_at "path_nodes must not be empty") ;;
  fail_if (n_max <=? updater_slot_index) (malformed_at "updater_slot_index out of range") ;;
  let leaf_base := sat_sub n_max 1 in
  expected_first ← ok_or (checked_add leaf_base updater_slot_index) (malformed_at "overflow");
  fail_if (negb (bool_decide (head path_nodes = Some expected_first))) (malformed_at "first path node") ;;
  fail_if (negb (bool_decide (last path_nodes = Some 0))) (malformed_at "path must terminate at root") ;;
  path_seen_loop malformed_at max_index path_nodes ;;
  windows_loop malformed_at path_nodes.

Definition validate_new_public_keys (keys : list NewPublicKeyWire) (path_nodes : list Z)
    (n_max max_index : Z) : result AcceptanceError unit :=
  let leaf_base := sat_sub n_max 1 in
  let expected_set := expected_node_set path_nodes in
  fail_if (negb (len keys =? Z.of_nat (size expected_set))) (malformed_at "new_public_keys length") ;;
  seen ← keys_loop malformed_at max_index leaf_base keys;
  fail_if (negb (bool_decide (seen.2 = expected_set))) (malformed_at "new_public_keys nodes") ;;
  Ok tt.

Definition validate_node_ciphertexts (cts : list NodeCiphertextWire) (max_index : Z)
    : result AcceptanceError unit :=
  ciphertexts_loop malformed_at max_index cts ;; Ok tt.

Definition parse_barrier_update_from_header (hdr : header) (expected_n_max : Z)
    (max_barrier_update_bytes : Z) : result AcceptanceError AcceptParsedBarrierUpdate :=
  fail_if ((expected_n_max =? 0) || negb (is_power_of_two expected_n_max)) (malformed_at "expected_n_max") ;;
  raw_update ← match hdr !! HDR_BARRIER_UPDATE with
               | Some (VBytes raw) => Ok raw
               | _ => Err (malformed_at "missing HDR_BARRIER_UPDATE bytes field")
               end;
  fail_if (max_barrier_update_bytes <? len raw_update) (malformed_at "exceeds max bytes") ;;
  w ← parse_deterministic_cbor malformed_at decode_update update_value raw_update;
  fail_if (negb (bool_decide (buw_mode w = "barrier-v1"))) (malformed_at "mode") ;;
  fail_if (negb (buw_tree_size w =? expected_n_max)) (malformed_at "tree_size") ;;
  c ← parse_deterministic_cbor malformed_at decode_cover cover_value (buw_cover_payload w);
  max_index ← ok_or (v ← checked_mul expected_n_max 2; checked_sub v 2) (malformed_at "max_index");
  validate_revoked_hint (cpw_revoked_hint c) ;;
  validate_path_nodes (cpw_path_nodes c) (cpw_updater_slot_index c) expected_n_max max_index ;;
  validate_node_ciphertexts (cpw_node_ciphertexts c) max_index ;;
  validate_new_public_keys (cpw_new_public_keys c) (cpw_path_nodes c) expected_n_max max_index ;;
  rrh ← to_array malformed_at 32 (buw_revocation_roots_hash w);
  before ← to_array malformed_at 32 (buw_kem_tree_hash_before w);
  after ← to_array malformed_at 32 (buw_kem_tree_hash_after w);
  Ok {| apu_barrier_version := buw_barrier_version w;
        apu_prev_barrier_version := buw_prev_barrier_version w;
        apu_tree_size := buw_tree_size w;
        apu_updater_slot_index := cpw_updater_slot_index c;
        apu_updater_slot_generation := cpw_updater_slot_generation c;
        apu_revocation_roots_hash := rrh;
        apu_kem_tree_hash_before := before;
        apu_kem_tree_hash_after := after |}.

(** ** The server's parser *)

Record ServerParsedNodeCiphertext := {
  spn_source_node : Z;
  spn_target_node : Z;
  spn_target_pk_hash : bytes
}.

Record ServerParsedBarrierUpdate := {
  spu_prev_barrier_version : Z;
  spu_updater_slot_index : Z;
  spu_updater_slot_generation : Z;
  spu_tree_size : Z;
  spu_revocation_roots_hash : bytes;
  spu_kem_tree_hash_before : bytes;
  spu_kem_tree_hash_after : bytes;
  spu_path_nodes : list Z;
  spu_node_ciphertexts : list ServerParsedNodeCiphertext;
  spu_new_public_keys : list (Z * bytes)
}.

Definition update_malformed (detail : string) : CityGError := InvalidInput "barrier_update malformed".

Definition server_ciphertext (c : NodeCiphertextWire) : ServerParsedNodeCiphertext :=
  {| spn_source_node := ncw_source c; spn_target_node := ncw_target c;
     spn_target_pk_hash := ncw_target_pk_hash c |}.

Definition parse_barrier_update (hdr : header) (expected_n_max : Z)
    : result CityGError (option ServerParsedBarrierUpdate) :=
  match hdr !! HDR_BARRIER_UPDATE with
  | Some (VBytes raw_update) =>
      let err := update_malformed in
      fail_if ((expected_n_max =? 0) || negb (is_power_of_two expected_n_max)) (err "n_max") ;;
      w ← parse_deterministic_cbor err decode_update update_value raw_update;
      fail_if (negb (bool_decide (buw_mode w = "barrier-v1")) || negb (buw_tree_size w =? expected_n_max))
        (err "mode or tree_size") ;;
      c ← parse_deterministic_cbor err decode_cover cover_value (buw_cover_payload w);
      max_index ← ok_or (v ← checked_mul expected_n_max 2; checked_sub v 2) (err "max_index");
      let leaf_base := sat_sub expected_n_max 1 in
      let path_nodes := cpw_path_nodes c in
      fail_if ((len path_nodes =? 0) || (expected_n_max <=? cpw_updater_slot_index c)) (err "path or slot") ;;
      expected_leaf ← ok_or (checked_add leaf_base (cpw_updater_slot_index c)) (err "leaf");
      fail_if (negb (bool_decide (head path_nodes = Some expected_leaf))
               || negb (bool_decide (last path_nodes = Some 0))) (err "path ends") ;;
      path_seen_loop err max_index path_nodes ;;
      windows_loop err path_nodes ;;
      hint_loop err (cpw_revoked_hint c) ;;
      fail_if (negb (len (cpw_new_public_keys c) =? Z.of_nat (size (expected_node_set path_nodes)))) (err "keys") ;;
      seen ← keys_loop err max_index leaf_base (cpw_new_public_keys c);
      fail_if (negb (bool_decide (seen.2 = expected_node_set path_nodes))) (err "key set") ;;
      ciphertexts_loop err max_index (cpw_node_ciphertexts c) ;;
      rrh ← to_array err 32 (buw_revocation_roots_hash w);
      before ← to_array err 32 (buw_kem_tree_hash_before w);
      after ← to_array err 32 (buw_kem_tree_hash_after w);
      Ok (Some
        {| spu_prev_barrier_version := buw_prev_barrier_version w;
           spu_updater_slot_index := cpw_updater_slot_index c;
           spu_updater_slot_generation := cpw_updater_slot_generation c;
           spu_tree_size := buw_tree_size w;
           spu_revocation_roots_hash := rrh;
           spu_kem_tree_hash_before := before;
           spu_kem_tree_hash_after := after;
           spu_path_nodes := path_nodes;
           spu_node_ciphertexts := server_ciphertext <$> cpw_node_ciphertexts c;
           spu_new_public_keys := parsed_key <$> cpw_new_public_keys c |})
  | _ => Ok None
  end.

End Parsers.

(** ** What the parsers accept *)

Definition pair_lt (a b : Z * Z) : Prop := a.1 < b.1 \/ (a.1 = b.1 /\ a.2 < b.2).

Definition ciphertext_wf (n : Z) (c : NodeCiphertextWire) : Prop :=
  ncw_source c <= 2 * n - 2 /\ ncw_target c <= 2 * n - 2 /\ len (ncw_target_pk_hash c) = 16 /\
  len (ncw_kem_ct c) = CIPHERTEXT_BYTES /\ len (ncw_wrapped_ps c) = 48.

Definition ct_pair (c : NodeCiphertextWire) : Z * Z := (ncw_source c, ncw_target c).

(** A well-formed update for a tree of [n] leaves: the path is the direct
    path of the updater's leaf, there is one key of the right length for every
    internal node of the path, in increasing node order, and the ciphertexts
    have the right lengths and strictly increasing (source, target) pairs. *)
Record wire_wf (n : Z) (w : BarrierUpdateWire) (c : KemTreeCoverPayloadWire) : Prop := {
  wf_mode : buw_mode w = "barrier-v1";
  wf_tree_size : buw_tree_size w = n;
  wf_slot : 0 <= cpw_updater_slot_index c < n;
  wf_path : cpw_path_nodes c = path_of (leaf_node n (cpw_updater_slot_index c));
  wf_keys : npk_node <$> cpw_new_public_keys c = reverse (tail (cpw_path_nodes c));
  wf_key_len : Forall (fun k => len (npk_ek k) = PUBLIC_KEY_BYTES) (cpw_new_public_keys c);
  wf_cts : Forall (ciphertext_wf n) (cpw_node_ciphertexts c);
  wf_cts_sorted : StronglySorted pair_lt (ct_pair <$> cpw_node_ciphertexts c);
  wf_rrh : len (buw_revocation_roots_hash w) = 32;
  wf_before : len (buw_kem_tree_hash_before w) = 32;
  wf_after : len (buw_kem_tree_hash_after w) = 32
}.

Definition hint_wf (c : KemTreeCoverPayloadWire) : Prop :=
  StronglySorted Z.lt (default [] (cpw_revoked_hint c)).

(** [raw] is the canonical encoding of [w], whose payload is that of [c]. *)
Definition decodes_to {HS : Hashing} {WC : WireCodec} (raw : bytes)
    (w : BarrierUpdateWire) (c : KemTreeCoverPayloadWire) : Prop :=
  decode_update raw = Some w /\ cbor (update_value w) = raw /\
  decode_cover (buw_cover_payload w) = Some c /\ cbor (cover_value c) = buw_cover_payload w.

(** ** Loop lemmas *)

Section LoopLemmas.
  Context {E : Type} (err : string -> E).

Lemma path_seen_loop_ok max path :
  NoDup path -> Forall (fun node => node <= max) path -> exists s, path_seen_loop err max path = Ok s.
Proof.
  unfold path_seen_loop. intros Hnd Hle.
  assert (forall x, x ∈ path -> x ∉ (∅ : gset Z)) as Hdis by set_solver.
  revert Hdis. generalize (∅ : gset Z) as seen.
  induction path as [|x path IH]; intros seen Hdis; cbn; [eauto|].
  apply NoDup_cons in Hnd as [Hx Hnd]. apply Forall_cons in Hle as [Hxm Hle].
  rewrite (proj2 (Z.ltb_ge max x)) by lia. cbn.
  rewrite bool_decide_false by set_solver. cbn. apply IH; [done|done|set_solver].
Qed.

Lemma windows_loop_path x l :
  0 <= x -> windows_loop err (x :: l) = Ok tt -> last (x :: l) = Some 0 -> x :: l = path_of x.
Proof.
  revert x; induction l as [|y l IH]; intros x Hx Hw Hl.
  - injection Hl as ->. done.
  - rewrite last_cons_cons in Hl.
    change (windows_loop err (x :: y :: l)) with
      (fail_if ((x =? 0) || negb ((x - 1) / 2 =? y)) (err "invalid parent chain") ;;
       windows_loop err (y :: l)) in Hw.
    inv_all. bool_prop. subst. rewrite path_of_step by lia. f_equal.
    apply IH; [apply Z.div_pos; lia|by destruct x0|done].
Qed.

Lemma windows_loop_ok node : 0 <= node -> windows_loop err (path_of node) = Ok tt.
Proof.
  revert node. apply path_of_ind; [done|]. intros node Hn IH. rewrite path_of_step by done.
  destruct (path_of_head ((node - 1) / 2)) as [tl Htl]; [apply Z.div_pos; lia|].
  rewrite Htl in *. cbn [windows_loop]. rewrite (proj2 (Z.eqb_neq node 0)), Z.eqb_refl by lia. done.
Qed.

Definition prev_lt (prev : option Z) (x : Z) : Prop := forall p, prev = Some p -> p < x.

Lemma prev_ge_spec prev x : prev_ge prev x = false <-> prev_lt prev x.
Proof.
  unfold prev_ge, prev_lt. destruct prev; [|naive_solver]. rewrite Z.leb_gt. naive_solver.
Qed.

Lemma hint_loop_spec hint :
  (exists p, hint_loop err hint = Ok p) <-> StronglySorted Z.lt (default [] hint).
Proof.
  unfold hint_loop. generalize (default [] hint) as l. intros l.
  assert (forall prev, (exists p, fold_res (fun prev value =>
      fail_if (prev_ge prev value) (err "hint not increasing") ;; Ok (Some value)) prev l = Ok p) <->
    StronglySorted Z.lt l /\ Forall (prev_lt prev) l) as H.
  { induction l as [|x l IH]; intros prev; cbn [fold_res].
    - split; [intros _; split; constructor|eauto].
    - rewrite StronglySorted_cons, Forall_cons. rewrite <- prev_ge_spec.
      destruct (prev_ge prev x) eqn:Ep; cbn; [naive_solver|].
      rewrite IH. assert (Forall (prev_lt (Some x)) l <-> Forall (Z.lt x) l) as ->.
      { apply Forall_iff. intros y. unfold prev_lt. naive_solver. }
      split; [intros [Hs Hx]|naive_solver]. split_and!; try done.
      apply prev_ge_spec in Ep. eapply Forall_impl; [exact Hx|].
      intros y Hy p Hp. specialize (Ep p Hp). lia. }
  rewrite H. split; [by intros [? _]|]. intros Hs. split; [done|].
  apply Forall_true. intros x p [=].
Qed.

Definition key_wf (max lb : Z) (k : NewPublicKeyWire) : Prop :=
  npk_node k <= max /\ npk_node k < lb /\ len (npk_ek k) = PUBLIC_KEY_BYTES.

Definition keys_step max lb : option Z * gset Z -> NewPublicKeyWire -> result E (option Z * gset Z) :=
  fun '(prev, seen) k =>
      fail_if (max <? npk_node k) (err "new_public_keys node out of range") ;;
      fail_if (lb <=? npk_node k) (err "new_public_keys may reference only internal nodes") ;;
      fail_if (negb (len (npk_ek k) =? PUBLIC_KEY_BYTES)) (err "new_public_keys ek length") ;;
      fail_if (prev_ge prev (npk_node k)) (err "new_public_keys must be sorted") ;;
      fail_if (bool_decide (npk_node k ∈ (seen : gset Z))) (err "new_public_keys duplicate") ;;
      Ok (Some (npk_node k), {[npk_node k]} ∪ seen).

Lemma keys_step_spec max lb prev (seen : gset Z) k r :
  (forall x, x ∈ seen -> exists p, prev = Some p /\ x <= p) ->
  keys_step max lb (prev, seen) k = Ok r <->
  key_wf max lb k /\ prev_lt prev (npk_node k) /\ r = (Some (npk_node k), {[npk_node k]} ∪ seen).
Proof.
  intros Hseen. unfold keys_step, key_wf. rewrite <- prev_ge_spec. split.
  - intros H. inv_all. bool_prop. done.
  - intros ((H1 & H2 & H3) & H4 & ->).
    rewrite (proj2 (Z.ltb_ge _ _)), (proj2 (Z.leb_gt _ _)), (proj2 (Z.eqb_eq _ _)), H4 by lia. cbn.
    rewrite bool_decide_false; [done|]. intros Hin. apply Hseen in Hin as (p & -> & Hp).
    apply prev_ge_spec in H4. specialize (H4 p eq_refl). lia.
Qed.

Lemma keys_loop_spec max lb keys (s : gset Z) :
  (exists p, keys_loop err max lb keys = Ok (p, s)) <->
  Forall (key_wf max lb) keys /\ StronglySorted Z.lt (npk_node <$> keys) /\
  s = list_to_set (npk_node <$> keys).
Proof.
  assert (forall prev (seen : gset Z), (forall x, x ∈ seen -> exists p, prev = Some p /\ x <= p) ->
    (exists p, fold_res (keys_step max lb) (prev, seen) keys = Ok (p, s)) <->
    Forall (key_wf max lb) keys /\ StronglySorted Z.lt (npk_node <$> keys) /\
    Forall (prev_lt prev) (npk_node <$> keys) /\ s = list_to_set (npk_node <$> keys) ∪ seen) as H.
  { induction keys as [|k keys IH]; intros prev seen Hseen; cbn [fold_res fmap list_fmap].
    - split.
      + intros [p [= _ <-]]. cbn. split_and!; [by apply Forall_nil|constructor|by apply Forall_nil|set_solver].
      + intros (_ & _ & _ & ->). exists prev. do 2 f_equal. set_solver.
    - assert (forall x, x ∈ ({[npk_node k]} ∪ seen : gset Z) -> prev_lt prev (npk_node k) ->
        exists p, Some (npk_node k) = Some p /\ x <= p) as Hseen'.
      { intros x Hx Hp. eexists. split; [done|]. apply elem_of_union in Hx as [->%elem_of_singleton|Hx]; [done|].
        apply Hseen in Hx as (p & -> & Hxp). specialize (Hp p eq_refl). lia. }
      rewrite StronglySorted_cons, !Forall_cons. split.
      + intros [p Hf]. destruct (keys_step max lb (prev, seen) k) as [r|] eqn:Ek; [|discriminate].
        apply keys_step_spec in Ek as (Hk & Hp & ->); [|done]. cbn in Hf.
        destruct (IH (Some (npk_node k)) ({[npk_node k]} ∪ seen)) as [IH1 _]; [by eauto|].
        destruct IH1 as (H1 & H2 & H3 & ->); [eauto|]. split_and!; try done.
        * eapply Forall_impl; [exact H3|]. intros x Hx. by apply Hx.
        * eapply Forall_impl; [exact H3|]. intros x Hx q Hq. specialize (Hp q Hq). specialize (Hx _ eq_refl). lia.
        * cbn. set_solver.
      + intros ([Hk Hks] & [Hlt Hs] & [Hp Hps] & ->).
        rewrite (proj2 (keys_step_spec max lb prev seen k (Some (npk_node k), {[npk_node k]} ∪ seen) Hseen)) by done.
        cbn. apply IH; [by eauto|]. split_and!; try done; [|set_solver].
        eapply Forall_impl; [exact Hlt|]. intros x Hx q [= <-]. done. }
  unfold keys_loop. fold (keys_step max lb). rewrite H by set_solver. split.
  - intros (? & ? & _ & ->). split_and!; try done. set_solver.
  - intros (? & ? & ->). split_and!; try done; [|set_solver]. apply Forall_true. intros x p [=].
Qed.

Definition prev_pair_lt (prev : option (Z * Z)) (x : Z * Z) : Prop := forall p, prev = Some p -> pair_lt p x.

Lemma prev_pair_ge_spec prev x : prev_pair_ge prev x = false <-> prev_pair_lt prev x.
Proof.
  unfold prev_pair_ge, prev_pair_lt, pair_leb, pair_lt. destruct prev as [p|]; [|naive_solver].
  split.
  - intros H q [= <-]. bool_prop. destruct (x.1 =? p.1) eqn:E1; cbn in *; bool_prop; lia.
  - intros H. specialize (H p eq_refl). apply orb_false_iff. split; [apply Z.ltb_ge; lia|].
    destruct (x.1 =? p.1) eqn:E1; cbn; bool_prop; [apply Z.leb_gt; lia|done].
Qed.

Lemma pair_lt_trans a b c : pair_lt a b -> pair_lt b c -> pair_lt a c.
Proof. unfold pair_lt. lia. Qed.

Definition cts_step max (prev : option (Z * Z)) (c : NodeCiphertextWire) : result E (option (Z * Z)) :=
      fail_if ((max <? ncw_source c) || (max <? ncw_target c)) (err "node_ciphertext index out of range") ;;
      fail_if (negb (len (ncw_target_pk_hash c) =? 16)) (err "target_pk_hash must be 16 bytes") ;;
      fail_if (negb (len (ncw_kem_ct c) =? CIPHERTEXT_BYTES)) (err "kem_ct length mismatch") ;;
      fail_if (negb (len (ncw_wrapped_ps c) =? 48)) (err "wrapped_ps must be 48 bytes") ;;
      fail_if (prev_pair_ge prev (ncw_source c, ncw_target c)) (err "node_ciphertexts must be sorted") ;;
      Ok (Some (ncw_source c, ncw_target c)).

Lemma cts_step_spec n prev c r :
  cts_step (2 * n - 2) prev c = Ok r <->
  ciphertext_wf n c /\ prev_pair_lt prev (ct_pair c) /\ r = Some (ct_pair c).
Proof.
  unfold cts_step, ciphertext_wf, ct_pair. rewrite <- prev_pair_ge_spec. split.
  - intros H. inv_all. bool_prop. done.
  - intros ((H1 & H2 & H3 & H4 & H5) & H6 & ->).
    rewrite (proj2 (Z.ltb_ge _ (ncw_source c))), (proj2 (Z.ltb_ge _ (ncw_target c))) by lia.
    rewrite (proj2 (Z.eqb_eq _ _) H3), (proj2 (Z.eqb_eq _ _) H4), (proj2 (Z.eqb_eq _ _) H5), H6. done.
Qed.

Lemma ciphertexts_loop_spec n cts :
  (exists p, ciphertexts_loop err (2 * n - 2) cts = Ok p) <->
  Forall (ciphertext_wf n) cts /\ StronglySorted pair_lt (ct_pair <$> cts).
Proof.
  assert (forall prev, (exists p, fold_res (cts_step (2 * n - 2)) prev cts = Ok p) <->
    Forall (ciphertext_wf n) cts /\ StronglySorted pair_lt (ct_pair <$> cts) /\
    Forall (prev_pair_lt prev) (ct_pair <$> cts)) as H.
  { induction cts as [|c cts IH]; intros prev; cbn [fold_res fmap list_fmap].
    - split; [intros _; split_and!; constructor|eauto].
    - rewrite StronglySorted_cons, !Forall_cons. split.
      + intros [p Hf]. destruct (cts_step _ prev c) as [r|] eqn:Ec; [|discriminate].
        apply cts_step_spec in Ec as (Hc & Hp & ->). cbn in Hf.
        destruct (proj1 (IH (Some (ct_pair c)))) as (H1 & H2 & H3); [eauto|]. split_and!; try done.
        * eapply Forall_impl; [exact H3|]. intros x Hx. by apply Hx.
        * eapply Forall_impl; [exact H3|]. intros x Hx q Hq.
          eapply pair_lt_trans; [by apply Hp|by apply Hx].
      + intros ([Hc Hcs] & [Hlt Hs] & [Hp Hps]).
        rewrite (proj2 (cts_step_spec n prev c (Some (ct_pair c)))) by done. cbn. apply IH.
        split_and!; try done. eapply Forall_impl; [exact Hlt|]. intros x Hx q [= <-]. done. }
  unfold ciphertexts_loop. fold (cts_step (2 * n - 2)). rewrite H. split; [naive_solver|].
  intros [? ?]. split_and!; try done. apply Forall_true. intros x p [=].
Qed.

(** The checks on the path and the public keys pin both down. *)
Lemma path_and_keys_fwd n c p (s : gset Z) max :
  validate_barrier_n_max n = Ok n -> 0 <= cpw_updater_slot_index c < n ->
  head (cpw_path_nodes c) = Some (leaf_node n (cpw_updater_slot_index c)) ->
  last (cpw_path_nodes c) = Some 0 -> windows_loop err (cpw_path_nodes c) = Ok tt ->
  keys_loop err max (n - 1) (cpw_new_public_keys c) = Ok (p, s) ->
  s = expected_node_set (cpw_path_nodes c) ->
  cpw_path_nodes c = path_of (leaf_node n (cpw_updater_slot_index c)) /\
  npk_node <$> cpw_new_public_keys c = reverse (tail (cpw_path_nodes c)) /\
  Forall (fun k => len (npk_ek k) = PUBLIC_KEY_BYTES) (cpw_new_public_keys c).
Proof.
  intros Hv Hs Hh Hl Hw Hk He. destruct (n_max_bounds n Hv) as (_ & _ & ?).
  assert (0 <= leaf_node n (cpw_updater_slot_index c)) by (unfold leaf_node; lia).
  assert (cpw_path_nodes c = path_of (leaf_node n (cpw_updater_slot_index c))) as Hp.
  { destruct (cpw_path_nodes c) as [|x l]; [done|]. injection Hh as ->. by apply windows_loop_path. }
  destruct (proj1 (keys_loop_spec max (n - 1) (cpw_new_public_keys c) s)) as (H1 & H2 & H3); [by exists p|].
  split_and!; [done| |eapply Forall_impl; [exact H1|]; by intros k (_ & _ & ?)].
  apply sorted_lt_unique; [done| |].
  - rewrite Hp. pose proof (path_of_decreasing (leaf_node n (cpw_updater_slot_index c)) ltac:(lia)) as Hd.
    destruct (path_of_head (leaf_node n (cpw_updater_slot_index c))) as [tl Htl]; [done|].
    rewrite Htl in *. apply StronglySorted_inv in Hd as [Hd _]. by apply StronglySorted_reverse in Hd.
  - intros x. rewrite elem_of_reverse. rewrite He in H3. unfold expected_node_set in H3.
    rewrite <- !(elem_of_list_to_set (C := gset Z)). by rewrite H3.
Qed.

Lemma tail_path_props n slot :
  validate_barrier_n_max n = Ok n -> 0 <= slot < n ->
  let t := tail (path_of (leaf_node n slot)) in
  NoDup t /\ Forall (fun x => 0 <= x < n - 1) t /\ StronglySorted Z.lt (reverse t).
Proof.
  intros Hv Hs. destruct (n_max_bounds n Hv) as (_ & _ & ?).
  assert (0 <= leaf_node n slot) as Hl by (unfold leaf_node; lia).
  pose proof (path_of_decreasing _ Hl) as Hd. pose proof (path_of_NoDup _ Hl) as Hn.
  destruct (decide (leaf_node n slot = 0)) as [He|He].
  { rewrite He. cbn. split_and!; constructor. }
  rewrite path_of_step in * by lia. cbn [tail].
  apply NoDup_cons in Hn as [_ Hn]. apply StronglySorted_inv in Hd as [Hd _].
  split_and!; [done| |by apply StronglySorted_reverse in Hd].
  apply Forall_forall. intros x Hx. apply path_of_range in Hx; [|apply Z.div_pos; lia].
  assert ((leaf_node n slot - 1) / 2 < n - 1); [|lia]. unfold leaf_node in *.
  apply Z.div_lt_upper_bound; lia.
Qed.

Lemma path_and_keys_bwd n w c :
  validate_barrier_n_max n = Ok n -> wire_wf n w c ->
  let path := cpw_path_nodes c in
  (len path =? 0) = false /\ head path = Some (leaf_node n (cpw_updater_slot_index c)) /\
  last path = Some 0 /\ (exists s, path_seen_loop err (2 * n - 2) path = Ok s) /\
  windows_loop err path = Ok tt /\
  (len (cpw_new_public_keys c) =? Z.of_nat (size (expected_node_set path))) = true /\
  exists p, keys_loop err (2 * n - 2) (n - 1) (cpw_new_public_keys c) = Ok (p, expected_node_set path).
Proof.
  intros Hv Hwf path. destruct (n_max_bounds n Hv) as (_ & _ & ?). pose proof (wf_slot _ _ _ Hwf) as Hs.
  assert (0 <= leaf_node n (cpw_updater_slot_index c)) as Hl by (unfold leaf_node; lia).
  pose proof (tail_path_props n _ Hv Hs) as (Hnd & Hr & Hso).
  pose proof (wf_keys _ _ _ Hwf) as Hk. unfold path. rewrite (wf_path _ _ _ Hwf) in *.
  destruct (path_of_head _ Hl) as [tl Htl]. split_and!.
  - rewrite Htl. unfold len. cbn. apply Z.eqb_neq. lia.
  - by rewrite Htl.
  - by apply path_of_last.
  - apply path_seen_loop_ok; [by apply path_of_NoDup|]. apply Forall_forall. intros x Hx.
    apply path_of_range in Hx; [|done]. unfold leaf_node in *. lia.
  - by apply windows_loop_ok.
  - apply Z.eqb_eq. unfold expected_node_set. rewrite size_list_to_set by done. unfold len.
    apply (f_equal length) in Hk. rewrite length_fmap, length_reverse in Hk. by rewrite Hk.
  - apply keys_loop_spec. rewrite Hk. split_and!; [|done|].
    + pose proof (wf_key_len _ _ _ Hwf) as Hkl. rewrite Forall_forall in Hkl. rewrite Forall_forall in Hr.
      apply Forall_forall. intros k Hin. split_and!; [| |by apply Hkl].
      all: assert (npk_node k ∈ tail (path_of (leaf_node n (cpw_updater_slot_index c)))) as Hin'
        by (rewrite <- elem_of_reverse, <- Hk; by apply list_elem_of_fmap_2); specialize (Hr _ Hin'); lia.
    + unfold expected_node_set. apply set_eq. intros x. by rewrite !elem_of_list_to_set, elem_of_reverse.
Qed.

End LoopLemmas.

(** ** Parser characterisations *)

Definition client_parsed (w : BarrierUpdateWire) (c : KemTreeCoverPayloadWire) : ParsedBarrierUpdate :=
  {| pbu_barrier_version := buw_barrier_version w;
     pbu_prev_barrier_version := buw_prev_barrier_version w;
     pbu_tree_size := buw_tree_size w;
     pbu_revocation_roots_hash := buw_revocation_roots_hash w;
     pbu_kem_tree_hash_before := buw_kem_tree_hash_before w;
     pbu_kem_tree_hash_after := buw_kem_tree_hash_after w;
     pbu_updater_slot_index := cpw_updater_slot_index c;
     pbu_updater_slot_generation := cpw_updater_slot_generation c;
     pbu_path_nodes := cpw_path_nodes c;
     pbu_node_ciphertexts := parsed_ciphertext <$> cpw_node_ciphertexts c;
     pbu_new_public_keys := parsed_key <$> cpw_new_public_keys c |}.

Definition accept_parsed (w : BarrierUpdateWire) (c : KemTreeCoverPayloadWire) : AcceptParsedBarrierUpdate :=
  {| apu_barrier_version := buw_barrier_version w;
     apu_prev_barrier_version := buw_prev_barrier_version w;
     apu_tree_size := buw_tree_size w;
     apu_updater_slot_index := cpw_updater_slot_index c;
     apu_updater_slot_generation := cpw_updater_slot_generation c;
     apu_revocation_roots_hash := buw_revocation_roots_hash w;
     apu_kem_tree_hash_before := buw_kem_tree_hash_before w;
     apu_kem_tree_hash_after := buw_kem_tree_hash_after w |}.

Definition server_parsed (w : BarrierUpdateWire) (c : KemTreeCoverPayloadWire) : ServerParsedBarrierUpdate :=
  {| spu_prev_barrier_version := buw_prev_barrier_version w;
     spu_updater_slot_index := cpw_updater_slot_index c;
     spu_updater_slot_generation := cpw_updater_slot_generation c;
     spu_tree_size := buw_tree_size w;
     spu_revocation_roots_hash := buw_revocation_roots_hash w;
     spu_kem_tree_hash_before := buw_kem_tree_hash_before w;
     spu_kem_tree_hash_after := buw_kem_tree_hash_after w;
     spu_path_nodes := cpw_path_nodes c;
     spu_node_ciphertexts := server_ciphertext <$> cpw_node_ciphertexts c;
     spu_new_public_keys := parsed_key <$> cpw_new_public_keys c |}.

Section ParserSpecs.
  Context {HS : Hashing} {WC : WireCodec} {WL : WireCodecLaws WC}.
  Context (n : Z) (Hv : validate_barrier_n_max n = Ok n).

Lemma parse_deterministic_spec {E T} (err : string -> E) (dec : bytes -> option T) tv raw w :
  parse_deterministic_cbor err dec tv raw = Ok w <-> dec raw = Some w /\ cbor (tv w) = raw.
Proof.
  unfold parse_deterministic_cbor. destruct (dec raw) as [d|]; cbn; [|naive_solver].
  unfold bytes_eqb. case_bool_decide; cbn; naive_solver.
Qed.

Lemma to_array_spec {E} (err : string -> E) k b r : to_array err k b = Ok r <-> r = b /\ len b = k.
Proof.
  unfold to_array. destruct (len b =? k) eqn:He; cbn; bool_prop; [|naive_solver].
  split; [by intros [= <-]|by intros [-> _]].
Qed.

Lemma to_array_ok {E} (err : string -> E) k b : len b = k -> to_array err k b = Ok b.
Proof. intros. by apply to_array_spec. Qed.

Lemma max_index_ok : (v ← checked_mul n 2; checked_sub v 2) = Some (2 * n - 2).
Proof using Hv.
  destruct (n_max_bounds n Hv) as (_ & _ & ?).
  unfold checked_mul, U64_MAX. rewrite (proj2 (Z.leb_le _ _)) by lia. cbn.
  unfold checked_sub. rewrite (proj2 (Z.leb_le _ _)) by lia. f_equal; lia.
Qed.

Lemma power_check : (n =? 0) || negb (is_power_of_two n) = false.
Proof using Hv. unfold validate_barrier_n_max in Hv. by destruct (_ || _). Qed.

Lemma expected_leaf_ok slot : 0 <= slot < n ->
  sat_add (n - 1) slot = leaf_node n slot /\ checked_add (n - 1) slot = Some (leaf_node n slot).
Proof using Hv.
  intros. destruct (n_max_bounds n Hv) as (_ & _ & ?). split.
  - unfold sat_add, leaf_node, U64_MAX. lia.
  - unfold checked_add, leaf_node, U64_MAX. rewrite (proj2 (Z.leb_le _ _)) by lia. f_equal; lia.
Qed.

Lemma slot_nonneg raw c : decode_cover raw = Some c -> 0 <= cpw_updater_slot_index c.
Proof using WL. intros [[? _] _]%decode_cover_u64. done. Qed.

Lemma wire_wf_intro {E} (err : string -> E) w c (ps : option Z * gset Z) q :
  buw_mode w = "barrier-v1" -> buw_tree_size w = n -> 0 <= cpw_updater_slot_index c < n ->
  head (cpw_path_nodes c) = Some (leaf_node n (cpw_updater_slot_index c)) ->
  last (cpw_path_nodes c) = Some 0 -> windows_loop err (cpw_path_nodes c) = Ok tt ->
  keys_loop err (2 * n - 2) (n - 1) (cpw_new_public_keys c) = Ok ps ->
  ps.2 = expected_node_set (cpw_path_nodes c) ->
  ciphertexts_loop err (2 * n - 2) (cpw_node_ciphertexts c) = Ok q ->
  len (buw_revocation_roots_hash w) = 32 -> len (buw_kem_tree_hash_before w) = 32 ->
  len (buw_kem_tree_hash_after w) = 32 -> wire_wf n w c.
Proof using Hv.
  intros Hm Ht Hs Hh Hl Hw Hk He Hc H1 H2 H3. destruct ps as [p s].
  destruct (path_and_keys_fwd err n c p s (2 * n - 2) Hv Hs Hh Hl Hw Hk He) as (Hp & Hks & Hkl).
  destruct (proj1 (ciphertexts_loop_spec err n (cpw_node_ciphertexts c))) as [Hc1 Hc2]; [by exists q|].
  by split.
Qed.

(** Collects the checks of a successful parse. *)
Ltac parser_fwd :=
  inv_all; bool_prop;
  repeat match goal with
  | H : to_array _ _ _ = Ok _ |- _ => apply to_array_spec in H as [-> ?]
  | H : parse_deterministic_cbor _ _ _ _ = Ok _ |- _ => apply parse_deterministic_spec in H as [? ?]
  | H : windows_loop _ _ = Ok ?u |- _ => destruct u
  end;
  match goal with
  | Hw : decode_update _ = Some ?w, Hc : decode_cover _ = Some ?c |- _ =>
      pose proof (slot_nonneg _ _ Hc); exists w, c
  end.

Lemma client_parser_spec raw max p :
  parse_barrier_update_for_recover raw n max = Ok p <->
  len raw <= max /\ exists w c, decodes_to raw w c /\ wire_wf n w c /\ p = client_parsed w c.
Proof using Hv WL.
  destruct (n_max_bounds n Hv) as (_ & _ & ?). unfold parse_barrier_update_for_recover. rewrite Hv.
  cbn [mbind result_bind]. rewrite tree_size_ok by lia.
  replace (sat_sub n 1) with (n - 1) by (unfold sat_sub; lia).
  replace (sat_sub (2 * n - 1) 1) with (2 * n - 2) by (unfold sat_sub; lia). split.
  - intros Hp. split; [by inv_all; bool_prop|]. cbn [ok_or mbind result_bind] in Hp.
    replace (sat_sub (2 * n - 1) 1) with (2 * n - 2) in Hp by (unfold sat_sub; lia).
    parser_fwd. split_and!; [by split| |done].
    eapply wire_wf_intro; try done.
    match goal with H : head _ = _ |- _ => rewrite H end.
    f_equal. by apply expected_leaf_ok.
  - intros (Hlen & w & c & (D1 & D2 & D3 & D4) & Hwf & ->).
    rewrite (proj2 (Z.ltb_ge _ _)) by lia. cbn [fail_if mbind result_bind].
    rewrite (proj2 (parse_deterministic_spec _ _ _ _ w)) by done. cbn [mbind result_bind].
    rewrite (wf_mode _ _ _ Hwf), bool_decide_true by done. cbn [negb fail_if mbind result_bind].
    rewrite (wf_tree_size _ _ _ Hwf), Z.eqb_refl. cbn [negb fail_if mbind result_bind].
    rewrite (proj2 (parse_deterministic_spec _ _ _ _ c)) by done. cbn [ok_or mbind result_bind].
    pose proof (wf_slot _ _ _ Hwf) as Hs. rewrite (proj2 (Z.leb_gt _ _)) by lia. cbn [fail_if mbind result_bind].
    replace (sat_sub (2 * n - 1) 1) with (2 * n - 2) by (unfold sat_sub; lia).
    destruct (expected_leaf_ok (cpw_updater_slot_index c) Hs) as [-> _].
    destruct (path_and_keys_bwd (fun s => s) n w c Hv Hwf) as (B1 & B2 & B3 & [s B4] & B5 & B6 & [q B7]).
    rewrite B1, B2, B3, B4, B5, B6, B7. cbn [mbind result_bind fail_if negb].
    rewrite !bool_decide_true by done. cbn [mbind result_bind fail_if negb].
    destruct (proj2 (ciphertexts_loop_spec (fun s => s) n (cpw_node_ciphertexts c))) as [r ->]; [by split; apply Hwf|].
    cbn [mbind result_bind]. rewrite !to_array_ok by apply Hwf. cbn. unfold client_parsed.
    by rewrite (wf_tree_size _ _ _ Hwf).
Qed.

Lemma validate_path_nodes_spec c :
  0 <= cpw_updater_slot_index c ->
  validate_path_nodes (cpw_path_nodes c) (cpw_updater_slot_index c) n (2 * n - 2) = Ok tt ->
  0 <= cpw_updater_slot_index c < n /\
  head (cpw_path_nodes c) = Some (leaf_node n (cpw_updater_slot_index c)) /\
  last (cpw_path_nodes c) = Some 0 /\ windows_loop malformed_at (cpw_path_nodes c) = Ok tt.
Proof using Hv.
  destruct (n_max_bounds n Hv) as (_ & _ & ?). intros Hs H1. unfold validate_path_nodes in H1.
  replace (sat_sub n 1) with (n - 1) in H1 by (unfold sat_sub; lia).
  destruct (decide (cpw_updater_slot_index c < n)) as [Hlt|Hge].
  - destruct (expected_leaf_ok (cpw_updater_slot_index c) ltac:(lia)) as [_ He]. rewrite He in H1.
    inv_all. bool_prop. done.
  - rewrite (proj2 (Z.leb_le n _)) in H1 by lia. inv_all.
Qed.

Lemma validate_path_nodes_ok w c :
  wire_wf n w c ->
  validate_path_nodes (cpw_path_nodes c) (cpw_updater_slot_index c) n (2 * n - 2) = Ok tt.
Proof using Hv.
  intros Hwf. pose proof (wf_slot _ _ _ Hwf) as Hs. unfold validate_path_nodes.
  replace (sat_sub n 1) with (n - 1) by (unfold sat_sub; lia).
  destruct (expected_leaf_ok (cpw_updater_slot_index c) Hs) as [_ He]. rewrite He.
  destruct (path_and_keys_bwd malformed_at n w c Hv Hwf) as (B1 & B2 & B3 & [s B4] & B5 & _).
  rewrite B1, B2, B3, B4, (proj2 (Z.leb_gt _ _)) by lia. cbn [ok_or mbind result_bind fail_if negb].
  rewrite !bool_decide_true by done. done.
Qed.

Lemma acceptor_parser_spec (hdr : header) raw max a :
  hdr !! HDR_BARRIER_UPDATE = Some (VBytes raw) ->
  parse_barrier_update_from_header hdr n max = Ok a <->
  len raw <= max /\ exists w c, decodes_to raw w c /\ wire_wf n w c /\ hint_wf c /\ a = accept_parsed w c.
Proof using Hv WL.
  intros Hh. destruct (n_max_bounds n Hv) as (_ & _ & ?). unfold parse_barrier_update_from_header.
  rewrite power_check, Hh, max_index_ok. cbn [fail_if ok_or mbind result_bind].
  unfold validate_node_ciphertexts, validate_new_public_keys, validate_revoked_hint.
  replace (sat_sub n 1) with (n - 1) by (unfold sat_sub; lia). split.
  - intros Hp. split; [by inv_all; bool_prop|]. parser_fwd.
    match goal with H : validate_path_nodes _ _ _ _ = Ok ?u |- _ =>
      destruct u; apply validate_path_nodes_spec in H as (? & ? & ? & ?); [|done] end.
    split_and!; [by split| | |done].
    + eapply (wire_wf_intro malformed_at); done.
    + apply (hint_loop_spec malformed_at). eauto.
  - intros (Hlen & w & c & (D1 & D2 & D3 & D4) & Hwf & Hhint & ->).
    rewrite (proj2 (Z.ltb_ge _ _)) by lia. cbn [fail_if mbind result_bind].
    rewrite (proj2 (parse_deterministic_spec _ _ _ _ w)) by done. cbn [mbind result_bind].
    rewrite (wf_mode _ _ _ Hwf), bool_decide_true by done. cbn [negb fail_if mbind result_bind].
    rewrite (wf_tree_size _ _ _ Hwf), Z.eqb_refl. cbn [negb fail_if mbind result_bind].
    rewrite (proj2 (parse_deterministic_spec _ _ _ _ c)) by done. cbn [ok_or mbind result_bind].
    destruct (proj2 (hint_loop_spec malformed_at _) Hhint) as [h ->]. cbn [mbind result_bind].
    rewrite (validate_path_nodes_ok w) by done. cbn [mbind result_bind].
    destruct (proj2 (ciphertexts_loop_spec malformed_at n (cpw_node_ciphertexts c))) as [r ->]; [by split; apply Hwf|].
    destruct (path_and_keys_bwd malformed_at n w c Hv Hwf) as (_ & _ & _ & _ & _ & B6 & [q B7]).
    rewrite B6, B7. cbn [mbind result_bind fail_if negb snd]. rewrite bool_decide_true by done.
    cbn [mbind result_bind fail_if negb]. rewrite !to_array_ok by apply Hwf. cbn. unfold accept_parsed.
    by rewrite (wf_tree_size _ _ _ Hwf).
Qed.

Lemma server_parser_spec (hdr : header) raw p :
  hdr !! HDR_BARRIER_UPDATE = Some (VBytes raw) ->
  parse_barrier_update hdr n = Ok (Some p) <->
  exists w c, decodes_to raw w c /\ wire_wf n w c /\ hint_wf c /\ p = server_parsed w c.
Proof using Hv WL.
  intros Hh. destruct (n_max_bounds n Hv) as (_ & _ & ?). unfold parse_barrier_update.
  rewrite Hh, power_check, max_index_ok. cbn [fail_if ok_or mbind result_bind].
  replace (sat_sub n 1) with (n - 1) by (unfold sat_sub; lia). split.
  - intros Hp. parser_fwd.
    assert (0 <= cpw_updater_slot_index x1 < n) as Hs by lia.
    destruct (expected_leaf_ok _ Hs) as [_ He].
    split_and!; [by split| | |done].
    + eapply (wire_wf_intro update_malformed); try done. congruence.
    + apply (hint_loop_spec update_malformed). eauto.
  - intros (w & c & (D1 & D2 & D3 & D4) & Hwf & Hhint & ->).
    rewrite (proj2 (parse_deterministic_spec _ _ _ _ w)) by done. cbn [mbind result_bind].
    rewrite (wf_mode _ _ _ Hwf), bool_decide_true by done.
    rewrite (wf_tree_size _ _ _ Hwf), Z.eqb_refl. cbn [orb negb fail_if mbind result_bind].
    rewrite (proj2 (parse_deterministic_spec _ _ _ _ c)) by done. cbn [ok_or mbind result_bind].
    pose proof (wf_slot _ _ _ Hwf) as Hs.
    destruct (expected_leaf_ok (cpw_updater_slot_index c) Hs) as [_ He]. rewrite He.
    destruct (path_and_keys_bwd update_malformed n w c Hv Hwf) as (B1 & B2 & B3 & [s B4] & B5 & B6 & [q B7]).
    rewrite B1, B2, B3, B4, B5, B6, B7, (proj2 (Z.leb_gt _ _)) by lia.
    cbn [mbind result_bind fail_if negb snd orb ok_or].
    rewrite !bool_decide_true by done. cbn [mbind result_bind fail_if negb orb].
    destruct (proj2 (hint_loop_spec update_malformed _) Hhint) as [h ->]. cbn [mbind result_bind].
    destruct (proj2 (ciphertexts_loop_spec update_malformed n (cpw_node_ciphertexts c))) as [r ->]; [by split; apply Hwf|].
    cbn [mbind result_bind]. rewrite !to_array_ok by apply Hwf. cbn. unfold server_parsed.
    by rewrite (wf_tree_size _ _ _ Hwf).
Qed.

End ParserSpecs.

(** ** A concrete codec

    For the encoder of [toy_hashing]: decode the value, read off the wire type,
    check the integers. *)

Instance is_u64_dec n : Decision (is_u64 n).
Proof. unfold is_u64. apply _. Defined.
Instance update_u64_dec w : Decision (update_u64 w).
Proof. unfold update_u64. apply _. Defined.
Instance cover_u64_dec c : Decision (cover_u64 c).
Proof. unfold cover_u64. apply _. Defined.

Definition toy_decode_value (b : bytes) : option Value :=
  match b with [Zpos p] => decode p | _ => None end.
#[global] Arguments toy_decode_value b : simpl never.

Definition value_int (v : Value) : option Z := match v with VInteger z => Some z | _ => None end.

Definition value_update (v : Value) : option BarrierUpdateWire :=
  match v with
  | VArray [VText m; VInteger a; VInteger b; VInteger t; VBytes r; VBytes x; VBytes y; VBytes z] =>
      Some {| buw_mode := m; buw_barrier_version := a; buw_prev_barrier_version := b;
              buw_tree_size := t; buw_revocation_roots_hash := r; buw_kem_tree_hash_before := x;
              buw_kem_tree_hash_after := y; buw_cover_payload := z |}
  | _ => None
  end.

Definition value_ciphertext (v : Value) : option NodeCiphertextWire :=
  match v with
  | VArray [VInteger s; VInteger t; VBytes a; VBytes b; VBytes c] =>
      Some {| ncw_source := s; ncw_target := t; ncw_target_pk_hash := a; ncw_kem_ct := b; ncw_wrapped_ps := c |}
  | _ => None
  end.

Definition value_public_key (v : Value) : option NewPublicKeyWire :=
  match v with VArray [VInteger i; VBytes b] => Some {| npk_node := i; npk_ek := b |} | _ => None end.

Definition value_hint (v : Value) : option (option (list Z)) :=
  match v with
  | VNull => Some None
  | VArray l => Some <$> map_opt value_int l
  | _ => None
  end.

Definition value_cover (v : Value) : option KemTreeCoverPayloadWire :=
  match v with
  | VArray [VInteger s; VInteger g; VArray p; h; VArray cts; VArray ks] =>
      p ← map_opt value_int p; h ← value_hint h;
      cts ← map_opt value_ciphertext cts; ks ← map_opt value_public_key ks;
      Some {| cpw_updater_slot_index := s; cpw_updater_slot_generation := g; cpw_path_nodes := p;
              cpw_revoked_hint := h; cpw_node_ciphertexts := cts; cpw_new_public_keys := ks |}
  | _ => None
  end.

Definition toy_codec : WireCodec := {|
  decode_update raw := v ← toy_decode_value raw; w ← value_update v; if decide (update_u64 w) then Some w else None;
  decode_cover raw := v ← toy_decode_value raw; c ← value_cover v; if decide (cover_u64 c) then Some c else None
|}.

Lemma map_opt_fmap {A B} (f : A -> option B) (g : B -> A) l :
  (forall b, f (g b) = Some b) -> map_opt f (g <$> l) = Some l.
Proof. intros H. induction l as [|b l IH]; cbn; [done|]. rewrite H. cbn. by rewrite IH. Qed.

Lemma toy_decode_encode v : toy_decode_value (toy_cbor v) = Some v.
Proof. unfold toy_decode_value, toy_cbor. apply decode_encode. Qed.

Lemma value_cover_value c : value_cover (cover_value c) = Some c.
Proof.
  destruct c as [s g p h cts ks]. unfold cover_value, value_cover.
  cbn [cpw_updater_slot_index cpw_updater_slot_generation cpw_path_nodes cpw_revoked_hint
       cpw_node_ciphertexts cpw_new_public_keys].
  rewrite (map_opt_fmap value_int VInteger) by done.
  rewrite (map_opt_fmap value_ciphertext ciphertext_value) by (by intros []).
  rewrite (map_opt_fmap value_public_key public_key_value) by (by intros []).
  destruct h as [h|]; cbn; [|done]. by rewrite (map_opt_fmap value_int VInteger) by done.
Qed.

Instance toy_codec_laws : WireCodecLaws (HS := toy_hashing) toy_codec.
Proof.
  split; cbn.
  - intros raw w. destruct (toy_decode_value raw) as [v|]; cbn; [|done].
    destruct (value_update v) as [w'|]; cbn; [|done]. case_decide; naive_solver.
  - intros raw c. destruct (toy_decode_value raw) as [v|]; cbn; [|done].
    destruct (value_cover v) as [c'|]; cbn; [|done]. case_decide; naive_solver.
  - intros w Hw. rewrite toy_decode_encode. destruct w. cbn -[update_u64_dec]. by rewrite decide_True.
  - intros c Hc. rewrite toy_decode_encode. cbn -[value_cover cover_u64_dec].
    rewrite value_cover_value. cbn -[cover_u64_dec]. by rewrite decide_True.
Qed.

(** ** Properties *)

(** C27: The three parsers accept the same updates.  For a validated [n_max]
    and an update within the size limit, the server and the acceptor accept
    exactly the canonical encodings of well-formed updates with an increasing
    revocation hint, and the client those of well-formed updates (it ignores
    the hint); each returns the fields of the decoded update. *)
Theorem barrier_update_parsers_agree {HS : Hashing} {WC : WireCodec} {WL : WireCodecLaws WC}
    n max raw (hdr : header) :
  validate_barrier_n_max n = Ok n -> hdr !! HDR_BARRIER_UPDATE = Some (VBytes raw) -> len raw <= max ->
  (forall p, parse_barrier_update_for_recover raw n max = Ok p <->
     exists w c, decodes_to raw w c /\ wire_wf n w c /\ p = client_parsed w c) /\
  (forall p, parse_barrier_update hdr n = Ok (Some p) <->
     exists w c, decodes_to raw w c /\ wire_wf n w c /\ hint_wf c /\ p = server_parsed w c) /\
  (forall a, parse_barrier_update_from_header hdr n max = Ok a <->
     exists w c, decodes_to raw w c /\ wire_wf n w c /\ hint_wf c /\ a = accept_parsed w c).
Proof.
  intros Hv Hh Hlen. split_and!.
  - intros p. rewrite (client_parser_spec n Hv). naive_solver.
  - intros p. by apply server_parser_spec.
  - intros a. rewrite (acceptor_parser_spec n Hv hdr raw max a Hh). naive_solver.
Qed.

(** A well-formed update of a tree with one leaf. *)
Definition sample_cover : KemTreeCoverPayloadWire :=
  {| cpw_updater_slot_index := 0; cpw_updater_slot_generation := 0; cpw_path_nodes := [0];
     cpw_revoked_hint := None; cpw_node_ciphertexts := []; cpw_new_public_keys := [] |}.

Definition sample_update : BarrierUpdateWire :=
  {| buw_mode := "barrier-v1"; buw_barrier_version := 1; buw_prev_barrier_version := 0; buw_tree_size := 1;
     buw_revocation_roots_hash := zero32; buw_kem_tree_hash_before := zero32;
     buw_kem_tree_hash_after := zero32; buw_cover_payload := toy_cbor (cover_value sample_cover) |}.

Lemma barrier_update_parsers_agree_witness :
  let HS := toy_hashing in let WC := toy_codec in
  parse_barrier_update_for_recover (toy_cbor (update_value sample_update)) 1 4096
  = Ok (client_parsed sample_update sample_cover).
Proof.
  intros HS WC.
  apply (barrier_update_parsers_agree 1 4096 (toy_cbor (update_value sample_update))
    {[HDR_BARRIER_UPDATE := VBytes (toy_cbor (update_value sample_update))]}).
  - reflexivity.
  - apply lookup_singleton_eq.
  - unfold len, toy_cbor. cbn [length]. lia.
  - exists sample_update, sample_cover. split_and!; [|split; try done; cbn; constructor|done].
    split_and!; [|done| |done].
    + apply (decode_encode_update (HS := toy_hashing) (WC := toy_codec) sample_update). apply (bool_decide_unpack _). by vm_compute.
    + apply (decode_encode_cover (HS := toy_hashing) (WC := toy_codec) sample_cover). apply (bool_decide_unpack _). by vm_compute.
Defined.
