(* ===== verification/BarrierCrypto.v ===== *)
(** * Key encapsulation and derivation for the barrier tree

    Models [crates/pqcrypto-kyber/src/lib.rs] (the ML-KEM-768 bridge: length
    and encoding checks around the [ml_kem] crate) and
    [crates/cityg-client/src/barrier_crypto.rs].  The [ml_kem] and
    [chacha20poly1305] crates are the operations of the class [MlKem] and
    [Aead]; what the code relies on of them is [MlKemLaws] and [AeadLaws]. *)

From S2P Require Import Prelude Hash BarrierTree BarrierWire.

(** [ek_valid]: [EncapsulationKey::new] on the key's bytes succeeds;
    [dk_valid]: [from_expanded_bytes] succeeds; [encaps ek coins]: shared
    secret and ciphertext; [keygen_seed]: expanded decapsulation key and
    encapsulation key of a 64-byte seed. *)
Class MlKem := {
  ek_valid : bytes -> bool;
  dk_valid : bytes -> bool;
  encaps : bytes -> bytes -> bytes * bytes;
  decaps : bytes -> bytes -> bytes;
  keygen_seed : bytes -> bytes * bytes
}.

Class Aead := {
  aead_encrypt : forall (key nonce aad msg : bytes), option bytes;
  aead_decrypt : forall (key nonce aad ct : bytes), option bytes
}.

(** A decapsulation key that opens what is encapsulated to [ek]. *)
Definition kem_pair {K : MlKem} (dk ek : bytes) : Prop :=
  len dk = SECRET_KEY_BYTES /\ dk_valid dk = true /\ len ek = PUBLIC_KEY_BYTES /\ ek_valid ek = true /\
  forall coins, decaps dk (encaps ek coins).2 = (encaps ek coins).1.

Class MlKemLaws (K : MlKem) := {
  encaps_ct_len : forall ek coins, len (encaps ek coins).2 = CIPHERTEXT_BYTES;
  encaps_ss_len : forall ek coins, len (encaps ek coins).1 = 32;
  keygen_pair : forall seed, kem_pair (keygen_seed seed).1 (keygen_seed seed).2
}.

(** A 32-byte message is encrypted to 48 bytes and decrypts to itself. *)
Class AeadLaws (A : Aead) := {
  aead_roundtrip : forall key nonce aad msg, len msg = 32 ->
    exists ct, aead_encrypt key nonce aad msg = Some ct /\ len ct = 48 /\
      aead_decrypt key nonce aad ct = Some msg
}.

Section Crypto.
  Context {HS : Hashing} {K : MlKem}.

(** *** The ML-KEM bridge *)

Definition decode_array (n : Z) (b : bytes) : option bytes := if len b =? n then Some b else None.

Definition PublicKey_from_bytes (b : bytes) : option bytes :=
  raw ← decode_array PUBLIC_KEY_BYTES b; if ek_valid raw then Some raw else None.

Definition SecretKey_from_bytes (b : bytes) : option bytes :=
  raw ← decode_array SECRET_KEY_BYTES b; if dk_valid raw then Some raw else None.

Definition Ciphertext_from_bytes (b : bytes) : option bytes := decode_array CIPHERTEXT_BYTES b.

Definition encapsulate (public_key coins : bytes) : bytes * bytes := encaps public_key coins.

Definition decapsulate (ciphertext secret_key : bytes) : bytes := decaps secret_key ciphertext.

(** *** [barrier_crypto.rs] *)

Definition BARRIER_KEYGEN_D_INFO : bytes := str_bytes "city-g|barrier/keygen-d|v1".
Definition BARRIER_KEYGEN_Z_INFO : bytes := str_bytes "city-g|barrier/keygen-z|v1".
Definition FS_PCS_INFO : bytes := str_bytes "city-g|fs/pcs|v1".
Definition ML_KEM_EXPANDED_DK_BYTES : Z := 2400.

Definition derive_k_fs_after_pcs (k_fs_before weid : bytes) (fs_ec barrier_version : Z)
    (k_barrier_new : bytes) : result string bytes :=
  let ikm := k_fs_before ++ k_barrier_new in
  salt ← h_l "fs/pcs/salt" (VArray [VBytes weid; VInteger fs_ec; VInteger barrier_version]);
  Ok (hkdf_blake3 salt ikm FS_PCS_INFO).

Definition keygen_salt_preimage (gid : bytes) (barrier_version : Z) (rrh : bytes) (n_max node : Z) : Value :=
  VArray [VBytes gid; VInteger barrier_version; VBytes rrh; VInteger n_max; VInteger node].

(** Decapsulation key, key hash and encapsulation key of an internal node. *)
Definition derive_internal_node_key_material (gid path_secret : bytes) (barrier_version : Z)
    (revocation_roots_hash : bytes) (n_max node : Z) : result string (bytes * bytes * bytes) :=
  let preimage := keygen_salt_preimage gid barrier_version revocation_roots_hash n_max node in
  d_salt ← h_l "barrier/keygen/d_salt" preimage;
  z_salt ← h_l "barrier/keygen/z_salt" preimage;
  let d := hkdf_blake3 d_salt path_secret BARRIER_KEYGEN_D_INFO in
  let z := hkdf_blake3 z_salt path_secret BARRIER_KEYGEN_Z_INFO in
  let '(dk_expanded, ek_bytes) := keygen_seed (d ++ z) in
  pkhash ← compute_barrier_pkhash ek_bytes;
  Ok (dk_expanded, pkhash, ek_bytes).

Definition decapsulate_internal_node_shared_secret (dk_expanded_bytes kem_ct : bytes) : result string bytes :=
  fail_if (negb (len dk_expanded_bytes =? ML_KEM_EXPANDED_DK_BYTES)) "internal dk_n must be 2400 bytes" ;;
  fail_if (negb (dk_valid dk_expanded_bytes)) "invalid internal dk_n encoding" ;;
  fail_if (negb (len kem_ct =? CIPHERTEXT_BYTES)) "invalid internal node ciphertext" ;;
  Ok (decaps dk_expanded_bytes kem_ct).

Definition encapsulate_barrier_public_key (public_key_bytes coins : bytes) : result string (bytes * bytes) :=
  public_key ← ok_or (PublicKey_from_bytes public_key_bytes) "invalid barrier leaf public key";
  Ok (encapsulate public_key coins).

Definition pkhash_of (ek : bytes) : bytes := hl_digest "barrier/pk-hash" (VBytes ek).

Lemma compute_barrier_pkhash_ok ek : compute_barrier_pkhash ek = Ok (pkhash_of ek).
Proof. unfold compute_barrier_pkhash, pkhash_of. by rewrite h_l_digest. Qed.

(** The material of a node as a function. *)
Definition node_material (gid secret : bytes) (bv : Z) (rrh : bytes) (n node : Z) : bytes * bytes * bytes :=
  let preimage := keygen_salt_preimage gid bv rrh n node in
  let d := hkdf_blake3 (hl_digest "barrier/keygen/d_salt" preimage) secret BARRIER_KEYGEN_D_INFO in
  let z := hkdf_blake3 (hl_digest "barrier/keygen/z_salt" preimage) secret BARRIER_KEYGEN_Z_INFO in
  let keys := keygen_seed (d ++ z) in
  (keys.1, pkhash_of keys.2, keys.2).

Lemma derive_internal_node_key_material_ok gid secret bv rrh n node :
  derive_internal_node_key_material gid secret bv rrh n node = Ok (node_material gid secret bv rrh n node).
Proof.
  unfold derive_internal_node_key_material, node_material.
  rewrite !h_l_digest by done. cbn [mbind result_bind].
  destruct (keygen_seed _) as [dk ek]. by rewrite compute_barrier_pkhash_ok.
Qed.

Lemma decapsulate_internal_ok dk ek coins {KL : MlKemLaws K} :
  kem_pair dk ek ->
  decapsulate_internal_node_shared_secret dk (encaps ek coins).2 = Ok (encaps ek coins).1.
Proof.
  intros (Hl & Hd & _ & _ & Hk). unfold decapsulate_internal_node_shared_secret, ML_KEM_EXPANDED_DK_BYTES.
  rewrite Hl, Hd, (encaps_ct_len ek coins). cbn. by rewrite Hk.
Qed.

Lemma SecretKey_from_bytes_ok dk ek : kem_pair dk ek -> SecretKey_from_bytes dk = Some dk.
Proof.
  intros (Hl & Hd & _). unfold SecretKey_from_bytes, decode_array.
  rewrite (proj2 (Z.eqb_eq _ _) Hl). cbn. by rewrite Hd.
Qed.

Lemma Ciphertext_from_bytes_ok {KL : MlKemLaws K} ek coins :
  Ciphertext_from_bytes (encaps ek coins).2 = Some (encaps ek coins).2.
Proof.
  unfold Ciphertext_from_bytes, decode_array.
  by rewrite (proj2 (Z.eqb_eq _ _) (encaps_ct_len ek coins)).
Qed.

Lemma PublicKey_from_bytes_Some b r : PublicKey_from_bytes b = Some r ->
  r = b /\ len b = PUBLIC_KEY_BYTES /\ ek_valid b = true.
Proof.
  unfold PublicKey_from_bytes, decode_array. destruct (len b =? _) eqn:E; cbn; [|done]. bool_prop.
  destruct (ek_valid b) eqn:Ev; [|done]. by intros [= <-].
Qed.

End Crypto.

(** ** A concrete instance *)

Definition pad (n : nat) (b : bytes) : bytes := take n (b ++ replicate n 0).

Lemma len_pad n b : len (pad n b) = Z.of_nat n.
Proof. unfold len, pad. rewrite length_take, length_app, length_replicate. lia. Qed.

(** A key pair shares its seed; the shared secret mixes the first 64 bytes of
    the key with the ciphertext. *)
Definition toy_kem : MlKem := {|
  ek_valid ek := true;
  dk_valid dk := true;
  encaps ek coins :=
    let ct := pad 1088 (toy_digest 3 coins) in (toy_digest 5 (take 64 ek ++ ct), ct);
  decaps dk ct := toy_digest 5 (take 64 dk ++ ct);
  keygen_seed seed := (pad 2400 seed, pad 1184 (take 64 seed))
|}.

Lemma take_pad_64 seed n : (64 <= n)%nat -> take 64 (pad n seed) = pad 64 seed.
Proof.
  intros H. unfold pad. rewrite take_take, Nat.min_l by lia.
  apply list_eq. intros i. destruct (decide (i < 64)%nat) as [Hi|Hi].
  - rewrite !lookup_take_lt by lia. destruct (decide (i < length seed)%nat).
    + rewrite !lookup_app_l by lia. done.
    + rewrite !lookup_app_r, !lookup_replicate_2 by lia. done.
  - rewrite !lookup_ge_None_2; [done| |]; rewrite length_take, length_app, length_replicate; lia.
Qed.

Instance toy_kem_laws : MlKemLaws toy_kem.
Proof.
  split.
  - intros. apply len_pad.
  - intros. unfold len. cbn [encaps toy_kem fst]. unfold toy_digest. by rewrite length_be_bytes.
  - intros seed. unfold kem_pair. cbn [keygen_seed toy_kem fst snd dk_valid ek_valid decaps encaps].
    split_and!; [apply len_pad|done|apply len_pad|done|].
    intros coins. rewrite !take_pad_64 by lia. f_equal. f_equal.
    unfold pad. apply list_eq. intros i. destruct (decide (i < 64)%nat) as [Hi|Hi].
    + rewrite !lookup_take_lt by lia. destruct (decide (i < length seed)%nat).
      * rewrite !lookup_app_l by (rewrite ?length_take; lia). by rewrite lookup_take_lt by lia.
      * rewrite !lookup_app_r by (rewrite ?length_take; lia).
        rewrite !lookup_replicate_2 by (rewrite ?length_take; lia). done.
    + rewrite !lookup_ge_None_2; [done| |]; rewrite length_take, length_app, length_replicate; lia.
Qed.

(** The message followed by a 16-byte tag over key, nonce and data. *)
Definition toy_aead : Aead := {|
  aead_encrypt key nonce aad msg := Some (msg ++ take 16 (toy_digest 7 (key ++ nonce ++ aad ++ msg)));
  aead_decrypt key nonce aad ct :=
    let msg := take (length ct - 16) ct in
    if bytes_eqb (drop (length ct - 16) ct) (take 16 (toy_digest 7 (key ++ nonce ++ aad ++ msg)))
    then Some msg else None
|}.

Instance toy_aead_laws : AeadLaws toy_aead.
Proof.
  split. intros key nonce aad msg Hm. eexists. split; [done|].
  set (tag := take 16 (toy_digest 7 (key ++ nonce ++ aad ++ msg))).
  assert (length tag = 16%nat) as Ht.
  { unfold tag. rewrite length_take. unfold toy_digest. rewrite length_be_bytes. lia. }
  split; [unfold len in *; rewrite length_app; lia|].
  cbn [aead_decrypt toy_aead]. rewrite length_app, Ht.
  replace (length msg + 16 - 16)%nat with (length msg) by lia.
  rewrite take_app_length, drop_app_length. fold tag. unfold bytes_eqb. by rewrite bool_decide_true.
Qed.
