(* ===== verification/BarrierBuild.v ===== *)
(** * Building a barrier update

    Models [build_barrier_update_bytes] of
    [crates/cityg-client/src/barrier_build.rs]: path secrets up the updater's
    path, new keys for its internal nodes, the post-update snapshot and its
    hash, one wrapped path secret per resolution target of every copath node,
    and the encoded update.  The random leaf secret and the encapsulation
    coins are arguments. *)

From S2P Require Import Prelude Hash Heap BarrierTree Errors ServerTree BarrierWire BarrierCrypto.

Definition BARRIER_TREE_INFO : bytes := str_bytes "city-g|barrier/tree|v1".
Definition BARRIER_KEY_INFO : bytes := str_bytes "city-g|barrier/key|v1".

Record NodeKeyMaterial := { nkm_dk : bytes; nkm_pkhash : bytes }.

Record BarrierUpdateBuildResult := {
  bur_raw_update : bytes;
  bur_barrier_update_digest : bytes;
  bur_kem_tree_hash_after : bytes;
  bur_k_barrier_new : bytes;
  bur_on_path_key_material : gmap Z NodeKeyMaterial;
  bur_snapshot_post : snapshot
}.

Section Build.
  Context {HS : Hashing} {K : MlKem} {A : Aead}.

(** [BarrierWrapAadPreimage] and [BarrierWrapNoncePreimage]. *)
Definition wrap_aad (gid : bytes) (barrier_version prev_barrier_version n_max : Z)
    (rrh before after : bytes) (slot_index slot_generation source target : Z) (target_pkhash : bytes) : bytes :=
  cbor (VArray [VBytes gid; VInteger barrier_version; VInteger prev_barrier_version; VInteger n_max;
                VBytes rrh; VBytes before; VBytes after; VInteger slot_index; VInteger slot_generation;
                VInteger source; VInteger target; VBytes target_pkhash]).

Definition wrap_nonce (source target : Z) : result string bytes :=
  nonce_full ← h_l "barrier/wrap/nonce" (VArray [VInteger source; VInteger target]);
  Ok (take 12 nonce_full).

Definition path_salt (gid : bytes) (parent_node : Z) : result string bytes :=
  h_l "barrier/tree/path" (VArray [VBytes gid; VInteger parent_node]).

(** The [for k in 1..path_nodes.len()] loop: every node's secret from its
    child's. *)
Fixpoint derive_path_secrets (gid : bytes) (child_node : Z) (rest : list Z) (path_secrets : gmap Z bytes)
    : result string (gmap Z bytes) :=
  match rest with
  | [] => Ok path_secrets
  | parent_node :: rest' =>
      child_secret ← ok_or (path_secrets !! child_node) "barrier path secret derivation missing child";
      salt ← path_salt gid parent_node;
      let parent_secret := hkdf_blake3 salt child_secret BARRIER_TREE_INFO in
      derive_path_secrets gid parent_node rest' (<[parent_node := parent_secret]> path_secrets)
  end.

Definition derive_k_barrier (gid : bytes) (barrier_version : Z) (rrh root_secret : bytes) : result string bytes :=
  barrier_salt ← h_l "barrier/derive/salt" (VArray [VBytes gid; VInteger barrier_version; VBytes rrh]);
  Ok (hkdf_blake3 barrier_salt root_secret BARRIER_KEY_INFO).

(** The loop over the sorted internal path nodes. *)
Definition build_new_keys (gid : bytes) (barrier_version : Z) (rrh : bytes) (n_max : Z)
    (path_secrets : gmap Z bytes) (nodes : list Z)
    : result string (gmap Z NodeKeyMaterial * list NewPublicKeyWire) :=
  fold_res (fun '(material, keys) node =>
      path_secret ← ok_or (path_secrets !! node) "missing path secret for node";
      m ← derive_internal_node_key_material gid path_secret barrier_version rrh n_max node;
      fail_if (U32_MAX <? node) "barrier node index overflow" ;;
      let '(dk, pkhash, ek) := m in
      Ok (<[node := {| nkm_dk := dk; nkm_pkhash := pkhash |}]> material,
          keys ++ [{| npk_node := node; npk_ek := ek |}])) (∅, []) nodes.

(** [*snapshot_post.get_mut(idx).ok_or(..)? = ek] for every new key. *)
Definition apply_new_keys (snap : snapshot) (keys : list (Z * bytes)) : result string snapshot :=
  fold_res (fun snap '(node, ek) =>
      match vget snap node with
      | None => Err "barrier node index out of range"
      | Some _ => Ok (vset snap node ek)
      end) snap keys.

Section Wrap.
  Context (gid : bytes) (barrier_version prev_barrier_version n_max : Z) (rrh before after : bytes).
  Context (slot_index slot_generation : Z) (snapshot_pre : snapshot) (path_secrets : gmap Z bytes).
  Context (coins : Z -> Z -> bytes).

(** One wrapped path secret. *)
Definition wrap_target (source_node target_node : Z) : result string NodeCiphertextWire :=
  target_pk ← ok_or (vget snapshot_pre target_node) "barrier node index out of range";
  fail_if (bytes_eqb target_pk []) "barrier resolution produced blank target node" ;;
  target_pkhash ← BarrierTree.compute_barrier_pkhash target_pk;
  target_ek ← ok_or (PublicKey_from_bytes target_pk) "invalid ML-KEM target public key in snapshot_pre";
  let '(ss, kem_ct) := encapsulate target_ek (coins source_node target_node) in
  let aad := wrap_aad gid barrier_version prev_barrier_version n_max rrh before after
               slot_index slot_generation source_node target_node target_pkhash in
  nonce ← wrap_nonce source_node target_node;
  source_secret ← ok_or (path_secrets !! source_node) "missing path secret for source node";
  wrapped_ps ← ok_or (aead_encrypt ss nonce aad source_secret) "barrier wrap encrypt failed";
  Ok {| ncw_source := source_node; ncw_target := target_node;
        ncw_target_pk_hash := take 16 target_pkhash; ncw_kem_ct := kem_ct; ncw_wrapped_ps := wrapped_ps |}.

(** The [for step in 0..path_nodes.len() - 1] loop. *)
Fixpoint build_node_ciphertexts (leaf_base : Z) (path_nodes : list Z) : result string (list NodeCiphertextWire) :=
  match path_nodes with
  | child_node :: (source_node :: _) as tl =>
      sibling ← ok_or (BarrierTree.sibling_node child_node) "barrier sibling missing for root";
      targets ← collect_resolution_targets snapshot_pre sibling leaf_base [];
      cts ← map_res (wrap_target source_node) (merge_sort Z.le targets);
      rest ← build_node_ciphertexts leaf_base tl;
      Ok (cts ++ rest)
  | _ => Ok []
  end.

Lemma build_node_ciphertexts_cons leaf_base child_node source_node tl :
  build_node_ciphertexts leaf_base (child_node :: source_node :: tl) =
    (sibling ← ok_or (BarrierTree.sibling_node child_node) "barrier sibling missing for root";
     targets ← collect_resolution_targets snapshot_pre sibling leaf_base [];
     cts ← map_res (wrap_target source_node) (merge_sort Z.le targets);
     rest ← build_node_ciphertexts leaf_base (source_node :: tl);
     Ok (cts ++ rest)).
Proof. reflexivity. Qed.

End Wrap.

(** [sort_by_key(|entry| (entry.0, entry.1))] *)
Definition ct_le (a b : NodeCiphertextWire) : Prop := pair_le (ct_pair a) (ct_pair b).

#[global] Instance ct_le_dec : RelDecision ct_le.
Proof. intros a b. unfold ct_le. apply _. Defined.

Definition build_barrier_update_bytes (gid : bytes) (n_max updater_slot_index updater_slot_generation : Z)
    (barrier_version prev_barrier_version : Z) (revocation_roots_hash kem_tree_hash_before : bytes)
    (snapshot_pre : snapshot) (ps_leaf : bytes) (coins : Z -> Z -> bytes)
    : result string BarrierUpdateBuildResult :=
  n_max ← validate_barrier_n_max n_max;
  fail_if (n_max <=? updater_slot_index) "invalid barrier update tree parameters" ;;
  expected_nodes ← expected_barrier_tree_nodes n_max;
  fail_if (negb (len snapshot_pre =? expected_nodes)) "barrier snapshot size mismatch" ;;
  let leaf_base := sat_sub n_max 1 in
  path_nodes ← barrier_path_nodes n_max updater_slot_index;
  leaf ← ok_or (head path_nodes) "empty path";
  path_secrets ← derive_path_secrets gid leaf (tail path_nodes) {[leaf := ps_leaf]};
  root_secret ← ok_or (path_secrets !! 0) "barrier path secret derivation missing root";
  k_barrier_new ← derive_k_barrier gid barrier_version revocation_roots_hash root_secret;
  built ← build_new_keys gid barrier_version revocation_roots_hash n_max path_secrets
            (merge_sort Z.le (tail path_nodes));
  let '(on_path_key_material, new_public_keys) := built in
  snapshot_post ← apply_new_keys snapshot_pre (parsed_key <$> new_public_keys);
  kem_tree_hash_after ← BarrierTree.compute_barrier_tree_hash n_max snapshot_post;
  cts ← build_node_ciphertexts gid barrier_version prev_barrier_version n_max revocation_roots_hash
          kem_tree_hash_before kem_tree_hash_after updater_slot_index updater_slot_generation
          snapshot_pre path_secrets coins leaf_base path_nodes;
  let node_ciphertexts := merge_sort ct_le cts in
  let cover := {| cpw_updater_slot_index := updater_slot_index;
                  cpw_updater_slot_generation := updater_slot_generation;
                  cpw_path_nodes := path_nodes; cpw_revoked_hint := None;
                  cpw_node_ciphertexts := node_ciphertexts; cpw_new_public_keys := new_public_keys |} in
  let update := {| buw_mode := "barrier-v1"; buw_barrier_version := barrier_version;
                   buw_prev_barrier_version := prev_barrier_version; buw_tree_size := n_max;
                   buw_revocation_roots_hash := revocation_roots_hash;
                   buw_kem_tree_hash_before := kem_tree_hash_before;
                   buw_kem_tree_hash_after := kem_tree_hash_after;
                   buw_cover_payload := cbor (cover_value cover) |} in
  let raw_update := cbor (update_value update) in
  barrier_update_digest ← compute_barrier_update_digest raw_update;
  Ok {| bur_raw_update := raw_update; bur_barrier_update_digest := barrier_update_digest;
        bur_kem_tree_hash_after := kem_tree_hash_after; bur_k_barrier_new := k_barrier_new;
        bur_on_path_key_material := on_path_key_material; bur_snapshot_post := snapshot_post |}.

End Build.

(** ** Path secrets *)

Section Secrets.
  Context {HS : Hashing} (gid : bytes).

Definition next_secret (parent : Z) (s : bytes) : bytes :=
  hkdf_blake3 (hl_digest "barrier/tree/path" (VArray [VBytes gid; VInteger parent])) s BARRIER_TREE_INFO.

(** Every node of [child :: rest] has a secret and the next node's secret is
    derived from it. *)
Fixpoint secret_chain (m : gmap Z bytes) (child : Z) (rest : list Z) : Prop :=
  match rest with
  | [] => is_Some (m !! child)
  | parent :: rest' =>
      (exists s, m !! child = Some s /\ m !! parent = Some (next_secret parent s)) /\
      secret_chain m parent rest'
  end.

Lemma derive_path_secrets_ok child rest (m : gmap Z bytes) :
  is_Some (m !! child) -> NoDup (child :: rest) ->
  exists m', derive_path_secrets gid child rest m = Ok m' /\
    (forall x, x ∉ rest -> m' !! x = m !! x) /\ secret_chain m' child rest.
Proof.
  revert child m; induction rest as [|p rest IH]; intros child m [s Hs] Hnd; cbn.
  { exists m. split_and!; [done|done|by exists s]. }
  apply NoDup_cons in Hnd as [Hc Hnd]. rewrite Hs. cbn. unfold path_salt. rewrite h_l_digest by done. cbn.
  destruct (IH p (<[p := next_secret p s]> m)) as (m' & Hm & Hout & Hch); [|done|].
  { rewrite lookup_insert_eq. eauto. }
  exists m'. split_and!; [exact Hm| | |done].
  - intros x Hx. rewrite Hout by set_solver. rewrite lookup_insert_ne by set_solver. done.
  - exists s. rewrite !Hout by (apply NoDup_cons in Hnd as [? _]; set_solver).
    rewrite lookup_insert_eq, lookup_insert_ne by set_solver. done.
Qed.

Lemma secret_chain_elem m child rest x :
  secret_chain m child rest -> x ∈ child :: rest -> is_Some (m !! x).
Proof.
  revert child; induction rest as [|p rest IH]; cbn; intros child H Hx.
  - apply list_elem_of_singleton in Hx. by subst.
  - destruct H as [(s & H1 & H2) H]. apply elem_of_cons in Hx as [->|Hx]; [eauto|by eapply IH].
Qed.

Lemma secret_chain_suffix m child l1 x l2 :
  secret_chain m child (l1 ++ x :: l2) -> secret_chain m x l2.
Proof.
  revert child; induction l1 as [|y l1 IH]; cbn; intros child [_ H]; [done|by eapply IH].
Qed.

(** Chains that start from one secret agree. *)
Lemma secret_chain_agree m1 m2 child rest x :
  secret_chain m1 child rest -> secret_chain m2 child rest -> m1 !! child = m2 !! child ->
  x ∈ child :: rest -> m1 !! x = m2 !! x.
Proof.
  revert child; induction rest as [|p rest IH]; cbn; intros child H1 H2 He Hx.
  - apply list_elem_of_singleton in Hx. by subst.
  - destruct H1 as [(s1 & A1 & B1) H1], H2 as [(s2 & A2 & B2) H2].
    apply elem_of_cons in Hx as [->|Hx]; [done|]. apply (IH p); try done. congruence.
Qed.

Definition k_barrier_of (bv : Z) (rrh root : bytes) : bytes :=
  hkdf_blake3 (hl_digest "barrier/derive/salt" (VArray [VBytes gid; VInteger bv; VBytes rrh])) root BARRIER_KEY_INFO.

Lemma derive_k_barrier_ok bv rrh root : derive_k_barrier gid bv rrh root = Ok (k_barrier_of bv rrh root).
Proof. unfold derive_k_barrier. by rewrite h_l_digest. Qed.

(** A path secret is a 32-byte digest. *)
Lemma next_secret_len {HL : HashingLaws HS} p s : len (next_secret p s) = 32.
Proof. unfold next_secret, hkdf_blake3, len. by rewrite keyed_len. Qed.

Lemma secret_chain_len {HL : HashingLaws HS} m child rest x s :
  secret_chain m child rest -> x ∈ rest -> m !! x = Some s -> len s = 32.
Proof.
  revert child; induction rest as [|p rest IH]; cbn; intros child H Hx Hs; [set_solver|].
  destruct H as [(s0 & _ & Hp) H]. apply elem_of_cons in Hx as [->|Hx]; [|by eapply IH].
  rewrite Hp in Hs. injection Hs as <-. apply next_secret_len.
Qed.

End Secrets.

(** ** The (source, target) pairs of an update *)

Section Pairs.
  Context (n : Z) (snap : snapshot).

(** The resolution of the node with index [i]. *)
Definition targets_of (i : Z) : list Z := resolution snap (height n i) (i + 1).

Fixpoint copath_pairs (path : list Z) : list (Z * Z) :=
  match path with
  | child :: (source :: _) as tl =>
      ((fun t => (source, t)) <$> merge_sort Z.le (targets_of (sib (child + 1) - 1))) ++ copath_pairs tl
  | _ => []
  end.

Lemma copath_pairs_step node : 0 < node ->
  copath_pairs (path_of node) =
    ((fun t => ((node - 1) / 2, t)) <$> merge_sort Z.le (targets_of (sib (node + 1) - 1))) ++
    copath_pairs (path_of ((node - 1) / 2)).
Proof.
  intros. rewrite path_of_step by done.
  destruct (path_of_head ((node - 1) / 2)) as [tl Htl]; [apply Z.div_pos; lia|]. by rewrite Htl.
Qed.

(** The pairs: source the [k+1]-st ancestor, target in the resolution of the
    sibling of the [k]-th. *)
Lemma elem_of_copath_pairs node s t : 0 <= node ->
  (s, t) ∈ copath_pairs (path_of node) <->
  exists k, 0 <= k < Z.log2 (node + 1) /\ s + 1 = anc (node + 1) (k + 1) /\
    t ∈ targets_of (sib (anc (node + 1) k) - 1).
Proof.
  revert node. apply path_of_ind.
  - rewrite path_of_0. cbn [copath_pairs]. split; [set_solver|]. intros (k & Hk & _).
    change (Z.log2 (0 + 1)) with 0 in Hk. lia.
  - intros node Hn IH. rewrite copath_pairs_step by done. rewrite elem_of_app, IH.
    rewrite list_elem_of_fmap. setoid_rewrite merge_sort_Permutation.
    rewrite parent_succ, log2_half by lia. pose proof (Z.log2_pos (node + 1) ltac:(lia)).
    split.
    + intros [(t' & [= -> ->] & Ht)|(k & Hk & Hs & Ht)].
      * exists 0. rewrite anc_0. split_and!; [lia|lia| |done].
        rewrite Z.add_0_l, anc_1. apply parent_succ.
      * exists (k + 1). rewrite (anc_succ_l (node + 1) (k + 1)), (anc_succ_l (node + 1) k) by lia. split_and!; try lia; done.
    + intros (k & Hk & Hs & Ht). destruct (decide (k = 0)) as [->|Hk0].
      * left. exists t. rewrite anc_0 in Ht. split; [|done]. f_equal.
        rewrite Z.add_0_l, anc_1 in Hs. pose proof (parent_succ node). lia.
      * right. exists (k - 1). replace k with (k - 1 + 1) in Hs, Ht by lia.
        rewrite (anc_succ_l _ (k - 1 + 1)) in Hs by lia. rewrite (anc_succ_l _ (k - 1)) in Ht by lia.
        split_and!; try lia; done.
Qed.

Lemma targets_of_NoDup i : 0 <= i -> NoDup (targets_of i).
Proof. intros. apply resolution_NoDup. lia. Qed.

Lemma copath_pairs_source node s t : 0 <= node -> (s, t) ∈ copath_pairs (path_of node) -> s ∈ tail (path_of node).
Proof.
  intros Hn (k & Hk & Hs & _)%elem_of_copath_pairs; [|done].
  destruct (decide (node = 0)) as [->|]; [change (Z.log2 (0 + 1)) with 0 in Hk; lia|].
  rewrite path_of_step by lia. cbn [tail]. apply elem_of_path_of. exists k.
  rewrite parent_succ, log2_half by lia. rewrite <- anc_succ_l by lia. lia.
Qed.

Context (Hwf : tree_wf n snap).

Lemma sib_range node : 0 < node < 2 * n - 1 -> 0 <= sib (node + 1) - 1 < 2 * n - 1.
Proof using Hwf.
  intros. destruct (n_max_bounds n (proj1 Hwf)) as (Hn & Hd & ?). unfold sib.
  assert (2 * n = 2 ^ (Z.log2 n + 1)) as Hp by (rewrite Z.pow_add_r, Z.pow_1_r, <- Hn by lia; lia).
  destruct (decide (node + 1 = 2 * n - 1)) as [He|He]; [|case_if; bool_prop; mlia].
  rewrite He. case_if; bool_prop; [|lia]. exfalso. mlia.
Qed.

Lemma copath_pairs_NoDup node : 0 <= node < 2 * n - 1 -> NoDup (copath_pairs (path_of node)).
Proof using Hwf.
  intros [Hn Hm]. revert Hm. pattern node. revert node Hn. apply path_of_ind.
  - intros _. apply NoDup_nil_2.
  - intros node Hn IH Hm. rewrite copath_pairs_step by done.
    assert (0 <= (node - 1) / 2 < node).
    { split; [apply Z.div_pos; lia|]. apply Z.div_lt_upper_bound; lia. }
    apply NoDup_app. split_and!; [| |apply IH; lia].
    + apply NoDup_fmap_2; [by intros ?? [= ->]|]. rewrite merge_sort_Permutation.
      apply targets_of_NoDup. apply sib_range; lia.
    + intros [s t] (t' & [= -> ->] & _)%list_elem_of_fmap Hin.
      apply copath_pairs_source in Hin; [|lia].
      pose proof (path_of_decreasing ((node - 1) / 2) ltac:(lia)) as Hd.
      destruct (path_of_head ((node - 1) / 2)) as [tl Htl]; [lia|]. rewrite Htl in *. cbn in Hin.
      apply StronglySorted_inv in Hd as [_ Hd]. rewrite Forall_forall in Hd.
      specialize (Hd _ Hin). unfold flip in Hd. lia.
Qed.

End Pairs.

(** ** The result of a build *)

Definition keys_valid {K : MlKem} (snap : snapshot) : Prop :=
  forall i pk, vget snap i = Some pk -> pk <> [] -> len pk = PUBLIC_KEY_BYTES /\ ek_valid pk = true.

Definition apply_keys (snap : snapshot) (keys : list (Z * bytes)) : snapshot :=
  foldl (fun s kv => vset s kv.1 kv.2) snap keys.

Lemma len_apply_keys snap keys : len (apply_keys snap keys) = len snap.
Proof.
  unfold apply_keys. revert snap; induction keys as [|[i k] keys IH]; intros snap; cbn; [done|].
  by rewrite IH, len_vset.
Qed.

Lemma apply_new_keys_ok snap keys :
  Forall (fun kv => 0 <= kv.1 < len snap) keys -> apply_new_keys snap keys = Ok (apply_keys snap keys).
Proof.
  unfold apply_new_keys, apply_keys. revert snap; induction keys as [|[i k] keys IH]; intros snap H; cbn; [done|].
  apply Forall_cons in H as [Hi H]. destruct (vget_is_Some snap i Hi) as [x ->]. cbn.
  apply IH. by rewrite len_vset.
Qed.

Lemma pair_le_lt (l : list (Z * Z)) : NoDup l -> StronglySorted pair_lt (merge_sort pair_le l).
Proof.
  intros Hnd. assert (StronglySorted pair_le (merge_sort pair_le l)) as Hs.
  { apply StronglySorted_merge_sort; unfold pair_le; [intros ???; lia|intros ??; lia]. }
  assert (NoDup (merge_sort pair_le l)) as Hn by (by rewrite merge_sort_Permutation).
  revert Hs Hn. generalize (merge_sort pair_le l) as l'. induction 1 as [|x l' _ IH Hx]; intros Hn; constructor.
  - apply IH. by apply NoDup_cons in Hn as [_ ?].
  - apply NoDup_cons in Hn as [Hni _]. rewrite Forall_forall in Hx. apply Forall_forall. intros y Hy.
    specialize (Hx y Hy). assert (x <> y) by (by intros ->). destruct x, y. unfold pair_le, pair_lt in *. cbn in *.
    destruct Hx as [?|[? ?]]; [by left|right]. split; [done|]. assert (z0 <> z2) by congruence. lia.
Qed.

(** Sorting ciphertexts by pair sorts the pairs. *)
Lemma ct_pair_sort cts :
  NoDup (ct_pair <$> cts) -> ct_pair <$> merge_sort ct_le cts = merge_sort pair_le (ct_pair <$> cts).
Proof.
  intros Hnd. eapply (StronglySorted_unique_strong pair_le).
  - intros [a b] [c d] _ _. unfold pair_le. cbn. intros. f_equal; lia.
  - apply (StronglySorted_fmap ct_pair ct_le); [done|].
    apply StronglySorted_merge_sort; unfold ct_le, pair_le; [intros ???; lia|intros ??; lia].
  - apply StronglySorted_merge_sort; unfold pair_le; [intros ???; lia|intros ??; lia].
  - by rewrite !merge_sort_Permutation.
Qed.

Section BuildSpec.
  Context {HS : Hashing} {HL : HashingLaws HS} {K : MlKem} {KL : MlKemLaws K} {A : Aead} {AL : AeadLaws A}.
  Context (gid : bytes) (n u gen bv prev : Z) (rrh before : bytes) (pre : snapshot).
  Context (ps_leaf : bytes) (coins : Z -> Z -> bytes).

#[local] Abbreviation leaf := (leaf_node n u).
#[local] Abbreviation path := (path_of (leaf_node n u)).

Definition node_secret (m : gmap Z bytes) (node : Z) : bytes := default [] (m !! node).

Definition key_spec (m : gmap Z bytes) (node : Z) : NewPublicKeyWire :=
  {| npk_node := node; npk_ek := (node_material gid (node_secret m node) bv rrh n node).2 |}.

Definition material_spec (m : gmap Z bytes) (node : Z) : NodeKeyMaterial :=
  let x := node_material gid (node_secret m node) bv rrh n node in
  {| nkm_dk := x.1.1; nkm_pkhash := x.1.2 |}.

Lemma build_new_keys_loop (m : gmap Z bytes) nodes (mat : gmap Z NodeKeyMaterial) ks :
  Forall (fun x => is_Some (m !! x) /\ x <= U32_MAX) nodes ->
  fold_res (fun '(material, keys) node =>
      path_secret ← ok_or (m !! node) "missing path secret for node";
      m ← derive_internal_node_key_material gid path_secret bv rrh n node;
      fail_if (U32_MAX <? node) "barrier node index overflow" ;;
      let '(dk, pkhash, ek) := m in
      Ok (<[node := {| nkm_dk := dk; nkm_pkhash := pkhash |}]> material,
          keys ++ [{| npk_node := node; npk_ek := ek |}])) (mat, ks) nodes
  = Ok (foldl (fun acc node => <[node := material_spec m node]> acc) mat nodes, ks ++ (key_spec m <$> nodes)).
Proof.
  revert mat ks; induction nodes as [|x nodes IH]; intros mat ks Hn; cbn [fold_res]; [by rewrite app_nil_r|].
  apply Forall_cons in Hn as [[[s Hs] Hx] Hn]. rewrite Hs. cbn [ok_or mbind result_bind].
  rewrite derive_internal_node_key_material_ok. cbn [mbind result_bind].
  rewrite (proj2 (Z.ltb_ge U32_MAX x)) by lia. cbn [fail_if mbind result_bind node_material].
  rewrite IH by done. cbn [foldl fmap list_fmap]. unfold material_spec, key_spec, node_secret. rewrite Hs.
  by rewrite <- (assoc_L (++)).
Qed.

Lemma build_new_keys_ok (m : gmap Z bytes) nodes :
  Forall (fun x => is_Some (m !! x) /\ x <= U32_MAX) nodes ->
  build_new_keys gid bv rrh n m nodes
  = Ok (foldl (fun acc node => <[node := material_spec m node]> acc) ∅ nodes, key_spec m <$> nodes).
Proof. intros. unfold build_new_keys. by rewrite build_new_keys_loop. Qed.

Lemma material_lookup (m : gmap Z bytes) nodes (mat : gmap Z NodeKeyMaterial) x :
  foldl (fun acc node => <[node := material_spec m node]> acc) mat nodes !! x =
  if bool_decide (x ∈ nodes) then Some (material_spec m x) else mat !! x.
Proof.
  revert mat; induction nodes as [|y nodes IH]; intros mat; cbn [foldl]; [done|]. rewrite IH.
  rewrite (bool_decide_ext (x ∈ y :: nodes) (x = y \/ x ∈ nodes)) by apply elem_of_cons.
  case_bool_decide as H1; case_bool_decide as H2; try done; try (exfalso; clear -H1 H2; naive_solver).
  - rewrite lookup_insert. case_decide; [by subst|]. exfalso. clear -H1 H2 H. naive_solver.
  - rewrite lookup_insert_ne; [done|]. clear -H2. naive_solver.
Qed.

(** *** Ciphertexts *)

Definition wrap_spec (m : gmap Z bytes) (after : bytes) (s t : Z) : NodeCiphertextWire :=
  let pk := default [] (vget pre t) in
  let aad := wrap_aad gid bv prev n rrh before after u gen s t (pkhash_of pk) in
  let nonce := take 12 (hl_digest "barrier/wrap/nonce" (VArray [VInteger s; VInteger t])) in
  {| ncw_source := s; ncw_target := t; ncw_target_pk_hash := take 16 (pkhash_of pk);
     ncw_kem_ct := (encaps pk (coins s t)).2;
     ncw_wrapped_ps := default [] (aead_encrypt (encaps pk (coins s t)).1 nonce aad (node_secret m s)) |}.

Lemma wrap_nonce_ok s t :
  wrap_nonce s t = Ok (take 12 (hl_digest "barrier/wrap/nonce" (VArray [VInteger s; VInteger t]))).
Proof. unfold wrap_nonce. by rewrite h_l_digest. Qed.

Context (Hwf : tree_wf n pre) (Hu : 0 <= u < n) (Hkeys : keys_valid pre).

Lemma leaf_nonneg : 0 <= leaf < 2 * n - 1.
Proof using Hwf Hu. unfold leaf_node. destruct (n_max_bounds n (proj1 Hwf)) as (_ & _ & ?). lia. Qed.

Lemma path_head : path = leaf :: tail path.
Proof using Hwf Hu. destruct (path_of_head leaf) as [tl Htl]; [apply leaf_nonneg|]. by rewrite Htl. Qed.

Lemma wrap_target_ok m after s t secret pk :
  m !! s = Some secret -> len secret = 32 -> vget pre t = Some pk -> pk <> [] ->
  wrap_target gid bv prev n rrh before after u gen pre m coins s t = Ok (wrap_spec m after s t).
Proof using Hkeys AL.
  intros Hs Hlen Hpk Hne. unfold wrap_target, wrap_spec, node_secret. rewrite Hpk, Hs.
  destruct (Hkeys t pk Hpk Hne) as [Hl Hv]. cbn [ok_or mbind result_bind default].
  unfold bytes_eqb. rewrite bool_decide_false by done. cbn [fail_if mbind result_bind].
  rewrite compute_barrier_pkhash_ok. cbn [mbind result_bind].
  unfold PublicKey_from_bytes, decode_array. rewrite (proj2 (Z.eqb_eq _ _) Hl). cbn [mbind option_bind].
  rewrite Hv. cbn [ok_or mbind result_bind]. unfold encapsulate.
  destruct (encaps pk (coins s t)) as [ss ct] eqn:Ee. rewrite wrap_nonce_ok. cbn [ok_or mbind result_bind fst snd].
  match goal with |- context [aead_encrypt ?k ?no ?ad secret] =>
    destruct (aead_roundtrip k no ad secret Hlen) as (x & Hx & _) end.
  rewrite Hx. cbn. rewrite Ee. cbn. by rewrite Hx.
Qed.

Lemma copath_targets_ok node :
  0 < node < 2 * n - 1 ->
  collect_resolution_targets pre (sib (node + 1) - 1) (n - 1) [] = Ok (targets_of n pre (sib (node + 1) - 1)).
Proof using Hwf.
  intros Hn. pose proof (sib_range n pre Hwf node Hn) as Hsr.
  pose proof (at_height_node n (proj1 Hwf) _ Hsr) as Hat. unfold targets_of.
  rewrite <- (collect_resolution_targets_spec n pre _ _ Hwf Hat). f_equal. lia.
Qed.

Lemma wrap_targets_ok m after source secret i :
  m !! source = Some secret -> len secret = 32 ->
  map_res (wrap_target gid bv prev n rrh before after u gen pre m coins source)
    (merge_sort Z.le (targets_of n pre i))
  = Ok (wrap_spec m after source <$> merge_sort Z.le (targets_of n pre i)).
Proof using Hkeys AL.
  intros Hs Hlen. apply map_res_pure. intros t Ht. rewrite merge_sort_Permutation in Ht.
  apply resolution_sound in Ht as [(pk & Hpk & Hne) _]. by eapply wrap_target_ok.
Qed.

Lemma build_node_ciphertexts_ok m after node :
  0 <= node < 2 * n - 1 ->
  (forall s, s ∈ tail (path_of node) -> exists x, m !! s = Some x /\ len x = 32) ->
  build_node_ciphertexts gid bv prev n rrh before after u gen pre m coins (n - 1) (path_of node)
  = Ok ((fun p => wrap_spec m after p.1 p.2) <$> copath_pairs n pre (path_of node)).
Proof using Hkeys AL Hwf.
  intros [Hn Hm]. revert Hm. pattern node. revert node Hn.
  apply path_of_ind; [by rewrite path_of_0|].
  intros node Hn IH Hm Hsec. rewrite copath_pairs_step by done. rewrite path_of_step in * by done.
  assert (0 <= (node - 1) / 2 < node).
  { split; [apply Z.div_pos; lia|]. apply Z.div_lt_upper_bound; lia. }
  destruct (path_of_head ((node - 1) / 2)) as [tl Htl]; [lia|]. rewrite Htl in *.
  rewrite build_node_ciphertexts_cons, sibling_node_sib by done. rewrite ok_or_Some, bind_Ok.
  rewrite copath_targets_ok by lia. rewrite bind_Ok.
  destruct (Hsec ((node - 1) / 2)) as (x & Hx & Hlx); [by constructor|].
  erewrite wrap_targets_ok by done. rewrite bind_Ok.
  rewrite IH; [|lia|intros s Hs; apply Hsec; by constructor]. rewrite bind_Ok.
  by rewrite fmap_app, <- list_fmap_compose.
Qed.

(** *** The whole update *)

Definition built_nodes : list Z := reverse (tail path).
Definition built_keys (m : gmap Z bytes) : list NewPublicKeyWire := key_spec m <$> built_nodes.
Definition built_post (m : gmap Z bytes) : snapshot := apply_keys pre (parsed_key <$> built_keys m).
Definition built_cts (m : gmap Z bytes) (after : bytes) : list NodeCiphertextWire :=
  merge_sort ct_le ((fun p => wrap_spec m after p.1 p.2) <$> copath_pairs n pre path).
Definition built_material (m : gmap Z bytes) : gmap Z NodeKeyMaterial :=
  foldl (fun acc node => <[node := material_spec m node]> acc) ∅ built_nodes.

Definition built_cover (m : gmap Z bytes) (after : bytes) : KemTreeCoverPayloadWire :=
  {| cpw_updater_slot_index := u; cpw_updater_slot_generation := gen; cpw_path_nodes := path;
     cpw_revoked_hint := None; cpw_node_ciphertexts := built_cts m after;
     cpw_new_public_keys := built_keys m |}.

Definition built_update (m : gmap Z bytes) (after : bytes) : BarrierUpdateWire :=
  {| buw_mode := "barrier-v1"; buw_barrier_version := bv; buw_prev_barrier_version := prev;
     buw_tree_size := n; buw_revocation_roots_hash := rrh; buw_kem_tree_hash_before := before;
     buw_kem_tree_hash_after := after; buw_cover_payload := cbor (cover_value (built_cover m after)) |}.

Definition built_result (m : gmap Z bytes) (after : bytes) : BarrierUpdateBuildResult :=
  {| bur_raw_update := cbor (update_value (built_update m after));
     bur_barrier_update_digest :=
       hl_digest "barrier/update/digest" (VBytes (cbor (update_value (built_update m after))));
     bur_kem_tree_hash_after := after; bur_k_barrier_new := k_barrier_of gid bv rrh (node_secret m 0);
     bur_on_path_key_material := built_material m; bur_snapshot_post := built_post m |}.

Lemma tail_range x : x ∈ tail path -> 0 <= x < n - 1.
Proof using Hwf Hu.
  intros Hx. destruct (tail_path_props n u (proj1 Hwf) Hu) as (_ & Hr & _).
  rewrite Forall_forall in Hr. by apply Hr.
Qed.

Lemma sorted_tail : merge_sort Z.le (tail path) = built_nodes.
Proof using Hwf Hu.
  apply merge_sort_decreasing. pose proof (path_of_decreasing (leaf_node n u)) as Hd.
  rewrite path_head in Hd. apply StronglySorted_inv in Hd as [? _]; [done|]. apply leaf_nonneg.
Qed.

Lemma built_post_wf m : tree_wf n (built_post m).
Proof using Hwf. split; [apply Hwf|]. unfold built_post. rewrite len_apply_keys. apply Hwf. Qed.

Lemma path_secrets_ok :
  exists m, derive_path_secrets gid (leaf_node n u) (tail path) {[leaf_node n u := ps_leaf]} = Ok m /\
    m !! leaf_node n u = Some ps_leaf /\ secret_chain gid m (leaf_node n u) (tail path).
Proof using Hwf Hu.
  pose proof (path_of_NoDup (leaf_node n u) (proj1 leaf_nonneg)) as Hnd. rewrite path_head in Hnd.
  destruct (derive_path_secrets_ok gid (leaf_node n u) (tail path) {[leaf_node n u := ps_leaf]})
    as (m & Hm & Hout & Hch); [rewrite lookup_singleton_eq; eauto|done|].
  exists m. split_and!; [done| |done]. rewrite Hout, lookup_singleton_eq; [done|].
  by apply NoDup_cons in Hnd as [? _].
Qed.

Lemma root_in_chain (m : gmap Z bytes) : secret_chain gid m (leaf_node n u) (tail path) -> m !! 0 = Some (node_secret m 0).
Proof using Hwf Hu.
  intros Hch. destruct (secret_chain_elem gid m (leaf_node n u) (tail path) 0 Hch) as [s Hs].
  - rewrite <- path_head. apply path_of_root. apply leaf_nonneg.
  - unfold node_secret. by rewrite Hs.
Qed.

Lemma chain_secrets (m : gmap Z bytes) s :
  secret_chain gid m (leaf_node n u) (tail path) -> s ∈ tail path -> exists x, m !! s = Some x /\ len x = 32.
Proof using HL.
  intros Hch Hs. destruct (secret_chain_elem gid m (leaf_node n u) (tail path) s Hch) as [x Hx]; [by constructor|].
  exists x. split; [done|]. by eapply secret_chain_len.
Qed.

(** A build succeeds whenever the tree is well formed and its keys are. *)
Lemma build_ok :
  exists m after, m !! leaf_node n u = Some ps_leaf /\ secret_chain gid m (leaf_node n u) (tail path) /\
    BarrierTree.compute_barrier_tree_hash n (built_post m) = Ok after /\
    build_barrier_update_bytes gid n u gen bv prev rrh before pre ps_leaf coins = Ok (built_result m after).
Proof using Hwf Hu Hkeys HL AL.
  destruct path_secrets_ok as (m & Hm & Hl & Hch). exists m.
  pose proof (BarrierTree.compute_barrier_tree_hash_ok n (built_post m) (built_post_wf m)) as Ha.
  eexists. split_and!; [done|done|exact Ha|]. revert Ha.
  generalize (tree_digest n (built_post m) (Z.to_nat (Z.log2 n)) 1) as after. intros after Ha.
  destruct (n_max_bounds n (proj1 Hwf)) as (_ & _ & ?).
  unfold build_barrier_update_bytes, expected_barrier_tree_nodes. rewrite (proj1 Hwf). rstep.
  rewrite (proj2 (Z.leb_gt n u)) by lia. rstep. rewrite (proj1 Hwf). rstep.
  rewrite tree_size_ok by lia. rstep. rewrite (proj2 Hwf), Z.eqb_refl. cbn [negb]. rstep.
  rewrite barrier_path_nodes_eq by (done || apply Hwf). rstep.
  rewrite path_head at 1. cbn [head]. rstep. rewrite Hm. rstep. rewrite (root_in_chain m Hch). rstep.
  rewrite derive_k_barrier_ok. rstep. rewrite sorted_tail, build_new_keys_ok. 2:{
    apply Forall_forall. intros x Hx. unfold built_nodes in Hx. rewrite elem_of_reverse in Hx.
    destruct (chain_secrets m x Hch Hx) as (s & Hs & _). pose proof (tail_range x Hx).
    split; [eauto|]. unfold U32_MAX. lia. }
  rstep. fold (built_keys m). rewrite apply_new_keys_ok. 2:{
    apply Forall_forall. intros kv (k & -> & (x & -> & Hx)%list_elem_of_fmap)%list_elem_of_fmap.
    unfold built_nodes in Hx. rewrite elem_of_reverse in Hx. pose proof (tail_range x Hx).
    rewrite (proj2 Hwf). cbn. lia. }
  rstep. fold (built_post m). rewrite Ha. rstep.
  replace (sat_sub n 1) with (n - 1) by (unfold sat_sub; lia).
  rewrite build_node_ciphertexts_ok; [|apply leaf_nonneg|by intros s Hs; apply (chain_secrets m)].
  rstep. unfold compute_barrier_update_digest. rewrite h_l_digest by done. rstep. reflexivity.
Qed.

(** *** The built update is well formed *)

Lemma built_pairs (m : gmap Z bytes) after :
  ct_pair <$> built_cts m after = merge_sort pair_le (copath_pairs n pre path).
Proof using Hwf Hu.
  unfold built_cts. rewrite ct_pair_sort.
  - f_equal. rewrite <- list_fmap_compose. rewrite <- (list_fmap_id (copath_pairs n pre path)) at 2.
    apply list_fmap_ext. by intros _ [s t] _.
  - rewrite <- list_fmap_compose. apply NoDup_fmap_2_strong.
    + by intros [s t] [s' t'] _ _ [= -> ->].
    + apply (copath_pairs_NoDup n pre Hwf). apply leaf_nonneg.
Qed.

Lemma built_ct_elem (m : gmap Z bytes) after c :
  c ∈ built_cts m after <-> exists s t, (s, t) ∈ copath_pairs n pre path /\ c = wrap_spec m after s t.
Proof.
  unfold built_cts. rewrite merge_sort_Permutation, list_elem_of_fmap. split.
  - intros ([s t] & -> & Hin). by exists s, t.
  - intros (s & t & Hin & ->). by exists (s, t).
Qed.

Lemma copath_pair_range s t :
  (s, t) ∈ copath_pairs n pre path ->
  0 <= s < n - 1 /\ 0 <= t < 2 * n - 1 /\ exists pk, vget pre t = Some pk /\ pk <> [].
Proof using Hwf Hu.
  intros Hin. pose proof (copath_pairs_source n pre _ _ _ (proj1 leaf_nonneg) Hin) as Hs.
  apply tail_range in Hs. apply elem_of_copath_pairs in Hin as (k & _ & _ & Ht); [|apply leaf_nonneg].
  pose proof (resolution_range _ _ _ _ Ht) as Hr. apply resolution_sound in Ht as [Hpk _].
  rewrite (proj2 Hwf) in Hr. split_and!; try lia; done.
Qed.

Lemma pkhash_len ek : len (pkhash_of ek) = 32.
Proof using HL. unfold pkhash_of, hl_digest, len. by rewrite derive_key_len. Qed.

Lemma wrap_spec_wf (m : gmap Z bytes) after s t :
  secret_chain gid m (leaf_node n u) (tail path) -> (s, t) ∈ copath_pairs n pre path ->
  ciphertext_wf n (wrap_spec m after s t).
Proof using Hwf Hu HL KL AL.
  intros Hch Hin. destruct (copath_pair_range s t Hin) as (Hs & Ht & pk & Hpk & _).
  pose proof (copath_pairs_source n pre _ _ _ (proj1 leaf_nonneg) Hin) as Hsrc.
  destruct (chain_secrets m s Hch Hsrc) as (x & Hx & Hlx).
  unfold wrap_spec, ciphertext_wf. cbn -[Z.mul]. split_and!; try lia.
  - pose proof (pkhash_len (default [] (vget pre t))). unfold len in *. rewrite length_take. lia.
  - apply encaps_ct_len.
  - unfold node_secret. rewrite Hx. cbn. match goal with |- context [aead_encrypt ?k ?no ?ad x] =>
      destruct (aead_roundtrip k no ad x Hlx) as (y & -> & Hy & _) end. done.
Qed.

Lemma built_wire_wf (m : gmap Z bytes) after :
  secret_chain gid m (leaf_node n u) (tail path) ->
  BarrierTree.compute_barrier_tree_hash n (built_post m) = Ok after ->
  len rrh = 32 -> len before = 32 ->
  wire_wf n (built_update m after) (built_cover m after).
Proof using Hwf Hu HL KL AL.
  intros Hch Ha Hr Hb. split; cbn; try done.
  - unfold built_keys. rewrite <- list_fmap_compose. rewrite <- (list_fmap_id (reverse (tail path))).
    apply list_fmap_ext. done.
  - apply Forall_forall. intros k (x & -> & _)%list_elem_of_fmap. cbn. apply keygen_pair.
  - apply Forall_forall. intros c (s & t & Hin & ->)%built_ct_elem. by apply wrap_spec_wf.
  - rewrite built_pairs. apply pair_le_lt, (copath_pairs_NoDup n pre Hwf), leaf_nonneg.
  - apply BarrierTree.compute_barrier_tree_hash_inv in Ha as [_ ->].
    destruct (Z.to_nat (Z.log2 n)); cbn; unfold hl_digest, len; by rewrite derive_key_len.
Qed.

Lemma built_decodes {WC : WireCodec} {WL : WireCodecLaws WC} (m : gmap Z bytes) after :
  is_u64 gen -> is_u64 bv -> is_u64 prev ->
  decodes_to (cbor (update_value (built_update m after))) (built_update m after) (built_cover m after).
Proof using Hwf Hu.
  intros Hg Hbv Hp. destruct (n_max_bounds n (proj1 Hwf)) as (_ & _ & ?). pose proof leaf_nonneg.
  split_and!; try done.
  - apply decode_encode_update. split_and!; try done. unfold is_u64, U64_MAX in *. cbn. lia.
  - cbn. apply decode_encode_cover. unfold cover_u64, is_u64, U64_MAX in *. cbn -[Z.mul].
    split_and!; try lia.
    + apply Forall_forall. intros x Hx. apply path_of_range in Hx; lia.
    + constructor.
    + apply Forall_forall. intros c (s & t & Hin & ->)%built_ct_elem.
      destruct (copath_pair_range s t Hin) as (? & ? & _). cbn. lia.
    + apply Forall_forall. intros k (x & -> & Hx)%list_elem_of_fmap. unfold built_nodes in Hx.
      rewrite elem_of_reverse in Hx. apply tail_range in Hx. cbn. lia.
Qed.

End BuildSpec.
