(* ===== verification/BarrierRecover.v ===== *)
(** * Recovering a barrier update

    Models [recover_barrier_update] of
    [crates/cityg-client/src/barrier_recovery.rs] (whole function) and proves
    the end-to-end property of the barrier tree: what one member builds,
    every other member with a key on a covering node recovers, deriving the
    same barrier key and the same node keys; a member with no key on any
    target learns nothing. *)

From S2P Require Import Prelude Hash Heap BarrierTree Errors ServerTree BarrierWire BarrierCrypto BarrierBuild.

Record BarrierSlotLease := { bsl_slot_index : Z; bsl_slot_generation : Z }.

Record BarrierRecoverResult := {
  brr_barrier_version : Z;
  brr_k_barrier_new : bytes;
  brr_kem_tree_hash_after : bytes;
  brr_k_fs_after_pcs : option bytes;
  brr_derived_node_key_material : gmap Z NodeKeyMaterial
}.

Record BarrierRecoveryInput := {
  bri_gid : bytes;
  bri_local_n_max : Z;
  bri_local_slot_lease : BarrierSlotLease;
  bri_local_barrier_initialized : bool;
  bri_local_barrier_version : Z;
  bri_local_barrier_roots_hash : bytes;
  bri_local_kem_tree_hash_after : bytes;
  bri_local_pop_public_key : bytes;
  bri_local_leaf_material : NodeKeyMaterial;
  bri_local_node_materials : gmap Z NodeKeyMaterial;
  bri_local_k_fs_before : bytes;
  bri_weid : bytes;
  bri_fs_ec : Z;
  bri_raw_update : bytes;
  bri_barrier_update_reason : Z;
  bri_revoked_since_root : bytes;
  bri_revoked_root : bytes;
  bri_author_pop_public_key : option bytes;
  bri_max_barrier_update_bytes : Z;
  bri_expected_before_hash : option bytes;
  bri_skip_local_checks : bool
}.

(** [iter().position(|node| *node == source_node)] *)
Fixpoint position (x : Z) (l : list Z) : option nat :=
  match l with
  | [] => None
  | y :: l' => if y =? x then Some O else S <$> position x l'
  end.

(** [BTreeMap::get] on the entries of a map. *)
Fixpoint btree_get (k : Z) (l : list (Z * bytes)) : option bytes :=
  match l with
  | [] => None
  | (k', v) :: l' => if k' =? k then Some v else btree_get k l'
  end.

Section Recover.
  Context {HS : Hashing} {WC : WireCodec} {K : MlKem} {A : Aead}.

(** What the loop over the ciphertexts does with one of them: nothing, a
    candidate that fails to decrypt, or a match. *)
Inductive unwrap_outcome :=
  | USkip
  | UFail
  | UMatch (source target : Z) (secret : bytes).

(** The shared secret of a candidate. *)
Definition candidate_shared_secret (leaf_node target_node : Z) (dk_bytes kem_ct : bytes)
    : bytes + unwrap_outcome :=
  if target_node =? leaf_node then
    if negb (len dk_bytes =? SECRET_KEY_BYTES) then inr USkip
    else
      match Ciphertext_from_bytes kem_ct with
      | None => inr USkip
      | Some ct =>
          match SecretKey_from_bytes dk_bytes with
          | None => inr USkip
          | Some dk => inl (decapsulate ct dk)
          end
      end
  else if len dk_bytes =? ML_KEM_EXPANDED_DK_BYTES then
    match decapsulate_internal_node_shared_secret dk_bytes kem_ct with
    | Ok ss => inl ss
    | Err _ => inr UFail
    end
  else inr UFail.

Definition try_unwrap (input : BarrierRecoveryInput) (parsed : ParsedBarrierUpdate)
    (self_path_set : gset Z) (leaf_node : Z) (node : ParsedNodeCiphertext)
    : result string unwrap_outcome :=
  if negb (bool_decide (pnc_target_node node ∈ self_path_set)) then Ok USkip
  else
    let material :=
      if pnc_target_node node =? leaf_node then Some (bri_local_leaf_material input)
      else bri_local_node_materials input !! (pnc_target_node node mod 2 ^ 32) in
    match material with
    | None => Ok USkip
    | Some material =>
        let pkhash_t := nkm_pkhash material in
        if negb (bytes_eqb (take 16 pkhash_t) (pnc_target_pk_hash node)) then Ok USkip
        else
          match candidate_shared_secret leaf_node (pnc_target_node node) (nkm_dk material) (pnc_kem_ct node) with
          | inr outcome => Ok outcome
          | inl ss =>
              let aad := wrap_aad (bri_gid input) (pbu_barrier_version parsed) (pbu_prev_barrier_version parsed)
                (pbu_tree_size parsed) (pbu_revocation_roots_hash parsed) (pbu_kem_tree_hash_before parsed)
                (pbu_kem_tree_hash_after parsed) (pbu_updater_slot_index parsed)
                (pbu_updater_slot_generation parsed) (pnc_source_node node) (pnc_target_node node) pkhash_t in
              nonce ← wrap_nonce (pnc_source_node node) (pnc_target_node node);
              match aead_decrypt ss nonce aad (pnc_wrapped_ps node) with
              | None => Ok UFail
              | Some plaintext =>
                  if negb (len plaintext =? 32) then Ok UFail
                  else Ok (UMatch (pnc_source_node node) (pnc_target_node node) plaintext)
              end
          end
    end.

(** The loop: matches and the failure flag. *)
Definition collect_matches (input : BarrierRecoveryInput) (parsed : ParsedBarrierUpdate)
    (self_path_set : gset Z) (leaf_node : Z) (nodes : list ParsedNodeCiphertext)
    : result string (list (Z * Z * bytes) * bool) :=
  fold_res (fun '(matches, failure) node =>
      outcome ← try_unwrap input parsed self_path_set leaf_node node;
      Ok match outcome with
         | USkip => (matches, failure)
         | UFail => (matches, true)
         | UMatch s t secret => (matches ++ [(s, t, secret)], failure)
         end) ([], false) nodes.

(** The loop over [path_nodes.iter().skip(source_index)]. *)
Definition derive_node_materials (input : BarrierRecoveryInput) (parsed : ParsedBarrierUpdate)
    (self_path_set : gset Z) (leaf_node : Z) (path_secrets : gmap Z bytes) (nodes : list Z)
    : result string (gmap Z NodeKeyMaterial) :=
  let expected := expected_node_set (pbu_path_nodes parsed) in
  fold_res (fun acc node =>
      if (node =? leaf_node) || negb (bool_decide (node ∈ self_path_set)) then Ok acc
      else
        path_secret ← ok_or (path_secrets !! node) "barrier recover missing path secret for node";
        m ← derive_internal_node_key_material (bri_gid input) path_secret (pbu_barrier_version parsed)
              (pbu_revocation_roots_hash parsed) (pbu_tree_size parsed) node;
        (if bool_decide (node ∈ expected) then
           announced_ek ← ok_or (btree_get node (pbu_new_public_keys parsed))
             "barrier recover rejected: missing new_public_keys for node (960.7)";
           fail_if (negb (bytes_eqb announced_ek m.2))
             "barrier recover rejected: new_public_keys mismatch for node (960.7)"
         else Ok tt) ;;
        fail_if (U32_MAX <? node) "barrier node index overflow" ;;
        Ok (<[node := {| nkm_dk := m.1.1; nkm_pkhash := m.1.2 |}]> acc)) ∅ nodes.

(** The checks against the local barrier state. *)
Definition genesis_local_case (input : BarrierRecoveryInput) (parsed : ParsedBarrierUpdate) : bool :=
  negb (bri_local_barrier_initialized input) && (pbu_prev_barrier_version parsed =? 0)
  && (pbu_barrier_version parsed =? 0).

Definition check_local_progression (input : BarrierRecoveryInput) (parsed : ParsedBarrierUpdate) : result string unit :=
  if bri_skip_local_checks input then Ok tt
  else
    fail_if (negb (genesis_local_case input parsed
        || (bri_local_barrier_initialized input
            && (pbu_prev_barrier_version parsed =? bri_local_barrier_version input)
            && (pbu_barrier_version parsed =? sat_add (bri_local_barrier_version input) 1))))
      "barrier version progression does not match local barrier state".

Definition check_local_before_hash (input : BarrierRecoveryInput) (parsed : ParsedBarrierUpdate) : result string unit :=
  if bri_skip_local_checks input then Ok tt
  else
    let required_before_hash := default (bri_local_kem_tree_hash_after input) (bri_expected_before_hash input) in
    fail_if (negb (bri_barrier_update_reason input =? 2)
             && negb (bytes_eqb (pbu_kem_tree_hash_before parsed) required_before_hash))
      "barrier hash-chain before-hash mismatch".

Definition check_local_reason (input : BarrierRecoveryInput) (parsed : ParsedBarrierUpdate) : result string unit :=
  if bri_skip_local_checks input then Ok tt
  else if genesis_local_case input parsed then Ok tt
  else if bytes_eqb (bri_local_barrier_roots_hash input) (pbu_revocation_roots_hash parsed) then
    fail_if (negb ((bri_barrier_update_reason input =? 1) || (bri_barrier_update_reason input =? 2)))
      "barrier_update_reason must be pcs_refresh (1) or join_finalize (2)"
  else
    fail_if (negb (bri_barrier_update_reason input =? 0))
      "barrier_update_reason must be revocation_or_bootstrap (0)".

(** From the single match to the result. *)
Definition finish_recovery (input : BarrierRecoveryInput) (parsed : ParsedBarrierUpdate)
    (self_path_set : gset Z) (leaf_node : Z) (source_node target_node : Z) (source_secret : bytes)
    : result string (option BarrierRecoverResult) :=
  fail_if (negb (bool_decide (source_node ∈ self_path_set)) || negb (bool_decide (target_node ∈ self_path_set)))
    "barrier recover rejected: off-path source/target (960.7)" ;;
  source_index ← ok_or (position source_node (pbu_path_nodes parsed))
    "barrier recover rejected: source missing from path_nodes (960.7)";
  path_secrets ← derive_path_secrets (bri_gid input) source_node
    (drop (S source_index) (pbu_path_nodes parsed)) {[source_node := source_secret]};
  root_secret ← ok_or (path_secrets !! 0) "barrier recover failed to derive root path secret";
  k_barrier_new ← derive_k_barrier (bri_gid input) (pbu_barrier_version parsed)
    (pbu_revocation_roots_hash parsed) root_secret;
  derived ← derive_node_materials input parsed self_path_set leaf_node path_secrets
    (drop source_index (pbu_path_nodes parsed));
  k_fs_after_pcs ← (if bri_barrier_update_reason input =? 1 then
      Some <$> derive_k_fs_after_pcs (bri_local_k_fs_before input) (bri_weid input) (bri_fs_ec input)
                 (pbu_barrier_version parsed) k_barrier_new
    else Ok None);
  Ok (Some {| brr_barrier_version := pbu_barrier_version parsed; brr_k_barrier_new := k_barrier_new;
              brr_kem_tree_hash_after := pbu_kem_tree_hash_after parsed;
              brr_k_fs_after_pcs := k_fs_after_pcs; brr_derived_node_key_material := derived |}).

Definition recover_barrier_update (input : BarrierRecoveryInput) : result string (option BarrierRecoverResult) :=
  fail_if (bri_max_barrier_update_bytes input =? 0) "max_barrier_update_bytes must be positive" ;;
  let n_max := Z.max (bri_local_n_max input) 1 in
  parsed ← parse_barrier_update_for_recover (bri_raw_update input) n_max (bri_max_barrier_update_bytes input);
  fail_if (negb (((pbu_prev_barrier_version parsed =? 0) && (pbu_barrier_version parsed =? 0))
                 || (sat_add (pbu_prev_barrier_version parsed) 1 =? pbu_barrier_version parsed)))
    "barrier version progression is invalid" ;;
  check_local_progression input parsed ;;
  fail_if (negb (pbu_tree_size parsed =? n_max)) "barrier tree_size mismatch for local state" ;;
  check_local_before_hash input parsed ;;
  expected_rrh ← BarrierTree.compute_revocation_roots_hash (bri_revoked_since_root input) (bri_revoked_root input);
  fail_if (negb (bytes_eqb (pbu_revocation_roots_hash parsed) expected_rrh))
    "barrier revocation_roots_hash mismatch" ;;
  check_local_reason input parsed ;;
  let author_matches := match bri_author_pop_public_key input with
                        | Some pk => bytes_eqb pk (bri_local_pop_public_key input)
                        | None => false
                        end in
  if author_matches
     && (pbu_updater_slot_index parsed =? bsl_slot_index (bri_local_slot_lease input))
     && (pbu_updater_slot_generation parsed =? bsl_slot_generation (bri_local_slot_lease input))
  then Ok None
  else
    self_path ← barrier_path_nodes n_max (bsl_slot_index (bri_local_slot_lease input));
    let self_path_set : gset Z := list_to_set self_path in
    leaf_node ← ok_or (head self_path) "local self path is empty";
    collected ← collect_matches input parsed self_path_set leaf_node (pbu_node_ciphertexts parsed);
    let '(matches, candidate_decrypt_failure) := (collected : list (Z * Z * bytes) * bool) in
    match matches with
    | [] =>
        if candidate_decrypt_failure then Err "barrier recover rejected: candidate unwrap/decrypt failure (960.7)"
        else Ok None
    | [(source_node, target_node, source_secret)] =>
        finish_recovery input parsed self_path_set leaf_node source_node target_node source_secret
    | _ => Err "barrier recover rejected: multi-match (960.2)"
    end.

End Recover.

(** ** Which ciphertext reaches a member *)

Section Cover.
  Context (n : Z) (pre : snapshot) (Hwf : tree_wf n pre).
  Context (u l : Z) (Hu : 0 <= u < n) (Hl : 0 <= l < n) (Hul : u <> l).

#[local] Abbreviation U := (leaf_node n u + 1).
#[local] Abbreviation L := (leaf_node n l + 1).

Lemma leaves_level : 0 < U /\ 0 < L /\ Z.log2 U = Z.log2 n /\ Z.log2 L = Z.log2 n /\ U <> L.
Proof using Hwf Hu Hl Hul.
  destruct (n_max_bounds n (proj1 Hwf)) as (_ & _ & ?).
  rewrite !leaf_log2 by (done || apply Hwf). unfold leaf_node. lia.
Qed.

Lemma height_sib k : 0 <= k < Z.log2 n -> height n (sib (anc U k) - 1) = Z.to_nat k.
Proof using Hwf Hu Hl Hul.
  intros Hk. destruct leaves_level as (HU & _ & HlU & _ & _).
  pose proof (log2_anc U k HU ltac:(lia)) as Hlog.
  assert (1 < anc U k).
  { apply Z.log2_lt_cancel. change (Z.log2 1) with 0. lia. }
  unfold height. replace (sib (anc U k) - 1 + 1) with (sib (anc U k)) by lia.
  rewrite log2_sib, Hlog by done. f_equal. lia.
Qed.

Lemma targets_of_sib k : 0 <= k < Z.log2 n ->
  targets_of n pre (sib (anc U k) - 1) = resolution pre (Z.to_nat k) (sib (anc U k)).
Proof using Hwf Hu Hl Hul.
  intros Hk. unfold targets_of. rewrite height_sib by done. f_equal. lia.
Qed.

(** A target on [l]'s path pins the level down. *)
Lemma target_level k t j :
  0 <= k < Z.log2 n -> t ∈ resolution pre (Z.to_nat k) (sib (anc U k)) ->
  0 <= j <= Z.log2 n -> t + 1 = anc L j -> anc L k = sib (anc U k) /\ j <= k.
Proof using Hwf Hu Hl Hul.
  intros Hk Ht Hj He. destruct leaves_level as (HU & HL & HlU & HlL & _).
  apply resolution_sound in Ht as (_ & i & Hi & Ha). rewrite Z2Nat.id in Hi by lia.
  rewrite He, anc_anc in Ha by lia.
  pose proof (anc_pos U k HU ltac:(lia)) as Hp.
  assert (1 < anc U k).
  { apply Z.log2_lt_cancel. change (Z.log2 1) with 0. pose proof (log2_anc U k HU ltac:(lia)). lia. }
  assert (0 < sib (anc U k)) by (unfold sib; case_if; lia).
  assert (j + i <= Z.log2 L) by (apply anc_pos_le_log2; lia).
  pose proof (log2_anc L (j + i) HL ltac:(lia)) as Hlog. rewrite Ha, log2_sib in Hlog by done.
  rewrite log2_anc in Hlog by lia. assert (j + i = k) by lia. subst k. split; [done|lia].
Qed.

Lemma copath_cover pk :
  vget pre (leaf_node n l) = Some pk -> pk <> [] ->
  exists s t, (s, t) ∈ copath_pairs n pre (path_of (leaf_node n u)) /\
    t ∈ path_of (leaf_node n l) /\ s ∈ path_of (leaf_node n l) /\ s ∈ path_of (leaf_node n u) /\
    (forall s' t', (s', t') ∈ copath_pairs n pre (path_of (leaf_node n u)) ->
       t' ∈ path_of (leaf_node n l) -> s' = s /\ t' = t) /\
    (forall y, y ∈ path_of s <-> y ∈ path_of (leaf_node n u) /\ y ∈ path_of (leaf_node n l)).
Proof using Hwf Hu Hl Hul.
  intros Hpk Hne. destruct leaves_level as (HU & HL & HlU & HlL & HUL).
  destruct (diverge U L HU HL ltac:(lia) HUL) as (k & Hk & Hsib & Habove & Hbelow).
  rewrite HlU in Hk.
  pose proof (anc_pos U (k + 1) HU ltac:(lia)) as Hpos.
  destruct (resolution_covers pre (Z.to_nat k) (anc L k) L) as (j & Hj & Hin).
  { apply anc_pos; lia. }
  { by rewrite Z2Nat.id by lia. }
  { exists pk. by rewrite Z.add_simpl_r. }
  { intros i Hi. apply vget_is_Some. pose proof (anc_pos L i HL ltac:(lia)).
    pose proof (anc_le L i ltac:(lia) ltac:(lia)). destruct (leaf_in_range n pre l Hwf Hl). lia. }
  rewrite Z2Nat.id in Hj by lia. exists (anc U (k + 1) - 1), (anc L j - 1). split_and!.
  - apply elem_of_copath_pairs; [lia|]. exists k. rewrite targets_of_sib, <- Hsib by lia. split_and!; [lia|lia|lia|done].
  - apply elem_of_path_of. exists j. lia.
  - apply elem_of_path_of. exists (k + 1). rewrite <- Habove by lia. lia.
  - apply elem_of_path_of. exists (k + 1). lia.
  - intros s' t' (k' & Hk' & Hs' & Ht')%elem_of_copath_pairs (j' & Hj' & He')%elem_of_path_of; [|lia].
    rewrite targets_of_sib in Ht' by lia.
    destruct (target_level k' t' j') as [Hsib' Hj'k]; [lia|done|lia|done|].
    assert (k' = k) as ->.
    { assert (anc L (k' + 1) = anc U (k' + 1)) by (rewrite !anc_succ, Hsib' by lia; apply sib_half).
      assert (anc L k' <> anc U k') by (rewrite Hsib'; apply sib_ne).
      destruct (decide (k' < k)); [exfalso; by apply (Hbelow (k' + 1)); [lia|]|].
      destruct (decide (k < k')); [exfalso; by rewrite Habove in H0 by lia|lia]. }
    split; [lia|]. rewrite <- Hsib in Ht'.
    assert (j' = j) as ->; [|lia].
    eapply (resolution_cover_unique pre (Z.to_nat k) (anc L k) L);
      rewrite ?Z2Nat.id by lia; try lia; try done; [apply anc_pos; lia|].
    by replace (anc L j' - 1) with t' by lia.
  - intros y. rewrite !elem_of_path_of. replace (anc U (k + 1) - 1 + 1) with (anc U (k + 1)) by lia.
    rewrite log2_anc by lia. split.
    + intros (i & Hi & Hy). rewrite anc_anc in Hy by lia.
      split; exists (k + 1 + i); [split; [lia|done]|]. rewrite <- Habove by lia. split; [lia|done].
    + intros [(a & Ha & Hya) (b & Hb & Hyb)].
      pose proof (log2_anc U a HU ltac:(lia)). pose proof (log2_anc L b HL ltac:(lia)).
      rewrite <- Hya in *. rewrite <- Hyb in *. assert (a = b) as -> by lia.
      destruct (decide (b <= k)); [exfalso; apply (Hbelow b); lia|].
      exists (b - (k + 1)). split; [lia|]. rewrite anc_anc by lia. rewrite Hya. f_equal. lia.
Qed.

End Cover.

(** ** Loops *)

Section RecoverLoops.
  Context {HS : Hashing} {WC : WireCodec} {K : MlKem} {A : Aead}.
  Context (input : BarrierRecoveryInput) (parsed : ParsedBarrierUpdate).

Definition matches_step (self : gset Z) (leaf : Z) :
    list (Z * Z * bytes) * bool -> ParsedNodeCiphertext -> result string (list (Z * Z * bytes) * bool) :=
  fun '(matches, failure) node =>
      outcome ← try_unwrap input parsed self leaf node;
      Ok match outcome with
         | USkip => (matches, failure)
         | UFail => (matches, true)
         | UMatch s t secret => (matches ++ [(s, t, secret)], failure)
         end.

Lemma matches_step_eq self leaf ms f node outcome :
  try_unwrap input parsed self leaf node = Ok outcome ->
  matches_step self leaf (ms, f) node =
    Ok match outcome with
       | USkip => (ms, f)
       | UFail => (ms, true)
       | UMatch s t secret => (ms ++ [(s, t, secret)], f)
       end.
Proof. intros H. unfold matches_step. by rewrite H. Qed.

Lemma collect_skip self leaf nodes st :
  (forall y, y ∈ nodes -> try_unwrap input parsed self leaf y = Ok USkip) ->
  fold_res (matches_step self leaf) st nodes = Ok st.
Proof.
  revert st; induction nodes as [|y nodes IH]; intros [ms f] H; cbn [fold_res]; [done|].
  rewrite (matches_step_eq _ _ _ _ _ USkip) by (apply H; constructor). rewrite bind_Ok. apply IH.
  intros; apply H; by constructor.
Qed.

Lemma collect_matches_one self leaf l1 x l2 s t secret :
  (forall y, y ∈ l1 ++ l2 -> try_unwrap input parsed self leaf y = Ok USkip) ->
  try_unwrap input parsed self leaf x = Ok (UMatch s t secret) ->
  collect_matches input parsed self leaf (l1 ++ x :: l2) = Ok ([(s, t, secret)], false).
Proof.
  intros Hskip Hx. unfold collect_matches. fold (matches_step self leaf).
  rewrite fold_res_app, collect_skip by (intros; apply Hskip; set_solver). rewrite bind_Ok.
  cbn [fold_res]. rewrite (matches_step_eq _ _ _ _ _ _ Hx), bind_Ok.
  apply collect_skip. intros; apply Hskip; set_solver.
Qed.

Lemma collect_matches_none self leaf nodes :
  (forall y, y ∈ nodes -> try_unwrap input parsed self leaf y = Ok USkip) ->
  collect_matches input parsed self leaf nodes = Ok ([], false).
Proof. intros H. unfold collect_matches. fold (matches_step self leaf). by apply collect_skip. Qed.

Lemma try_unwrap_off_path self leaf node :
  pnc_target_node node ∉ self -> try_unwrap input parsed self leaf node = Ok USkip.
Proof. intros. unfold try_unwrap. by rewrite bool_decide_false. Qed.

Lemma position_app x l1 l2 : x ∉ l1 -> position x (l1 ++ x :: l2) = Some (length l1).
Proof.
  induction l1 as [|y l1 IH]; cbn; intros Hx; [by rewrite Z.eqb_refl|].
  apply not_elem_of_cons in Hx as [Hy Hx]. rewrite (proj2 (Z.eqb_neq y x)) by congruence. by rewrite IH.
Qed.

Lemma btree_get_fmap (f : Z -> bytes) nodes x :
  x ∈ nodes -> btree_get x ((fun k => (k, f k)) <$> nodes) = Some (f x).
Proof.
  induction nodes as [|y nodes IH]; cbn; intros Hx; [set_solver|].
  destruct (Z.eqb_spec y x) as [->|Hne]; [done|]. apply IH. set_solver.
Qed.

(** With secrets for every node and announced keys that match them, the loop
    over the path derives the material of the nodes on the member's path. *)
Lemma derive_node_materials_ok (self : gset Z) leaf (ps : gmap Z bytes) nodes (secret : Z -> bytes) :
  let mat node := let x := node_material (bri_gid input) (secret node) (pbu_barrier_version parsed)
                    (pbu_revocation_roots_hash parsed) (pbu_tree_size parsed) node in
                  ({| nkm_dk := x.1.1; nkm_pkhash := x.1.2 |}, x.2) in
  (forall x, x ∈ nodes -> x ∈ self /\ x <> leaf /\ x <= U32_MAX /\ ps !! x = Some (secret x) /\
     btree_get x (pbu_new_public_keys parsed) = Some (mat x).2) ->
  derive_node_materials input parsed self leaf ps nodes
  = Ok (foldl (fun acc x => <[x := (mat x).1]> acc) ∅ nodes).
Proof.
  intros mat. unfold derive_node_materials. generalize (∅ : gmap Z NodeKeyMaterial) as acc.
  induction nodes as [|x nodes IH]; intros acc H; cbn [fold_res foldl]; [done|].
  destruct (H x) as (H1 & H2 & H3 & H4 & H5); [by constructor|].
  rewrite (proj2 (Z.eqb_neq x leaf)), bool_decide_true by done. cbn [orb negb].
  rewrite H4. rstep. rewrite derive_internal_node_key_material_ok. rstep.
  rewrite H5. assert ((if bool_decide (x ∈ expected_node_set (pbu_path_nodes parsed)) then
      announced_ek ← ok_or (Some (mat x).2) "barrier recover rejected: missing new_public_keys for node (960.7)";
      fail_if (negb (bytes_eqb announced_ek (node_material (bri_gid input) (secret x) (pbu_barrier_version parsed)
                    (pbu_revocation_roots_hash parsed) (pbu_tree_size parsed) x).2))
        "barrier recover rejected: new_public_keys mismatch for node (960.7)"
      else Ok tt) = Ok tt) as ->.
  { case_if; [|done]. rstep. unfold mat. cbn [snd]. unfold bytes_eqb. by rewrite bool_decide_true. }
  rewrite (proj2 (Z.ltb_ge U32_MAX x)) by lia. rstep. apply IH. intros; apply H; by constructor.
Qed.

End RecoverLoops.

(** ** End to end *)

(** A member that can open what is sent to it: its leaf is in the tree and it
    holds the decapsulation key of its leaf and of every non-blank node on its
    path. *)
Record member_holds {HS : Hashing} {K : MlKem} (n : Z) (snap : snapshot) (slot : Z)
    (leaf_material : NodeKeyMaterial) (materials : gmap Z NodeKeyMaterial) : Prop := {
  mh_leaf : exists pk, vget snap (leaf_node n slot) = Some pk /\
    pk <> [] /\ kem_pair (nkm_dk leaf_material) pk /\ nkm_pkhash leaf_material = pkhash_of pk;
  mh_nodes : forall t pk, t ∈ tail (path_of (leaf_node n slot)) ->
    vget snap t = Some pk -> pk <> [] ->
    exists mat, materials !! t = Some mat /\ kem_pair (nkm_dk mat) pk /\ nkm_pkhash mat = pkhash_of pk
}.

(** The member's barrier state is the one the update extends, or the checks
    against it are switched off. *)
Definition local_state_matches (input : BarrierRecoveryInput) (bv prev : Z) (rrh before : bytes) : Prop :=
  bri_skip_local_checks input = true \/
  (bri_local_barrier_initialized input = true /\ prev = bri_local_barrier_version input /\
   bv = sat_add (bri_local_barrier_version input) 1 /\
   (bri_barrier_update_reason input = 2 \/
    before = default (bri_local_kem_tree_hash_after input) (bri_expected_before_hash input)) /\
   (if decide (bri_local_barrier_roots_hash input = rrh)
    then bri_barrier_update_reason input = 1 \/ bri_barrier_update_reason input = 2
    else bri_barrier_update_reason input = 0)).

Lemma local_checks_ok input parsed :
  local_state_matches input (pbu_barrier_version parsed) (pbu_prev_barrier_version parsed)
    (pbu_revocation_roots_hash parsed) (pbu_kem_tree_hash_before parsed) ->
  check_local_progression input parsed = Ok tt /\ check_local_before_hash input parsed = Ok tt /\
  check_local_reason input parsed = Ok tt.
Proof.
  unfold check_local_progression, check_local_before_hash, check_local_reason, genesis_local_case.
  intros [->|(Hi & Hp & Hb & Hh & Hr)]; [done|]. destruct (bri_skip_local_checks input); [done|].
  rewrite Hi, Hb, Hp, !Z.eqb_refl. cbn [negb andb orb fail_if]. split_and!; [done| |].
  - destruct Hh as [->| ->]; [done|]. unfold bytes_eqb. rewrite (bool_decide_true (_ = _)) by done.
    by rewrite andb_false_r.
  - unfold bytes_eqb. case_bool_decide; case_decide; try done; [by destruct Hr as [->| ->]|by rewrite Hr].
Qed.

Section EndToEnd.
  Context {HS : Hashing} {HL : HashingLaws HS} {WC : WireCodec} {WL : WireCodecLaws WC}.
  Context {K : MlKem} {KL : MlKemLaws K} {A : Aead} {AL : AeadLaws A}.
  Context (gid : bytes) (n u gen bv prev : Z) (rrh before : bytes) (pre : snapshot).
  Context (ps_leaf : bytes) (coins : Z -> Z -> bytes).
  Context (Hwf : tree_wf n pre) (Hu : 0 <= u < n) (Hkeys : keys_valid pre).
  Context (input : BarrierRecoveryInput) (Hgid : bri_gid input = gid).
  Context (Hl : 0 <= bsl_slot_index (bri_local_slot_lease input) < n).
  Context (Hul : u <> bsl_slot_index (bri_local_slot_lease input)).
  Context (m : gmap Z bytes) (after : bytes).
  Context (Hch : secret_chain gid m (leaf_node n u) (tail (path_of (leaf_node n u)))).

#[local] Abbreviation slot := (bsl_slot_index (bri_local_slot_lease input)).
#[local] Abbreviation leaf := (leaf_node n slot).
#[local] Abbreviation self := (list_to_set (path_of leaf) : gset Z).
#[local] Abbreviation upd := (built_update gid n u gen bv prev rrh before pre coins m after).
#[local] Abbreviation cov := (built_cover gid n u gen bv prev rrh before pre coins m after).
#[local] Abbreviation prs := (client_parsed upd cov).
#[local] Abbreviation wrapped := (wrap_spec gid n u gen bv prev rrh before pre coins m after).

(** The member's material for a target on its path. *)
Lemma material_on_path t pk :
  member_holds n pre slot (bri_local_leaf_material input) (bri_local_node_materials input) -> t ∈ path_of leaf -> vget pre t = Some pk -> pk <> [] ->
  exists mat, (if t =? leaf then Some (bri_local_leaf_material input)
               else bri_local_node_materials input !! (t mod 2 ^ 32)) = Some mat /\
    kem_pair (nkm_dk mat) pk /\ nkm_pkhash mat = pkhash_of pk.
Proof using Hwf Hl.
  clear -Hwf Hl.
  intros [(pk' & Hpk' & Hne' & Hk & Hh) Hnodes] Ht Hpk Hne. destruct (Z.eqb_spec t leaf) as [->|Hnl].
  - rewrite Hpk in Hpk'. injection Hpk' as <-. by eexists.
  - destruct (leaf_in_range n pre slot Hwf Hl) as [Hr _]. pose proof (path_of_range leaf t ltac:(lia) Ht).
    destruct (n_max_bounds n (proj1 Hwf)) as (_ & _ & ?). unfold leaf_node in *.
    rewrite Z.mod_small by lia. apply Hnodes; [|done|done].
    destruct (path_of_head (leaf_node n slot)) as [tl Htl]; [unfold leaf_node; lia|].
    unfold leaf_node in *. rewrite Htl in *. cbn. set_solver.
Qed.

Lemma candidate_secret_ok t mat pk c :
  kem_pair (nkm_dk mat) pk ->
  candidate_shared_secret leaf t (nkm_dk mat) (encaps pk c).2 = inl (encaps pk c).1.
Proof using KL.
  intros Hk. unfold candidate_shared_secret. destruct (t =? leaf).
  - rewrite (proj2 (Z.eqb_eq _ _) (proj1 Hk)). cbn [negb].
    rewrite Ciphertext_from_bytes_ok, (SecretKey_from_bytes_ok _ _ Hk). unfold decapsulate.
    f_equal. apply Hk.
  - unfold ML_KEM_EXPANDED_DK_BYTES. change 2400 with SECRET_KEY_BYTES.
    rewrite (proj2 (Z.eqb_eq _ _) (proj1 Hk)), (decapsulate_internal_ok _ pk) by done. done.
Qed.

(** The ciphertext for a target on the member's path yields the source's
    path secret. *)
Lemma try_unwrap_match s t :
  member_holds n pre slot (bri_local_leaf_material input) (bri_local_node_materials input) -> (s, t) ∈ copath_pairs n pre (path_of (leaf_node n u)) -> t ∈ path_of leaf ->
  try_unwrap input prs self leaf (parsed_ciphertext (wrapped s t)) = Ok (UMatch s t (node_secret m s)).
Proof using Hwf Hu Hl Hgid Hch KL AL HL.
  intros Hmem Hin Ht.
  destruct (copath_pair_range n u pre Hwf Hu s t Hin) as (Hs & Htr & pk & Hpk & Hne).
  destruct (material_on_path t pk Hmem Ht Hpk Hne) as (mat & Hmat & Hk & Hh).
  pose proof (copath_pairs_source n pre (leaf_node n u) s t (proj1 (leaf_nonneg n u pre Hwf Hu)) Hin) as Hsrc.
  destruct (chain_secrets gid n u m s Hch Hsrc) as (x & Hx & Hlx).
  unfold try_unwrap. cbn [pnc_target_node pnc_source_node parsed_ciphertext wrap_spec ncw_target ncw_source
    pnc_target_pk_hash pnc_kem_ct pnc_wrapped_ps ncw_target_pk_hash ncw_kem_ct ncw_wrapped_ps].
  rewrite bool_decide_true by (by apply elem_of_list_to_set). cbn [negb]. rewrite Hmat, Hh, Hpk.
  cbn [default]. unfold bytes_eqb. rewrite bool_decide_true by done. cbn [negb].
  rewrite candidate_secret_ok by done. rewrite wrap_nonce_ok, bind_Ok, Hgid.
  unfold node_secret. rewrite Hx. cbn [default id].
  match goal with |- context [aead_encrypt ?k ?no ?ad x] =>
    destruct (aead_roundtrip k no ad x Hlx) as (y & Hy & _ & Hdec) end.
  change (pbu_barrier_version prs) with bv. change (pbu_prev_barrier_version prs) with prev.
  change (pbu_tree_size prs) with n. change (pbu_revocation_roots_hash prs) with rrh.
  change (pbu_kem_tree_hash_before prs) with before. change (pbu_kem_tree_hash_after prs) with after.
  change (pbu_updater_slot_index prs) with u. change (pbu_updater_slot_generation prs) with gen.
  rewrite Hy. cbn [default id]. rewrite Hdec. by rewrite (proj2 (Z.eqb_eq _ _) Hlx).
Qed.

(** The member finds exactly one match. *)
Lemma collect_matches_built :
  member_holds n pre slot (bri_local_leaf_material input) (bri_local_node_materials input) ->
  exists s t, (s, t) ∈ copath_pairs n pre (path_of (leaf_node n u)) /\
    t ∈ path_of leaf /\ s ∈ path_of leaf /\ s ∈ path_of (leaf_node n u) /\
    (forall y, y ∈ path_of s <-> y ∈ path_of (leaf_node n u) /\ y ∈ path_of leaf) /\
    collect_matches input prs self leaf (pbu_node_ciphertexts prs) = Ok ([(s, t, node_secret m s)], false).
Proof using Hwf Hu Hl Hul Hgid Hch KL AL HL WL Hkeys.
  intros Hmem. pose proof (mh_leaf _ _ _ _ _ Hmem) as (pk & Hpk & Hne & _).
  destruct (copath_cover n pre Hwf u slot Hu Hl Hul pk Hpk Hne) as (s & t & Hin & Ht & Hs & Hsu & Huniq & Hpath).
  exists s, t. split_and!; try done.
  assert (wrapped s t ∈ cpw_node_ciphertexts cov) as Hc by (apply built_ct_elem; by exists s, t).
  apply list_elem_of_split in Hc as (l1 & l2 & Hc).
  change (pbu_node_ciphertexts prs) with (parsed_ciphertext <$> cpw_node_ciphertexts cov).
  rewrite Hc, fmap_app, fmap_cons.
  apply collect_matches_one; [|by apply try_unwrap_match].
  intros y Hy. rewrite <- fmap_app in Hy. apply list_elem_of_fmap in Hy as (c & -> & Hy).
  apply try_unwrap_off_path. rewrite elem_of_list_to_set. intros Hyt.
  assert (c ∈ cpw_node_ciphertexts cov) as Hcc by (rewrite Hc; set_solver).
  apply built_ct_elem in Hcc as (s' & t' & Hin' & ->). destruct (Huniq s' t' Hin' Hyt) as [-> ->].
  assert (NoDup (ct_pair <$> cpw_node_ciphertexts cov)) as Hnd.
  { cbn [cpw_node_ciphertexts built_cover]. rewrite (built_pairs gid n u gen bv prev rrh before pre coins Hwf Hu).
    rewrite merge_sort_Permutation. apply (copath_pairs_NoDup n pre Hwf), (leaf_nonneg n u pre Hwf Hu). }
  rewrite Hc, fmap_app, fmap_cons, <- (Permutation_middle (ct_pair <$> l1)), <- fmap_app in Hnd.
  apply NoDup_cons in Hnd as [Hnd _]. apply Hnd. by apply list_elem_of_fmap_2.
Qed.

(** The path above a shared node, its secrets and its announced keys. *)
Lemma shared_suffix s :
  s ∈ tail (path_of (leaf_node n u)) ->
  exists l1, path_of (leaf_node n u) = l1 ++ path_of s /\ s ∉ l1 /\ 0 <= s /\
    path_of s = s :: tail (path_of s) /\ secret_chain gid m s (tail (path_of s)) /\
    (forall x, x ∈ path_of s -> x ∈ tail (path_of (leaf_node n u))).
Proof using Hwf Hu Hch.
  intros Hs. pose proof (leaf_nonneg n u pre Hwf Hu) as [Hpos _]. clear -Hs Hpos Hch.
  destruct (path_of_head (leaf_node n u) Hpos) as [tl Htl]. rewrite Htl in *. cbn [tail] in *.
  assert (0 <= s) as Hs0 by (apply (path_of_range (leaf_node n u)); [done|rewrite Htl; by constructor]).
  pose proof (path_of_NoDup _ Hpos) as Hnd. rewrite Htl in Hnd. apply NoDup_cons in Hnd as [Hnin Hnd].
  destruct (path_of_suffix (leaf_node n u) s Hpos) as [l1 Hl1]; [rewrite Htl; by constructor|].
  destruct (path_of_head s Hs0) as [ts Hts]. rewrite Htl in Hl1.
  destruct l1 as [|y l1]; cbn in Hl1; rewrite Hts in Hl1; injection Hl1 as Hy Hl1.
  { subst s. by exfalso. }
  exists (y :: l1). subst y tl. rewrite Hts. cbn [tail app]. split_and!; try done.
  - apply NoDup_app in Hnd as (_ & Hnd & _). set_solver.
  - by apply secret_chain_suffix in Hch.
  - set_solver.
Qed.

Definition expected_result_holds (res : BarrierRecoverResult) : Prop :=
  brr_barrier_version res = bv /\ brr_k_barrier_new res = k_barrier_of gid bv rrh (node_secret m 0) /\
  brr_kem_tree_hash_after res = after /\
  forall x, brr_derived_node_key_material res !! x =
    if bool_decide (x ∈ path_of leaf) then built_material gid n u bv rrh m !! x else None.

Lemma finish_recovery_ok s t :
  s ∈ tail (path_of (leaf_node n u)) -> t ∈ path_of leaf -> s ∈ path_of leaf ->
  (forall y, y ∈ path_of s <-> y ∈ path_of (leaf_node n u) /\ y ∈ path_of leaf) ->
  exists res, finish_recovery input prs self leaf s t (node_secret m s) = Ok (Some res) /\
    expected_result_holds res.
Proof using Hwf Hu Hl Hch Hgid HL WL KL AL Hkeys Hul.
  intros Hs Ht Hsl Hpath. destruct (shared_suffix s Hs) as (l1 & Hl1 & Hnin & Hs0 & Hhd & Hchs & Htail).
  pose proof (path_of_NoDup s Hs0) as Hnd. rewrite Hhd in Hnd.
  destruct (derive_path_secrets_ok gid s (tail (path_of s)) {[s := node_secret m s]}) as (m2 & Hm2 & Hout & Hch2);
    [rewrite lookup_singleton_eq; eauto|done|].
  assert (forall x, x ∈ path_of s -> m2 !! x = Some (node_secret m x)) as Hagree.
  { intros x Hx. destruct (chain_secrets gid n u m x Hch (Htail x Hx)) as (v & Hv & _).
    unfold node_secret at 1. rewrite Hv. cbn [default id]. rewrite <- Hv. symmetry. rewrite Hhd in Hx.
    apply (secret_chain_agree gid m m2 s (tail (path_of s))); try done.
    rewrite Hout, lookup_singleton_eq by (by apply NoDup_cons in Hnd as [? _]).
    destruct (chain_secrets gid n u m s Hch Hs) as (w & Hw & _). unfold node_secret. by rewrite Hw. }
  unfold finish_recovery. rewrite !bool_decide_true by (by apply elem_of_list_to_set). rstep.
  change (pbu_path_nodes prs) with (path_of (leaf_node n u)).
  rewrite Hl1, Hhd, position_app by done. rstep.
  replace (drop (S (length l1)) (l1 ++ s :: tail (path_of s))) with (tail (path_of s)).
  2:{ rewrite <- Nat.add_1_r, <- drop_drop, drop_app_length. done. }
  rewrite drop_app_length, Hgid, Hm2. rstep.
  rewrite (Hagree 0) by (by apply path_of_root). rstep. rewrite derive_k_barrier_ok. rstep.
  rewrite <- Hhd, (derive_node_materials_ok _ _ _ _ _ _ (node_secret m)). 2:{
    intros x Hx. pose proof (Htail x Hx) as Hxt. pose proof (tail_range n u pre Hwf Hu x Hxt).
    destruct (n_max_bounds n (proj1 Hwf)) as (_ & _ & ?). split_and!.
    - apply elem_of_list_to_set. by apply Hpath.
    - unfold leaf_node. lia.
    - unfold U32_MAX. lia.
    - by apply Hagree.
    - cbn [client_parsed pbu_new_public_keys cpw_new_public_keys built_cover]. unfold built_keys.
      rewrite <- list_fmap_compose, Hgid. apply (btree_get_fmap (fun k => npk_ek (key_spec gid n bv rrh m k))).
      unfold built_nodes. by apply elem_of_reverse. }
  rstep.
  assert (exists o, (if bri_barrier_update_reason input =? 1 then
      Some <$> derive_k_fs_after_pcs (bri_local_k_fs_before input) (bri_weid input) (bri_fs_ec input)
                 (pbu_barrier_version prs) (k_barrier_of gid (pbu_barrier_version prs) (pbu_revocation_roots_hash prs) (node_secret m 0))
    else Ok None) = Ok o) as [o ->].
  { case_if; [|eauto]. unfold derive_k_fs_after_pcs. rewrite h_l_digest by done. eexists. reflexivity. }
  rstep. eexists. split; [reflexivity|]. split_and!; try done. cbn [brr_derived_node_key_material].
  intros x. rewrite Hgid. etrans; [apply material_lookup|]. unfold built_material. rewrite material_lookup.
  unfold built_nodes. clear -Hpath Htail Hhd. pose proof (Hpath x) as Hx. pose proof (Htail x) as Hxt.
  rewrite (bool_decide_ext _ _ (elem_of_reverse x (tail (path_of (leaf_node n u))))).
  repeat case_bool_decide; try done; exfalso; [tauto|tauto|].
  apply H, Hx. split; [|done]. by destruct (path_of (leaf_node n u)); [|constructor].
Qed.

(** All the checks before the recovery loop pass. *)
Lemma recover_reaches_loop since root max :
  is_u64 gen -> is_u64 bv -> is_u64 prev -> len before = 32 ->
  BarrierTree.compute_barrier_tree_hash n (built_post gid n u bv rrh pre m) = Ok after ->
  bri_local_n_max input = n -> bri_raw_update input = cbor (update_value upd) ->
  bri_max_barrier_update_bytes input = max -> 0 < max -> len (cbor (update_value upd)) <= max ->
  (prev = 0 /\ bv = 0) \/ sat_add prev 1 = bv ->
  bri_revoked_since_root input = since -> bri_revoked_root input = root ->
  BarrierTree.compute_revocation_roots_hash since root = Ok rrh ->
  local_state_matches input bv prev rrh before ->
  recover_barrier_update input =
    (collected ← collect_matches input prs self leaf (pbu_node_ciphertexts prs);
     let '(matches, candidate_decrypt_failure) := (collected : list (Z * Z * bytes) * bool) in
     match matches with
     | [] =>
         if candidate_decrypt_failure then Err "barrier recover rejected: candidate unwrap/decrypt failure (960.7)"
         else Ok None
     | [(source_node, target_node, source_secret)] =>
         finish_recovery input prs self leaf source_node target_node source_secret
     | _ => Err "barrier recover rejected: multi-match (960.2)"
     end).
Proof using Hwf Hu Hl Hul Hch Hkeys HL WL KL AL.
  intros Hg Hbv Hp Hb Ha Hn Hraw Hmax Hm0 Hlen Hprog Hsince Hroot Hrrh Hloc.
  assert (len rrh = 32) as Hlr.
  { unfold BarrierTree.compute_revocation_roots_hash in Hrrh. rewrite h_l_digest in Hrrh by done.
    injection Hrrh as <-. unfold hl_digest, len. by rewrite derive_key_len. }
  destruct (n_max_bounds n (proj1 Hwf)) as (_ & _ & ?).
  assert (parse_barrier_update_for_recover (bri_raw_update input) n max = Ok prs) as Hparse.
  { apply (client_parser_spec n (proj1 Hwf)). rewrite Hraw. split; [done|].
    exists upd, cov. split_and!; [by apply built_decodes|by apply built_wire_wf|done]. }
  unfold recover_barrier_update. rewrite Hmax, (proj2 (Z.eqb_neq max 0)) by lia. rstep.
  rewrite Hn. replace (Z.max n 1) with n by lia. rewrite Hparse. rstep.
  change (pbu_prev_barrier_version prs) with prev. change (pbu_barrier_version prs) with bv.
  replace ((prev =? 0) && (bv =? 0) || (sat_add prev 1 =? bv)) with true.
  2:{ destruct Hprog as [[-> ->]| <-]; [done|]. by rewrite Z.eqb_refl, orb_true_r. }
  cbn [negb]. rstep. destruct (local_checks_ok input prs Hloc) as (-> & -> & ->). rstep.
  change (pbu_tree_size prs) with n. rewrite Z.eqb_refl. cbn [negb]. rstep.
  rewrite Hsince, Hroot, Hrrh. rstep. change (pbu_revocation_roots_hash prs) with rrh.
  rewrite bytes_eqb_refl. cbn [negb]. rstep.
  change (pbu_updater_slot_index prs) with u. rewrite (proj2 (Z.eqb_neq u slot)) by done.
  rewrite andb_false_r. cbn [andb]. rewrite barrier_path_nodes_eq by (done || apply Hwf). rstep.
  destruct (path_of_head leaf) as [tl Htl]; [unfold leaf_node; lia|].
  assert (head (path_of leaf) = Some leaf) as -> by (by rewrite Htl). rstep. reflexivity.
Qed.

End EndToEnd.

(** The input of the member of slot [bri_local_slot_lease] that receives the
    update [r] built by the member of slot [u]. *)
Record receives {HS : Hashing} (gid : bytes) (n u bv prev : Z) (rrh before : bytes)
    (r : BarrierUpdateBuildResult) (input : BarrierRecoveryInput) : Prop := {
  rc_gid : bri_gid input = gid;
  rc_n_max : bri_local_n_max input = n;
  rc_raw : bri_raw_update input = bur_raw_update r;
  rc_max : 0 < bri_max_barrier_update_bytes input;
  rc_len : len (bur_raw_update r) <= bri_max_barrier_update_bytes input;
  rc_roots : BarrierTree.compute_revocation_roots_hash (bri_revoked_since_root input) (bri_revoked_root input) = Ok rrh;
  rc_local : local_state_matches input bv prev rrh before;
  rc_slot : 0 <= bsl_slot_index (bri_local_slot_lease input) < n;
  rc_other : u <> bsl_slot_index (bri_local_slot_lease input)
}.

(** Numbers a barrier update may carry. *)
Record update_numbers (gen bv prev : Z) (before : bytes) : Prop := {
  un_gen : is_u64 gen;
  un_bv : is_u64 bv;
  un_prev : is_u64 prev;
  un_progress : (prev = 0 /\ bv = 0) \/ sat_add prev 1 = bv;
  un_before : len before = 32
}.

Section Agreement.
  Context {HS : Hashing} {HL : HashingLaws HS} {WC : WireCodec} {WL : WireCodecLaws WC}.
  Context {K : MlKem} {KL : MlKemLaws K} {A : Aead} {AL : AeadLaws A}.
  Context (gid : bytes) (n u gen bv prev : Z) (rrh before : bytes) (pre : snapshot).
  Context (ps_leaf : bytes) (coins : Z -> Z -> bytes) (r : BarrierUpdateBuildResult).
  Context (input : BarrierRecoveryInput).

Lemma recover_built :
  tree_wf n pre -> 0 <= u < n -> keys_valid pre -> update_numbers gen bv prev before ->
  build_barrier_update_bytes gid n u gen bv prev rrh before pre ps_leaf coins = Ok r ->
  receives gid n u bv prev rrh before r input ->
  member_holds n pre (bsl_slot_index (bri_local_slot_lease input))
    (bri_local_leaf_material input) (bri_local_node_materials input) ->
  exists res, recover_barrier_update input = Ok (Some res) /\
    brr_barrier_version res = bv /\
    brr_k_barrier_new res = bur_k_barrier_new r /\
    brr_kem_tree_hash_after res = bur_kem_tree_hash_after r /\
    forall x, brr_derived_node_key_material res !! x =
      if bool_decide (x ∈ path_of (leaf_node n (bsl_slot_index (bri_local_slot_lease input))))
      then bur_on_path_key_material r !! x else None.
Proof using HL WL KL AL.
  intros Hwf Hu Hk [Hg Hbv Hp Hprog Hb] Hbuild [] Hmem.
  destruct (build_ok gid n u gen bv prev rrh before pre ps_leaf coins Hwf Hu Hk)
    as (m & after & _ & Hch & Ha & Hr). rewrite Hr in Hbuild. injection Hbuild as <-.
  destruct (collect_matches_built gid n u gen bv prev rrh before pre coins Hwf Hu Hk input rc_gid0 rc_slot0 rc_other0
    m after Hch Hmem) as (s & t & Hin & Ht & Hs & _ & Hpath & Hcol).
  pose proof (copath_pairs_source n pre _ s t (proj1 (leaf_nonneg n u pre Hwf Hu)) Hin) as Hsu.
  rewrite (recover_reaches_loop gid n u gen bv prev rrh before pre coins Hwf Hu Hk input rc_slot0 rc_other0
    m after Hch _ _ _ Hg Hbv Hp Hb Ha rc_n_max0 rc_raw0 eq_refl rc_max0 rc_len0 Hprog eq_refl eq_refl rc_roots0
    rc_local0). rewrite Hcol, bind_Ok.
  destruct (finish_recovery_ok gid n u gen bv prev rrh before pre coins Hwf Hu Hk input rc_gid0 rc_slot0 rc_other0
    m after Hch s t Hsu Ht Hs Hpath) as (res & Hfin & ? & ? & ? & ?).
  exists res. by split_and!.
Qed.

(** C3: An update built by one member is recovered by every other member of
    the tree that holds the keys of its path: recovery succeeds, exactly one
    ciphertext opens, the member computes the same barrier key and the same
    tree hash as the updater, and it obtains the updater's key material for
    precisely the nodes that lie on both paths. *)
Theorem recover_agrees_with_build :
  tree_wf n pre -> 0 <= u < n -> keys_valid pre -> update_numbers gen bv prev before ->
  build_barrier_update_bytes gid n u gen bv prev rrh before pre ps_leaf coins = Ok r ->
  receives gid n u bv prev rrh before r input ->
  member_holds n pre (bsl_slot_index (bri_local_slot_lease input))
    (bri_local_leaf_material input) (bri_local_node_materials input) ->
  exists res, recover_barrier_update input = Ok (Some res) /\
    brr_barrier_version res = bv /\
    brr_k_barrier_new res = bur_k_barrier_new r /\
    brr_kem_tree_hash_after res = bur_kem_tree_hash_after r /\
    forall x, brr_derived_node_key_material res !! x =
      if bool_decide (x ∈ path_of (leaf_node n (bsl_slot_index (bri_local_slot_lease input))))
      then bur_on_path_key_material r !! x else None.
Proof using HL WL KL AL. apply recover_built. Qed.

(** An update built over a tree in which the path of a slot is blank (as
    revocation leaves it) gives nothing to the holder of that slot, whatever
    key material it holds: recovery ends without a result and without an
    error. *)
Theorem recover_blanked_slot_none :
  tree_wf n pre -> 0 <= u < n -> keys_valid pre -> update_numbers gen bv prev before ->
  build_barrier_update_bytes gid n u gen bv prev rrh before pre ps_leaf coins = Ok r ->
  receives gid n u bv prev rrh before r input ->
  (forall t, t ∈ path_of (leaf_node n (bsl_slot_index (bri_local_slot_lease input))) -> vget pre t = Some []) ->
  recover_barrier_update input = Ok None.
Proof using HL WL KL AL.
  intros Hwf Hu Hk [Hg Hbv Hp Hprog Hb] Hbuild [] Hblank.
  destruct (build_ok gid n u gen bv prev rrh before pre ps_leaf coins Hwf Hu Hk)
    as (m & after & _ & Hch & Ha & Hr). rewrite Hr in Hbuild. injection Hbuild as <-.
  rewrite (recover_reaches_loop gid n u gen bv prev rrh before pre coins Hwf Hu Hk input rc_slot0 rc_other0
    m after Hch _ _ _ Hg Hbv Hp Hb Ha rc_n_max0 rc_raw0 eq_refl rc_max0 rc_len0 Hprog eq_refl eq_refl rc_roots0
    rc_local0). rewrite collect_matches_none; [done|].
  intros y (c & -> & Hy)%list_elem_of_fmap. apply try_unwrap_off_path.
  apply built_ct_elem in Hy as (s & t & Hin & ->).
  destruct (copath_pair_range n u pre Hwf Hu s t Hin) as (_ & _ & pk & Hpk & Hne).
  rewrite elem_of_list_to_set. intros Ht. apply Hblank in Ht. cbn in Ht. congruence.
Qed.

End Agreement.


(** ** A room of two *)

Module TwoMembers.

Definition keys (seed : Z) : bytes * bytes := @keygen_seed toy_kem (be_bytes 64 seed).
Definition material (seed : Z) : NodeKeyMaterial :=
  {| nkm_dk := (keys seed).1; nkm_pkhash := @pkhash_of toy_hashing (keys seed).2 |}.

(** Root, the updater's leaf and the other member's leaf. *)
Definition tree : snapshot := [(keys 11).2; (keys 12).2; (keys 13).2].

Definition roots_hash : bytes :=
  match @BarrierTree.compute_revocation_roots_hash toy_hashing zero32 zero32 with Ok h => h | Err _ => [] end.

Definition built (snap : snapshot) : result string BarrierUpdateBuildResult :=
  @build_barrier_update_bytes toy_hashing toy_kem toy_aead (replicate 32 1) 2 0 0 1 0 roots_hash zero32
    snap (replicate 32 9) (fun s t => [s; t]).

Definition result_of (x : result string BarrierUpdateBuildResult) : BarrierUpdateBuildResult :=
  match x with
  | Ok r => r
  | Err _ => {| bur_raw_update := []; bur_barrier_update_digest := []; bur_kem_tree_hash_after := [];
                bur_k_barrier_new := []; bur_on_path_key_material := ∅; bur_snapshot_post := [] |}
  end.

(** The other member, at barrier version 0. *)
Definition member_input (r : BarrierUpdateBuildResult) : BarrierRecoveryInput :=
  {| bri_gid := replicate 32 1; bri_local_n_max := 2;
     bri_local_slot_lease := {| bsl_slot_index := 1; bsl_slot_generation := 0 |};
     bri_local_barrier_initialized := true; bri_local_barrier_version := 0;
     bri_local_barrier_roots_hash := roots_hash; bri_local_kem_tree_hash_after := zero32;
     bri_local_pop_public_key := []; bri_local_leaf_material := material 13;
     bri_local_node_materials := {[0 := material 11]}; bri_local_k_fs_before := zero32;
     bri_weid := zero32; bri_fs_ec := 1; bri_raw_update := bur_raw_update r;
     bri_barrier_update_reason := 1; bri_revoked_since_root := zero32; bri_revoked_root := zero32;
     bri_author_pop_public_key := None; bri_max_barrier_update_bytes := len (bur_raw_update r) + 1;
     bri_expected_before_hash := None; bri_skip_local_checks := false |}.

Lemma built_result_of snap r :
  tree_wf 2 snap -> @keys_valid toy_kem snap -> r = result_of (built snap) ->
  @build_barrier_update_bytes toy_hashing toy_kem toy_aead (replicate 32 1) 2 0 0 1 0 roots_hash zero32
    snap (replicate 32 9) (fun s t => [s; t]) = Ok r.
Proof.
  intros Hwf Hk ->. destruct (@build_ok toy_hashing _ toy_kem toy_aead _ (replicate 32 1) 2 0 0 1 0 roots_hash zero32
    snap (replicate 32 9) (fun s t => [s; t]) Hwf ltac:(lia) Hk) as (m & after & _ & _ & _ & H).
  unfold built. by rewrite H.
Qed.

Lemma member_receives r :
  @receives toy_hashing (replicate 32 1) 2 0 1 0 roots_hash zero32 r (member_input r).
Proof.
  pose proof (Zle_0_nat (length (bur_raw_update r))). fold (len (bur_raw_update r)) in *.
  split; try done; cbn [member_input bri_local_slot_lease bsl_slot_index bri_max_barrier_update_bytes]; try lia.
  right. cbn [member_input bri_local_barrier_initialized bri_local_barrier_version bri_barrier_update_reason
    bri_expected_before_hash bri_local_kem_tree_hash_after bri_local_barrier_roots_hash default].
  do 3 (split; [reflexivity|]). split; [by right|]. rewrite decide_True by reflexivity. by left.
Qed.

Lemma numbers_ok : update_numbers 0 1 0 zero32.
Proof. split; [done|done|done|right; done|done]. Qed.

Lemma keys_pair seed : @kem_pair toy_kem (keys seed).1 (keys seed).2.
Proof. apply (keygen_pair (MlKemLaws := toy_kem_laws)). Qed.

Lemma toy_keys_valid (snap : snapshot) :
  Forall (fun pk => pk = [] \/ exists seed, pk = (keys seed).2) snap -> @keys_valid toy_kem snap.
Proof.
  intros H i pk Hi Hne. rewrite Forall_forall in H.
  destruct (H pk) as [->|[seed ->]]; [by eapply vget_elem|done|]. split; [apply keys_pair|done].
Qed.

End TwoMembers.

Lemma recover_agrees_with_build_witness :
  let r := TwoMembers.result_of (TwoMembers.built TwoMembers.tree) in
  exists res, @recover_barrier_update toy_hashing toy_codec toy_kem toy_aead (TwoMembers.member_input r) = Ok (Some res) /\
    brr_k_barrier_new res = bur_k_barrier_new r.
Proof.
  intros r. assert (@keys_valid toy_kem TwoMembers.tree) as Hkeys.
  { apply TwoMembers.toy_keys_valid. repeat (apply Forall_cons; split; [right; by eexists|]). constructor. }
  destruct (@recover_agrees_with_build toy_hashing _ toy_codec _ toy_kem _ toy_aead _
    (replicate 32 1) 2 0 0 1 0 TwoMembers.roots_hash zero32 TwoMembers.tree (replicate 32 9) (fun s t => [s; t])
    r (TwoMembers.member_input r)) as (res & Hres & _ & Hk & _).
  - by split.
  - lia.
  - exact Hkeys.
  - apply TwoMembers.numbers_ok.
  - apply TwoMembers.built_result_of; [by split|exact Hkeys|reflexivity].
  - apply TwoMembers.member_receives.
  - split; cbn.
    + exists (TwoMembers.keys 13).2. split_and!; [done|done|apply TwoMembers.keys_pair|done].
    + intros t pk ->%list_elem_of_singleton [= <-] _. exists (TwoMembers.material 11).
      split_and!; [done|apply TwoMembers.keys_pair|done].
  - exists res. split; [exact Hres|exact Hk].
Defined.

Lemma recover_blanked_slot_none_witness :
  let r := TwoMembers.result_of (TwoMembers.built [[]; (TwoMembers.keys 12).2; []]) in
  @recover_barrier_update toy_hashing toy_codec toy_kem toy_aead (TwoMembers.member_input r) = Ok None.
Proof.
  intros r. assert (@keys_valid toy_kem [[]; (TwoMembers.keys 12).2; []]) as Hkeys.
  { apply TwoMembers.toy_keys_valid.
    repeat (apply Forall_cons; split; [first [by left|right; by eexists]|]). constructor. }
  apply (@recover_blanked_slot_none toy_hashing _ toy_codec _ toy_kem _ toy_aead _
    (replicate 32 1) 2 0 0 1 0 TwoMembers.roots_hash zero32 [[]; (TwoMembers.keys 12).2; []] (replicate 32 9)
    (fun s t => [s; t]) r (TwoMembers.member_input r)).
  - by split.
  - lia.
  - exact Hkeys.
  - apply TwoMembers.numbers_ok.
  - apply TwoMembers.built_result_of; [by split|exact Hkeys|reflexivity].
  - apply TwoMembers.member_receives.
  - intros t Ht. cbn in Ht. repeat (apply elem_of_cons in Ht as [->|Ht]; [done|]). by apply elem_of_nil in Ht.
Defined.
