(* ===== verification/Slots.v ===== *)
(** * The server's slot leases

    The slot allocator of [cityg-server/src/roster_state.rs].

    A group has [n_max] leaf slots.  A slot is lent to a leaf as a lease, a pair
    of a slot index and a generation; releasing the lease of a revoked leaf
    advances the generation of its slot, so that an old lease is told from a
    new one.  A lease is handed out with a join ticket ([allocate_slot_lease]),
    held back while the ticket is pending, activated when the join is accepted
    ([activate_slot_lease]) and released on revocation.

    [SlotTable] is the part of [GroupState] the allocator works on; [slots_ok]
    is what its operations maintain. *)

From S2P Require Import Prelude Hash Heap BarrierTree Errors.

(** ** The state *)

Record SlotLease := { slot_index : Z; slot_generation : Z }.

Record JoinFinalizeAuthRecord := {
  jfa_leaf_id : bytes;
  jfa_lease : SlotLease;
  jfa_token : bytes;
}.

Record SlotTable := {
  n_max : Z;
  free_slots : gset Z;
  slot_generations : gmap Z Z;
  leaf_slot_leases : gmap bytes SlotLease;
  revoked_slot_leases : gmap bytes SlotLease;
  pending_join_finalize_auth : gmap bytes JoinFinalizeAuthRecord;
  revoked : gset bytes;
}.

Instance slot_lease_eq_dec : EqDecision SlotLease.
Proof. solve_decision. Defined.
Definition with_free (t : SlotTable) (f : gset Z) : SlotTable := {|
  n_max := n_max t; free_slots := f; slot_generations := slot_generations t;
  leaf_slot_leases := leaf_slot_leases t; revoked_slot_leases := revoked_slot_leases t;
  pending_join_finalize_auth := pending_join_finalize_auth t; revoked := revoked t |}.
Definition with_generations (t : SlotTable) (g : gmap Z Z) : SlotTable := {|
  n_max := n_max t; free_slots := free_slots t; slot_generations := g;
  leaf_slot_leases := leaf_slot_leases t; revoked_slot_leases := revoked_slot_leases t;
  pending_join_finalize_auth := pending_join_finalize_auth t; revoked := revoked t |}.
Definition with_leases (t : SlotTable) (l : gmap bytes SlotLease) : SlotTable := {|
  n_max := n_max t; free_slots := free_slots t; slot_generations := slot_generations t;
  leaf_slot_leases := l; revoked_slot_leases := revoked_slot_leases t;
  pending_join_finalize_auth := pending_join_finalize_auth t; revoked := revoked t |}.
Definition with_revoked_leases (t : SlotTable) (r : gmap bytes SlotLease) : SlotTable := {|
  n_max := n_max t; free_slots := free_slots t; slot_generations := slot_generations t;
  leaf_slot_leases := leaf_slot_leases t; revoked_slot_leases := r;
  pending_join_finalize_auth := pending_join_finalize_auth t; revoked := revoked t |}.
Definition with_pending (t : SlotTable) (p : gmap bytes JoinFinalizeAuthRecord) : SlotTable := {|
  n_max := n_max t; free_slots := free_slots t; slot_generations := slot_generations t;
  leaf_slot_leases := leaf_slot_leases t; revoked_slot_leases := revoked_slot_leases t;
  pending_join_finalize_auth := p; revoked := revoked t |}.
Definition with_revoked (t : SlotTable) (r : gset bytes) : SlotTable := {|
  n_max := n_max t; free_slots := free_slots t; slot_generations := slot_generations t;
  leaf_slot_leases := leaf_slot_leases t; revoked_slot_leases := revoked_slot_leases t;
  pending_join_finalize_auth := pending_join_finalize_auth t; revoked := r |}.

(** ** The slot allocator *)

Definition DEFAULT_BARRIER_N_MAX : Z := 1024.

(** The allocator's part of [GroupState::default()], at a given [n_max]. *)
Definition empty_slots (n : Z) : SlotTable := {|
  n_max := n; free_slots := ∅; slot_generations := ∅; leaf_slot_leases := ∅;
  revoked_slot_leases := ∅; pending_join_finalize_auth := ∅; revoked := ∅ |}.

Definition slot_capacity (t : SlotTable) : Z := Z.min (Z.max (n_max t) 1) U32_MAX.

(** [(0..slot_capacity).collect()] *)
Definition slot_range (cap : Z) : gset Z := list_to_set (zrange 0 cap).

(** The slot indices of the values of a map of leases. *)
Definition lease_slots (m : gmap bytes SlotLease) : gset Z := map_img (slot_index <$> m).

Definition pending_leases (t : SlotTable) : gmap bytes SlotLease := jfa_lease <$> pending_join_finalize_auth t.

Definition ensure_slot_allocator_initialized (t : SlotTable) : SlotTable :=
  let cap := slot_capacity t in
  let generations :=
    if bool_decide (slot_generations t = ∅) then gset_to_gmap 0 (slot_range cap) else slot_generations t in
  let free :=
    if bool_decide (free_slots t = ∅) && (Z.of_nat (size generations) =? cap)
    then (slot_range cap ∖ lease_slots (leaf_slot_leases t)) ∖ lease_slots (pending_leases t)
    else free_slots t in
  with_free (with_generations t generations) free.

(** [set.iter().next()]: a [BTreeSet] iterates in increasing order. *)
Definition first_slot (s : gset Z) : option Z := head (merge_sort Z.le (elements s)).

Definition allocate_slot_lease (t : SlotTable) (leaf_id : bytes) : SlotTable * result CityGError SlotLease :=
  match leaf_slot_leases t !! leaf_id with
  | Some existing => (t, Ok existing)
  | None =>
      match pending_join_finalize_auth t !! leaf_id with
      | Some existing => (t, Ok (jfa_lease existing))
      | None =>
          let t := ensure_slot_allocator_initialized t in
          match first_slot (free_slots t) with
          | None => (t, Err (InvalidInput "slot allocator exhausted"))
          | Some slot =>
              let t := with_free t (free_slots t ∖ {[slot]}) in
              (t, Ok {| slot_index := slot; slot_generation := default 0 (slot_generations t !! slot) |})
          end
      end
  end.

Definition reserve_slot_lease (t : SlotTable) (leaf_id : bytes) (lease : SlotLease) : SlotTable * result CityGError unit :=
  if slot_capacity t <=? slot_index lease then (t, Err (InvalidInput "slot lease index out of range"))
  else
    let t := ensure_slot_allocator_initialized t in
    let generation := default 0 (slot_generations t !! slot_index lease) in
    let t := with_generations t (<[slot_index lease := generation]> (slot_generations t)) in
    if negb (generation =? slot_generation lease) then (t, Err (InvalidInput "slot lease generation mismatch"))
    else
      match leaf_slot_leases t !! leaf_id with
      | Some existing =>
          if bool_decide (existing = lease) then (t, Ok tt)
          else (t, Err (InvalidInput "leaf already bound to another slot lease"))
      | None =>
          (with_leases (with_free t (free_slots t ∖ {[slot_index lease]})) (<[leaf_id := lease]> (leaf_slot_leases t)),
           Ok tt)
      end.

Definition release_slot_lease (t : SlotTable) (leaf_id : bytes) : SlotTable * option SlotLease :=
  let t := ensure_slot_allocator_initialized t in
  match leaf_slot_leases t !! leaf_id with
  | None => (t, None)
  | Some lease =>
      let t := with_leases t (delete leaf_id (leaf_slot_leases t)) in
      let t := with_generations t
                 (<[slot_index lease := sat_add (slot_generation lease) 1]> (slot_generations t)) in
      (with_free t ({[slot_index lease]} ∪ free_slots t), Some lease)
  end.

Definition activate_slot_lease (t : SlotTable) (leaf_id : bytes) (lease : SlotLease) : SlotTable * result CityGError unit :=
  match reserve_slot_lease t leaf_id lease with
  | (t, Err e) => (t, Err e)
  | (t, Ok tt) =>
      (with_revoked_leases (with_revoked t (revoked t ∖ {[leaf_id]})) (delete leaf_id (revoked_slot_leases t)), Ok tt)
  end.

(** The leaves whose revoked lease is on the slot: [superseded]. *)
Definition superseded_leaves (t : SlotTable) (lease : SlotLease) : gset bytes :=
  dom (filter (fun p => slot_index p.2 = slot_index lease) (revoked_slot_leases t)).

Definition finalize_slot_reclaim (t : SlotTable) (lease : SlotLease) : SlotTable :=
  let superseded := superseded_leaves t lease in
  with_revoked_leases (with_revoked t (revoked t ∖ superseded))
    (filter (fun p => p.1 ∉ superseded) (revoked_slot_leases t)).

(** ** Persistence

    [persisted_state.rs] and the slot part of [apply_persisted_kbroad_state]:
    what a restart without a journal brings back.  The [hex] crate is a
    parameter. *)

Class HexCodec := {
  hex_encode : bytes -> string;
  hex_decode : string -> option bytes;
}.

Class HexCodecLaws (HX : HexCodec) := {
  hex_decode_encode : forall b, is_bytes b -> hex_decode (hex_encode b) = Some b;
  hex_decode_empty : hex_decode EmptyString = Some [];
}.

Record PersistedLeafSlotLeaseRecord := { pls_leaf_id_hex : string; pls_slot_index : Z; pls_slot_generation : Z }.

Record PersistedJoinFinalizeAuthRecord := {
  pjf_leaf_id_hex : string;
  pjf_slot_index : Z;
  pjf_slot_generation : Z;
  pjf_token_hex : string;
}.

(** The slot part of [PersistedKbroadRoomState]. *)
Record PersistedSlots := {
  ps_n_max : Z;
  ps_revoked_leaf_ids_hex : list string;
  ps_pending_join_finalize_auth : list PersistedJoinFinalizeAuthRecord;
  ps_active_slot_leases : list PersistedLeafSlotLeaseRecord;
  ps_revoked_slot_leases : list PersistedLeafSlotLeaseRecord;
}.

Section Persistence.
  Context {HX : HexCodec}.

Definition persisted_leaf_slot_leases (leases : gmap bytes SlotLease) : list PersistedLeafSlotLeaseRecord :=
  (fun p => {| pls_leaf_id_hex := hex_encode p.1; pls_slot_index := slot_index p.2;
               pls_slot_generation := slot_generation p.2 |}) <$> map_to_list leases.

Definition persisted_join_finalize_auth (t : SlotTable) : list PersistedJoinFinalizeAuthRecord :=
  (fun p => {| pjf_leaf_id_hex := hex_encode (jfa_leaf_id p.2); pjf_slot_index := slot_index (jfa_lease p.2);
               pjf_slot_generation := slot_generation (jfa_lease p.2);
               pjf_token_hex := hex_encode (jfa_token p.2) |}) <$> map_to_list (pending_join_finalize_auth t).

Definition persisted_slots (t : SlotTable) : PersistedSlots := {|
  ps_n_max := Z.max (n_max t) 1;
  ps_revoked_leaf_ids_hex := hex_encode <$> elements (revoked t);
  ps_pending_join_finalize_auth := persisted_join_finalize_auth t;
  ps_active_slot_leases := persisted_leaf_slot_leases (leaf_slot_leases t);
  ps_revoked_slot_leases := persisted_leaf_slot_leases (revoked_slot_leases t) |}.

(** [hex::decode(..).ok().and_then(|bytes| bytes.try_into().ok())] *)
Definition decode32 (s : string) : option bytes :=
  b ← hex_decode s; if len b =? 32 then Some b else None.

Definition decode_persisted_leaf_slot_leases (records : list PersistedLeafSlotLeaseRecord) : gmap bytes SlotLease :=
  list_to_map (reverse (omap (fun r =>
    leaf ← decode32 (pls_leaf_id_hex r);
    Some (leaf, {| slot_index := pls_slot_index r; slot_generation := pls_slot_generation r |})) records)).

Definition decode_persisted_join_finalize_auth (records : list PersistedJoinFinalizeAuthRecord)
    : gmap bytes JoinFinalizeAuthRecord :=
  list_to_map (reverse (omap (fun r =>
    leaf ← decode32 (pjf_leaf_id_hex r);
    token ← decode32 (pjf_token_hex r);
    Some (leaf, {| jfa_leaf_id := leaf;
                   jfa_lease := {| slot_index := pjf_slot_index r; slot_generation := pjf_slot_generation r |};
                   jfa_token := token |})) records)).

(** The state of the fresh group ([entry(gid).or_default()]) after
    [apply_persisted_kbroad_state]: the generations and the free slots are not
    part of the persisted state. *)
Definition restore_slots (p : PersistedSlots) : result CityGError SlotTable :=
  n ← map_err InvalidInput (validate_barrier_n_max (ps_n_max p));
  Ok {| n_max := n; free_slots := ∅; slot_generations := ∅;
        leaf_slot_leases := decode_persisted_leaf_slot_leases (ps_active_slot_leases p);
        revoked_slot_leases := decode_persisted_leaf_slot_leases (ps_revoked_slot_leases p);
        pending_join_finalize_auth := decode_persisted_join_finalize_auth (ps_pending_join_finalize_auth p);
        revoked := list_to_set (omap decode32 (ps_revoked_leaf_ids_hex p)) |}.

End Persistence.

(** ** What the allocator maintains *)

(** The leaf holds the lease, in activity or through a pending ticket. *)
Definition holds (t : SlotTable) (leaf : bytes) (lease : SlotLease) : Prop :=
  leaf_slot_leases t !! leaf = Some lease \/ pending_leases t !! leaf = Some lease.

Record slots_ok (t : SlotTable) : Prop := {
  so_n_max : validate_barrier_n_max (n_max t) = Ok (n_max t);
  so_generations : slot_generations t = ∅ \/ dom (slot_generations t) = slot_range (n_max t);
  so_generation_u64 : forall s g, slot_generations t !! s = Some g -> 0 <= g <= U64_MAX;
  so_free : forall s, s ∈ free_slots t -> 0 <= s < n_max t;
  so_free_held : forall leaf lease, holds t leaf lease -> slot_index lease ∉ free_slots t;
  so_current : forall leaf lease, holds t leaf lease ->
    slot_generations t !! slot_index lease = Some (slot_generation lease);
  so_agree : forall leaf a b, holds t leaf a -> holds t leaf b -> a = b;
  so_unique : forall l1 l2 a b, holds t l1 a -> holds t l2 b -> slot_index a = slot_index b -> l1 = l2;
  so_pending_key : forall leaf r, pending_join_finalize_auth t !! leaf = Some r -> jfa_leaf_id r = leaf;
  so_revoked : forall leaf a, revoked_slot_leases t !! leaf = Some a ->
    exists g, slot_generations t !! slot_index a = Some g /\ (slot_generation a < g \/ g = U64_MAX);
}.

Lemma slot_range_elem cap s : s ∈ slot_range cap <-> 0 <= s < cap.
Proof. unfold slot_range. by rewrite elem_of_list_to_set, elem_of_zrange. Qed.

Lemma size_slot_range cap : 0 <= cap -> Z.of_nat (size (slot_range cap)) = cap.
Proof.
  intros. unfold slot_range. rewrite size_list_to_set by apply zrange_NoDup.
  unfold zrange. rewrite length_seqZ. lia.
Qed.

Lemma lease_slots_elem m s : s ∈ lease_slots m <-> exists leaf lease, m !! leaf = Some lease /\ slot_index lease = s.
Proof.
  unfold lease_slots. rewrite elem_of_map_img. setoid_rewrite lookup_fmap_Some. naive_solver.
Qed.

Lemma first_slot_spec (s : gset Z) :
  match first_slot s with
  | Some x => x ∈ s /\ (forall y, y ∈ s -> x <= y)
  | None => s = ∅
  end.
Proof.
  unfold first_slot. pose proof (merge_sort_Permutation Z.le (elements s)) as Hp.
  pose proof (StronglySorted_merge_sort Z.le (elements s)) as Hs.
  destruct (merge_sort Z.le (elements s)) as [|x l]; cbn.
  - apply Permutation_nil_l in Hp. symmetry in Hp. by apply elements_empty_inv, leibniz_equiv in Hp.
  - apply StronglySorted_inv in Hs as [_ Hall]. rewrite Forall_forall in Hall.
    assert (forall y, y ∈ s <-> y ∈ x :: l) as He by (intros y; by rewrite Hp, elem_of_elements).
    split; [apply He; constructor|]. intros y [-> |Hy]%He%elem_of_cons; [lia|by apply Hall].
Qed.

Lemma n_max_u32 n : validate_barrier_n_max n = Ok n -> 1 <= n <= U32_MAX.
Proof.
  intros (_ & d & Hd & ->)%validate_barrier_n_max_spec.
  pose proof (Z.pow_le_mono_r 2 0 d). pose proof (Z.pow_le_mono_r 2 d 16). unfold U32_MAX. lia.
Qed.

Lemma capacity_ok t : slots_ok t -> slot_capacity t = n_max t.
Proof. intros H. pose proof (n_max_u32 _ (so_n_max t H)). unfold slot_capacity. lia. Qed.

Lemma empty_slots_ok n : validate_barrier_n_max n = Ok n -> slots_ok (empty_slots n).
Proof.
  intros Hn. assert (forall leaf lease, ~ holds (empty_slots n) leaf lease) as Hno.
  { unfold holds, pending_leases. cbn. intros leaf lease. rewrite lookup_fmap, !lookup_empty. by intros [?|?]. }
  split; cbn; try done; try (by left); try (intros; exfalso; by eapply Hno).
Qed.

(** *** Initialisation *)

Section Ensure.
  Context (t : SlotTable) (Hok : slots_ok t).

#[local] Abbreviation t1 := (ensure_slot_allocator_initialized t).

Lemma ensure_holds leaf lease : holds t1 leaf lease <-> holds t leaf lease.
Proof using. done. Qed.

Lemma ensure_generations :
  dom (slot_generations t1) = slot_range (n_max t) /\
  (forall s g, slot_generations t !! s = Some g -> slot_generations t1 !! s = Some g) /\
  (forall s g, slot_generations t1 !! s = Some g -> 0 <= g <= U64_MAX).
Proof using Hok.
  cbn. rewrite (capacity_ok t Hok). case_bool_decide as Hg.
  - rewrite Hg. split_and!; [by rewrite dom_gset_to_gmap|by intros s g ?%lookup_empty_Some|].
    intros s g [_ <-]%lookup_gset_to_gmap_Some. unfold U64_MAX. lia.
  - destruct (so_generations t Hok) as [?|Hd]; [done|]. split_and!; [done|done|].
    apply (so_generation_u64 t Hok).
Qed.

Lemma ensure_free_nonempty s :
  0 <= s < n_max t -> (forall leaf lease, holds t leaf lease -> slot_index lease <> s) -> free_slots t1 <> ∅.
Proof using Hok.
  intros Hs Hno. destruct ensure_generations as (Hd & _ & _). cbn in *. rewrite (capacity_ok t Hok) in *.
  set (g := if bool_decide (slot_generations t = ∅) then _ else _) in *.
  assert (Z.of_nat (size g) =? n_max t = true) as ->.
  { apply Z.eqb_eq. rewrite <- size_dom, Hd. apply size_slot_range. lia. }
  rewrite andb_true_r. case_bool_decide; [|done]. intros He.
  assert (s ∉ (∅ : gset Z)) as Hn by apply not_elem_of_empty. apply Hn. rewrite <- He.
  rewrite !elem_of_difference, slot_range_elem, !lease_slots_elem. split_and!; [lia|lia| |];
    intros (leaf & lease & Hl & Heq); by eapply (Hno leaf lease); [unfold holds; eauto|].
Qed.

Lemma ensure_free_sound s : s ∈ free_slots t1 -> 0 <= s < n_max t /\ (forall leaf lease, holds t leaf lease -> slot_index lease <> s).
Proof using Hok.
  cbn. rewrite (capacity_ok t Hok). case_if.
  - rewrite !elem_of_difference, slot_range_elem, !lease_slots_elem. intros [[? H1] H2]. split; [done|].
    intros leaf lease [Hh|Hh] <-; [apply H1|apply H2]; eauto.
  - intros Hs. split; [by apply so_free|]. intros leaf lease Hh <-. by eapply (so_free_held t Hok).
Qed.

Lemma ensure_ok : slots_ok t1.
Proof using Hok.
  destruct ensure_generations as (Hd & Hkeep & Hu). split.
  - apply (so_n_max t Hok).
  - by right.
  - done.
  - apply ensure_free_sound.
  - intros leaf lease Hh Hin. apply ensure_free_sound in Hin as [_ Hno]. by apply (Hno leaf lease).
  - intros leaf lease Hh. apply Hkeep. by apply (so_current t Hok leaf).
  - apply (so_agree t Hok).
  - apply (so_unique t Hok).
  - apply (so_pending_key t Hok).
  - intros leaf a Ha. destruct (so_revoked t Hok leaf a Ha) as (g & Hg & Hlt). eauto.
Qed.

End Ensure.

(** *** Allocation *)

(** The lease is current, and the leaf's or nobody's. *)
Record leasable (t : SlotTable) (leaf : bytes) (lease : SlotLease) : Prop := {
  la_current : slot_generations t !! slot_index lease = Some (slot_generation lease);
  la_unique : forall l a, holds t l a -> slot_index a = slot_index lease -> l = leaf;
  la_agree : forall a, holds t leaf a -> a = lease;
}.

Lemma holds_leasable t leaf lease : slots_ok t -> holds t leaf lease -> leasable t leaf lease.
Proof.
  intros Hok Hh. split.
  - by apply (so_current t Hok leaf).
  - intros l a Ha Heq. by apply (so_unique t Hok l leaf a lease).
  - intros a Ha. by apply (so_agree t Hok leaf).
Qed.

Lemma slots_ok_with_free t f :
  slots_ok t -> (forall s, s ∈ f -> s ∈ free_slots t) -> slots_ok (with_free t f).
Proof.
  intros Hok Hf. split; cbn; try apply Hok.
  - intros s Hs. by apply (so_free t Hok), Hf.
  - intros leaf lease Hh Hin. by apply (so_free_held t Hok leaf lease Hh), Hf.
Qed.

Lemma allocate_ok t leaf t' lease :
  slots_ok t -> allocate_slot_lease t leaf = (t', Ok lease) -> slots_ok t' /\ leasable t' leaf lease /\ slot_index lease ∉ free_slots t'.
Proof.
  intros Hok. unfold allocate_slot_lease.
  destruct (leaf_slot_leases t !! leaf) as [a|] eqn:El.
  { intros [= <- <-]. assert (holds t leaf a) by (by left). eauto using holds_leasable, so_free_held. }
  destruct (pending_join_finalize_auth t !! leaf) as [r|] eqn:Ep.
  { intros [= <- <-]. assert (holds t leaf (jfa_lease r)).
    { right. unfold pending_leases. by rewrite lookup_fmap, Ep. }
    eauto using holds_leasable, so_free_held. }
  pose proof (ensure_ok t Hok) as Hok1. destruct (ensure_generations t Hok) as (Hd & _ & _).
  pose proof (first_slot_spec (free_slots (ensure_slot_allocator_initialized t))) as Hf.
  destruct (first_slot _) as [s|]; [|discriminate]. intros [= <- <-]. destruct Hf as [Hin _].
  destruct (ensure_free_sound t Hok s Hin) as [Hr Hno].
  split_and!; [apply slots_ok_with_free; [done|cbn; set_solver]| |cbn; set_solver]. split; cbn [slot_index slot_generation].
  - apply (slot_range_elem (n_max t)) in Hr. rewrite <- Hd, elem_of_dom in Hr. destruct Hr as [g Hg].
    cbn in *. by rewrite Hg.
  - intros l a Ha Heq. by destruct (Hno l a Ha).
  - intros a [Ha|Ha]; unfold pending_leases in Ha; cbn in Ha; [congruence|]. by rewrite lookup_fmap, Ep in Ha.
Qed.

Lemma allocate_same t leaf :
  leaf_slot_leases (allocate_slot_lease t leaf).1 = leaf_slot_leases t /\
  pending_join_finalize_auth (allocate_slot_lease t leaf).1 = pending_join_finalize_auth t.
Proof.
  unfold allocate_slot_lease. destruct (leaf_slot_leases t !! leaf); [done|].
  destruct (pending_join_finalize_auth t !! leaf); [done|]. by destruct (first_slot _).
Qed.

Lemma allocate_more t leaf :
  n_max (allocate_slot_lease t leaf).1 = n_max t /\
  revoked_slot_leases (allocate_slot_lease t leaf).1 = revoked_slot_leases t.
Proof.
  unfold allocate_slot_lease. destruct (leaf_slot_leases t !! leaf); [done|].
  destruct (pending_join_finalize_auth t !! leaf); [done|]. by destruct (first_slot _).
Qed.

Lemma allocate_err t leaf t' e :
  slots_ok t -> allocate_slot_lease t leaf = (t', Err e) ->
  slots_ok t' /\ e = InvalidInput "slot allocator exhausted" /\
  forall s, 0 <= s < n_max t -> exists l a, holds t l a /\ slot_index a = s.
Proof.
  intros Hok. unfold allocate_slot_lease.
  destruct (leaf_slot_leases t !! leaf); [done|]. destruct (pending_join_finalize_auth t !! leaf); [done|].
  pose proof (first_slot_spec (free_slots (ensure_slot_allocator_initialized t))) as Hf.
  destruct (first_slot _) as [s|]; [discriminate|]. intros [= <- <-].
  split_and!; [by apply ensure_ok|done|]. intros s Hs.
  destruct (decide (s ∈ lease_slots (leaf_slot_leases t) ∪ lease_slots (pending_leases t))) as [Hin|Hno].
  - apply elem_of_union in Hin. rewrite !lease_slots_elem in Hin. unfold holds. naive_solver.
  - exfalso. eapply (ensure_free_nonempty t Hok s Hs); [|exact Hf]. intros l a Ha <-. apply Hno.
    apply elem_of_union. rewrite !lease_slots_elem. unfold holds in Ha. naive_solver.
Qed.

(** Whatever hands the lease to the leaf and to nobody else keeps the invariant. *)
Lemma slots_ok_grant t t' leaf lease :
  slots_ok t -> leasable t leaf lease ->
  n_max t' = n_max t -> slot_generations t' = slot_generations t -> revoked_slot_leases t' = revoked_slot_leases t ->
  (forall s, s ∈ free_slots t' -> s ∈ free_slots t) -> slot_index lease ∉ free_slots t' ->
  (forall l r, pending_join_finalize_auth t' !! l = Some r -> jfa_leaf_id r = l) ->
  (forall l a, holds t' l a -> (l = leaf /\ a = lease) \/ holds t l a) -> slots_ok t'.
Proof.
  intros Hok [Hcur Huniq Hagree] Hn Hg Hr Hf Hnf Hkey Hholds. split; rewrite ?Hn, ?Hg, ?Hr; try apply Hok.
  - intros s Hs. by apply (so_free t Hok), Hf.
  - intros l a Ha Hin. destruct (Hholds l a Ha) as [[-> ->]|Ha']; [done|].
    by apply (so_free_held t Hok l a Ha'), Hf.
  - intros l a Ha. destruct (Hholds l a Ha) as [[-> ->]|Ha']; [done|]. by apply (so_current t Hok l).
  - intros l a b [[-> ->]|Ha]%Hholds [[? ->]|Hb]%Hholds; subst; auto.
    + symmetry. auto.
    + by apply (so_agree t Hok l).
  - intros l1 l2 a b [[-> ->]|Ha]%Hholds [[-> ->]|Hb]%Hholds; eauto.
    + intros Heq. symmetry. eauto.
    + by apply (so_unique t Hok).
  - done.
Qed.

Definition ticket (leaf : bytes) (lease : SlotLease) (token : bytes) : JoinFinalizeAuthRecord :=
  {| jfa_leaf_id := leaf; jfa_lease := lease; jfa_token := token |}.

Lemma insert_pending_ok t leaf lease token :
  slots_ok t -> leasable t leaf lease -> slot_index lease ∉ free_slots t ->
  slots_ok (with_pending t (<[leaf := ticket leaf lease token]> (pending_join_finalize_auth t))).
Proof.
  intros Hok Hl Hnf. apply (slots_ok_grant t _ leaf lease); try done.
  - cbn. intros l r [[<- <-]|[_ Hr]]%lookup_insert_Some; [done|by apply (so_pending_key t Hok)].
  - unfold holds, pending_leases. cbn. intros l a. rewrite fmap_insert.
    intros [Ha|[[<- <-]|[_ Ha]]%lookup_insert_Some]; auto.
Qed.

(** *** Activation *)

Lemma generations_refl (m : gmap Z Z) s g : m !! s = Some g -> <[s := default 0 (m !! s)]> m = m.
Proof. intros H. rewrite H. by apply insert_id. Qed.

Lemma reserve_leasable t leaf lease :
  slots_ok t -> leasable (ensure_slot_allocator_initialized t) leaf lease ->
  exists t', reserve_slot_lease t leaf lease = (t', Ok tt) /\ slots_ok t' /\ n_max t' = n_max t /\
    leaf_slot_leases t' = <[leaf := lease]> (leaf_slot_leases t) /\
    pending_join_finalize_auth t' = pending_join_finalize_auth t /\
    revoked_slot_leases t' = revoked_slot_leases t /\ revoked t' = revoked t /\
    slot_generations t' = slot_generations (ensure_slot_allocator_initialized t).
Proof.
  intros Hok Hl. pose proof (ensure_ok t Hok) as Hok1. destruct (ensure_generations t Hok) as (Hd & _ & _).
  pose proof (la_current _ _ _ Hl) as Hcur.
  assert (slot_index lease ∈ slot_range (n_max t)) as [? ?]%slot_range_elem by (rewrite <- Hd; by apply elem_of_dom_2 in Hcur).
  unfold reserve_slot_lease. rewrite (capacity_ok t Hok), (proj2 (Z.leb_gt _ _)) by lia.
  rewrite (generations_refl _ _ _ Hcur), Hcur. cbn [default]. rewrite Z.eqb_refl. cbn [negb].
  change (leaf_slot_leases (with_generations _ _)) with (leaf_slot_leases t).
  destruct (leaf_slot_leases t !! leaf) as [a|] eqn:El.
  - assert (a = lease) as -> by (apply (la_agree _ _ _ Hl); by left). rewrite bool_decide_eq_true_2 by done.
    eexists. split_and!; try done. cbn. by rewrite insert_id.
  - eexists. split_and!; try done. apply (slots_ok_grant (ensure_slot_allocator_initialized t) _ leaf lease); try done.
    + cbn. set_solver.
    + cbn. set_solver.
    + apply (so_pending_key t Hok).
    + intros l a [Ha|Ha]; [|right; by right]. cbn in Ha.
      apply lookup_insert_Some in Ha as [[<- <-]|[_ Ha]]; [by left|right; by left].
Qed.

Lemma activate_leasable t leaf lease :
  slots_ok t -> leasable (ensure_slot_allocator_initialized t) leaf lease ->
  exists t', activate_slot_lease t leaf lease = (t', Ok tt) /\ slots_ok t' /\ n_max t' = n_max t /\
    leaf_slot_leases t' = <[leaf := lease]> (leaf_slot_leases t) /\
    pending_join_finalize_auth t' = pending_join_finalize_auth t /\
    revoked_slot_leases t' = delete leaf (revoked_slot_leases t) /\ revoked t' = revoked t ∖ {[leaf]} /\
    slot_generations t' = slot_generations (ensure_slot_allocator_initialized t).
Proof.
  intros Hok Hl. destruct (reserve_leasable t leaf lease Hok Hl) as (t1 & Hres & Hok1 & Hn & Hls & Hp & Hr & Hrev & Hg).
  unfold activate_slot_lease. rewrite Hres. eexists. split; [done|]. cbn. rewrite Hr, Hrev. split_and!; try done.
  split; try apply Hok1. cbn. intros l a [_ Ha]%lookup_delete_Some. rewrite <- Hr in Ha. by apply (so_revoked t1 Hok1 l).
Qed.

(** A successful activation, for a slot no other leaf holds. *)
Lemma activate_inv t leaf lease t' r :
  slots_ok t -> 0 <= slot_index lease ->
  (forall l a, holds t l a -> slot_index a = slot_index lease -> l = leaf) ->
  (forall r, pending_join_finalize_auth t !! leaf = Some r -> jfa_lease r = lease) ->
  activate_slot_lease t leaf lease = (t', Ok r) ->
  leasable (ensure_slot_allocator_initialized t) leaf lease.
Proof.
  intros Hok Hpos Huniq Hpend H. destruct (ensure_generations t Hok) as (Hd & _ & _).
  unfold activate_slot_lease, reserve_slot_lease in H. rewrite (capacity_ok t Hok) in H.
  destruct (Z.leb_spec (n_max t) (slot_index lease)); [done|].
  assert (slot_index lease ∈ slot_range (n_max t)) as Hin by (apply slot_range_elem; lia).
  rewrite <- Hd, elem_of_dom in Hin. destruct Hin as [g Hg].
  set (t1 := ensure_slot_allocator_initialized t) in *. rewrite Hg in H. cbn [default from_option id] in H.
  destruct (Z.eqb_spec g (slot_generation lease)) as [Hgen|]; cbn [negb] in H; [subst g|discriminate H].
  split; [done|exact Huniq|]. intros a [Ha|Ha].
  - change (leaf_slot_leases (with_generations _ _)) with (leaf_slot_leases t1) in H. rewrite Ha in H.
    case_bool_decide; done.
  - unfold pending_leases in Ha. apply lookup_fmap_Some in Ha as (r' & <- & Hr'). by apply Hpend.
Qed.

(** *** Revocation *)

(** The slot part of revoking a leaf: release its lease, forget its ticket and
    remember the released lease. *)
Definition revoke_leaf_slots (t : SlotTable) (leaf : bytes) : result CityGError SlotTable :=
  match release_slot_lease t leaf with
  | (_, None) => Err (InvalidInput "missing slot lease for revoked leaf")
  | (t, Some lease) =>
      let t := with_pending t (delete leaf (pending_join_finalize_auth t)) in
      Ok (with_revoked_leases t (<[leaf := lease]> (revoked_slot_leases t)))
  end.

Lemma revoke_leaf_slots_ok t leaf t' :
  slots_ok t -> revoke_leaf_slots t leaf = Ok t' -> slots_ok t' /\ n_max t' = n_max t /\
  leaf_slot_leases t' = delete leaf (leaf_slot_leases t) /\
  pending_join_finalize_auth t' = delete leaf (pending_join_finalize_auth t) /\ revoked t' = revoked t.
Proof.
  intros Hok. unfold revoke_leaf_slots, release_slot_lease.
  pose proof (ensure_ok t Hok) as Hok1. destruct (ensure_generations t Hok) as (Hd & _ & Hu).
  set (t1 := ensure_slot_allocator_initialized t) in *.
  assert (n_max t1 = n_max t /\ leaf_slot_leases t1 = leaf_slot_leases t /\ revoked t1 = revoked t /\
    pending_join_finalize_auth t1 = pending_join_finalize_auth t) as (En & El1 & Er & Ep) by done.
  clearbody t1. rewrite <- En, <- El1, <- Er, <- Ep. rewrite <- En in Hd. clear t Hok En El1 Er Ep.
  destruct (leaf_slot_leases t1 !! leaf) as [lease|] eqn:El; [|done]. intros [= <-].
  assert (holds t1 leaf lease) as Hh by (by left).
  pose proof (so_current t1 Hok1 leaf lease Hh) as Hcur. pose proof (Hu _ _ Hcur) as Hub.
  match goal with |- slots_ok ?t2 /\ _ => set (t' := t2) end.
  assert (forall l a, holds t' l a -> l <> leaf /\ holds t1 l a) as Hholds.
  { subst t'. unfold holds, pending_leases. cbn. intros l a. rewrite fmap_delete, !lookup_delete_Some. naive_solver. }
  assert (forall l a, holds t' l a -> slot_index a <> slot_index lease) as Hother.
  { intros l a [Hne Ha]%Hholds Heq. apply Hne. by apply (so_unique t1 Hok1 l leaf a lease). }
  split_and!; try done. split; cbn.
  - apply (so_n_max t1 Hok1).
  - right. rewrite dom_insert_L, Hd. apply set_eq. intros s. rewrite elem_of_union, elem_of_singleton.
    split; [|auto]. intros [-> |?]; [|done]. rewrite <- Hd. by apply elem_of_dom_2 in Hcur.
  - intros s g [[<- <-]|[_ Hg]]%lookup_insert_Some; [unfold sat_add; lia|by apply (Hu s)].
  - intros s [->%elem_of_singleton|Hs]%elem_of_union; [|by apply (so_free t1 Hok1)].
    apply slot_range_elem. rewrite <- Hd. by apply elem_of_dom_2 in Hcur.
  - intros l a Ha [?%elem_of_singleton|Hs]%elem_of_union; [by apply (Hother l a)|].
    apply Hholds in Ha as [_ Ha]. by apply (so_free_held t1 Hok1 l a).
  - intros l a Ha. rewrite lookup_insert_ne by (intros ?; by apply (Hother l a)).
    apply Hholds in Ha as [_ Ha]. by apply (so_current t1 Hok1 l).
  - intros l a b [_ Ha]%Hholds [_ Hb]%Hholds. by apply (so_agree t1 Hok1 l).
  - intros l1 l2 a b [_ Ha]%Hholds [_ Hb]%Hholds. by apply (so_unique t1 Hok1).
  - intros l r [_ Hr]%lookup_delete_Some. by apply (so_pending_key t1 Hok1).
  - intros l a. destruct (decide (slot_index a = slot_index lease)) as [Heq|Hne].
    + rewrite Heq, lookup_insert_eq. intros [[<- <-]|[_ Ha]]%lookup_insert_Some; eexists; (split; [done|]).
      * unfold sat_add. lia.
      * destruct (so_revoked t1 Hok1 l a Ha) as (g & Hg & Hlt). rewrite Heq, Hcur in Hg. injection Hg as <-.
        unfold sat_add. lia.
    + rewrite (lookup_insert_ne (slot_generations t1)) by congruence. intros [[<- <-]|[_ Ha]]%lookup_insert_Some; [done|].
      by apply (so_revoked t1 Hok1 l).
Qed.

(** *** Finalisation *)

Lemma finalize_ok t leaf lease :
  slots_ok t ->
  slots_ok (finalize_slot_reclaim (with_pending t (delete leaf (pending_join_finalize_auth t))) lease).
Proof.
  intros Hok.
  match goal with |- slots_ok ?t2 => set (t' := t2) end.
  assert (forall l a, holds t' l a -> holds t l a) as Hholds.
  { subst t'. unfold holds, pending_leases. cbn. intros l a. rewrite fmap_delete, lookup_delete_Some. naive_solver. }
  split; cbn; try apply Hok.
  - intros l a Ha%Hholds. by apply (so_free_held t Hok l).
  - intros l a Ha%Hholds. by apply (so_current t Hok l).
  - intros l a b Ha%Hholds Hb%Hholds. by apply (so_agree t Hok l).
  - intros l1 l2 a b Ha%Hholds Hb%Hholds. by apply (so_unique t Hok).
  - intros l r [_ Hr]%lookup_delete_Some. by apply (so_pending_key t Hok).
  - intros l a [Ha _]%map_lookup_filter_Some. by apply (so_revoked t Hok l).
Qed.

(** ** Restored tables *)

Definition digest32 (b : bytes) : Prop := is_bytes b /\ len b = 32.

(** The identifiers and tokens are [[u8; 32]]. *)
Record ids_ok (t : SlotTable) : Prop := {
  io_leases : map_Forall (fun leaf _ => digest32 leaf) (leaf_slot_leases t);
  io_revoked_leases : map_Forall (fun leaf _ => digest32 leaf) (revoked_slot_leases t);
  io_pending : map_Forall (fun leaf r => digest32 leaf /\ jfa_leaf_id r = leaf /\ digest32 (jfa_token r)) (pending_join_finalize_auth t);
  io_revoked : set_Forall digest32 (revoked t);
}.

Section Restore.
  Context {HX : HexCodec} {HL : HexCodecLaws HX}.

Lemma decode32_encode b : digest32 b -> decode32 (hex_encode b) = Some b.
Proof using HL. intros [Hb Hl]. unfold decode32. rewrite hex_decode_encode by done. cbn. by rewrite Hl. Qed.

(** [collect()] of the decoded entries of a map gives the map back. *)
Lemma decode_entries {V R : Type} (m : gmap bytes V) (enc : bytes * V -> R) (dec : R -> option (bytes * V)) :
  (forall k v, m !! k = Some v -> dec (enc (k, v)) = Some (k, v)) ->
  list_to_map (reverse (omap dec (enc <$> map_to_list m))) = m.
Proof using.
  intros H. assert (omap dec (enc <$> map_to_list m) = map_to_list m) as ->.
  { assert (Forall (fun p => dec (enc p) = Some p) (map_to_list m)) as HF.
    { apply Forall_forall. intros [k v] Hkv%elem_of_map_to_list. by apply H. }
    induction HF as [|p l Hp _ IH]; cbn; [done|]. by rewrite Hp, IH. }
  rewrite (list_to_map_proper _ (map_to_list m)); [apply list_to_map_to_list| |apply reverse_Permutation].
  rewrite fmap_reverse, reverse_Permutation. apply NoDup_fst_map_to_list.
Qed.

Lemma decode_leases (m : gmap bytes SlotLease) :
  map_Forall (fun leaf _ => digest32 leaf) m -> decode_persisted_leaf_slot_leases (persisted_leaf_slot_leases m) = m.
Proof using HL.
  intros Hm. apply (decode_entries m). intros k [i g] Hk. cbn. rewrite decode32_encode; [done|]. by apply (Hm k _ Hk).
Qed.

Lemma decode_pending t :
  map_Forall (fun leaf r => digest32 leaf /\ jfa_leaf_id r = leaf /\ digest32 (jfa_token r)) (pending_join_finalize_auth t) ->
  decode_persisted_join_finalize_auth (persisted_join_finalize_auth t) = pending_join_finalize_auth t.
Proof using HL.
  intros Hm. apply (decode_entries (pending_join_finalize_auth t)). intros k [l [i g] tok] Hk.
  destruct (Hm k _ Hk) as (Hd & Hl & Ht). cbn in *. subst l. rewrite !decode32_encode by done. done.
Qed.

Lemma decode_revoked (r : gset bytes) :
  set_Forall digest32 r -> list_to_set (omap decode32 (hex_encode <$> elements r)) = r.
Proof using HL.
  intros Hr. apply set_eq. intros x. rewrite elem_of_list_to_set, list_elem_of_omap. split.
  - intros (s & (y & -> & Hy%elem_of_elements)%list_elem_of_fmap & Hd). rewrite decode32_encode in Hd by auto. congruence.
  - intros Hx. exists (hex_encode x). split; [by apply list_elem_of_fmap_2, elem_of_elements|]. by apply decode32_encode, Hr.
Qed.

Lemma restore_persisted t :
  slots_ok t -> ids_ok t ->
  restore_slots (persisted_slots t) = Ok (with_free (with_generations t ∅) ∅).
Proof using HL.
  intros Hok [Hl Hr Hp Hrev]. pose proof (n_max_u32 _ (so_n_max t Hok)). unfold restore_slots, persisted_slots. cbn [ps_n_max].
  replace (Z.max (n_max t) 1) with (n_max t) by lia. rewrite (so_n_max t Hok). cbn [map_err]. rstep.
  cbn [ps_active_slot_leases ps_revoked_slot_leases ps_pending_join_finalize_auth ps_revoked_leaf_ids_hex].
  by rewrite !decode_leases, decode_pending, decode_revoked.
Qed.

End Restore.

(** *** Stale leases *)

Lemma generation_slot t s : slots_ok t -> is_Some (slot_generations t !! s) -> 0 <= s < n_max t.
Proof.
  intros Hok Hs. apply elem_of_dom in Hs. destruct (so_generations t Hok) as [Hg|Hd].
  - rewrite Hg in Hs. set_solver.
  - rewrite Hd in Hs. by apply slot_range_elem.
Qed.

Lemma activate_stale t leaf lease :
  slots_ok t -> is_Some (slot_generations t !! slot_index lease) ->
  slot_generations (ensure_slot_allocator_initialized t) !! slot_index lease <> Some (slot_generation lease) ->
  (activate_slot_lease t leaf lease).2 = Err (InvalidInput "slot lease generation mismatch").
Proof.
  intros Hok Hs Hne. pose proof (generation_slot t _ Hok Hs) as Hr. destruct Hs as [g Hg].
  destruct (ensure_generations t Hok) as (_ & Hkeep & _). specialize (Hkeep _ _ Hg).
  unfold activate_slot_lease, reserve_slot_lease. rewrite (capacity_ok t Hok), (proj2 (Z.leb_gt _ _)) by lia.
  rewrite Hkeep in Hne |- *. cbn [default from_option id].
  by rewrite (proj2 (Z.eqb_neq _ _)) by congruence.
Qed.

(** ** Properties *)

(** A fresh lease: it names a slot nobody holds, and it is not the lease of
    any revoked leaf, the generation of a slot being exhausted aside.  A request
    is refused only when every slot of the tree is held. *)
Theorem allocate_slot_lease_correct t leaf :
  slots_ok t -> (forall a, ~ holds t leaf a) ->
  match allocate_slot_lease t leaf with
  | (t', Ok lease) =>
      slots_ok t' /\ 0 <= slot_index lease < n_max t /\
      (forall l a, holds t l a -> slot_index a <> slot_index lease) /\
      (forall l a, revoked_slot_leases t !! l = Some a -> slot_generation lease < U64_MAX -> a <> lease)
  | (t', Err e) =>
      slots_ok t' /\ e = InvalidInput "slot allocator exhausted" /\
      (forall s, 0 <= s < n_max t -> exists l a, holds t l a /\ slot_index a = s)
  end.
Proof.
  intros Hok Hno. pose proof (allocate_same t leaf) as [Hls Hp]. pose proof (allocate_more t leaf) as [Hn Hr].
  destruct (allocate_slot_lease t leaf) as [t' [lease|e]] eqn:Ea; [|by apply (allocate_err t leaf)].
  cbn in *. destruct (allocate_ok _ _ _ _ Hok Ea) as (Hok' & [Hcur Huniq _] & Hnf).
  split; [done|]. split; [rewrite <- Hn; apply (generation_slot t' (slot_index lease) Hok'); by eexists|]. split.
  - intros l a Ha Heq. assert (l = leaf) as ->.
    { apply (Huniq l a); [|done]. unfold holds, pending_leases in Ha |- *. by rewrite Hls, Hp. }
    by apply (Hno a).
  - intros l a Ha Hlt ->. rewrite <- Hr in Ha. destruct (so_revoked t' Hok' l lease Ha) as (g & Hcur' & Hcase).
    rewrite Hcur in Hcur'. injection Hcur' as <-. lia.
Qed.

(** The lease of a revoked leaf is dead: no leaf can activate it again,
    whatever happens to the slot, until the generations of the slot run out. *)
Theorem revoked_lease_refused t revoked_leaf lease leaf :
  slots_ok t -> revoked_slot_leases t !! revoked_leaf = Some lease ->
  slot_generations t !! slot_index lease <> Some U64_MAX ->
  (activate_slot_lease t leaf lease).2 = Err (InvalidInput "slot lease generation mismatch").
Proof.
  intros Hok Hr Hmax. destruct (so_revoked t Hok _ _ Hr) as (g & Hg & Hlt).
  destruct (ensure_generations t Hok) as (_ & Hkeep & _). apply activate_stale; [done|by eexists|].
  rewrite (Hkeep _ _ Hg). intros [= ->]. destruct Hlt as [?|Hm]; [lia|]. by rewrite Hm in Hg.
Qed.

(** C37: The generations are not persisted, so a restart from the persisted state
    brings every slot back to generation 0: a pending ticket of a later
    generation can no longer be redeemed, and a fresh lease has generation 0,
    also for a slot a revoked leaf already had at generation 0. *)
Theorem restore_resets_generations {HX : HexCodec} {HL : HexCodecLaws HX} t :
  slots_ok t -> ids_ok t ->
  exists t0, restore_slots (persisted_slots t) = Ok t0 /\
    (forall leaf lease, holds t leaf lease -> slot_generation lease <> 0 ->
       (activate_slot_lease t0 leaf lease).2 = Err (InvalidInput "slot lease generation mismatch")) /\
    (forall leaf lease t1, (forall a, ~ holds t leaf a) -> allocate_slot_lease t0 leaf = (t1, Ok lease) ->
       slot_generation lease = 0).
Proof.
  intros Hok Hids. exists (with_free (with_generations t ∅) ∅). split; [by apply restore_persisted|].
  assert (forall s, 0 <= s < n_max t ->
    slot_generations (ensure_slot_allocator_initialized (with_free (with_generations t ∅) ∅)) !! s = Some 0) as Hzero.
  { intros s Hs. cbn. change (slot_capacity _) with (slot_capacity t). rewrite (capacity_ok t Hok).
    apply lookup_gset_to_gmap_Some. split; [by apply slot_range_elem|done]. }
  split.
  - intros leaf lease Hh Hne. unfold activate_slot_lease, reserve_slot_lease.
    change (slot_capacity (with_free _ _)) with (slot_capacity t). rewrite (capacity_ok t Hok).
    assert (0 <= slot_index lease < n_max t) as Hr.
    { apply (generation_slot t _ Hok). rewrite (so_current t Hok leaf lease Hh). by eexists. }
    rewrite (proj2 (Z.leb_gt _ _)), (Hzero _ Hr) by lia. cbn [default from_option id].
    by rewrite (proj2 (Z.eqb_neq _ _)) by done.
  - intros leaf lease t1 Hno. unfold allocate_slot_lease. cbn [leaf_slot_leases with_free with_generations].
    destruct (leaf_slot_leases t !! leaf) eqn:El; [by destruct (Hno s); left|].
    destruct (pending_join_finalize_auth _ !! leaf) as [r|] eqn:Ep.
    { destruct (Hno (jfa_lease r)). right. unfold pending_leases. cbn in Ep. by rewrite lookup_fmap, Ep. }
    destruct (first_slot _) as [s|] eqn:Ef; [|done]. intros [= <- <-]. cbn.
    rewrite bool_decide_eq_true_2 by done. rewrite lookup_gset_to_gmap. by case_guard.
Qed.

(** ** Witnesses

    Two slots; the first leaf joined at slot 0 and was revoked, the second holds
    a ticket for slot 0 at its next generation. *)

Definition toy_hex : HexCodec := {|
  hex_encode b := String.string_of_list_ascii ((fun z => Ascii.ascii_of_N (Z.to_N z)) <$> b);
  hex_decode s := Some (str_bytes s) |}.

Instance toy_hex_laws : HexCodecLaws toy_hex.
Proof.
  split; [|done]. intros b Hb. cbn. f_equal. induction Hb as [|z b Hz _ IH]; cbn; [done|]. rewrite IH. f_equal.
  unfold is_byte in Hz. rewrite Ascii.N_ascii_embedding by lia. lia.
Qed.

Definition leaf_a : bytes := replicate 32 1.
Definition leaf_b : bytes := replicate 32 2.
Definition leaf_c : bytes := replicate 32 3.

Definition sample_slots : SlotTable := {|
  n_max := 2; free_slots := {[1]}; slot_generations := {[0 := 1; 1 := 0]};
  leaf_slot_leases := ∅;
  revoked_slot_leases := {[leaf_a := {| slot_index := 0; slot_generation := 0 |}]};
  pending_join_finalize_auth := {[leaf_b := ticket leaf_b {| slot_index := 0; slot_generation := 1 |} leaf_c]};
  revoked := {[leaf_a]} |}.

(** The table is the one the operations build. *)
Definition sample_run : option SlotTable :=
  let t := (allocate_slot_lease (empty_slots 2) leaf_a).1 in
  let t := (activate_slot_lease t leaf_a {| slot_index := 0; slot_generation := 0 |}).1 in
  t ← result_ok (revoke_leaf_slots t leaf_a);
  match allocate_slot_lease (with_revoked t {[leaf_a]}) leaf_b with
  | (t, Ok lease) => Some (with_pending t {[leaf_b := ticket leaf_b lease leaf_c]})
  | (_, Err _) => None
  end.

Lemma sample_slots_built : sample_run = Some sample_slots.
Proof. vm_compute. reflexivity. Qed.

Lemma sample_holds leaf lease :
  holds sample_slots leaf lease <-> leaf = leaf_b /\ lease = {| slot_index := 0; slot_generation := 1 |}.
Proof.
  unfold holds, pending_leases. cbn [leaf_slot_leases pending_join_finalize_auth sample_slots].
  rewrite lookup_empty, map_fmap_singleton, lookup_singleton_Some. naive_solver.
Qed.

Lemma sample_slots_ok : slots_ok sample_slots.
Proof.
  assert (forall s g, slot_generations sample_slots !! s = Some g -> (s = 0 /\ g = 1) \/ (s = 1 /\ g = 0)) as Hg.
  { cbn. intros s g [[<- <-]|[_ [<- <-]%lookup_singleton_Some]]%lookup_insert_Some; auto. }
  split.
  - done.
  - right. by apply (bool_decide_eq_true_1 _).
  - intros s g [[-> ->]|[-> ->]]%Hg; unfold U64_MAX; lia.
  - cbn. intros s ->%elem_of_singleton. lia.
  - intros leaf lease [-> ->]%sample_holds. cbn. set_solver.
  - by intros leaf lease [-> ->]%sample_holds.
  - intros leaf a b [_ ->]%sample_holds [_ ->]%sample_holds. done.
  - intros l1 l2 a b [-> _]%sample_holds [-> _]%sample_holds. done.
  - cbn. intros leaf r [<- <-]%lookup_singleton_Some. done.
  - cbn. intros leaf a [<- <-]%lookup_singleton_Some. exists 1. split; [done|left]. cbn. lia.
Qed.

Lemma allocate_slot_lease_correct_witness :
  match allocate_slot_lease sample_slots leaf_c with
  | (_, Ok lease) => slot_index lease = 1
  | (_, Err _) => False
  end.
Proof.
  pose proof (allocate_slot_lease_correct sample_slots leaf_c sample_slots_ok) as H.
  destruct (allocate_slot_lease sample_slots leaf_c) as [t' [lease|e]].
  - destruct H as (_ & Hr & Hh & _); [by intros a [? _]%sample_holds|].
    specialize (Hh leaf_b _ (proj2 (sample_holds _ _) (conj eq_refl eq_refl))). cbn in *. lia.
  - destruct H as (_ & _ & Hall); [by intros a [? _]%sample_holds|].
    destruct (Hall 1) as (l & a & [_ ->]%sample_holds & ?); [cbn; lia|]. done.
Defined.

Lemma revoked_lease_refused_witness :
  (activate_slot_lease sample_slots leaf_a {| slot_index := 0; slot_generation := 0 |}).2
  = Err (InvalidInput "slot lease generation mismatch").
Proof. apply (revoked_lease_refused sample_slots leaf_a _ leaf_a sample_slots_ok); done. Defined.

Lemma digest32_replicate k : 0 <= k < 256 -> digest32 (replicate 32 k).
Proof. intros Hk. split; [|done]. by apply Forall_replicate. Qed.

Lemma sample_ids_ok : ids_ok sample_slots.
Proof.
  split.
  - done.
  - apply map_Forall_singleton. apply digest32_replicate. lia.
  - apply map_Forall_singleton. split_and!; [apply digest32_replicate; lia|done|apply digest32_replicate; lia].
  - cbn [revoked sample_slots]. intros x ->%elem_of_singleton. apply digest32_replicate. lia.
Qed.

(** After the restart the pending ticket of [leaf_b] is refused. *)
Lemma restore_resets_generations_witness :
  exists t0, @restore_slots toy_hex (@persisted_slots toy_hex sample_slots) = Ok t0 /\
    (activate_slot_lease t0 leaf_b {| slot_index := 0; slot_generation := 1 |}).2
    = Err (InvalidInput "slot lease generation mismatch").
Proof.
  destruct (restore_resets_generations (HX := toy_hex) sample_slots sample_slots_ok sample_ids_ok) as (t0 & Hr & Ha & _).
  exists t0. split; [exact Hr|]. apply Ha; [by apply sample_holds|done].
Defined.
