(* ===== verification/Roster.v ===== *)
(** * The server's roster: tickets, membership and capacity

    [cityg-server/src/roster_state.rs] and the roster helpers of
    [cityg-server/src/lib.rs] on the state of one group.

    [Group] is [GroupState] with the slot allocator's fields in [slots] and the
    fields the barrier tree works on in [barrier].  A join ticket reserves a
    lease for a leaf ([build_join_ticket]); an accepted bundle changes the set
    of members and the leases, keys and history with it ([commit_membership]);
    a finalised join drops its ticket ([finalize_join]).  An operation that
    fails leaves no trace: [stage_bundle] runs it on a copy of the roster. *)

From S2P Require Import Prelude Hash Errors Header Heap BarrierTree Merkle ServerTree BarrierWire Slots.

(** ** The state *)

Record JoinLeafHistoryRecord := {
  jlh_leaf_id : bytes;
  jlh_barrier_version : Z;
  jlh_slot_index : Z;
  jlh_slot_generation : Z;
  jlh_device_pk : bytes;
  jlh_ek_leaf : bytes;
}.

Record HistoryCommitment := {
  history_view_id : bytes;
  history_commitment_id : bytes;
  prev_history_commitment_id : bytes;
  history_seq : Z;
}.

Record BarrierState := {
  barrier_initialized : bool;
  barrier_version : Z;
  barrier_roots_hash : bytes;
  kem_tree_hash_after : bytes;
  max_barrier_update_bytes : Z;
  barrier_pk_entries : snapshot;
  barrier_hash_cache : option BarrierHashCache;
  current_history_commitment : HistoryCommitment;
  room_admin_pop_keys : gset bytes;
}.

Record Group := {
  slots : SlotTable;
  barrier : BarrierState;
  latest_root : option bytes;
  snapshots : gmap bytes (gset bytes);
  next_index : Z;
  join_history : list JoinLeafHistoryRecord;
  leaf_device_pk : gmap bytes bytes;
  leaf_barrier_public : gmap bytes bytes;
}.

Record MembershipDelta := { joined : list bytes; delta_revoked : list bytes }.

Instance history_commitment_eq_dec : EqDecision HistoryCommitment.
Proof. solve_decision. Defined.

(** ** The group: members, capacity and joins *)

Definition with_slots (g : Group) (t : SlotTable) : Group := {|
  slots := t; barrier := barrier g; latest_root := latest_root g; snapshots := snapshots g;
  next_index := next_index g; join_history := join_history g; leaf_device_pk := leaf_device_pk g;
  leaf_barrier_public := leaf_barrier_public g |}.
Definition with_next_index (g : Group) (i : Z) : Group := {|
  slots := slots g; barrier := barrier g; latest_root := latest_root g; snapshots := snapshots g;
  next_index := i; join_history := join_history g; leaf_device_pk := leaf_device_pk g;
  leaf_barrier_public := leaf_barrier_public g |}.
Definition with_snapshots (g : Group) (root : option bytes) (s : gmap bytes (gset bytes)) : Group := {|
  slots := slots g; barrier := barrier g; latest_root := root; snapshots := s;
  next_index := next_index g; join_history := join_history g; leaf_device_pk := leaf_device_pk g;
  leaf_barrier_public := leaf_barrier_public g |}.
Definition with_join_history (g : Group) (h : list JoinLeafHistoryRecord) : Group := {|
  slots := slots g; barrier := barrier g; latest_root := latest_root g; snapshots := snapshots g;
  next_index := next_index g; join_history := h; leaf_device_pk := leaf_device_pk g;
  leaf_barrier_public := leaf_barrier_public g |}.
Definition with_leaf_keys (g : Group) (device public : gmap bytes bytes) : Group := {|
  slots := slots g; barrier := barrier g; latest_root := latest_root g; snapshots := snapshots g;
  next_index := next_index g; join_history := join_history g; leaf_device_pk := device;
  leaf_barrier_public := public |}.
Definition with_barrier (g : Group) (b : BarrierState) : Group := {|
  slots := slots g; barrier := b; latest_root := latest_root g; snapshots := snapshots g;
  next_index := next_index g; join_history := join_history g; leaf_device_pk := leaf_device_pk g;
  leaf_barrier_public := leaf_barrier_public g |}.

Definition barrier_n_max (n : Z) : result CityGError Z := map_err InvalidInput (validate_barrier_n_max n).

Definition latest_snapshot (g : Group) : option (gset bytes) := r ← latest_root g; snapshots g !! r.

(** [set.members()]: a [BTreeSet] iterates in increasing order. *)
Definition members (s : gset bytes) : list bytes := merge_sort bytes_le (elements s).

Definition latest_members (g : Group) : list bytes := from_option members [] (latest_snapshot g).

(** [GroupMembership::apply_delta] *)
Definition membership_apply_delta (s : gset bytes) (delta : MembershipDelta) : gset bytes :=
  (s ∖ list_to_set (delta_revoked delta)) ∪ list_to_set (joined delta).

(** *** Leaf identifiers *)

Definition sequential_leaf (index : Z) : bytes := replicate 28 0 ++ be_bytes 4 index.

Definition leaf_suffix_u32 (leaf : bytes) : Z := be_value (take 4 (drop 28 leaf)).

Definition sat_add32 (a b : Z) : Z := Z.min U32_MAX (a + b).

Definition max_suffix (s : gset bytes) : Z := set_fold (fun leaf m => Z.max (leaf_suffix_u32 leaf) m) 0 s.

Definition sync_next_index (g : Group) : Group :=
  let max := map_fold (fun _ s m => Z.max (max_suffix s) m) 0 (snapshots g) in
  let candidate := sat_add32 max 1 in
  if next_index g <? candidate then with_next_index g candidate else g.

Definition allocate_leaf (g : Group) : Group * Z :=
  let g := if next_index g =? 0 then with_next_index g 1 else g in
  (with_next_index g (sat_add32 (next_index g) 1), next_index g).

(** *** Capacity *)

Definition DUPLICATE_ACTIVE_COVER_LEAF_ALLOCATION_ERR : string := "duplicate active cover leaf allocation".
Definition COVER_LEAF_INDEX_ALREADY_ALLOCATED_ERR : string := "cover leaf index already allocated".
Definition BARRIER_LEAF_CAPACITY_EXHAUSTED_ERR : string := 
  "barrier leaf capacity exhausted; retire and recreate group".
Definition BARRIER_LEAF_CAPACITY_REFUSAL_THRESHOLD_REACHED_ERR : string :=
  "barrier leaf refusal threshold reached; retire and recreate group".
Definition UNRESOLVED_JOIN_HISTORY_EXHAUSTED_ERR : string := "unresolved join history exceeds n_max".

Definition checked_insert_unique {V} `{EqDecision V} (map : gmap Z V) (key : Z) (value : V) (error : string)
    : result CityGError (gmap Z V) :=
  match map !! key with
  | Some existing => if bool_decide (existing = value) then Ok map else Err (InvalidInput error)
  | None => Ok (<[key := value]> map)
  end.

Definition require_active_slot_lease (t : SlotTable) (leaf : bytes) : result CityGError SlotLease :=
  ok_or (leaf_slot_leases t !! leaf) (InvalidInput "missing active slot lease").

Definition require_revoked_slot_lease (t : SlotTable) (leaf : bytes) : result CityGError SlotLease :=
  ok_or (revoked_slot_leases t !! leaf) (InvalidInput "missing revoked slot lease").

(** [pending.get(leaf).map(lease).or_else(leases.get(leaf))] *)
Definition pending_or_active (t : SlotTable) (leaf : bytes) : option SlotLease :=
  match pending_leases t !! leaf with Some lease => Some lease | None => leaf_slot_leases t !! leaf end.

Definition require_pending_or_active_slot_lease (t : SlotTable) (leaf : bytes) : result CityGError SlotLease :=
  ok_or (pending_or_active t leaf) (InvalidInput "missing pending or active slot lease").

Definition active_cover_leaf_allocations (g : Group) : result CityGError (gmap Z bytes) :=
  fold_res (fun by_index leaf =>
    lease ← require_active_slot_lease (slots g) leaf;
    checked_insert_unique by_index (slot_index lease) leaf DUPLICATE_ACTIVE_COVER_LEAF_ALLOCATION_ERR)
    ∅ (latest_members g).

Definition ensure_distinct_active_slot_indices (g : Group) : result CityGError unit :=
  active_cover_leaf_allocations g ;; Ok tt.

Definition committed_revoked_slot_indices (t : SlotTable) : gset Z := lease_slots (revoked_slot_leases t).

Definition has_committed_revoked_slot_index (t : SlotTable) (slot : Z) : bool :=
  bool_decide (slot ∈ committed_revoked_slot_indices t).

Definition reserved_slot_indices (g : Group) : result CityGError (gset Z) :=
  active ← active_cover_leaf_allocations g;
  Ok (dom active ∪ lease_slots (pending_leases (slots g))).

Record BarrierLeafCapacity := {
  cap_n_max : Z;
  active_leaf_count : Z;
  revoked_leaf_count : Z;
  pending_join_ticket_count : Z;
  reserved_cover_leaf_count : Z;
  remaining_cover_leaf_slots : Z;
}.

Definition is_exhausted (c : BarrierLeafCapacity) : bool := remaining_cover_leaf_slots c =? 0.

Definition utilization_percent (c : BarrierLeafCapacity) : Z :=
  if cap_n_max c =? 0 then 0 else sat_mul (reserved_cover_leaf_count c) 100 / cap_n_max c.

Definition barrier_leaf_capacity (g : Group) : result CityGError BarrierLeafCapacity :=
  n ← barrier_n_max (n_max (slots g));
  reserved ← reserved_slot_indices g;
  let count := Z.of_nat (size reserved) in
  Ok {| cap_n_max := n;
        active_leaf_count := len (latest_members g);
        revoked_leaf_count := Z.of_nat (size (committed_revoked_slot_indices (slots g)));
        pending_join_ticket_count := Z.of_nat (size (pending_join_finalize_auth (slots g)));
        reserved_cover_leaf_count := count;
        remaining_cover_leaf_slots := sat_sub n (Z.min count n) |}.

Definition barrier_leaf_capacity_limit_for_percent (n percent : Z) : Z := sat_mul n percent / 100.

Definition ensure_join_capacity_allows_fresh_reservation (g : Group) (refusal_percent : Z) : result CityGError unit :=
  capacity ← barrier_leaf_capacity g;
  fail_if (is_exhausted capacity) (InvalidInput BARRIER_LEAF_CAPACITY_EXHAUSTED_ERR) ;;
  fail_if ((refusal_percent <? 100) &&
           (barrier_leaf_capacity_limit_for_percent (cap_n_max capacity) refusal_percent
              <? sat_add (reserved_cover_leaf_count capacity) 1))
    (InvalidInput BARRIER_LEAF_CAPACITY_REFUSAL_THRESHOLD_REACHED_ERR).

Definition ensure_join_capacity_allows_existing_leaf_reservation (g : Group) (leaf_id : bytes) (refusal_percent : Z)
    : result CityGError unit :=
  match pending_join_finalize_auth (slots g) !! leaf_id with
  | Some _ => Ok tt
  | None => ensure_join_capacity_allows_fresh_reservation g refusal_percent
  end.

Definition next_available_join_leaf (g : Group) : result CityGError (Group * bytes) :=
  capacity ← barrier_leaf_capacity g;
  fail_if (is_exhausted capacity) (InvalidInput BARRIER_LEAF_CAPACITY_EXHAUSTED_ERR) ;;
  let '(g, index) := allocate_leaf (sync_next_index g) in
  Ok (g, sequential_leaf index).

Definition ensure_join_slot_indices_available (g : Group) (joined : list bytes) : result CityGError unit :=
  active ← active_cover_leaf_allocations g;
  let others := filter (fun p => jfa_leaf_id p.2 ∉ joined) (pending_join_finalize_auth (slots g)) in
  fold_res (fun reserved leaf =>
    lease ← require_pending_or_active_slot_lease (slots g) leaf;
    if bool_decide (slot_index lease ∈ reserved) then Err (InvalidInput COVER_LEAF_INDEX_ALREADY_ALLOCATED_ERR)
    else Ok ({[slot_index lease]} ∪ reserved))
    (dom active ∪ lease_slots (jfa_lease <$> others)) joined ;;
  Ok tt.

(** *** Applying a membership change *)

(** A [&mut self] operation on the staged copy of the roster: an error discards
    the copy ([stage_bundle]). *)
Definition staged {A} (r : SlotTable * result CityGError A) : result CityGError SlotTable :=
  match r with (t, Ok _) => Ok t | (_, Err e) => Err e end.

Definition is_zero_root (root : bytes) : bool := forallb (fun b => b =? 0) root.

Definition membership_base (g : Group) (base_root : bytes) : result CityGError (gset bytes) :=
  match snapshots g !! base_root with
  | Some snapshot => Ok snapshot
  | None =>
      if is_zero_root base_root && bool_decide (snapshots g = ∅) then Ok ∅
      else Err (InvalidInput "unknown membership base root")
  end.

(** [GroupRoster::apply_delta], on the state of the group. *)
Definition apply_delta {MH : MerkleHash} (g : Group) (base_root : bytes) (delta : MembershipDelta)
    : result CityGError (Group * bytes) :=
  base ← membership_base g base_root;
  let snaps := match snapshots g !! base_root with Some _ => snapshots g | None => <[base_root := base]> (snapshots g) end in
  let t := with_revoked (slots g)
             ((revoked (slots g) ∖ list_to_set (joined delta)) ∪ list_to_set (delta_revoked delta)) in
  fail_if (bool_decide (Exists (fun leaf => leaf ∉ base) (delta_revoked delta))) (InvalidInput "revoking non-member") ;;
  fail_if (bool_decide (Exists (fun leaf => leaf ∈ base) (joined delta))) (InvalidInput "duplicate join") ;;
  let next := membership_apply_delta base delta in
  new_root ← map_err (fun _ => InvalidInput "unable to compute membership root") (canonical_set_root (members next));
  Ok (sync_next_index (with_snapshots (with_slots g t) (Some new_root) (<[new_root := next]> snaps)), new_root).

(** One round of the loop over [delta.joined]. *)
Definition join_leaf (version : Z) (device : option bytes) (ek_leaf : option bytes) (g : Group) (leaf : bytes)
    : result CityGError Group :=
  lease ← ok_or (pending_or_active (slots g) leaf) (InvalidInput "missing slot lease for joined leaf");
  t ← staged (activate_slot_lease (slots g) leaf lease);
  let device_pk := default leaf device in
  ek ← ok_or ek_leaf (InvalidInput "barrier_leaf_pk (header[177]) is required on join");
  let record := {| jlh_leaf_id := leaf; jlh_barrier_version := sat_add version 1;
                   jlh_slot_index := slot_index lease; jlh_slot_generation := slot_generation lease;
                   jlh_device_pk := device_pk; jlh_ek_leaf := ek |} in
  let g := with_join_history (with_slots g t) (join_history g ++ [record]) in
  Ok (with_leaf_keys g (<[leaf := device_pk]> (leaf_device_pk g))
        (if bool_decide (ek = []) then leaf_barrier_public g else <[leaf := ek]> (leaf_barrier_public g))).

(** One round of the loop over [delta.revoked]. *)
Definition revoke_leaf (g : Group) (leaf : bytes) : result CityGError Group :=
  t ← revoke_leaf_slots (slots g) leaf;
  Ok (with_leaf_keys (with_slots g t) (delete leaf (leaf_device_pk g)) (delete leaf (leaf_barrier_public g))).

Definition history_key_le (a b : JoinLeafHistoryRecord) : Prop :=
  jlh_slot_index a < jlh_slot_index b \/
  (jlh_slot_index a = jlh_slot_index b /\
   (jlh_barrier_version a < jlh_barrier_version b \/
    (jlh_barrier_version a = jlh_barrier_version b /\ bytes_le (jlh_leaf_id a) (jlh_leaf_id b)))).

Instance history_key_le_dec : RelDecision history_key_le.
Proof. intros a b. unfold history_key_le. apply _. Defined.

(** The latest record of each active leaf. *)
Definition latest_by_leaf (active : gset bytes) (history : list JoinLeafHistoryRecord) : gmap bytes JoinLeafHistoryRecord :=
  foldl (fun latest record =>
    if bool_decide (jlh_leaf_id record ∈ active) then
      match latest !! jlh_leaf_id record with
      | Some existing =>
          if jlh_barrier_version existing <=? jlh_barrier_version record
          then <[jlh_leaf_id record := record]> latest else latest
      | None => <[jlh_leaf_id record := record]> latest
      end
    else latest) ∅ history.

Definition prune_join_history (g : Group) : result CityGError Group :=
  if bool_decide (join_history g = []) then Ok g
  else
    max_records ← barrier_n_max (n_max (slots g));
    let active := default ∅ (latest_snapshot g) in
    if bool_decide (active = ∅) then Ok (with_join_history g [])
    else
      let latest := latest_by_leaf active (join_history g) in
      fail_if (max_records <? Z.of_nat (size latest)) (InvalidInput UNRESOLVED_JOIN_HISTORY_EXHAUSTED_ERR) ;;
      Ok (with_join_history g (merge_sort history_key_le ((map_to_list latest).*2))).

(** [header[177]] as a join needs it. *)
Definition required_join_leaf_pk (delta : MembershipDelta) (leaf_pk : option bytes) : result CityGError (option bytes) :=
  if bool_decide (joined delta = []) then Ok None
  else match leaf_pk with
       | Some ek => if len ek =? 1184 then Ok (Some ek)
                    else Err (InvalidInput "barrier_leaf_pk must be exactly 1184 bytes on join")
       | None => Err (InvalidInput "barrier_leaf_pk (header[177]) is required on join")
       end.

(** The membership part of [apply_bundle_to_state]: the change of the member
    set, then the leases, keys and history of the joined and revoked leaves. *)
Definition commit_membership {MH : MerkleHash} (g : Group) (parent_root : bytes) (delta : MembershipDelta)
    (version : Z) (device leaf_pk : option bytes) : result CityGError (Group * bytes) :=
  ek_leaf ← required_join_leaf_pk delta leaf_pk;
  '(g, new_root) ← apply_delta g parent_root delta;
  if bool_decide (joined delta = []) && bool_decide (delta_revoked delta = []) then Ok (g, new_root)
  else
    g ← fold_res (join_leaf version device ek_leaf) g (joined delta);
    g ← fold_res revoke_leaf g (delta_revoked delta);
    g ← prune_join_history g;
    Ok (g, new_root).

(** The author of a finalisation: the first leaf, in increasing order, with
    the device key. *)
Definition find_device_leaf (g : Group) (pop_pk : bytes) : option bytes :=
  head (members (dom (filter (fun p => p.2 = pop_pk) (leaf_device_pk g)))).

Definition finalize_join (g : Group) (token device : option bytes) : Group :=
  match token, device with
  | Some _, Some pop_pk =>
      match find_device_leaf g pop_pk with
      | Some author =>
          match pending_join_finalize_auth (slots g) !! author with
          | Some record =>
              with_slots g (finalize_slot_reclaim
                (with_pending (slots g) (delete author (pending_join_finalize_auth (slots g)))) (jfa_lease record))
          | None => g
          end
      | None => g
      end
  | _, _ => g
  end.

(** *** Implicit leases of a first bundle *)

Definition activate_all (t : SlotTable) (leases : list (bytes * SlotLease)) : result CityGError SlotTable :=
  fold_res (fun t p => staged (activate_slot_lease t p.1 p.2)) t leases.

(** The state of the group shows an earlier bundle or ticket. *)
Definition has_existing_group_state (g : Group) : bool :=
  negb (barrier_version (barrier g) =? 0)
  || negb (bool_decide (leaf_slot_leases (slots g) = ∅))
  || negb (bool_decide (pending_join_finalize_auth (slots g) = ∅))
  || negb (bool_decide (revoked_slot_leases (slots g) = ∅))
  || negb (bool_decide (leaf_device_pk g = ∅))
  || negb (bool_decide (join_history g = []))
  || negb (bool_decide (latest_members g = [])).

Fixpoint offset_leases (offset capacity : Z) (leaves : list bytes) : result CityGError (list (bytes * SlotLease)) :=
  match leaves with
  | [] => Ok []
  | leaf :: leaves' =>
      fail_if (U32_MAX <? offset) (InvalidInput "slot_index out of range") ;;
      fail_if (capacity <=? offset) (InvalidInput "slot allocator exhausted") ;;
      rest ← offset_leases (offset + 1) capacity leaves';
      Ok ((leaf, {| slot_index := offset; slot_generation := 0 |}) :: rest)
  end.

Definition derive_implicit_genesis_slot_leases {HS : Hashing} {WC : WireCodec} (g : Group) (hdr : header)
    (delta : MembershipDelta) : result CityGError (list (bytes * SlotLease)) :=
  match joined delta with
  | [] => Ok []
  | first :: _ =>
      let missing_lease := existsb (fun leaf =>
        bool_decide (pending_join_finalize_auth (slots g) !! leaf = None)
        && bool_decide (leaf_slot_leases (slots g) !! leaf = None)) (joined delta) in
      if negb missing_lease then Ok []
      else if has_existing_group_state g then Ok []
      else
        update ← parse_barrier_update hdr (n_max (slots g));
        match update with
        | Some parsed =>
            fail_if (negb (bool_decide (delta_revoked delta = [])) || negb (len (joined delta) =? 1))
              (InvalidInput "genesis barrier update without slot lease must contain exactly one joined leaf") ;;
            fail_if (U32_MAX <? spu_updater_slot_index parsed) (InvalidInput "slot_index out of range") ;;
            fail_if (slot_capacity (slots g) <=? spu_updater_slot_index parsed) (InvalidInput "slot_index out of range") ;;
            Ok [(first, {| slot_index := spu_updater_slot_index parsed;
                           slot_generation := spu_updater_slot_generation parsed |})]
        | None => offset_leases 0 (slot_capacity (slots g)) (joined delta)
        end
  end.

(** The lease and the pending ticket.  [provisioned] is whether the rest of the
    ticket could be built: when it fails the slot taken from the free list has
    no ticket, until the free list runs out and is rebuilt. *)
Definition issue_ticket (g : Group) (leaf : bytes) (token : bytes)
    (provisioned : Group -> bytes -> SlotLease -> result CityGError unit) : Group * result CityGError (bytes * SlotLease) :=
  match allocate_slot_lease (slots g) leaf with
  | (t, Err e) => (with_slots g t, Err e)
  | (t, Ok lease) =>
      match provisioned (with_slots g t) leaf lease with
      | Err e => (with_slots g t, Err e)
      | Ok _ =>
          (with_slots g (with_pending t (<[leaf := ticket leaf lease token]> (pending_join_finalize_auth t))),
           Ok (leaf, lease))
      end
  end.

(** The roster part of [build_join_ticket_with_leaf]: the leaf, the capacity
    checks, the lease and the pending ticket. *)
Definition build_join_ticket (g : Group) (leaf_override : option bytes) (refusal_percent : Z) (token : bytes)
    (provisioned : Group -> bytes -> SlotLease -> result CityGError unit) : Group * result CityGError (bytes * SlotLease) :=
  let chosen :=
    match leaf_override with
    | Some leaf =>
        fail_if (bool_decide (leaf ∈ latest_members g)) (InvalidInput "leaf already present in roster") ;;
        ensure_join_capacity_allows_existing_leaf_reservation g leaf refusal_percent ;;
        Ok (g, leaf)
    | None =>
        ensure_join_capacity_allows_fresh_reservation g refusal_percent ;;
        next_available_join_leaf g
    end in
  match chosen with
  | Err e => (g, Err e)
  | Ok (g, leaf) => issue_ticket g leaf token provisioned
  end.

(** ** What the group operations maintain *)

Definition snapshots_ok {MH : MerkleHash} (g : Group) : Prop :=
  forall root s, snapshots g !! root = Some s -> canonical_set_root (members s) = Ok root.

Record group_ok {MH : MerkleHash} (g : Group) : Prop := {
  go_slots : slots_ok (slots g);
  go_device : forall leaf, is_Some (leaf_device_pk g !! leaf) -> is_Some (leaf_slot_leases (slots g) !! leaf);
  go_snapshots : snapshots_ok g;
}.

(** The leaf keeps the lease from one state to the next. *)
Definition keeps (leaf : bytes) (g g' : Group) : Prop :=
  forall lease, holds (slots g) leaf lease -> holds (slots g') leaf lease.

Lemma keeps_refl leaf g : keeps leaf g g.
Proof. by intros lease. Qed.

Lemma keeps_trans leaf g1 g2 g3 : keeps leaf g1 g2 -> keeps leaf g2 g3 -> keeps leaf g1 g3.
Proof. intros H1 H2 lease Hh. auto. Qed.

Lemma members_elem (s : gset bytes) leaf : leaf ∈ members s <-> leaf ∈ s.
Proof. unfold members. by rewrite merge_sort_Permutation, elem_of_elements. Qed.

Lemma members_sorted (s : gset bytes) : StronglySorted bytes_lt (members s).
Proof.
  assert (NoDup (members s)) as Hnd by (unfold members; rewrite merge_sort_Permutation; apply NoDup_elements).
  pose proof (StronglySorted_merge_sort bytes_le (elements s)) as Hs. fold (members s) in Hs.
  induction Hs as [|x l _ IH Hall]; constructor.
  - apply IH. by apply NoDup_cons in Hnd as [_ ?].
  - rewrite Forall_forall in *. intros y Hy. destruct (proj1 (bytes_le_lteq x y) (Hall y Hy)) as [?| ->]; [done|].
    by apply NoDup_cons in Hnd as [? _].
Qed.

Lemma length_members (s : gset bytes) : length (members s) = size s.
Proof. unfold members. by rewrite merge_sort_Permutation. Qed.

Lemma members_inj (s1 s2 : gset bytes) : members s1 = members s2 -> s1 = s2.
Proof. intros H. apply set_eq. intros x. by rewrite <- !members_elem, H. Qed.

Lemma sync_next_index_same g :
  slots (sync_next_index g) = slots g /\ snapshots (sync_next_index g) = snapshots g /\
  latest_root (sync_next_index g) = latest_root g /\ leaf_device_pk (sync_next_index g) = leaf_device_pk g /\
  leaf_barrier_public (sync_next_index g) = leaf_barrier_public g /\ join_history (sync_next_index g) = join_history g /\
  barrier (sync_next_index g) = barrier g.
Proof. unfold sync_next_index. by case_if. Qed.

(** The tables that differ in the revoked set alone. *)
Lemma slots_ok_with_revoked t r : slots_ok t -> slots_ok (with_revoked t r).
Proof. intros H. split; apply H. Qed.

Section Steps.
  Context {MH : MerkleHash}.

Lemma holds_fmap t leaf r : pending_join_finalize_auth t !! leaf = Some r -> holds t leaf (jfa_lease r).
Proof. intros H. right. unfold pending_leases. by rewrite lookup_fmap, H. Qed.

Lemma pending_or_active_holds t leaf lease : pending_or_active t leaf = Some lease -> holds t leaf lease.
Proof. unfold pending_or_active, holds. destruct (pending_leases t !! leaf); naive_solver. Qed.

Lemma holds_pending_or_active t leaf lease : slots_ok t -> holds t leaf lease -> pending_or_active t leaf = Some lease.
Proof.
  intros Hok Hh. unfold pending_or_active. destruct (pending_leases t !! leaf) as [a|] eqn:E.
  - f_equal. apply (so_agree t Hok leaf); [by right|done].
  - destruct Hh as [Hh|Hh]; congruence.
Qed.

Lemma holds_after_init t leaf lease :
  slots_ok t -> holds t leaf lease -> leasable (ensure_slot_allocator_initialized t) leaf lease.
Proof. intros Hok Hh. apply holds_leasable; [by apply ensure_ok|done]. Qed.

(** *** Joins *)

Lemma join_leaf_ok version device ek g leaf lease :
  group_ok g -> holds (slots g) leaf lease ->
  exists g', join_leaf version device (Some ek) g leaf = Ok g' /\ group_ok g' /\
    leaf_slot_leases (slots g') = <[leaf := lease]> (leaf_slot_leases (slots g)) /\
    pending_join_finalize_auth (slots g') = pending_join_finalize_auth (slots g) /\
    snapshots g' = snapshots g /\ latest_root g' = latest_root g.
Proof.
  intros [Hok Hdev Hsnap] Hh. unfold join_leaf. rewrite (holds_pending_or_active _ _ _ Hok Hh). rstep.
  destruct (activate_leasable _ _ _ Hok (holds_after_init _ _ _ Hok Hh))
    as (t' & Hact & Hok' & Hn & Hls & Hp & _).
  rewrite Hact. cbn [staged]. rstep. eexists. split; [reflexivity|]. cbn. split_and!; [|done|done|done|done].
  split; cbn; [done| |done]. intros l Hl. rewrite Hls. destruct (decide (l = leaf)) as [-> |Hne].
  - by rewrite lookup_insert_eq.
  - rewrite lookup_insert_ne in Hl by done. rewrite lookup_insert_ne by done. auto.
Qed.

Lemma join_leaf_inv version device ek g leaf g' :
  group_ok g -> join_leaf version device ek g leaf = Ok g' ->
  exists lease, holds (slots g) leaf lease /\ group_ok g' /\
    leaf_slot_leases (slots g') = <[leaf := lease]> (leaf_slot_leases (slots g)) /\
    pending_join_finalize_auth (slots g') = pending_join_finalize_auth (slots g) /\
    snapshots g' = snapshots g /\ latest_root g' = latest_root g.
Proof.
  intros Hok H. unfold join_leaf in H. destruct (pending_or_active (slots g) leaf) as [lease|] eqn:E; [|done].
  destruct ek as [ek|]; [|by inv_all]. apply pending_or_active_holds in E as Hh. exists lease. split; [done|].
  destruct (join_leaf_ok version device ek g leaf lease Hok Hh) as (g1 & Hj & Hrest).
  unfold join_leaf in Hj. rewrite E in Hj. rewrite Hj in H. injection H as ->. done.
Qed.

Lemma join_leaf_keeps version device ek g leaf g' l :
  group_ok g -> join_leaf version device ek g leaf = Ok g' -> keeps l g g'.
Proof.
  intros Hok H a Ha. destruct (join_leaf_inv _ _ _ _ _ _ Hok H) as (lease & Hh & _ & Hls & Hp & _).
  unfold holds, pending_leases. rewrite Hls, Hp. destruct (decide (l = leaf)) as [-> |Hne].
  - left. rewrite lookup_insert_eq. f_equal. by apply (so_agree _ (go_slots g Hok) leaf).
  - rewrite lookup_insert_ne by done. done.
Qed.

(** *** Revocations *)

Lemma revoke_leaf_inv g leaf g' :
  group_ok g -> revoke_leaf g leaf = Ok g' ->
  group_ok g' /\ leaf_slot_leases (slots g') = delete leaf (leaf_slot_leases (slots g)) /\
  pending_join_finalize_auth (slots g') = delete leaf (pending_join_finalize_auth (slots g)) /\
  snapshots g' = snapshots g /\ latest_root g' = latest_root g.
Proof.
  intros [Hok Hdev Hsnap] H. unfold revoke_leaf in H. inv_all.
  destruct (revoke_leaf_slots_ok _ _ _ Hok E) as (Hok' & Hn & Hls & Hp & _).
  split_and!; [|done|done|done|done]. split; cbn; [done| |done].
  intros l [d [Hne Hd]%lookup_delete_Some]. rewrite Hls, lookup_delete_ne by done. apply Hdev. by exists d.
Qed.

Lemma revoke_leaf_keeps g leaf g' l : group_ok g -> revoke_leaf g leaf = Ok g' -> l <> leaf -> keeps l g g'.
Proof.
  intros Hok H Hne a Ha. destruct (revoke_leaf_inv _ _ _ Hok H) as (_ & Hls & Hp & _).
  unfold holds, pending_leases. rewrite Hls, Hp, fmap_delete, !lookup_delete_ne by done. done.
Qed.

(** *** The member sets *)

Lemma membership_base_spec g root base :
  membership_base g root = Ok base <->
  snapshots g !! root = Some base \/ (snapshots g = ∅ /\ is_zero_root root = true /\ base = ∅).
Proof.
  unfold membership_base. destruct (snapshots g !! root) as [s|] eqn:E.
  - split; [intros [= ->]; by left|]. intros [[= ->]|(He & _)]; [done|]. by rewrite He, lookup_empty in E.
  - destruct (is_zero_root root); cbn.
    + case_bool_decide; split; naive_solver.
    + split; naive_solver.
Qed.

(** The state after a change of the member set. *)
Definition changed (g : Group) (base_root : bytes) (base : gset bytes) (delta : MembershipDelta) (new_root : bytes) : Group :=
  sync_next_index (with_snapshots
    (with_slots g (with_revoked (slots g)
       ((revoked (slots g) ∖ list_to_set (joined delta)) ∪ list_to_set (delta_revoked delta))))
    (Some new_root)
    (<[new_root := membership_apply_delta base delta]>
       match snapshots g !! base_root with Some _ => snapshots g | None => <[base_root := base]> (snapshots g) end)).

Lemma apply_delta_ok g base_root base delta new_root :
  membership_base g base_root = Ok base ->
  Forall (fun leaf => leaf ∈ base) (delta_revoked delta) -> Forall (fun leaf => leaf ∉ base) (joined delta) ->
  canonical_set_root (members (membership_apply_delta base delta)) = Ok new_root ->
  apply_delta g base_root delta = Ok (changed g base_root base delta new_root, new_root).
Proof.
  intros Hb Hr Hj Hroot. unfold apply_delta. rewrite Hb. rstep.
  rewrite bool_decide_eq_false_2.
  2:{ intros (x & Hx & Hn)%Exists_exists. rewrite Forall_forall in Hj. by eapply Hj. }
  rewrite bool_decide_eq_false_2.
  2:{ intros (x & Hx & Hn)%Exists_exists. rewrite Forall_forall in Hr. by apply Hn, Hr. }
  rstep. rewrite Hroot. cbn [map_err]. rstep. reflexivity.
Qed.

Lemma apply_delta_inv g base_root delta g' new_root :
  apply_delta g base_root delta = Ok (g', new_root) ->
  exists base, membership_base g base_root = Ok base /\
    Forall (fun leaf => leaf ∈ base) (delta_revoked delta) /\ Forall (fun leaf => leaf ∉ base) (joined delta) /\
    canonical_set_root (members (membership_apply_delta base delta)) = Ok new_root /\
    g' = changed g base_root base delta new_root.
Proof.
  unfold apply_delta. destruct (membership_base g base_root) as [base|e]; [rstep|done].
  destruct (bool_decide (Exists _ (delta_revoked delta))) eqn:Hr; [discriminate|]. rstep.
  destruct (bool_decide (Exists _ (joined delta))) eqn:Hj; [discriminate|]. rstep. bool_prop.
  destruct (canonical_set_root _) as [root|] eqn:Hroot; [|discriminate]. cbn [map_err]. rstep. intros [= <- <-].
  exists base. split_and!; try done.
  - apply Forall_forall. intros x Hx. destruct (decide (x ∈ base)); [done|]. exfalso. apply Hr, Exists_exists. eauto.
  - apply Forall_forall. intros x Hx Hin. apply Hj, Exists_exists. eauto.
Qed.

Lemma changed_fields g base_root base delta new_root :
  let g' := changed g base_root base delta new_root in
  slots g' = with_revoked (slots g) ((revoked (slots g) ∖ list_to_set (joined delta)) ∪ list_to_set (delta_revoked delta)) /\
  latest_root g' = Some new_root /\ leaf_device_pk g' = leaf_device_pk g /\
  latest_snapshot g' = Some (membership_apply_delta base delta).
Proof.
  cbn zeta. unfold changed, latest_snapshot.
  match goal with |- context [sync_next_index ?x] => destruct (sync_next_index_same x) as (-> & -> & -> & -> & _) end.
  cbn. by rewrite lookup_insert_eq.
Qed.

Lemma zero_root_eq root : is_zero_root root = true -> len root = 32 -> root = zero32.
Proof using.
  intros Hz Hl. symmetry. apply replicate_as_Forall. split; [unfold len in Hl; lia|].
  unfold is_zero_root in Hz. rewrite forallb_forall in Hz. apply Forall_forall. intros x Hx%list_elem_of_In%Hz.
  bool_prop. done.
Qed.

Lemma changed_ok g base_root base delta new_root :
  group_ok g -> len base_root = 32 -> membership_base g base_root = Ok base ->
  canonical_set_root (members (membership_apply_delta base delta)) = Ok new_root ->
  group_ok (changed g base_root base delta new_root).
Proof.
  intros [Hok Hdev Hsnap] Hl Hb Hroot. destruct (changed_fields g base_root base delta new_root) as (Hs & Hlr & Hd & _).
  split.
  - rewrite Hs. by apply slots_ok_with_revoked.
  - rewrite Hs, Hd. apply Hdev.
  - intros root s. unfold changed.
    match goal with |- context [sync_next_index ?x] => destruct (sync_next_index_same x) as (_ & -> & _) end.
    cbn. intros [[<- <-]|[_ Hin]]%lookup_insert_Some; [done|].
    destruct (snapshots g !! base_root) eqn:E; [by apply Hsnap|].
    apply lookup_insert_Some in Hin as [[<- <-]|[_ Hin]]; [|by apply Hsnap].
    apply membership_base_spec in Hb as [Hb|(_ & Hz & ->)]; [congruence|].
    by rewrite (zero_root_eq base_root Hz Hl).
Qed.

Lemma prune_join_history_same g g' :
  prune_join_history g = Ok g' ->
  slots g' = slots g /\ leaf_device_pk g' = leaf_device_pk g /\ snapshots g' = snapshots g /\ latest_root g' = latest_root g.
Proof using.
  unfold prune_join_history. intros H. destruct (bool_decide (join_history g = [])); [by injection H as <-|].
  inv_res H. destruct (bool_decide (default ∅ _ = ∅)); [by injection H as <-|].
  inv_res H. by injection H as <-.
Qed.

Lemma group_ok_ext g g' :
  group_ok g -> slots g' = slots g -> leaf_device_pk g' = leaf_device_pk g -> snapshots g' = snapshots g -> group_ok g'.
Proof.
  intros [Hok Hdev Hsnap] Hs Hd Hn. split; unfold snapshots_ok; rewrite ?Hs, ?Hd, ?Hn; done.
Qed.

(** Same latest set. *)
Definition same_latest (a b : Group) : Prop :=
  latest_root b = latest_root a /\ latest_snapshot b = latest_snapshot a.

Lemma fold_joins version device ek g leaves g' :
  group_ok g -> fold_res (join_leaf version device ek) g leaves = Ok g' ->
  group_ok g' /\ same_latest g g' /\ forall leaf, keeps leaf g g'.
Proof.
  intros Hok H.
  eapply (fold_res_inv (fun g' => group_ok g' /\ same_latest g g' /\ forall leaf, keeps leaf g g')); [|by split_and!; [|done|intros ? ?]|exact H].
  intros ga leaf gb _ (Ha & [Hr1 Hr2] & Hk) Hjoin.
  destruct (join_leaf_inv _ _ _ _ _ _ Ha Hjoin) as (lease & _ & Hb' & _ & _ & Hsn & Hrt).
  split_and!; [done| |intros l; eauto using keeps_trans, join_leaf_keeps].
  unfold same_latest, latest_snapshot in *. by rewrite Hrt, Hsn.
Qed.

Lemma fold_revokes g leaves g' :
  group_ok g -> fold_res revoke_leaf g leaves = Ok g' ->
  group_ok g' /\ same_latest g g' /\ forall leaf, leaf ∉ leaves -> keeps leaf g g'.
Proof.
  intros Hok H.
  eapply (fold_res_inv (fun g' => group_ok g' /\ same_latest g g' /\ forall leaf, leaf ∉ leaves -> keeps leaf g g'));
    [|by split_and!; [|done|intros ? _ ?]|exact H].
  intros ga leaf gb Hin (Ha & [Hr1 Hr2] & Hk) Hrev.
  destruct (revoke_leaf_inv _ _ _ Ha Hrev) as (Hb' & _ & _ & Hsn & Hrt).
  split_and!; [done| |intros l Hnl; eapply keeps_trans; [by apply Hk|]; eapply revoke_leaf_keeps; [done|done|by intros ->]].
  unfold same_latest, latest_snapshot in *. by rewrite Hrt, Hsn.
Qed.

(** What a successful membership change does to the group and to the leases. *)
Lemma commit_membership_inv g parent_root delta version device leaf_pk g' root :
  group_ok g -> len parent_root = 32 ->
  commit_membership g parent_root delta version device leaf_pk = Ok (g', root) ->
  group_ok g' /\
  (exists base, membership_base g parent_root = Ok base /\ latest_root g' = Some root /\
     latest_snapshot g' = Some (membership_apply_delta base delta)) /\
  (forall leaf, leaf ∉ delta_revoked delta -> keeps leaf g g').
Proof.
  intros Hok Hl H. unfold commit_membership in H. inv_res H. inv_res H. destruct x0 as [g1 root1].
  apply apply_delta_inv in E0 as (base & Hb & Hr & Hj & Hroot & ->).
  pose proof (changed_ok g parent_root base delta root1 Hok Hl Hb Hroot) as Hok1.
  destruct (changed_fields g parent_root base delta root1) as (Hs1 & Hlr1 & Hd1 & Hls1).
  set (g1 := changed g parent_root base delta root1) in *. clearbody g1.
  assert (forall leaf, keeps leaf g g1) as Hk1 by (intros leaf lease; by rewrite Hs1).
  destruct (_ && _).
  { injection H as <- <-. split_and!; [done|naive_solver|auto]. }
  inv_res H. inv_res H. inv_res H. injection H as <- <-. rename x0 into g2, x1 into g3, x2 into g4.
  destruct (fold_joins _ _ _ _ _ _ Hok1 E0) as (Hok2 & [Hlr2 Hls2] & Hk2).
  destruct (fold_revokes _ _ _ Hok2 E1) as (Hok3 & [Hlr3 Hls3] & Hk3).
  destruct (prune_join_history_same _ _ E2) as (Hs4 & Hd4 & Hsn4 & Hrt4).
  split_and!.
  - by apply (group_ok_ext g3).
  - exists base. unfold latest_snapshot in *. rewrite Hrt4, Hsn4. split_and!; [done|congruence|congruence].
  - intros leaf Hn lease Hh. rewrite Hs4. apply Hk3; [done|]. by apply Hk2, Hk1.
Qed.

(** *** Finalised joins *)

Lemma find_device_leaf_spec g pop_pk leaf : find_device_leaf g pop_pk = Some leaf -> leaf_device_pk g !! leaf = Some pop_pk.
Proof using.
  unfold find_device_leaf. intros H%head_Some_elem_of. rewrite members_elem in H.
  apply elem_of_dom in H as [d [Hd <-]%map_lookup_filter_Some]. done.
Qed.

Lemma finalize_join_ok g token device : group_ok g -> group_ok (finalize_join g token device).
Proof.
  intros [Hok Hdev Hsnap]. unfold finalize_join. destruct token, device as [pop_pk|]; try done.
  destruct (find_device_leaf g pop_pk) as [author|]; [|done].
  destruct (pending_join_finalize_auth (slots g) !! author) as [r|]; [|done].
  split; [by apply finalize_ok|exact Hdev|exact Hsnap].
Qed.

Lemma finalize_join_keeps g token device leaf : group_ok g -> keeps leaf g (finalize_join g token device).
Proof.
  intros [Hok Hdev Hsnap]. unfold finalize_join. destruct token, device as [pop_pk|]; try apply keeps_refl.
  destruct (find_device_leaf g pop_pk) as [author|] eqn:Ef; [|apply keeps_refl].
  destruct (pending_join_finalize_auth (slots g) !! author) as [r|]; [|apply keeps_refl].
  intros lease Hh. unfold holds, pending_leases. cbn. rewrite fmap_delete.
  destruct (decide (leaf = author)) as [-> |Hne]; [left|rewrite lookup_delete_ne by done; exact Hh].
  apply find_device_leaf_spec in Ef. destruct (Hdev author) as [a Ha]; [by exists pop_pk|].
  rewrite Ha. f_equal. apply (so_agree _ Hok author); [by left|done].
Qed.

(** *** Tickets *)

Lemma next_available_same g g' leaf :
  next_available_join_leaf g = Ok (g', leaf) ->
  slots g' = slots g /\ snapshots g' = snapshots g /\ leaf_device_pk g' = leaf_device_pk g.
Proof using.
  intros H. unfold next_available_join_leaf in H. inv_res H. inv_res H. unfold allocate_leaf in H.
  injection H as <- <-. destruct (sync_next_index_same g) as (Hs & Hn & _ & Hd & _). by case_if.
Qed.

Lemma issue_ticket_ok g leaf token provisioned g' r :
  group_ok g -> issue_ticket g leaf token provisioned = (g', r) ->
  group_ok g' /\ (forall l, keeps l g g') /\
  (forall l lease, r = Ok (l, lease) -> l = leaf /\ holds (slots g') leaf lease).
Proof.
  intros [Hok Hdev Hsnap] H. unfold issue_ticket in H.
  pose proof (allocate_same (slots g) leaf) as Hsame.
  destruct (allocate_slot_lease (slots g) leaf) as [t [lease|e]] eqn:Ea; cbn [fst] in Hsame; destruct Hsame as [Hls Hp].
  - destruct (allocate_ok _ _ _ _ Hok Ea) as (Hok' & Hl & Hnf).
    assert (forall l, keeps l g (with_slots g t)) as Hk.
    { intros l a. unfold holds, pending_leases. cbn. by rewrite Hls, Hp. }
    destruct (provisioned _ _ _) as [[]|e]; injection H as <- <-; (split_and!; [split; cbn; rewrite ?Hls; try done| |]).
    + by apply insert_pending_ok.
    + intros l a Ha. apply Hk in Ha. unfold holds, pending_leases in Ha |- *. cbn in Ha |- *. rewrite fmap_insert.
      destruct (decide (l = leaf)) as [-> |Hne]; [|by rewrite lookup_insert_ne].
      right. rewrite lookup_insert_eq. cbn. f_equal. symmetry. by apply (la_agree _ _ _ Hl).
    + intros l a [= <- <-]. split; [done|right]. unfold pending_leases. cbn. by rewrite fmap_insert, lookup_insert_eq.
    + done.
    + done.
  - destruct (allocate_err _ _ _ _ Hok Ea) as (Hok' & _ & _). injection H as <- <-. split_and!.
    + split; cbn; rewrite ?Hls; done.
    + intros l a. unfold holds, pending_leases. cbn. by rewrite Hls, Hp.
    + done.
Qed.

Lemma build_join_ticket_ok g leaf refusal token provisioned g' r :
  group_ok g -> build_join_ticket g leaf refusal token provisioned = (g', r) ->
  group_ok g' /\ (forall l, keeps l g g') /\ (forall l lease, r = Ok (l, lease) -> holds (slots g') l lease).
Proof.
  intros Hok H. unfold build_join_ticket in H.
  match type of H with match ?c with _ => _ end = _ => destruct c as [[g1 l1]|e] eqn:Ec end.
  - assert (slots g1 = slots g /\ snapshots g1 = snapshots g /\ leaf_device_pk g1 = leaf_device_pk g) as (Hs & Hn & Hd).
    { destruct leaf; [by inv_all|]. inv_res Ec. by apply (next_available_same g g1 l1). }
    destruct (issue_ticket_ok g1 l1 token provisioned g' r) as (Hok' & Hk & Hr); [by apply (group_ok_ext g)|done|].
    split_and!; [done| |].
    + intros l lease. rewrite <- Hs. apply Hk.
    + intros l lease Hrl. by destruct (Hr l lease Hrl) as [-> ?].
  - injection H as <- <-. split_and!; [done|intros l; apply keeps_refl|done].
Qed.

(** *** Implicit leases *)

Lemma activate_all_ok t leases t' :
  slots_ok t -> pending_join_finalize_auth t = ∅ ->
  NoDup (slot_index <$> leases.*2) -> Forall (fun p => 0 <= slot_index p.2) leases ->
  (forall l a, holds t l a -> slot_index a ∉ (slot_index <$> leases.*2)) ->
  activate_all t leases = Ok t' ->
  slots_ok t' /\ (forall leaf, is_Some (leaf_slot_leases t !! leaf) -> is_Some (leaf_slot_leases t' !! leaf)).
Proof using.
  revert t. induction leases as [|[leaf lease] leases IH]; cbn; intros t Hok Hp Hnd Hpos Hfree H.
  { injection H as <-. done. }
  inv_res H. destruct (activate_slot_lease t leaf lease) as [t1 [r|]] eqn:Ea; [|done]. injection E as <-.
  apply NoDup_cons in Hnd as [Hnin Hnd]. apply Forall_cons in Hpos as [Hpos Hposl]. cbn in Hpos.
  assert (leasable (ensure_slot_allocator_initialized t) leaf lease) as Hl.
  { eapply activate_inv; [done|done| | |exact Ea].
    - intros l a Ha Heq. exfalso. apply (Hfree l a Ha). rewrite Heq. constructor.
    - intros r'. by rewrite Hp, lookup_empty. }
  destruct (activate_leasable t leaf lease Hok Hl) as (t2 & Ea2 & Hok2 & _ & Hls & Hp2 & _).
  rewrite Ea in Ea2. injection Ea2 as <- ->.
  destruct (IH t1) as [Hok3 Hsub]; try done; [congruence| |].
  - intros l a [Ha|Ha].
    + rewrite Hls in Ha. apply lookup_insert_Some in Ha as [[<- <-]|[_ Ha]]; [done|].
      intros Hin. apply (Hfree l a); [by left|]. by constructor.
    + unfold pending_leases in Ha. by rewrite Hp2, Hp, fmap_empty, lookup_empty in Ha.
  - split; [done|]. intros l Hl'. apply Hsub. rewrite Hls. destruct (decide (l = leaf)) as [-> |Hne].
    + by rewrite lookup_insert_eq.
    + by rewrite lookup_insert_ne.
Qed.

Lemma offset_leases_slots offset capacity leaves leases :
  offset_leases offset capacity leaves = Ok leases ->
  slot_index <$> leases.*2 = seqZ offset (len leaves).
Proof using.
  revert offset leases. induction leaves as [|leaf leaves IH]; cbn; intros offset leases H.
  { by injection H as <-. }
  inv_res H. inv_res H. inv_res H. injection H as <-. cbn. rewrite (IH _ _ E1).
  change (len (leaf :: leaves)) with (Z.of_nat (S (length leaves))). rewrite (seqZ_cons offset) by lia.
  unfold len. do 2 f_equal; lia.
Qed.

Section Genesis.
  Context {HS : Hashing} {WC : WireCodec} {WL : WireCodecLaws WC}.

Lemma genesis_leases_spec g hdr delta leases :
  slots_ok (slots g) -> derive_implicit_genesis_slot_leases g hdr delta = Ok leases ->
  leases = [] \/
  (leaf_slot_leases (slots g) = ∅ /\ pending_join_finalize_auth (slots g) = ∅ /\
   NoDup (slot_index <$> leases.*2) /\ Forall (fun p => 0 <= slot_index p.2) leases).
Proof using WL.
  intros Hok H. unfold derive_implicit_genesis_slot_leases in H.
  destruct (joined delta) as [|first rest] eqn:Ej; [left; by injection H as <-|].
  destruct (negb _); [left; by injection H as <-|].
  destruct (has_existing_group_state g) eqn:Ee; [left; by injection H as <-|]. right.
  unfold has_existing_group_state in Ee. bool_prop.
  destruct (parse_barrier_update _ _) as [x|] eqn:E; [rewrite bind_Ok in H|discriminate H]. split_and!; [done|done| |].
  - destruct x as [parsed|].
    + inv_res H. inv_res H. inv_res H. injection H as <-. apply NoDup_singleton.
    + rewrite (offset_leases_slots _ _ _ _ H). apply NoDup_seqZ.
  - destruct x as [parsed|].
    + inv_res H. inv_res H. inv_res H. injection H as <-. apply Forall_singleton. cbn.
      destruct (hdr !! HDR_BARRIER_UPDATE) as [[]|] eqn:Eh;
        try (unfold parse_barrier_update in E; rewrite Eh in E; done).
      apply (server_parser_spec _ (so_n_max _ Hok) hdr _ _ Eh) in E as (w & c & _ & Hwf & _ & ->).
      cbn. pose proof (wf_slot _ _ _ Hwf). lia.
    + apply Forall_forall. intros p Hp.
      assert (slot_index p.2 ∈ slot_index <$> leases.*2) as Hin by (by apply list_elem_of_fmap_2, list_elem_of_fmap_2).
      rewrite (offset_leases_slots _ _ _ _ H), elem_of_seqZ in Hin. lia.
Qed.

Lemma genesis_ok g hdr delta leases t :
  group_ok g -> derive_implicit_genesis_slot_leases g hdr delta = Ok leases ->
  activate_all (slots g) leases = Ok t ->
  group_ok (with_slots g t) /\ forall leaf, keeps leaf g (with_slots g t).
Proof using WL.
  intros [Hok Hdev Hsnap] Hd Ha. destruct (genesis_leases_spec _ _ _ _ Hok Hd) as [-> |(El & Ep & Hnd & Hpos)].
  { injection Ha as <-. split; [split; done|by intros leaf lease]. }
  assert (forall l a, ~ holds (slots g) l a) as Hno.
  { intros l a. unfold holds, pending_leases. rewrite El, Ep, fmap_empty, !lookup_empty. by intros [?|?]. }
  destruct (activate_all_ok (slots g) leases t) as [Hok' Hsub]; try done.
  { intros l a Hh. by destruct (Hno l a). }
  split; [split; cbn; auto|]. intros leaf lease Hh. by destruct (Hno leaf lease).
Qed.

End Genesis.

End Steps.

(** ** Capacity and fresh leaves *)

Section Capacity.
  Context {MH : MerkleHash}.

Definition alloc_step (t : SlotTable) (by_index : gmap Z bytes) (leaf : bytes) : result CityGError (gmap Z bytes) :=
  lease ← require_active_slot_lease t leaf;
  checked_insert_unique by_index (slot_index lease) leaf DUPLICATE_ACTIVE_COVER_LEAF_ALLOCATION_ERR.

(** The slots of the leaves walked so far, and of nobody else. *)
Definition allocated (t : SlotTable) (leaves : list bytes) (m : gmap Z bytes) : Prop :=
  forall s leaf, m !! s = Some leaf <->
    leaf ∈ leaves /\ exists lease, leaf_slot_leases t !! leaf = Some lease /\ slot_index lease = s.

Lemma alloc_step_ok t leaves m leaf :
  slots_ok t -> is_Some (leaf_slot_leases t !! leaf) -> allocated t leaves m ->
  exists m', alloc_step t m leaf = Ok m' /\ allocated t (leaf :: leaves) m'.
Proof using.
  intros Hok [lease Hl] Hm. unfold alloc_step, require_active_slot_lease. rewrite Hl. rstep. unfold checked_insert_unique.
  assert (forall l, m !! slot_index lease = Some l -> l = leaf) as Hu.
  { intros l (_ & a & Ha & Heq)%Hm. by apply (so_unique t Hok l leaf a lease); [left|left|]. }
  destruct (m !! slot_index lease) as [l|] eqn:E.
  - pose proof (Hu l eq_refl) as ->. rewrite bool_decide_eq_true_2 by done. exists m. split; [done|].
    intros s x. rewrite elem_of_cons, (Hm s x). split; [naive_solver|]. intros [[-> |Hx] Ha]; [|done]. split; [|done].
    by apply Hm in E as [? _].
  - eexists. split; [done|]. intros s x. rewrite elem_of_cons. split.
    + intros [[<- <-]|[_ [? ?]%Hm]]%lookup_insert_Some; eauto 6.
    + intros [[-> |Hx] (a & Ha & <-)].
      * rewrite Hl in Ha. injection Ha as <-. apply lookup_insert_eq.
      * destruct (decide (slot_index a = slot_index lease)) as [Heq|Hne].
        -- exfalso. rewrite <- Heq in E. apply (eq_None_not_Some (m !! slot_index a)); [done|]. exists x. apply Hm. eauto.
        -- rewrite lookup_insert_ne by done. apply Hm. eauto.
Qed.

Lemma active_allocations_ok g :
  slots_ok (slots g) -> (forall leaf, leaf ∈ latest_members g -> is_Some (leaf_slot_leases (slots g) !! leaf)) ->
  exists m, active_cover_leaf_allocations g = Ok m /\ allocated (slots g) (latest_members g) m.
Proof using.
  intros Hok Hall. unfold active_cover_leaf_allocations. fold (alloc_step (slots g)).
  assert (forall l leaves m, (forall leaf, leaf ∈ l -> is_Some (leaf_slot_leases (slots g) !! leaf)) ->
    allocated (slots g) leaves m -> exists m', fold_res (alloc_step (slots g)) m l = Ok m' /\ allocated (slots g) (reverse l ++ leaves) m') as Hgen.
  { intros l. induction l as [|leaf l IH]; intros leaves m Hl Hm; cbn [fold_res]; [eauto|].
    destruct (alloc_step_ok (slots g) leaves m leaf Hok) as (m1 & -> & Hm1); [apply Hl; constructor|done|]. rstep.
    destruct (IH (leaf :: leaves) m1) as (m2 & -> & Hm2); [intros; apply Hl; by constructor|done|].
    exists m2. split; [done|]. by rewrite reverse_cons, <- app_assoc. }
  destruct (Hgen (latest_members g) [] ∅ Hall) as (m & Hm & Ha).
  { intros s leaf. rewrite lookup_empty, elem_of_nil. naive_solver. }
  exists m. split; [done|]. intros s leaf. by rewrite (Ha s leaf), app_nil_r, elem_of_reverse.
Qed.

Lemma reserved_ok g :
  slots_ok (slots g) -> (forall leaf, is_Some (leaf_slot_leases (slots g) !! leaf) <-> leaf ∈ latest_members g) ->
  exists reserved, reserved_slot_indices g = Ok reserved /\
    forall s, s ∈ reserved <-> exists leaf lease, holds (slots g) leaf lease /\ slot_index lease = s.
Proof using.
  intros Hok Hmem. destruct (active_allocations_ok g Hok) as (m & Hm & Ha); [by intros; apply Hmem|].
  unfold reserved_slot_indices. rewrite Hm. rstep. eexists. split; [done|]. intros s.
  rewrite elem_of_union, elem_of_dom, lease_slots_elem. unfold holds. split.
  - intros [(leaf & (_ & lease & ? & ?)%Ha)|(leaf & lease & ? & ?)]; eauto.
  - intros (leaf & lease & [Hl|Hp] & <-); [left|right; eauto]. exists leaf. apply Ha.
    split; [apply Hmem; by eexists|eauto].
Qed.

(** The reserved slots are all the slots exactly when they are as many. *)
Lemma reserved_full t (reserved : gset Z) :
  slots_ok t -> (forall s, s ∈ reserved <-> exists leaf lease, holds t leaf lease /\ slot_index lease = s) ->
  n_max t <= Z.of_nat (size reserved) <-> forall s, 0 <= s < n_max t -> s ∈ reserved.
Proof using.
  intros Hok Hr. assert (reserved ⊆ slot_range (n_max t)) as Hsub.
  { intros s (leaf & lease & Hh & <-)%Hr. apply slot_range_elem, (generation_slot t _ Hok).
    rewrite (so_current t Hok leaf lease Hh). by eexists. }
  pose proof (n_max_u32 _ (so_n_max t Hok)) as Hn. pose proof (size_slot_range (n_max t)) as Hsz. split.
  - intros Hge s Hs. rewrite (set_subseteq_size_equiv reserved (slot_range (n_max t)) Hsub) by lia. by apply slot_range_elem.
  - intros Hall. rewrite <- Hsz by lia. apply Nat2Z.inj_le, subseteq_size. intros s Hs%slot_range_elem. by apply Hall.
Qed.

(** *** Fresh leaf identifiers *)

Lemma suffix_sequential i : 0 <= i <= U32_MAX -> leaf_suffix_u32 (sequential_leaf i) = i.
Proof using.
  intros Hi. unfold leaf_suffix_u32, sequential_leaf. rewrite drop_app_length' by (by rewrite length_replicate).
  rewrite take_ge by (by rewrite length_be_bytes). apply be_value_be_bytes. unfold U32_MAX in Hi. cbn. lia.
Qed.

Lemma max_suffix_ge (s : gset bytes) leaf : leaf ∈ s -> leaf_suffix_u32 leaf <= max_suffix s.
Proof using.
  unfold max_suffix. apply (set_fold_ind_L (fun m s => leaf ∈ s -> leaf_suffix_u32 leaf <= m)).
  - by intros ?%not_elem_of_empty.
  - intros x X m _ IH [->%elem_of_singleton|Hx]%elem_of_union; [lia|]. specialize (IH Hx). lia.
Qed.

Definition max_index (snaps : gmap bytes (gset bytes)) : Z := map_fold (fun _ s m => Z.max (max_suffix s) m) 0 snaps.

Lemma max_index_ge (snaps : gmap bytes (gset bytes)) root s : snaps !! root = Some s -> max_suffix s <= max_index snaps.
Proof using.
  unfold max_index. apply (map_fold_weak_ind (fun m snaps => snaps !! root = Some s -> max_suffix s <= m)).
  - by intros ?%lookup_empty_Some.
  - intros k x snaps' m Hk IH [[_ ->]|[_ Hs]]%lookup_insert_Some; [lia|]. specialize (IH Hs). lia.
Qed.

Lemma max_index_nonneg snaps : 0 <= max_index snaps.
Proof using. unfold max_index. apply (map_fold_weak_ind (fun m _ => 0 <= m)); [lia|]. intros. lia. Qed.

Lemma max_index_bound (snaps : gmap bytes (gset bytes)) b :
  0 <= b -> (forall root s leaf, snaps !! root = Some s -> leaf ∈ s -> leaf_suffix_u32 leaf <= b) -> max_index snaps <= b.
Proof using.
  intros Hb. unfold max_index.
  apply (map_fold_weak_ind (fun m snaps => (forall root s leaf, snaps !! root = Some s -> leaf ∈ s -> leaf_suffix_u32 leaf <= b) -> m <= b)).
  - done.
  - intros k x snaps' m Hk IH Hall.
    assert (max_suffix x <= b).
    { assert (forall leaf, leaf ∈ x -> leaf_suffix_u32 leaf <= b) as Hx by (intros; by eapply (Hall k); [apply lookup_insert_eq|]).
      revert Hx. unfold max_suffix. apply (set_fold_ind_L (fun m s => (forall leaf, leaf ∈ s -> leaf_suffix_u32 leaf <= b) -> m <= b)); [done|].
      intros y X m' _ IH' Hy. specialize (IH' ltac:(intros; apply Hy; set_solver)). specialize (Hy y ltac:(set_solver)). lia. }
    assert (m <= b); [|lia]. apply IH. intros root s leaf Hs Hl. eapply (Hall root); [|done].
    rewrite lookup_insert_ne; [done|]. intros ->. congruence.
Qed.

End Capacity.

(** ** Runs *)

(** [GroupState::default()] at a given [n_max]. *)
Definition new_group (n : Z) (b : BarrierState) : Group := {|
  slots := empty_slots n; barrier := b; latest_root := None; snapshots := ∅; next_index := 0;
  join_history := []; leaf_device_pk := ∅; leaf_barrier_public := ∅ |}.

Section Runs.
  Context {MH : MerkleHash} {HS : Hashing} {WC : WireCodec} {WL : WireCodecLaws WC}.

(** One operation of the server on the group, with the leaves it revokes. *)
Inductive roster_step : Group -> list bytes -> Group -> Prop :=
  | step_ticket g leaf refusal_percent token provisioned g' r :
      build_join_ticket g leaf refusal_percent token provisioned = (g', r) -> roster_step g [] g'
  | step_genesis g hdr delta leases t :
      derive_implicit_genesis_slot_leases g hdr delta = Ok leases -> activate_all (slots g) leases = Ok t ->
      roster_step g [] (with_slots g t)
  | step_membership g parent_root delta version device leaf_pk g' root :
      len parent_root = 32 -> commit_membership g parent_root delta version device leaf_pk = Ok (g', root) ->
      roster_step g (delta_revoked delta) g'
  | step_finalize g token device : roster_step g [] (finalize_join g token device)
  | step_barrier g b : roster_step g [] (with_barrier g b).

Inductive roster_run : Group -> list bytes -> Group -> Prop :=
  | run_nil g : roster_run g [] g
  | run_cons g g1 g2 r1 r2 : roster_step g r1 g1 -> roster_run g1 r2 g2 -> roster_run g (r1 ++ r2) g2.

Lemma roster_step_ok g r g' : group_ok g -> roster_step g r g' -> group_ok g'.
Proof using WL.
  intros Hok H. destruct H as [? ? ? ? ? ? ? Ht|? ? ? ? ? Hd Ha|? ? ? ? ? ? ? ? Hl Hc| |].
  - by destruct (build_join_ticket_ok _ _ _ _ _ _ _ Hok Ht) as (? & _ & _).
  - by destruct (genesis_ok _ _ _ _ _ Hok Hd Ha) as [? _].
  - by destruct (commit_membership_inv _ _ _ _ _ _ _ _ Hok Hl Hc) as (? & _ & _).
  - by apply finalize_join_ok.
  - by apply (group_ok_ext g).
Qed.

Lemma roster_run_ok g r g' : group_ok g -> roster_run g r g' -> group_ok g'.
Proof using WL. intros Hok H. induction H; eauto using roster_step_ok. Qed.

Lemma new_group_ok n b : validate_barrier_n_max n = Ok n -> group_ok (new_group n b).
Proof using.
  intros Hn. split; cbn.
  - by apply empty_slots_ok.
  - by intros leaf [d ?%lookup_empty_Some].
  - unfold snapshots_ok. cbn. by intros root s ?%lookup_empty_Some.
Qed.

Lemma roster_step_keeps g r g' leaf : group_ok g -> roster_step g r g' -> leaf ∉ r -> keeps leaf g g'.
Proof using WL.
  intros Hok H Hn. destruct H as [? ? ? ? ? ? ? Ht|? ? ? ? ? Hd Ha|? ? ? ? ? ? ? ? Hl Hc| |].
  - by destruct (build_join_ticket_ok _ _ _ _ _ _ _ Hok Ht) as (_ & Hk & _).
  - by destruct (genesis_ok _ _ _ _ _ Hok Hd Ha) as [_ Hk].
  - destruct (commit_membership_inv _ _ _ _ _ _ _ _ Hok Hl Hc) as (_ & _ & Hk). by apply Hk.
  - by apply finalize_join_keeps.
  - by intros lease.
Qed.

Lemma roster_run_keeps g r g' leaf : group_ok g -> roster_run g r g' -> leaf ∉ r -> keeps leaf g g'.
Proof using WL.
  intros Hok H. induction H as [|g g1 g2 r1 r2 Hs Hr IH]; intros Hn; [apply keeps_refl|].
  rewrite not_elem_of_app in Hn. destruct Hn as [Hn1 Hn2].
  eapply keeps_trans; [by eapply roster_step_keeps|]. apply IH; [by eapply roster_step_ok|done].
Qed.

(** ** Properties *)

(** C11: Whatever tickets, joins, revocations and finalisations the server
    processes, in any order: no two leaves ever hold the same slot, every lease
    held carries the current generation of its slot, every lease of a revoked
    leaf an older one, and every recorded member set has the root it is
    recorded under. *)
Theorem roster_invariant n b revoked_leaves g :
  validate_barrier_n_max n = Ok n -> roster_run (new_group n b) revoked_leaves g ->
  slots_ok (slots g) /\
  (forall leaf, is_Some (leaf_device_pk g !! leaf) -> is_Some (leaf_slot_leases (slots g) !! leaf)) /\
  (forall root s, snapshots g !! root = Some s -> canonical_set_root (members s) = Ok root).
Proof using WL. intros Hn Hrun. destruct (roster_run_ok _ _ _ (new_group_ok n b Hn) Hrun); done. Qed.


(** A membership change on a known base goes through exactly when it revokes
    members and joins non-members; the new set is the base without the revoked
    and with the joined leaves, it is recorded under its own root, and the sets
    recorded under other roots stay as they were. *)
Theorem apply_delta_correct g base_root base delta :
  membership_base g base_root = Ok base ->
  (is_ok (apply_delta g base_root delta) = true <->
     Forall (fun leaf => leaf ∈ base) (delta_revoked delta) /\ Forall (fun leaf => leaf ∉ base) (joined delta)) /\
  (forall g' root, apply_delta g base_root delta = Ok (g', root) ->
     let next := (base ∖ list_to_set (delta_revoked delta)) ∪ list_to_set (joined delta) in
     latest_root g' = Some root /\ latest_snapshot g' = Some next /\ canonical_set_root (members next) = Ok root /\
     (snapshots_ok g -> forall r s, snapshots g !! r = Some s ->
        snapshots g' !! r = Some s \/ (r = root /\ size s <> size next) \/
        node_collision (root_nodes (members s) ++ root_nodes (members next)))).
Proof using.
  intros Hb. split; [split|].
  - destruct (apply_delta g base_root delta) as [[g' root]|] eqn:E; [|done]. intros _.
    apply apply_delta_inv in E as (base' & Hb' & Hr & Hj & _). rewrite Hb in Hb'. by injection Hb' as <-.
  - intros [Hr Hj]. destruct (canonical_set_root_total _ (members_sorted (membership_apply_delta base delta))) as [root Hroot].
    by rewrite (apply_delta_ok g base_root base delta root Hb Hr Hj Hroot).
  - intros g' root E. apply apply_delta_inv in E as (base' & Hb' & _ & _ & Hroot & ->).
    rewrite Hb in Hb'. injection Hb' as <-. destruct (changed_fields g base_root base delta root) as (_ & Hlr & _ & Hls).
    split_and!; [done|done|done|]. intros Hsnap r s Hrs. unfold changed.
    match goal with |- context [sync_next_index ?x] => destruct (sync_next_index_same x) as (_ & -> & _) end. cbn.
    destruct (decide (r = root)) as [-> |Hne].
    + destruct (decide (size s = size (membership_apply_delta base delta))) as [Hsz|?]; [|right; left; done].
      rewrite lookup_insert_eq. pose proof (Hsnap _ _ Hrs) as Hroot'.
      destruct (set_root_inj (members s) (members (membership_apply_delta base delta)) root) as [->%members_inj|?];
        [by rewrite !length_members|done|done|by left|by right; right].
    + left. rewrite lookup_insert_ne by done. destruct (snapshots g !! base_root) eqn:E; [done|].
      rewrite lookup_insert_ne; [done|]. intros ->. congruence.
Qed.

End Runs.

(** The capacity check of a ticket and the allocator agree: when the members
    of the latest set are the leaves with an active lease, a fresh reservation
    is let through, at a refusal threshold of 100 percent, exactly when the
    allocator has a slot for it. *)
Theorem capacity_matches_allocator {MH : MerkleHash} g leaf :
  group_ok g -> (forall l, is_Some (leaf_slot_leases (slots g) !! l) <-> l ∈ latest_members g) ->
  (forall a, ~ holds (slots g) leaf a) ->
  ensure_join_capacity_allows_fresh_reservation g 100 = Ok tt <->
  is_ok (allocate_slot_lease (slots g) leaf).2 = true.
Proof.
  intros Hok Hmem Hno. pose proof (go_slots g Hok) as Hs. destruct (reserved_ok g Hs Hmem) as (reserved & Hres & Hr).
  pose proof (reserved_full (slots g) reserved Hs Hr) as Hfull. pose proof (n_max_u32 _ (so_n_max _ Hs)) as Hn.
  unfold ensure_join_capacity_allows_fresh_reservation, barrier_leaf_capacity, barrier_n_max.
  rewrite (so_n_max _ Hs). cbn [map_err]. rstep. rewrite Hres. rstep. unfold is_exhausted.
  cbn [remaining_cover_leaf_slots Z.ltb Z.compare Pos.compare Pos.compare_cont andb].
  set (c := Z.of_nat (size reserved)) in *. assert (0 <= c) by lia.
  destruct (Z.eqb_spec (sat_sub (n_max (slots g)) (Z.min c (n_max (slots g)))) 0) as [He|He]; unfold sat_sub in He; cbn [fail_if].
  - split; [done|]. destruct (allocate_slot_lease (slots g) leaf) as [t' [lease|e]] eqn:Ea; [|done]. intros _. exfalso.
    destruct (allocate_ok _ _ _ _ Hs Ea) as (Hok' & Hl & _).
    destruct (allocate_same (slots g) leaf) as [Hls Hp]. destruct (allocate_more (slots g) leaf) as [Hn' _]. rewrite Ea in *. cbn in *.
    assert (0 <= slot_index lease < n_max (slots g)) as Hrange.
    { rewrite <- Hn'. apply (generation_slot t' _ Hok'). rewrite (la_current _ _ _ Hl). by eexists. }
    apply Hfull in Hrange; [|lia]. apply Hr in Hrange as (l & a & Hh & Heq). apply (Hno a).
    replace leaf with l; [done|]. apply (la_unique _ _ _ Hl l a); [|done].
    unfold holds, pending_leases in *. by rewrite Hls, Hp.
  - split; [intros _|done]. destruct (allocate_slot_lease (slots g) leaf) as [t' [lease|e]] eqn:Ea; [done|]. exfalso.
    destruct (allocate_err _ _ _ _ Hs Ea) as (_ & _ & Hall). assert (n_max (slots g) <= c); [|lia]. apply Hfull.
    intros s Hrange. apply Hr. destruct (Hall s Hrange) as (l & a & ? & ?). eauto.
Qed.

(** The leaf identifier chosen for a ticket without an explicit one is a
    member of no recorded set, as long as the largest index in use is below
    [u32::MAX]. *)
Theorem next_available_join_leaf_fresh g g' leaf :
  0 <= next_index g <= U32_MAX ->
  (forall root s l, snapshots g !! root = Some s -> l ∈ s -> leaf_suffix_u32 l < U32_MAX) ->
  next_available_join_leaf g = Ok (g', leaf) ->
  forall root s, snapshots g !! root = Some s -> leaf ∉ s.
Proof.
  intros Hi Hbound H root s Hs Hin. unfold next_available_join_leaf in H.
  destruct (barrier_leaf_capacity g) as [c|]; [rewrite bind_Ok in H|discriminate H].
  destruct (is_exhausted c); [discriminate H|]. rewrite fail_if_false, bind_Ok in H.
  assert (max_index (snapshots g) < U32_MAX) as Hlt.
  { assert (max_index (snapshots g) <= U32_MAX - 1); [|lia]. apply max_index_bound; [unfold U32_MAX; lia|].
    intros r s' l Hr Hl. specialize (Hbound r s' l Hr Hl). lia. }
  pose proof (max_index_nonneg (snapshots g)). pose proof (max_index_ge _ _ _ Hs) as Hm. pose proof (max_suffix_ge s leaf Hin) as Hl.
  assert (max_index (snapshots g) + 1 <= next_index (sync_next_index g) <= U32_MAX) as Hnext.
  { unfold sync_next_index. fold (max_index (snapshots g)). unfold sat_add32. case_if; cbn; bool_prop; lia. }
  unfold allocate_leaf in H. rewrite (proj2 (Z.eqb_neq _ _)) in H by lia.
  assert (leaf = sequential_leaf (next_index (sync_next_index g))) as -> by congruence.
  rewrite suffix_sequential in Hl by lia. lia.
Qed.

(** ** Witnesses *)

Definition no_commitment : HistoryCommitment := {|
  history_view_id := zero32; history_commitment_id := zero32; prev_history_commitment_id := zero32; history_seq := 0 |}.

Definition sample_barrier : BarrierState := {|
  barrier_initialized := false; barrier_version := 0; barrier_roots_hash := zero32; kem_tree_hash_after := zero32;
  max_barrier_update_bytes := 1048576; barrier_pk_entries := []; barrier_hash_cache := None;
  current_history_commitment := no_commitment; room_admin_pop_keys := ∅ |}.

Definition sample_group : Group := new_group 2 sample_barrier.

Definition sample_ticket : Group * result CityGError (bytes * SlotLease) :=
  build_join_ticket sample_group (Some leaf_a) 100 leaf_c (fun _ _ _ => Ok tt).

Lemma sample_ticket_run : @roster_run toy_merkle toy_hashing toy_codec sample_group [] sample_ticket.1.
Proof.
  apply (run_cons sample_group sample_ticket.1 sample_ticket.1 [] []); [|constructor].
  apply (step_ticket _ (Some leaf_a) 100 leaf_c (fun _ _ _ => Ok tt) _ sample_ticket.2). by destruct sample_ticket eqn:E.
Qed.

Lemma roster_invariant_witness : slots_ok (slots sample_ticket.1).
Proof.
  by destruct (@roster_invariant toy_merkle toy_hashing toy_codec _ 2 sample_barrier [] sample_ticket.1 eq_refl sample_ticket_run)
    as [H _].
Defined.


Lemma apply_delta_correct_witness :
  is_ok (@apply_delta toy_merkle sample_group zero32 {| joined := [leaf_a]; delta_revoked := [] |}) = true.
Proof.
  apply (@apply_delta_correct toy_merkle sample_group zero32 ∅ {| joined := [leaf_a]; delta_revoked := [] |}).
  - reflexivity.
  - split; [constructor|]. apply Forall_singleton. apply not_elem_of_empty.
Defined.

Lemma capacity_matches_allocator_witness :
  is_ok (allocate_slot_lease (slots sample_group) leaf_a).2 = true.
Proof.
  apply (@capacity_matches_allocator toy_merkle sample_group leaf_a).
  - by apply new_group_ok.
  - intros l. cbn. rewrite lookup_empty, elem_of_nil. split; [by intros []|done].
  - intros a. unfold holds, pending_leases. cbn. rewrite fmap_empty, !lookup_empty. by intros [?|?].
  - vm_compute. reflexivity.
Defined.

(** A recorded set with the leaf of index 5. *)
Definition numbered_group : Group :=
  with_snapshots sample_group None {[ zero32 := {[ sequential_leaf 5 ]} ]}.

Lemma next_available_join_leaf_fresh_witness :
  exists g' leaf, next_available_join_leaf numbered_group = Ok (g', leaf) /\ leaf ∉ ({[ sequential_leaf 5 ]} : gset bytes).
Proof.
  assert (exists g' leaf, next_available_join_leaf numbered_group = Ok (g', leaf)) as (g' & leaf & H).
  { destruct (next_available_join_leaf numbered_group) as [[g' leaf]|e] eqn:E; [by exists g', leaf|].
    exfalso. assert (is_ok (next_available_join_leaf numbered_group) = true) as Hok by (vm_compute; reflexivity).
    by rewrite E in Hok. }
  exists g', leaf. split; [exact H|].
  apply (next_available_join_leaf_fresh numbered_group g' leaf) with (root := zero32); [cbn; unfold U32_MAX; lia| |exact H|].
  - cbn [snapshots numbered_group with_snapshots]. intros root s l [<- <-]%lookup_singleton_Some ->%elem_of_singleton.
    rewrite suffix_sequential by (unfold U32_MAX; lia). unfold U32_MAX. lia.
  - apply lookup_singleton_eq.
Defined.
