(* ===== verification/ServerUpdate.v ===== *)
(** * The server's validation of a barrier update

    [validate_barrier_update_against_roster] of [cityg-server/src/lib.rs] and
    what it calls: the header fields, the pre-update tree the server expects,
    the author of the update, the reason it gives, the hash chain, the
    (source, target) pairs and the incremental rehash with its cache.

    The checks are in the order of the code.  [BarrierHistoryCommitmentHeaderWire]
    is decoded by [decode_history_commitment], a parameter like the other
    decoders. *)

From S2P Require Import Prelude Hash Errors Header Heap BarrierTree Merkle ServerTree BarrierWire BarrierCrypto BarrierBuild Slots Roster.

Class HistoryCodec := {
  (** [ciborium::de::from_reader] at [BarrierHistoryCommitmentHeaderWire] *)
  decode_history_commitment : bytes -> option HistoryCommitment;
}.

Definition history_commitment_value (h : HistoryCommitment) : Value :=
  VArray [VBytes (history_view_id h); VBytes (history_commitment_id h);
          VBytes (prev_history_commitment_id h); VInteger (history_seq h)].

Definition malformed {A} : result CityGError A := Err (InvalidInput "barrier_update malformed").
Definition malformed_if (b : bool) : result CityGError unit := fail_if b (InvalidInput "barrier_update malformed").
Definition freeze_if (b : bool) (e : FreezeError) : result CityGError unit := fail_if b (Acceptance (AFreeze e)).

(** ** Header fields *)

Definition value_as_bytes (v : Value) : option bytes := match v with VBytes b => Some b | _ => None end.

(** [header.get(&key).and_then(Value::as_bytes)] *)
Definition header_as_bytes (hdr : header) (key : Z) : option bytes := v ← hdr !! key; value_as_bytes v.

Definition header_required_bytes (hdr : header) (key : Z) (label : string) : result CityGError bytes :=
  match hdr !! key with
  | Some (VBytes b) => Ok b
  | Some _ => Err (InvalidInput "pivot field wrong type")
  | None => Err (InvalidInput label)
  end.

Definition header_optional_bytes (hdr : header) (key : Z) : result CityGError (option bytes) :=
  match hdr !! key with
  | Some (VBytes b) => Ok (Some b)
  | Some VNull | None => Ok None
  | Some _ => Err (InvalidInput "pivot field wrong type")
  end.

Definition header_bytes32_from_slice (b : bytes) : result CityGError bytes :=
  if len b =? 32 then Ok b else Err (InvalidInput "pivot field wrong length").

Definition header_bytes32 (hdr : header) (key : Z) (label : string) : result CityGError bytes :=
  b ← header_required_bytes hdr key label; header_bytes32_from_slice b.

(** [.map(f).transpose()] *)
Definition transpose {A B} (f : A -> result CityGError B) (o : option A) : result CityGError (option B) :=
  match o with Some a => b ← f a; Ok (Some b) | None => Ok None end.

Definition parse_join_finalize_auth_token (hdr : header) : result CityGError (option bytes) :=
  o ← header_optional_bytes hdr HDR_JOIN_FINALIZE_AUTH; transpose header_bytes32_from_slice o.

Definition parse_barrier_update_reason (hdr : header) : result CityGError (option Z) :=
  match hdr !! HDR_BARRIER_UPDATE with
  | None => malformed_if (bool_decide (is_Some (hdr !! HDR_BARRIER_UPDATE_REASON))) ;; Ok None
  | Some _ =>
      match hdr !! HDR_BARRIER_UPDATE_REASON with
      | Some (VInteger reason) =>
          malformed_if (negb (is_u64b reason)) ;; malformed_if (2 <? reason) ;; Ok (Some reason)
      | _ => malformed
      end
  end.

Section Validation.
  Context {HS : Hashing} {WC : WireCodec} {HC : HistoryCodec}.

Definition parse_barrier_history_commitment (hdr : header) : result CityGError (option HistoryCommitment) :=
  o ← header_optional_bytes hdr HDR_BARRIER_HISTORY_COMMITMENT;
  w ← transpose (parse_deterministic_cbor update_malformed decode_history_commitment history_commitment_value) o;
  transpose (fun h : HistoryCommitment =>
    view ← to_array update_malformed 32 (history_view_id h);
    id ← to_array update_malformed 32 (history_commitment_id h);
    prev ← to_array update_malformed 32 (prev_history_commitment_id h);
    Ok {| history_view_id := view; history_commitment_id := id; prev_history_commitment_id := prev;
          history_seq := history_seq h |}) w.

Definition check_history_commitment (expected : HistoryCommitment) (supplied : option HistoryCommitment)
    : result CityGError unit :=
  if negb (bytes_eqb (history_view_id expected) zero32) && negb (bytes_eqb (history_commitment_id expected) zero32) then
    supplied ← ok_or supplied (InvalidInput "barrier_update malformed");
    freeze_if (negb (bool_decide (supplied = expected))) FREEZE_BARRIER_TREE_SNAPSHOT_AUTH_FAILURE
  else Ok tt.

(** ** The pre-update tree *)

Definition build_blank_pk_entries (n : Z) : result CityGError snapshot :=
  length ← ok_or (v ← checked_mul n 2; checked_sub v 1) (InvalidInput "barrier tree size overflow");
  Ok (replicate (Z.to_nat length) []).

Definition build_fallback_pk_entries (g : Group) : result CityGError snapshot :=
  ensure_distinct_active_slot_indices g ;;
  n ← barrier_n_max (n_max (slots g));
  let expected_len := sat_sub (sat_mul n 2) 1 in
  let leaf_base := sat_sub n 1 in
  fold_res (fun entries leaf =>
    lease ← require_active_slot_lease (slots g) leaf;
    if n <=? slot_index lease then Ok entries
    else match leaf_barrier_public g !! leaf with
         | Some ek_leaf => Ok (vset entries (leaf_base + slot_index lease) ek_leaf)
         | None => Ok entries
         end) (replicate (Z.to_nat expected_len) []) (latest_members g).

Definition build_pk_entries_cow (g : Group) : result CityGError snapshot :=
  ensure_distinct_active_slot_indices g ;;
  n ← barrier_n_max (n_max (slots g));
  if len (barrier_pk_entries (barrier g)) =? sat_sub (sat_mul n 2) 1
  then Ok (barrier_pk_entries (barrier g)) else build_fallback_pk_entries g.

(** The leaf keys that join the tree: those of all members for a first update,
    else of the members that joined after the update's predecessor, and of the
    leaves the bundle joins. *)
Definition join_set (g : Group) (hdr : header) (delta : MembershipDelta) (prev_barrier_version : Z)
    : result CityGError (gmap Z bytes) :=
  let insert m slot ek := checked_insert_unique m slot ek DUPLICATE_ACTIVE_COVER_LEAF_ALLOCATION_ERR in
  by_leaf ←
    (if (prev_barrier_version =? 0) && (barrier_version (barrier g) =? 0) then
       snapshot ← ok_or (latest_snapshot g) (Acceptance (AFreeze FREEZE_BARRIER_GENESIS_REQUIRED));
       fold_res (fun m leaf =>
         lease ← require_active_slot_lease (slots g) leaf;
         insert m (slot_index lease) (default [] (leaf_barrier_public g !! leaf))) ∅ (members snapshot)
     else
       let active := default ∅ (latest_snapshot g) in
       fold_res (fun m record =>
         if (prev_barrier_version <? jlh_barrier_version record) && bool_decide (jlh_leaf_id record ∈ active)
         then insert m (jlh_slot_index record) (jlh_ek_leaf record) else Ok m) ∅ (join_history g));
  let join_ek := default [] (header_as_bytes hdr HDR_BARRIER_LEAF_PK) in
  fold_res (fun m leaf =>
    lease ← require_pending_or_active_slot_lease (slots g) leaf;
    insert m (slot_index lease) join_ek) by_leaf (joined delta).

(** The revoked slots: the committed ones and those the bundle revokes. *)
Definition revoked_set (g : Group) (delta : MembershipDelta) : result CityGError (gset Z) :=
  fold_res (fun s leaf =>
    lease ← require_active_slot_lease (slots g) leaf; Ok ({[slot_index lease]} ∪ s))
    (committed_revoked_slot_indices (slots g)) (delta_revoked delta).

Definition slot_le (a b : Z * bytes) : Prop := a.1 <= b.1.

#[global] Instance slot_le_dec : RelDecision slot_le.
Proof. intros a b. unfold slot_le. apply _. Defined.

(** [if let Some(slot) = entries.get_mut(leaf_node) { *slot = ek }], then the
    internal nodes of the path are blanked. *)
Definition place_joins (leaf_base : Z) (entries : snapshot) (by_leaf : gmap Z bytes) : snapshot :=
  foldl (fun entries p => clear_barrier_path (vset entries (sat_add leaf_base p.1) p.2) (sat_add leaf_base p.1) false)
    entries (merge_sort slot_le (map_to_list by_leaf)).

Definition blank_revoked (leaf_base : Z) (entries : snapshot) (revoked : gset Z) : snapshot :=
  foldl (fun entries slot => clear_barrier_path entries (sat_add leaf_base slot) true)
    entries (merge_sort Z.le (elements revoked)).

Definition can_borrow_snapshot_base (g : Group) (by_leaf : gmap Z bytes) (revoked : gset Z) : bool :=
  barrier_initialized (barrier g)
  && (len (barrier_pk_entries (barrier g)) =? 2 * Z.max (n_max (slots g)) 1 - 1)
  && bool_decide (by_leaf = ∅) && bool_decide (revoked = ∅).

(** The tree an update is built on: the stored entries as they are, or a copy
    with the joined leaves placed and the revoked paths blanked. *)
Definition snapshot_base (g : Group) (by_leaf : gmap Z bytes) (revoked : gset Z) : result CityGError snapshot :=
  let tree_n_max := Z.max (n_max (slots g)) 1 in
  let leaf_base := sat_sub tree_n_max 1 in
  if can_borrow_snapshot_base g by_leaf revoked then Ok (barrier_pk_entries (barrier g))
  else
    base ← if barrier_initialized (barrier g) then build_pk_entries_cow g else build_blank_pk_entries tree_n_max;
    Ok (blank_revoked leaf_base (place_joins leaf_base base by_leaf) revoked).

(** ** The author and the reason *)

(** The leaves of the author's device key, in increasing order. *)
Definition author_leaves (g : Group) (pop_pk : bytes) : list bytes :=
  members (dom (filter (fun p => p.2 = pop_pk) (leaf_device_pk g))).

Definition targeted_admin_revocation (g : Group) (hdr : header) (delta : MembershipDelta) (reason : Z)
    (pop_pk : bytes) (author_leaf_ids : list bytes) (updater_slot_index : Z) : bool :=
  (reason =? 0)
  && existsb (fun leaf =>
       negb (bytes_eqb leaf (default zero32 (head author_leaf_ids)))
       && match leaf_slot_leases (slots g) !! leaf with
          | Some lease => slot_index lease =? updater_slot_index
          | None => false
          end) (delta_revoked delta)
  && bool_decide (is_Some (hdr !! HDR_BARRIER_FULL_VERIFICATION_WITNESS))
  && bool_decide (pop_pk ∈ room_admin_pop_keys (barrier g)).

(** The one leaf of the author, which owns the updated slot, and the token of
    a finalised join. *)
Definition check_author (g : Group) (hdr : header) (delta : MembershipDelta) (reason updater_slot_index : Z)
    : result CityGError (bytes * option bytes) :=
  pop_pk ← ok_or (header_as_bytes hdr HDR_POP_PK) (Acceptance (AFreeze FREEZE_BARRIER_UPDATER_INVALID));
  let leaves := author_leaves g pop_pk in
  leases ← map_res (require_active_slot_lease (slots g)) leaves;
  let indices : gset Z := list_to_set (slot_index <$> leases) in
  token ← parse_join_finalize_auth_token hdr;
  let candidate_reclaim_join := (reason =? 0) && bool_decide (is_Some token) in
  freeze_if (negb (Z.of_nat (size indices) =? 1)
    || (negb (bool_decide (updater_slot_index ∈ indices))
        && negb (targeted_admin_revocation g hdr delta reason pop_pk leaves updater_slot_index))
    || negb (len leaves =? 1)
    || (has_committed_revoked_slot_index (slots g) updater_slot_index && negb candidate_reclaim_join))
    FREEZE_BARRIER_UPDATER_INVALID ;;
  author ← ok_or (head leaves) (InvalidInput "barrier_update malformed");
  Ok (author, token).

(** The reason against the state of the revocations and of the author. *)
Definition check_reason (b : BarrierState) (parsed : ServerParsedBarrierUpdate) (reason : Z) (unresolved_joiner : bool)
    : result CityGError unit :=
  let revocation_changed := barrier_initialized b && negb (bytes_eqb (spu_revocation_roots_hash parsed) (barrier_roots_hash b)) in
  if revocation_changed then
    freeze_if ((reason =? 1) || (reason =? 2))
      FREEZE_BARRIER_NON_REVOCATION_REASON_FORBIDDEN_WHILE_PENDING_REVOCATIONS
  else if barrier_initialized b then
    freeze_if (((reason =? 2) && negb unresolved_joiner) || ((reason =? 1) && unresolved_joiner))
      FREEZE_BARRIER_PROACTIVE_FORBIDDEN
  else Ok tt.

Definition check_finalize_token (g : Group) (parsed : ServerParsedBarrierUpdate) (reason : Z) (token : option bytes)
    (author : bytes) (unresolved_joiner reclaims : bool) : result CityGError unit :=
  let b := barrier g in
  let revocation_changed := barrier_initialized b && negb (bytes_eqb (spu_revocation_roots_hash parsed) (barrier_roots_hash b)) in
  let invalid := Acceptance (AFreeze FREEZE_BARRIER_UPDATER_INVALID) in
  let check_record (supplied : bytes) (extra : bool) :=
    record ← ok_or (pending_join_finalize_auth (slots g) !! author) invalid;
    fail_if (extra || negb (bytes_eqb (jfa_token record) supplied)
             || negb (slot_index (jfa_lease record) =? spu_updater_slot_index parsed)) invalid in
  if reason =? 2 then
    supplied ← ok_or token invalid;
    check_record supplied false
  else match token with
       | Some supplied =>
           if reason =? 0
           then check_record supplied (negb unresolved_joiner || negb revocation_changed || negb reclaims)
           else malformed
       | None => Ok tt
       end.

(** ** Pairs and targets *)

Definition check_target_hash (entries : snapshot) (node : ServerParsedNodeCiphertext) : result CityGError unit :=
  target_pk ← ok_or (vget entries (spn_target_node node)) (InvalidInput "barrier_update malformed");
  target_pkhash ← compute_barrier_pkhash target_pk;
  freeze_if (negb (bytes_eqb (spn_target_pk_hash node) (take 16 target_pkhash))) FREEZE_BARRIER_EXPECTEDPAIRS_FAILURE.

Definition verify_barrier_update_pairs_and_targets (entries : snapshot) (parsed : ServerParsedBarrierUpdate) (n : Z)
    : result CityGError unit :=
  expected ← collect_expected_pairs entries (spu_path_nodes parsed) n;
  let actual := (fun node => (spn_source_node node, spn_target_node node)) <$> spu_node_ciphertexts parsed in
  freeze_if (negb (bool_decide (actual = expected))) FREEZE_BARRIER_EXPECTEDPAIRS_FAILURE ;;
  fold_res (fun _ node => check_target_hash entries node) tt (spu_node_ciphertexts parsed).

(** ** The post-update tree and its hash *)

Definition install_keys (entries : snapshot) (keys : list (Z * bytes)) : result CityGError snapshot :=
  fold_res (fun entries kv =>
    malformed_if (bool_decide (vget entries kv.1 = None)) ;; Ok (vset entries kv.1 kv.2)) entries keys.

Record BarrierUpdateValidationOutcome := {
  vo_parsed : ServerParsedBarrierUpdate;
  vo_snapshot_pre : snapshot;
  vo_snapshot_post : snapshot;
  vo_hash_cache_post : option BarrierHashCache;
}.

(** The hash of the pre-update tree and the cache it leaves. *)
Definition hash_before (b : BarrierState) (n : Z) (borrowed : bool) (pre : snapshot)
    : result CityGError (bytes * BarrierHashCache) :=
  if borrowed then Ok (kem_tree_hash_after b, ∅)
  else compute_barrier_subtree_hash_cached TREE_FUEL 0 n n pre None ∅.

(** The hash of the post-update tree and the cache of the next state. *)
Definition hash_after (b : BarrierState) (n : Z) (borrowed : bool) (before : bytes) (before_cache : BarrierHashCache)
    (keys : list (Z * bytes)) (post : snapshot) : result CityGError (bytes * option BarrierHashCache) :=
  if bool_decide (keys = []) then Ok (before, barrier_hash_cache b)
  else
    r ← compute_barrier_tree_hash_with_changes n post (list_to_set keys.*1)
          (if borrowed then barrier_hash_cache b else None) before_cache;
    let '(root, before_cache, after_cache) := r in
    let merged := after_cache ∪ (before_cache ∪ default ∅ (barrier_hash_cache b)) in
    Ok (root, if Z.of_nat (size merged) =? 2 * n - 1 then Some merged else None).

(** The checks on the tree: the hash chain, the roots, the pairs and the
    targets. *)
Definition validate_tree (g : Group) (hdr : header) (parsed : ServerParsedBarrierUpdate) (borrowed : bool) (pre : snapshot)
    : result CityGError BarrierUpdateValidationOutcome :=
  let n := Z.max (n_max (slots g)) 1 in
  '(before, before_cache) ← hash_before (barrier g) n borrowed pre;
  freeze_if (negb (bytes_eqb before (spu_kem_tree_hash_before parsed))) FREEZE_BARRIER_TREE_HASH_CHAIN_FAILURE ;;
  since ← header_bytes32 hdr HDR_REVOKED_SINCE_ROOT "barrier_update malformed";
  root ← header_bytes32 hdr HDR_REVOKED_ROOT "barrier_update malformed";
  roots_hash ← compute_revocation_roots_hash since root;
  malformed_if (negb (bytes_eqb (spu_revocation_roots_hash parsed) roots_hash)) ;;
  verify_barrier_update_pairs_and_targets pre parsed n ;;
  post ← install_keys pre (spu_new_public_keys parsed);
  '(after, cache) ← hash_after (barrier g) n borrowed before before_cache (spu_new_public_keys parsed) post;
  freeze_if (negb (bytes_eqb after (spu_kem_tree_hash_after parsed))) FREEZE_BARRIER_TREE_HASH_CHAIN_FAILURE ;;
  Ok {| vo_parsed := parsed; vo_snapshot_pre := pre; vo_snapshot_post := post; vo_hash_cache_post := cache |}.

(** ** The whole validation *)

Definition validate_update (g : Group) (hdr : header) (delta : MembershipDelta) (reason : Z)
    (parsed : ServerParsedBarrierUpdate) (supplied : option HistoryCommitment)
    : result CityGError BarrierUpdateValidationOutcome :=
  check_history_commitment (current_history_commitment (barrier g)) supplied ;;
  ensure_distinct_active_slot_indices g ;;
  ensure_join_slot_indices_available g (joined delta) ;;
  by_leaf ← join_set g hdr delta (spu_prev_barrier_version parsed);
  revoked ← revoked_set g delta;
  pre ← snapshot_base g by_leaf revoked;
  let slot := spu_updater_slot_index parsed in
  '(author, token) ← check_author g hdr delta reason slot;
  let reclaims := has_committed_revoked_slot_index (slots g) slot in
  let reclaimed := (reason =? 0) && bool_decide (is_Some token) && reclaims in
  let revoked := if reclaimed then revoked ∖ {[slot]} else revoked in
  pre ← if reclaimed then snapshot_base g by_leaf revoked else Ok pre;
  malformed_if (U32_MAX <? slot) ;;
  let unresolved_joiner := bool_decide (is_Some (by_leaf !! slot)) in
  check_reason (barrier g) parsed reason unresolved_joiner ;;
  check_finalize_token g parsed reason token author unresolved_joiner reclaims ;;
  validate_tree g hdr parsed (can_borrow_snapshot_base g by_leaf revoked) pre.

Definition map_barrier_update_validation_error (e : CityGError) : CityGError :=
  match e with
  | InvalidInput _ => Acceptance (AFreeze FREEZE_BARRIER_UPDATE_MALFORMED)
  | other => other
  end.

Definition validate_barrier_update_against_roster (g : Group) (hdr : header) (delta : MembershipDelta)
    : result CityGError (option BarrierUpdateValidationOutcome) :=
  map_err map_barrier_update_validation_error
    (freeze_if (match hdr !! HDR_BARRIER_UPDATE with
                | Some (VBytes raw) => max_barrier_update_bytes (barrier g) <? len raw
                | _ => false
                end) FREEZE_BARRIER_UPDATE_MALFORMED ;;
     reason ← parse_barrier_update_reason hdr;
     supplied ← parse_barrier_history_commitment hdr;
     match reason with
     | None =>
         malformed_if (bool_decide (is_Some (hdr !! HDR_BARRIER_HISTORY_COMMITMENT))) ;; Ok None
     | Some reason =>
         update ← parse_barrier_update hdr (n_max (slots g));
         match update with
         | None => Ok None
         | Some parsed =>
             outcome ← validate_update g hdr delta reason parsed supplied; Ok (Some outcome)
         end
     end).

(** ** Replayed finalisations and full verification *)

(** The token of a join finalised before a restart is not stored with the
    journal: replay puts it back for the author it was accepted from. *)
Definition rehydrate_replay_join_finalize_auth (g : Group) (hdr : header) : result CityGError Group :=
  reason ← parse_barrier_update_reason hdr;
  match reason with
  | Some reason =>
      if negb ((reason =? 0) || (reason =? 2)) then Ok g
      else
        token ← parse_join_finalize_auth_token hdr;
        match token with
        | None => Ok g
        | Some token =>
            update ← parse_barrier_update hdr (n_max (slots g));
            match update, header_as_bytes hdr HDR_POP_PK with
            | Some parsed, Some pop_pk =>
                match author_leaves g pop_pk with
                | [author] =>
                    lease ← require_active_slot_lease (slots g) author;
                    if negb (slot_index lease =? spu_updater_slot_index parsed) then Ok g
                    else if (reason =? 0) && negb (has_committed_revoked_slot_index (slots g) (slot_index lease)) then Ok g
                    else if negb (slot_generation lease =? spu_updater_slot_generation parsed) then Ok g
                    else
                      match pending_join_finalize_auth (slots g) !! author with
                      | Some _ => Ok g
                      | None => Ok (with_slots g (with_pending (slots g)
                                  (<[author := ticket author lease token]> (pending_join_finalize_auth (slots g)))))
                      end
                | _ => Ok g
                end
            | _, _ => Ok g
            end
        end
  | None => Ok g
  end.

Definition updater_invalid : CityGError := Acceptance (AFreeze FREEZE_BARRIER_UPDATER_INVALID).

(** The server's own rerun of what a full-verification receipt claims. *)
Definition validate_full_verification_witness_candidate (g : Group) (commitment : HistoryCommitment) (author : bytes)
    (reason updater_slot_index updater_slot_generation : Z) (barrier_update : bytes) (joins_prev_barrier_version : Z)
    (join_records : list BarrierJoinOccupancyRecord) (revocation_roots_hash : bytes)
    (revoked_records : list BarrierRevokedOccupancyRecord) : result CityGError unit :=
  let b := barrier g in
  let n := n_max (slots g) in
  malformed_if (negb (reason =? 0) && negb (reason =? 1)) ;;
  fail_if (negb (bool_decide (current_history_commitment b = commitment)))
    (InvalidInput "history commitment mismatch for full verification witness") ;;
  fail_if (negb (joins_prev_barrier_version =? barrier_version b))
    (InvalidInput "joins_prev_barrier_version mismatch for full verification witness") ;;
  fail_if (bool_decide (author ∈ revoked (slots g)) || bool_decide (leaf_device_pk g !! author = None)) updater_invalid ;;
  lease ← map_err (fun _ => updater_invalid) (require_pending_or_active_slot_lease (slots g) author);
  fail_if (negb (updater_slot_index =? slot_index lease) || negb (updater_slot_generation =? slot_generation lease))
    updater_invalid ;;
  update ← parse_barrier_update
    {[ HDR_BARRIER_UPDATE := VBytes barrier_update; HDR_BARRIER_UPDATE_REASON := VInteger reason ]} n;
  parsed ← ok_or update (InvalidInput "barrier_update malformed");
  fail_if (negb (spu_prev_barrier_version parsed =? barrier_version b)
           || negb (spu_updater_slot_index parsed =? updater_slot_index)
           || negb (spu_updater_slot_generation parsed =? updater_slot_generation)
           || negb (bytes_eqb (spu_revocation_roots_hash parsed) revocation_roots_hash)) updater_invalid ;;
  let revocation_changed := negb (bytes_eqb revocation_roots_hash (barrier_roots_hash b)) in
  fail_if ((revocation_changed && negb (reason =? 0)) || (negb revocation_changed && negb (reason =? 1))) updater_invalid ;;
  base ← build_pk_entries_cow g;
  joined ← apply_join_records_to_snapshot base n join_records;
  pre ← apply_revoked_records_to_snapshot joined n revoked_records;
  before ← compute_barrier_tree_hash n pre;
  freeze_if (negb (bytes_eqb before (spu_kem_tree_hash_before parsed))) FREEZE_BARRIER_TREE_HASH_CHAIN_FAILURE ;;
  verify_barrier_update_pairs_and_targets pre parsed n ;;
  post ← install_keys pre (spu_new_public_keys parsed);
  after ← compute_barrier_tree_hash n post;
  freeze_if (negb (bytes_eqb after (spu_kem_tree_hash_after parsed))) FREEZE_BARRIER_TREE_HASH_CHAIN_FAILURE.

(** ** The next state

    What [apply_bundle_to_state] does with the outcome: the predecessor hash
    is computed once more, then the tree, its hash, its size and the cache are
    those of the update. *)
Definition adopt_update (g : Group) (o : BarrierUpdateValidationOutcome) : result CityGError Group :=
  let parsed := vo_parsed o in
  predecessor ← compute_barrier_tree_hash (Z.max (spu_tree_size parsed) 1) (vo_snapshot_pre o);
  fail_if (negb (bytes_eqb predecessor (spu_kem_tree_hash_before parsed)))
    (InvalidInput "current barrier predecessor snapshot mismatch") ;;
  let b := barrier g in
  let t := slots g in
  Ok (with_barrier (with_slots g {| n_max := Z.max (spu_tree_size parsed) 1; free_slots := free_slots t;
          slot_generations := slot_generations t; leaf_slot_leases := leaf_slot_leases t;
          revoked_slot_leases := revoked_slot_leases t;
          pending_join_finalize_auth := pending_join_finalize_auth t; revoked := revoked t |})
        {| barrier_initialized := barrier_initialized b; barrier_version := barrier_version b;
           barrier_roots_hash := barrier_roots_hash b; kem_tree_hash_after := spu_kem_tree_hash_after parsed;
           max_barrier_update_bytes := max_barrier_update_bytes b; barrier_pk_entries := vo_snapshot_post o;
           barrier_hash_cache := vo_hash_cache_post o;
           current_history_commitment := current_history_commitment b; room_admin_pop_keys := room_admin_pop_keys b |}).

End Validation.

(** ** The tree lemmas *)

Section Trees.
  Context {HS : Hashing} (n : Z) (Hv : validate_barrier_n_max n = Ok n).

Lemma len_clear_barrier_path entries leaf incl : len (clear_barrier_path entries leaf incl) = len entries.
Proof using. unfold clear_barrier_path. apply len_blanked. Qed.

Lemma len_place_joins base entries m : len (place_joins base entries m) = len entries.
Proof using.
  unfold place_joins. generalize (merge_sort slot_le (map_to_list m)) as l. intros l. revert entries.
  induction l as [|p l IH]; intros entries; cbn [foldl]; [done|]. by rewrite IH, len_clear_barrier_path, len_vset.
Qed.

Lemma len_blank_revoked base entries s : len (blank_revoked base entries s) = len entries.
Proof using.
  unfold blank_revoked. generalize (merge_sort Z.le (elements s)) as l. intros l. revert entries.
  induction l as [|p l IH]; intros entries; cbn [foldl]; [done|]. by rewrite IH, len_clear_barrier_path.
Qed.

(** The whole path of a revoked slot is blank. *)
Lemma blank_revoked_blanks entries (s : gset Z) slot i :
  tree_wf n entries -> slot ∈ s -> in_range n slot -> i ∈ path_of (leaf_node n slot) ->
  vget (blank_revoked (n - 1) entries s) i = (fun _ => []) <$> vget entries i.
Proof using.
  intros Hwf Hs Hr Hi. destruct (n_max_bounds n (proj1 Hwf)) as (_ & _ & ?). unfold blank_revoked.
  assert (slot ∈ merge_sort Z.le (elements s)) as Hin by (by rewrite merge_sort_Permutation, elem_of_elements).
  revert Hin. generalize (merge_sort Z.le (elements s)) as l. clear s Hs. intros l. revert entries Hwf.
  assert (forall l entries, vget entries i = Some [] \/ vget entries i = None ->
    vget (foldl (fun entries slot => clear_barrier_path entries (sat_add (n - 1) slot) true) entries l) i
    = vget entries i) as Hstay.
  { clear. intros l. induction l as [|x l IH]; intros entries He; cbn [foldl]; [done|].
    assert (vget (clear_barrier_path entries (sat_add (n - 1) x) true) i = vget entries i) as Hx.
    { unfold clear_barrier_path. fold (blanked entries (direct_path_nodes (sat_add (n - 1) x))). rewrite vget_blanked.
      case_if; [|done]. by destruct He as [-> | ->]. }
    rewrite IH; [done|]. by rewrite Hx. }
  induction l as [|x l IH]; intros entries Hwf Hin; [by apply elem_of_nil in Hin|]. cbn [foldl].
  apply elem_of_cons in Hin as [<- |Hin].
  - assert (sat_add (n - 1) slot = leaf_node n slot) as ->.
    { unfold sat_add, leaf_node, in_range, U64_MAX in *. lia. }
    assert (vget (clear_barrier_path entries (leaf_node n slot) true) i = (fun _ => []) <$> vget entries i) as Hx.
    { rewrite (clear_barrier_path_eq n) by done. rewrite vget_blanked, bool_decide_eq_true_2 by done. done. }
    rewrite Hstay; [done|]. rewrite Hx. destruct (vget entries i); [by left|by right].
  - rewrite IH; [|by split; [apply Hwf|rewrite len_clear_barrier_path; apply Hwf]|done].
    unfold clear_barrier_path. fold (blanked entries (direct_path_nodes (sat_add (n - 1) x))). rewrite vget_blanked.
    case_if; [|done]. by destruct (vget entries i).
Qed.

Lemma expected_pairs_loop_cons entries leaf_base child source tl :
  expected_pairs_loop entries leaf_base (child :: source :: tl) =
    (sibling ← ok_or (sibling_node child) (InvalidInput "barrier_update malformed");
     rest ← expected_pairs_loop entries leaf_base (source :: tl);
     Ok (((fun target => (source, target)) <$> merge_sort Z.le (collect_resolution_nodes TREE_FUEL entries sibling leaf_base [])) ++ rest)).
Proof using. done. Qed.

(** The pairs the server expects are the pairs of the copath. *)
Lemma expected_pairs_ok entries node :
  tree_wf n entries -> 0 <= node < 2 * n - 1 ->
  expected_pairs_loop entries (n - 1) (path_of node) = Ok (copath_pairs n entries (path_of node)).
Proof using.
  intros Hwf [Hn Hm]. destruct (n_max_bounds n (proj1 Hwf)) as (_ & _ & ?). revert Hm. pattern node. revert node Hn.
  apply path_of_ind; [by rewrite path_of_0|]. intros node Hn IH Hm. rewrite copath_pairs_step by done.
  rewrite path_of_step by done.
  assert (0 <= (node - 1) / 2 < node) by (split; [apply Z.div_pos; lia|apply Z.div_lt_upper_bound; lia]).
  destruct (path_of_head ((node - 1) / 2)) as [tl Htl]; [lia|]. rewrite Htl in *.
  rewrite expected_pairs_loop_cons, server_sibling_node_eq by (unfold U64_MAX; lia).
  rewrite sibling_node_sib by done. rstep. rewrite IH by lia. rstep.
  pose proof (sib_range n entries Hwf node ltac:(lia)) as Hsr.
  pose proof (at_height_node n (proj1 Hwf) _ Hsr) as Hat. unfold targets_of.
  rewrite <- (collect_resolution_nodes_spec n entries _ _ Hwf Hat).
  by replace (sib (node + 1) - 1 + 1 - 1) with (sib (node + 1) - 1) by lia.
Qed.

Lemma collect_expected_pairs_ok entries slot :
  tree_wf n entries -> 0 <= slot < n ->
  collect_expected_pairs entries (path_of (leaf_node n slot)) n
  = Ok (merge_sort pair_le (copath_pairs n entries (path_of (leaf_node n slot)))).
Proof using.
  intros Hwf Hs. destruct (n_max_bounds n (proj1 Hwf)) as (_ & _ & ?).
  assert (0 <= leaf_node n slot < 2 * n - 1) as Hl by (unfold leaf_node; lia).
  unfold collect_expected_pairs. replace (sat_sub n 1) with (n - 1) by (unfold sat_sub; lia).
  rewrite (expected_pairs_ok entries) by done. rstep. case_if; [|done]. bool_prop.
  destruct (path_of_head (leaf_node n slot)) as [tl Htl]; [lia|]. rewrite Htl in *.
  destruct tl; [done|]. unfold len in E. cbn in E. lia.
Qed.

(** *** Installed keys *)

Lemma install_keys_inv entries keys post :
  install_keys entries keys = Ok post ->
  post = apply_keys entries keys /\ Forall (fun kv => 0 <= kv.1 < len entries) keys.
Proof using.
  unfold install_keys, apply_keys. revert entries. induction keys as [|[i k] keys IH]; intros entries; cbn [fold_res foldl fst snd].
  { intros [= <-]. split; [done|constructor]. }
  destruct (bool_decide (vget entries i = None)) eqn:E; [discriminate|]. cbn. intros H.
  apply IH in H as [-> HF]. split; [done|]. bool_prop. constructor.
  - cbn. destruct (vget entries i) eqn:Ei; [|done]. by apply vget_Some_range in Ei.
  - rewrite len_vset in HF. done.
Qed.

Lemma install_keys_ok entries keys :
  Forall (fun kv => 0 <= kv.1 < len entries) keys -> install_keys entries keys = Ok (apply_keys entries keys).
Proof using.
  unfold install_keys, apply_keys. revert entries; induction keys as [|[i k] keys IH]; intros entries H; cbn [fold_res foldl fst snd]; [done|].
  apply Forall_cons in H as [Hi H]. destruct (vget_is_Some entries i Hi) as [x Hx]. rewrite Hx.
  rewrite bool_decide_eq_false_2 by done. cbn. apply IH. by rewrite len_vset.
Qed.

Lemma vget_apply_keys entries keys i :
  i ∉ keys.*1 -> vget (apply_keys entries keys) i = vget entries i.
Proof using.
  unfold apply_keys. revert entries. induction keys as [|[j k] keys IH]; intros entries Hi; cbn; [done|].
  cbn in Hi. apply not_elem_of_cons in Hi as [Hne Hi]. rewrite IH by done. by apply vget_vset_ne.
Qed.

End Trees.

(** ** The stored tree

    What the roster keeps between updates: the hash of an initialised tree is
    the hash of its entries, and a cache holds the digests of these entries. *)
Record stored_tree_ok {HS : Hashing} (g : Group) : Prop := {
  st_hash : barrier_initialized (barrier g) = true ->
    len (barrier_pk_entries (barrier g)) = 2 * n_max (slots g) - 1 ->
    compute_barrier_tree_hash (n_max (slots g)) (barrier_pk_entries (barrier g))
    = Ok (kem_tree_hash_after (barrier g));
  st_cache : forall c, barrier_hash_cache (barrier g) = Some c ->
    1 < n_max (slots g) /\ len (barrier_pk_entries (barrier g)) = 2 * n_max (slots g) - 1 /\
    cache_ok (n_max (slots g)) (barrier_pk_entries (barrier g)) c;
}.

(** What every parser guarantees of the update's path. *)
Record parsed_ok (n : Z) (p : ServerParsedBarrierUpdate) : Prop := {
  po_size : spu_tree_size p = n;
  po_slot : 0 <= spu_updater_slot_index p < n;
  po_path : spu_path_nodes p = path_of (leaf_node n (spu_updater_slot_index p));
  po_keys : (spu_new_public_keys p).*1 = reverse (tail (spu_path_nodes p));
}.

Lemma wire_parsed_ok n w c : wire_wf n w c -> parsed_ok n (server_parsed w c).
Proof.
  intros H. split; cbn; try apply H. rewrite <- (wf_keys _ _ _ H), <- list_fmap_compose. by apply list_fmap_ext.
Qed.

(** The tree conditions of an accepted update, on the pre-update tree [pre]:
    the chain of hashes, one ciphertext for every pair of the copath, and the
    key hash of every target. *)
Record tree_checks {HS : Hashing} (n : Z) (hdr : header) (p : ServerParsedBarrierUpdate) (pre : snapshot) : Prop := {
  tc_before : compute_barrier_tree_hash n pre = Ok (spu_kem_tree_hash_before p);
  tc_after : compute_barrier_tree_hash n (apply_keys pre (spu_new_public_keys p)) = Ok (spu_kem_tree_hash_after p);
  tc_roots : exists since root, header_bytes32 hdr HDR_REVOKED_SINCE_ROOT "barrier_update malformed" = Ok since /\
    header_bytes32 hdr HDR_REVOKED_ROOT "barrier_update malformed" = Ok root /\
    compute_revocation_roots_hash since root = Ok (spu_revocation_roots_hash p);
  tc_pairs : (fun c => (spn_source_node c, spn_target_node c)) <$> spu_node_ciphertexts p
    = merge_sort pair_le (copath_pairs n pre (path_of (leaf_node n (spu_updater_slot_index p))));
  tc_targets : Forall (fun c => exists pk, vget pre (spn_target_node c) = Some pk /\
    spn_target_pk_hash c = take 16 (pkhash_of pk)) (spu_node_ciphertexts p);
}.

Lemma fold_res_check {E A} (f : A -> result E unit) l :
  fold_res (fun _ a => f a) tt l = Ok tt <-> Forall (fun a => f a = Ok tt) l.
Proof.
  induction l as [|a l IH]; cbn [fold_res].
  { split; [constructor|done]. }
  rewrite Forall_cons, <- IH. destruct (f a) as [[]|e]; cbn; naive_solver.
Qed.

Lemma check_target_hash_ok {HS : Hashing} entries c :
  check_target_hash entries c = Ok tt <->
  exists pk, vget entries (spn_target_node c) = Some pk /\ spn_target_pk_hash c = take 16 (pkhash_of pk).
Proof.
  unfold check_target_hash. destruct (vget entries (spn_target_node c)) as [pk|]; [|cbn; naive_solver].
  rewrite ok_or_Some, bind_Ok. unfold compute_barrier_pkhash. rewrite h_l_digest by done. cbn [from_hash map_err]. rewrite bind_Ok.
  unfold freeze_if, bytes_eqb. fold (pkhash_of pk). case_bool_decide as Hp; cbn; [|naive_solver]. by split; [eauto|].
Qed.

Lemma freeze_if_ok b e : freeze_if b e = Ok tt <-> b = false.
Proof. by destruct b. Qed.

Section TreeValidation.
  Context {HS : Hashing} (g : Group) (Hok : slots_ok (slots g)) (Hst : stored_tree_ok g).
  #[local] Abbreviation n := (n_max (slots g)).
  #[local] Abbreviation b := (barrier g).

Lemma tree_n_max : validate_barrier_n_max n = Ok n /\ Z.max n 1 = n /\ sat_sub n 1 = n - 1 /\ 1 <= n <= 65536.
Proof using Hok.
  pose proof (so_n_max _ Hok) as Hv. destruct (n_max_bounds n Hv) as (_ & _ & ?). unfold sat_sub. split_and!; (done || lia).
Qed.

Lemma verify_pairs_ok p pre :
  parsed_ok n p -> tree_wf n pre ->
  verify_barrier_update_pairs_and_targets pre p n = Ok tt <->
  (fun c => (spn_source_node c, spn_target_node c)) <$> spu_node_ciphertexts p
    = merge_sort pair_le (copath_pairs n pre (path_of (leaf_node n (spu_updater_slot_index p)))) /\
  Forall (fun c => exists pk, vget pre (spn_target_node c) = Some pk /\
    spn_target_pk_hash c = take 16 (pkhash_of pk)) (spu_node_ciphertexts p).
Proof using.
  intros Hp Hwf. unfold verify_barrier_update_pairs_and_targets. rewrite (po_path _ _ Hp).
  rewrite (collect_expected_pairs_ok n) by (done || apply Hp). rstep.
  case_bool_decide as Ha; cbn [negb freeze_if fail_if]; [|split; [discriminate|intros [? _]; done]].
  unfold freeze_if. rstep. rewrite fold_res_check.
  assert (forall l, Forall (fun c => check_target_hash pre c = Ok tt) l <->
    Forall (fun c => exists pk, vget pre (spn_target_node c) = Some pk /\ spn_target_pk_hash c = take 16 (pkhash_of pk)) l) as ->.
  { intros l. apply Forall_iff. intros c. apply check_target_hash_ok. }
  naive_solver.
Qed.

(** *** The two hashes *)

(** A cache with every node of the tree. *)
Definition full_cache (c : BarrierHashCache) : Prop := forall i, 0 <= i < 2 * n - 1 -> is_Some (c !! i).

Definition borrow_ok (borrowed : bool) (pre : snapshot) : Prop :=
  borrowed = true -> barrier_initialized b = true /\ pre = barrier_pk_entries b.

Lemma hash_before_ok borrowed pre :
  tree_wf n pre -> borrow_ok borrowed pre ->
  exists cache, hash_before b n borrowed pre = Ok (node_digest n pre 0, cache) /\ cache_ok n pre cache /\
    (if borrowed : bool then cache = ∅ else full_cache cache).
Proof using Hok Hst.
  intros [Hv Hlen] Hb. destruct (n_max_bounds n Hv) as (_ & _ & ?). unfold hash_before. destruct borrowed.
  - destruct (Hb eq_refl) as [Hi ->]. exists ∅. split_and!; [|apply cache_ok_empty|done].
    pose proof (st_hash g Hst Hi Hlen) as Hh. rewrite (server_tree_hash_ok n Hv) in Hh by done. congruence.
  - destruct (cached_hash_spec n Hv pre pre None TREE_FUEL 0 ∅) as (cache & -> & Hc & _ & Hcov);
      [done|done|lia|apply height_fuel; (done || lia)|done|apply cache_ok_empty|].
    exists cache. split_and!; [done|done|]. destruct (Hcov eq_refl) as [_ [_ Hall]]; [apply closed_for_empty|].
    intros i Hi. apply Hall; [by apply below_root|by apply elem_of_all_nodes].
Qed.

Lemma base_cache_ok borrowed pre :
  borrow_ok borrowed pre -> base_ok n pre (if borrowed : bool then barrier_hash_cache b else None).
Proof using Hst.
  intros Hb. destruct borrowed; [|done]. destruct (Hb eq_refl) as [_ ->].
  destruct (barrier_hash_cache b) as [c|] eqn:Hc; [|done]. by apply (st_cache g Hst).
Qed.

(** Under a full cache the stored one is not consulted. *)
Lemma full_cache_shadows (c : BarrierHashCache) :
  full_cache c -> c ∪ default ∅ (barrier_hash_cache b) = c.
Proof using Hst.
  intros Hf. apply map_eq. intros i. destruct (c !! i) as [v|] eqn:Hi.
  { by apply lookup_union_Some_l. }
  rewrite lookup_union_None. split; [done|]. destruct (barrier_hash_cache b) as [c'|] eqn:Hc; [|apply lookup_empty]. cbn.
  destruct (c' !! i) as [v|] eqn:Hi'; [|done]. apply (st_cache g Hst) in Hc as (_ & _ & Hc).
  destruct (Hc i v Hi') as [Hr _]. destruct (Hf i Hr). congruence.
Qed.

Lemma hash_after_ok borrowed pre before_cache keys (post := apply_keys pre keys) :
  tree_wf n pre -> borrow_ok borrowed pre -> cache_ok n pre before_cache ->
  (if borrowed : bool then before_cache = ∅ else full_cache before_cache) ->
  (keys = [] <-> n = 1) -> (forall i, i ∈ keys.*1 -> 0 <= i < 2 * n - 1) ->
  exists cache, hash_after b n borrowed (node_digest n pre 0) before_cache keys post = Ok (node_digest n post 0, cache) /\
    forall c, cache = Some c -> 1 < n /\ cache_ok n post c.
Proof using Hok Hst.
  intros [Hv Hlen] Hb Hbc Hfull Hempty Hkeys. destruct (n_max_bounds n Hv) as (_ & _ & ?).
  unfold hash_after. case_bool_decide as Hk.
  { subst post keys. exists (barrier_hash_cache b). split; [done|]. intros c Hc.
    apply (st_cache g Hst) in Hc as (? & _). destruct Hempty as [Hempty _]. specialize (Hempty eq_refl). lia. }
  assert (1 < n) as Hn by (destruct (decide (n = 1)); [by apply Hempty in e|lia]).
  assert (len post = 2 * n - 1) as Hlen' by (subst post; by rewrite len_apply_keys).
  destruct (tree_hash_with_changes_ok n pre post (list_to_set keys.*1)
    (if borrowed then barrier_hash_cache b else None) before_cache Hv Hlen')
    as (root & before' & after & -> & Hroot & _ & Hg & Hm).
  - intros i Hi%elem_of_list_to_set. by apply Hkeys.
  - intros i _ Hi. apply vget_apply_keys. set_solver.
  - by apply base_cache_ok.
  - done.
  - rewrite (server_tree_hash_ok n Hv) in Hroot by done. injection Hroot as <-. rstep.
    assert (cache_ok n post (after ∪ (before' ∪ default ∅ (barrier_hash_cache b)))) as Hmerged.
    { destruct borrowed; [done|]. rewrite full_cache_shadows; [by cbn [default from_option] in Hm; rewrite (right_id_L ∅ (∪)) in Hm|].
      intros i Hi. by apply Hg, Hfull. }
    eexists. split; [done|]. intros c Hc. destruct (Z.eqb _ _); [|done]. by injection Hc as <-.
Qed.

(** *** The whole tree check *)

Lemma parsed_keys p : parsed_ok n p ->
  (spu_new_public_keys p = [] <-> n = 1) /\ (forall i, i ∈ (spu_new_public_keys p).*1 -> 0 <= i < n - 1).
Proof using Hok.
  intros Hp. destruct tree_n_max as (Hv & _ & _ & ?). pose proof (po_slot _ _ Hp) as Hs.
  destruct (tail_path_props n _ Hv Hs) as (_ & Hr & _). rewrite Forall_forall in Hr.
  pose proof (po_keys _ _ Hp) as Hk. rewrite (po_path _ _ Hp) in Hk. split.
  - assert (spu_new_public_keys p = [] <-> (spu_new_public_keys p).*1 = []) as -> by (by destruct (spu_new_public_keys p)).
    rewrite Hk. destruct (decide (n = 1)) as [He|He].
    + split; [done|]. intros _. replace (leaf_node n (spu_updater_slot_index p)) with 0 by (unfold leaf_node; lia). done.
    + split; [|done]. rewrite path_of_step by (unfold leaf_node; lia). cbn [tail].
      set (m := (leaf_node n (spu_updater_slot_index p) - 1) / 2).
      destruct (path_of_head m) as [tl ->]; [unfold m, leaf_node; apply Z.div_pos; lia|].
      rewrite reverse_cons. intros E. by apply app_nil in E as [_ ?].
  - intros i Hi. apply Hr. by rewrite Hk, elem_of_reverse in Hi.
Qed.

(** [validate_tree] accepts exactly the updates that meet [tree_checks], and
    the outcome carries the updated tree and a correct cache. *)
Lemma validate_tree_spec hdr p borrowed pre o :
  parsed_ok n p -> tree_wf n pre -> borrow_ok borrowed pre ->
  validate_tree g hdr p borrowed pre = Ok o ->
  tree_checks n hdr p pre /\ vo_parsed o = p /\ vo_snapshot_pre o = pre /\
  vo_snapshot_post o = apply_keys pre (spu_new_public_keys p) /\
  forall c, vo_hash_cache_post o = Some c -> 1 < n /\ cache_ok n (vo_snapshot_post o) c.
Proof using Hok Hst.
  intros Hp Hwf Hb H. unfold validate_tree in H. destruct tree_n_max as (Hv & Hmax & _ & ?). rewrite Hmax in H.
  destruct (hash_before_ok borrowed pre Hwf Hb) as (bc & Eb & Hbc & Hfull). rewrite Eb, bind_Ok in H.
  destruct (parsed_keys p Hp) as [Hempty Hkeys].
  ok_step H as [] E1. ok_step H as since E2. ok_step H as root E3. ok_step H as rh E4.
  ok_step H as [] E5. ok_step H as [] E6. ok_step H as post E7.
  apply install_keys_inv in E7 as [-> _].
  destruct (hash_after_ok borrowed pre bc (spu_new_public_keys p) Hwf Hb Hbc Hfull Hempty) as (cache & Ea & Hc).
  { intros i Hi%Hkeys. lia. }
  rewrite Ea, bind_Ok in H. ok_step H as [] E8. injection H as <-.
  apply (verify_pairs_ok p pre Hp Hwf) in E6 as [Hpairs Htargets].
  unfold freeze_if, malformed_if in *. inv_all. bool_prop. subst. split_and!; try done.
  assert (len (apply_keys pre (spu_new_public_keys p)) = 2 * n - 1) by (rewrite len_apply_keys; apply Hwf).
  split; [rewrite (server_tree_hash_ok n Hv) by apply Hwf; congruence|rewrite (server_tree_hash_ok n Hv) by done; congruence| |done|done].
  exists since, root. split_and!; congruence.
Qed.

Lemma validate_tree_complete hdr p borrowed pre :
  parsed_ok n p -> tree_wf n pre -> borrow_ok borrowed pre -> tree_checks n hdr p pre ->
  exists cache, validate_tree g hdr p borrowed pre =
    Ok {| vo_parsed := p; vo_snapshot_pre := pre; vo_snapshot_post := apply_keys pre (spu_new_public_keys p);
          vo_hash_cache_post := cache |}.
Proof using Hok Hst.
  intros Hp Hwf Hb [Hbefore Hafter (since & root & Hs & Hr & Hrr) Hpairs Htargets].
  unfold validate_tree. destruct tree_n_max as (Hv & Hmax & _ & ?). rewrite Hmax.
  destruct (hash_before_ok borrowed pre Hwf Hb) as (bc & Eb & Hbc & Hfull). rewrite Eb, bind_Ok.
  destruct (parsed_keys p Hp) as [Hempty Hkeys].
  rewrite (server_tree_hash_ok n Hv) in Hbefore by apply Hwf. injection Hbefore as Hbefore. rewrite <- Hbefore.
  rewrite bytes_eqb_refl. unfold freeze_if, malformed_if. cbn [negb]. rstep.
  rewrite Hs, bind_Ok, Hr, bind_Ok, Hrr, bind_Ok, bytes_eqb_refl. cbn [negb]. rstep.
  rewrite (proj2 (verify_pairs_ok p pre Hp Hwf)) by done. rstep.
  rewrite install_keys_ok.
  2:{ apply Forall_forall. intros kv Hkv. destruct Hwf as [_ ->]. assert (kv.1 ∈ (spu_new_public_keys p).*1) as Hi%Hkeys; [|lia].
      apply list_elem_of_fmap. by exists kv. }
  rstep. destruct (hash_after_ok borrowed pre bc (spu_new_public_keys p) Hwf Hb Hbc Hfull Hempty) as (cache & Ea & Hc).
  { intros i Hi%Hkeys. lia. }
  exists cache. rewrite (server_tree_hash_ok n Hv) in Hafter by (rewrite len_apply_keys; apply Hwf). injection Hafter as Hafter.
  rewrite Ea, bind_Ok, <- Hafter, bytes_eqb_refl. done.
Qed.

End TreeValidation.

(** ** The pre-update tree *)

Section Base.
  Context {HS : Hashing} (g : Group) (Hok : slots_ok (slots g)).
  #[local] Abbreviation n := (n_max (slots g)).

Lemma blank_entries_len entries : build_blank_pk_entries n = Ok entries -> len entries = 2 * n - 1.
Proof using Hok.
  destruct (tree_n_max g Hok) as (_ & _ & _ & Hn). unfold build_blank_pk_entries. rewrite tree_size_ok by done. rstep.
  intros [= <-]. unfold len. rewrite length_replicate. lia.
Qed.

Lemma fallback_entries_len entries : build_fallback_pk_entries g = Ok entries -> len entries = 2 * n - 1.
Proof using Hok.
  destruct (tree_n_max g Hok) as (Hv & _ & _ & Hn). unfold build_fallback_pk_entries, barrier_n_max. rewrite Hv. intros H.
  ok_step H as [] E1. cbn [map_err] in H. rewrite bind_Ok in H.
  apply (fold_res_inv (fun e => len e = 2 * n - 1)) in H; [done| |].
  - intros e leaf e' _ He Hstep. ok_step Hstep as lease E. case_match; [by injection Hstep as <-|].
    case_match; injection Hstep as <-; [by rewrite len_vset|done].
  - unfold len. rewrite length_replicate. unfold sat_sub, sat_mul, U64_MAX. lia.
Qed.

Lemma cow_entries_len entries : build_pk_entries_cow g = Ok entries -> len entries = 2 * n - 1.
Proof using Hok.
  destruct (tree_n_max g Hok) as (Hv & _ & _ & Hn). unfold build_pk_entries_cow, barrier_n_max. rewrite Hv. intros H.
  ok_step H as [] E1. cbn [map_err] in H. rewrite bind_Ok in H. case_match eqn:E; [|by apply fallback_entries_len].
  injection H as <-. bool_prop. rewrite E. unfold sat_sub, sat_mul, U64_MAX. lia.
Qed.

Lemma snapshot_base_wf by_leaf revoked pre :
  snapshot_base g by_leaf revoked = Ok pre ->
  tree_wf n pre /\ borrow_ok g (can_borrow_snapshot_base g by_leaf revoked) pre.
Proof using Hok.
  destruct (tree_n_max g Hok) as (Hv & Hm & _ & Hn). unfold snapshot_base, borrow_ok. rewrite Hm.
  destruct (can_borrow_snapshot_base _ _ _) eqn:Ec.
  - intros [= <-]. unfold can_borrow_snapshot_base in Ec. bool_prop. rewrite Hm in *. by split.
  - intros H. ok_step H as base E. injection H as <-. split; [|done]. split; [done|].
    rewrite len_blank_revoked, len_place_joins. case_match; [by apply cow_entries_len|by apply blank_entries_len].
Qed.

(** The path of a revoked slot is blank. *)
Lemma snapshot_base_blank by_leaf (revoked : gset Z) pre slot i :
  snapshot_base g by_leaf revoked = Ok pre -> slot ∈ revoked -> 0 <= slot < n ->
  i ∈ path_of (leaf_node n slot) -> vget pre i = Some [].
Proof using Hok.
  intros H Hs Hr Hi. destruct (snapshot_base_wf _ _ _ H) as [Hwf _]. revert H.
  destruct (tree_n_max g Hok) as (Hv & Hm & Hsub & Hn). unfold snapshot_base. rewrite Hm, Hsub.
  destruct (can_borrow_snapshot_base _ _ _) eqn:Ec.
  { unfold can_borrow_snapshot_base in Ec. bool_prop. set_solver. }
  intros H. ok_step H as base E. injection H as <-.
  rewrite (blank_revoked_blanks n) with (slot := slot); [|split; [done|]|done|done|done].
  - destruct Hwf as [_ Hl]. rewrite len_blank_revoked, len_place_joins in Hl.
    destruct (vget_is_Some (place_joins (n - 1) base by_leaf) i) as [x ->]; [|done].
    rewrite len_place_joins, Hl. apply path_of_range in Hi; unfold leaf_node in *; lia.
  - destruct Hwf as [_ Hl]. by rewrite len_blank_revoked in Hl.
Qed.

Lemma active_slot_range leaf lease : leaf_slot_leases (slots g) !! leaf = Some lease -> 0 <= slot_index lease < n.
Proof using Hok.
  intros H. eapply generation_slot; [done|]. rewrite (so_current _ Hok leaf lease) by (by left). done.
Qed.

Lemma revoked_set_spec delta s :
  revoked_set g delta = Ok s ->
  (forall slot, slot ∈ s -> 0 <= slot < n) /\
  committed_revoked_slot_indices (slots g) ⊆ s /\
  forall leaf, leaf ∈ delta_revoked delta ->
    exists lease, leaf_slot_leases (slots g) !! leaf = Some lease /\ slot_index lease ∈ s.
Proof using Hok.
  unfold revoked_set. intros H. split_and!.
  - refine (fold_res_inv (fun s => forall slot, slot ∈ s -> 0 <= slot < n) _ _ _ _ _ _ H).
    + intros s0 leaf s' _ Hs Hstep. unfold require_active_slot_lease in Hstep. inv_all.
      intros slot [->%elem_of_singleton|Hx]%elem_of_union; [by eapply active_slot_range|by apply Hs].
    + intros slot (leaf & a & Ha & <-)%lease_slots_elem. apply (so_revoked _ Hok) in Ha as (gen & Hg & _).
      eapply generation_slot; eauto.
  - refine (fold_res_inv (fun s => committed_revoked_slot_indices (slots g) ⊆ s) _ _ _ _ _ _ H); [|done].
    intros s0 leaf s' _ Hs Hstep. inv_all. set_solver.
  - revert H. generalize (committed_revoked_slot_indices (slots g)) as s0. induction (delta_revoked delta) as [|leaf l IH];
      intros s0 H x Hx; [by apply elem_of_nil in Hx|]. cbn [fold_res] in H. ok_step H as s1 E.
    unfold require_active_slot_lease in E. destruct (leaf_slot_leases (slots g) !! leaf) as [lease|] eqn:El; [|discriminate E].
    injection E as <-.
    apply elem_of_cons in Hx as [->|Hx]; [|by eapply IH]. exists lease. split; [done|].
    apply (fold_res_inv (fun s => slot_index lease ∈ s)) in H; [done| |set_solver].
    intros s2 y s' _ Hs Hstep. inv_all. set_solver.
Qed.

End Base.

(** ** Accepted updates *)

Section Accepted.
  Context {HS : Hashing} {WC : WireCodec} {HC : HistoryCodec}.

(** The author is the only leaf with the key that signed the bundle, its lease
    is active, and it updates its own slot or, as an administrator with a
    full-verification receipt, the slot of a leaf the bundle revokes. *)
Definition author_ok (g : Group) (hdr : header) (delta : MembershipDelta) (reason slot : Z) (author : bytes) : Prop :=
  exists pop_pk lease, header_as_bytes hdr HDR_POP_PK = Some pop_pk /\
    (forall leaf, leaf_device_pk g !! leaf = Some pop_pk <-> leaf = author) /\
    leaf_slot_leases (slots g) !! author = Some lease /\
    (slot_index lease = slot \/
     reason = 0 /\ pop_pk ∈ room_admin_pop_keys (barrier g) /\
     is_Some (hdr !! HDR_BARRIER_FULL_VERIFICATION_WITNESS) /\
     exists leaf target, leaf ∈ delta_revoked delta /\ leaf <> author /\
       leaf_slot_leases (slots g) !! leaf = Some target /\ slot_index target = slot).

Lemma author_leaves_elem g pop_pk leaf : leaf ∈ author_leaves g pop_pk <-> leaf_device_pk g !! leaf = Some pop_pk.
Proof using.
  unfold author_leaves. rewrite members_elem, elem_of_dom. split.
  - intros [x [Hx Hp]%map_lookup_filter_Some]. cbn in Hp. by subst.
  - intros H. exists pop_pk. by apply map_lookup_filter_Some.
Qed.

Lemma targeted_revocation_inv g hdr delta reason pop_pk author slot :
  targeted_admin_revocation g hdr delta reason pop_pk [author] slot = true ->
  reason = 0 /\ pop_pk ∈ room_admin_pop_keys (barrier g) /\
  is_Some (hdr !! HDR_BARRIER_FULL_VERIFICATION_WITNESS) /\
  exists leaf target, leaf ∈ delta_revoked delta /\ leaf <> author /\
    leaf_slot_leases (slots g) !! leaf = Some target /\ slot_index target = slot.
Proof using.
  unfold targeted_admin_revocation. intros H. bool_prop. split_and!; [done|done|done|].
  match goal with H : existsb _ _ = true |- _ => apply existsb_exists in H as (leaf & Hin & Hl) end.
  cbn [head default from_option] in Hl. bool_prop. case_match; [|done]. bool_prop.
  eexists leaf, _. split_and!; [by apply list_elem_of_In|done|done|done].
Qed.

Lemma check_author_inv g hdr delta reason slot author token :
  check_author g hdr delta reason slot = Ok (author, token) ->
  author_ok g hdr delta reason slot author /\ parse_join_finalize_auth_token hdr = Ok token /\
  (slot ∈ committed_revoked_slot_indices (slots g) -> reason = 0 /\ is_Some token).
Proof using.
  unfold check_author. intros H. ok_step H as pop_pk Epk. ok_step H as leases El. ok_step H as tok Et.
  ok_step H as [] Ef. ok_step H as a Ea. injection H as <- <-. unfold freeze_if in Ef.
  destruct (_ || _) eqn:Eb in Ef; [discriminate|]. clear Ef. bool_prop.
  destruct (author_leaves g pop_pk) as [|x [|y l]] eqn:Eal; [done| |].
  2:{ exfalso. unfold len in *. cbn in *. lia. }
  injection Ea as <-. apply map_res_Forall2 in El. apply Forall2_cons_inv_l in El as (lease & ls & Hl & Hnil & ->).
  apply Forall2_nil_inv_l in Hnil as ->. unfold require_active_slot_lease in Hl. inv_all.
  split_and!; [|done|].
  - exists pop_pk, lease. split_and!; [|split; intros Hx|done|].
    + done.
    + apply author_leaves_elem in Hx. rewrite Eal in Hx. by apply list_elem_of_singleton in Hx.
    + subst. apply author_leaves_elem. rewrite Eal. by apply list_elem_of_singleton.
    + match goal with H : negb _ && _ = false |- _ => apply andb_false_iff in H as [Hi|Ht] end; bool_prop.
      * left. apply elem_of_list_to_set in Hi. cbn in Hi. by apply list_elem_of_singleton in Hi.
      * right. by apply targeted_revocation_inv.
  - intros Hc. unfold has_committed_revoked_slot_index in *.
    match goal with H : bool_decide _ && _ = false |- _ => apply andb_false_iff in H as [Hi|Ht] end; bool_prop; done.
Qed.

(** The pre-update tree of an accepted update, and who made it. *)
Lemma validate_update_inv g hdr delta reason p supplied o :
  validate_update g hdr delta reason p supplied = Ok o ->
  exists by_leaf s revoked pre author, revoked_set g delta = Ok s /\
    (revoked = s \/ revoked = s ∖ {[spu_updater_slot_index p]} /\
       exists token, parse_join_finalize_auth_token hdr = Ok (Some token)) /\
    snapshot_base g by_leaf revoked = Ok pre /\
    validate_tree g hdr p (can_borrow_snapshot_base g by_leaf revoked) pre = Ok o /\
    author_ok g hdr delta reason (spu_updater_slot_index p) author.
Proof using.
  unfold validate_update. intros H. ok_step H as [] E1. ok_step H as [] E2. ok_step H as [] E3.
  ok_step H as by_leaf E4. ok_step H as s E5. ok_step H as pre E6. ok_step H as [author token] E7.
  apply check_author_inv in E7 as (Ha & Ht & _). ok_step H as pre' E8. ok_step H as [] E9. ok_step H as [] E10. ok_step H as [] E11.
  destruct ((reason =? 0) && bool_decide (is_Some token) && _) eqn:Er.
  - exists by_leaf, s, (s ∖ {[spu_updater_slot_index p]}), pre', author. split_and!; try done. right. split; [done|].
    bool_prop. match goal with H : is_Some token |- _ => destruct H as [tok ->] end. by exists tok.
  - injection E8 as <-. exists by_leaf, s, s, pre, author. split_and!; try done. by left.
Qed.

Lemma validate_against_roster_inv g hdr delta o :
  validate_barrier_update_against_roster g hdr delta = Ok (Some o) ->
  exists raw reason p supplied, hdr !! HDR_BARRIER_UPDATE = Some (VBytes raw) /\
    len raw <= max_barrier_update_bytes (barrier g) /\
    parse_barrier_update hdr (n_max (slots g)) = Ok (Some p) /\ parse_barrier_update_reason hdr = Ok (Some reason) /\
    validate_update g hdr delta reason p supplied = Ok o.
Proof using.
  unfold validate_barrier_update_against_roster. intros H.
  match type of H with map_err _ ?m = _ => destruct m as [r|] eqn:E; [cbn in H|discriminate H] end. injection H as ->.
  ok_step E as [] E1. ok_step E as reason E2. ok_step E as supplied E3. destruct reason as [reason|]; [|by ok_step E as [] E4].
  ok_step E as update E4. destruct update as [p|]; [|discriminate]. ok_step E as o' E5. injection E as ->.
  assert (exists raw, hdr !! HDR_BARRIER_UPDATE = Some (VBytes raw)) as [raw Hraw].
  { unfold parse_barrier_update in E4. destruct (hdr !! HDR_BARRIER_UPDATE) as [[]|]; try discriminate; eauto. }
  rewrite Hraw in E1. unfold freeze_if in E1. inv_all. bool_prop. exists raw, reason, p, supplied. by split_and!.
Qed.

End Accepted.

(** ** Properties *)

Lemma accepted_spec {HS : Hashing} {WC : WireCodec} {WL : WireCodecLaws WC} {HC : HistoryCodec} g hdr delta o :
  slots_ok (slots g) -> stored_tree_ok g ->
  validate_barrier_update_against_roster g hdr delta = Ok (Some o) ->
  exists by_leaf s revoked reason author, revoked_set g delta = Ok s /\
    (revoked = s \/ revoked = s ∖ {[spu_updater_slot_index (vo_parsed o)]} /\
       exists token, parse_join_finalize_auth_token hdr = Ok (Some token)) /\
    snapshot_base g by_leaf revoked = Ok (vo_snapshot_pre o) /\
    parsed_ok (n_max (slots g)) (vo_parsed o) /\
    parse_barrier_update hdr (n_max (slots g)) = Ok (Some (vo_parsed o)) /\
    tree_checks (n_max (slots g)) hdr (vo_parsed o) (vo_snapshot_pre o) /\
    vo_snapshot_post o = apply_keys (vo_snapshot_pre o) (spu_new_public_keys (vo_parsed o)) /\
    parse_barrier_update_reason hdr = Ok (Some reason) /\
    author_ok g hdr delta reason (spu_updater_slot_index (vo_parsed o)) author /\
    forall c, vo_hash_cache_post o = Some c ->
      1 < n_max (slots g) /\ cache_ok (n_max (slots g)) (vo_snapshot_post o) c.
Proof.
  intros Hok Hst H. apply validate_against_roster_inv in H as (raw & reason & p & supplied & Hraw & _ & Hp & Hreason & H).
  apply validate_update_inv in H as (by_leaf & s & revoked & pre & author & Hs & Hrev & Hpre & H & Ha).
  destruct (tree_n_max g Hok) as (Hv & _). destruct (snapshot_base_wf g Hok _ _ _ Hpre) as [Hwf Hb].
  pose proof Hp as Hp'. apply (server_parser_spec _ Hv hdr raw) in Hp' as (w & c & _ & Hww & _ & Epp); [|done].
  assert (parsed_ok (n_max (slots g)) p) as Hpo by (rewrite Epp; by apply wire_parsed_ok).
  apply (validate_tree_spec g Hok Hst) in H as (Hc & <- & <- & Hpost & Hcache); [|done|done|done].
  exists by_leaf, s, revoked, reason, author. by split_and!.
Qed.


(** C2: Revocation takes effect in the tree.  In an accepted update the whole
    path of a revoked slot, revoked before or by the same bundle, is blank in
    the pre-update tree and no ciphertext is addressed to a node on it; the
    slot a joining member reclaims with its token is the only exception. *)
Theorem revoked_slot_gets_no_ciphertext {HS : Hashing} {WC : WireCodec} {WL : WireCodecLaws WC} {HC : HistoryCodec}
    g hdr delta o slot :
  slots_ok (slots g) -> stored_tree_ok g ->
  validate_barrier_update_against_roster g hdr delta = Ok (Some o) ->
  slot ∈ committed_revoked_slot_indices (slots g) \/
    (exists leaf lease, leaf ∈ delta_revoked delta /\ leaf_slot_leases (slots g) !! leaf = Some lease /\ slot_index lease = slot) ->
  slot <> spu_updater_slot_index (vo_parsed o) \/ parse_join_finalize_auth_token hdr = Ok None ->
  forall i, i ∈ path_of (leaf_node (n_max (slots g)) slot) ->
    vget (vo_snapshot_pre o) i = Some [] /\
    forall c, c ∈ spu_node_ciphertexts (vo_parsed o) -> spn_target_node c <> i.
Proof.
  intros Hok Hst H Hrev Hne i Hi. destruct (accepted_spec g hdr delta o Hok Hst H)
    as (by_leaf & s & revoked & reason & author & Hs & Hset & Hpre & Hpo & _ & Hc & _).
  destruct (revoked_set_spec g Hok delta s Hs) as (Hrange & Hcomm & Hdelta).
  assert (slot ∈ s) as Hin.
  { destruct Hrev as [?|(leaf & lease & Hl & Hlease & <-)]; [set_solver|].
    destruct (Hdelta leaf Hl) as (lease' & ? & ?). congruence. }
  assert (slot ∈ revoked) as Hin'.
  { destruct Hset as [->|[-> [token Ht]]]; [done|]. destruct Hne as [?|Hn]; [set_solver|congruence]. }
  pose proof (snapshot_base_blank g Hok _ _ _ slot i Hpre Hin' (Hrange slot Hin) Hi) as Hblank. split; [done|].
  intros c Hcin Htgt. subst i. destruct (snapshot_base_wf g Hok _ _ _ Hpre) as [Hwf _].
  assert ((spn_source_node c, spn_target_node c) ∈ merge_sort pair_le (copath_pairs (n_max (slots g)) (vo_snapshot_pre o)
    (path_of (leaf_node (n_max (slots g)) (spu_updater_slot_index (vo_parsed o)))))) as Hpair.
  { rewrite <- (tc_pairs _ _ _ _ Hc). apply list_elem_of_fmap. by exists c. }
  rewrite merge_sort_Permutation in Hpair.
  apply copath_pair_range in Hpair as (_ & _ & pk & Hpk & Hnil); [|done|apply Hpo]. congruence.
Qed.


Lemma server_tree_hash_digest {HS : Hashing} n snap :
  tree_wf n snap -> compute_barrier_tree_hash n snap = Ok (tree_digest n snap (Z.to_nat (Z.log2 n)) 1).
Proof. intros [Hv Hl]. by rewrite (server_tree_hash_ok n Hv), node_digest_root. Qed.

Lemma tree_digest_len {HS : Hashing} {HL : HashingLaws HS} n snap h m : len (tree_digest n snap h m) = 32.
Proof. destruct h; cbn; unfold hl_digest, len; by rewrite derive_key_len. Qed.

Section ClientUpdate.
  Context {HS : Hashing} {HL : HashingLaws HS} {K : MlKem} {KL : MlKemLaws K} {A : Aead} {AL : AeadLaws A}.
  Context (gid : bytes) (n u gen bv prev : Z) (rrh before : bytes) (pre : snapshot) (ps_leaf : bytes) (coins : Z -> Z -> bytes).
  Context (Hwf : tree_wf n pre) (Hu : 0 <= u < n) (Hkeys : keys_valid pre).
  #[local] Abbreviation path := (path_of (leaf_node n u)).
  #[local] Abbreviation cts := (built_cts gid n u gen bv prev rrh before pre coins).
  #[local] Abbreviation cover := (built_cover gid n u gen bv prev rrh before pre coins).
  #[local] Abbreviation update := (built_update gid n u gen bv prev rrh before pre coins).

(** What a client builds meets the server's conditions on the tree. *)
Lemma built_tree_checks hdr since root (m : gmap Z bytes) after :
  header_bytes32 hdr HDR_REVOKED_SINCE_ROOT "barrier_update malformed" = Ok since ->
  header_bytes32 hdr HDR_REVOKED_ROOT "barrier_update malformed" = Ok root ->
  compute_revocation_roots_hash since root = Ok rrh ->
  compute_barrier_tree_hash n pre = Ok before ->
  BarrierTree.compute_barrier_tree_hash n (built_post gid n u bv rrh pre m) = Ok after ->
  tree_checks n hdr (server_parsed (update m after) (cover m after)) pre.
Proof using Hwf Hu.
  intros Hs Hr Hrr Hb Ha. split; cbn [server_parsed spu_kem_tree_hash_before spu_kem_tree_hash_after spu_new_public_keys
    spu_revocation_roots_hash spu_node_ciphertexts spu_updater_slot_index built_update built_cover
    buw_kem_tree_hash_before buw_kem_tree_hash_after buw_revocation_roots_hash cpw_new_public_keys cpw_node_ciphertexts
    cpw_updater_slot_index].
  - done.
  - rewrite BarrierTree.compute_barrier_tree_hash_ok in Ha by (by apply built_post_wf). injection Ha as <-.
    apply server_tree_hash_digest. by apply (built_post_wf gid n u bv rrh pre Hwf m).
  - by exists since, root.
  - rewrite <- list_fmap_compose. rewrite <- (built_pairs gid n u gen bv prev rrh before pre coins Hwf Hu m after).
    by apply list_fmap_ext.
  - apply Forall_fmap, Forall_forall. intros c Hc. apply built_ct_elem in Hc as (s & t & Hin & ->).
    apply copath_pair_range in Hin as (_ & _ & pk & Hpk & _); [|done|done]. exists pk. cbn. by rewrite Hpk.
Qed.

End ClientUpdate.

(** C9: Client and server agree on updates.  A bundle that carries what
    [build_barrier_update_bytes] made on the server's pre-update tree decodes
    on the server to the builder's slot, passes every tree check, and leaves
    the server with the tree and the tree hash the client computed. *)
Theorem client_update_accepted {HS : Hashing} {HL : HashingLaws HS} {WC : WireCodec} {WL : WireCodecLaws WC}
    {K : MlKem} {KL : MlKemLaws K} {A : Aead} {AL : AeadLaws A}
    g hdr since root gid slot gen bv prev rrh before pre ps_leaf coins r borrowed :
  slots_ok (slots g) -> stored_tree_ok g ->
  tree_wf (n_max (slots g)) pre -> keys_valid pre -> borrow_ok g borrowed pre ->
  0 <= slot < n_max (slots g) -> is_u64 gen -> is_u64 bv -> is_u64 prev ->
  header_bytes32 hdr HDR_REVOKED_SINCE_ROOT "barrier_update malformed" = Ok since ->
  header_bytes32 hdr HDR_REVOKED_ROOT "barrier_update malformed" = Ok root ->
  compute_revocation_roots_hash since root = Ok rrh ->
  compute_barrier_tree_hash (n_max (slots g)) pre = Ok before ->
  build_barrier_update_bytes gid (n_max (slots g)) slot gen bv prev rrh before pre ps_leaf coins = Ok r ->
  hdr !! HDR_BARRIER_UPDATE = Some (VBytes (bur_raw_update r)) ->
  exists p o, parse_barrier_update hdr (n_max (slots g)) = Ok (Some p) /\ spu_updater_slot_index p = slot /\
    validate_tree g hdr p borrowed pre = Ok o /\
    vo_snapshot_post o = bur_snapshot_post r /\ spu_kem_tree_hash_after p = bur_kem_tree_hash_after r.
Proof.
  intros Hok Hst Hwf Hkeys Hb Hu Hg Hbv Hp Hs Hr Hrr Hbefore Hbuild Hh. destruct (tree_n_max g Hok) as (Hv & _).
  destruct (build_ok gid (n_max (slots g)) slot gen bv prev rrh before pre ps_leaf coins Hwf Hu Hkeys)
    as (m & after & _ & Hch & Ha & Hres). rewrite Hres in Hbuild. injection Hbuild as <-.
  assert (len rrh = 32 /\ len before = 32) as [Hlr Hlb].
  { unfold compute_revocation_roots_hash in Hrr. rewrite h_l_digest in Hrr by done. injection Hrr as <-.
    rewrite server_tree_hash_digest in Hbefore by done. injection Hbefore as <-.
    split; [|apply tree_digest_len]. unfold hl_digest, len. by rewrite derive_key_len. }
  pose proof (built_wire_wf gid _ slot gen bv prev rrh before pre coins Hwf Hu m after Hch Ha Hlr Hlb) as Hww.
  exists (server_parsed (built_update gid (n_max (slots g)) slot gen bv prev rrh before pre coins m after)
           (built_cover gid (n_max (slots g)) slot gen bv prev rrh before pre coins m after)).
  destruct (validate_tree_complete g Hok Hst hdr _ borrowed pre (wire_parsed_ok _ _ _ Hww) Hwf Hb
    (built_tree_checks gid _ slot gen bv prev rrh before pre coins Hwf Hu hdr since root m after Hs Hr Hrr Hbefore Ha))
    as [cache Hval].
  eexists. split_and!; [|done|exact Hval|done|done].
  apply (server_parser_spec _ Hv hdr _ _ Hh). eexists _, _. split_and!; [|exact Hww|constructor|done].
  by apply built_decodes.
Qed.

(** ** Witnesses: a room of two whose first member revokes the second *)

Module Revocation.

Definition slots2 : SlotTable := {|
  n_max := 2; free_slots := ∅; slot_generations := {[0 := 0; 1 := 0]};
  leaf_slot_leases := {[leaf_a := {| slot_index := 0; slot_generation := 0 |}; leaf_b := {| slot_index := 1; slot_generation := 0 |}]};
  revoked_slot_leases := ∅; pending_join_finalize_auth := ∅; revoked := ∅ |}.

Definition ek (seed : Z) : bytes := replicate 1184 seed.

Definition room : Group := {|
  slots := slots2; barrier := sample_barrier; latest_root := Some zero32; snapshots := {[zero32 := {[leaf_a; leaf_b]}]};
  next_index := 2; join_history := []; leaf_device_pk := {[leaf_a := [7]; leaf_b := [8]]};
  leaf_barrier_public := {[leaf_a := ek 1; leaf_b := ek 2]} |}.

Definition hash_of (r : result CityGError bytes) : bytes := default [] (result_ok r).

(** The other leaf is blank: the update wraps nothing. *)
Definition pre : snapshot := [[]; ek 1; []].
Definition post : snapshot := [ek 3; ek 1; []].
Definition cover : KemTreeCoverPayloadWire :=
  {| cpw_updater_slot_index := 0; cpw_updater_slot_generation := 0; cpw_path_nodes := [1; 0]; cpw_revoked_hint := None;
     cpw_node_ciphertexts := []; cpw_new_public_keys := [{| npk_node := 0; npk_ek := ek 3 |}] |}.
Definition update : BarrierUpdateWire :=
  {| buw_mode := "barrier-v1"; buw_barrier_version := 1; buw_prev_barrier_version := 0; buw_tree_size := 2;
     buw_revocation_roots_hash := hash_of (@compute_revocation_roots_hash toy_hashing zero32 zero32);
     buw_kem_tree_hash_before := hash_of (@compute_barrier_tree_hash toy_hashing 2 pre);
     buw_kem_tree_hash_after := hash_of (@compute_barrier_tree_hash toy_hashing 2 post);
     buw_cover_payload := toy_cbor (cover_value cover) |}.
Definition hdr : header := {[ HDR_BARRIER_UPDATE := VBytes (toy_cbor (update_value update));
  HDR_BARRIER_UPDATE_REASON := VInteger 0; HDR_POP_PK := VBytes [7];
  HDR_REVOKED_SINCE_ROOT := VBytes zero32; HDR_REVOKED_ROOT := VBytes zero32 ]}.
Definition delta : MembershipDelta := {| joined := []; delta_revoked := [leaf_b] |}.

Definition no_history : HistoryCodec := {| decode_history_commitment _ := None |}.

Definition verdict : result CityGError (option BarrierUpdateValidationOutcome) :=
  @validate_barrier_update_against_roster toy_hashing toy_codec no_history room hdr delta.

Lemma accepted : exists o, verdict = Ok (Some o) /\ spu_updater_slot_index (vo_parsed o) = 0.
Proof.
  assert ((fun o => match o with Some o => spu_updater_slot_index (vo_parsed o) | None => -1 end) <$> result_ok verdict = Some 0) as H
    by (vm_compute; reflexivity).
  destruct verdict as [[o|]|]; [|discriminate|discriminate]. exists o. split; [done|]. by injection H.
Qed.

Lemma room_holds leaf lease : holds slots2 leaf lease ->
  (leaf = leaf_a /\ lease = {| slot_index := 0; slot_generation := 0 |}) \/
  (leaf = leaf_b /\ lease = {| slot_index := 1; slot_generation := 0 |}).
Proof.
  unfold holds, pending_leases. cbn [slots2 leaf_slot_leases pending_join_finalize_auth].
  rewrite fmap_empty, lookup_empty. intros [[[<- <-]|[_ [<- <-]%lookup_singleton_Some]]%lookup_insert_Some|?]; auto; done.
Qed.

Lemma slots2_ok : slots_ok slots2.
Proof.
  assert (forall s g, slot_generations slots2 !! s = Some g -> g = 0) as Hg.
  { cbn. intros s g [[<- <-]|[_ [<- <-]%lookup_singleton_Some]]%lookup_insert_Some; auto. }
  split; try done.
  - right. by apply (bool_decide_eq_true_1 _).
  - intros s g ->%Hg. unfold U64_MAX. lia.
  - by intros leaf lease [[-> ->]|[-> ->]]%room_holds.
  - by intros leaf a c [[-> ->]|[-> ->]]%room_holds [[? ->]|[? ->]]%room_holds.
  - by intros l1 l2 a c [[-> ->]|[-> ->]]%room_holds [[-> ->]|[-> ->]]%room_holds.
Qed.

Lemma room_tree_ok : @stored_tree_ok toy_hashing room.
Proof. by split. Qed.

End Revocation.


Lemma revoked_slot_gets_no_ciphertext_witness :
  exists o, Revocation.verdict = Ok (Some o) /\ vget (vo_snapshot_pre o) 2 = Some [].
Proof.
  destruct Revocation.accepted as (o & Ho & Hslot). exists o. split; [exact Ho|].
  apply (@revoked_slot_gets_no_ciphertext toy_hashing toy_codec toy_codec_laws Revocation.no_history Revocation.room Revocation.hdr
    Revocation.delta o 1 Revocation.slots2_ok Revocation.room_tree_ok Ho).
  - right. exists leaf_b, {| slot_index := 1; slot_generation := 0 |}. split_and!; [by constructor|done|done].
  - left. by rewrite Hslot.
  - apply (bool_decide_unpack _). vm_compute. exact I.
Defined.


(** A client's update of the room's blank tree with one leaf key. *)
Definition client_tree : snapshot := [[]; (@keygen_seed toy_kem (be_bytes 64 5)).2; (@keygen_seed toy_kem (be_bytes 64 6)).2].

Definition client_roots : bytes := Revocation.hash_of (@compute_revocation_roots_hash toy_hashing zero32 zero32).
Definition client_before : bytes := Revocation.hash_of (@compute_barrier_tree_hash toy_hashing 2 client_tree).

Definition client_build : result string BarrierUpdateBuildResult :=
  @build_barrier_update_bytes toy_hashing toy_kem toy_aead (replicate 32 1) 2 0 0 1 0 client_roots client_before client_tree
    (replicate 32 9) (fun s t => [s; t]).

Definition client_header (r : BarrierUpdateBuildResult) : header :=
  {[ HDR_BARRIER_UPDATE := VBytes (bur_raw_update r); HDR_REVOKED_SINCE_ROOT := VBytes zero32; HDR_REVOKED_ROOT := VBytes zero32 ]}.

Lemma client_keys_valid : @keys_valid toy_kem client_tree.
Proof.
  intros i pk Hi Hne. apply vget_elem in Hi. unfold client_tree in Hi.
  assert (exists seed, pk = (@keygen_seed toy_kem seed).2) as [seed ->].
  { apply elem_of_cons in Hi as [->|[->|[->|[]%elem_of_nil]%elem_of_cons]%elem_of_cons]; [done| |]; eauto. }
  split; [apply (keygen_pair (MlKemLaws := toy_kem_laws))|done].
Qed.

Lemma client_update_accepted_witness :
  exists r p o, client_build = Ok r /\
    @validate_tree toy_hashing Revocation.room (client_header r) p false client_tree = Ok o /\
    vo_snapshot_post o = bur_snapshot_post r.
Proof.
  assert (tree_wf 2 client_tree) as Hwf by done.
  destruct (@build_ok toy_hashing _ toy_kem toy_aead _ (replicate 32 1) 2 0 0 1 0 client_roots client_before client_tree
    (replicate 32 9) (fun s t => [s; t]) Hwf ltac:(lia) client_keys_valid) as (m & after & _ & _ & _ & Hb).
  set (r := built_result _ _ _ _ _ _ _ _ _ _ _ _) in Hb. clearbody r.
  destruct (@client_update_accepted toy_hashing _ toy_codec toy_codec_laws toy_kem toy_kem_laws toy_aead toy_aead_laws
    Revocation.room (client_header r) zero32 zero32 (replicate 32 1) 0 0 1 0 client_roots client_before client_tree
    (replicate 32 9) (fun s t => [s; t]) r false Revocation.slots2_ok Revocation.room_tree_ok Hwf client_keys_valid)
    as (p & o & _ & _ & Hv & Hpost & _); try done.
  exists r, p, o. split; [exact Hb|]. split; [exact Hv|exact Hpost].
Defined.
