(* ===== verification/Window.v ===== *)
(** * The acceptance window

    The time-bounded state of [msphf-orchestrator]: the logical clock
    ([time.rs]), the multi-head window ([mhw.rs]), the replay guard on
    [rho_commit] and the verification cache ([accept/mod.rs],
    [accept/cache.rs]), the pivot store ([lib.rs]) and the receiver's cache
    ([receiver.rs]).

    A [Duration] is a number of nanoseconds.  Operations that change the
    window and can fail return the window beside the result, since the code
    may have changed it before failing.  Hash maps are finite maps; where the
    code depends on their iteration order ([min_by_key] in the receiver's
    eviction) the order is a parameter. *)

From S2P Require Import Prelude Hash Errors.

(** ** Time *)

Module Time.

(** [Duration::from_secs] *)
Definition from_secs (s : Z) : Z := s * 1000000000.

(** [AcceptInstant::duration_since] *)
Definition duration_since (self earlier : Z) : Z := from_secs (sat_sub self earlier).

Record AcceptClock := { next_tick : Z; last : Z }.

Definition new_clock : AcceptClock := {| next_tick := 0; last := 0 |}.
Definition now (c : AcceptClock) : Z := last c.
Definition tick (c : AcceptClock) : AcceptClock * Z :=
  ({| next_tick := sat_add (next_tick c) 1; last := next_tick c |}, next_tick c).

(** [now.duration_since(t) <= ttl] *)
Definition live (ttl now t : Z) : bool := duration_since now t <=? ttl.

Lemma live_spec ttl now t : live ttl now t = true <-> from_secs (sat_sub now t) <= ttl.
Proof. unfold live, duration_since. apply Z.leb_le. Qed.

(** What is live at a later time was live before. *)
Lemma live_earlier ttl t0 now now' : now <= now' -> live ttl now' t0 = true -> live ttl now t0 = true.
Proof. rewrite !live_spec. unfold from_secs, sat_sub. lia. Qed.

End Time.

(** ** The multi-head window *)

Record HeadRecord := {
  hr_we_epoch_id : bytes;
  hr_msphf_hp_commit : bytes;
  hr_seed_ctx_hash : bytes;
  hr_rho_commit : bytes;
  hr_seed_commit : bytes;
  hr_xk_hash : bytes;
  hr_join_delta_root : bytes;
  hr_revoked_since_root : bytes;
  hr_revoked_root : bytes;
  hr_accept_seq : Z;
  hr_accept_time : Z;
}.

Definition with_accept_time (r : HeadRecord) (t : Z) : HeadRecord := {|
  hr_we_epoch_id := hr_we_epoch_id r; hr_msphf_hp_commit := hr_msphf_hp_commit r;
  hr_seed_ctx_hash := hr_seed_ctx_hash r; hr_rho_commit := hr_rho_commit r; hr_seed_commit := hr_seed_commit r;
  hr_xk_hash := hr_xk_hash r; hr_join_delta_root := hr_join_delta_root r;
  hr_revoked_since_root := hr_revoked_since_root r; hr_revoked_root := hr_revoked_root r;
  hr_accept_seq := hr_accept_seq r; hr_accept_time := t |}.

Record MultiHeadWindow := {
  h_max : Z;
  mw_ttl : Z;
  heads : gmap bytes (list HeadRecord);
  weid_index : gmap bytes bytes;
}.

Module Mhw.

Definition DEFAULT_H_MAX : Z := 16.
Definition DEFAULT_T_WINDOW : Z := Time.from_secs 120.

Definition new (h ttl : Z) : MultiHeadWindow := {| h_max := h; mw_ttl := ttl; heads := ∅; weid_index := ∅ |}.
Definition with_defaults : MultiHeadWindow := new DEFAULT_H_MAX DEFAULT_T_WINDOW.

Definition with_heads (w : MultiHeadWindow) (h : gmap bytes (list HeadRecord)) (i : gmap bytes bytes) : MultiHeadWindow :=
  {| h_max := h_max w; mw_ttl := mw_ttl w; heads := h; weid_index := i |}.

Definition keep (ttl now : Z) (r : HeadRecord) : bool := Time.live ttl now (hr_accept_time r).

(** [entry.retain(..)], with the index entries of what goes removed. *)
Definition retain (ttl now : Z) (entry : list HeadRecord) (index : gmap bytes bytes) : list HeadRecord * gmap bytes bytes :=
  (filter (fun r => keep ttl now r = true) entry,
   foldl (fun index r => if keep ttl now r then index else delete (hr_we_epoch_id r) index) index entry).

(** [heads.entry(wid).or_default()] *)
Definition entry_of (w : MultiHeadWindow) (wid : bytes) : list HeadRecord := default [] (heads w !! wid).

Definition prune (w : MultiHeadWindow) (wid : bytes) (now : Z) : MultiHeadWindow :=
  let '(entry, index) := retain (mw_ttl w) now (entry_of w wid) (weid_index w) in
  with_heads w (<[wid := entry]> (heads w)) index.

(** [entry.push(record); weid_index.insert(weid, wid)] *)
Definition push (w : MultiHeadWindow) (wid : bytes) (r : HeadRecord) : MultiHeadWindow :=
  with_heads w (<[wid := entry_of w wid ++ [r]]> (heads w)) (<[hr_we_epoch_id r := wid]> (weid_index w)).

Definition accept_head (w : MultiHeadWindow) (wid : bytes) (record : HeadRecord) (now : Z)
    : MultiHeadWindow * result FreezeError unit :=
  let w := prune w wid now in
  if h_max w <=? len (entry_of w wid) then (w, Err WINDOW_FULL)
  else (push w wid (with_accept_time record now), Ok tt).

Fixpoint strictly_increasing (l : list bytes) : bool :=
  match l with
  | a :: (b :: _) as tl => bool_decide (bytes_lt a b) && strictly_increasing tl
  | _ => true
  end.

Definition is_sorted_unique (l : list bytes) : bool := negb (bool_decide (l = [])) && strictly_increasing l.

(** [position(|rec| rec.we_epoch_id == head)] and [remove(pos)] *)
Fixpoint remove_head (entry : list HeadRecord) (head : bytes) : option (list HeadRecord) :=
  match entry with
  | [] => None
  | r :: entry => if bytes_eqb (hr_we_epoch_id r) head then Some entry else cons r <$> remove_head entry head
  end.

(** The [for head in mh_heads] loop: what it removes before it fails stays
    removed. *)
Fixpoint retire (w : MultiHeadWindow) (wid : bytes) (mh_heads : list bytes) : MultiHeadWindow * result FreezeError unit :=
  match mh_heads with
  | [] => (w, Ok tt)
  | head :: mh_heads =>
      match remove_head (entry_of w wid) head with
      | None => (w, Err MERGE_INVALID)
      | Some entry => retire (with_heads w (<[wid := entry]> (heads w)) (delete head (weid_index w))) wid mh_heads
      end
  end.

Definition accept_merge (w : MultiHeadWindow) (wid_old wid_new : bytes) (mh_heads : list bytes) (new_record : HeadRecord) (now : Z)
    : MultiHeadWindow * result FreezeError unit :=
  if negb (is_sorted_unique mh_heads) then (w, Err MERGE_INVALID)
  else
    let new_record := with_accept_time new_record now in
    let w := prune w wid_old now in
    match retire w wid_old mh_heads with
    | (w, Err e) => (w, Err e)
    | (w, Ok _) =>
        if bytes_eqb wid_old wid_new then
          if h_max w <=? len (entry_of w wid_old) then (w, Err WINDOW_FULL)
          else (push w wid_old new_record, Ok tt)
        else
          let w := if bool_decide (entry_of w wid_old = []) then with_heads w (delete wid_old (heads w)) (weid_index w) else w in
          let w := prune w wid_new now in
          if h_max w <=? len (entry_of w wid_new) then (w, Err WINDOW_FULL)
          else (push w wid_new new_record, Ok tt)
    end.

Definition active_heads (w : MultiHeadWindow) (wid : bytes) : Z := len (entry_of w wid).

Definition find_head (w : MultiHeadWindow) (wid weid : bytes) : option HeadRecord :=
  l ← heads w !! wid; List.find (fun r => bytes_eqb (hr_we_epoch_id r) weid) l.

Definition find_head_window (w : MultiHeadWindow) (weid : bytes) : option bytes := weid_index w !! weid.

Definition set_h_max (w : MultiHeadWindow) (h : Z) : MultiHeadWindow :=
  {| h_max := h; mw_ttl := mw_ttl w; heads := heads w; weid_index := weid_index w |}.

(** Every entry is pruned, the empty ones go. *)
Definition prune_all (w : MultiHeadWindow) (now : Z) : MultiHeadWindow :=
  with_heads w
    (omap (fun entry => match filter (fun r => keep (mw_ttl w) now r = true) entry with [] => None | entry => Some entry end) (heads w))
    (foldl (fun index p => (retain (mw_ttl w) now p.2 index).2) (weid_index w) (map_to_list (heads w))).

Definition set_ttl (w : MultiHeadWindow) (ttl now : Z) : MultiHeadWindow :=
  prune_all {| h_max := h_max w; mw_ttl := ttl; heads := heads w; weid_index := weid_index w |} now.

End Mhw.

(** ** The replay guard *)

Record RhoReplayGuard := { rg_limit : Z; rg_ttl : Z; rg_entries : gmap bytes (list (bytes * Z)) }.

Module Rho.

Definition new (limit ttl : Z) : RhoReplayGuard := {| rg_limit := limit; rg_ttl := ttl; rg_entries := ∅ |}.

Definition make_key (gid parent_root : bytes) : bytes := gid ++ [0] ++ parent_root.

Definition retain (ttl now : Z) (deque : list (bytes * Z)) : list (bytes * Z) :=
  filter (fun e => Time.live ttl now e.2 = true) deque.

Definition set_entry (g : RhoReplayGuard) (key : bytes) (deque : list (bytes * Z)) : RhoReplayGuard :=
  {| rg_limit := rg_limit g; rg_ttl := rg_ttl g; rg_entries := <[key := deque]> (rg_entries g) |}.

Definition record (g : RhoReplayGuard) (gid parent_root rho_commit : bytes) (now : Z) : RhoReplayGuard * bool :=
  let key := make_key gid parent_root in
  let deque := retain (rg_ttl g) now (default [] (rg_entries g !! key)) in
  if existsb (fun e => bytes_eqb e.1 rho_commit) deque then (set_entry g key deque, false)
  else if rg_limit g <=? len deque then (set_entry g key deque, false)
  else (set_entry g key (deque ++ [(rho_commit, now)]), true).

Definition clear_for (g : RhoReplayGuard) (gid parent_root : bytes) : RhoReplayGuard :=
  {| rg_limit := rg_limit g; rg_ttl := rg_ttl g; rg_entries := delete (make_key gid parent_root) (rg_entries g) |}.

Definition prune_all (g : RhoReplayGuard) (now : Z) : RhoReplayGuard :=
  {| rg_limit := rg_limit g; rg_ttl := rg_ttl g;
     rg_entries := omap (fun d => match retain (rg_ttl g) now d with [] => None | d => Some d end) (rg_entries g) |}.

Definition set_ttl (g : RhoReplayGuard) (ttl now : Z) : RhoReplayGuard :=
  prune_all {| rg_limit := rg_limit g; rg_ttl := ttl; rg_entries := rg_entries g |} now.

End Rho.

(** ** The verification cache *)

Record VckSrxState := { vs_join_count : Z; vs_since_count : Z; vs_anchor_count : Z; vs_payload_len : Z }.

Section Vck.
  (** [hp_binding::HpProof] *)
  Context {HpProof : Type} `{!EqDecision HpProof}.

Record VckCacheEntry := { ve_hp_proof : option HpProof; ve_srx : option VckSrxState; ve_verified_at : Z }.

Record VckCache := { vc_ttl : Z; vc_entries : gmap bytes VckCacheEntry }.

Definition vck_new (ttl : Z) : VckCache := {| vc_ttl := ttl; vc_entries := ∅ |}.

Definition vck_prune (c : VckCache) (now : Z) : VckCache :=
  {| vc_ttl := vc_ttl c; vc_entries := filter (fun p => Time.live (vc_ttl c) now (ve_verified_at p.2) = true) (vc_entries c) |}.

Definition vck_set_ttl (c : VckCache) (ttl now : Z) : VckCache :=
  vck_prune {| vc_ttl := ttl; vc_entries := vc_entries c |} now.

Definition vck_with (c : VckCache) (entries : gmap bytes VckCacheEntry) : VckCache :=
  {| vc_ttl := vc_ttl c; vc_entries := entries |}.

Definition should_verify_hp (c : VckCache) (key : bytes) (proof : HpProof) (now : Z) : VckCache * bool :=
  let c := vck_prune c now in
  match vc_entries c !! key with
  | Some e => if bool_decide (ve_hp_proof e = Some proof) then (c, false) else (vck_with c (delete key (vc_entries c)), true)
  | None => (c, true)
  end.

Definition record_hp (c : VckCache) (key : bytes) (proof : HpProof) (now : Z) : VckCache :=
  let c := vck_prune c now in
  let srx := match vc_entries c !! key with Some e => ve_srx e | None => None end in
  vck_with c (<[key := {| ve_hp_proof := Some proof; ve_srx := srx; ve_verified_at := now |}]> (vc_entries c)).

Definition try_skip_srx (c : VckCache) (key : bytes) (hint_join_count hint_since_count hint_anchor_count hint_payload_bytes
    payload_len now : Z) : VckCache * result AcceptanceError bool :=
  let c := vck_prune c now in
  match e ← vc_entries c !! key; ve_srx e with
  | Some srx =>
      if (hint_join_count <? vs_join_count srx) || (hint_since_count <? vs_since_count srx)
         || (hint_anchor_count <? vs_anchor_count srx) || (hint_payload_bytes <? vs_payload_len srx)
      then (c, Err (AFreeze FREEZE_SRX_HINT_UNDER))
      else if negb (payload_len =? vs_payload_len srx) then (c, Err (AFreeze FREEZE_SRX_INVALID))
      else (c, Ok true)
  | None => (c, Ok false)
  end.

Definition record_srx (c : VckCache) (key : bytes) (join_count since_count anchor_count payload_len now : Z) : VckCache :=
  let c := vck_prune c now in
  let hp := match vc_entries c !! key with Some e => ve_hp_proof e | None => None end in
  vck_with c (<[key := {| ve_hp_proof := hp;
                          ve_srx := Some {| vs_join_count := join_count; vs_since_count := since_count;
                                            vs_anchor_count := anchor_count; vs_payload_len := payload_len |};
                          ve_verified_at := now |}]> (vc_entries c)).

End Vck.

Arguments VckCacheEntry : clear implicits.
Arguments VckCache : clear implicits.

(** ** Pivots of live heads *)

Record PivotParity := {
  pp_gid : bytes;
  pp_cat : bytes;
  pp_parent_root : bytes;
  pp_we_epoch_id : bytes;
  pp_rho_commit : bytes;
  pp_seed_ctx_hash : bytes;
  pp_seed_commit : bytes;
  pp_hp_commit : bytes;
  pp_xk_hash : bytes;
  pp_join_delta_root : bytes;
  pp_revoked_since_root : bytes;
  pp_revoked_root : bytes;
  pp_accept_seq : Z;
  pp_crs_id : bytes;
  pp_params_id : bytes;
  pp_policy_version : string;
  pp_proof_mode : string;
  pp_vrf_id : string;
  pp_vrf_proof : bytes;
  pp_vrf_public : bytes;
  pp_mask_a : bytes;
  pp_mask_b : bytes;
  pp_fs_capss : bytes;
  pp_proofs_commit : bytes;
  pp_srx_commit : option bytes;
  pp_srx_root_sw : option bytes;
  pp_is_join : bool;
  pp_hp_envelope : bytes;
  pp_fs_epoch_commit : option bytes;
  pp_fs_ec : option Z;
  pp_fs_dev_commit : option bytes;
}.

Record PivotParityStore := { ps_ttl : Z; ps_entries : gmap (bytes * bytes) (list (PivotParity * Z)) }.

Module Pivots.

Definition new (ttl : Z) : PivotParityStore := {| ps_ttl := ttl; ps_entries := ∅ |}.

Definition prune (s : PivotParityStore) (now : Z) : PivotParityStore :=
  {| ps_ttl := ps_ttl s;
     ps_entries := omap (fun l => match filter (fun e => Time.live (ps_ttl s) now e.2 = true) l with [] => None | l => Some l end)
                     (ps_entries s) |}.

Definition set_ttl (s : PivotParityStore) (ttl now : Z) : PivotParityStore :=
  prune {| ps_ttl := ttl; ps_entries := ps_entries s |} now.

(** The entry of the same epoch is replaced in place, else the entry is
    appended. *)
Fixpoint upsert (list : list (PivotParity * Z)) (e : PivotParity * Z) : Datatypes.list (PivotParity * Z) :=
  match list with
  | [] => [e]
  | x :: list => if bytes_eqb (pp_we_epoch_id x.1) (pp_we_epoch_id e.1) then e :: list else x :: upsert list e
  end.

Definition insert (s : PivotParityStore) (parity : PivotParity) (accept_time : Z) : PivotParityStore :=
  let key := (pp_gid parity, pp_parent_root parity) in
  {| ps_ttl := ps_ttl s;
     ps_entries := <[key := upsert (default [] (ps_entries s !! key)) (parity, accept_time)]> (ps_entries s) |}.

Definition retire (s : PivotParityStore) (gid parent_root : bytes) (retired_weids : list bytes) : PivotParityStore :=
  if bool_decide (retired_weids = []) then s
  else
    let key := (gid, parent_root) in
    match ps_entries s !! key with
    | None => s
    | Some l =>
        let l := filter (fun e => pp_we_epoch_id e.1 ∉ retired_weids) l in
        {| ps_ttl := ps_ttl s;
           ps_entries := if bool_decide (l = []) then delete key (ps_entries s) else <[key := l]> (ps_entries s) |}
    end.

Definition seq_le (a b : PivotParity) : Prop := pp_accept_seq a <= pp_accept_seq b.

#[global] Instance seq_le_dec : RelDecision seq_le.
Proof. intros a b. unfold seq_le. apply _. Defined.

Definition list_for (s : PivotParityStore) (gid parent_root : bytes) (now : Z) : PivotParityStore * list PivotParity :=
  let s := prune s now in
  (s, merge_sort seq_le (fst <$> default [] (ps_entries s !! (gid, parent_root)))).

Definition clear_gid (s : PivotParityStore) (gid : bytes) : PivotParityStore :=
  {| ps_ttl := ps_ttl s; ps_entries := filter (fun p => p.1.1 <> gid) (ps_entries s) |}.

End Pivots.

(** ** The receiver's cache *)

Record CacheEntry := { ce_parent_root : bytes; ce_wid : bytes; ce_pivot_parity : PivotParity; ce_accept_time : Z }.

Record ReceiverCache := { rc_ttl : Z; rc_max_entries : Z; rc_entries : gmap bytes CacheEntry }.

Inductive AcceptanceKind := NonMerge | Merge (retired_heads : list bytes).

(** What the cache reads of an [AnchorAcceptanceResult]. *)
Record Accepted := {
  ac_kind : AcceptanceKind; ac_we_epoch_id : bytes; ac_wid : bytes; ac_accept_time : Z; ac_pivot_parity : PivotParity }.

Section Receiver.
  (** The order in which the hash map is iterated. *)
  Context (iter : gmap bytes CacheEntry -> list (bytes * CacheEntry)).

Definition DEFAULT_MAX_ENTRIES : Z := 100000.

Definition with_limits (ttl max_entries : Z) : ReceiverCache := {| rc_ttl := ttl; rc_max_entries := max_entries; rc_entries := ∅ |}.
Definition new_receiver (ttl : Z) : ReceiverCache := with_limits ttl DEFAULT_MAX_ENTRIES.

Definition with_entries (c : ReceiverCache) (m : gmap bytes CacheEntry) : ReceiverCache :=
  {| rc_ttl := rc_ttl c; rc_max_entries := rc_max_entries c; rc_entries := m |}.

Definition prune_receiver (c : ReceiverCache) (now : Z) (target : option bytes) : ReceiverCache * bool :=
  (with_entries c (filter (fun p => Time.live (rc_ttl c) now (ce_accept_time p.2) = true) (rc_entries c)),
   match target with
   | Some we => match rc_entries c !! we with
                | Some e => negb (Time.live (rc_ttl c) now (ce_accept_time e))
                | None => false
                end
   | None => false
   end).

Definition insert_receiver (c : ReceiverCache) (a : Accepted) : ReceiverCache :=
  with_entries c (<[ac_we_epoch_id a := {| ce_parent_root := pp_parent_root (ac_pivot_parity a); ce_wid := ac_wid a;
                                           ce_pivot_parity := ac_pivot_parity a; ce_accept_time := ac_accept_time a |}]>
                    (rc_entries c)).

(** [iter().min_by_key(accept_time)]: the first minimum. *)
Definition older (best : option (bytes * CacheEntry)) (p : bytes * CacheEntry) : option (bytes * CacheEntry) :=
  match best with
  | None => Some p
  | Some q => if ce_accept_time p.2 <? ce_accept_time q.2 then Some p else Some q
  end.

Definition oldest (l : list (bytes * CacheEntry)) : option (bytes * CacheEntry) := foldl older None l.

(** The [while entries.len() > max_entries] loop; an iteration removes one
    entry, so the size of the map is enough fuel. *)
Fixpoint evict (fuel : nat) (max_entries : Z) (m : gmap bytes CacheEntry) : gmap bytes CacheEntry :=
  match fuel with
  | O => m
  | S fuel =>
      if max_entries <? Z.of_nat (size m) then
        match oldest (iter m) with
        | None => m
        | Some (weid, _) => evict fuel max_entries (delete weid m)
        end
      else m
  end.

Definition enforce_max_entries (c : ReceiverCache) : ReceiverCache :=
  if rc_max_entries c =? 0 then with_entries c ∅
  else with_entries c (evict (size (rc_entries c)) (rc_max_entries c) (rc_entries c)).

Definition apply_acceptance (c : ReceiverCache) (a : Accepted) : ReceiverCache :=
  let c := (prune_receiver c (ac_accept_time a) None).1 in
  let c := match ac_kind a with
           | NonMerge => insert_receiver c a
           | Merge retired => insert_receiver (with_entries c (foldl (fun m head => delete head m) (rc_entries c) retired)) a
           end in
  enforce_max_entries c.

Definition set_receiver_ttl (c : ReceiverCache) (ttl now : Z) : ReceiverCache :=
  enforce_max_entries (prune_receiver {| rc_ttl := ttl; rc_max_entries := rc_max_entries c; rc_entries := rc_entries c |} now None).1.

Definition set_max_entries (c : ReceiverCache) (max_entries now : Z) : ReceiverCache :=
  enforce_max_entries (prune_receiver {| rc_ttl := rc_ttl c; rc_max_entries := max_entries; rc_entries := rc_entries c |} now None).1.

Definition parities_for_heads (c : ReceiverCache) (parent_root : bytes) (heads : list bytes) (now : Z)
    : ReceiverCache * result ReceiverError (list PivotParity) :=
  let c := (prune_receiver c now None).1 in
  (c, map_res (fun head =>
        entry ← ok_or (rc_entries c !! head) RUnknownHead;
        fail_if (negb (bytes_eqb (ce_parent_root entry) parent_root)) (RFreeze FREEZE_MH_PARENT_MISMATCH) ;;
        Ok (ce_pivot_parity entry)) heads).

Definition wid_for_head (c : ReceiverCache) (we_epoch_id : bytes) (now : Z) : ReceiverCache * option bytes :=
  let '(c, expired) := prune_receiver c now (Some we_epoch_id) in
  (c, if expired : bool then None else ce_wid <$> rc_entries c !! we_epoch_id).

End Receiver.

(** ** The window invariant

    No epoch has two heads in one window, and the reverse index holds exactly
    the live heads. *)

Record window_ok (w : MultiHeadWindow) : Prop := {
  wo_nodup : forall wid, NoDup (hr_we_epoch_id <$> Mhw.entry_of w wid);
  wo_index : forall e wid, weid_index w !! e = Some wid <-> exists r, r ∈ Mhw.entry_of w wid /\ hr_we_epoch_id r = e;
}.

Section WindowLemmas.
  Import Mhw.

Lemma NoDup_fmap_eq {A B} (f : A -> B) l x y : NoDup (f <$> l) -> x ∈ l -> y ∈ l -> f x = f y -> x = y.
Proof.
  induction l as [|a l IH]; cbn; intros Hnd Hx Hy He; [by apply elem_of_nil in Hx|].
  apply NoDup_cons in Hnd as [Ha Hnd]. apply elem_of_cons in Hx. apply elem_of_cons in Hy.
  destruct Hx as [Hx|Hx], Hy as [Hy|Hy]; [congruence| | |by apply IH]; exfalso; apply Ha.
  - rewrite <- Hx, He. by apply list_elem_of_fmap_2.
  - rewrite <- Hy, <- He. by apply list_elem_of_fmap_2.
Qed.

Lemma entry_set w wid entry index x :
  entry_of (with_heads w (<[wid := entry]> (heads w)) index) x = if decide (x = wid) then entry else entry_of w x.
Proof.
  unfold entry_of, with_heads. cbn. case_decide as E; [subst; by rewrite lookup_insert_eq|by rewrite lookup_insert_ne].
Qed.

(** Taking heads out of a window, and out of the index. *)
Lemma window_ok_shrink w wid entry index :
  window_ok w -> NoDup (hr_we_epoch_id <$> entry) -> (forall r, r ∈ entry -> r ∈ entry_of w wid) ->
  (forall e, index !! e = if bool_decide (e ∈ hr_we_epoch_id <$> entry_of w wid /\ e ∉ hr_we_epoch_id <$> entry)
                          then None else weid_index w !! e) ->
  window_ok (with_heads w (<[wid := entry]> (heads w)) index).
Proof.
  intros Hok Hnd Hsub Hidx. split.
  - intros x. rewrite entry_set. case_decide; [done|apply Hok].
  - intros e x. cbn [with_heads weid_index]. rewrite Hidx, entry_set. case_bool_decide as Hb.
    + split; [done|]. intros (r & Hr & <-). destruct Hb as [Hin Hout]. case_decide as E.
      * exfalso. apply Hout. by apply list_elem_of_fmap_2.
      * apply list_elem_of_fmap in Hin as (r' & He & Hr').
        assert (weid_index w !! hr_we_epoch_id r = Some wid) as H1 by (apply Hok; by exists r').
        assert (weid_index w !! hr_we_epoch_id r = Some x) as H2 by (apply Hok; by exists r). congruence.
    + rewrite (wo_index w Hok). case_decide as E; [subst x|done]. split.
      * intros (r & Hr & <-). destruct (decide (hr_we_epoch_id r ∈ hr_we_epoch_id <$> entry)) as [Hin|Hout].
        -- apply list_elem_of_fmap in Hin as (r' & He & Hr'). by exists r'.
        -- exfalso. apply Hb. split; [by apply list_elem_of_fmap_2|done].
      * intros (r & Hr & <-). exists r. split; [by apply Hsub|done].
Qed.

Lemma retain_index ttl now l index e :
  (retain ttl now l index).2 !! e =
  if bool_decide (Exists (fun r => hr_we_epoch_id r = e /\ keep ttl now r = false) l) then None else index !! e.
Proof.
  cbn [retain snd]. revert index. induction l as [|r l IH]; intros index; cbn [foldl].
  { rewrite bool_decide_eq_false_2; [done|]. by intros ?%Exists_nil. }
  rewrite IH. destruct (bool_decide (Exists _ l)) eqn:E1; bool_prop.
  - rewrite bool_decide_eq_true_2 by (by right). done.
  - destruct (keep ttl now r) eqn:Ek.
    + rewrite bool_decide_eq_false_2; [done|]. rewrite Exists_cons. intros [[_ ?]|?]; [congruence|done].
    + destruct (decide (hr_we_epoch_id r = e)) as [He|He].
      * rewrite bool_decide_eq_true_2 by (by left). subst. apply lookup_delete_eq.
      * rewrite bool_decide_eq_false_2; [by apply lookup_delete_ne|]. rewrite Exists_cons. intros [[? _]|?]; done.
Qed.

(** Under distinct epochs the index loses exactly the epochs that go. *)
Lemma retain_index_removed ttl now l index e :
  NoDup (hr_we_epoch_id <$> l) ->
  (retain ttl now l index).2 !! e =
  if bool_decide (e ∈ hr_we_epoch_id <$> l /\ e ∉ hr_we_epoch_id <$> (retain ttl now l index).1) then None else index !! e.
Proof.
  intros Hnd. rewrite retain_index. apply (f_equal (fun b : bool => if b then _ else _)).
  apply bool_decide_ext. cbn [retain fst]. rewrite Exists_exists. split.
  - intros (r & Hr & <- & Hk). split; [by apply list_elem_of_fmap_2|]. intros (r' & He & [Hk' Hr']%list_elem_of_filter)%list_elem_of_fmap.
    assert (r = r') as <- by (by eapply (NoDup_fmap_eq hr_we_epoch_id)). congruence.
  - intros [(r & -> & Hr)%list_elem_of_fmap Hout]. exists r. split_and!; [done|done|]. apply not_true_iff_false. intros Hk. apply Hout.
    apply list_elem_of_fmap_2. by apply list_elem_of_filter.
Qed.

Lemma NoDup_fmap_filter {A B} (f : A -> B) (P : A -> Prop) `{!forall x, Decision (P x)} l :
  NoDup (f <$> l) -> NoDup (f <$> filter P l).
Proof. intros Hnd. eapply sublist_NoDup; [exact Hnd|]. apply fmap_sublist, sublist_filter. Qed.

Lemma filter_all {A} (P : A -> Prop) `{!forall x, Decision (P x)} (l : list A) : (forall x, x ∈ l -> P x) -> filter P l = l.
Proof.
  intros Hall. induction l as [|a l IH]; [done|]. rewrite filter_cons_True by (apply Hall; by left). f_equal.
  apply IH. intros x Hx. apply Hall. by right.
Qed.

Lemma prune_eq w wid now :
  prune w wid now = with_heads w (<[wid := (retain (mw_ttl w) now (entry_of w wid) (weid_index w)).1]> (heads w))
    (retain (mw_ttl w) now (entry_of w wid) (weid_index w)).2.
Proof. done. Qed.

Lemma entry_prune w wid now x :
  entry_of (prune w wid now) x = filter (fun r => x = wid -> keep (mw_ttl w) now r = true) (entry_of w x).
Proof.
  rewrite prune_eq, entry_set. cbn [retain fst]. case_decide as E.
  - subst. apply list_filter_iff. naive_solver.
  - symmetry. apply filter_all. by intros.
Qed.

Lemma prune_ok w wid now : window_ok w -> window_ok (prune w wid now).
Proof.
  intros Hok. rewrite prune_eq. apply window_ok_shrink; [done| | |].
  - cbn. apply NoDup_fmap_filter, Hok.
  - cbn. intros r [_ ?]%list_elem_of_filter. done.
  - intros e. apply retain_index_removed, Hok.
Qed.

(** *** Retiring heads *)

Lemma remove_head_None l e : remove_head l e = None <-> e ∉ hr_we_epoch_id <$> l.
Proof.
  induction l as [|r l IH]; cbn [remove_head fmap list_fmap].
  { split; [intros _; apply not_elem_of_nil|done]. }
  rewrite not_elem_of_cons. unfold bytes_eqb. case_bool_decide as E.
  - split; [discriminate|]. intros [? _]. congruence.
  - rewrite <- IH. destruct (remove_head l e); cbn; [|naive_solver]. split; [discriminate|]. intros [_ ?]. discriminate.
Qed.

(** Under distinct epochs one head goes. *)
Lemma remove_head_Some l e l' :
  NoDup (hr_we_epoch_id <$> l) -> remove_head l e = Some l' ->
  l' = filter (fun r => hr_we_epoch_id r <> e) l /\ e ∈ hr_we_epoch_id <$> l.
Proof.
  revert l'. induction l as [|r l IH]; cbn [remove_head fmap list_fmap]; intros l' Hnd Hr; [discriminate|].
  apply NoDup_cons in Hnd as [Hr' Hnd]. unfold bytes_eqb in Hr. case_bool_decide as E.
  - injection Hr as ->. subst e. rewrite filter_cons_False by (intros ?; done). split; [|by left].
    symmetry. apply filter_all. intros x Hx He. apply Hr'. rewrite <- He. by apply list_elem_of_fmap_2.
  - destruct (remove_head l e) as [l0|] eqn:E0; [|discriminate]. injection Hr as <-.
    destruct (IH l0 Hnd eq_refl) as [-> Hin]. rewrite filter_cons_True by done. split; [done|by right].
Qed.

Lemma retire_one_ok w wid e entry :
  window_ok w -> remove_head (entry_of w wid) e = Some entry ->
  window_ok (with_heads w (<[wid := entry]> (heads w)) (delete e (weid_index w))).
Proof.
  intros Hok Hr. apply remove_head_Some in Hr as [-> Hin]; [|apply Hok]. apply window_ok_shrink; [done| | |].
  - apply NoDup_fmap_filter, Hok.
  - intros r [_ ?]%list_elem_of_filter. done.
  - intros e'. destruct (decide (e' = e)) as [->|He].
    + rewrite lookup_delete_eq, bool_decide_eq_true_2; [done|]. split; [done|].
      by intros (r & He & [? _]%list_elem_of_filter)%list_elem_of_fmap.
    + rewrite lookup_delete_ne by done. rewrite bool_decide_eq_false_2; [done|].
      intros [(r & Hre & Hr)%list_elem_of_fmap Hout]. apply Hout. rewrite Hre. apply list_elem_of_fmap_2, list_elem_of_filter. by rewrite <- Hre.
Qed.

(** The loop keeps the window consistent even when it fails, and when it
    succeeds the listed epochs were there and are gone. *)
Lemma retire_spec w wid mh :
  window_ok w -> NoDup mh ->
  window_ok (retire w wid mh).1 /\ h_max (retire w wid mh).1 = h_max w /\ mw_ttl (retire w wid mh).1 = mw_ttl w /\
  match (retire w wid mh).2 with
  | Ok _ => Forall (fun e => e ∈ hr_we_epoch_id <$> entry_of w wid) mh /\
      forall x, entry_of (retire w wid mh).1 x = filter (fun r => x = wid -> hr_we_epoch_id r ∉ mh) (entry_of w x)
  | Err e => e = MERGE_INVALID /\ ~ Forall (fun e => e ∈ hr_we_epoch_id <$> entry_of w wid) mh
  end.
Proof.
  revert w. induction mh as [|e mh IH]; intros w Hok Hnd; cbn [retire].
  { cbn. split_and!; [done|done|done|constructor|]. intros x. symmetry. apply filter_all. intros r _ _. apply not_elem_of_nil. }
  apply NoDup_cons in Hnd as [He Hnd]. destruct (remove_head (entry_of w wid) e) as [entry|] eqn:Er; cbn [fst snd].
  2:{ apply remove_head_None in Er. split_and!; [done|done|done|done|]. by intros [? _]%Forall_cons. }
  pose proof (retire_one_ok w wid e entry Hok Er) as Hok1. apply remove_head_Some in Er as [-> Hin]; [|apply Hok].
  specialize (IH _ Hok1 Hnd). set (w1 := with_heads _ _ _) in *.
  assert (forall e', e' ∈ mh -> e' ∈ hr_we_epoch_id <$> entry_of w1 wid <-> e' ∈ hr_we_epoch_id <$> entry_of w wid) as Hiff.
  { intros e' Hin'. unfold w1. rewrite entry_set, decide_True by done. rewrite !list_elem_of_fmap.
    setoid_rewrite list_elem_of_filter. split; [naive_solver|]. intros (r & -> & Hr). exists r. split_and!; try done. by intros <-. }
  destruct IH as (Hok' & Hh & Ht & Hres). split_and!; [done|done|done|]. destruct (retire w1 wid mh).2.
  - destruct Hres as [HF Hent]. split.
    + apply Forall_cons. split; [done|]. rewrite Forall_forall in *. intros e' He'. by apply Hiff, HF.
    + intros x. rewrite Hent. unfold w1. rewrite entry_set. case_decide as E.
      * subst x. rewrite list_filter_filter. apply list_filter_iff. intros r. rewrite not_elem_of_cons. naive_solver.
      * apply list_filter_iff. intros r. split; intros ? ?; done.
  - destruct Hres as [-> Hn]. split; [done|]. intros [_ HF]%Forall_cons. apply Hn. rewrite Forall_forall in *.
    intros e' He'. by apply Hiff, HF.
Qed.

Lemma push_ok w wid r :
  window_ok w -> weid_index w !! hr_we_epoch_id r = None -> window_ok (push w wid r).
Proof.
  intros Hok Hfresh. assert (forall x r', r' ∈ entry_of w x -> hr_we_epoch_id r' <> hr_we_epoch_id r) as Hne.
  { intros x r' Hr' He. assert (weid_index w !! hr_we_epoch_id r = Some x); [|congruence]. apply Hok. by exists r'. }
  unfold push. split.
  - intros x. rewrite entry_set. case_decide; [|apply Hok]. rewrite fmap_app. apply NoDup_app. split_and!; [apply Hok| |apply NoDup_singleton].
    intros e (r' & -> & Hr')%list_elem_of_fmap He%list_elem_of_singleton. by eapply Hne.
  - intros e x. rewrite entry_set. cbn [with_heads weid_index]. destruct (decide (e = hr_we_epoch_id r)) as [->|He].
    + rewrite lookup_insert_eq. split.
      * intros [= <-]. exists r. rewrite decide_True by done. split; [|done]. apply elem_of_app. right. by apply list_elem_of_singleton.
      * intros (r' & Hr' & He). case_decide as E; [by subst|]. by eapply Hne in Hr'.
    + rewrite lookup_insert_ne by done. rewrite (wo_index w Hok). case_decide as E; [subst x|done].
      setoid_rewrite elem_of_app. split; [naive_solver|]. intros (r' & [Hr'| ->%list_elem_of_singleton] & <-); [by exists r'|done].
Qed.

Lemma entry_push w wid r x : entry_of (push w wid r) x = entry_of w x ++ (if decide (x = wid) then [r] else []).
Proof. unfold push. rewrite entry_set. case_decide; [by subst|by rewrite app_nil_r]. Qed.

(** A window without heads may be left out of the map. *)
Lemma drop_empty w wid : entry_of w wid = [] -> forall x, entry_of (with_heads w (delete wid (heads w)) (weid_index w)) x = entry_of w x.
Proof.
  unfold entry_of. cbn. intros He x. destruct (decide (x = wid)) as [->|]; [|by rewrite lookup_delete_ne].
  by rewrite lookup_delete_eq.
Qed.

Lemma window_ok_ext w1 w2 :
  window_ok w1 -> weid_index w2 = weid_index w1 -> (forall x, entry_of w2 x = entry_of w1 x) -> window_ok w2.
Proof. intros [Hn Hi] Hw He. split; intros; rewrite ?Hw, He; auto. Qed.

Lemma strictly_increasing_spec l : strictly_increasing l = true -> NoDup l.
Proof.
  intros H. assert (StronglySorted bytes_lt l) as Hs.
  { apply Sorted_StronglySorted; [intros a b c; apply bytes_lt_trans|]. induction l as [|a [|b l] IH]; [constructor|repeat constructor|].
    cbn in H. bool_prop. constructor; [by apply IH|by constructor]. }
  clear H. induction Hs as [|a l _ IH Ha]; constructor; [|done]. intros Hin. rewrite Forall_forall in Ha. apply Ha in Hin.
  unfold bytes_lt in Hin. by rewrite bytes_cmp_refl in Hin.
Qed.

Lemma fresh_shrink w1 w2 e :
  window_ok w1 -> window_ok w2 -> (forall x r, r ∈ entry_of w2 x -> r ∈ entry_of w1 x) ->
  weid_index w1 !! e = None -> weid_index w2 !! e = None.
Proof.
  intros H1 H2 Hsub He. destruct (weid_index w2 !! e) as [x|] eqn:E; [|done].
  apply (wo_index w2 H2) in E as (r & Hr & <-). assert (weid_index w1 !! hr_we_epoch_id r = Some x); [|congruence].
  apply H1. eauto.
Qed.

Lemma prune_sub w wid now x r : r ∈ entry_of (prune w wid now) x -> r ∈ entry_of w x.
Proof. rewrite entry_prune. by intros [_ ?]%list_elem_of_filter. Qed.

Lemma accept_head_ok w wid record now :
  window_ok w -> weid_index w !! hr_we_epoch_id record = None -> window_ok (accept_head w wid record now).1.
Proof.
  intros Hok Hf. unfold accept_head. case_match; cbn [fst]; [by apply prune_ok|].
  apply push_ok; [by apply prune_ok|]. apply (fresh_shrink w); [done|by apply prune_ok| |done]. intros x r. apply prune_sub.
Qed.

(** *** The whole merge *)

(** The heads of a window that a merge leaves in place. *)
Definition survivors (w : MultiHeadWindow) (wid_old wid_new : bytes) (mh : list bytes) (now : Z) (wid : bytes) : list HeadRecord :=
  filter (fun r => (wid = wid_old \/ wid = wid_new -> keep (mw_ttl w) now r = true) /\
                   (wid = wid_old -> hr_we_epoch_id r ∉ mh)) (entry_of w wid).

(** Every listed head is live in the old window. *)
Definition all_live (w : MultiHeadWindow) (wid_old : bytes) (mh : list bytes) (now : Z) : Prop :=
  forall e, e ∈ mh -> exists r, r ∈ entry_of w wid_old /\ hr_we_epoch_id r = e /\ keep (mw_ttl w) now r = true.

Lemma all_live_pruned w wid mh now :
  Forall (fun e => e ∈ hr_we_epoch_id <$> entry_of (prune w wid now) wid) mh <-> all_live w wid mh now.
Proof.
  rewrite Forall_forall. unfold all_live. rewrite entry_prune. setoid_rewrite list_elem_of_fmap. setoid_rewrite list_elem_of_filter.
  split; intros H e He; destruct (H e He) as (r & Hr); exists r; naive_solver.
Qed.

(** The two windows before the new head is pushed. *)
Definition merge_base (w : MultiHeadWindow) (wid_old wid_new : bytes) (now : Z) : MultiHeadWindow :=
  if bytes_eqb wid_old wid_new then w
  else
    let w := if bool_decide (entry_of w wid_old = []) then with_heads w (delete wid_old (heads w)) (weid_index w) else w in
    prune w wid_new now.

Lemma accept_merge_eq w wid_old wid_new mh record now :
  accept_merge w wid_old wid_new mh record now =
  if negb (is_sorted_unique mh) then (w, Err MERGE_INVALID)
  else match retire (prune w wid_old now) wid_old mh with
       | (w, Err e) => (w, Err e)
       | (w, Ok _) =>
           let w := merge_base w wid_old wid_new now in
           if h_max w <=? len (entry_of w wid_new) then (w, Err WINDOW_FULL)
           else (push w wid_new (with_accept_time record now), Ok tt)
       end.
Proof.
  unfold accept_merge, merge_base. case_match; [done|]. destruct (retire _ _ _) as [w1 [[]|]]; [|done].
  unfold bytes_eqb. case_bool_decide as E; [by subst|done].
Qed.

Lemma merge_base_spec w wid_old wid_new now :
  window_ok w -> let w' := merge_base w wid_old wid_new now in
  window_ok w' /\ h_max w' = h_max w /\
  forall x, entry_of w' x = filter (fun r => x = wid_new -> wid_old <> wid_new -> keep (mw_ttl w) now r = true) (entry_of w x).
Proof.
  intros Hok. unfold merge_base, bytes_eqb. case_bool_decide as E; cbn zeta.
  { split_and!; [done|done|]. intros x. symmetry. apply filter_all. by intros r _ _. }
  set (w1 := if bool_decide _ then _ else _).
  assert (window_ok w1 /\ h_max w1 = h_max w /\ mw_ttl w1 = mw_ttl w /\ forall x, entry_of w1 x = entry_of w x) as (H1 & Hh & Ht & He).
  { unfold w1. case_bool_decide as Eo; [|done]. pose proof (drop_empty w wid_old Eo) as Hd.
    split_and!; [by eapply window_ok_ext|done|done|done]. }
  split_and!; [by apply prune_ok|by rewrite prune_eq|]. intros x. rewrite entry_prune, He, Ht. apply list_filter_iff. naive_solver.
Qed.

Lemma accept_merge_ok w wid_old wid_new mh record now :
  window_ok w -> weid_index w !! hr_we_epoch_id record = None -> window_ok (accept_merge w wid_old wid_new mh record now).1.
Proof.
  intros Hok Hf. rewrite accept_merge_eq. case_match eqn:Es; [done|]. unfold is_sorted_unique in Es. bool_prop.
  destruct (retire_spec (prune w wid_old now) wid_old mh) as (Hr & _ & _ & Hres); [by apply prune_ok|by apply strictly_increasing_spec|].
  destruct (retire _ _ _) as [w1 [[]|]]; cbn [fst snd] in *; [|done]. destruct Hres as [_ Hent].
  destruct (merge_base_spec w1 wid_old wid_new now Hr) as (Hb & _ & Hbe). cbn zeta. case_match; cbn [fst]; [done|].
  apply push_ok; [done|]. apply (fresh_shrink w); [done|done| |done].
  intros x r. rewrite Hbe. intros [_ Hx]%list_elem_of_filter. rewrite Hent in Hx. apply list_elem_of_filter in Hx as [_ Hx].
  by eapply prune_sub.
Qed.

Lemma merge_entries w wid_old wid_new mh now x :
  filter (fun r => x = wid_new -> wid_old <> wid_new -> keep (mw_ttl w) now r = true)
    (filter (fun r => x = wid_old -> hr_we_epoch_id r ∉ mh) (entry_of (prune w wid_old now) x))
  = survivors w wid_old wid_new mh now x.
Proof.
  rewrite entry_prune, !list_filter_filter. apply list_filter_iff. intros r.
  destruct (decide (wid_old = wid_new)); naive_solver.
Qed.

(** *** Expiry of all windows *)

Lemma entry_prune_all w now x : entry_of (prune_all w now) x = filter (fun r => keep (mw_ttl w) now r = true) (entry_of w x).
Proof.
  unfold entry_of, prune_all, with_heads. cbn. rewrite lookup_omap. destruct (heads w !! x) as [l|]; cbn; [|done].
  by destruct (filter _ l).
Qed.

Lemma prune_all_index ttl now ms index e :
  foldl (fun index (p : bytes * list HeadRecord) => (retain ttl now p.2 index).2) index ms !! e =
  if bool_decide (Exists (fun p => Exists (fun r => hr_we_epoch_id r = e /\ keep ttl now r = false) p.2) ms) then None else index !! e.
Proof.
  revert index. induction ms as [|p ms IH]; intros index; cbn [foldl].
  { rewrite bool_decide_eq_false_2; [done|]. by intros ?%Exists_nil. }
  rewrite IH, retain_index. destruct (bool_decide (Exists _ ms)) eqn:E1; bool_prop.
  - by rewrite bool_decide_eq_true_2 by (by right).
  - destruct (bool_decide (Exists _ p.2)) eqn:E2; bool_prop.
    + by rewrite bool_decide_eq_true_2 by (by left).
    + rewrite bool_decide_eq_false_2; [done|]. rewrite Exists_cons. by intros [?|?].
Qed.

Lemma expired_head w now e :
  Exists (fun p : bytes * list HeadRecord => Exists (fun r => hr_we_epoch_id r = e /\ keep (mw_ttl w) now r = false) p.2)
    (map_to_list (heads w)) <->
  exists x r, r ∈ entry_of w x /\ hr_we_epoch_id r = e /\ keep (mw_ttl w) now r = false.
Proof.
  rewrite Exists_exists. setoid_rewrite Exists_exists. unfold entry_of. split.
  - intros ([x l] & Hp%elem_of_map_to_list & r & Hr & He). exists x, r. cbn in Hr. by rewrite Hp.
  - intros (x & r & Hr & He). destruct (heads w !! x) as [l|] eqn:E; [|by apply elem_of_nil in Hr].
    exists (x, l). split; [by apply elem_of_map_to_list|by exists r].
Qed.

Lemma prune_all_ok w now : window_ok w -> window_ok (prune_all w now).
Proof.
  intros Hok. split; intros *; rewrite entry_prune_all; [apply NoDup_fmap_filter, Hok|].
  cbn [prune_all with_heads weid_index]. rewrite prune_all_index. setoid_rewrite list_elem_of_filter.
  case_bool_decide as Hb; [|rewrite (wo_index w Hok)]; rewrite expired_head in Hb.
  - split; [done|]. intros (r & [Hk Hr] & <-). exfalso. destruct Hb as (x & r' & Hr' & He & Hk').
    assert (weid_index w !! hr_we_epoch_id r = Some wid) as H1 by (apply Hok; by exists r).
    assert (weid_index w !! hr_we_epoch_id r = Some x) as H2 by (apply Hok; by exists r').
    assert (x = wid) as -> by congruence. assert (r' = r) as -> by (by eapply (NoDup_fmap_eq hr_we_epoch_id); [apply Hok| | |]). congruence.
  - split; [|naive_solver]. intros (r & Hr & <-). exists r. split_and!; [|done|done].
    destruct (keep (mw_ttl w) now r) eqn:Ek; [done|]. exfalso. apply Hb. by exists wid, r.
Qed.

(** *** Bounds *)

Definition bounded (H : Z) (w : MultiHeadWindow) : Prop := forall wid, len (entry_of w wid) <= H.

Lemma len_filter_le {A} (P : A -> Prop) `{!forall x, Decision (P x)} (l : list A) : len (filter P l) <= len l.
Proof. unfold len. pose proof (length_filter P l). lia. Qed.

Lemma bounded_shrink H w w' :
  bounded H w -> (forall x, len (entry_of w' x) <= len (entry_of w x)) -> bounded H w'.
Proof. intros Hb He x. specialize (Hb x). specialize (He x). lia. Qed.

Lemma len_prune w wid now x : len (entry_of (prune w wid now) x) <= len (entry_of w x).
Proof. rewrite entry_prune. apply len_filter_le. Qed.

Lemma len_remove_head l e l' : remove_head l e = Some l' -> len l' <= len l.
Proof.
  revert l'. induction l as [|r l IH]; cbn [remove_head]; intros l' Hr; [discriminate|]. case_match.
  - injection Hr as <-. unfold len. cbn. lia.
  - destruct (remove_head l e) as [l0|]; [|discriminate]. injection Hr as <-. specialize (IH l0 eq_refl). unfold len in *. cbn. lia.
Qed.

Lemma len_retire w wid mh x : len (entry_of (retire w wid mh).1 x) <= len (entry_of w x).
Proof.
  revert w. induction mh as [|e mh IH]; intros w; cbn [retire]; [done|]. destruct (remove_head _ _) as [entry|] eqn:E; [|done].
  etrans; [apply IH|]. rewrite entry_set. case_decide; [|done]. subst. by apply len_remove_head in E.
Qed.

Lemma bounded_push H w wid r : bounded H w -> len (entry_of w wid) < H -> bounded H (push w wid r).
Proof.
  intros Hb Hlt x. rewrite entry_push, len_app. case_decide; [subst; unfold len at 2; cbn; lia|]. unfold len at 2. cbn. specialize (Hb x). lia.
Qed.

Lemma accept_head_bounded H w wid record now : h_max w <= H -> bounded H w -> bounded H (accept_head w wid record now).1.
Proof.
  intros Hh Hb. assert (bounded H (prune w wid now)) as Hp by (eapply bounded_shrink; [done|apply len_prune]).
  unfold accept_head. case_match eqn:E; cbn [fst]; [done|]. bool_prop. apply bounded_push; [done|]. change (h_max (prune w wid now)) with (h_max w) in E. lia.
Qed.

Lemma accept_merge_bounded H w wid_old wid_new mh record now :
  window_ok w -> h_max w <= H -> bounded H w -> bounded H (accept_merge w wid_old wid_new mh record now).1.
Proof.
  intros Hok Hh Hb. rewrite accept_merge_eq. case_match eqn:Es; [done|]. unfold is_sorted_unique in Es. bool_prop.
  assert (bounded H (retire (prune w wid_old now) wid_old mh).1) as Hr.
  { eapply bounded_shrink; [done|]. intros x. etrans; [apply len_retire|apply len_prune]. }
  destruct (retire_spec (prune w wid_old now) wid_old mh) as (Hrok & Hrh & _ & _); [by apply prune_ok|by apply strictly_increasing_spec|].
  destruct (retire _ _ _) as [w1 [[]|]]; cbn [fst] in *; [|done].
  destruct (merge_base_spec w1 wid_old wid_new now Hrok) as (_ & Hbh & Hbe). cbn zeta.
  assert (bounded H (merge_base w1 wid_old wid_new now)) as Hmb.
  { eapply bounded_shrink; [done|]. intros x. rewrite Hbe. apply len_filter_le. }
  case_match eqn:E; cbn [fst]; [done|]. bool_prop. apply bounded_push; [done|]. change (h_max (prune w wid_old now)) with (h_max w) in Hrh. lia.
Qed.

Lemma accept_head_h_max w wid record now : h_max (accept_head w wid record now).1 = h_max w.
Proof. unfold accept_head. by case_match. Qed.

Lemma accept_merge_h_max w wid_old wid_new mh record now :
  window_ok w -> h_max (accept_merge w wid_old wid_new mh record now).1 = h_max w.
Proof.
  intros Hok. rewrite accept_merge_eq. case_match eqn:Es; [done|]. unfold is_sorted_unique in Es. bool_prop.
  destruct (retire_spec (prune w wid_old now) wid_old mh) as (Hrok & Hrh & _ & _); [by apply prune_ok|by apply strictly_increasing_spec|].
  destruct (retire _ _ _) as [w1 [[]|]]; cbn [fst] in *; [|done].
  destruct (merge_base_spec w1 wid_old wid_new now Hrok) as (_ & Hbh & _). cbn zeta. case_match; cbn [fst push with_heads h_max]; by rewrite Hbh.
Qed.

End WindowLemmas.

(** *** Runs *)

(** One operation on the window.  The epoch of a new head is not in the
    window: it is a digest of the group, the parent root and the seed
    context. *)
Inductive window_step (H : Z) : MultiHeadWindow -> MultiHeadWindow -> Prop :=
  | ws_head w wid record now :
      weid_index w !! hr_we_epoch_id record = None -> window_step H w (Mhw.accept_head w wid record now).1
  | ws_merge w wid_old wid_new mh record now :
      weid_index w !! hr_we_epoch_id record = None -> window_step H w (Mhw.accept_merge w wid_old wid_new mh record now).1
  | ws_prune w now : window_step H w (Mhw.prune_all w now)
  | ws_ttl w ttl now : window_step H w (Mhw.set_ttl w ttl now)
  | ws_h_max w h : h <= H -> window_step H w (Mhw.set_h_max w h).

(** The window stays consistent and bounded.  Along every run of head and
    merge acceptances (also the refused ones), prunings and changes of its
    limits, no epoch has two heads in a window, [find_head_window] names the
    window of a head exactly when the head is live there, and no window holds
    more heads than the largest limit that was set. *)
Theorem window_invariant H h ttl w :
  0 <= h <= H -> rtc (window_step H) (Mhw.new h ttl) w ->
  window_ok w /\ forall wid, Mhw.active_heads w wid <= H.
Proof.
  intros Hh Hrun. assert (window_ok w /\ h_max w <= H /\ bounded H w) as (Hok & _ & Hb); [|by split].
  eapply (rtc_ind_r (fun w => window_ok w /\ h_max w <= H /\ bounded H w)); [|clear w Hrun|exact Hrun].
  - assert (forall x, Mhw.entry_of (Mhw.new h ttl) x = []) as He by (intros x; unfold Mhw.entry_of; cbn; by rewrite lookup_empty).
    split_and!; [split|cbn; lia|intros x; rewrite He; unfold len; cbn; lia].
    + intros x. rewrite He. constructor.
    + intros e x. rewrite He. cbn. rewrite lookup_empty. split; [done|]. by intros (r & Hr%elem_of_nil & _).
  - intros w1 w2 _ Hs (Hok & Hle & Hb). destruct Hs.
    + split_and!; [by apply accept_head_ok|by rewrite accept_head_h_max|by apply accept_head_bounded].
    + split_and!; [by apply accept_merge_ok|by rewrite accept_merge_h_max|by apply accept_merge_bounded].
    + split_and!; [by apply prune_all_ok|done|]. eapply bounded_shrink; [done|]. intros x. rewrite entry_prune_all. apply len_filter_le.
    + split_and!; [|done|].
      * apply prune_all_ok. eapply window_ok_ext; [exact Hok|done|done].
      * eapply bounded_shrink; [done|]. intros x. unfold Mhw.set_ttl. rewrite entry_prune_all. apply len_filter_le.
    + split_and!; [by eapply window_ok_ext|done|done].
Qed.

(** A merge retires exactly the heads it lists.  It succeeds if and only if
    the list is sorted without repetitions, every listed head is live in the
    old window and the new window has room; then every window holds its live
    heads without the listed ones, in order, the new window followed by the
    merge's own head.  Otherwise the error tells which condition failed. *)
Theorem accept_merge_correct w wid_old wid_new mh record now :
  window_ok w ->
  let valid := Mhw.is_sorted_unique mh = true /\ all_live w wid_old mh now in
  let room := len (survivors w wid_old wid_new mh now wid_new) < h_max w in
  match Mhw.accept_merge w wid_old wid_new mh record now with
  | (w', Ok _) => valid /\ room /\
      forall wid, Mhw.entry_of w' wid = survivors w wid_old wid_new mh now wid ++
        (if decide (wid = wid_new) then [with_accept_time record now] else [])
  | (_, Err e) => (e = MERGE_INVALID /\ ~ valid) \/ (e = WINDOW_FULL /\ valid /\ ~ room)
  end.
Proof.
  intros Hok valid room. unfold valid, room. rewrite accept_merge_eq. destruct (Mhw.is_sorted_unique mh) eqn:Es; cbn [negb].
  2:{ left. split; [done|]. by intros [? _]. }
  pose proof Es as Es'. unfold Mhw.is_sorted_unique in Es'. bool_prop.
  destruct (retire_spec (Mhw.prune w wid_old now) wid_old mh) as (Hrok & Hrh & Hrt & Hres); [by apply prune_ok|by apply strictly_increasing_spec|].
  change (mw_ttl (Mhw.prune w wid_old now)) with (mw_ttl w) in Hrt. change (h_max (Mhw.prune w wid_old now)) with (h_max w) in Hrh.
  destruct (Mhw.retire _ _ _) as [w1 [[]|e]]; cbn [fst snd] in *; rewrite all_live_pruned in Hres.
  2:{ left. destruct Hres as [-> Hn]. split; [done|]. by intros [_ ?]. }
  destruct Hres as [Hlive Hent]. destruct (merge_base_spec w1 wid_old wid_new now Hrok) as (_ & Hbh & Hbe). cbn zeta in *.
  assert (forall x, Mhw.entry_of (merge_base w1 wid_old wid_new now) x = survivors w wid_old wid_new mh now x) as He.
  { intros x. rewrite Hbe, Hent, Hrt. apply merge_entries. }
  rewrite Hbh, Hrh, He. destruct (h_max w <=? _) eqn:E; bool_prop.
  - right. split_and!; [done|done|done|lia].
  - split_and!; [done|done|done|]. intros x. by rewrite entry_push, He.
Qed.

(** ** The replay guard keeps what it saw *)

Inductive RhoOp :=
  | ORecord (gid parent_root rho_commit : bytes) (now : Z)
  | OClear (gid parent_root : bytes)
  | OPrune (now : Z).

Definition rho_step (g : RhoReplayGuard) (op : RhoOp) : RhoReplayGuard :=
  match op with
  | ORecord gid root rho now => (Rho.record g gid root rho now).1
  | OClear gid root => Rho.clear_for g gid root
  | OPrune now => Rho.prune_all g now
  end.

(** What may happen between a record and its replay at time [t]: records and
    prunings up to [t], and tear-downs of other windows. *)
Definition rho_op_before (t : Z) (gid root : bytes) (op : RhoOp) : Prop :=
  match op with
  | ORecord _ _ _ now | OPrune now => now <= t
  | OClear gid' root' => len root' = 32 /\ (gid', root') <> (gid, root)
  end.

(** Keys of distinct windows differ, although group identifiers are not
    length-prefixed. *)
Lemma make_key_inj gid1 root1 gid2 root2 :
  len root1 = 32 -> len root2 = 32 -> Rho.make_key gid1 root1 = Rho.make_key gid2 root2 -> gid1 = gid2 /\ root1 = root2.
Proof.
  unfold len, Rho.make_key. intros H1 H2 H. apply app_inj_2 in H as [-> H].
  - by injection H.
  - cbn. lia.
Qed.

Definition guarded (g : RhoReplayGuard) (key rho : bytes) (t0 : Z) : Prop :=
  exists d, rg_entries g !! key = Some d /\ (rho, t0) ∈ d.

Lemma guarded_retain ttl now t t0 rho d :
  now <= t -> Time.live ttl t t0 = true -> (rho, t0) ∈ d -> (rho, t0) ∈ Rho.retain ttl now d.
Proof. intros Hn Hl Hd. apply list_elem_of_filter. split; [cbn; by eapply Time.live_earlier|done]. Qed.

Lemma record_entry g gid root rho now :
  exists d, (Rho.record g gid root rho now).1 = Rho.set_entry g (Rho.make_key gid root) d /\
    forall e, e ∈ Rho.retain (rg_ttl g) now (default [] (rg_entries g !! Rho.make_key gid root)) -> e ∈ d.
Proof.
  unfold Rho.record. case_match; [by eexists|]. case_match; [by eexists|]. eexists. split; [done|].
  intros e He. apply elem_of_app. by left.
Qed.

Lemma guarded_step g op gid root rho t0 t :
  len root = 32 -> rho_op_before t gid root op -> Time.live (rg_ttl g) t t0 = true ->
  guarded g (Rho.make_key gid root) rho t0 ->
  guarded (rho_step g op) (Rho.make_key gid root) rho t0 /\ rg_ttl (rho_step g op) = rg_ttl g.
Proof.
  intros Hroot Hop Hlive (d & Hd & Hin). destruct op as [gid' root' rho' now|gid' root'|now]; cbn [rho_step rho_op_before] in *.
  - destruct (record_entry g gid' root' rho' now) as (d' & -> & Hsub). split; [|done]. unfold guarded. cbn [Rho.set_entry rg_entries].
    destruct (decide (Rho.make_key gid' root' = Rho.make_key gid root)) as [E|E].
    + rewrite E, lookup_insert_eq. exists d'. split; [done|]. apply Hsub. rewrite E, Hd. cbn. by eapply guarded_retain.
    + rewrite lookup_insert_ne by done. by exists d.
  - split; [|done]. exists d. split; [|done]. cbn. rewrite lookup_delete_ne; [done|]. intros E.
    destruct Hop as [Hl Hne]. apply make_key_inj in E as [-> ->]; done.
  - split; [|done]. unfold guarded. cbn. rewrite lookup_omap, Hd. cbn. pose proof (guarded_retain (rg_ttl g) now t t0 rho d Hop Hlive Hin) as Hr.
    destruct (Rho.retain (rg_ttl g) now d) as [|e l]; [by apply elem_of_nil in Hr|]. by eexists.
Qed.

Lemma guarded_run ops : forall g gid root rho t0 t,
  len root = 32 -> Forall (rho_op_before t gid root) ops -> Time.live (rg_ttl g) t t0 = true ->
  guarded g (Rho.make_key gid root) rho t0 ->
  guarded (foldl rho_step g ops) (Rho.make_key gid root) rho t0 /\ rg_ttl (foldl rho_step g ops) = rg_ttl g.
Proof.
  induction ops as [|op ops IH]; intros g gid root rho t0 t Hroot HF Hl Hg; cbn [foldl]; [done|].
  apply Forall_cons in HF as [Hop HF]. destruct (guarded_step g op gid root rho t0 t Hroot Hop Hl Hg) as [Hg' Ht].
  destruct (IH (rho_step g op) gid root rho t0 t) as [H1 H2]; [done|done|by rewrite Ht|done|]. by rewrite H2, Ht.
Qed.

(** The replay guard cannot be flushed.  A [rho_commit] recorded for a
    group and parent root is refused there until its lifetime ends, whatever
    other commitments are recorded, pruned or cleared for other windows in the
    meantime. *)
Theorem rho_replay_refused g gid root rho t0 g1 ops t :
  len root = 32 -> Rho.record g gid root rho t0 = (g1, true) ->
  Forall (rho_op_before t gid root) ops -> Time.live (rg_ttl g) t t0 = true ->
  (Rho.record (foldl rho_step g1 ops) gid root rho t).2 = false.
Proof.
  intros Hroot Hrec HF Hl. assert (guarded g1 (Rho.make_key gid root) rho t0 /\ rg_ttl g1 = rg_ttl g) as [Hg Ht].
  { unfold Rho.record in Hrec. do 2 (case_match; [discriminate|]). injection Hrec as <-. split; [|done].
    eexists. split; [apply lookup_insert_eq|]. apply elem_of_app. right. by apply list_elem_of_singleton. }
  destruct (guarded_run ops g1 gid root rho t0 t Hroot HF) as [(d & Hd & Hin) Ht']; [by rewrite Ht|done|].
  unfold Rho.record. cbn zeta. rewrite Hd. case_match eqn:Ex; [done|]. exfalso. apply not_true_iff_false in Ex. apply Ex.
  apply existsb_exists. exists (rho, t0). split; [|apply bytes_eqb_refl]. apply list_elem_of_In.
  rewrite Ht', Ht. by eapply guarded_retain.
Qed.

(** ** The receiver's cache is bounded *)

Section ReceiverLemmas.
  Context (iter : gmap bytes CacheEntry -> list (bytes * CacheEntry)).
  Context (Hiter : forall m, iter m ≡ₚ map_to_list m).

Lemma oldest_spec l :
  match oldest l with
  | None => l = []
  | Some p => p ∈ l /\ forall q, q ∈ l -> ce_accept_time p.2 <= ce_accept_time q.2
  end.
Proof using.
  unfold oldest. assert (forall l best, match foldl older (Some best) l with
    | None => False
    | Some p => (p = best \/ p ∈ l) /\ ce_accept_time p.2 <= ce_accept_time best.2 /\ forall q, q ∈ l -> ce_accept_time p.2 <= ce_accept_time q.2
    end) as Hgen.
  { clear l. induction l as [|a l IH]; intros best; cbn [foldl].
    - split_and!; [by left|done|]. by intros q ?%elem_of_nil.
    - assert (exists b, older (Some best) a = Some b /\ (b = a \/ b = best) /\
        ce_accept_time b.2 <= ce_accept_time a.2 /\ ce_accept_time b.2 <= ce_accept_time best.2) as (b & -> & Hb & Ha & Hbest).
      { unfold older. case_match eqn:E; bool_prop; eexists; split_and!; eauto; lia. }
      specialize (IH b). destruct (foldl _ _ l) as [p|]; [|done]. destruct IH as (Hp & Hle & Hall). split_and!.
      + destruct Hp as [->|Hp]; [|by right; right]. destruct Hb as [->| ->]; [by right; left|by left].
      + lia.
      + intros q [->|Hq]%elem_of_cons; [lia|by apply Hall]. }
  destruct l as [|a l]; [done|]. cbn [foldl older]. specialize (Hgen l a). destruct (foldl _ _ l) as [p|]; [|done].
  destruct Hgen as (Hp & Hle & Hall). split; [destruct Hp as [->|Hp]; [by left|by right]|].
  intros q [->|Hq]%elem_of_cons; [done|by apply Hall].
Qed.

Lemma evict_spec fuel max m :
  (size m <= fuel)%nat -> 0 <= max ->
  let m' := evict iter fuel max m in
  Z.of_nat (size m') <= max /\ m' ⊆ m /\
  forall a x b y, m !! a = Some x -> m' !! a = None -> m' !! b = Some y -> ce_accept_time x <= ce_accept_time y.
Proof using Hiter.
  revert m. induction fuel as [|fuel IH]; intros m Hf Hm; cbn [evict].
  { split_and!; [lia|done|]. intros a x b y Ha Hna. congruence. }
  case_match eqn:E; bool_prop.
  2:{ split_and!; [done|done|]. intros a x b y Ha Hna. congruence. }
  pose proof (oldest_spec (iter m)) as Ho. destruct (oldest (iter m)) as [[weid e]|].
  2:{ exfalso. assert (length (iter m) = size m) by (rewrite (Hiter m); apply length_map_to_list). rewrite Ho in *. cbn in *. lia. }
  destruct Ho as [Hin Hold]. rewrite (Hiter m), elem_of_map_to_list in Hin.
  assert (size (delete weid m) = pred (size m)) as Hs by (by apply map_size_delete_Some).
  destruct (IH (delete weid m)) as (H1 & H2 & H3); [lia|done|]. split_and!; [done|etrans; [done|apply delete_subseteq]|].
  intros a x b y Ha Hna Hb. destruct (decide (a = weid)) as [->|Hne].
  - assert (m !! b = Some y) as Hby.
    { eapply lookup_weaken in Hb; [|exact H2]. by apply lookup_delete_Some in Hb as [_ ?]. }
    assert (x = e) as -> by congruence. apply (Hold (b, y)). by rewrite (Hiter m), elem_of_map_to_list.
  - apply (H3 a x b y); [by rewrite lookup_delete_ne|done|done].
Qed.

Definition retired_by (a : Accepted) : list bytes := match ac_kind a with NonMerge => [] | Merge retired => retired end.

(** What an acceptance leaves in the cache before the limit is enforced. *)
Definition refreshed (c : ReceiverCache) (a : Accepted) (weid : bytes) : option CacheEntry :=
  if decide (weid = ac_we_epoch_id a) then
    Some {| ce_parent_root := pp_parent_root (ac_pivot_parity a); ce_wid := ac_wid a;
            ce_pivot_parity := ac_pivot_parity a; ce_accept_time := ac_accept_time a |}
  else if decide (weid ∈ retired_by a) then None
  else match rc_entries c !! weid with
       | Some e => if Time.live (rc_ttl c) (ac_accept_time a) (ce_accept_time e) then Some e else None
       | None => None
       end.

Lemma lookup_foldl_delete (m : gmap bytes CacheEntry) l k :
  foldl (fun m head => delete head m) m l !! k = if decide (k ∈ l) then None else m !! k.
Proof using.
  revert m. induction l as [|a l IH]; intros m; cbn [foldl]; [by rewrite decide_False by apply not_elem_of_nil|]. rewrite IH.
  destruct (decide (k = a)) as [->|Hne].
  - rewrite (decide_True (P := a ∈ a :: l)) by (by left). case_decide; [done|]. apply lookup_delete_eq.
  - rewrite lookup_delete_ne by done. destruct (decide (k ∈ l)).
    + by rewrite decide_True by (by right).
    + by rewrite decide_False by (by rewrite elem_of_cons; intros [?|?]).
Qed.

Lemma apply_acceptance_eq c a :
  exists m, apply_acceptance iter c a = enforce_max_entries iter (with_entries c m) /\ forall k, m !! k = refreshed c a k.
Proof using.
  assert (forall k, filter (fun p : bytes * CacheEntry => Time.live (rc_ttl c) (ac_accept_time a) (ce_accept_time p.2) = true) (rc_entries c) !! k
    = match rc_entries c !! k with
      | Some e => if Time.live (rc_ttl c) (ac_accept_time a) (ce_accept_time e) then Some e else None
      | None => None end) as Hf.
  { intros k. rewrite map_lookup_filter. destruct (rc_entries c !! k) as [e|]; cbn; [|done].
    destruct (Time.live _ _ _) eqn:E; [by rewrite option_guard_True|by rewrite option_guard_False by (intros ?; congruence)]. }
  unfold apply_acceptance, refreshed, retired_by. destruct (ac_kind a) as [|retired]; eexists; (split; [reflexivity|]); intros k; cbn.
  - case_decide as E; [subst; apply lookup_insert_eq|]. rewrite lookup_insert_ne by done. rewrite decide_False by apply not_elem_of_nil. apply Hf.
  - case_decide as E; [subst; apply lookup_insert_eq|]. rewrite lookup_insert_ne by done. rewrite lookup_foldl_delete. case_decide; [done|]. apply Hf.
Qed.

(** The receiver's cache is bounded and forgets the oldest heads first.
    After an acceptance it holds at most [max_entries] heads, each one that was
    live and not retired by a merge or the accepted one itself; a head that had
    to go is no younger than any head that stayed, whatever the iteration
    order of the hash map. *)
Theorem receiver_cache_bounded c a :
  0 <= rc_max_entries c ->
  let c' := apply_acceptance iter c a in
  Z.of_nat (size (rc_entries c')) <= rc_max_entries c /\
  (forall weid e, rc_entries c' !! weid = Some e -> refreshed c a weid = Some e) /\
  forall out x kept y, refreshed c a out = Some x -> rc_entries c' !! out = None -> rc_entries c' !! kept = Some y ->
    ce_accept_time x <= ce_accept_time y.
Proof using Hiter.
  intros Hmax c'. unfold c'. destruct (apply_acceptance_eq c a) as (m & -> & Hm). unfold enforce_max_entries.
  cbn [with_entries rc_max_entries rc_entries]. case_match eqn:E; bool_prop; cbn [with_entries rc_entries].
  - split_and!; [rewrite map_size_empty; lia|intros weid e; by rewrite lookup_empty|intros out x kept y _ _; by rewrite lookup_empty].
  - destruct (evict_spec (size m) (rc_max_entries c) m) as (H1 & H2 & H3); [done|done|]. split_and!; [done| |].
    + intros weid e He. rewrite <- Hm. by eapply lookup_weaken.
    + intros out x kept y Hout Hno Hk. rewrite <- Hm in Hout. by eapply H3.
Qed.

End ReceiverLemmas.

(** ** Skipped verifications were done before *)

Section VckSafety.
  Context {HpProof : Type} `{!EqDecision HpProof}.

Inductive VckOp :=
  | VShould (key : bytes) (proof : HpProof) (now : Z)
  | VRecordHp (key : bytes) (proof : HpProof) (now : Z)
  | VTrySkip (key : bytes) (join since anchor payload len now : Z)
  | VRecordSrx (key : bytes) (join since anchor payload now : Z)
  | VSetTtl (ttl now : Z).

Definition vck_step (c : VckCache HpProof) (op : VckOp) : VckCache HpProof :=
  match op with
  | VShould key proof now => (should_verify_hp c key proof now).1
  | VRecordHp key proof now => record_hp c key proof now
  | VTrySkip key j s a p l now => (try_skip_srx c key j s a p l now).1
  | VRecordSrx key j s a p now => record_srx c key j s a p now
  | VSetTtl ttl now => vck_set_ttl c ttl now
  end.

(** Every cached proof satisfies [R]. *)
Definition cached_in (R : bytes -> HpProof -> Prop) (c : VckCache HpProof) : Prop :=
  forall key e proof, vc_entries c !! key = Some e -> ve_hp_proof e = Some proof -> R key proof.

Lemma cached_in_prune R c now : cached_in R c -> cached_in R (vck_prune c now).
Proof using. intros H key e proof He Hp. cbn in He. apply map_lookup_filter_Some in He as [He _]. by eapply H. Qed.

Lemma cached_in_insert R c key e :
  cached_in R c -> (forall proof, ve_hp_proof e = Some proof -> R key proof) -> cached_in R (vck_with c (<[key := e]> (vc_entries c))).
Proof using. intros H He k e' proof Hk Hp. cbn in Hk. apply lookup_insert_Some in Hk as [[<- <-]|[_ Hk]]; [by apply He|by eapply H]. Qed.

Lemma cached_in_step (R : bytes -> HpProof -> Prop) c op :
  cached_in R c -> (forall key proof now, op = VRecordHp key proof now -> R key proof) -> cached_in R (vck_step c op).
Proof.
  intros H Hop. destruct op as [key proof now|key proof now|key j s a p l now|key j s a p now|ttl now]; cbn [vck_step].
  - pose proof (cached_in_prune R c now H) as Hp. unfold should_verify_hp. case_match; [|done]. case_match; cbn [fst]; [done|].
    intros k e q Hk Hq. cbn in Hk. apply lookup_delete_Some in Hk as [_ Hk]. by eapply Hp.
  - apply cached_in_insert; [by apply cached_in_prune|]. cbn. intros q [= <-]. by eapply Hop.
  - pose proof (cached_in_prune R c now H) as Hp. unfold try_skip_srx. repeat (case_match; cbn [fst]; try done).
  - pose proof (cached_in_prune R c now H) as Hp. apply cached_in_insert; [done|]. cbn. intros q Hq. case_match; [|done]. by eapply Hp.
  - by apply cached_in_prune.
Qed.

(** The cache of verified proofs is sound.  Whatever was recorded, pruned
    or replaced before, a proof is skipped for a key only if the same proof was
    recorded for that key. *)
Theorem vck_skip_sound ttl ops key proof now :
  (should_verify_hp (foldl vck_step (vck_new ttl) ops) key proof now).2 = false ->
  exists t, VRecordHp key proof t ∈ ops.
Proof.
  intros H. assert (forall ops c (R : bytes -> HpProof -> Prop), cached_in R c ->
    cached_in (fun k p => R k p \/ exists t, VRecordHp k p t ∈ ops) (foldl vck_step c ops)) as Hrun.
  { clear. induction ops as [|op ops IH]; intros c R Hc; cbn [foldl].
    { intros k e p He Hp. left. by eapply Hc. }
    assert (cached_in (fun k p => R k p \/ exists t, op = VRecordHp k p t) (vck_step c op)) as Hc1.
    { apply cached_in_step; [|eauto]. intros k e p He Hp. left. by eapply Hc. }
    intros k e p He Hp. destruct (IH _ _ Hc1 k e p He Hp) as [[?|[t ->]]|[t Ht]]; [by left|right; exists t; by left|right; exists t; by right]. }
  unfold should_verify_hp in H. destruct (vc_entries (vck_prune _ now) !! key) as [e|] eqn:He; [|done].
  case_bool_decide as Hp; [|done]. cbn in He. apply map_lookup_filter_Some in He as [He _].
  destruct (Hrun ops (vck_new ttl) (fun _ _ => False)) with key e proof as [[]|?]; [|done|done|done].
  intros k e' p' He'. cbn in He'. by rewrite lookup_empty in He'.
Qed.

End VckSafety.

Arguments VckOp : clear implicits.

(** ** Witnesses *)

Definition sample_head (weid : Z) : HeadRecord := {|
  hr_we_epoch_id := [weid]; hr_msphf_hp_commit := []; hr_seed_ctx_hash := []; hr_rho_commit := []; hr_seed_commit := [];
  hr_xk_hash := []; hr_join_delta_root := []; hr_revoked_since_root := []; hr_revoked_root := []; hr_accept_seq := 0;
  hr_accept_time := 0 |}.

Definition window_one : MultiHeadWindow := (Mhw.accept_head (Mhw.new 2 (Time.from_secs 5)) [1] (sample_head 10) 0).1.
Definition window_two : MultiHeadWindow := (Mhw.accept_head window_one [1] (sample_head 11) 1).1.

Lemma window_two_run : rtc (window_step 2) (Mhw.new 2 (Time.from_secs 5)) window_two.
Proof.
  eapply rtc_l; [apply (ws_head 2 (Mhw.new 2 (Time.from_secs 5)) [1] (sample_head 10) 0); reflexivity|].
  eapply rtc_l; [apply (ws_head 2 window_one [1] (sample_head 11) 1); vm_compute; reflexivity|]. apply rtc_refl.
Qed.

Lemma window_invariant_witness : Mhw.active_heads window_two [1] <= 2.
Proof. destruct (window_invariant 2 2 (Time.from_secs 5) window_two ltac:(lia) window_two_run) as [_ H]. apply H. Defined.

Lemma window_two_ok : window_ok window_two.
Proof.
  apply accept_head_ok; [|vm_compute; reflexivity]. apply accept_head_ok; [|reflexivity].
  assert (forall x, Mhw.entry_of (Mhw.new 2 (Time.from_secs 5)) x = []) as He by (intros x; unfold Mhw.entry_of; cbn; by rewrite lookup_empty).
  split; [intros x; rewrite He; constructor|]. intros e x. rewrite He. cbn. rewrite lookup_empty. split; [done|].
  by intros (r & Hr%elem_of_nil & _).
Qed.

Lemma accept_merge_correct_witness :
  match Mhw.accept_merge window_two [1] [2] [[10]; [11]] (sample_head 20) 2 with
  | (w', Ok _) => Mhw.entry_of w' [2] = [with_accept_time (sample_head 20) 2]
  | (_, Err _) => False
  end.
Proof.
  pose proof (accept_merge_correct window_two [1] [2] [[10]; [11]] (sample_head 20) 2 window_two_ok) as H. cbv zeta in H.
  destruct (Mhw.accept_merge _ _ _ _ _ _) as [w' [[]|e]] eqn:E.
  - destruct H as (_ & _ & He). rewrite He. vm_compute. reflexivity.
  - exfalso. assert (is_ok (Mhw.accept_merge window_two [1] [2] [[10]; [11]] (sample_head 20) 2).2 = true) as Hok by (vm_compute; reflexivity).
    by rewrite E in Hok.
Defined.

Lemma rho_replay_refused_witness :
  (Rho.record (foldl rho_step (Rho.record (Rho.new 4 (Time.from_secs 9)) [1] zero32 [7] 0).1 [ORecord [1] zero32 [8] 1; OPrune 2])
     [1] zero32 [7] 3).2 = false.
Proof.
  apply (rho_replay_refused (Rho.new 4 (Time.from_secs 9)) [1] zero32 [7] 0 _ _ 3).
  - reflexivity.
  - vm_compute. reflexivity.
  - repeat (apply Forall_cons; split; [cbn; lia|]). constructor.
  - vm_compute. reflexivity.
Defined.

Definition sample_parity : PivotParity := {|
  pp_gid := []; pp_cat := []; pp_parent_root := []; pp_we_epoch_id := []; pp_rho_commit := []; pp_seed_ctx_hash := [];
  pp_seed_commit := []; pp_hp_commit := []; pp_xk_hash := []; pp_join_delta_root := []; pp_revoked_since_root := [];
  pp_revoked_root := []; pp_accept_seq := 0; pp_crs_id := []; pp_params_id := []; pp_policy_version := "1"; pp_proof_mode := "mode";
  pp_vrf_id := "vrf"; pp_vrf_proof := []; pp_vrf_public := []; pp_mask_a := []; pp_mask_b := []; pp_fs_capss := [];
  pp_proofs_commit := []; pp_srx_commit := None; pp_srx_root_sw := None; pp_is_join := true; pp_hp_envelope := [];
  pp_fs_epoch_commit := None; pp_fs_ec := None; pp_fs_dev_commit := None |}.

Definition sample_accepted : Accepted := {|
  ac_kind := NonMerge; ac_we_epoch_id := [1]; ac_wid := [2]; ac_accept_time := 0; ac_pivot_parity := sample_parity |}.

Lemma receiver_cache_bounded_witness :
  Z.of_nat (size (rc_entries (apply_acceptance map_to_list (with_limits (Time.from_secs 60) 1) sample_accepted))) <= 1.
Proof.
  destruct (receiver_cache_bounded map_to_list (fun m => reflexivity _) (with_limits (Time.from_secs 60) 1) sample_accepted ltac:(cbn; lia)) as [H _].
  exact H.
Defined.

Lemma vck_skip_sound_witness : exists t : Z, (VRecordHp [1] [5] t : VckOp bytes) ∈ [VRecordHp [1] [5] 0].
Proof. apply (vck_skip_sound (HpProof := bytes) (Time.from_secs 60) [VRecordHp [1] [5] 0] [1] [5] 1). vm_compute. reflexivity. Defined.
