(* ===== verification/AnchorSeed.v ===== *)
(** * Identities of an anchor

    Models [crates/anchor-seed/src/lib.rs] (the seed context of a header and
    the commitments over it), [crates/msphf-core/src/instance.rs] (the public
    instance [X_k] and its hash) and the identifiers of
    [crates/msphf-orchestrator/src/lib.rs] and [accept/mod.rs] that are digests
    of header data: the epoch id, the window id, the leaf id, the rho
    commitment, the proofs commitment, the verification cache key.  The
    theorems say what each identifier pins down. *)

From stdpp Require Import sorting.
From S2P Require Import Prelude Hash Errors Header Window.

(** ** The seed context *)

Definition VOLATILE_KEYS : list Z := [11; 16; 43; 46; 89; 91].

Definition FORBIDDEN_SEED_CTX_KEYS : list Z :=
  [93; 94; 95; 96; 97; 98; 99; 100; 102; 107; 108; 109; 116; 118; 119; 125; 120; 121; 122; 123; 124; 130; 131; 132; 133;
   134; 135; 136; 137; 138; 144; 145; 146; 147; 148; 154; 155; 156; 170; 171; 172].

(** Whether a key is part of the seed context. *)
Definition seed_ctx_key (key : Z) : bool :=
  negb (bool_decide (key ∈ VOLATILE_KEYS)) && negb (bool_decide (key ∈ FORBIDDEN_SEED_CTX_KEYS)).

Definition key_le (a b : Z * Value) : Prop := a.1 <= b.1.

#[global] Instance key_le_dec : RelDecision key_le.
Proof. intros a b. unfold key_le. apply _. Defined.

(** A [BTreeMap] serialises in the order of its keys. *)
Definition header_value (hdr : header) : Value :=
  VMap ((fun kv => (VInteger kv.1, kv.2)) <$> merge_sort key_le (map_to_list hdr)).

(** ** Anchors *)

Record AnchorInstanceParts := {
  gid : bytes;
  cat : bytes;
  tswe_salt : bytes;
  parent_root : bytes;
  join_delta_root : bytes;
  revoked_since_prev_root : bytes;
  revoked_root : bytes;
  pox_r_commit : option bytes
}.

(** [AnchorInstance]: the parts, the epoch id, the header context and the commitment of the projective key. *)
Record AnchorInstance := {
  ai_parts : AnchorInstanceParts;
  ai_we_epoch_id : bytes;
  ai_anchor_hdr_ctx : bytes;
  ai_msphf_hp_commit : option bytes
}.

Inductive LeafIdMode := PerGroup | Global.

Section Identities.
  Context {HS : Hashing}.

Definition build_anchor_seed_ctx (hdr : header) : bytes :=
  cbor (header_value (filter (fun kv => seed_ctx_key kv.1 = true) hdr)).

Definition compute_seed_ctx_hash (ctx : bytes) : result string bytes := h_l "seedctx" (VBytes ctx).

Definition compute_seed_commit (ctx gid cat we_epoch_id : bytes) : result string bytes :=
  h_l "msphf/kgen/seed"
    (VStruct [("anchor_seed_ctx", VBytes ctx); ("gid", VBytes gid); ("cat", VBytes cat); ("we_epoch_id", VBytes we_epoch_id)]).

Definition compute_seed_bundle_commit (ctx rho_commit gid cat parent_root : bytes) : result string bytes :=
  h_l "msphf/seed/bundle"
    (VStruct [("anchor_seed_ctx", VBytes ctx); ("rho_commit", VBytes rho_commit); ("gid", VBytes gid); ("cat", VBytes cat);
              ("parent_root", VBytes parent_root)]).

Definition derive_seed_artifacts (hdr : header) (gid cat we_epoch_id : bytes) : result string (bytes * bytes * bytes) :=
  let ctx := build_anchor_seed_ctx hdr in
  ctx_hash ← compute_seed_ctx_hash ctx;
  seed_commit ← compute_seed_commit ctx gid cat we_epoch_id;
  Ok (ctx, ctx_hash, seed_commit).

Definition as_cbor_tuple (a : AnchorInstance) : Value :=
  VArray [VBytes (gid (ai_parts a)); VBytes (cat (ai_parts a)); VBytes (ai_we_epoch_id a); VBytes (ai_anchor_hdr_ctx a);
    VBytes (tswe_salt (ai_parts a)); VBytes (parent_root (ai_parts a)); VBytes (join_delta_root (ai_parts a));
    VBytes (revoked_since_prev_root (ai_parts a)); VBytes (revoked_root (ai_parts a));
    match pox_r_commit (ai_parts a) with Some b => VBytes b | None => VNull end].

Definition to_cbor_bytes (a : AnchorInstance) : bytes := cbor (as_cbor_tuple a).

Definition xk_hash (a : AnchorInstance) : result string bytes := h_l "msphf/xk" (as_cbor_tuple a).

Definition tswe_salt_hash (gid parent_root : bytes) : result string bytes :=
  h_l "tswe/salt" (VStruct [("gid", VBytes gid); ("parent_root", VBytes parent_root)]).

(** The struct that both the window id and the epoch id hash. *)
Definition epoch_preimage (gid parent_root seed_ctx_hash : bytes) : Value :=
  VStruct [("gid", VBytes gid); ("parent_root", VBytes parent_root); ("seed_ctx_hash", VBytes seed_ctx_hash)].

Definition compute_window_id (gid parent_root seed_ctx_hash : bytes) : result string bytes :=
  h_l "mhw/window" (epoch_preimage gid parent_root seed_ctx_hash).

Definition derive_we_epoch_id (gid parent_root seed_ctx_hash : bytes) : result string bytes :=
  h_l "weid" (epoch_preimage gid parent_root seed_ctx_hash).

Definition compute_leaf_id (mode : LeafIdMode) (gid : bytes) (alg : string) (pk : bytes) : result string bytes :=
  match mode with
  | PerGroup => h_l "leaf-id" (VArray [VBytes gid; VText alg; VBytes pk])
  | Global => h_l "leaf-id" (VArray [VText alg; VBytes pk])
  end.

Definition hash_bytes_with_label (label : string) (b : bytes) : result string bytes := h_l label (VBytes b).

Definition derive_rho_commit_from_pop (pop_sig xk_hash : bytes) : result string bytes :=
  rho_raw ← h_l "msphf/rho/der" (VStruct [("pop_sig", VBytes pop_sig); ("xk_hash", VBytes xk_hash)]);
  hash_bytes_with_label "msphf/kgen/rho" rho_raw.

Definition compute_proofs_commit_bytes (vrf_pi fs_capss : bytes) (srx_root_sw srx_smallwood : option bytes)
  : result string bytes :=
  fail_if (negb (Bool.eqb (bool_decide (is_Some srx_root_sw)) (bool_decide (is_Some srx_smallwood))))
    "srx_root_sw and srx_smallwood must be both present or both absent" ;;
  h_l "msphf/proofs"
    (VArray (VBytes <$> ([vrf_pi; fs_capss] ++ option_list srx_root_sw ++ option_list srx_smallwood))).

Definition derive_srx_empty_root_sw (profile : string) : result string bytes := h_l "srx/root_sw/empty" (VText profile).

(** The next link of a device's chain. *)
Definition link_preimage (device_pk : bytes) (fs_ec : Z) (prev_commit : bytes) (barrier_version : Z)
  (barrier_update_digest : bytes) : Value :=
  VStruct [("device_pk", VBytes device_pk); ("fs_ec", VInteger fs_ec); ("prev_commit", VBytes prev_commit);
           ("barrier_version", VInteger barrier_version); ("barrier_update_digest", VBytes barrier_update_digest)].

Definition dev_chain_commit (device_pk : bytes) (fs_ec : Z) (prev_commit : bytes) (barrier_version : Z)
  (barrier_update_digest : bytes) : result string bytes :=
  h_l "fs/dev/chain/v2" (link_preimage device_pk fs_ec prev_commit barrier_version barrier_update_digest).

(** *** The verification cache key *)

(** The key's preimage; [version_field] is the name of its last field. *)
Definition vck_preimage (version_field : string) (xk_hash seed_commit rho_commit hp_commit crs_id params_id srx_commit
  proofs_commit : bytes) (proof_mode vrf_id : string) (version : Z) : Value :=
  VStruct [("xk_hash", VBytes xk_hash); ("seed_commit", VBytes seed_commit); ("rho_commit", VBytes rho_commit);
    ("hp_commit", VBytes hp_commit); ("crs_id", VBytes crs_id); ("params_id", VBytes params_id);
    ("srx_commit", VBytes srx_commit); ("proofs_commit", VBytes proofs_commit); ("proof_mode", VText proof_mode);
    ("vrf_id", VText vrf_id); (version_field, VInteger version)].

(** A commitment of 32 bytes, zero when the header has none. *)
Definition optional_commit (hdr : header) (key : Z) (freeze : FreezeError) : result AcceptanceError bytes :=
  match hdr !! key with Some v => value_bytes32 v freeze | None => Ok zero32 end.

Definition policy_version_field (hdr : header) (key : Z) : result AcceptanceError Z :=
  match hdr !! key with
  | Some (VInteger int) => freeze_on (u64_try_from int) FREEZE_FS_POLICY_VERSION_UNSUPPORTED
  | _ => afreeze FREEZE_FS_POLICY_VERSION_UNSUPPORTED
  end.

(** The forward secrecy policy version, which a legacy policy version must repeat. *)
Definition fs_policy_version_of (hdr : header) : result AcceptanceError Z :=
  version ← policy_version_field hdr HDR_FS_POLICY_VERSION;
  match hdr !! HDR_POLICY_VERSION with
  | None => Ok version
  | Some _ =>
      legacy ← policy_version_field hdr HDR_POLICY_VERSION;
      afreeze_if (negb (legacy =? version)) FREEZE_FS_POLICY_VERSION_UNSUPPORTED ;; Ok version
  end.

(** The preimage that [compute_vck_key] reads off a header. *)
Definition vck_fields (xk_hash seed_commit rho_commit hp_commit : bytes) (hdr : header) : result AcceptanceError Value :=
  crs_id ← header_value_bytes hdr HDR_CRS_ID FREEZE_MSPHF_CRS_INVALID;
  params_id ← header_value_bytes hdr HDR_PARAMS_ID FREEZE_PARAMS_ID_INVALID;
  srx_commit ← optional_commit hdr HDR_SRX_COMMIT FREEZE_SRX_INVALID;
  proofs_commit ← optional_commit hdr HDR_PROOFS_COMMIT FREEZE_CAPSS_INVALID;
  proof_mode ← header_string_or_freeze hdr HDR_PROOF_MODE;
  vrf_id ← header_string_or_freeze hdr HDR_VRF_ID;
  fs_policy_version ← fs_policy_version_of hdr;
  Ok (vck_preimage "fs_policy_version" xk_hash seed_commit rho_commit hp_commit crs_id params_id srx_commit proofs_commit
    proof_mode vrf_id fs_policy_version).

Definition compute_vck_key (xk_hash seed_commit rho_commit hp_commit : bytes) (hdr : header) : result AcceptanceError bytes :=
  preimage ← vck_fields xk_hash seed_commit rho_commit hp_commit hdr;
  acc_hash (h_l "msphf/vck" preimage).

(** The header fields a pivot remembers. *)
Definition parity_header (p : PivotParity) (version : Z) : header :=
  let map : header :=
    {[ HDR_CRS_ID := VBytes (pp_crs_id p); HDR_PARAMS_ID := VBytes (pp_params_id p);
       HDR_PROOFS_COMMIT := VBytes (pp_proofs_commit p); HDR_PROOF_MODE := VText (pp_proof_mode p);
       HDR_VRF_ID := VText (pp_vrf_id p); HDR_FS_POLICY_VERSION := VInteger version ]} in
  match pp_srx_commit p with Some commit => <[HDR_SRX_COMMIT := VBytes commit]> map | None => map end.

Definition compute_vck_from_parity (p : PivotParity) : result AcceptanceError bytes :=
  version ← freeze_on (parse_u64 (pp_policy_version p)) FREEZE_FS_POLICY_VERSION_UNSUPPORTED;
  compute_vck_key (pp_xk_hash p) (pp_seed_commit p) (pp_rho_commit p) (pp_hp_commit p) (parity_header p version).

(** [PivotParity::compute_vck] *)
Definition compute_vck (p : PivotParity) : result MsphfError bytes :=
  version ← ok_or (parse_u64 (pp_policy_version p)) (MsphfInvalidInput "pivot policy_version must be uint");
  map_err MsphfInvalidInput
    (h_l "msphf/vck" (vck_preimage "policy_version" (pp_xk_hash p) (pp_seed_commit p) (pp_rho_commit p) (pp_hp_commit p)
      (pp_crs_id p) (pp_params_id p) (default zero32 (pp_srx_commit p)) (pp_proofs_commit p) (pp_proof_mode p) (pp_vrf_id p)
      version)).

End Identities.

#[global] Arguments build_anchor_seed_ctx {HS} hdr : simpl never.
#[global] Arguments dev_chain_commit {HS} device_pk fs_ec prev_commit barrier_version barrier_update_digest : simpl never.

(** ** What the identifiers determine *)

Lemma header_value_inj h1 h2 : header_value h1 = header_value h2 -> h1 = h2.
Proof.
  intros H. injection H as H. apply list_fmap_eq_inj in H; [|by intros [] [] [= -> ->]].
  apply map_to_list_inj. by rewrite <- (merge_sort_Permutation key_le (map_to_list h1)), H, merge_sort_Permutation.
Qed.

Section Binding.
  Context {HS : Hashing} {HL : HashingLaws HS}.

Lemma seed_ctx_inj h1 h2 :
  build_anchor_seed_ctx h1 = build_anchor_seed_ctx h2 -> forall k, seed_ctx_key k = true -> h1 !! k = h2 !! k.
Proof using HL.
  intros H k Hk. apply cbor_inj, header_value_inj in H.
  assert (forall h : header, filter (fun kv : Z * Value => seed_ctx_key kv.1 = true) h !! k = h !! k) as Hf.
  { intros h. destruct (h !! k) as [v|] eqn:E.
    - by apply map_lookup_filter_Some_2.
    - by apply map_lookup_filter_None_2; left. }
  by rewrite <- (Hf h1), H, Hf.
Qed.

(** [S] below is any set that holds the inputs hashed for the data at hand. *)
Lemma seed_ctx_hash_inj (S : string -> Value -> Prop) h1 h2 s :
  S "seedctx" (VBytes (build_anchor_seed_ctx h1)) -> S "seedctx" (VBytes (build_anchor_seed_ctx h2)) ->
  compute_seed_ctx_hash (build_anchor_seed_ctx h1) = Ok s -> compute_seed_ctx_hash (build_anchor_seed_ctx h2) = Ok s ->
  (forall k, seed_ctx_key k = true -> h1 !! k = h2 !! k) \/ hl_collision S.
Proof using HL.
  intros S1 S2 H1 H2. destruct (h_l_inj S _ _ _ _ _ H1 H2 S1 S2) as [[_ H]|H]; [left|by right].
  injection H as H. by apply seed_ctx_inj.
Qed.

Lemma we_epoch_id_inj (S : string -> Value -> Prop) g1 r1 s1 g2 r2 s2 e :
  S "weid" (epoch_preimage g1 r1 s1) -> S "weid" (epoch_preimage g2 r2 s2) ->
  derive_we_epoch_id g1 r1 s1 = Ok e -> derive_we_epoch_id g2 r2 s2 = Ok e ->
  (g1 = g2 /\ r1 = r2 /\ s1 = s2) \/ hl_collision S.
Proof using HL.
  intros S1 S2 H1 H2. destruct (h_l_inj S _ _ _ _ _ H1 H2 S1 S2) as [[_ H]|H]; [left|by right]. by injection H.
Qed.

Lemma dev_chain_commit_inj (S : string -> Value -> Prop) pk1 e1 p1 v1 d1 pk2 e2 p2 v2 d2 c :
  S "fs/dev/chain/v2" (link_preimage pk1 e1 p1 v1 d1) -> S "fs/dev/chain/v2" (link_preimage pk2 e2 p2 v2 d2) ->
  dev_chain_commit pk1 e1 p1 v1 d1 = Ok c -> dev_chain_commit pk2 e2 p2 v2 d2 = Ok c ->
  (pk1 = pk2 /\ e1 = e2 /\ p1 = p2 /\ v1 = v2 /\ d1 = d2) \/ hl_collision S.
Proof using HL.
  intros S1 S2 H1 H2. destruct (h_l_inj S _ _ _ _ _ H1 H2 S1 S2) as [[_ H]|H]; [left|by right]. by injection H as -> -> -> -> ->.
Qed.

(** What is hashed for the epoch id of an anchor whose seed context has the hash [s]. *)
Definition epoch_inputs (hdr : header) (g r s : bytes) : list (string * Value) :=
  [("seedctx", VBytes (build_anchor_seed_ctx hdr)); ("weid", epoch_preimage g r s)].

(** An epoch id pins down the group, the parent root and every header field
    that is not explicitly excluded from the seed context: two anchors with the
    same epoch id agree on all of them, unless two of the four inputs hashed for
    the two ids collide. *)
Theorem epoch_id_binds_header h1 h2 g1 g2 r1 r2 s1 s2 e :
  compute_seed_ctx_hash (build_anchor_seed_ctx h1) = Ok s1 -> derive_we_epoch_id g1 r1 s1 = Ok e ->
  compute_seed_ctx_hash (build_anchor_seed_ctx h2) = Ok s2 -> derive_we_epoch_id g2 r2 s2 = Ok e ->
  (g1 = g2 /\ r1 = r2 /\ forall k, seed_ctx_key k = true -> h1 !! k = h2 !! k) \/
  hl_collision (listed (epoch_inputs h1 g1 r1 s1 ++ epoch_inputs h2 g2 r2 s2)).
Proof using HL.
  intros Hs1 H1 Hs2 H2. pose (S := listed (epoch_inputs h1 g1 r1 s1 ++ epoch_inputs h2 g2 r2 s2)).
  assert (forall p, p ∈ epoch_inputs h1 g1 r1 s1 ++ epoch_inputs h2 g2 r2 s2 -> S p.1 p.2) as HS' by (by intros []).
  destruct (we_epoch_id_inj S g1 r1 s1 g2 r2 s2 e) as [(-> & -> & ->)|]; [by apply (HS' (_, _)); set_solver..|done|done| |by right].
  destruct (seed_ctx_hash_inj S h1 h2 s2) as [?|]; [by apply (HS' (_, _)); set_solver..|done|done|by left|by right].
Qed.

Lemma optional_commit_lookup (hdr : header) key freeze v b :
  hdr !! key = Some v -> optional_commit hdr key freeze = Ok b -> v = VBytes b.
Proof.
  intros Hv. unfold optional_commit. rewrite Hv. unfold value_bytes32, bytes32, freeze_on.
  destruct v; cbn; try done. case_if; cbn; [|done]. by intros [= ->].
Qed.

Lemma compute_vck_key_fields xk seed rho hp hdr k :
  compute_vck_key xk seed rho hp hdr = Ok k -> exists v, vck_fields xk seed rho hp hdr = Ok v /\ h_l "msphf/vck" v = Ok k.
Proof. unfold compute_vck_key. intros H. ok_step H as v E. exists v. split; [done|]. by destruct (h_l _ _); cbn in H; [injection H as ->|]. Qed.

(** The key the verifier computes for a pivot is the digest of the same fields as the pivot's own
    key, under another field name. *)
Lemma vck_fields_version xk seed rho hp hdr v :
  vck_fields xk seed rho hp hdr = Ok v -> exists crs params srx proofs mode vrf version,
    v = vck_preimage "fs_policy_version" xk seed rho hp crs params srx proofs mode vrf version.
Proof.
  unfold vck_fields. intros H. ok_step H as crs E1. ok_step H as params E2. ok_step H as srx E3. ok_step H as proofs E4.
  ok_step H as mode E5. ok_step H as vrf E6. ok_step H as version E7. injection H as <-. by do 7 eexists.
Qed.

(** What is hashed for the two keys of a pivot. *)
Definition vck_inputs (p : PivotParity) : list (string * Value) :=
  match parse_u64 (pp_policy_version p) with
  | Some version =>
      ("msphf/vck", vck_preimage "policy_version" (pp_xk_hash p) (pp_seed_commit p) (pp_rho_commit p) (pp_hp_commit p) (pp_crs_id p)
        (pp_params_id p) (default zero32 (pp_srx_commit p)) (pp_proofs_commit p) (pp_proof_mode p) (pp_vrf_id p) version)
      :: match vck_fields (pp_xk_hash p) (pp_seed_commit p) (pp_rho_commit p) (pp_hp_commit p) (parity_header p version) with
         | Ok v => [("msphf/vck", v)]
         | Err _ => []
         end
  | None => []
  end.

(** C38: The key a pivot computes for itself when a merge is built is never the key
    the verifier computes for it, unless the two preimages collide: they name
    the policy version differently. *)
Theorem rollup_vck_mismatch p built checked :
  compute_vck p = Ok built -> compute_vck_from_parity p = Ok checked -> built <> checked \/ hl_collision (listed (vck_inputs p)).
Proof using HL.
  unfold compute_vck, compute_vck_from_parity, vck_inputs. intros Hb Hc. ok_step Hb as version E. ok_step Hc as version' E'.
  destruct (parse_u64 _) as [u|]; [|done]. cbn in E, E'. injection E as ->. injection E' as <-.
  destruct (compute_vck_key_fields _ _ _ _ _ _ Hc) as (v & Hv & Hk). rewrite Hv.
  destruct (h_l "msphf/vck" _) as [b|] eqn:Hh in Hb; [|done]. injection Hb as <-.
  destruct (decide (b = checked)) as [->|]; [|by left]. right.
  apply vck_fields_version in Hv as (? & ? & ? & ? & ? & ? & ? & ->).
  match goal with |- hl_collision ?T => destruct (h_l_inj T _ _ _ _ _ Hh Hk) as [[_ H]|H] end; [| |by injection H|exact H];
    unfold listed; set_solver.
Qed.

End Binding.
