(* ===== verification/RlweHash.v ===== *)
(** * The projective hash of an anchor

    Models [crates/msphf-rlwe/src/lib.rs] with [h_branch_bytes], [xof_reader] and
    [xof32] of [crates/msphf-core/src/hash.rs].  [hash_full] computes the digest
    of a branch from its seed and publishes the artifact; [hash_proj] computes it
    from the artifact and a witness.  The rejection loops of [expand_a] make
    [hash_full] partial: [Running] says that the buffers given to it were not
    enough. *)

From S2P Require Import Prelude Hash Errors RlweArith RlweNtt RlwePoly RlweSample Merkle Header AnchorSeed.

(** ** Data *)

Inductive RlweError :=
  | Failed (e : MsphfError)
  | Running.

Definition invalid_input {A} (msg : string) : result RlweError A := Err (Failed (MsphfInvalidInput msg)).

(** [if b { return Err(MsphfError::invalid_input(msg)) }] *)
Definition reject_if (b : bool) (msg : string) : result RlweError unit := fail_if b (Failed (MsphfInvalidInput msg)).

Inductive WitnessMode := ModeA | ModeB.

#[global] Instance WitnessMode_eq_dec : EqDecision WitnessMode.
Proof. solve_decision. Defined.

Record ValidatedPop := { vp_public_key : bytes; vp_signature : bytes; vp_message : option bytes }.

Record ValidatedWitness := {
  vw_mode : WitnessMode;
  vw_membership : ValidatedMembership;
  vw_nonmembership : option ValidatedNonMembership;
  vw_pop : option ValidatedPop
}.

Record LinDescOwned := { ld_label : string; ld_len : Z; ld_modulus : Z }.
Record HpFlagsOwned := { poly_encoding : string; coef_endian : string; ntt_order : string }.

Record HpBranchOwned := {
  hp_k : Z;
  hp_n : Z;
  hp_q : Z;
  hp_a_seed : bytes;
  hp_b_vec : bytes;
  hp_u_vec : bytes;
  hp_v_vec : bytes;
  hp_salt_rlwe : bytes;
  hp_lin_desc : LinDescOwned;
  hp_ctx_tag : bytes;
  hp_flags : HpFlagsOwned
}.

(** How serde lays the artifact out. *)
Definition hp_value (h : HpBranchOwned) : Value :=
  VStruct [("k", VInteger (hp_k h)); ("n", VInteger (hp_n h)); ("q", VInteger (hp_q h)); ("a_seed", VBytes (hp_a_seed h));
    ("b_vec", VBytes (hp_b_vec h)); ("u_vec", VBytes (hp_u_vec h)); ("v_vec", VBytes (hp_v_vec h));
    ("salt_rlwe", VBytes (hp_salt_rlwe h));
    ("lin_desc", VArray [VText (ld_label (hp_lin_desc h)); VInteger (ld_len (hp_lin_desc h)); VInteger (ld_modulus (hp_lin_desc h))]);
    ("ctx_tag", VBytes (hp_ctx_tag h));
    ("flags", VStruct [("poly_encoding", VText (poly_encoding (hp_flags h))); ("coef_endian", VText (coef_endian (hp_flags h)));
                       ("ntt_order", VText (ntt_order (hp_flags h)))])].

(** [ciborium::de::from_reader] at the type of the artifact. *)
Class HpCodec := { decode_hp : bytes -> option HpBranchOwned }.
Class HpCodecLaws (HS : Hashing) (HC : HpCodec) := {
  decode_hp_value : forall h, decode_hp (cbor (hp_value h)) = Some h;
  hp_value_nonempty : forall h, cbor (hp_value h) <> []
}.

Record CapssBranchWitness := { branch_artifact : bytes; cw_ctx_tag : bytes }.
Record CapssWitnessBundle := { branch_a : CapssBranchWitness; branch_b : CapssBranchWitness }.
Record FullHashResult := { y_full : bytes; projective : bytes; capss_witness : CapssBranchWitness }.

Record ComputedBranch := {
  cb_a_seed : bytes;
  cb_salt : bytes;
  cb_ctx_tag : bytes;
  cb_b_ntt : PolyVec.t;
  cb_u_ntt : PolyVec.t;
  cb_v_ntt : PolyVec.t
}.

Definition LIN_DESC_LABEL : string := "root32-identity".
Definition POLY_LE_BYTES : Z := N * 2.
Definition POLYVEC_LE_BYTES : Z := K * POLY_LE_BYTES.
Definition CITY_G_XOF_PREFIX : bytes := str_bytes "city-g|xof|".
Definition CITY_G_XOF_DERIVE_CTX : string := "city-g|xof32|v1".

(** ** Vectors of polynomials *)

(** A row of [mat_vec_mul]: the products are summed in the transformed domain,
    the error is added in the coefficient domain. *)
Definition row_product (row : list Poly.t) (vec error_poly : list Poly.t) (i : nat) : Poly.t :=
  match zip row vec with
  | [] => Poly.zero
  | (m, v) :: rest =>
      let acc := foldl (fun acc mv => Poly.add_assign acc (Poly.pointwise_mul mv.1 mv.2)) (Poly.pointwise_mul m v) rest in
      Poly.to_ntt (Poly.add_assign (Poly.from_ntt acc) (default Poly.zero (error_poly !! i)))
  end.

Definition mat_vec_mul (matrix : Matrix) (vec_ntt error : PolyVec.t) : PolyVec.t :=
  {| PolyVec.polys := imap (fun i row => row_product row (PolyVec.polys vec_ntt) (PolyVec.polys error) i) matrix |}.

Definition component_wise_mul (b_ntt r_ntt error : PolyVec.t) : PolyVec.t :=
  {| PolyVec.polys :=
       zip_with (fun br e => Poly.to_ntt (Poly.add_assign (Poly.from_ntt (Poly.pointwise_mul br.1 br.2)) e))
         (zip (PolyVec.polys b_ntt) (PolyVec.polys r_ntt)) (PolyVec.polys error) |}.

(** The residue of a coefficient in two bytes, low byte first. *)
Definition coeff_le_bytes (coeff : Z) : bytes :=
  let val := Z.rem coeff Q in
  let val := if val <? 0 then val + Q else val in
  [Z.land val 255; Z.shiftr val 8].

Definition polyvec_to_le_bytes (pv : PolyVec.t) : bytes :=
  concat (map (fun p => concat (map coeff_le_bytes (Poly.coeffs p))) (PolyVec.polys pv)).

(** ** Differences of roots *)

Definition slice_to_array (slice : bytes) : result RlweError bytes :=
  if len slice =? 32 then Ok slice else invalid_input "root length".

Definition map_root_to_field (root : bytes) : list Z := map (fun byte => byte mod Q) root.

Definition sub_field_vectors (u g : list Z) : list Z :=
  zip_with (fun x y => let diff := Z.rem (x - y) Q in if diff <? 0 then diff + Q else diff) u g.

Definition compute_delta (branch : string) (instance : AnchorInstance) (witness : option ValidatedWitness)
    : result RlweError (list Z) :=
  match witness with
  | Some w =>
      expected_mode ←
        (if String.eqb branch "A" then Ok ModeA else if String.eqb branch "B" then Ok ModeB
         else invalid_input "unknown branch");
      reject_if (negb (bool_decide (vw_mode w = expected_mode))) "witness mode/branch mismatch" ;;
      let u := map_root_to_field (vm_root (vw_membership w)) in
      let g_root := if String.eqb branch "A" then parent_root (ai_parts instance) else join_delta_root (ai_parts instance) in
      g_root ← slice_to_array g_root;
      Ok (sub_field_vectors u (map_root_to_field g_root))
  | None => Ok (replicate 32 0)
  end.

Definition delta_bytes (delta : list Z) : bytes := concat (map (fun v => [Z.land v 255; Z.shiftr v 8]) delta).

Definition xor_bytes (a b : bytes) : bytes := zip_with Z.lxor a b.

(** ** Hashing *)

Section Rlwe.
  Context {HS : Hashing} {XF : Xof} {HC : HpCodec}.

Definition hash_labelled (label : string) (v : Value) : result RlweError bytes :=
  map_err (fun e => Failed (MsphfInvalidInput e)) (h_l label v).

Definition h_branch_bytes (label branch crs_id params_id : string) (args : list bytes) : result RlweError bytes :=
  hash_labelled label (VStruct [("branch", VText branch); ("crs", VText crs_id); ("params", VText params_id);
    ("args", VArray (VBytes <$> args))]).

(** The stream [xof_reader] reads; the assertion on NUL bytes holds for every
    label of the code, all of which are constants. *)
Definition xof_reader (ctx : string) (seed : bytes) : Z -> Z :=
  blake3_xof CITY_G_XOF_DERIVE_CTX (CITY_G_XOF_PREFIX ++ str_bytes ctx ++ [0] ++ seed).

Definition xof32 (ctx : string) (seed : bytes) : bytes := read_stream (xof_reader ctx seed) 0 32.

Definition linmask_value (delta : list Z) : Value :=
  VStruct [("desc", VText LIN_DESC_LABEL); ("delta", VBytes (delta_bytes delta))].

Definition linmask_from_delta (delta : list Z) : result RlweError bytes :=
  hash_labelled "hps/linmask" (linmask_value delta).

Definition linmask_zero : result RlweError bytes := linmask_from_delta (replicate 32 0).

Definition compute_ctx_tag (xk_hash : bytes) (crs_id params_id : string) : result RlweError bytes :=
  hash_labelled "hps/ctx" (VStruct [("xk_hash", VBytes xk_hash); ("crs", VText crs_id); ("params", VText params_id)]).

(** Polynomial [i] of the vector takes the [i]-th 256 bytes of the stream. *)
Definition sample_polyvec (seed : bytes) (label : string) : result RlweError PolyVec.t :=
  let reader := xof_reader label seed in
  polys ← map_res (fun i =>
            coeffs ← map_err (fun e => Failed (MsphfInvalidInput e))
                       (cbd_eta2_poly (read_stream reader (i * (POLY_LE_BYTES / 2)) (POLY_LE_BYTES / 2)));
            Ok {| Poly.coeffs := map barrett_reduce coeffs |}) (zrange 0 K);
  Ok {| PolyVec.polys := polys |}.

Definition compute_rlwe_components (fuel : nat) (seed : bytes) (crs_id params_id : string) (xk_hash : bytes)
    : result RlweError ComputedBranch :=
  let a_seed := xof32 "hps/A-seed" seed in
  let salt := xof32 "hps/salt" seed in
  matrix ← ok_or (expand_a fuel a_seed) Running;
  let a_matrix := map (map Poly.to_ntt) matrix in
  e_b ← sample_polyvec seed "hps/eB";
  e1 ← sample_polyvec seed "hps/e1";
  e2 ← sample_polyvec seed "hps/e2";
  s ← sample_polyvec seed "hps/s";
  let s_ntt := PolyVec.ntt s in
  r ← sample_polyvec seed "hps/r";
  let r_ntt := PolyVec.ntt r in
  let b_ntt := mat_vec_mul a_matrix s_ntt e_b in
  let u_ntt := mat_vec_mul a_matrix r_ntt e1 in
  let v_ntt := component_wise_mul b_ntt r_ntt e2 in
  ctx_tag ← compute_ctx_tag xk_hash crs_id params_id;
  Ok {| cb_a_seed := a_seed; cb_salt := salt; cb_ctx_tag := ctx_tag; cb_b_ntt := b_ntt; cb_u_ntt := u_ntt; cb_v_ntt := v_ntt |}.

Definition build_branch_artifact (fuel : nat) (seed : bytes) (crs_id params_id : string) (xk_hash : bytes)
    : result RlweError HpBranchOwned :=
  computed ← compute_rlwe_components fuel seed crs_id params_id xk_hash;
  Ok {| hp_k := K; hp_n := N; hp_q := Q; hp_a_seed := cb_a_seed computed;
        hp_b_vec := polyvec_to_le_bytes (cb_b_ntt computed); hp_u_vec := polyvec_to_le_bytes (cb_u_ntt computed);
        hp_v_vec := polyvec_to_le_bytes (cb_v_ntt computed); hp_salt_rlwe := cb_salt computed;
        hp_lin_desc := {| ld_label := LIN_DESC_LABEL; ld_len := 32; ld_modulus := 3329 |};
        hp_ctx_tag := cb_ctx_tag computed;
        hp_flags := {| poly_encoding := "ntt-le16"; coef_endian := "le16"; ntt_order := "bitrev" |} |}.

Definition hp_validate (h : HpBranchOwned) : result RlweError unit :=
  reject_if (negb (hp_k h =? K)) "hp_k mismatch" ;;
  reject_if (negb (hp_n h =? N)) "hp_n mismatch" ;;
  reject_if (negb (i16 (hp_q h) =? Q)) "hp_q mismatch" ;;
  reject_if (negb (len (hp_a_seed h) =? 32)) "A_seed length" ;;
  reject_if (negb (len (hp_salt_rlwe h) =? 32)) "salt length" ;;
  reject_if (negb (len (hp_ctx_tag h) =? 32)) "ctx_tag length" ;;
  reject_if (negb (len (hp_b_vec h) =? POLYVEC_LE_BYTES) || negb (len (hp_u_vec h) =? POLYVEC_LE_BYTES)
             || negb (len (hp_v_vec h) =? POLYVEC_LE_BYTES)) "polyvec byte length" ;;
  reject_if (negb (String.eqb (ld_label (hp_lin_desc h)) LIN_DESC_LABEL) || negb (ld_len (hp_lin_desc h) =? 32)
             || negb (ld_modulus (hp_lin_desc h) =? 3329)) "lin_desc mismatch" ;;
  reject_if (negb (String.eqb (poly_encoding (hp_flags h)) "ntt-le16") || negb (String.eqb (coef_endian (hp_flags h)) "le16")
             || negb (String.eqb (ntt_order (hp_flags h)) "bitrev")) "hp flags mismatch".

(** [RlweProjectiveParams::decode] *)
Definition params_decode (hp_bytes : bytes) : result RlweError HpBranchOwned :=
  reject_if (len hp_bytes =? 0) "hp bytes not initialised" ;;
  ok_or (decode_hp hp_bytes) (Failed (MsphfSerialization "hp")).

Definition hash_full (fuel : nat) (sk_seed : bytes) (branch crs_id params_id : string) (xk_hash : bytes)
    : result RlweError FullHashResult :=
  artifacts ← build_branch_artifact fuel sk_seed crs_id params_id xk_hash;
  let hp_bytes := cbor (hp_value artifacts) in
  digest ← h_branch_bytes "msphf/hash" branch crs_id params_id [hp_ctx_tag artifacts; hp_u_vec artifacts; hp_v_vec artifacts];
  linmask ← linmask_zero;
  Ok {| y_full := xor_bytes digest linmask; projective := hp_bytes;
        capss_witness := {| branch_artifact := hp_bytes; cw_ctx_tag := hp_ctx_tag artifacts |} |}.

Definition hash_proj (params : bytes) (branch crs_id params_id : string) (instance : AnchorInstance)
    (witness : option ValidatedWitness) : result RlweError bytes :=
  hp ← params_decode params;
  hp_validate hp ;;
  base ← h_branch_bytes "msphf/hash" branch crs_id params_id [hp_ctx_tag hp; hp_u_vec hp; hp_v_vec hp];
  delta ← compute_delta branch instance witness;
  linmask ← linmask_from_delta delta;
  Ok (xor_bytes base linmask).

(** ** Replaying the key generation *)

Definition derive_drbg_seed (seed_commit rho_raw xk_hash seed_ctx_hash : bytes) : result RlweError bytes :=
  hash_labelled "msphf/drbg" (VStruct [("seed_commit", VBytes seed_commit); ("rho", VBytes rho_raw); ("xk_hash", VBytes xk_hash);
    ("seed_ctx_hash", VBytes seed_ctx_hash)]).

Definition derive_rho_raw_from_pop (pop_sig xk_hash : bytes) : result RlweError bytes :=
  hash_labelled "msphf/rho/der" (VStruct [("pop_sig", VBytes pop_sig); ("xk_hash", VBytes xk_hash)]).

Record CapssStrictInputs := {
  cs_crs_id : string;
  cs_params_id : string;
  cs_seed_commit : bytes;
  cs_seed_ctx_hash : bytes;
  cs_xk_hash : bytes;
  cs_rho_commit : bytes;
  cs_pop_alg : string;
  cs_pop_pk : bytes;
  cs_anchor : AnchorInstance;
  cs_leaf_id : bytes;
  cs_pop_sig : bytes
}.

Definition recompute_capss_witness (fuel : nat) (inputs : CapssStrictInputs) : result RlweError CapssWitnessBundle :=
  anchor_xk_hash ← map_err (fun e => Failed (MsphfInvalidInput e)) (xk_hash (cs_anchor inputs));
  fail_if (negb (bytes_eqb anchor_xk_hash (cs_xk_hash inputs))) (Failed (MsphfWitnessReplayMismatch XkHash)) ;;
  rho_raw ← derive_rho_raw_from_pop (cs_pop_sig inputs) (cs_xk_hash inputs);
  rho_commit ← hash_labelled "msphf/kgen/rho" (VBytes rho_raw);
  fail_if (negb (bytes_eqb rho_commit (cs_rho_commit inputs))) (Failed (MsphfWitnessReplayMismatch RhoCommit)) ;;
  seed_drbg ← derive_drbg_seed (cs_seed_commit inputs) rho_raw (cs_xk_hash inputs) (cs_seed_ctx_hash inputs);
  seed_a ← hash_labelled "msphf/kgen/A" (VBytes seed_drbg);
  seed_b ← hash_labelled "msphf/kgen/B" (VBytes seed_drbg);
  full_a ← hash_full fuel seed_a "A" (cs_crs_id inputs) (cs_params_id inputs) (cs_xk_hash inputs);
  full_b ← hash_full fuel seed_b "B" (cs_crs_id inputs) (cs_params_id inputs) (cs_xk_hash inputs);
  Ok {| branch_a := capss_witness full_a; branch_b := capss_witness full_b |}.

End Rlwe.

(** ** Sizes *)

Lemma len_ntt a : len (ntt a) = len a.
Proof.
  rewrite ntt_as_layers. generalize FWD_LENS. intros ls. revert a. induction ls as [|l ls IH]; intros a; cbn [foldl]; [done|].
  by rewrite IH, fwd_layer_len.
Qed.

Lemma len_map {A B} (f : A -> B) l : len (map f l) = len l.
Proof. unfold len. by rewrite length_map. Qed.

Lemma len_inv_layers ls a : len (foldl (fun a l => inv_layer l a) a ls) = len a.
Proof. revert a. induction ls as [|l ls IH]; intros a; cbn [foldl]; [done|]. by rewrite IH, inv_layer_len. Qed.

Lemma len_inv_ntt a : len (inv_ntt a) = len a.
Proof. unfold inv_ntt. rewrite len_map. change (len ZETAS_FWD - 1) with 127. by rewrite inv_layers_as_layers, len_inv_layers. Qed.

(** A polynomial with all its coefficients. *)
Definition full_poly (p : Poly.t) : Prop := len (Poly.coeffs p) = N.

Lemma full_to_ntt p : full_poly p -> full_poly (Poly.to_ntt p).
Proof. unfold full_poly. cbn [Poly.to_ntt Poly.coeffs]. by rewrite len_ntt. Qed.
Lemma full_from_ntt p : full_poly p -> full_poly (Poly.from_ntt p).
Proof. unfold full_poly. cbn [Poly.from_ntt Poly.coeffs]. by rewrite len_inv_ntt. Qed.
Lemma full_add p q : full_poly p -> full_poly q -> full_poly (Poly.add_assign p q).
Proof. unfold full_poly. cbn [Poly.add_assign Poly.coeffs]. intros. rewrite len_zip; congruence. Qed.
Lemma full_mul p q : full_poly p -> full_poly q -> full_poly (Poly.pointwise_mul p q).
Proof. unfold full_poly. cbn [Poly.pointwise_mul Poly.coeffs]. intros. rewrite len_zip; congruence. Qed.

Definition full_vec (ps : list Poly.t) : Prop := length ps = 3%nat /\ Forall full_poly ps.

Lemma full_vec_inv ps :
  full_vec ps -> exists p0 p1 p2, ps = [p0; p1; p2] /\ full_poly p0 /\ full_poly p1 /\ full_poly p2.
Proof.
  intros [H1 H2]. destruct ps as [|p0 [|p1 [|p2 [|]]]]; try discriminate H1. exists p0, p1, p2.
  rewrite !Forall_cons in H2. tauto.
Qed.

Lemma full_vec_ntt ps : full_vec ps -> full_vec (map Poly.to_ntt ps).
Proof. intros [H1 H2]. split; [by rewrite length_map|]. apply Forall_fmap. eapply Forall_impl; [exact H2|]. exact full_to_ntt. Qed.

Lemma full_row row vec err i : full_vec row -> full_vec vec -> full_vec err -> full_poly (row_product row vec err i).
Proof.
  intros (r0 & r1 & r2 & -> & R0 & R1 & R2)%full_vec_inv (v0 & v1 & v2 & -> & V0 & V1 & V2)%full_vec_inv [_ He].
  unfold row_product. cbn [zip zip_with foldl fst snd]. apply full_to_ntt, full_add.
  - exact (full_from_ntt _ (full_add _ _ (full_add _ _ (full_mul _ _ R0 V0) (full_mul _ _ R1 V1)) (full_mul _ _ R2 V2))).
  - destruct (err !! i) eqn:E; cbn [default]; [|reflexivity]. rewrite Forall_lookup in He. exact (He _ _ E).
Qed.

Lemma full_mat_vec m vec err :
  length m = 3%nat -> Forall full_vec m -> full_vec vec -> full_vec err ->
  full_vec (PolyVec.polys (mat_vec_mul m {| PolyVec.polys := vec |} {| PolyVec.polys := err |})).
Proof.
  intros Hl Hm Hv He. split; cbn [mat_vec_mul PolyVec.polys]; [by rewrite length_imap|]. apply Forall_lookup. intros i p Hp.
  apply list_lookup_imap_Some in Hp as (row & Hrow & ->). apply full_row; [|done|done].
  rewrite Forall_lookup in Hm. by eapply Hm.
Qed.

Lemma full_component b r err :
  full_vec b -> full_vec r -> full_vec err ->
  full_vec (PolyVec.polys (component_wise_mul {| PolyVec.polys := b |} {| PolyVec.polys := r |} {| PolyVec.polys := err |})).
Proof.
  intros (b0 & b1 & b2 & -> & B0 & B1 & B2)%full_vec_inv (r0 & r1 & r2 & -> & R0 & R1 & R2)%full_vec_inv
    (e0 & e1 & e2 & -> & E0 & E1 & E2)%full_vec_inv.
  split; [reflexivity|]. cbn [component_wise_mul PolyVec.polys zip zip_with fst snd]. rewrite !Forall_cons, Forall_nil.
  pose proof (fun b r e Hb Hr He => full_to_ntt _ (full_add _ e (full_from_ntt _ (full_mul b r Hb Hr)) He)) as G.
  exact (conj (G _ _ _ B0 R0 E0) (conj (G _ _ _ B1 R1 E1) (conj (G _ _ _ B2 R2 E2) I))).
Qed.

Lemma len_le_bytes ps : full_vec ps -> len (polyvec_to_le_bytes {| PolyVec.polys := ps |}) = POLYVEC_LE_BYTES.
Proof.
  intros (p0 & p1 & p2 & -> & G0 & G1 & G2)%full_vec_inv.
  unfold polyvec_to_le_bytes. cbn [PolyVec.polys map concat]. rewrite !len_app. change (len (@nil Z)) with 0.
  assert (forall cs, len (concat (map coeff_le_bytes cs)) = 2 * len cs) as Hc.
  { induction cs as [|c cs IH]; [done|]. cbn [map concat]. rewrite len_app, IH. change (len (coeff_le_bytes c)) with 2. unfold len. cbn [length]. lia. }
  unfold full_poly in *. rewrite !Hc, G0, G1, G2. done.
Qed.

(** ** Masks *)

Lemma sub_field_zero u g :
  is_bytes u -> is_bytes g -> length u = length g ->
  sub_field_vectors (map_root_to_field u) (map_root_to_field g) = replicate (length u) 0 <-> u = g.
Proof.
  revert g. induction u as [|x u IH]; intros [|y g] Hu Hg Hl; try done.
  apply Forall_cons in Hu as [Hx Hu], Hg as [Hy Hg]. unfold is_byte in *. injection Hl as Hl.
  specialize (IH g Hu Hg Hl). cbn [length replicate]. unfold sub_field_vectors, map_root_to_field in *. cbn [map zip_with].
  rewrite (Z.mod_small x), (Z.mod_small y) by (unfold Q; lia).
  assert ((let diff := Z.rem (x - y) Q in if diff <? 0 then diff + Q else diff) = 0 <-> x = y) as Hxy.
  { cbv zeta. assert (Z.rem (x - y) Q = x - y) as ->.
    { destruct (decide (0 <= x - y)); [apply Z.rem_small; unfold Q; lia|].
      replace (x - y) with (- (y - x)) by lia. rewrite Z.rem_opp_l by done. rewrite Z.rem_small by (unfold Q; lia). lia. }
    case_if; bool_prop; unfold Q; lia. }
  split.
  - intros H. injection H as H1 H2. f_equal; [by apply Hxy|by apply IH].
  - intros H. injection H as -> ->. f_equal; [by apply Hxy|by apply IH].
Qed.

Lemma delta_bytes_inj a b : delta_bytes a = delta_bytes b -> a = b.
Proof.
  unfold delta_bytes. revert b. induction a as [|x a IH]; intros [|y b] H; try done. cbn [map concat app] in H.
  injection H as H1 H2 H3. f_equal; [|by apply IH]. change 255 with (Z.ones 8) in H1. rewrite !Z.land_ones in H1 by lia.
  rewrite !Z.shiftr_div_pow2 in H2 by lia. pose proof (Z.div_mod x (2 ^ 8)). pose proof (Z.div_mod y (2 ^ 8)). lia.
Qed.

Lemma xor_bytes_cancel a b c : length b = length a -> length c = length a -> xor_bytes a b = xor_bytes a c -> b = c.
Proof.
  revert b c. induction a as [|x a IH]; intros [|y b] [|z c] Hb Hc H; try done.
  unfold xor_bytes in H. cbn [zip_with] in H. injection H as H1 H2. injection Hb as Hb. injection Hc as Hc.
  f_equal; [|by apply IH]. rewrite <- (Z.lxor_0_l y), <- (Z.lxor_0_l z), <- (Z.lxor_nilpotent x), !Z.lxor_assoc. by rewrite H1.
Qed.

(** ** The artifact is well formed *)

Section Correct.
  Context {HS : Hashing} {HL : HashingLaws HS} {XF : Xof} {HC : HpCodec} {HCL : HpCodecLaws HS HC}.

Lemma hash_labelled_ok label v : validate_label label = Ok tt -> hash_labelled label v = Ok (digest_of (label, v)).
Proof. intros H. unfold hash_labelled. by rewrite h_l_ok. Qed.

Lemma len_read_stream stream pos n : 0 <= n -> len (read_stream stream pos n) = n.
Proof. intros Hn. unfold read_stream. rewrite len_map. unfold len, zrange. rewrite length_seqZ. lia. Qed.

Lemma sample_polyvec_ok seed label : exists ps, sample_polyvec seed label = Ok {| PolyVec.polys := ps |} /\ full_vec ps.
Proof.
  unfold sample_polyvec. set (reader := xof_reader label seed).
  set (buf := fun i => read_stream reader (i * (POLY_LE_BYTES / 2)) (POLY_LE_BYTES / 2)).
  rewrite (map_res_pure _ (fun i => {| Poly.coeffs := map barrett_reduce (map (cbd_coeff (buf i)) (zrange 0 N)) |})).
  - rewrite bind_Ok. eexists. split; [reflexivity|]. split; [reflexivity|]. apply Forall_fmap, Forall_forall. intros i _.
    unfold full_poly, compose. cbn [Poly.coeffs]. rewrite !len_map. reflexivity.
  - intros i _. unfold cbd_eta2_poly. rewrite len_read_stream by (vm_compute; discriminate).
    change (POLY_LE_BYTES / 2 * 2 <? N) with false. reflexivity.
Qed.

(** The streams of the matrix of a branch hold enough candidates. *)
Definition branch_samples (seed : bytes) : Prop :=
  forall i j, 0 <= i < K -> 0 <= j < K -> enough_candidates (xof32 "hps/A-seed" seed) i j.

Lemma matrix_full M :
  length M = 3%nat -> Forall (fun row => length row = 3%nat /\ Forall Poly.reduced row) M ->
  length (map (map Poly.to_ntt) M) = 3%nat /\ Forall full_vec (map (map Poly.to_ntt) M).
Proof.
  intros Hl Hr. split; [by rewrite length_map|]. apply Forall_fmap. eapply Forall_impl; [exact Hr|].
  intros row [H1 H2]. apply full_vec_ntt. split; [done|]. eapply Forall_impl; [exact H2|]. by intros p [H _].
Qed.

Lemma build_branch_artifact_ok seed crs params xk :
  branch_samples seed ->
  exists n h, (forall m, (n <= m)%nat -> build_branch_artifact m seed crs params xk = Ok h) /\ hp_validate h = Ok tt.
Proof using HL.
  intros Hs. destruct (expand_a_terminates_lemma _ Hs) as (n & M & HM & Hl & Hrows).
  destruct (matrix_full M Hl Hrows) as [Hl' Hfull].
  destruct (sample_polyvec_ok seed "hps/eB") as (eb & Eeb & Feb), (sample_polyvec_ok seed "hps/e1") as (e1 & Ee1 & Fe1),
    (sample_polyvec_ok seed "hps/e2") as (e2 & Ee2 & Fe2), (sample_polyvec_ok seed "hps/s") as (s & Es & Fs),
    (sample_polyvec_ok seed "hps/r") as (r & Er & Fr).
  exists n. eexists. split.
  - intros m Hm. unfold build_branch_artifact, compute_rlwe_components. rewrite (HM m Hm), ok_or_Some, bind_Ok, Eeb, bind_Ok, Ee1,
      bind_Ok, Ee2, bind_Ok, Es, bind_Ok, Er, bind_Ok. unfold compute_ctx_tag. rewrite hash_labelled_ok by reflexivity.
    rewrite !bind_Ok. reflexivity.
  - pose proof (full_mat_vec _ _ _ Hl' Hfull (full_vec_ntt s Fs) Feb) as Fb.
    pose proof (full_mat_vec _ _ _ Hl' Hfull (full_vec_ntt r Fr) Fe1) as Fu.
    pose proof (full_component _ _ _ Fb (full_vec_ntt r Fr) Fe2) as Fv.
    unfold hp_validate. cbn [hp_k hp_n hp_q hp_a_seed hp_b_vec hp_u_vec hp_v_vec hp_salt_rlwe hp_lin_desc hp_ctx_tag hp_flags
      cb_a_seed cb_salt cb_ctx_tag cb_b_ntt cb_u_ntt cb_v_ntt].
    pose proof (len_le_bytes _ Fb) as Lb. pose proof (len_le_bytes _ Fu) as Lu. pose proof (len_le_bytes _ Fv) as Lv.
    unfold mat_vec_mul, component_wise_mul, PolyVec.ntt in *. cbn [PolyVec.polys] in *. rewrite Lb, Lu, Lv.
    unfold xof32. rewrite !len_read_stream, len_digest by lia. reflexivity.
Qed.

(** The root that a branch is about. *)
Definition branch_root (branch : string) (instance : AnchorInstance) : bytes :=
  if String.eqb branch "A" then parent_root (ai_parts instance) else join_delta_root (ai_parts instance).

Definition branch_mode (branch : string) : WitnessMode := if String.eqb branch "A" then ModeA else ModeB.

Definition delta_of (branch : string) (instance : AnchorInstance) (w : ValidatedWitness) : list Z :=
  sub_field_vectors (map_root_to_field (vm_root (vw_membership w))) (map_root_to_field (branch_root branch instance)).

(** The masks hashed for a witness. *)
Definition mask_inputs (delta : list Z) : list (string * Value) :=
  [("hps/linmask", linmask_value delta); ("hps/linmask", linmask_value (replicate 32 0))].

Lemma compute_delta_ok branch instance w :
  branch = "A" \/ branch = "B" -> len (branch_root branch instance) = 32 ->
  compute_delta branch instance (Some w) =
  if bool_decide (vw_mode w = branch_mode branch) then Ok (delta_of branch instance w)
  else invalid_input "witness mode/branch mismatch".
Proof.
  intros Hb Hl. unfold compute_delta, delta_of, branch_root, branch_mode, slice_to_array in *.
  destruct Hb as [->| ->]; cbn [String.eqb Ascii.eqb Bool.eqb] in *; rewrite bind_Ok; unfold reject_if;
    (destruct (bool_decide _); cbn [negb]; [|reflexivity]); rewrite fail_if_false, bind_Ok, Hl; reflexivity.
Qed.

Lemma hash_proj_eq h branch crs params instance witness :
  hp_validate h = Ok tt ->
  hash_proj (cbor (hp_value h)) branch crs params instance witness =
  (if len (cbor (hp_value h)) =? 0 then invalid_input "hp bytes not initialised" else
   base ← h_branch_bytes "msphf/hash" branch crs params [hp_ctx_tag h; hp_u_vec h; hp_v_vec h];
   delta ← compute_delta branch instance witness;
   linmask ← linmask_from_delta delta;
   Ok (xor_bytes base linmask)).
Proof using HCL.
  intros Hv. unfold hash_proj, params_decode, reject_if. destruct (len _ =? 0); [reflexivity|].
  rewrite fail_if_false, bind_Ok, decode_hp_value, ok_or_Some, bind_Ok, Hv, bind_Ok. reflexivity.
Qed.

Lemma mask_differs delta :
  delta <> replicate 32 0 -> digest_of ("hps/linmask", linmask_value delta) = digest_of ("hps/linmask", linmask_value (replicate 32 0)) ->
  hl_collision (listed (mask_inputs delta)).
Proof using HL.
  intros Hne Heq. exists "hps/linmask", (linmask_value delta), "hps/linmask", (linmask_value (replicate 32 0)).
  split_and!; [by left|by right; left| |exact Heq]. intros H. apply hash_input_inj in H as [_ H]; [|reflexivity..].
  apply Hne, delta_bytes_inj. unfold linmask_value, VStruct in H. cbn [fmap list_fmap] in H. by injection H.
Qed.

End Correct.


(** ** A concrete branch *)

Definition hp_of_value (v : Value) : option HpBranchOwned :=
  match v with
  | VMap [(_, VInteger k); (_, VInteger n); (_, VInteger q); (_, VBytes a_seed); (_, VBytes b_vec); (_, VBytes u_vec);
          (_, VBytes v_vec); (_, VBytes salt); (_, VArray [VText l; VInteger d; VInteger m]); (_, VBytes tag);
          (_, VMap [(_, VText e); (_, VText c); (_, VText o)])] =>
      Some {| hp_k := k; hp_n := n; hp_q := q; hp_a_seed := a_seed; hp_b_vec := b_vec; hp_u_vec := u_vec; hp_v_vec := v_vec;
              hp_salt_rlwe := salt; hp_lin_desc := {| ld_label := l; ld_len := d; ld_modulus := m |}; hp_ctx_tag := tag;
              hp_flags := {| poly_encoding := e; coef_endian := c; ntt_order := o |} |}
  | _ => None
  end.

Definition toy_hp_codec : HpCodec := {|
  decode_hp b := match b with [Zpos p] => v ← decode p; hp_of_value v | _ => None end
|}.

Instance toy_hp_codec_laws : HpCodecLaws toy_hashing toy_hp_codec.
Proof.
  split; [|done]. intros h. cbn [decode_hp toy_hp_codec cbor toy_hashing]. unfold toy_cbor. rewrite decode_encode.
  by destruct h as [? ? ? ? ? ? ? ? [] ? []].
Qed.

Definition toy_parts : AnchorInstanceParts :=
  {| gid := [1]; cat := [2]; tswe_salt := zero32; parent_root := zero32; join_delta_root := zero32;
     revoked_since_prev_root := zero32; revoked_root := zero32; pox_r_commit := None |}.
Definition toy_instance : AnchorInstance :=
  {| ai_parts := toy_parts; ai_we_epoch_id := zero32; ai_anchor_hdr_ctx := []; ai_msphf_hp_commit := None |}.

Lemma toy_samples : branch_samples (XF := toy_xof) [5].
Proof.
  intros i j Hi Hj. exists 2%nat. apply Nat.leb_le.
  assert (forallb (fun i => forallb (fun j =>
    Nat.leb 256 (length (List.filter valid (stream_candidates 2 (@shake128 toy_xof (@xof32 toy_xof "hps/A-seed" [5] ++ [i; j])) 0))))
      (zrange 0 K)) (zrange 0 K) = true) as H by (vm_compute; reflexivity).
  exact (in_zrange_forallb _ _ _ j (in_zrange_forallb _ _ _ i H Hi) Hj).
Qed.

