(* ===== verification/Journal.v ===== *)
(** * The server's journal

    [cityg-server/src/journal_io.rs]: the append-only file of accepted
    bundles ([ServerJournal::append], [load_entries]; the API crate has the
    same parser in [accept_helpers.rs], [load_journal_entries]), and, from
    [cityg-server/src/lib.rs], the two functions that use it:
    [CityGServer::accept_epoch], which stages a bundle, writes it and only
    then commits, and [recover_from_state], which replays the file when the
    server starts.

    A record is the length of the bundle's encoding as a little-endian [u32]
    followed by the encoding.  What the disk does is an argument of [append]:
    a write that succeeds, or one that stops after some bytes of the record
    (a crash, a full disk, a failing [sync_data]).  The staging function is
    the operation of a class, [Staging]: the theorems hold for every one.

    The theorems: the file holds exactly the accepted bundles, in order, as
    long as the only incomplete record is the last one ([journal_holds_accepted]);
    a restart replays exactly those ([restart_replays_accepted]); and once a
    record is incomplete, the records that follow it are read as its missing
    bytes, so that accepted bundles are lost ([torn_append_loses_accepted]). *)

From stdpp Require Import base list strings.
From Stdlib Require Import ZArith Lia.
From S2P Require Import Prelude Errors.

Local Open Scope Z_scope.

(** ** The file *)

(** One record: the length as [u32], little-endian, and the bytes. *)
Definition frame (entry : bytes) : bytes := le_bytes 4 (len entry) ++ entry.

(** What the two [write_all], the [flush] and the [sync_data] do: the record
    reaches the file, or an error is returned with [n] of its bytes written
    (all of them, when only the synchronisation fails). *)
Inductive Disk := DiskOk | DiskFails (n : nat) (msg : string).

(** [ServerJournal::append], on the encoded bundle. *)
Definition append (file entry : bytes) (disk : Disk) : bytes * result CityGError unit :=
  match disk with
  | DiskOk => (file ++ frame entry, Ok tt)
  | DiskFails n msg => (file ++ take n (frame entry), Err (Io msg))
  end.

(** The loop of [load_entries]: each turn takes at least four bytes. *)
Fixpoint load_loop (fuel : nat) (cursor : bytes) : list bytes :=
  match fuel with
  | O => []
  | S fuel =>
      if len cursor <? 4 then []
      else
        let n := le_value (take 4 cursor) in
        let rest := drop 4 cursor in
        if len rest <? n then []
        else take (Z.to_nat n) rest :: load_loop fuel (drop (Z.to_nat n) rest)
  end.

(** [ServerJournal::load_entries]; [None] is a file that does not exist. *)
Definition load_entries (file : option bytes) : list bytes :=
  match file with
  | None => []
  | Some buf => load_loop (S (length buf)) buf
  end.

(** ** Accepting and recovering *)

(** The staging of a bundle ([stage_bundle] on clones of the server's parts):
    the state it leaves and the outcome.  [st_merge] is [merge_telemetry_from],
    the only trace a refused bundle leaves; [st_reset] is [reset_state] followed
    by the seeding from the persisted registry. *)
Class Staging (State Bundle Outcome : Type) := {
  st_apply : bool -> State -> Bundle -> State * result CityGError Outcome;
  st_merge : State -> State -> State;
  st_rotation_required : State -> Bundle -> bool;
  st_reset : State -> State;
  st_to_cbor : Bundle -> result CityGError bytes;
  st_from_cbor : bytes -> result CityGError Bundle;
}.

(** [from_cbor] reads back what [to_cbor] writes, and the encodings are no longer than the length field can say. *)
Class StagingLaws {State Bundle Outcome} (SG : Staging State Bundle Outcome) : Prop := {
  st_cbor_roundtrip b e : st_to_cbor b = Ok e -> st_from_cbor e = Ok b;
  st_cbor_length b e : st_to_cbor b = Ok e -> len e <= U32_MAX;
}.

Section Server.
Context {State Bundle Outcome : Type} {SG : Staging State Bundle Outcome}.

(** The parts of [CityGServer] that these functions change: what is committed, and the journal. *)
Record Server := { sv_state : State; sv_journal : option bytes }.

(** [CityGServer::stage_bundle] *)
Definition stage_bundle (replaying : bool) (sv : Server) (b : Bundle) : Server * result CityGError (Outcome * State) :=
  match st_apply replaying (sv_state sv) b with
  | (staged, Ok o) => (sv, Ok (o, staged))
  | (staged, Err e) => ({| sv_state := st_merge (sv_state sv) staged; sv_journal := sv_journal sv |}, Err e)
  end.

(** [CityGServer::commit_staged] *)
Definition commit_staged (sv : Server) (staged : State) : Server := {| sv_state := staged; sv_journal := sv_journal sv |}.

(** [journal.append(bundle)?], when the server has a journal. *)
Definition journal_bundle (sv : Server) (b : Bundle) (disk : Disk) : Server * result CityGError unit :=
  match sv_journal sv with
  | None => (sv, Ok tt)
  | Some file =>
      match st_to_cbor b with
      | Err e => (sv, Err e)
      | Ok e => let (file', r) := append file e disk in ({| sv_state := sv_state sv; sv_journal := Some file' |}, r)
      end
  end.

Definition KBROAD_ROTATION_REQUIRED_ERR : string := "kbroad rotation required".

(** [CityGServer::accept_epoch], outside a replay. *)
Definition accept_epoch (sv : Server) (b : Bundle) (disk : Disk) : Server * result CityGError Outcome :=
  if st_rotation_required (sv_state sv) b then (sv, Err (InvalidInput KBROAD_ROTATION_REQUIRED_ERR))
  else
    match stage_bundle false sv b with
    | (sv, Err e) => (sv, Err e)
    | (sv, Ok (o, staged)) =>
        match journal_bundle sv b disk with
        | (sv, Err e) => (sv, Err e)
        | (sv, Ok _) => (commit_staged sv staged, Ok o)
        end
    end.

(** The loop of [recover_from_state]: it stops at the first entry that fails, and keeps what it has committed. *)
Fixpoint replay_entries (sv : Server) (entries : list bytes) : Server * result CityGError unit :=
  match entries with
  | [] => (sv, Ok tt)
  | entry :: rest =>
      match st_from_cbor entry with
      | Err e => (sv, Err e)
      | Ok b =>
          match stage_bundle true sv b with
          | (sv, Err e) => (sv, Err e)
          | (sv, Ok (_, staged)) => replay_entries (commit_staged sv staged) rest
          end
      end
  end.

(** [CityGServer::recover_from_state] *)
Definition recover_from_state (sv : Server) : Server * result CityGError unit :=
  match load_entries (sv_journal sv) with
  | [] => (sv, Ok tt)
  | entries => replay_entries {| sv_state := st_reset (sv_state sv); sv_journal := sv_journal sv |} entries
  end.

(** A sequence of submissions, each with what the disk does for it; the bundles accepted, in order. *)
Fixpoint serve (sv : Server) (subs : list (Bundle * Disk)) : Server * list Bundle :=
  match subs with
  | [] => (sv, [])
  | (b, disk) :: rest =>
      match accept_epoch sv b disk with
      | (sv, Ok _) => let (sv, acc) := serve sv rest in (sv, b :: acc)
      | (sv, Err _) => serve sv rest
      end
  end.

(** The replay of a list of bundles, the reference for [recover_from_state]. *)
Fixpoint replay_bundles (sv : Server) (bs : list Bundle) : Server * result CityGError unit :=
  match bs with
  | [] => (sv, Ok tt)
  | b :: rest =>
      match stage_bundle true sv b with
      | (sv, Err e) => (sv, Err e)
      | (sv, Ok (_, staged)) => replay_bundles (commit_staged sv staged) rest
      end
  end.

End Server.

Arguments Server : clear implicits.

(** ** The loop of [load_entries] *)

(** The records of a list of entries. *)
Definition journal (entries : list bytes) : bytes := concat (frame <$> entries).

(** An entry whose length fits its field. *)
Definition fits (entry : bytes) : Prop := len entry <= U32_MAX.

Lemma load_fuel f1 f2 cursor : (length cursor < f1)%nat -> (length cursor < f2)%nat -> load_loop f1 cursor = load_loop f2 cursor.
Proof.
  revert f2 cursor. induction f1 as [|f1 IH]; intros f2 cursor H1 H2; [lia|]. destruct f2 as [|f2]; [lia|]. cbn [load_loop].
  destruct (Z.ltb_spec (len cursor) 4) as [Hc|Hc]; [done|]. destruct (len (drop 4 cursor) <? _); [done|]. f_equal.
  unfold len in Hc. apply IH; rewrite !length_drop; lia.
Qed.

Definition load (buf : bytes) : list bytes := load_entries (Some buf).

Lemma load_entries_some buf : load_entries (Some buf) = load buf.
Proof. done. Qed.

Lemma load_step buf : load buf =
  if len buf <? 4 then []
  else let n := le_value (take 4 buf) in
       if len (drop 4 buf) <? n then [] else take (Z.to_nat n) (drop 4 buf) :: load (drop (Z.to_nat n) (drop 4 buf)).
Proof.
  unfold load, load_entries at 1. cbn [load_loop]. destruct (Z.ltb_spec (len buf) 4) as [Hc|Hc]; [done|]. cbv zeta.
  destruct (len (drop 4 buf) <? _); [done|]. f_equal. unfold load_entries, len in *. apply load_fuel; rewrite !length_drop; lia.
Qed.

Lemma load_short buf : len buf < 4 -> load buf = [].
Proof. intros H. rewrite load_step. destruct (Z.ltb_spec (len buf) 4); [done|lia]. Qed.

Lemma len_frame e : len (frame e) = 4 + len e.
Proof. unfold frame. rewrite len_app, len_to_le. lia. Qed.

(** After a complete length field for an entry of [e]'s length. *)
Lemma load_header e r : fits e ->
  load (le_bytes 4 (len e) ++ r) = if len r <? len e then [] else take (length e) r :: load (drop (length e) r).
Proof.
  intros He. unfold fits, U32_MAX in He. rewrite load_step, len_app, len_to_le.
  assert (Hl : 0 <= len e) by (unfold len; lia). assert (0 <= len r) by (unfold len; lia).
  destruct (Z.ltb_spec (Z.of_nat 4 + len r) 4); [lia|]. cbv zeta. rewrite take_app_length', drop_app_length' by (symmetry; apply length_le_bytes).
  rewrite le_value_bytes by lia. case_if; [done|]. unfold len. by rewrite Nat2Z.id.
Qed.

Lemma load_frame e r : fits e -> load (frame e ++ r) = e :: load r.
Proof.
  intros He. unfold frame. rewrite <- (assoc_L (++)), load_header by done. rewrite len_app.
  destruct (Z.ltb_spec (len e + len r) (len e)); [unfold len in *; lia|]. by rewrite take_app_length, drop_app_length.
Qed.

Lemma load_journal es r : Forall fits es -> load (journal es ++ r) = es ++ load r.
Proof.
  induction 1 as [|e es He _ IH]; [done|]. change (journal (e :: es)) with (frame e ++ journal es).
  rewrite <- (assoc_L (++)), load_frame, IH by done. done.
Qed.

(** A record of which [n] bytes, the length field at least, were written. *)
Lemma load_torn e n r : fits e -> (4 <= n < length (frame e))%nat ->
  load (take n (frame e) ++ r) =
    if len r <? len (frame e) - Z.of_nat n then []
    else (take (n - 4) e ++ take (length (frame e) - n) r) :: load (drop (length (frame e) - n) r).
Proof.
  intros He Hn. pose proof (len_frame e) as Hf. unfold len in Hf. unfold frame at 1. rewrite take_app, length_le_bytes.
  rewrite (take_ge (le_bytes 4 _)) by (rewrite length_le_bytes; lia). rewrite <- (assoc_L (++)), load_header by done.
  rewrite len_app. unfold len. rewrite length_take, Nat.min_l by lia.
  destruct (Z.ltb_spec (Z.of_nat (n - 4) + Z.of_nat (length r)) (Z.of_nat (length e))),
    (Z.ltb_spec (Z.of_nat (length r)) (Z.of_nat (length (frame e)) - Z.of_nat n)); try lia; [done|].
  assert (Hk : (length (frame e) - n = length e - (n - 4))%nat) by lia.
  rewrite take_app, drop_app, length_take, Nat.min_l, Hk by lia.
  rewrite (take_ge (take _ _)), (drop_ge (take _ _)) by (rewrite length_take; lia). done.
Qed.

(** The last record may be incomplete: it is read when all of it is there. *)
Lemma load_prefix es e n : Forall fits es -> fits e ->
  load (journal es ++ take n (frame e)) = es ++ (if (n <? length (frame e))%nat then [] else [e]).
Proof.
  intros Hes He. rewrite load_journal by done. f_equal. pose proof (len_frame e) as Hf. unfold len in Hf.
  destruct (Nat.ltb_spec n (length (frame e))) as [Hn|Hn].
  - destruct (decide (n < 4)%nat).
    + apply load_short. unfold len. rewrite length_take. lia.
    + rewrite <- (app_nil_r (take n _)), load_torn by (done || lia). unfold len. cbn [length].
      destruct (Z.ltb_spec (Z.of_nat 0) (Z.of_nat (length (frame e)) - Z.of_nat n)); [done|lia].
  - rewrite take_ge by lia. rewrite <- (app_nil_r (frame e)), load_frame by done. rewrite (load_short []); [done|]. by unfold len.
Qed.

Lemma load_all es : Forall fits es -> load (journal es) = es.
Proof. intros H. rewrite <- (app_nil_r (journal es)), load_journal, load_short by (done || by unfold len). apply app_nil_r. Qed.

Lemma journal_app es1 es2 : journal (es1 ++ es2) = journal es1 ++ journal es2.
Proof. unfold journal. by rewrite fmap_app, concat_app. Qed.

(** ** Runs of the server *)

Section Runs.
Context {State Bundle Outcome : Type} {SG : Staging State Bundle Outcome} {SGL : StagingLaws SG}.
Implicit Types (sv : Server State) (b : Bundle) (disk : Disk).

Definition encoded (bs : list Bundle) (es : list bytes) : Prop := Forall2 (fun b e => st_to_cbor b = Ok e) bs es.

Lemma encoded_fits bs es : encoded bs es -> Forall fits es.
Proof using SGL. induction 1 as [|b e bs es He _ IH]; constructor; [by eapply st_cbor_length|done]. Qed.

(** The write of a submission completes, or fails before its first byte. *)
Definition clean (s : Bundle * Disk) : Prop := match s.2 with DiskOk => True | DiskFails n _ => n = 0%nat end.

(** What [accept_epoch] does to the file, on every branch. *)
Lemma accept_epoch_file sv b disk file : sv_journal sv = Some file ->
  let (sv', r) := accept_epoch sv b disk in
  match r with
  | Ok _ => exists e, st_to_cbor b = Ok e /\ disk = DiskOk /\ sv_journal sv' = Some (file ++ frame e)
  | Err _ => sv_journal sv' = Some file
             \/ exists e n msg, st_to_cbor b = Ok e /\ disk = DiskFails n msg /\ sv_journal sv' = Some (file ++ take n (frame e))
  end.
Proof.
  intros Hf. unfold accept_epoch, stage_bundle. destruct (st_rotation_required _ _); [by left|].
  destruct (st_apply _ _ _) as [staged [o|e]]; [|by left]. unfold journal_bundle. rewrite Hf.
  destruct (st_to_cbor b) as [e|e]; [|by left]. destruct disk as [|n msg]; cbn; [by exists e|]. right. by exists e, n, msg.
Qed.

Lemma accept_epoch_clean sv b disk es : clean (b, disk) -> sv_journal sv = Some (journal es) ->
  let (sv', r) := accept_epoch sv b disk in
  match r with
  | Ok _ => exists e, st_to_cbor b = Ok e /\ sv_journal sv' = Some (journal (es ++ [e]))
  | Err _ => sv_journal sv' = Some (journal es)
  end.
Proof.
  intros Hc Hf. pose proof (accept_epoch_file sv b disk _ Hf) as H. destruct (accept_epoch sv b disk) as [sv' [o|x]].
  - destruct H as (e & He & -> & H). exists e. split; [done|]. rewrite H, journal_app. do 2 f_equal. symmetry. apply app_nil_r.
  - destruct H as [H|(e & n & msg & He & -> & H)]; [done|]. cbn in Hc. subst n. rewrite H. by rewrite take_0, app_nil_r.
Qed.

(** The file grows by the records of the accepted bundles, whatever it held. *)
Lemma serve_file sv subs file : Forall clean subs -> sv_journal sv = Some file ->
  exists es, encoded (serve sv subs).2 es /\ sv_journal (serve sv subs).1 = Some (file ++ journal es).
Proof.
  intros Hc. revert sv file. induction Hc as [|[b disk] subs Hb _ IH]; intros sv file Hf.
  { exists []. split; [constructor|]. cbn. rewrite Hf. f_equal. symmetry. apply app_nil_r. }
  pose proof (accept_epoch_file sv b disk _ Hf) as H. cbn [serve]. destruct (accept_epoch sv b disk) as [sv' [o|x]].
  - destruct H as (e & He & -> & H). destruct (IH _ _ H) as (es & Hes & Hj). destruct (serve sv' subs) as [sv'' acc]. cbn in *.
    exists (e :: es). split; [by constructor|]. rewrite Hj. by rewrite <- (assoc_L (++)).
  - apply IH. destruct H as [H|(e & n & msg & He & -> & H)]; [done|]. cbn in Hb. subst n. rewrite H. by rewrite take_0, app_nil_r.
Qed.

(** C10: The journal holds exactly the accepted bundles, in the order in which
    they were accepted, through a crash: a server whose file holds the records
    of [es0] takes any submissions whose writes complete or do not start, and
    then one whose write may stop anywhere.  What the next start reads is
    [es0], the encodings of the accepted bundles, and of the last submission
    its encoding or nothing: its encoding when it was accepted, and when it was
    refused only if the disk failed after the whole record was written. *)
Theorem journal_holds_accepted sv es0 subs b disk :
  sv_journal sv = Some (journal es0) -> Forall fits es0 -> Forall clean subs ->
  let (sv1, acc) := serve sv subs in
  let (sv2, r) := accept_epoch sv1 b disk in
  exists es, encoded acc es /\
    match r with
    | Ok _ => exists e, st_to_cbor b = Ok e /\ load_entries (sv_journal sv2) = es0 ++ es ++ [e]
    | Err _ => load_entries (sv_journal sv2) = es0 ++ es
               \/ exists e n msg, st_to_cbor b = Ok e /\ disk = DiskFails n msg /\ (length (frame e) <= n)%nat
                                 /\ load_entries (sv_journal sv2) = es0 ++ es ++ [e]
    end.
Proof using SGL.
  intros Hf H0 Hc. destruct (serve_file sv subs _ Hc Hf) as (es & Hes & Hj). destruct (serve sv subs) as [sv1 acc]. cbn in Hes, Hj.
  rewrite <- journal_app in Hj. assert (Hfit : Forall fits (es0 ++ es)) by (apply Forall_app; split; [done|by eapply encoded_fits]).
  pose proof (accept_epoch_file sv1 b disk _ Hj) as H. destruct (accept_epoch sv1 b disk) as [sv2 r]. exists es. split; [done|].
  destruct r as [o|x].
  - destruct H as (e & He & _ & ->). exists e. split; [done|]. pose proof (st_cbor_length b e He) as Hl.
    change (load (journal (es0 ++ es) ++ frame e) = es0 ++ es ++ [e]). rewrite (assoc_L (++)). rewrite <- (take_ge (frame e) (length (frame e))) by lia.
    rewrite load_prefix by done. by rewrite Nat.ltb_irrefl.
  - destruct H as [->|(e & n & msg & He & -> & ->)]; [left; by apply load_all|]. pose proof (st_cbor_length b e He) as Hl.
    rewrite !load_entries_some, load_prefix by done. destruct (Nat.ltb_spec n (length (frame e))) as [Hn|Hn].
    + left. apply app_nil_r.
    + right. exists e, n, msg. by rewrite (assoc_L (++)).
Qed.

Lemma replay_encoded sv bs es : encoded bs es -> replay_entries sv es = replay_bundles sv bs.
Proof using SGL.
  intros H. revert sv. induction H as [|b e bs es He _ IH]; intros sv; [done|]. cbn. rewrite (st_cbor_roundtrip b e He).
  destruct (stage_bundle true sv b) as [sv' [[o staged]|x]]; [apply IH|done].
Qed.

(** A restart replays the accepted bundles and nothing else: a server that
    started on an empty journal, took any submissions whose writes complete or
    do not start and stopped in the middle of one more write, comes back, from
    whatever state [st], as the replay of the bundles it had accepted, in
    order, on the reset state; the incomplete record is not seen. *)
Theorem restart_replays_accepted sv subs b disk st :
  sv_journal sv = Some [] -> Forall clean subs ->
  (forall e n msg, st_to_cbor b = Ok e -> disk = DiskFails n msg -> (n < length (frame e))%nat) ->
  let (sv1, acc) := serve sv subs in
  let (sv2, r) := accept_epoch sv1 b disk in
  let accepted := acc ++ (match r with Ok _ => [b] | Err _ => [] end) in
  recover_from_state {| sv_state := st; sv_journal := sv_journal sv2 |} =
    match accepted with
    | [] => ({| sv_state := st; sv_journal := sv_journal sv2 |}, Ok tt)
    | _ => replay_bundles {| sv_state := st_reset st; sv_journal := sv_journal sv2 |} accepted
    end.
Proof using SGL.
  intros Hf Hc Hd. destruct (serve_file sv subs _ Hc Hf) as (es & Hes & Hj). destruct (serve sv subs) as [sv1 acc]. cbn in Hes, Hj.
  pose proof (accept_epoch_file sv1 b disk _ Hj) as H. destruct (accept_epoch sv1 b disk) as [sv2 r].
  assert (Hl : exists es', encoded (acc ++ (match r with Ok _ => [b] | Err _ => [] end)) es' /\ load_entries (sv_journal sv2) = es').
  { pose proof (encoded_fits _ _ Hes) as Hfit. destruct r as [o|x].
    - destruct H as (e & He & _ & ->). exists (es ++ [e]). split; [apply Forall2_app; [done|by repeat constructor]|].
      rewrite <- (app_nil_r (frame e)). change (journal es ++ frame e ++ []) with (journal es ++ journal [e]). rewrite <- journal_app.
      apply load_all, Forall_app. split; [done|]. constructor; [by eapply st_cbor_length|constructor].
    - rewrite app_nil_r. exists es. split; [done|]. destruct H as [->|(e & n & msg & He & -> & ->)]; [by apply load_all|].
      rewrite !load_entries_some, load_prefix by (done || by eapply st_cbor_length).
      pose proof (Hd e n msg He eq_refl). destruct (Nat.ltb_spec n (length (frame e))); [apply app_nil_r|lia]. }
  cbv zeta. destruct Hl as (es' & He' & Hl). unfold recover_from_state. cbn [sv_journal sv_state]. rewrite Hl.
  destruct He' as [|b' e' bs es' Hb He']; [done|]. apply replay_encoded. by constructor.
Qed.

(** C34: What an incomplete record does to the ones after it.  When the disk
    stops inside a record, after its length field, the submission is refused
    and the file is left as it is; the bundles accepted afterwards are appended
    behind the fragment.  The next start reads the fragment completed with the
    first bytes of the later records as one entry, and goes on from wherever
    that ends; while the later records are shorter than what is missing, it
    reads none of them, although every one was accepted and synchronised. *)
Theorem torn_append_loses_accepted sv es0 b staged o n msg e subs :
  sv_journal sv = Some (journal es0) -> Forall fits es0 -> Forall clean subs ->
  st_rotation_required (sv_state sv) b = false -> st_apply false (sv_state sv) b = (staged, Ok o) ->
  st_to_cbor b = Ok e -> (4 <= n < length (frame e))%nat ->
  let (sv1, r) := accept_epoch sv b (DiskFails n msg) in
  let (sv2, acc) := serve sv1 subs in
  r = Err (Io msg) /\ sv_state sv1 = sv_state sv /\
  exists es, encoded acc es /\
    let missing := (length (frame e) - n)%nat in
    load_entries (sv_journal sv2) = es0 ++
      (if (length (journal es) <? missing)%nat then []
       else (take (n - 4) e ++ take missing (journal es)) :: load_entries (Some (drop missing (journal es)))).
Proof using SGL.
  intros Hf H0 Hc Hr Ha He Hn. unfold accept_epoch, stage_bundle, journal_bundle. rewrite Hr, Ha, Hf, He. cbn [append].
  set (sv1 := {| sv_state := sv_state sv; sv_journal := _ |}). destruct (serve_file sv1 subs _ Hc eq_refl) as (es & Hes & Hj).
  destruct (serve sv1 subs) as [sv2 acc]. cbn [fst snd] in Hes, Hj. split; [done|]. split; [done|]. exists es. split; [done|]. cbv zeta. rewrite Hj.
  rewrite !load_entries_some, <- (assoc_L (++)), load_journal by done.
  rewrite load_torn by (done || by eapply st_cbor_length). f_equal. unfold len.
  destruct (Z.ltb_spec (Z.of_nat (length (journal es))) (Z.of_nat (length (frame e)) - Z.of_nat n)),
    (Nat.ltb_spec (length (journal es)) (length (frame e) - n)); (lia || done).
Qed.
End Runs.

(** ** Samples *)

(** A server whose state is the list of what it has accepted, and which refuses a bundle it has. *)
#[local] Instance toy_staging : Staging (list bytes) bytes unit := {
  st_apply _ st b := if decide (b ∈ st) then (st, Err (InvalidInput "replayed")) else (st ++ [b], Ok tt);
  st_merge st _ := st;
  st_rotation_required _ _ := false;
  st_reset _ := [];
  st_to_cbor b := if len b <=? 1000 then Ok b else Err (InvalidInput "encoding");
  st_from_cbor e := Ok e;
}.

#[local] Instance toy_staging_laws : StagingLaws toy_staging.
Proof.
  split; intros b e H; cbn in H; destruct (Z.leb_spec (len b) 1000) in H; try done; injection H as ->; unfold U32_MAX; (done || lia).
Qed.

Lemma journal_holds_accepted_witness :
  let sv := {| sv_state := []; sv_journal := Some (journal [[1; 2]]) |} in
  exists es, encoded (SG := toy_staging) [[7]; [8]] es /\
    (load_entries (sv_journal (accept_epoch (serve sv [([7], DiskOk); ([7], DiskOk); ([8], DiskOk)]).1 [9; 9] (DiskFails 5 "crash")).1)
       = [[1; 2]] ++ es
     \/ exists e n msg, st_to_cbor (Staging := toy_staging) [9; 9] = Ok e /\ DiskFails 5 "crash" = DiskFails n msg /\ (length (frame e) <= n)%nat
        /\ load_entries (sv_journal (accept_epoch (serve sv [([7], DiskOk); ([7], DiskOk); ([8], DiskOk)]).1 [9; 9] (DiskFails 5 "crash")).1)
           = [[1; 2]] ++ es ++ [e]).
Proof.
  refine (journal_holds_accepted {| sv_state := []; sv_journal := Some (journal [[1; 2]]) |} [[1; 2]]
            [([7], DiskOk); ([7], DiskOk); ([8], DiskOk)] [9; 9] (DiskFails 5 "crash") eq_refl _ _).
  - repeat constructor; unfold fits; vm_compute; discriminate.
  - repeat constructor.
Defined.

Lemma restart_replays_accepted_witness :
  let file := Some (frame [7] ++ frame [8] ++ take 3 (frame [9])) in
  recover_from_state {| sv_state := [[5]]; sv_journal := file |} = ({| sv_state := [[7]; [8]]; sv_journal := file |}, Ok tt).
Proof.
  refine (restart_replays_accepted {| sv_state := []; sv_journal := Some [] |}
            [([7], DiskOk); ([7], DiskOk); ([8], DiskOk)] [9] (DiskFails 3 "crash") [[5]] eq_refl _ _).
  - repeat constructor.
  - intros e n msg He Hn. injection Hn as <- <-. injection He as <-. vm_compute. lia.
Defined.

(** Three accepted bundles behind a fragment: none of them is read back. *)
Lemma torn_append_loses_accepted_witness :
  let sv1 := {| sv_state := []; sv_journal := Some (take 5 (frame (replicate 40 3))) |} in
  (serve sv1 [([7], DiskOk); ([8], DiskOk); ([9], DiskOk)]).2 = [[7]; [8]; [9]]
  /\ exists es, encoded (SG := toy_staging) [[7]; [8]; [9]] es /\
       load_entries (sv_journal (serve sv1 [([7], DiskOk); ([8], DiskOk); ([9], DiskOk)]).1) =
         (if (length (journal es) <? 39)%nat then []
          else (take 1 (replicate 40 3) ++ take 39 (journal es)) :: load_entries (Some (drop 39 (journal es)))).
Proof.
  split; [vm_compute; reflexivity|].
  pose proof (torn_append_loses_accepted {| sv_state := []; sv_journal := Some (journal []) |} [] (replicate 40 3) [replicate 40 3] tt 5 "disk full"
    (replicate 40 3) [([7], DiskOk); ([8], DiskOk); ([9], DiskOk)] eq_refl ltac:(constructor) ltac:(repeat constructor)
    eq_refl eq_refl eq_refl ltac:(vm_compute; lia)) as H.
  exact (proj2 (proj2 H)).
Defined.
