(* ===== verification/RoomState.v ===== *)
(** * The room state of the runtime

    [cityg-runtime/src/volatile.rs]: what the server keeps of a room next to
    the protocol state: when each member joined and was last seen, which
    epoch belongs to which room and membership root, and the backlogs of
    messages and of accepted bundles, which are pruned lazily after a
    retention period; and from [cityg-runtime/src/service.rs] the handlers
    that use them: [apply_bundle_indexes], [ensure_leaf_member_for_epoch],
    [ensure_leaf_member_for_room], [store_room_message],
    [fetch_room_messages], [fetch_room_bundle].  [snapshot] and
    [from_snapshot] are the persisted form.

    A [Duration] is its number of milliseconds.  The maps are hash maps: what
    is collected from one comes in some order, and is then sorted.

    The theorems: every handler keeps the shape of the state
    ([room_ok_reachable]); what a member reads is the log of the accepted
    posts, as far as they have not expired ([backlog_refines_log]), and
    nothing that expired longer than one prune interval ago
    ([served_messages_recent]); a restart from the snapshot gives the same
    state ([snapshot_roundtrip]); and when the bundle of an epoch expires, the
    epoch itself can no longer be used ([expired_epoch_unusable]). *)

From stdpp Require Import base gmap sets list strings sorting.
From Stdlib Require Import ZArith Lia.
From S2P Require Import Prelude Slots Roster.

Local Open Scope Z_scope.

(** ** Data *)

Record MemberMetadata := { join_timestamp_ms : Z; last_seen_timestamp_ms : Z }.

Record EpochScope := { es_gid : bytes; es_membership_root : bytes }.

Record StoredMessage := { stm_we_epoch_id : bytes; stm_ciphertext : bytes; stm_sender : bytes; stm_timestamp_ms : Z }.

Record StoredBundle := { sb_bytes : bytes; sb_stored_at_ms : Z }.

Record RoomIndexes := {
  member_metadata : gmap bytes MemberMetadata;
  weid_to_leaf : gmap bytes bytes;
  epoch_scopes : gmap bytes EpochScope;
}.

(** [RoomVolatileState], the two backlogs being maps. *)
Record RoomVolatileState := {
  indexes : RoomIndexes;
  backlog : gmap bytes (list StoredMessage);
  bundles : gmap bytes StoredBundle;
  message_prune_due_ms : Z;
  bundle_prune_due_ms : Z;
}.

Definition room_default : RoomVolatileState := {|
  indexes := {| member_metadata := ∅; weid_to_leaf := ∅; epoch_scopes := ∅ |};
  backlog := ∅; bundles := ∅; message_prune_due_ms := 0; bundle_prune_due_ms := 0 |}.

Definition with_indexes (s : RoomVolatileState) (i : RoomIndexes) : RoomVolatileState := {|
  indexes := i; backlog := backlog s; bundles := bundles s;
  message_prune_due_ms := message_prune_due_ms s; bundle_prune_due_ms := bundle_prune_due_ms s |}.

Definition with_backlog (s : RoomVolatileState) (b : gmap bytes (list StoredMessage)) (due : Z) : RoomVolatileState := {|
  indexes := indexes s; backlog := b; bundles := bundles s;
  message_prune_due_ms := due; bundle_prune_due_ms := bundle_prune_due_ms s |}.

Definition with_bundles (s : RoomVolatileState) (b : gmap bytes StoredBundle) (due : Z) : RoomVolatileState := {|
  indexes := indexes s; backlog := backlog s; bundles := b;
  message_prune_due_ms := message_prune_due_ms s; bundle_prune_due_ms := due |}.

(** ** Operations *)

(** [should_prune_due]: the new due time and whether to prune. *)
Definition should_prune_due (prune_due_ms now_ms interval_ms : Z) : Z * bool :=
  if now_ms <? prune_due_ms then (prune_due_ms, false) else (sat_add now_ms interval_ms, true).

Definition index_member_join (i : RoomIndexes) (leaf_id we_epoch_id : bytes) (timestamp_ms : Z) : RoomIndexes := {|
  member_metadata := <[leaf_id := {| join_timestamp_ms := timestamp_ms; last_seen_timestamp_ms := timestamp_ms |}]> (member_metadata i);
  weid_to_leaf := <[we_epoch_id := leaf_id]> (filter (fun kv => kv.2 <> leaf_id) (weid_to_leaf i));
  epoch_scopes := epoch_scopes i |}.

(** [revoke_members]; the set it returns is the one of its argument. *)
Definition revoke_members (i : RoomIndexes) (leaves : list bytes) : RoomIndexes := {|
  member_metadata := filter (fun kv => kv.1 ∉ leaves) (member_metadata i);
  weid_to_leaf := filter (fun kv => kv.2 ∉ leaves) (weid_to_leaf i);
  epoch_scopes := epoch_scopes i |}.

Definition record_epoch_scope (i : RoomIndexes) (we_epoch_id : bytes) (scope : EpochScope) : RoomIndexes := {|
  member_metadata := member_metadata i; weid_to_leaf := weid_to_leaf i;
  epoch_scopes := <[we_epoch_id := scope]> (epoch_scopes i) |}.

Definition touch_member (i : RoomIndexes) (leaf_id : bytes) (timestamp_ms : Z) : RoomIndexes := {|
  member_metadata := alter (fun m => {| join_timestamp_ms := join_timestamp_ms m; last_seen_timestamp_ms := timestamp_ms |})
                       leaf_id (member_metadata i);
  weid_to_leaf := weid_to_leaf i; epoch_scopes := epoch_scopes i |}.

(** [prune_epoch_indexes]; with nothing expired the filters keep everything. *)
Definition prune_epoch_indexes (i : RoomIndexes) (expired : gset bytes) : RoomIndexes := {|
  member_metadata := member_metadata i;
  weid_to_leaf := filter (fun kv => kv.1 ∉ expired) (weid_to_leaf i);
  epoch_scopes := filter (fun kv => kv.1 ∉ expired) (epoch_scopes i) |}.

(** [retention.as_millis().min(u64::MAX)], and what is older than that. *)
Definition cutoff (now_ms retention : Z) : Z := sat_sub now_ms (Z.min retention U64_MAX).

Definition fresh_messages (limit : Z) (ms : list StoredMessage) : list StoredMessage :=
  filter (fun m => limit <= stm_timestamp_ms m) ms.

Definition prune_expired_messages (store : gmap bytes (list StoredMessage)) (now_ms retention : Z) : gmap bytes (list StoredMessage) :=
  omap (fun ms => match fresh_messages (cutoff now_ms retention) ms with [] => None | kept => Some kept end) store.

(** The bundles kept, and the epochs of those dropped. *)
Definition prune_expired_bundles (store : gmap bytes StoredBundle) (now_ms retention : Z) : gmap bytes StoredBundle * gset bytes :=
  let keep := fun kv : bytes * StoredBundle => cutoff now_ms retention <= sb_stored_at_ms kv.2 in
  (filter keep store, dom (filter (fun kv => ~ keep kv) store)).

(** [MessageBacklog::store] *)
Definition backlog_store (b : gmap bytes (list StoredMessage)) (we_epoch_id : bytes) (m : StoredMessage) : gmap bytes (list StoredMessage) :=
  <[we_epoch_id := default [] (b !! we_epoch_id) ++ [m]]> b.

(** The prune that [store_message] and [messages_for_epoch] run when it is due. *)
Definition lazy_prune_messages (s : RoomVolatileState) (now_ms retention prune_interval_ms : Z) : RoomVolatileState :=
  match should_prune_due (message_prune_due_ms s) now_ms prune_interval_ms with
  | (due, false) => s
  | (due, true) => with_backlog s (prune_expired_messages (backlog s) now_ms retention) due
  end.

Definition store_message (s : RoomVolatileState) (we_epoch_id : bytes) (message : StoredMessage) (now_ms retention prune_interval_ms : Z)
    : RoomVolatileState :=
  lazy_prune_messages (with_backlog s (backlog_store (backlog s) we_epoch_id message) (message_prune_due_ms s))
    now_ms retention prune_interval_ms.

Definition messages_for_epoch (s : RoomVolatileState) (we_epoch_id : bytes) (now_ms retention prune_interval_ms : Z)
    : RoomVolatileState * list StoredMessage :=
  let s := lazy_prune_messages s now_ms retention prune_interval_ms in
  (s, default [] (backlog s !! we_epoch_id)).

(** The prune of the bundles when it is due, and the epochs it drops. *)
Definition lazy_prune_bundles (s : RoomVolatileState) (now_ms retention prune_interval_ms : Z) : RoomVolatileState * gset bytes :=
  match should_prune_due (bundle_prune_due_ms s) now_ms prune_interval_ms with
  | (due, false) => (s, ∅)
  | (due, true) => let (kept, expired) := prune_expired_bundles (bundles s) now_ms retention in (with_bundles s kept due, expired)
  end.

(** [RoomVolatileState::store_bundle]: prune, store, then drop the indexes of what was pruned. *)
Definition store_bundle (s : RoomVolatileState) (we_epoch_id : bytes) (b : StoredBundle) (now_ms retention prune_interval_ms : Z)
    : RoomVolatileState :=
  let (s, expired) := lazy_prune_bundles s now_ms retention prune_interval_ms in
  let s := with_bundles s (<[we_epoch_id := b]> (bundles s)) (bundle_prune_due_ms s) in
  with_indexes s (prune_epoch_indexes (indexes s) expired).

(** [RoomVolatileState::bundle] *)
Definition get_bundle (s : RoomVolatileState) (we_epoch_id : bytes) (now_ms retention prune_interval_ms : Z)
    : RoomVolatileState * option StoredBundle :=
  let (s, expired) := lazy_prune_bundles s now_ms retention prune_interval_ms in
  (with_indexes s (prune_epoch_indexes (indexes s) expired), bundles s !! we_epoch_id).

(** ** The handlers of the service *)

Record RoomRetentionPolicy := { retention : Z; prune_interval_ms : Z }.

Record BundleIndexUpdate := { bu_we_epoch_id : bytes; bu_bytes : bytes; bu_membership_root : bytes; bu_timestamp_ms : Z }.

Record RoomMessageWrite := {
  rw_we_epoch_id : bytes; rw_sender_leaf : bytes; rw_ciphertext : bytes; rw_sender : bytes; rw_timestamp_ms : Z }.

Record AppliedBundleIndexes := {
  ap_gid : bytes; ap_we_epoch_id : bytes; ap_membership_root : bytes; ap_joined : list bytes; ap_revoked : list bytes; ap_timestamp_ms : Z }.

Inductive RoomServiceError := InvalidGidLength | MembershipDeltaError (msg : string).
Inductive RoomAuthorizationError := AuthNotFound | Unauthorized.
Inductive RoomMessageStoreError := StoreNotFound | EpochUnauthorized | RoomUnauthorized.

(** The scope, the joins and the revocations of a bundle, in the order [apply_bundle_indexes] records them. *)
Definition bundle_indexes (i : RoomIndexes) (gid : bytes) (delta : MembershipDelta) (u : BundleIndexUpdate) : RoomIndexes :=
  let i := record_epoch_scope i (bu_we_epoch_id u) {| es_gid := gid; es_membership_root := bu_membership_root u |} in
  let i := foldl (fun i leaf => index_member_join i leaf (bu_we_epoch_id u) (bu_timestamp_ms u)) i (joined delta) in
  match delta_revoked delta with [] => i | revoked => revoke_members i revoked end.

(** [apply_bundle_indexes]; the bundle is given by its [gid()] and the result of its [membership_delta()]. *)
Definition apply_bundle_indexes (s : RoomVolatileState) (bundle_gid : bytes) (bundle_delta : result string MembershipDelta)
    (u : BundleIndexUpdate) (p : RoomRetentionPolicy) : RoomVolatileState * result RoomServiceError AppliedBundleIndexes :=
  if negb (len bundle_gid =? 32) then (s, Err InvalidGidLength)
  else
    match bundle_delta with
    | Err msg => (s, Err (MembershipDeltaError msg))
    | Ok delta =>
        (store_bundle (with_indexes s (bundle_indexes (indexes s) bundle_gid delta u)) (bu_we_epoch_id u) {| sb_bytes := bu_bytes u; sb_stored_at_ms := bu_timestamp_ms u |}
           (bu_timestamp_ms u) (retention p) (prune_interval_ms p),
         Ok {| ap_gid := bundle_gid; ap_we_epoch_id := bu_we_epoch_id u; ap_membership_root := bu_membership_root u;
               ap_joined := joined delta; ap_revoked := delta_revoked delta; ap_timestamp_ms := bu_timestamp_ms u |})
    end.

(** The groups of the server, by [gid]. *)
Definition Groups := gmap bytes Group.

(** [GroupRoster::members_for_root] *)
Definition members_for_root (groups : Groups) (gid root : bytes) : option (list bytes) :=
  g ← groups !! gid; s ← snapshots g !! root; Some (members s).

(** [GroupRoster::latest_root], which [latest_parent_root] returns. *)
Definition latest_parent_root (groups : Groups) (gid : bytes) : option bytes := g ← groups !! gid; latest_root g.

Definition ensure_leaf_member_for_epoch (groups : Groups) (s : RoomVolatileState) (we_epoch_id leaf_id : bytes)
    : result RoomAuthorizationError EpochScope :=
  scope ← ok_or (epoch_scopes (indexes s) !! we_epoch_id) AuthNotFound;
  ms ← ok_or (members_for_root groups (es_gid scope) (es_membership_root scope)) AuthNotFound;
  fail_if (negb (bool_decide (leaf_id ∈ ms))) Unauthorized ;; Ok scope.

Definition ensure_leaf_member_for_room (groups : Groups) (gid leaf_id : bytes) : result RoomAuthorizationError unit :=
  latest ← ok_or (latest_parent_root groups gid) AuthNotFound;
  ms ← ok_or (members_for_root groups gid latest) AuthNotFound;
  fail_if (negb (bool_decide (leaf_id ∈ ms))) Unauthorized.

Definition fetch_room_messages (groups : Groups) (s : RoomVolatileState) (we_epoch_id leaf_id : bytes) (now_ms retention prune_interval_ms : Z)
    : RoomVolatileState * result RoomAuthorizationError (list StoredMessage) :=
  match ensure_leaf_member_for_epoch groups s we_epoch_id leaf_id with
  | Err e => (s, Err e)
  | Ok _ => let (s, ms) := messages_for_epoch s we_epoch_id now_ms retention prune_interval_ms in (s, Ok ms)
  end.

Definition stored (w : RoomMessageWrite) : StoredMessage := {|
  stm_we_epoch_id := rw_we_epoch_id w; stm_ciphertext := rw_ciphertext w; stm_sender := rw_sender w; stm_timestamp_ms := rw_timestamp_ms w |}.

(** The two checks of [store_room_message], with its error mapping. *)
Definition authorize_write (groups : Groups) (s : RoomVolatileState) (w : RoomMessageWrite) : result RoomMessageStoreError EpochScope :=
  scope ← map_err (fun e => match e with AuthNotFound => StoreNotFound | Unauthorized => EpochUnauthorized end)
            (ensure_leaf_member_for_epoch groups s (rw_we_epoch_id w) (rw_sender_leaf w));
  map_err (fun e => match e with AuthNotFound => StoreNotFound | Unauthorized => RoomUnauthorized end)
    (ensure_leaf_member_for_room groups (es_gid scope) (rw_sender_leaf w)) ;;
  Ok scope.

Definition store_room_message (groups : Groups) (s : RoomVolatileState) (w : RoomMessageWrite) (p : RoomRetentionPolicy)
    : RoomVolatileState * result RoomMessageStoreError EpochScope :=
  match authorize_write groups s w with
  | Err e => (s, Err e)
  | Ok scope =>
      let s := store_message s (rw_we_epoch_id w) (stored w) (rw_timestamp_ms w) (retention p) (prune_interval_ms p) in
      (with_indexes s (touch_member (indexes s) (rw_sender_leaf w) (rw_timestamp_ms w)), Ok scope)
  end.

(** ** Requests in sequence *)

Inductive Request :=
  | Accept (bundle_gid : bytes) (bundle_delta : result string MembershipDelta) (u : BundleIndexUpdate)
  | Post (w : RoomMessageWrite)
  | Fetch (we_epoch_id leaf_id : bytes) (now_ms : Z)
  | GetBundle (we_epoch_id : bytes) (now_ms : Z).

(** The clock reading a request is served at. *)
Definition clock (r : Request) : Z :=
  match r with
  | Accept _ _ u => bu_timestamp_ms u
  | Post w => rw_timestamp_ms w
  | Fetch _ _ now | GetBundle _ now => now
  end.

(** A request is served against the groups as they are then. *)
Definition serve_room (p : RoomRetentionPolicy) (s : RoomVolatileState) (gr : Groups * Request) : RoomVolatileState :=
  match gr.2 with
  | Accept gid delta u => (apply_bundle_indexes s gid delta u p).1
  | Post w => (store_room_message gr.1 s w p).1
  | Fetch weid leaf now => (fetch_room_messages gr.1 s weid leaf now (retention p) (prune_interval_ms p)).1
  | GetBundle weid now => (get_bundle s weid now (retention p) (prune_interval_ms p)).1
  end.

Definition serve_all (p : RoomRetentionPolicy) (s : RoomVolatileState) (l : list (Groups * Request)) : RoomVolatileState :=
  foldl (serve_room p) s l.

(** The clock does not go back. *)
Fixpoint clocks_from (t : Z) (l : list (Groups * Request)) : Prop :=
  match l with
  | [] => True
  | gr :: rest => t <= clock gr.2 /\ clocks_from (clock gr.2) rest
  end.

(** ** Snapshots *)

Record RoomVolatileSnapshot := {
  vs_member_metadata : list (bytes * MemberMetadata);
  vs_weid_to_leaf : list (bytes * bytes);
  vs_epoch_scopes : list (bytes * EpochScope);
  vs_messages : list StoredMessage;
  vs_bundles : list (bytes * StoredBundle);
  vs_message_prune_due_ms : Z;
  vs_bundle_prune_due_ms : Z;
}.

(** [sort_by_key] is stable: an element is put before the first one that is not below it. *)
Fixpoint insert_by {A} (le : A -> A -> bool) (x : A) (l : list A) : list A :=
  match l with
  | [] => [x]
  | y :: tl => if le x y then x :: l else y :: insert_by le x tl
  end.

Definition sort_by {A} (le : A -> A -> bool) (l : list A) : list A := foldr (insert_by le) [] l.

Definition key_le {A} (a b : bytes * A) : bool := bool_decide (bytes_le a.1 b.1).

(** The order of [(message.we_epoch_id, message.timestamp_ms)]. *)
Definition message_le (a b : StoredMessage) : bool :=
  match bytes_cmp (stm_we_epoch_id a) (stm_we_epoch_id b) with
  | Lt => true
  | Gt => false
  | Eq => stm_timestamp_ms a <=? stm_timestamp_ms b
  end.

(** The entries of a map, sorted. *)
Definition sorted_entries {A} (m : gmap bytes A) : list (bytes * A) := sort_by key_le (map_to_list m).

Definition room_snapshot (s : RoomVolatileState) : RoomVolatileSnapshot := {|
  vs_member_metadata := sorted_entries (member_metadata (indexes s));
  vs_weid_to_leaf := sorted_entries (weid_to_leaf (indexes s));
  vs_epoch_scopes := sorted_entries (epoch_scopes (indexes s));
  vs_messages := sort_by message_le (concat ((map_to_list (backlog s)).*2));
  vs_bundles := sorted_entries (bundles s);
  vs_message_prune_due_ms := message_prune_due_ms s;
  vs_bundle_prune_due_ms := bundle_prune_due_ms s |}.

(** [collect] into a map: the last of two entries for a key stays. *)
Definition collect {A} (l : list (bytes * A)) : gmap bytes A := foldl (fun m kv => <[kv.1 := kv.2]> m) ∅ l.

Definition from_snapshot (v : RoomVolatileSnapshot) : RoomVolatileState := {|
  indexes := {| member_metadata := collect (vs_member_metadata v); weid_to_leaf := collect (vs_weid_to_leaf v);
                epoch_scopes := collect (vs_epoch_scopes v) |};
  backlog := foldl (fun acc m => backlog_store acc (stm_we_epoch_id m) m) ∅ (vs_messages v);
  bundles := collect (vs_bundles v);
  message_prune_due_ms := vs_message_prune_due_ms v;
  bundle_prune_due_ms := vs_bundle_prune_due_ms v |}.

(** ** The shape of the state *)

(** A backlog entry is not empty and holds messages of its epoch; a leaf joined
    in one epoch at most, and has its metadata. *)
Record room_ok (s : RoomVolatileState) : Prop := {
  ok_backlog w ms : backlog s !! w = Some ms -> ms <> [] /\ Forall (fun m => stm_we_epoch_id m = w) ms;
  ok_one_epoch w1 w2 leaf : weid_to_leaf (indexes s) !! w1 = Some leaf -> weid_to_leaf (indexes s) !! w2 = Some leaf -> w1 = w2;
  ok_metadata w leaf : weid_to_leaf (indexes s) !! w = Some leaf -> is_Some (member_metadata (indexes s) !! leaf);
}.

(** The part that concerns the indexes. *)
Definition indexes_ok (i : RoomIndexes) : Prop :=
  (forall w1 w2 leaf, weid_to_leaf i !! w1 = Some leaf -> weid_to_leaf i !! w2 = Some leaf -> w1 = w2)
  /\ (forall w leaf, weid_to_leaf i !! w = Some leaf -> is_Some (member_metadata i !! leaf)).

Definition backlog_ok (b : gmap bytes (list StoredMessage)) : Prop :=
  forall w ms, b !! w = Some ms -> ms <> [] /\ Forall (fun m => stm_we_epoch_id m = w) ms.

Lemma room_ok_parts s : room_ok s <-> backlog_ok (backlog s) /\ indexes_ok (indexes s).
Proof. split; [intros [H1 H2 H3]; done|intros [H1 [H2 H3]]; by constructor]. Qed.

Lemma index_member_join_ok i leaf w ts : indexes_ok i -> indexes_ok (index_member_join i leaf w ts).
Proof.
  intros [Hi Hm]. split; cbn.
  - intros w1 w2 l. rewrite !lookup_insert_Some, !map_lookup_filter_Some. cbn. naive_solver.
  - intros w1 l. rewrite lookup_insert_Some, map_lookup_filter_Some. cbn. intros [[_ <-]|[_ [Hl Hne]]].
    + by rewrite lookup_insert_eq.
    + rewrite lookup_insert_ne by done. by eapply Hm.
Qed.

(** Dropping bindings, and metadata that no binding needs. *)
Lemma drop_bindings_ok i i' : indexes_ok i -> weid_to_leaf i' ⊆ weid_to_leaf i ->
  (forall w l, weid_to_leaf i' !! w = Some l -> member_metadata i !! l = member_metadata i' !! l) -> indexes_ok i'.
Proof.
  intros [Hi Hm] Hs Hd. assert (Hl : forall w l, weid_to_leaf i' !! w = Some l -> weid_to_leaf i !! w = Some l).
  { intros w l H. by eapply lookup_weaken. }
  split; [intros w1 w2 l H1 H2; by eapply Hi; eapply Hl|]. intros w l H. rewrite <- (Hd w l H). eapply Hm. by apply Hl.
Qed.

Lemma revoke_members_ok i leaves : indexes_ok i -> indexes_ok (revoke_members i leaves).
Proof.
  intros Hi. apply (drop_bindings_ok i); [done|apply map_filter_subseteq|]. intros w l. cbn. rewrite map_lookup_filter_Some. cbn. intros [_ Hn].
  destruct (member_metadata i !! l) as [m|] eqn:E; symmetry.
  - by apply map_lookup_filter_Some.
  - apply map_lookup_filter_None. by left.
Qed.

Lemma prune_epoch_indexes_ok i expired : indexes_ok i -> indexes_ok (prune_epoch_indexes i expired).
Proof. intros Hi. apply (drop_bindings_ok i); [done|apply map_filter_subseteq|done]. Qed.

Lemma touch_member_ok i leaf ts : indexes_ok i -> indexes_ok (touch_member i leaf ts).
Proof.
  intros [Hi Hm]. split; [done|]. cbn. intros w l Hl. apply Hm in Hl as [m Hl]. destruct (decide (leaf = l)) as [->|Hne].
  - rewrite lookup_alter_eq, Hl. by eexists.
  - rewrite lookup_alter_ne, Hl by done. by eexists.
Qed.

Lemma bundle_indexes_ok i gid delta u : indexes_ok i -> indexes_ok (bundle_indexes i gid delta u).
Proof.
  intros Hi. unfold bundle_indexes. set (i0 := record_epoch_scope i _ _). assert (indexes_ok i0) as H by done. clearbody i0. clear i Hi.
  cbv zeta. set (i1 := foldl _ i0 _). assert (indexes_ok i1) as H1.
  { unfold i1. clear i1. revert i0 H. induction (joined delta) as [|j js IH]; intros i Hi; [done|]. apply IH. by apply index_member_join_ok. }
  destruct (delta_revoked delta); [done|]. by apply revoke_members_ok.
Qed.

(** The messages of an epoch, in the order they are served. *)
Definition mlist (b : gmap bytes (list StoredMessage)) (w : bytes) : list StoredMessage := default [] (b !! w).

Lemma mlist_prune b now r w : mlist (prune_expired_messages b now r) w = fresh_messages (cutoff now r) (mlist b w).
Proof.
  unfold mlist, prune_expired_messages. rewrite lookup_omap. destruct (b !! w) as [ms|]; [|done]. cbn -[fresh_messages].
  by destruct (fresh_messages (cutoff now r) ms).
Qed.

Lemma mlist_store b w w' m : mlist (backlog_store b w m) w' = mlist b w' ++ (if decide (w = w') then [m] else []).
Proof.
  unfold mlist, backlog_store. destruct (decide (w = w')) as [->|Hne].
  - by rewrite lookup_insert_eq.
  - by rewrite lookup_insert_ne, app_nil_r by done.
Qed.

(** A backlog is well formed when its lists are, and none is stored empty. *)
Lemma backlog_ok_iff b : backlog_ok b <-> (forall w, b !! w <> Some []) /\ (forall w, Forall (fun m => stm_we_epoch_id m = w) (mlist b w)).
Proof.
  unfold mlist. split.
  - intros H. split; intros w; [intros Hw; by apply H in Hw as [? _]|]. destruct (b !! w) as [ms|] eqn:E; [by apply H in E as [_ ?]|constructor].
  - intros [H1 H2] w ms Hw. split; [intros ->; by apply (H1 w)|]. specialize (H2 w). by rewrite Hw in H2.
Qed.

Lemma backlog_store_ok b w m : backlog_ok b -> stm_we_epoch_id m = w -> backlog_ok (backlog_store b w m).
Proof.
  rewrite !backlog_ok_iff. intros [H1 H2] Hm. split.
  - intros w'. unfold backlog_store. rewrite lookup_insert_Some. intros [[_ H]|[_ H]]; [by destruct (default [] (b !! w))|by apply (H1 w')].
  - intros w'. rewrite mlist_store. apply Forall_app. split; [done|]. destruct (decide (w = w')) as [->|]; [by repeat constructor|constructor].
Qed.

Lemma prune_messages_ok b now r : backlog_ok b -> backlog_ok (prune_expired_messages b now r).
Proof.
  rewrite !backlog_ok_iff. intros [H1 H2]. split.
  - intros w. unfold prune_expired_messages. rewrite lookup_omap. destruct (b !! w) as [ms|]; [|done]. cbn -[fresh_messages].
    by destruct (fresh_messages (cutoff now r) ms).
  - intros w. rewrite mlist_prune. apply Forall_forall. intros m Hm. apply list_elem_of_filter in Hm as [_ Hm].
    by eapply (proj1 (Forall_forall _ _) (H2 w)).
Qed.

(** The prunes leave the other half of the state alone. *)
Lemma lazy_prune_messages_indexes s now r i : indexes (lazy_prune_messages s now r i) = indexes s.
Proof. unfold lazy_prune_messages, should_prune_due. by destruct (now <? _). Qed.

Lemma lazy_prune_bundles_same s now r i :
  indexes (lazy_prune_bundles s now r i).1 = indexes s /\ backlog (lazy_prune_bundles s now r i).1 = backlog s
  /\ message_prune_due_ms (lazy_prune_bundles s now r i).1 = message_prune_due_ms s.
Proof. unfold lazy_prune_bundles, should_prune_due. by destruct (now <? _). Qed.

Lemma lazy_prune_messages_ok s now r i : backlog_ok (backlog s) -> backlog_ok (backlog (lazy_prune_messages s now r i)).
Proof. unfold lazy_prune_messages, should_prune_due. destruct (now <? _); [done|]. apply prune_messages_ok. Qed.

Lemma serve_room_ok p s gr : room_ok s -> room_ok (serve_room p s gr).
Proof.
  rewrite !room_ok_parts. intros [Hb Hi]. destruct gr as [groups [gid delta u|w|weid leaf now|weid now]]; cbn [serve_room snd fst].
  - unfold apply_bundle_indexes. destruct (negb _); [done|]. destruct delta as [delta|]; [|done]. cbn [fst]. unfold store_bundle.
    set (i := bundle_indexes _ _ _ _). assert (indexes_ok i) as Hi' by (by apply bundle_indexes_ok).
    pose proof (lazy_prune_bundles_same (with_indexes s i) (bu_timestamp_ms u) (retention p) (prune_interval_ms p)) as (H1 & H2 & _).
    destruct (lazy_prune_bundles _ _ _ _) as [s' expired]. cbn in *. rewrite H1, H2. split; [done|]. by apply prune_epoch_indexes_ok.
  - unfold store_room_message. destruct (authorize_write groups s w); [|done]. cbn. split.
    + apply lazy_prune_messages_ok. by apply backlog_store_ok.
    + unfold store_message. rewrite lazy_prune_messages_indexes. by apply touch_member_ok.
  - unfold fetch_room_messages. destruct (ensure_leaf_member_for_epoch _ _ _ _); [|done]. cbn. split; [by apply lazy_prune_messages_ok|].
    by rewrite lazy_prune_messages_indexes.
  - unfold get_bundle. pose proof (lazy_prune_bundles_same s now (retention p) (prune_interval_ms p)) as (H1 & H2 & _).
    destruct (lazy_prune_bundles _ _ _ _) as [s' expired]. cbn in *. rewrite H1, H2. split; [done|]. by apply prune_epoch_indexes_ok.
Qed.

Lemma room_default_ok : room_ok room_default.
Proof. split; cbn; intros *; by rewrite lookup_empty. Qed.

Lemma serve_all_ok p s l : room_ok s -> room_ok (serve_all p s l).
Proof. revert s. induction l as [|gr l IH]; intros s H; [done|]. apply IH. by apply serve_room_ok. Qed.

(** C23: The shape of the room state.  Whatever requests are served, in any order
    and with any clock, from the empty state: every backlog entry is non-empty
    and holds messages of its own epoch; no leaf is bound to two epochs; and
    every leaf bound to an epoch has its metadata. *)
Theorem room_ok_reachable p l : room_ok (serve_all p room_default l).
Proof. apply serve_all_ok, room_default_ok. Qed.

(** ** The backlog as a log *)

Lemma fresh_app c a b : fresh_messages c (a ++ b) = fresh_messages c a ++ fresh_messages c b.
Proof. apply filter_app. Qed.

Lemma fresh_fresh c c' l : c' <= c -> fresh_messages c (fresh_messages c' l) = fresh_messages c l.
Proof.
  intros Hc. unfold fresh_messages. induction l as [|m l IH]; [done|]. rewrite !filter_cons.
  destruct (decide (c' <= stm_timestamp_ms m)), (decide (c <= stm_timestamp_ms m)); try lia; rewrite ?filter_cons, ?IH.
  - by rewrite decide_True.
  - by rewrite decide_False.
  - done.
Qed.

Lemma cutoff_mono a b r : a <= b -> cutoff a r <= cutoff b r.
Proof. unfold cutoff, sat_sub. lia. Qed.

(** The messages that a request adds to an epoch. *)
Definition posted (s : RoomVolatileState) (gr : Groups * Request) (weid : bytes) : list StoredMessage :=
  match gr.2 with
  | Post w => match authorize_write gr.1 s w with
              | Ok _ => if decide (rw_we_epoch_id w = weid) then [stored w] else []
              | Err _ => []
              end
  | _ => []
  end.

(** The posts to an epoch that were accepted, in order. *)
Fixpoint post_log (p : RoomRetentionPolicy) (s : RoomVolatileState) (l : list (Groups * Request)) (weid : bytes) : list StoredMessage :=
  match l with
  | [] => []
  | gr :: l => posted s gr weid ++ post_log p (serve_room p s gr) l weid
  end.

(** What a request does to the messages of an epoch. *)
Lemma serve_room_mlist p s gr w :
  let before := mlist (backlog s) w ++ posted s gr w in
  let after := mlist (backlog (serve_room p s gr)) w in
  after = before \/ after = fresh_messages (cutoff (clock gr.2) (retention p)) before.
Proof.
  destruct gr as [groups [gid delta u|wr|weid leaf now|weid now]]; cbn [serve_room posted snd fst clock]; rewrite ?app_nil_r.
  - left. unfold apply_bundle_indexes. destruct (negb _); [done|]. destruct delta as [delta|]; [|done]. cbn [fst]. unfold store_bundle.
    set (i := bundle_indexes _ _ _ _).
    pose proof (lazy_prune_bundles_same (with_indexes s i) (bu_timestamp_ms u) (retention p) (prune_interval_ms p)) as (_ & H2 & _).
    destruct (lazy_prune_bundles _ _ _ _) as [s' expired]. cbn in *. by rewrite H2.
  - unfold store_room_message. destruct (authorize_write groups s wr); [|left; symmetry; apply app_nil_r]. cbn [fst backlog with_indexes].
    unfold store_message, lazy_prune_messages, should_prune_due. cbn [message_prune_due_ms with_backlog backlog]. destruct (_ <? _).
    + left. apply mlist_store.
    + right. rewrite <- mlist_store. apply mlist_prune.
  - unfold fetch_room_messages. destruct (ensure_leaf_member_for_epoch _ _ _ _); [|by left]. cbn [fst messages_for_epoch].
    unfold lazy_prune_messages, should_prune_due. destruct (_ <? _); [by left|]. right. apply mlist_prune.
  - left. unfold get_bundle. pose proof (lazy_prune_bundles_same s now (retention p) (prune_interval_ms p)) as (_ & H2 & _).
    destruct (lazy_prune_bundles _ _ _ _) as [s' expired]. cbn in *. by rewrite H2.
Qed.

Lemma serve_all_app p s l1 l2 : serve_all p s (l1 ++ l2) = serve_all p (serve_all p s l1) l2.
Proof. apply foldl_app. Qed.

Lemma post_log_app p s l1 l2 w : post_log p s (l1 ++ l2) w = post_log p s l1 w ++ post_log p (serve_all p s l1) l2 w.
Proof. revert s. induction l1 as [|gr l1 IH]; intros s; [done|]. cbn [app post_log]. rewrite IH, (assoc_L (++)). done. Qed.

Lemma serve_all_sublist p s l w : mlist (backlog (serve_all p s l)) w `sublist_of` mlist (backlog s) w ++ post_log p s l w.
Proof.
  revert s. induction l as [|gr l IH]; intros s; cbn [serve_all foldl post_log]; [by rewrite app_nil_r|].
  fold (serve_all p (serve_room p s gr) l). etrans; [apply IH|]. rewrite (assoc_L (++)). apply sublist_app; [|done].
  destruct (serve_room_mlist p s gr w) as [-> | ->]; [done|]. apply sublist_filter.
Qed.

Lemma serve_all_log p s l w c : Forall (fun gr => cutoff (clock gr.2) (retention p) <= c) l ->
  fresh_messages c (mlist (backlog (serve_all p s l)) w) = fresh_messages c (mlist (backlog s) w ++ post_log p s l w).
Proof.
  intros H. revert s. induction H as [|gr l Hc _ IH]; intros s; cbn [serve_all foldl post_log]; [by rewrite app_nil_r|].
  fold (serve_all p (serve_room p s gr) l). rewrite IH, !fresh_app, (assoc_L (++)). f_equal. rewrite <- fresh_app.
  destruct (serve_room_mlist p s gr w) as [-> | ->]; [done|]. by apply fresh_fresh.
Qed.

(** A fetch, against the log of the posts. *)
Lemma fetched_log p l groups weid leaf now :
  Forall (fun gr => clock gr.2 <= now) l ->
  let s := serve_all p room_default l in
  match (fetch_room_messages groups s weid leaf now (retention p) (prune_interval_ms p)).2 with
  | Ok ms => (exists scope, ensure_leaf_member_for_epoch groups s weid leaf = Ok scope)
             /\ ms `sublist_of` post_log p room_default l weid
             /\ fresh_messages (cutoff now (retention p)) ms
                = fresh_messages (cutoff now (retention p)) (post_log p room_default l weid)
  | Err e => ensure_leaf_member_for_epoch groups s weid leaf = Err e
  end.
Proof.
  intros Hl. cbv zeta. set (s := serve_all p room_default l).
  pose proof (serve_all_sublist p room_default l weid) as H2.
  assert (H1 := serve_all_log p room_default l weid (cutoff now (retention p))). ospecialize (H1 _).
  { eapply Forall_impl; [exact Hl|]. intros gr Hc. by apply cutoff_mono. }
  fold s in H1, H2. change (mlist (backlog room_default) weid) with (@nil StoredMessage) in H1, H2. cbn [app] in H1, H2.
  pose proof (serve_room_mlist p s (groups, Fetch weid leaf now) weid) as H. cbn [posted snd clock serve_room fst] in H.
  rewrite app_nil_r in H. unfold fetch_room_messages in *. destruct (ensure_leaf_member_for_epoch groups s weid leaf) as [scope|e]; [|done].
  cbn [messages_for_epoch fst snd] in *. split; [by exists scope|]. unfold mlist in H at 1 3. rewrite <- H1.
  destruct H as [-> | ->]; [done|]. split; [etrans; [apply sublist_filter|done]|]. by apply fresh_fresh.
Qed.

(** C14: The backlog implements an append-only log with a retention period.
    After any requests, whose clock readings are not past [now], a fetch at
    [now] answers a member of the epoch with a subsequence of the accepted
    posts to that epoch; and as far as posts have not expired at [now] it is
    the log itself: every one of them is there, in the order in which they
    were accepted, none twice.  Everyone else is refused, as the check of the
    epoch's membership says. *)
Theorem backlog_refines_log p l groups weid leaf now :
  Forall (fun gr => clock gr.2 <= now) l ->
  let s := serve_all p room_default l in
  match (fetch_room_messages groups s weid leaf now (retention p) (prune_interval_ms p)).2 with
  | Ok ms => (exists scope, ensure_leaf_member_for_epoch groups s weid leaf = Ok scope)
             /\ ms `sublist_of` post_log p room_default l weid
             /\ fresh_messages (cutoff now (retention p)) ms
                = fresh_messages (cutoff now (retention p)) (post_log p room_default l weid)
  | Err e => ensure_leaf_member_for_epoch groups s weid leaf = Err e
  end.
Proof. apply fetched_log. Qed.

(** ** How old a served message can be *)

(** Nothing in the backlog had expired at the last prune, which is at most an interval old. *)
Definition recent (p : RoomRetentionPolicy) (t : Z) (s : RoomVolatileState) : Prop :=
  message_prune_due_ms s <= t + prune_interval_ms p
  /\ forall w m, m ∈ mlist (backlog s) w -> message_prune_due_ms s - prune_interval_ms p - retention p <= stm_timestamp_ms m.

Lemma lazy_prune_recent p t t' s : t <= t' -> 0 <= t' ->
  recent p t s -> recent p t' (lazy_prune_messages s t' (retention p) (prune_interval_ms p)).
Proof.
  intros Ht H0 [Hd Hm]. unfold lazy_prune_messages, should_prune_due. destruct (Z.ltb_spec t' (message_prune_due_ms s)).
  - split; [lia|done].
  - split; cbn; [unfold sat_add; lia|]. intros w m Hin. rewrite mlist_prune in Hin. apply list_elem_of_filter in Hin as [Hc _].
    unfold cutoff, sat_sub, sat_add in *. lia.
Qed.

Lemma same_backlog_recent p t t' s s' : t <= t' -> backlog s' = backlog s -> message_prune_due_ms s' = message_prune_due_ms s ->
  recent p t s -> recent p t' s'.
Proof. intros Ht Hb Hd [H1 H2]. unfold recent. rewrite Hb, Hd. split; [lia|done]. Qed.

Lemma serve_room_recent p t s gr : 0 <= retention p -> 0 <= t -> t <= clock gr.2 ->
  recent p t s -> recent p (clock gr.2) (serve_room p s gr).
Proof.
  intros Hp H0 Ht Hs. destruct gr as [groups [gid delta u|wr|weid leaf now|weid now]]; cbn [serve_room snd fst clock] in *.
  - unfold apply_bundle_indexes. destruct (negb _); [by eapply same_backlog_recent|]. destruct delta as [delta|]; [|by eapply same_backlog_recent].
    cbn [fst]. unfold store_bundle. set (i := bundle_indexes _ _ _ _).
    pose proof (lazy_prune_bundles_same (with_indexes s i) (bu_timestamp_ms u) (retention p) (prune_interval_ms p)) as (_ & H2 & H3).
    destruct (lazy_prune_bundles _ _ _ _) as [s' expired]. by eapply same_backlog_recent.
  - unfold store_room_message. destruct (authorize_write groups s wr); [|by eapply same_backlog_recent]. cbn [fst].
    eapply (same_backlog_recent _ (rw_timestamp_ms wr)); [lia|done|done|]. unfold store_message. apply (lazy_prune_recent _ t); [lia|lia|].
    destruct Hs as [Hd Hm]. split; [done|]. cbn. intros w m. rewrite mlist_store. intros [Hin|Hin]%elem_of_app; [by eapply Hm|].
    destruct (decide (rw_we_epoch_id wr = w)); [|by apply not_elem_of_nil in Hin]. apply list_elem_of_singleton in Hin as ->. cbn. lia.
  - unfold fetch_room_messages. destruct (ensure_leaf_member_for_epoch _ _ _ _); [|by eapply same_backlog_recent].
    cbn [fst messages_for_epoch]. apply (lazy_prune_recent _ t); [lia|lia|done].
  - unfold get_bundle. pose proof (lazy_prune_bundles_same s now (retention p) (prune_interval_ms p)) as (_ & H2 & H3).
    destruct (lazy_prune_bundles _ _ _ _) as [s' expired]. by eapply same_backlog_recent.
Qed.

Lemma serve_all_recent p t s l : 0 <= retention p -> 0 <= t -> clocks_from t l -> recent p t s ->
  exists t', recent p t' (serve_all p s l) /\ t <= t' /\ forall gr, clocks_from t (l ++ [gr]) -> t' <= clock gr.2.
Proof.
  intros Hp. revert t s. induction l as [|gr l IH]; intros t s H0 Hc Hs.
  - exists t. split; [done|]. split; [lia|]. intros gr [H _]. done.
  - destruct Hc as [Ht Hc]. destruct (IH (clock gr.2) (serve_room p s gr)) as (t' & H1 & H2 & H3); [lia|done|by apply (serve_room_recent p t)|].
    exists t'. split; [done|]. split; [lia|]. intros gr' [_ H]. by apply H3.
Qed.

Lemma recent_default p : 0 <= prune_interval_ms p -> recent p 0 room_default.
Proof. intros H. split; [cbn; lia|]. intros w m Hm. change (m ∈ @nil StoredMessage) in Hm. by apply not_elem_of_nil in Hm. Qed.

(** Expired messages are not served for long: when the clock does not go
    back, no fetch returns a message that had expired more than a prune
    interval before, although the backlog is pruned only when a request comes
    and the last prune is an interval old. *)
Theorem served_messages_recent p l groups weid leaf now ms :
  0 <= retention p -> 0 <= prune_interval_ms p ->
  clocks_from 0 (l ++ [(groups, Fetch weid leaf now)]) ->
  (fetch_room_messages groups (serve_all p room_default l) weid leaf now (retention p) (prune_interval_ms p)).2 = Ok ms ->
  forall m, m ∈ ms -> now - retention p - prune_interval_ms p <= stm_timestamp_ms m.
Proof.
  intros Hr Hi Hc Hf m Hm. assert (clocks_from 0 l) as Hl.
  { clear Hf Hm. revert Hc. generalize 0. induction l as [|gr l IH]; intros t; [done|]. intros [H1 H2]. split; [done|]. by apply IH. }
  destruct (serve_all_recent p 0 room_default l Hr ltac:(lia) Hl (recent_default p Hi)) as (t & Hs & Ht & Hlast).
  apply Hlast in Hc. cbn in Hc. unfold fetch_room_messages in Hf. destruct (ensure_leaf_member_for_epoch _ _ _ _); [|done].
  cbn in Hf. injection Hf as <-. revert Hm. generalize dependent (serve_all p room_default l). intros s [Hd Hb].
  unfold lazy_prune_messages, should_prune_due. destruct (Z.ltb_spec now (message_prune_due_ms s)) as [Hn|Hn]; intros Hm.
  - pose proof (Hb _ _ Hm). lia.
  - cbn [backlog with_backlog] in Hm. fold (mlist (prune_expired_messages (backlog s) now (retention p)) weid) in Hm.
    rewrite mlist_prune in Hm. apply list_elem_of_filter in Hm as [Hm _]. unfold cutoff, sat_sub in Hm. lia.
Qed.

(** ** Snapshots *)

Section Sorting.
Context {A : Type} (le : A -> A -> bool).
Context (le_total : forall a b, le a b = false -> le b a = true) (le_trans : forall a b c, le a b = true -> le b c = true -> le a c = true).

Lemma insert_by_perm x l : insert_by le x l ≡ₚ x :: l.
Proof using. induction l as [|y l IH]; [done|]. cbn. destruct (le x y); [done|]. rewrite IH. apply perm_swap. Qed.

Lemma sort_by_perm l : sort_by le l ≡ₚ l.
Proof using. induction l as [|x l IH]; [done|]. cbn. rewrite insert_by_perm. by f_equiv. Qed.

Lemma insert_by_below x l : Forall (fun y => le x y = true) l -> insert_by le x l = x :: l.
Proof using. destruct 1 as [|y l Hy _]; [done|]. cbn. by rewrite Hy. Qed.

Lemma insert_by_sorted x l : StronglySorted (fun a b => le a b = true) l -> StronglySorted (fun a b => le a b = true) (insert_by le x l).
Proof using le_total le_trans.
  induction 1 as [|y l Hs IH Hy]; cbn; [by repeat constructor|]. destruct (le x y) eqn:E.
  - constructor; [by constructor|]. constructor; [done|]. eapply Forall_impl; [exact Hy|]. intros z Hz. by eapply le_trans.
  - constructor; [done|]. apply Forall_forall. intros z. rewrite insert_by_perm. intros [->|Hz]%elem_of_cons; [by apply le_total|].
    by eapply (proj1 (Forall_forall _ _) Hy).
Qed.

Lemma sort_by_sorted l : StronglySorted (fun a b => le a b = true) (sort_by le l).
Proof using le_total le_trans. induction l as [|x l IH]; [constructor|]. by apply insert_by_sorted. Qed.

Lemma sort_by_id l : StronglySorted (fun a b => le a b = true) l -> sort_by le l = l.
Proof using. induction 1 as [|x l Hs IH Hx]; [done|]. cbn. fold (sort_by le l). rewrite IH. by apply insert_by_below. Qed.

(** The sort is stable: it commutes with taking out some of the elements. *)
Lemma filter_insert_by (P : A -> Prop) `{!forall x, Decision (P x)} x l : StronglySorted (fun a b => le a b = true) l ->
  filter P (insert_by le x l) = if decide (P x) then insert_by le x (filter P l) else filter P l.
Proof using le_trans.
  induction 1 as [|y l Hs IH Hy]; cbn [insert_by]; [rewrite filter_cons; by destruct (decide (P x))|].
  destruct (le x y) eqn:E.
  - rewrite filter_cons. destruct (decide (P x)); [|done]. symmetry. apply insert_by_below. apply Forall_forall.
    intros z [_ Hz]%list_elem_of_filter. apply elem_of_cons in Hz as [->|Hz]; [done|]. eapply le_trans; [done|].
    by eapply (proj1 (Forall_forall _ _) Hy).
  - rewrite !filter_cons, IH. destruct (decide (P y)), (decide (P x)); try done. cbn. by rewrite E.
Qed.

Lemma filter_sort_by (P : A -> Prop) `{!forall x, Decision (P x)} l : filter P (sort_by le l) = sort_by le (filter P l).
Proof using le_total le_trans.
  induction l as [|x l IH]; [done|]. cbn [sort_by foldr]. fold (sort_by le l). rewrite filter_insert_by by apply sort_by_sorted.
  rewrite filter_cons, IH. by destruct (decide (P x)).
Qed.
End Sorting.

Lemma message_le_total a b : message_le a b = false -> message_le b a = true.
Proof.
  unfold message_le. rewrite (bytes_cmp_antisym (stm_we_epoch_id a) (stm_we_epoch_id b)).
  destruct (bytes_cmp (stm_we_epoch_id a) (stm_we_epoch_id b)); cbn [CompOpp]; intros H; [lia|done|done].
Qed.

Lemma message_le_trans a b c : message_le a b = true -> message_le b c = true -> message_le a c = true.
Proof.
  unfold message_le. destruct (bytes_cmp (stm_we_epoch_id a) (stm_we_epoch_id b)) eqn:E1; [| |done].
  - apply bytes_cmp_eq in E1 as ->. destruct (bytes_cmp _ _); [lia|done|done].
  - destruct (bytes_cmp (stm_we_epoch_id b) (stm_we_epoch_id c)) eqn:E2; [| |done]; intros _ _.
    + apply bytes_cmp_eq in E2 as <-. by rewrite E1.
    + assert (bytes_cmp (stm_we_epoch_id a) (stm_we_epoch_id c) = Lt) as -> by (by eapply bytes_lt_trans). done.
Qed.

Lemma collect_union {A} (l : list (bytes * A)) (m : gmap bytes A) : NoDup l.*1 ->
  foldl (fun m kv => <[kv.1 := kv.2]> m) m l = list_to_map l ∪ m.
Proof.
  revert m. induction l as [|[k v] l IH]; intros m Hn; [cbn; by rewrite map_empty_union|]. cbn in *. inversion_clear Hn as [|?? Hk Hn'].
  rewrite IH by done. rewrite <- insert_union_l. symmetry. apply insert_union_r. by apply not_elem_of_list_to_map_1.
Qed.

Lemma collect_sorted {A} (m : gmap bytes A) : collect (sorted_entries m) = m.
Proof.
  unfold collect, sorted_entries. assert (sort_by key_le (map_to_list m) ≡ₚ map_to_list m) as Hp by apply sort_by_perm.
  rewrite collect_union by (rewrite Hp; apply NoDup_fst_map_to_list). rewrite map_union_empty.
  rewrite (list_to_map_proper _ (map_to_list m)); [apply list_to_map_to_list| |done]. rewrite Hp. apply NoDup_fst_map_to_list.
Qed.

(** Two backlogs without empty entries. *)
Lemma backlog_ext b1 b2 : (forall w, b1 !! w <> Some []) -> (forall w, b2 !! w <> Some []) -> (forall w, mlist b1 w = mlist b2 w) -> b1 = b2.
Proof.
  intros H1 H2 H. apply map_eq. intros w. specialize (H1 w). specialize (H2 w). specialize (H w). unfold mlist in H.
  destruct (b1 !! w), (b2 !! w); cbn in H; congruence.
Qed.

Lemma regroup_mlist l acc w :
  mlist (foldl (fun acc m => backlog_store acc (stm_we_epoch_id m) m) acc l) w = mlist acc w ++ filter (fun m => stm_we_epoch_id m = w) l.
Proof.
  revert acc. induction l as [|m l IH]; intros acc; [by rewrite app_nil_r|]. cbn [foldl]. rewrite IH, mlist_store, filter_cons, <- (assoc_L (++)).
  by destruct (decide (stm_we_epoch_id m = w)).
Qed.

Lemma regroup_nonempty l acc : (forall w, acc !! w <> Some []) ->
  forall w, foldl (fun acc m => backlog_store acc (stm_we_epoch_id m) m) acc l !! w <> Some [].
Proof.
  revert acc. induction l as [|m l IH]; intros acc H; [done|]. apply IH. intros w. unfold backlog_store.
  rewrite lookup_insert_Some. intros [[_ Hw]|[_ Hw]]; [by destruct (default [] (acc !! stm_we_epoch_id m))|by apply (H w)].
Qed.

Lemma filter_keep_all {A} (P : A -> Prop) `{!forall x, Decision (P x)} l : Forall P l -> filter P l = l.
Proof. induction 1 as [|x l Hx _ IH]; [done|]. rewrite filter_cons, decide_True by done. by rewrite IH. Qed.

Lemma filter_drop_all {A} (P : A -> Prop) `{!forall x, Decision (P x)} l : Forall (fun x => ~ P x) l -> filter P l = [].
Proof. induction 1 as [|x l Hx _ IH]; [done|]. by rewrite filter_cons, decide_False. Qed.

Lemma filter_entries (l : list (bytes * list StoredMessage)) w : NoDup l.*1 -> Forall (fun kv => Forall (fun m => stm_we_epoch_id m = kv.1) kv.2) l ->
  filter (fun m => stm_we_epoch_id m = w) (concat l.*2) = mlist (list_to_map l) w.
Proof.
  unfold mlist. induction l as [|[k ms] l IH]; intros Hn Hf; [done|]. cbn [fmap list_fmap fst snd concat] in *.
  inversion_clear Hn as [|?? Hk Hn']. inversion_clear Hf as [|?? Hm Hf']. rewrite filter_app, IH by done. cbn [list_to_map foldr uncurry].
  cbn [fst snd] in Hm. destruct (decide (k = w)) as [->|Hne].
  - rewrite lookup_insert_eq. cbn. rewrite (not_elem_of_list_to_map_1 _ _ Hk), app_nil_r. by apply filter_keep_all.
  - rewrite lookup_insert_ne by done. rewrite filter_drop_all; [done|].
    eapply Forall_impl; [exact Hm|]. cbn. intros m Hw ?. congruence.
Qed.

(** What a restart makes of any well-formed state: the messages of each epoch sorted, and the rest unchanged. *)
Lemma from_snapshot_spec s : room_ok s ->
  from_snapshot (room_snapshot s) = with_backlog s (sort_by message_le <$> backlog s) (message_prune_due_ms s).
Proof.
  intros Hok%room_ok_parts. destruct Hok as [Hb _]. destruct s as [[mm wl es] b bs d1 d2]. unfold from_snapshot, room_snapshot, with_backlog. cbn in Hb.
  cbn [indexes member_metadata weid_to_leaf epoch_scopes backlog bundles message_prune_due_ms bundle_prune_due_ms vs_member_metadata
       vs_weid_to_leaf vs_epoch_scopes vs_messages vs_bundles vs_message_prune_due_ms vs_bundle_prune_due_ms].
  rewrite !collect_sorted. f_equal. apply backlog_ext.
  - apply regroup_nonempty. done.
  - intros w. rewrite lookup_fmap. destruct (b !! w) as [ms|] eqn:E; [|done]. cbn. intros H. injection H as H.
    apply Hb in E as [Hne _]. pose proof (sort_by_perm message_le ms) as Hp. rewrite H in Hp. by apply Permutation_nil_l in Hp.
  - intros w. rewrite regroup_mlist. change (mlist ∅ w) with (@nil StoredMessage). cbn [app].
    rewrite (filter_sort_by message_le message_le_total message_le_trans), filter_entries.
    + rewrite list_to_map_to_list. unfold mlist. rewrite lookup_fmap. by destruct (b !! w).
    + apply NoDup_fst_map_to_list.
    + apply Forall_forall. intros [k ms] Hk%elem_of_map_to_list. by apply Hb in Hk as [_ ?].
Qed.

Lemma post_log_sorted p s l t w : clocks_from t l ->
  StronglySorted (fun a b => stm_timestamp_ms a <= stm_timestamp_ms b) (post_log p s l w) /\ Forall (fun m => t <= stm_timestamp_ms m) (post_log p s l w).
Proof.
  revert s t. induction l as [|gr l IH]; intros s t; [intros _; split; constructor|]. intros [Ht Hc]. cbn [post_log].
  destruct (IH (serve_room p s gr) _ Hc) as [Hs Hf]. assert (Forall (fun m => t <= stm_timestamp_ms m) (post_log p (serve_room p s gr) l w)) as Hf'.
  { eapply Forall_impl; [exact Hf|]. cbn. intros m Hm. lia. }
  destruct gr as [groups [| wr | |]]; cbn [posted snd fst] in *; try done. destruct (authorize_write groups s wr); [|done].
  destruct (decide (rw_we_epoch_id wr = w)); [|done]. cbn [app]. split; constructor; try done.
Qed.

Lemma sorted_sublist {A} (R : A -> A -> Prop) l1 l2 : l1 `sublist_of` l2 -> StronglySorted R l2 -> StronglySorted R l1.
Proof.
  induction 1 as [|x l1 l2 Hs IH|x l1 l2 Hs IH]; intros H; [done| |]; inversion_clear H as [|?? H1 H2]; [|by apply IH].
  constructor; [by apply IH|]. apply Forall_forall. intros y Hy. apply (proj1 (Forall_forall _ _) H2). by eapply elem_of_sublist.
Qed.

(** C26: A restart from the persisted snapshot gives back the state the room was
    in: after any requests with a clock that does not go back, reading the
    snapshot rebuilds the indexes, the bundles, the due times and, although the
    snapshot has all messages in one list sorted by epoch and time, the messages
    of each epoch in the order in which they were posted. *)
Theorem snapshot_roundtrip p l : clocks_from 0 l ->
  let s := serve_all p room_default l in from_snapshot (room_snapshot s) = s.
Proof.
  intros Hc. cbv zeta. set (s := serve_all p room_default l). assert (room_ok s) as Hok by apply serve_all_ok, room_default_ok.
  rewrite from_snapshot_spec by done. apply room_ok_parts in Hok as [Hb _].
  assert (sort_by message_le <$> backlog s = backlog s) as ->; [|by destruct s].
  apply map_eq. intros w. rewrite lookup_fmap. destruct (backlog s !! w) as [ms|] eqn:E; [|done]. cbn. f_equal. apply sort_by_id.
  destruct (post_log_sorted p room_default l 0 w Hc) as [Hs _]. pose proof (serve_all_sublist p room_default l w) as Hl.
  fold s in Hl. apply Hb in E as Hw. destruct Hw as [_ Hw]. unfold mlist in Hl. rewrite E in Hl. cbn in Hl.
  apply (sorted_sublist _ _ _ Hl) in Hs. clear - Hs Hw. induction Hs as [|m ms Hs IH Hm]; [constructor|].
  inversion_clear Hw as [|?? H1 H2]. constructor; [by apply IH|]. apply Forall_forall. intros m' Hin.
  pose proof (proj1 (Forall_forall _ _) Hm m' Hin) as Hle. pose proof (proj1 (Forall_forall _ _) H2 m' Hin) as Hw'. cbn in Hle, Hw'.
  unfold message_le. rewrite H1, Hw', bytes_cmp_refl. lia.
Qed.

(** ** What happens to an epoch whose bundle expires *)

(** A request that runs the bundles' prune when it is due at [now]. *)
Definition prunes_bundles (r : Request) (now : Z) : Prop :=
  match r with
  | Accept gid (Ok _) u => len gid = 32 /\ bu_timestamp_ms u = now
  | GetBundle _ t => t = now
  | _ => False
  end.

Lemma expired_scope p s weid b gr now :
  bundles s !! weid = Some b -> sb_stored_at_ms b < cutoff now (retention p) -> bundle_prune_due_ms s <= now ->
  prunes_bundles gr.2 now -> epoch_scopes (indexes (serve_room p s gr)) !! weid = None.
Proof.
  intros Hb He Hd Hr.
  assert (forall s', bundles s' = bundles s -> bundle_prune_due_ms s' = bundle_prune_due_ms s ->
    weid ∈ (lazy_prune_bundles s' now (retention p) (prune_interval_ms p)).2) as Hx.
  { intros s' Hb' Hd'. unfold lazy_prune_bundles, should_prune_due. rewrite Hd', Hb'. destruct (Z.ltb_spec now (bundle_prune_due_ms s)); [lia|].
    cbn. apply elem_of_dom. exists b. apply map_lookup_filter_Some. cbn. split; [done|lia]. }
  assert (forall i expired, weid ∈ expired -> epoch_scopes (prune_epoch_indexes i expired) !! weid = None) as Hp.
  { intros i expired Hin. apply map_lookup_filter_None. right. intros x _ Hn. by apply Hn. }
  destruct gr as [groups [gid [delta|] u| | |w t]]; cbn [prunes_bundles snd serve_room] in *; try done.
  - destruct Hr as [Hg <-]. unfold apply_bundle_indexes. rewrite Hg. cbn [negb Z.eqb Pos.eqb fst]. unfold store_bundle.
    set (i := bundle_indexes _ _ _ _). specialize (Hx (with_indexes s i) eq_refl eq_refl).
    destruct (lazy_prune_bundles _ _ _ _) as [s' expired]. by apply Hp.
  - subst t. unfold get_bundle. specialize (Hx s eq_refl eq_refl). destruct (lazy_prune_bundles _ _ _ _) as [s' expired]. by apply Hp.
Qed.

(** C35: An epoch does not outlive its bundle.  Once the stored bundle of an
    epoch has expired, the next request of any room that prunes the bundles,
    a fetch of any bundle or the acceptance of any epoch, takes the epoch's
    scope with it: from then on nobody can post to the epoch or read from it,
    a member of the room's current epoch and a message within its retention
    period included.  The acceptance may even be of the same epoch, whose
    bundle is then stored and whose scope, just recorded, is dropped. *)
Theorem expired_epoch_unusable p s weid b gr now :
  bundles s !! weid = Some b -> sb_stored_at_ms b < cutoff now (retention p) -> bundle_prune_due_ms s <= now ->
  prunes_bundles gr.2 now ->
  let s' := serve_room p s gr in
  (forall groups w, rw_we_epoch_id w = weid -> store_room_message groups s' w p = (s', Err StoreNotFound))
  /\ (forall groups leaf t, fetch_room_messages groups s' weid leaf t (retention p) (prune_interval_ms p) = (s', Err AuthNotFound))
  /\ (forall gid delta u, gr.2 = Accept gid delta u -> is_Some (bundles s' !! bu_we_epoch_id u)).
Proof.
  intros Hb He Hd Hr. cbv zeta. pose proof (expired_scope p s weid b gr now Hb He Hd Hr) as Hs. split_and!.
  - intros groups w <-. unfold store_room_message, authorize_write, ensure_leaf_member_for_epoch. by rewrite Hs.
  - intros groups leaf t. unfold fetch_room_messages, ensure_leaf_member_for_epoch. by rewrite Hs.
  - destruct gr as [groups r]. cbn [snd] in *. intros gid delta u ->. cbn [prunes_bundles serve_room snd] in *.
    destruct delta as [delta|]; [|done]. destruct Hr as [Hg _]. unfold apply_bundle_indexes. rewrite Hg. cbn [negb Z.eqb Pos.eqb fst].
    unfold store_bundle. destruct (lazy_prune_bundles _ _ _ _) as [s' expired]. cbn. rewrite lookup_insert_eq. by eexists.
Qed.

(** ** Witnesses *)

Definition room_gid : bytes := replicate 32 1.
Definition room_root : bytes := replicate 32 9.

(** A room with two members, of which the epoch [weid] is accepted at 1000. *)
Definition sample_groups : Groups := {[room_gid := with_snapshots sample_group (Some room_root) {[room_root := {[leaf_a; leaf_b]}]}]}.

Definition sample_policy : RoomRetentionPolicy := {| retention := 600; prune_interval_ms := 10 |}.

Definition sample_accept (weid : bytes) (t : Z) : Groups * Request :=
  (sample_groups, Accept room_gid (Ok {| joined := [leaf_a]; delta_revoked := [] |})
     {| bu_we_epoch_id := weid; bu_bytes := [1]; bu_membership_root := room_root; bu_timestamp_ms := t |}).

Definition sample_write (leaf : bytes) (text : Z) (t : Z) : RoomMessageWrite := {|
  rw_we_epoch_id := [7]; rw_sender_leaf := leaf; rw_ciphertext := [text]; rw_sender := leaf; rw_timestamp_ms := t |}.

Definition sample_post (leaf : bytes) (text : Z) (t : Z) : Groups * Request := (sample_groups, Post (sample_write leaf text t)).

(** Two members post, and one who is not a member is refused. *)
Definition sample_run : list (Groups * Request) :=
  [sample_accept [7] 1000; sample_post leaf_a 1 1100; sample_post leaf_c 2 1150; sample_post leaf_b 3 1200].

Definition two_messages : list StoredMessage := [stored (sample_write leaf_a 1 1100); stored (sample_write leaf_b 3 1200)].

Lemma sample_fetch now : now = 1500 \/ now = 1750 ->
  (fetch_room_messages sample_groups (serve_all sample_policy room_default sample_run) [7] leaf_a now 600 10).2
  = Ok (if now =? 1500 then two_messages else [stored (sample_write leaf_b 3 1200)]).
Proof. intros [-> | ->]; vm_compute; reflexivity. Qed.

Lemma backlog_refines_log_witness :
  two_messages `sublist_of` post_log sample_policy room_default sample_run [7]
  /\ fresh_messages (cutoff 1500 600) two_messages = fresh_messages (cutoff 1500 600) (post_log sample_policy room_default sample_run [7]).
Proof.
  pose proof (backlog_refines_log sample_policy sample_run sample_groups [7] leaf_a 1500) as H. cbn zeta in H.
  change (retention sample_policy) with 600 in H. change (prune_interval_ms sample_policy) with 10 in H.
  rewrite (sample_fetch 1500 (or_introl eq_refl)) in H. apply H. repeat constructor; cbn; lia.
Defined.

Lemma served_messages_recent_witness : forall m, m ∈ [stored (sample_write leaf_b 3 1200)] -> 1750 - 600 - 10 <= stm_timestamp_ms m.
Proof.
  exact (served_messages_recent sample_policy sample_run sample_groups [7] leaf_a 1750 _ ltac:(cbn; lia) ltac:(cbn; lia)
           ltac:(cbn; lia) (sample_fetch 1750 (or_intror eq_refl))).
Defined.

Lemma snapshot_roundtrip_witness :
  let s := serve_all sample_policy room_default sample_run in from_snapshot (room_snapshot s) = s /\ mlist (backlog s) [7] = two_messages.
Proof. split; [apply (snapshot_roundtrip sample_policy sample_run); cbn; lia|vm_compute; reflexivity]. Defined.

(** The room's only epoch, at 1601: a bundle fetch is enough to lock its members out. *)
Lemma expired_epoch_unusable_witness :
  let s' := serve_room sample_policy (serve_all sample_policy room_default sample_run) (sample_groups, GetBundle [8] 1601) in
  store_room_message sample_groups s' (sample_write leaf_a 5 1602) sample_policy = (s', Err StoreNotFound).
Proof.
  refine (proj1 (expired_epoch_unusable sample_policy (serve_all sample_policy room_default sample_run) [7] {| sb_bytes := [1]; sb_stored_at_ms := 1000 |}
    (sample_groups, GetBundle [8] 1601) 1601 _ _ _ _) sample_groups (sample_write leaf_a 5 1602) eq_refl).
  - vm_compute; reflexivity.
  - vm_compute; reflexivity.
  - vm_compute; discriminate.
  - reflexivity.
Defined.
