(* ===== verification/Alias.v ===== *)
(** * The alias registry

    [cityg-runtime/src/alias.rs]: which alias belongs to which identity key.
    The first key that registers an alias keeps it (trust on first use): the
    same key may move it to another leaf, another key is refused, and only
    the revocation of the leaf it is bound to frees it.  Aliases are compared
    in Unicode normal form C, which is a parameter ([Nfc]).

    [alias_tofu] is that rule over any sequence of registrations and
    revocations, and [leaf_lookup_spec] what the member listings read. *)

From stdpp Require Import base gmap sets list strings sorting.
From Stdlib Require Import ZArith Lia.
From S2P Require Import Prelude RoomState.

Local Open Scope Z_scope.

(** A [String], as its Unicode scalar values; the order of the bytes of two strings is that of their scalar values. *)
Notation text := (list Z).

(** [alias.nfc().collect()], of the [unicode-normalization] crate. *)
Class Nfc := { normalize_alias : text -> text }.

Record AliasBinding := { ab_leaf_id : bytes; ab_pop_public_key : bytes }.

Record AliasLeafEntry := { ale_alias : text; ale_pop_public_key : bytes }.

Notation AliasLeafLookup := (gmap bytes AliasLeafEntry).

Inductive AliasRegistrationOutcome := Registered | MatchedExisting | UpdatedLeafBinding.

(** [AliasRegistrationError] *)
Inductive AliasRegistrationError := Conflict.

(** [AliasRegistry]: the bindings, by normalised alias. *)
Notation AliasRegistry := (gmap text AliasBinding).

Section Registry.
Context {N : Nfc}.

(** [AliasRegistry::get] *)
Definition alias_get (reg : AliasRegistry) (alias : text) : option AliasBinding := reg !! normalize_alias alias.

Definition register_alias (reg : AliasRegistry) (alias : text) (leaf_id pop_public_key : bytes)
    : AliasRegistry * result AliasRegistrationError AliasRegistrationOutcome :=
  let normalized := normalize_alias alias in
  match reg !! normalized with
  | Some existing =>
      if decide (ab_pop_public_key existing = pop_public_key) then
        if decide (ab_leaf_id existing = leaf_id) then (reg, Ok MatchedExisting)
        else (<[normalized := {| ab_leaf_id := leaf_id; ab_pop_public_key := ab_pop_public_key existing |}]> reg, Ok UpdatedLeafBinding)
      else (reg, Err Conflict)
  | None => (<[normalized := {| ab_leaf_id := leaf_id; ab_pop_public_key := pop_public_key |}]> reg, Ok Registered)
  end.

(** [remove_revoked_slice], through [remove_revoked_members]; without the count of what was removed. *)
Definition remove_revoked_slice (reg : AliasRegistry) (revoked : list bytes) : AliasRegistry :=
  filter (fun kv => ab_leaf_id kv.2 ∉ revoked) reg.

(** The bindings in the order of the [BTreeMap]. *)
Definition alias_iter (reg : AliasRegistry) : list (text * AliasBinding) := sorted_entries reg.

(** [leaf_lookup]: the last alias of a leaf stays. *)
Definition leaf_lookup (reg : AliasRegistry) : AliasLeafLookup :=
  collect ((fun kv => (ab_leaf_id kv.2, {| ale_alias := kv.1; ale_pop_public_key := ab_pop_public_key kv.2 |})) <$> alias_iter reg).

(** [leaf_lookup_for] *)
Definition leaf_lookup_for (reg : AliasRegistry) (leaves : gset bytes) : AliasLeafLookup :=
  collect ((fun kv => (ab_leaf_id kv.2, {| ale_alias := kv.1; ale_pop_public_key := ab_pop_public_key kv.2 |}))
           <$> filter (fun kv => ab_leaf_id kv.2 ∈ leaves) (alias_iter reg)).

(** Requests on the registry. *)
Inductive AliasOp := Register (alias : text) (leaf_id pop_public_key : bytes) | Revoke (leaves : list bytes).

Definition alias_step (reg : AliasRegistry) (op : AliasOp) : AliasRegistry :=
  match op with
  | Register a l k => (register_alias reg a l k).1
  | Revoke ls => remove_revoked_slice reg ls
  end.

(** No revocation of the sequence is of the leaf the alias is bound to at that point. *)
Fixpoint keeps (alias : text) (reg : AliasRegistry) (ops : list AliasOp) : Prop :=
  match ops with
  | [] => True
  | op :: rest =>
      match op with
      | Revoke ls => forall b, alias_get reg alias = Some b -> ab_leaf_id b ∉ ls
      | Register _ _ _ => True
      end /\ keeps alias (alias_step reg op) rest
  end.

(** The leaf the alias moves to: the last one its key registered for it. *)
Definition moves_to (alias : text) (key leaf : bytes) (op : AliasOp) : bytes :=
  match op with
  | Register a l k => if decide (normalize_alias a = normalize_alias alias /\ k = key) then l else leaf
  | Revoke _ => leaf
  end.
End Registry.

Section Laws.
Context {N : Nfc}.

Lemma register_bound reg a b a' l k : alias_get reg a = Some b ->
  alias_get (register_alias reg a' l k).1 a
  = Some {| ab_leaf_id := moves_to a (ab_pop_public_key b) (ab_leaf_id b) (Register a' l k); ab_pop_public_key := ab_pop_public_key b |}.
Proof.
  unfold alias_get, register_alias, moves_to. intros Hb. destruct b as [bl bk]. cbn [ab_leaf_id ab_pop_public_key].
  destruct (decide (normalize_alias a' = normalize_alias a)) as [Ha|Ha].
  - rewrite Ha, Hb. cbn [ab_leaf_id ab_pop_public_key]. destruct (decide (bk = k)) as [->|Hk].
    + rewrite (decide_True _ _ (conj eq_refl eq_refl)). destruct (decide (bl = l)) as [->|Hl]; cbn; [done|]. apply lookup_insert_eq.
    + rewrite decide_False by naive_solver. done.
  - rewrite (decide_False (P := _ /\ _)) by naive_solver.
    destruct (reg !! normalize_alias a') as [e|]; [destruct (decide _); [destruct (decide _)|]|]; cbn [fst]; try done; by rewrite lookup_insert_ne.
Qed.

Lemma alias_step_bound reg a b op : alias_get reg a = Some b ->
  (forall ls, op = Revoke ls -> ab_leaf_id b ∉ ls) ->
  alias_get (alias_step reg op) a
  = Some {| ab_leaf_id := moves_to a (ab_pop_public_key b) (ab_leaf_id b) op; ab_pop_public_key := ab_pop_public_key b |}.
Proof.
  intros Hb Hr. destruct op as [a' l k|ls]; [by apply register_bound|]. cbn. unfold alias_get, remove_revoked_slice in *.
  apply map_lookup_filter_Some. cbn. destruct b as [bl bk]. split; [done|]. by apply Hr.
Qed.

(** C24: Trust on first use.  From the moment an alias is bound to an identity
    key, and as long as the leaf it is bound to is not revoked, the alias stays
    with that key: whatever is registered, under whatever spelling with the
    same normal form, its leaf is the last one that this key registered; and a
    registration by another key is refused and changes nothing. *)
Theorem alias_tofu reg ops alias b : alias_get reg alias = Some b -> keeps alias reg ops ->
  let reg' := foldl alias_step reg ops in
  let key := ab_pop_public_key b in
  alias_get reg' alias = Some {| ab_leaf_id := foldl (moves_to alias key) (ab_leaf_id b) ops; ab_pop_public_key := key |}
  /\ forall spelling leaf other, normalize_alias spelling = normalize_alias alias -> other <> key ->
       register_alias reg' spelling leaf other = (reg', Err Conflict).
Proof.
  intros Hb Hk. cbv zeta.
  assert (alias_get (foldl alias_step reg ops) alias
    = Some {| ab_leaf_id := foldl (moves_to alias (ab_pop_public_key b)) (ab_leaf_id b) ops; ab_pop_public_key := ab_pop_public_key b |}) as H.
  { revert reg b Hb Hk. induction ops as [|op ops IH]; intros reg b Hb Hk; [by destruct b|]. destruct Hk as [Hop Hk].
    assert (Hs := alias_step_bound reg alias b op Hb). ospecialize (Hs _); [intros ls ->; by apply Hop|].
    apply (IH _ _ Hs Hk). }
  split; [done|]. intros sp leaf other Hsp Ho. unfold register_alias. unfold alias_get in H. rewrite Hsp, H. cbn.
  by rewrite decide_False by congruence.
Qed.

Lemma collect_lookup {A} (l : list (bytes * A)) (m : gmap bytes A) k v :
  foldl (fun m kv => <[kv.1 := kv.2]> m) m l !! k = Some v -> (k, v) ∈ l \/ m !! k = Some v.
Proof.
  revert m. induction l as [|[k' v'] l IH]; intros m H; [by right|]. cbn in H. apply IH in H as [H|H]; [left; by right|].
  apply lookup_insert_Some in H as [[-> ->]|[_ H]]; [left; by left|by right].
Qed.

Lemma collect_bound {A} (l : list (bytes * A)) (m : gmap bytes A) k v :
  (k, v) ∈ l \/ m !! k = Some v -> is_Some (foldl (fun m kv => <[kv.1 := kv.2]> m) m l !! k).
Proof.
  revert m v. induction l as [|[k' v'] l IH]; intros m v [H|H]; [by apply not_elem_of_nil in H|by exists v| |]; cbn.
  - apply elem_of_cons in H as [H|H]; [injection H as <- <-; apply (IH _ v); right; apply lookup_insert_eq|]. apply (IH _ v). by left.
  - destruct (decide (k' = k)) as [->|Hne]; [apply (IH _ v'); right; apply lookup_insert_eq|]. apply (IH _ v). right. by rewrite lookup_insert_ne.
Qed.

(** What the listings show for a leaf is one of its bindings, and a bound leaf is shown under one of its aliases. *)
Lemma leaf_lookup_spec reg leaf :
  (forall e, leaf_lookup reg !! leaf = Some e -> reg !! ale_alias e = Some {| ab_leaf_id := leaf; ab_pop_public_key := ale_pop_public_key e |})
  /\ (forall a b, reg !! a = Some b -> ab_leaf_id b = leaf -> is_Some (leaf_lookup reg !! leaf)).
Proof.
  assert (Hin : forall a b, (a, b) ∈ alias_iter reg <-> reg !! a = Some b).
  { intros a b. unfold alias_iter, sorted_entries. rewrite (sort_by_perm _ (map_to_list reg)). apply elem_of_map_to_list. }
  unfold leaf_lookup, collect. split.
  - intros e H. apply collect_lookup in H as [H|H]; [|by rewrite lookup_empty in H]. apply list_elem_of_fmap in H as ([a b] & He & H).
    injection He as -> ->. apply Hin in H. cbn. by destruct b.
  - intros a b Hb <-. eapply collect_bound. left. apply list_elem_of_fmap. exists (a, b). split; [done|]. by apply Hin.
Qed.
End Laws.

(** ** Witness *)

(** A normalisation that knows one letter: an e followed by an acute accent. *)
#[local] Instance toy_nfc : Nfc := { normalize_alias a := if decide (a = [101; 769]) then [233] else a }.

Lemma alias_tofu_witness :
  let reg := <[[233] := {| ab_leaf_id := [1]; ab_pop_public_key := [7] |}]> (∅ : AliasRegistry) in
  let ops := [Register [101; 769] [2] [8]; Revoke [[2]]; Register [101; 769] [3] [7]] in
  alias_get (foldl alias_step reg ops) [233] = Some {| ab_leaf_id := [3]; ab_pop_public_key := [7] |}.
Proof.
  intros reg ops. refine (proj1 (alias_tofu reg ops [233] {| ab_leaf_id := [1]; ab_pop_public_key := [7] |} _ _)).
  - vm_compute; reflexivity.
  - cbn [keeps ops]. split; [done|]. split; [|done]. intros b Hb. vm_compute in Hb. injection Hb as <-. cbn. set_solver.
Defined.
