(* ===== verification/Members.v ===== *)
(** * Member listings

    The listing of a room's members, from the server's roster to the member
    panel of the client.  Server: [cityg-runtime/src/service.rs]
    ([fetch_room_members], [paginate_room_members]), the request validation
    of [cityg-api-schema/src/lib.rs] and the handler [members] of
    [cityg-api/src/member_listing.rs].  Client:
    [cityg-gui/src/native/member_validation.rs]
    ([verify_members_root_consistency] walks the pages of a listing and
    recomputes the membership root) and [perform_fetch_members] of
    [cityg-gui/src/native/network_members.rs].

    For the client the server is anything: an answer to each request, which
    may depend on how many requests came before.  The loop over the pages is
    a recursion on fuel; [verify_terminates] says how many pages it asks for
    at most.

    The theorems: the walk terminates whatever the server answers
    ([verify_terminates]); against the server of this repository it succeeds
    on every listed root ([honest_listing_verifies]); when it succeeds, the
    pages are those of the set with that root, of all sets of their size
    ([verified_listing_binds]), but the size is the server's word, and every
    root is also the root of a listing with one member ([forged_listing_verifies]);
    and what the panel shows is not what was verified
    ([shown_members_unverified]). *)

From stdpp Require Import base gmap sets list strings sorting.
From Stdlib Require Import ZArith Lia.
From S2P Require Import Prelude Errors Merkle Slots Roster RoomState Alias.

Local Open Scope Z_scope.

(** ** The wire *)

(** [pb::Member] *)
Record Member := {
  mb_leaf_id : bytes; mb_alias : option text; mb_pop_public_key : option bytes; mb_join_date : option Z; mb_last_seen : option Z }.

Record MembersRequest := { mr_gid : bytes; mr_parent_root : bytes; mr_offset : option Z; mr_limit : option Z }.

(** [MembersResponse]; [SearchMembersResponse] has the same fields. *)
Record MembersResponse := { ms_members : list Member; ms_root : bytes; ms_total_count : Z; ms_next_offset : Z }.

(** The requests a client makes. *)
Inductive Query := QMembers (r : MembersRequest) | QSearch (query : text) (r : MembersRequest).

(** ** The server *)

Record PaginatedMembers := { pg_members : list bytes; pg_total_count : Z; pg_next_offset : Z }.

Definition paginate_room_members (ms : list bytes) (offset limit : Z) : PaginatedMembers :=
  let total_count := len ms in
  let start := Z.min offset total_count in
  let stop := Z.min (start + limit) total_count in
  {| pg_members := take (Z.to_nat (stop - start)) (drop (Z.to_nat start) ms);
     pg_total_count := total_count;
     pg_next_offset := if total_count <=? stop then total_count else stop |}.

(** [fetch_room_members]; [None] is [RoomMemberListingError::NotFound]. *)
Definition fetch_room_members (groups : Groups) (gid : bytes) (parent_root : option bytes) : option (list bytes * bytes) :=
  root ← match parent_root with Some root => Some root | None => latest_parent_root groups gid end;
  ms ← members_for_root groups gid root;
  Some (ms, root).

Inductive ApiError := ApiNotFound | ApiInvalidRequest (msg : string).

Definition MEMBERS_DEFAULT_PAGE_SIZE : Z := 256.
Definition MEMBERS_MAX_PAGE_SIZE : Z := 2000.

Definition normalize_members_page (offset limit : option Z) : Z * Z :=
  (default 0 offset, Z.max 1 (Z.min (default MEMBERS_DEFAULT_PAGE_SIZE limit) MEMBERS_MAX_PAGE_SIZE)).

Record ValidatedMembersRequest := { vr_gid : bytes; vr_parent_root : option bytes; vr_offset : Z; vr_limit : Z }.

(** [validate_members_request], with the messages of [map_members_request_validation_error]. *)
Definition validate_members_request (r : MembersRequest) : result ApiError ValidatedMembersRequest :=
  fail_if (len (mr_gid r) =? 0) (ApiInvalidRequest "gid must be provided") ;;
  fail_if (negb (len (mr_gid r) =? 32)) (ApiInvalidRequest "gid must be 32 bytes") ;;
  fail_if (negb (len (mr_parent_root r) =? 0) && negb (len (mr_parent_root r) =? 32)) (ApiInvalidRequest "parent_root must be 32 bytes") ;;
  let (offset, limit) := normalize_members_page (mr_offset r) (mr_limit r) in
  Ok {| vr_gid := mr_gid r; vr_parent_root := if len (mr_parent_root r) =? 0 then None else Some (mr_parent_root r);
        vr_offset := offset; vr_limit := limit |}.

(** [member_response], which is [pb_member] on the two lookups. *)
Definition member_response (aliases : AliasLeafLookup) (metadata : gmap bytes MemberMetadata) (leaf : bytes) : Member := {|
  mb_leaf_id := leaf;
  mb_alias := ale_alias <$> aliases !! leaf;
  mb_pop_public_key := ale_pop_public_key <$> aliases !! leaf;
  mb_join_date := join_timestamp_ms <$> metadata !! leaf;
  mb_last_seen := last_seen_timestamp_ms <$> metadata !! leaf |}.

(** The handler [members], after authorization and rate limiting. *)
Definition members_handler (groups : Groups) (reg : AliasRegistry) (s : RoomVolatileState) (r : MembersRequest) : result ApiError MembersResponse :=
  req ← validate_members_request r;
  found ← ok_or (fetch_room_members groups (vr_gid req) (vr_parent_root req)) ApiNotFound;
  let page := paginate_room_members found.1 (vr_offset req) (vr_limit req) in
  Ok {| ms_members := member_response (leaf_lookup reg) (member_metadata (indexes s)) <$> pg_members page;
        ms_root := found.2; ms_total_count := pg_total_count page; ms_next_offset := pg_next_offset page |}.

(** ** The client *)

(** What the transport returns instead of a response: a status, or another failure. *)
Inductive ClientError := HttpStatus (status : Z) | ClientFailure (msg : string).

Inductive MembersError :=
  | FromClient (e : ClientError)
  | RootLength
  | PageRootMismatch
  | InconsistentTotal
  | LeafLength
  | NonIncreasingOffset
  | LeafCountMismatch
  | RootComputation (e : MsphfError)
  | RootMismatch.

(** The answer to the [n]-th request of a client. *)
Definition Answers := nat -> Query -> result ClientError MembersResponse.

Definition MEMBERS_ROOT_VERIFY_PAGE_LIMIT : Z := 2000.

Definition parse_member_leaf_id (b : bytes) : result MembersError bytes := fail_if (negb (len b =? 32)) LeafLength ;; Ok b.

Fixpoint parse_leaves (l : list Member) : result MembersError (list bytes) :=
  match l with
  | [] => Ok []
  | m :: tl => x ← parse_member_leaf_id (mb_leaf_id m); xs ← parse_leaves tl; Ok (x :: xs)
  end.

Definition validate_members_root_from_leaves {MH : MerkleHash} (root : bytes) (leaves : list bytes) (total_count : Z) : result MembersError unit :=
  fail_if (negb (len leaves =? total_count)) LeafCountMismatch ;;
  computed ← map_err RootComputation (canonical_set_root (merge_sort bytes_le leaves));
  fail_if (negb (bytes_eqb computed root)) RootMismatch.

(** The request for one page of the root's members. *)
Definition page_query (gid root : bytes) (offset : Z) : Query :=
  QMembers {| mr_gid := gid; mr_parent_root := root; mr_offset := Some offset; mr_limit := Some MEMBERS_ROOT_VERIFY_PAGE_LIMIT |}.

(** The checks of a page against the root and the count of the pages before it. *)
Definition check_page (root : bytes) (expected_total : option Z) (r : MembersResponse) : result MembersError (list bytes) :=
  fail_if (negb (len (ms_root r) =? 32)) RootLength ;;
  fail_if (negb (bytes_eqb (ms_root r) root)) PageRootMismatch ;;
  fail_if (match expected_total with Some total => negb (total =? ms_total_count r) | None => false end) InconsistentTotal ;;
  parse_leaves (ms_members r).

(** The loop of [verify_members_root_consistency], from request [n] on; [None] is out of fuel. *)
Fixpoint verify_loop {MH : MerkleHash} (answers : Answers) (fuel n : nat) (gid root : bytes) (offset : Z) (expected_total : option Z)
    (leaves : list bytes) : option (result MembersError unit) :=
  match fuel with
  | O => None
  | S fuel =>
      match answers n (page_query gid root offset) with
      | Err e => Some (Err (FromClient e))
      | Ok r =>
          match check_page root expected_total r with
          | Err e => Some (Err e)
          | Ok new =>
              if ms_total_count r <=? ms_next_offset r then
                Some (validate_members_root_from_leaves root (leaves ++ new) (ms_total_count r))
              else if ms_next_offset r <=? offset then Some (Err NonIncreasingOffset)
              else verify_loop answers fuel (S n) gid root (ms_next_offset r) (Some (ms_total_count r)) (leaves ++ new)
          end
      end
  end.

Definition verify_members_root_consistency {MH : MerkleHash} (answers : Answers) (fuel n : nat) (gid root : bytes) : option (result MembersError unit) :=
  verify_loop answers fuel n gid root 0 None [].

Inductive MembersMode := Full | Search (query : text).

Record MembersParams := { mp_gid : bytes; mp_parent_root : bytes; mp_offset : Z; mp_limit : Z; mp_mode : MembersMode }.

(** [MemberEntry] *)
Record MemberEntry := {
  me_leaf_id : bytes; me_alias : option text; me_pop_public_key : option bytes; me_join_timestamp_ms : option Z; me_last_seen_timestamp_ms : option Z }.

Record MembersPage := { mg_members : list MemberEntry; mg_root : bytes; mg_total_count : Z; mg_next_offset : Z }.

(** The characters [str::trim] removes. *)
Definition is_whitespace (c : Z) : bool :=
  ((9 <=? c) && (c <=? 13)) || (c =? 32) || (c =? 133) || (c =? 160) || (c =? 5760) || ((8192 <=? c) && (c <=? 8202))
  || (c =? 8232) || (c =? 8233) || (c =? 8239) || (c =? 8287) || (c =? 12288).

Definition shown_alias (alias : option text) : option text := a ← alias; if forallb is_whitespace a then None else Some a.

Definition shown_key (key : option bytes) : option bytes := k ← key; match k with [] => None | _ => Some k end.

Definition member_entry (m : Member) : result MembersError MemberEntry :=
  leaf ← parse_member_leaf_id (mb_leaf_id m);
  Ok {| me_leaf_id := leaf; me_alias := shown_alias (mb_alias m); me_pop_public_key := shown_key (mb_pop_public_key m);
        me_join_timestamp_ms := mb_join_date m; me_last_seen_timestamp_ms := mb_last_seen m |}.

Fixpoint member_entries (l : list Member) : result MembersError (list MemberEntry) :=
  match l with
  | [] => Ok []
  | m :: tl => e ← member_entry m; es ← member_entries tl; Ok (e :: es)
  end.

Definition mode_query (mode : MembersMode) (r : MembersRequest) : Query :=
  match mode with Full => QMembers r | Search q => QSearch q r end.

Definition listing_request (p : MembersParams) (root : bytes) : MembersRequest := {|
  mr_gid := mp_gid p; mr_parent_root := root; mr_offset := Some (mp_offset p); mr_limit := Some (mp_limit p) |}.

(** The first part of [perform_fetch_members]: the first page is of the latest
    root, a later one of the root known, or of the latest when that is not
    found.  The second component is the number of requests made. *)
Definition fetch_page (answers : Answers) (p : MembersParams) : nat * result ClientError MembersResponse :=
  if mp_offset p =? 0 then (1%nat, answers 0%nat (mode_query (mp_mode p) (listing_request p [])))
  else
    match answers 0%nat (mode_query (mp_mode p) (listing_request p (mp_parent_root p))) with
    | Err (HttpStatus 404) => (2%nat, answers 1%nat (mode_query (mp_mode p) (listing_request p [])))
    | other => (1%nat, other)
    end.

Definition perform_fetch_members {MH : MerkleHash} (answers : Answers) (fuel : nat) (p : MembersParams) : option (result MembersError MembersPage) :=
  match fetch_page answers p with
  | (n, Err e) => Some (Err (FromClient e))
  | (n, Ok r) =>
      if negb (len (ms_root r) =? 32) then Some (Err RootLength)
      else
        let finish := es ← member_entries (ms_members r);
                      Ok {| mg_members := es; mg_root := ms_root r; mg_total_count := ms_total_count r; mg_next_offset := ms_next_offset r |} in
        if mp_offset p =? 0 then
          match verify_members_root_consistency answers fuel n (mp_gid p) (ms_root r) with
          | None => None
          | Some (Err e) => Some (Err e)
          | Some (Ok _) => Some finish
          end
        else Some finish
  end.

(** ** The walk over the pages *)

Section Walk.
Context {MH : MerkleHash}.

(** The count that the first page announces. *)
Definition announced (answers : Answers) (n : nat) (gid root : bytes) : Z :=
  match answers n (page_query gid root 0) with Ok r => ms_total_count r | Err _ => 0 end.

Lemma check_page_total root total r leaves : check_page root (Some total) r = Ok leaves -> ms_total_count r = total.
Proof. unfold check_page. intros H. inv_all. bool_prop. lia. Qed.

(** With the count fixed, every turn moves the offset towards it. *)
Lemma verify_loop_fuel answers gid root total fuel : forall n offset leaves, offset < total -> (Z.to_nat (total - offset) <= fuel)%nat ->
  exists res, forall more, (fuel <= more)%nat -> verify_loop answers more n gid root offset (Some total) leaves = Some res.
Proof.
  induction fuel as [|fuel IH]; intros n offset leaves Ho Hf; [lia|].
  destruct (answers n (page_query gid root offset)) as [r|e] eqn:Ea;
    [destruct (check_page root (Some total) r) as [new|e] eqn:Ec|].
  - pose proof (check_page_total _ _ _ _ Ec) as Ht. destruct (Z.leb_spec (ms_total_count r) (ms_next_offset r)) as [H1|H1].
    { eexists. intros [|more] Hm; [lia|]. cbn. rewrite Ea, Ec, (proj2 (Z.leb_le _ _) H1). done. }
    destruct (Z.leb_spec (ms_next_offset r) offset) as [H2|H2].
    { eexists. intros [|more] Hm; [lia|]. cbn. rewrite Ea, Ec, (proj2 (Z.leb_gt _ _) H1), (proj2 (Z.leb_le _ _) H2). done. }
    destruct (IH (S n) (ms_next_offset r) (leaves ++ new)) as [res Hres]; [lia|lia|]. exists res. intros [|more] Hm; [lia|]. cbn.
    rewrite Ea, Ec, (proj2 (Z.leb_gt _ _) H1), (proj2 (Z.leb_gt _ _) H2), Ht. apply Hres. lia.
  - eexists. intros [|more] Hm; [lia|]. cbn. by rewrite Ea, Ec.
  - eexists. intros [|more] Hm; [lia|]. cbn. by rewrite Ea.
Qed.

(** C22: The verification of a member listing ends, whatever the server answers,
    honest or not, the same or not from one request to the next: it makes at
    most as many requests as the first page announces members, one at least;
    with that much fuel it has its result, and more fuel does not change it. *)
Theorem verify_terminates answers n gid root :
  exists res, forall fuel, (Nat.max 1 (Z.to_nat (announced answers n gid root)) <= fuel)%nat ->
    verify_members_root_consistency answers fuel n gid root = Some res.
Proof.
  unfold verify_members_root_consistency, announced. destruct (answers n (page_query gid root 0)) as [r|e] eqn:Ea;
    [destruct (check_page root None r) as [new|e] eqn:Ec|].
  - destruct (Z.leb_spec (ms_total_count r) (ms_next_offset r)) as [H1|H1].
    { eexists. intros [|fuel] Hf; [lia|]. cbn. rewrite Ea, Ec, (proj2 (Z.leb_le _ _) H1). done. }
    destruct (Z.leb_spec (ms_next_offset r) 0) as [H2|H2].
    { eexists. intros [|fuel] Hf; [lia|]. cbn. rewrite Ea, Ec, (proj2 (Z.leb_gt _ _) H1), (proj2 (Z.leb_le _ _) H2). done. }
    destruct (verify_loop_fuel answers gid root (ms_total_count r) (Z.to_nat (ms_total_count r - ms_next_offset r)) (S n) (ms_next_offset r) new)
      as [res Hres]; [lia|lia|]. exists res. intros [|fuel] Hf; [lia|]. cbn.
    rewrite Ea, Ec, (proj2 (Z.leb_gt _ _) H1), (proj2 (Z.leb_gt _ _) H2). apply Hres. lia.
  - eexists. intros [|fuel] Hf; [lia|]. cbn. by rewrite Ea, Ec.
  - eexists. intros [|fuel] Hf; [lia|]. cbn. by rewrite Ea.
Qed.

(** The pages of a walk from [offset] on, as the server answered them. *)
Inductive walk (answers : Answers) (gid root : bytes) : nat -> Z -> list MembersResponse -> Prop :=
  | walk_last n offset r :
      answers n (page_query gid root offset) = Ok r -> ms_total_count r <= ms_next_offset r -> walk answers gid root n offset [r]
  | walk_more n offset r rs :
      answers n (page_query gid root offset) = Ok r -> offset < ms_next_offset r < ms_total_count r ->
      walk answers gid root (S n) (ms_next_offset r) rs -> walk answers gid root n offset (r :: rs).

(** The leaves of the pages, in the order they came. *)
Definition listed (rs : list MembersResponse) : list bytes := concat ((fun r => mb_leaf_id <$> ms_members r) <$> rs).

Lemma parse_leaves_ok l xs : parse_leaves l = Ok xs -> xs = mb_leaf_id <$> l.
Proof.
  revert xs. induction l as [|m l IH]; intros xs H; cbn in H; [by injection H as <-|]. unfold parse_member_leaf_id in H. inv_all. cbn. f_equal. by apply IH.
Qed.

Lemma check_page_ok root expected r leaves : check_page root expected r = Ok leaves ->
  ms_root r = root /\ leaves = mb_leaf_id <$> ms_members r /\ forall total, expected = Some total -> ms_total_count r = total.
Proof.
  unfold check_page. intros H. inv_all. apply parse_leaves_ok in H as ->. bool_prop. split; [done|]. split; [done|].
  intros total ->. bool_prop. lia.
Qed.

Lemma verify_loop_sound answers gid root fuel : forall n offset expected leaves,
  verify_loop answers fuel n gid root offset expected leaves = Some (Ok tt) ->
  exists rs total, walk answers gid root n offset rs /\ Forall (fun r => ms_root r = root /\ ms_total_count r = total) rs
    /\ (forall t, expected = Some t -> t = total) /\ validate_members_root_from_leaves root (leaves ++ listed rs) total = Ok tt.
Proof.
  induction fuel as [|fuel IH]; intros n offset expected leaves H; [done|]. cbn in H.
  destruct (answers n (page_query gid root offset)) as [r|e] eqn:Ea; [|done].
  destruct (check_page root expected r) as [new|e] eqn:Ec; [|done]. apply check_page_ok in Ec as (Hr & -> & Ht).
  destruct (Z.leb_spec (ms_total_count r) (ms_next_offset r)) as [H1|H1].
  - exists [r], (ms_total_count r). split; [by constructor|]. split; [by repeat constructor|]. split; [intros t Et; symmetry; by apply Ht|].
    injection H as H. unfold listed. cbn [fmap list_fmap concat]. by rewrite app_nil_r.
  - destruct (Z.leb_spec (ms_next_offset r) offset) as [H2|H2]; [done|].
    apply IH in H as (rs & total & Hw & Hf & He & Hv). specialize (He _ eq_refl). exists (r :: rs), total. split; [by constructor|].
    split; [by constructor|]. split; [intros t Et; rewrite <- He; symmetry; by apply Ht|].
    unfold listed in *. cbn [fmap list_fmap concat]. by rewrite (assoc_L (++)).
Qed.

Lemma validate_members_ok root leaves total : validate_members_root_from_leaves root leaves total = Ok tt ->
  len leaves = total /\ canonical_set_root (merge_sort bytes_le leaves) = Ok root.
Proof.
  unfold validate_members_root_from_leaves. intros H. inv_all. bool_prop. split; [lia|].
  destruct (canonical_set_root (merge_sort bytes_le leaves)) as [c|]; [|done]. cbn in E0. injection E0 as ->. by f_equal.
Qed.
End Walk.

(** ** What a verified listing says *)

Section Verified.
Context {MH : MerkleHash}.

(** C12: What a successful verification establishes: the server answered a walk
    of pages that all carry the requested root and one count, with that many
    leaves in all; and if [s] is a membership set of that size whose root is
    the requested one, then the leaves listed are exactly the members of [s],
    or two of the nodes hashed for the two trees collide. *)
Theorem verified_listing_binds answers fuel n gid root :
  verify_members_root_consistency answers fuel n gid root = Some (Ok tt) ->
  exists rs total, walk answers gid root n 0 rs /\ Forall (fun r => ms_root r = root /\ ms_total_count r = total) rs
    /\ len (listed rs) = total
    /\ forall s : gset bytes, canonical_set_root (members s) = Ok root -> Z.of_nat (size s) = total ->
         listed rs ≡ₚ members s \/ node_collision (root_nodes (merge_sort bytes_le (listed rs)) ++ root_nodes (members s)).
Proof.
  intros H. apply verify_loop_sound in H as (rs & total & Hw & Hf & _ & Hv). apply validate_members_ok in Hv as [Hl Hr]. cbn [app] in Hl, Hr.
  exists rs, total. split_and!; [done|done|done|]. intros s Hs Ht. pose proof (merge_sort_Permutation bytes_le (listed rs)) as Hp.
  destruct (set_root_inj (merge_sort bytes_le (listed rs)) (members s) root) as [He|Hc]; [|done|done| |by right].
  - rewrite Hp, length_members. unfold len in Hl. lia.
  - left. by rewrite <- He, Hp.
Qed.

(** C33: The number of members is the server's word: for every room and every
    root, a server that answers each page request with one member, whose leaf
    is the root itself, passes the verification, because the root of a set of
    one leaf is that leaf.  The membership root of a room of any size thus also
    verifies as that of a room with a single, made-up member. *)
Theorem forged_listing_verifies gid root n fuel : len root = 32 ->
  let member := {| mb_leaf_id := root; mb_alias := None; mb_pop_public_key := None; mb_join_date := None; mb_last_seen := None |} in
  let answers := fun _ _ => Ok {| ms_members := [member]; ms_root := root; ms_total_count := 1; ms_next_offset := 1 |} in
  verify_members_root_consistency answers (S fuel) n gid root = Some (Ok tt).
Proof.
  intros Hr member answers. unfold verify_members_root_consistency. cbn [verify_loop answers]. unfold check_page, parse_leaves, parse_member_leaf_id, member.
  cbn [ms_root ms_members ms_total_count ms_next_offset mb_leaf_id]. rewrite Hr. cbn. rewrite bytes_eqb_refl. cbn.
  unfold validate_members_root_from_leaves. cbn. by rewrite bytes_eqb_refl.
Qed.

(** ** The server of this repository *)

(** An answer of the handler, as the client sees it. *)
Definition to_client (r : result ApiError MembersResponse) : result ClientError MembersResponse :=
  match r with
  | Ok x => Ok x
  | Err ApiNotFound => Err (HttpStatus 404)
  | Err (ApiInvalidRequest _) => Err (HttpStatus 400)
  end.

Context (groups : Groups) (reg : AliasRegistry) (st : RoomVolatileState) (g : Group) (gid root : bytes) (s : gset bytes) (answers : Answers).
Context (honest : forall n r, answers n (QMembers r) = to_client (members_handler groups reg st r)).
Context (room : groups !! gid = Some g) (ok : snapshots_ok g) (listed_root : snapshots g !! root = Some s).
Context (gid_len : len gid = 32) (root_len : len root = 32) (leaf_len : forall leaf, leaf ∈ s -> len leaf = 32).

Lemma honest_page n offset : 0 <= offset <= Z.of_nat (size s) ->
  let stop := Z.min (offset + 2000) (Z.of_nat (size s)) in
  answers n (page_query gid root offset) = Ok {|
    ms_members := member_response (leaf_lookup reg) (member_metadata (indexes st))
                  <$> take (Z.to_nat (stop - offset)) (drop (Z.to_nat offset) (members s));
    ms_root := root; ms_total_count := Z.of_nat (size s); ms_next_offset := stop |}.
Proof using honest room listed_root gid_len root_len.
  intros Ho stop. unfold page_query. rewrite honest. unfold members_handler, validate_members_request, normalize_members_page.
  cbn [mr_gid mr_parent_root mr_offset mr_limit]. rewrite gid_len, root_len. cbn [Z.eqb Pos.eqb negb andb fail_if]. rewrite !bind_Ok.
  cbn [vr_gid vr_parent_root vr_offset vr_limit default from_option id]. unfold fetch_room_members, members_for_root. rewrite room. cbn.
  rewrite listed_root. cbn. unfold paginate_room_members, MEMBERS_ROOT_VERIFY_PAGE_LIMIT, MEMBERS_MAX_PAGE_SIZE.
  unfold len. rewrite length_members. change (Z.max 1 (Z.min 2000 2000)) with 2000.
  rewrite (Z.min_l offset (Z.of_nat (size s))) by lia. fold stop. cbn [pg_members pg_total_count pg_next_offset]. do 3 f_equal.
  destruct (Z.leb_spec (Z.of_nat (size s)) stop); lia.
Qed.

Lemma parse_members l : Forall (fun x => len x = 32) l ->
  parse_leaves (member_response (leaf_lookup reg) (member_metadata (indexes st)) <$> l) = Ok l.
Proof using.
  induction 1 as [|x l Hx _ IH]; [done|]. cbn [fmap list_fmap parse_leaves]. unfold parse_member_leaf_id. cbn [mb_leaf_id member_response].
  rewrite Hx. cbn [Z.eqb Pos.eqb negb fail_if]. rewrite !bind_Ok, IH. done.
Qed.

Lemma merge_sort_members : merge_sort bytes_le (members s) = members s.
Proof using.
  apply (StronglySorted_unique bytes_le); [apply StronglySorted_merge_sort; apply _| |apply merge_sort_Permutation].
  unfold members. apply StronglySorted_merge_sort; apply _.
Qed.

Lemma honest_loop fuel : forall n offset expected, 0 <= offset <= Z.of_nat (size s) -> (Z.to_nat (Z.of_nat (size s) - offset) < fuel)%nat ->
  expected = None \/ expected = Some (Z.of_nat (size s)) ->
  verify_loop answers fuel n gid root offset expected (take (Z.to_nat offset) (members s)) = Some (Ok tt).
Proof using honest room ok listed_root gid_len root_len leaf_len.
  induction fuel as [|fuel IH]; intros n offset expected Ho Hf He; [lia|]. cbn [verify_loop]. rewrite honest_page by done. cbv zeta.
  set (stop := Z.min (offset + 2000) (Z.of_nat (size s))). unfold check_page. cbn [ms_root ms_members ms_total_count ms_next_offset].
  rewrite root_len, bytes_eqb_refl. cbn [Z.eqb Pos.eqb negb fail_if]. rewrite !bind_Ok.
  assert (match expected with Some total => negb (total =? Z.of_nat (size s)) | None => false end = false) as ->.
  { destruct He as [-> | ->]; [done|]. by rewrite Z.eqb_refl. }
  cbn [fail_if]. rewrite bind_Ok, parse_members.
  2:{ apply Forall_take, Forall_drop, Forall_forall. intros x Hx. by apply leaf_len, members_elem. }
  rewrite take_take_drop. replace (Z.to_nat offset + Z.to_nat (stop - offset))%nat with (Z.to_nat stop) by lia.
  pose proof (length_members s) as Hlen. destruct (Z.leb_spec (Z.of_nat (size s)) stop) as [Hs|Hs].
  - rewrite take_ge by lia. unfold validate_members_root_from_leaves, len. rewrite Hlen, Z.eqb_refl. cbn [negb fail_if]. rewrite bind_Ok.
    rewrite merge_sort_members, (ok _ _ listed_root). cbn. by rewrite bytes_eqb_refl.
  - destruct (Z.leb_spec stop offset); [lia|]. apply IH; [lia|lia|by right].
Qed.

(** C25: The client's verification and the server's listing agree: against a
    server that answers with the listing handler over a roster whose snapshots
    carry their own roots (which every reachable roster does), the verification
    of a listed root succeeds, with every page asked for and every member
    listed once, however many pages the room takes. *)
Theorem honest_listing_verifies n fuel : (size s < fuel)%nat ->
  verify_members_root_consistency answers fuel n gid root = Some (Ok tt).
Proof using honest room ok listed_root gid_len root_len leaf_len.
  intros Hf. apply (honest_loop fuel n 0 None); [lia|lia|by left].
Qed.
End Verified.

(** ** What the panel shows *)

Section Shown.
Context {MH : MerkleHash}.

(** A server that answers the first request with [page] and the others as [answers] does. *)
Definition first_page (page : MembersResponse) (answers : Answers) : Answers :=
  fun n q => match n with O => Ok page | S n => answers n q end.

Lemma verify_shift page answers fuel gid root : forall n offset expected leaves,
  verify_loop (first_page page answers) fuel (S n) gid root offset expected leaves = verify_loop answers fuel n gid root offset expected leaves.
Proof.
  induction fuel as [|fuel IH]; intros n offset expected leaves; [done|]. cbn [verify_loop first_page].
  destruct (answers n _) as [r|]; [|done]. destruct (check_page _ _ _); [|done]. by rewrite IH.
Qed.

(** C32: The members shown are not the members verified.  The first page is
    fetched, then the listing of the root it names is fetched again and
    verified, and then the page is shown as it came: a server that lists the
    root correctly to the verification can show any members at all, here those
    of [page].  A later page is shown without any verification. *)
Theorem shown_members_unverified page answers fuel p es :
  len (ms_root page) = 32 -> member_entries (ms_members page) = Ok es ->
  let shown := {| mg_members := es; mg_root := ms_root page; mg_total_count := ms_total_count page; mg_next_offset := ms_next_offset page |} in
  (mp_offset p = 0 -> verify_members_root_consistency answers fuel 0 (mp_gid p) (ms_root page) = Some (Ok tt) ->
     perform_fetch_members (first_page page answers) fuel p = Some (Ok shown))
  /\ (mp_offset p <> 0 -> perform_fetch_members (first_page page answers) fuel p = Some (Ok shown)).
Proof.
  intros Hr He. cbv zeta. unfold perform_fetch_members, fetch_page. split.
  - intros Ho Hv. rewrite Ho. cbn [Z.eqb first_page]. rewrite Hr. cbn [Z.eqb Pos.eqb negb]. unfold verify_members_root_consistency in *.
    rewrite verify_shift, Hv, He. done.
  - intros Ho. rewrite (proj2 (Z.eqb_neq _ _) Ho). cbn [first_page]. rewrite Hr, He. done.
Qed.
End Shown.

(** ** Witnesses *)

Definition pair_set : gset bytes := {[leaf_a; leaf_b]}.

Definition pair_root : bytes := match @canonical_set_root toy_merkle (members pair_set) with Ok r => r | Err _ => [] end.

Lemma pair_root_ok : @canonical_set_root toy_merkle (members pair_set) = Ok pair_root.
Proof. vm_compute. reflexivity. Qed.

Definition pair_group : Group := with_snapshots sample_group (Some pair_root) {[pair_root := pair_set]}.
Definition pair_groups : Groups := {[room_gid := pair_group]}.

Lemma pair_snapshots_ok : @snapshots_ok toy_merkle pair_group.
Proof. intros root s Hs. cbn in Hs. apply lookup_singleton_Some in Hs as [<- <-]. apply pair_root_ok. Qed.

Lemma pair_leaves leaf : leaf ∈ pair_set -> len leaf = 32.
Proof. unfold pair_set. rewrite elem_of_union, !elem_of_singleton. by intros [-> | ->]. Qed.

Definition pair_answers : Answers := fun _ q => match q with QMembers r | QSearch _ r => to_client (members_handler pair_groups ∅ room_default r) end.

Lemma pair_root_len : len pair_root = 32.
Proof. vm_compute. reflexivity. Qed.

Lemma honest_listing_verifies_witness : @verify_members_root_consistency toy_merkle pair_answers 3 5 room_gid pair_root = Some (Ok tt).
Proof.
  refine (@honest_listing_verifies toy_merkle pair_groups ∅ room_default pair_group room_gid pair_root pair_set pair_answers
            (fun n r => eq_refl) _ pair_snapshots_ok _ eq_refl pair_root_len pair_leaves 5 3 _).
  - vm_compute; reflexivity.
  - vm_compute; reflexivity.
  - vm_compute; lia.
Defined.

Lemma pair_verified n : @verify_members_root_consistency toy_merkle pair_answers 3 n room_gid pair_root = Some (Ok tt).
Proof. vm_compute. reflexivity. Qed.

Lemma verified_listing_binds_witness :
  exists rs total, walk pair_answers room_gid pair_root 0 0 rs /\ Forall (fun r => ms_root r = pair_root /\ ms_total_count r = total) rs
    /\ len (listed rs) = total
    /\ forall s : gset bytes, @canonical_set_root toy_merkle (members s) = Ok pair_root -> Z.of_nat (size s) = total ->
         listed rs ≡ₚ members s
         \/ @node_collision toy_merkle (@root_nodes toy_merkle (merge_sort bytes_le (listed rs)) ++ @root_nodes toy_merkle (members s)).
Proof. exact (@verified_listing_binds toy_merkle pair_answers 3 0 room_gid pair_root (pair_verified 0)). Defined.

(** The root of the room of two members, as a listing of one. *)
Lemma forged_listing_verifies_witness :
  @verify_members_root_consistency toy_merkle
    (fun _ _ => Ok {| ms_members := [{| mb_leaf_id := pair_root; mb_alias := None; mb_pop_public_key := None; mb_join_date := None; mb_last_seen := None |}];
                      ms_root := pair_root; ms_total_count := 1; ms_next_offset := 1 |}) 1 0 room_gid pair_root = Some (Ok tt).
Proof. exact (@forged_listing_verifies toy_merkle room_gid pair_root 0 0 pair_root_len). Defined.

(** A page with one member, who is not in the room. *)
Definition stranger_page : MembersResponse := {|
  ms_members := [{| mb_leaf_id := leaf_c; mb_alias := None; mb_pop_public_key := None; mb_join_date := None; mb_last_seen := None |}];
  ms_root := pair_root; ms_total_count := 1; ms_next_offset := 1 |}.

Lemma shown_members_unverified_witness :
  leaf_c ∉ pair_set /\
  @perform_fetch_members toy_merkle (first_page stranger_page pair_answers) 3
    {| mp_gid := room_gid; mp_parent_root := []; mp_offset := 0; mp_limit := 100; mp_mode := Full |}
  = Some (Ok {| mg_members := [{| me_leaf_id := leaf_c; me_alias := None; me_pop_public_key := None; me_join_timestamp_ms := None;
                                  me_last_seen_timestamp_ms := None |}];
                mg_root := pair_root; mg_total_count := 1; mg_next_offset := 1 |}).
Proof.
  split; [by vm_compute|].
  exact (proj1 (@shown_members_unverified toy_merkle stranger_page pair_answers 3
    {| mp_gid := room_gid; mp_parent_root := []; mp_offset := 0; mp_limit := 100; mp_mode := Full |}
    [{| me_leaf_id := leaf_c; me_alias := None; me_pop_public_key := None; me_join_timestamp_ms := None; me_last_seen_timestamp_ms := None |}]
    pair_root_len eq_refl) eq_refl (pair_verified 0)).
Defined.
