(* ===== verification/MsgReplay.v ===== *)
(** * The anti-replay state of a receiver

    Models [MsgReplayState] and [PersistedMsgReplayState] of
    [crates/cityg-client/src/message_crypto.rs]: for every sender-scoped tuple tag
    a bounded queue of accepted message indices, pruned to the current context,
    and the form in which it is written to disk and read back.  A [BTreeMap] is a
    [gmap] whose iteration order, that of the keys, is [entries].  Hexadecimal
    text is the class [HexCodec]. *)

From S2P Require Import Prelude Slots.

Definition MAX_MSGS_PER_REPLAY_TUPLE : Z := 4096.
#[global] Arguments MAX_MSGS_PER_REPLAY_TUPLE : simpl never.

Record MsgReplayTupleState := {
  context_id : bytes;
  seen_msg_indices : list Z;
  seen_msg_index_set : gset Z;
  last_seen_order : Z
}.

Definition default_tuple : MsgReplayTupleState :=
  {| context_id := zero32; seen_msg_indices := []; seen_msg_index_set := ∅; last_seen_order := 0 |}.

Record MsgReplayState := {
  tuples : gmap bytes MsgReplayTupleState;
  next_seen_order : Z
}.

Definition default_replay : MsgReplayState := {| tuples := ∅; next_seen_order := 0 |}.

(** ** Operations *)

Definition with_context (st : MsgReplayTupleState) (ctx : bytes) : MsgReplayTupleState :=
  {| context_id := ctx; seen_msg_indices := seen_msg_indices st; seen_msg_index_set := seen_msg_index_set st;
     last_seen_order := last_seen_order st |}.

(** [entry(tag).or_default()], then the check of its context. *)
Definition bind_context (s : MsgReplayState) (tuple_tag ctx : bytes) : MsgReplayTupleState :=
  let state := default default_tuple (tuples s !! tuple_tag) in
  if bytes_eqb (context_id state) zero32 then with_context state ctx
  else if negb (bytes_eqb (context_id state) ctx) then with_context default_tuple ctx
  else state.

Definition with_tuple (s : MsgReplayState) (tag : bytes) (st : MsgReplayTupleState) (next : Z) : MsgReplayState :=
  {| tuples := <[tag := st]> (tuples s); next_seen_order := next |}.

Definition ensure_tuple (s : MsgReplayState) (tuple_tag ctx : bytes) : MsgReplayState :=
  with_tuple s tuple_tag (bind_context s tuple_tag ctx) (next_seen_order s).

Definition contains (s : MsgReplayState) (tuple_tag : bytes) (msg_index : Z) : bool :=
  match tuples s !! tuple_tag with
  | Some state => bool_decide (msg_index ∈ seen_msg_index_set state)
  | None => false
  end.

(** The queue takes the index at the back and lets the oldest go when it is full. *)
Definition push_index (state : MsgReplayTupleState) (msg_index order : Z) : MsgReplayTupleState :=
  let set := {[msg_index]} ∪ seen_msg_index_set state in
  let queue := seen_msg_indices state ++ [msg_index] in
  match queue with
  | oldest :: rest =>
      if MAX_MSGS_PER_REPLAY_TUPLE <? len queue then
        {| context_id := context_id state; seen_msg_indices := rest; seen_msg_index_set := set ∖ {[oldest]};
           last_seen_order := order |}
      else
        {| context_id := context_id state; seen_msg_indices := queue; seen_msg_index_set := set; last_seen_order := order |}
  | [] => state
  end.

Definition record (s : MsgReplayState) (tuple_tag ctx : bytes) (msg_index : Z) : MsgReplayState :=
  let state := bind_context s tuple_tag ctx in
  if bool_decide (msg_index ∈ seen_msg_index_set state) then with_tuple s tuple_tag state (next_seen_order s)
  else
    let next := sat_add (next_seen_order s) 1 in
    with_tuple s tuple_tag (push_index state msg_index next) next.

Definition tuple_len (s : MsgReplayState) (tuple_tag : bytes) : Z :=
  match tuples s !! tuple_tag with Some state => len (seen_msg_indices state) | None => 0 end.

Definition tuple_count (s : MsgReplayState) : Z := Z.of_nat (size (tuples s)).

(** *** Pruning *)

Definition entry_le {A} (a b : bytes * A) : Prop := bytes_le a.1 b.1.

#[global] Instance entry_le_dec {A} : RelDecision (@entry_le A).
Proof. intros a b. unfold entry_le. apply _. Defined.

(** The entries of a [BTreeMap] in the order of its keys. *)
Definition entries {A} (m : gmap bytes A) : list (bytes * A) := merge_sort entry_le (map_to_list m).

(** [min_by_key]: the first of the least elements. *)
Fixpoint min_by_key {A} (f : A -> Z) (l : list A) : option A :=
  match l with
  | [] => None
  | x :: l =>
      match min_by_key f l with
      | None => Some x
      | Some y => if f x <=? f y then Some x else Some y
      end
  end.

(** [while self.tuples.len() > max_tuples]; every turn removes an entry. *)
Fixpoint evict (fuel : nat) (max_tuples : Z) (m : gmap bytes MsgReplayTupleState) : gmap bytes MsgReplayTupleState :=
  match fuel with
  | O => m
  | S fuel =>
      if max_tuples <? Z.of_nat (size m) then
        match min_by_key (fun e => last_seen_order e.2) (entries m) with
        | Some (oldest_tag, _) => evict fuel max_tuples (delete oldest_tag m)
        | None => m
        end
      else m
  end.

Definition in_context (ctx : bytes) (state : MsgReplayTupleState) : bool :=
  bytes_eqb (context_id state) zero32 || bytes_eqb (context_id state) ctx.

Definition prune_to_context (s : MsgReplayState) (ctx : bytes) (max_tuples : Z) : MsgReplayState :=
  let kept := filter (fun e => in_context ctx e.2 = true) (tuples s) in
  {| tuples := evict (size kept) (Z.max max_tuples 1) kept; next_seen_order := next_seen_order s |}.

(** ** The persisted form *)

Record PersistedMsgReplayTupleState := {
  pt_tuple_tag_hex : string;
  pt_context_id_hex : string;
  pt_seen_msg_indices : list Z;
  pt_last_seen_order : Z
}.

Record PersistedMsgReplayState := {
  pr_tuple_tag_hex : string;
  pr_seen_msg_indices : list Z;
  pr_tuples : list PersistedMsgReplayTupleState;
  pr_next_seen_order : Z
}.

Section Persisted.
  Context {HX : HexCodec}.

Definition from_runtime (s : MsgReplayState) : PersistedMsgReplayState :=
  {| pr_tuple_tag_hex := EmptyString; pr_seen_msg_indices := [];
     pr_tuples := map (fun e => {| pt_tuple_tag_hex := hex_encode e.1; pt_context_id_hex := hex_encode (context_id e.2);
                                   pt_seen_msg_indices := seen_msg_indices e.2; pt_last_seen_order := last_seen_order e.2 |})
                    (entries (tuples s));
     pr_next_seen_order := next_seen_order s |}.

Definition decode_hex32 (value : string) : result string bytes :=
  b ← ok_or (hex_decode value) "is not valid hex";
  fail_if (negb (len b =? 32)) "must decode to 32 bytes" ;;
  Ok b.

Definition decode_hex32_or_zero (value : string) : result string bytes :=
  if String.eqb value EmptyString then Ok zero32 else decode_hex32 value.

Definition set_last_seen (order : Z) (st : MsgReplayTupleState) : MsgReplayTupleState :=
  {| context_id := context_id st; seen_msg_indices := seen_msg_indices st; seen_msg_index_set := seen_msg_index_set st;
     last_seen_order := Z.max order (last_seen_order st) |}.

Definition record_all (s : MsgReplayState) (tag ctx : bytes) (indices : list Z) : MsgReplayState :=
  foldl (fun s i => record s tag ctx i) s indices.

Definition restore_tuple (runtime : MsgReplayState) (tuple : PersistedMsgReplayTupleState) : result string MsgReplayState :=
  tuple_tag ← decode_hex32_or_zero (pt_tuple_tag_hex tuple);
  ctx ← decode_hex32_or_zero (pt_context_id_hex tuple);
  let runtime := ensure_tuple runtime tuple_tag ctx in
  let runtime := record_all runtime tuple_tag ctx (pt_seen_msg_indices tuple) in
  Ok {| tuples := alter (set_last_seen (pt_last_seen_order tuple)) tuple_tag (tuples runtime);
        next_seen_order := next_seen_order runtime |}.

Definition max_order (m : gmap bytes MsgReplayTupleState) : Z :=
  foldl (fun acc e => Z.max acc (last_seen_order e.2)) 0 (map_to_list m).

Definition into_runtime (p : PersistedMsgReplayState) : result string MsgReplayState :=
  let runtime := {| tuples := ∅; next_seen_order := pr_next_seen_order p |} in
  if bool_decide (pr_tuples p = []) && (negb (String.eqb (pr_tuple_tag_hex p) EmptyString) || negb (bool_decide (pr_seen_msg_indices p = [])))
  then
    tuple_tag ← decode_hex32_or_zero (pr_tuple_tag_hex p);
    let runtime := ensure_tuple runtime tuple_tag zero32 in
    Ok (record_all runtime tuple_tag zero32 (pr_seen_msg_indices p))
  else
    runtime ← fold_res restore_tuple runtime (pr_tuples p);
    Ok {| tuples := tuples runtime; next_seen_order := Z.max (next_seen_order runtime) (max_order (tuples runtime)) |}.

End Persisted.

(** ** Invariant *)

Record tuple_ok (next : Z) (st : MsgReplayTupleState) : Prop := {
  to_nodup : NoDup (seen_msg_indices st);
  to_set : seen_msg_index_set st = list_to_set (seen_msg_indices st);
  to_bound : len (seen_msg_indices st) <= MAX_MSGS_PER_REPLAY_TUPLE;
  to_order : 0 <= last_seen_order st <= next;
  to_context : digest32 (context_id st)
}.

Record replay_ok (s : MsgReplayState) : Prop := {
  ro_next : is_u64 (next_seen_order s);
  ro_tuples : map_Forall (fun tag st => digest32 tag /\ tuple_ok (next_seen_order s) st) (tuples s)
}.

Lemma digest32_zero : digest32 zero32.
Proof. split; [|done]. apply Forall_replicate. unfold is_byte. lia. Qed.

Lemma default_tuple_ok next ctx : 0 <= next -> digest32 ctx -> tuple_ok next (with_context default_tuple ctx).
Proof. intros Hn Hc. split; cbn; [apply NoDup_nil_2|done|done|lia|done]. Qed.

Lemma tuple_ok_mono n m st : n <= m -> tuple_ok n st -> tuple_ok m st.
Proof. intros Hnm []. split; try done. lia. Qed.

Lemma bind_context_ok s tag ctx :
  replay_ok s -> digest32 ctx ->
  tuple_ok (next_seen_order s) (bind_context s tag ctx) /\ context_id (bind_context s tag ctx) = ctx.
Proof.
  intros [[Hn _] Ht] Hc. unfold bind_context.
  assert (tuple_ok (next_seen_order s) (default default_tuple (tuples s !! tag))) as Hst.
  { destruct (tuples s !! tag) as [st|] eqn:E; cbn [default]; [by apply (Ht tag st)|].
    apply (default_tuple_ok _ zero32 Hn digest32_zero). }
  destruct (bytes_eqb (context_id _) zero32) eqn:E1; [by destruct Hst; split|].
  destruct (bytes_eqb (context_id _) ctx) eqn:E2; cbn [negb]; bool_prop; [done|].
  split; [by apply default_tuple_ok|done].
Qed.

Lemma push_index_queue st i order :
  seen_msg_indices (push_index st i order) =
    (if MAX_MSGS_PER_REPLAY_TUPLE <? len (seen_msg_indices st ++ [i]) then tail (seen_msg_indices st ++ [i])
     else seen_msg_indices st ++ [i]) /\
  context_id (push_index st i order) = context_id st /\ last_seen_order (push_index st i order) = order.
Proof.
  unfold push_index. destruct (seen_msg_indices st ++ [i]) as [|o rest] eqn:E; [by destruct (seen_msg_indices st)|].
  by destruct (_ <? _).
Qed.

Lemma push_index_ok n m st i :
  tuple_ok n st -> i ∉ seen_msg_index_set st -> n <= m -> tuple_ok m (push_index st i m).
Proof.
  intros [Hnd Hset Hb Ho Hc] Hi Hnm. rewrite Hset, elem_of_list_to_set in Hi.
  destruct (push_index_queue st i m) as (Hq & Hctx & Hord).
  assert (NoDup (seen_msg_indices st ++ [i])) as Hnd'.
  { apply NoDup_app. split_and!; [done|intros x Hx ->%list_elem_of_singleton; done|apply NoDup_singleton]. }
  assert (len (seen_msg_indices st ++ [i]) = len (seen_msg_indices st) + 1) as Hl by (by rewrite len_app).
  split; [| | |rewrite Hord; lia|by rewrite Hctx].
  - rewrite Hq. case_if; [|done]. destruct (_ ++ _); [done|]. by apply NoDup_cons in Hnd' as [_ ?].
  - unfold push_index. rewrite Hset. destruct (seen_msg_indices st ++ [i]) as [|o rest] eqn:E; [by destruct (seen_msg_indices st)|].
    assert ({[i]} ∪ list_to_set (seen_msg_indices st) =@{gset Z} list_to_set (o :: rest)) as Hs.
    { rewrite <- E, list_to_set_app_L. set_solver. }
    apply NoDup_cons in Hnd' as [Hno _]. rewrite Hs. case_if; cbn [seen_msg_index_set seen_msg_indices]; [|done].
    cbn [list_to_set]. assert (o ∉@{gset Z} list_to_set rest) by (by rewrite elem_of_list_to_set). set_solver.
  - rewrite Hq. destruct (_ <? _) eqn:E; bool_prop; [|done]. destruct (seen_msg_indices st ++ [i]); [done|].
    unfold len in *. cbn [tail length] in *. lia.
Qed.

Lemma with_tuple_ok s tag st next :
  replay_ok s -> digest32 tag -> next_seen_order s <= next <= U64_MAX -> tuple_ok next st -> replay_ok (with_tuple s tag st next).
Proof.
  intros [Hn Ht] Htag Hnext Hst. split; cbn; [unfold is_u64 in *; lia|]. intros t st' H.
  apply lookup_insert_Some in H as [[<- <-]|[_ H]]; [done|]. destruct (Ht _ _ H). split; [done|]. eapply tuple_ok_mono; [|done]. lia.
Qed.

Lemma ensure_tuple_ok s tag ctx : replay_ok s -> digest32 tag -> digest32 ctx -> replay_ok (ensure_tuple s tag ctx).
Proof.
  intros Hs Ht Hc. apply with_tuple_ok; [done|done|destruct Hs as [[]]; lia|by apply bind_context_ok].
Qed.

Lemma next_step s : replay_ok s -> next_seen_order s <= sat_add (next_seen_order s) 1 <= U64_MAX.
Proof. intros [[]]. unfold sat_add. lia. Qed.

Lemma record_ok s tag ctx i : replay_ok s -> digest32 tag -> digest32 ctx -> replay_ok (record s tag ctx i).
Proof.
  intros Hs Ht Hc. destruct (bind_context_ok s tag ctx Hs Hc) as [Hb _]. pose proof (next_step s Hs). unfold record.
  case_if; bool_prop; apply with_tuple_ok; try done; [destruct Hs as [[]]; lia|]. eapply push_index_ok; [exact Hb|done|lia].
Qed.

(** ** Pruning *)

Lemma min_by_key_spec {A} (f : A -> Z) l :
  match min_by_key f l with Some x => x ∈ l /\ forall y, y ∈ l -> f x <= f y | None => l = [] end.
Proof.
  induction l as [|x l IH]; cbn [min_by_key]; [done|]. destruct (min_by_key f l) as [y|].
  - destruct IH as [Hin Hmin]. destruct (f x <=? f y) eqn:E; bool_prop.
    + split; [by constructor|]. intros z [->|Hz]%elem_of_cons; [lia|]. specialize (Hmin z Hz). lia.
    + split; [by constructor|]. intros z [->|Hz]%elem_of_cons; [lia|by apply Hmin].
  - subst l. split; [by constructor|]. intros z ->%list_elem_of_singleton. lia.
Qed.

Lemma elem_of_entries {A} (m : gmap bytes A) k a : (k, a) ∈ entries m <-> m !! k = Some a.
Proof. unfold entries. rewrite merge_sort_Permutation. apply elem_of_map_to_list. Qed.

(** [r] is what is left of [m] when the entries seen longest ago are removed. *)
Definition keeps_recent (m r : gmap bytes MsgReplayTupleState) : Prop :=
  r ⊆ m /\
  forall k st k' st', r !! k = Some st -> m !! k' = Some st' -> r !! k' = None -> last_seen_order st' <= last_seen_order st.

Lemma evict_tuples_spec fuel max m :
  (size m <= fuel)%nat -> 1 <= max ->
  keeps_recent m (evict fuel max m) /\ Z.of_nat (size (evict fuel max m)) = Z.min (Z.of_nat (size m)) max.
Proof.
  intros Hf Hmax. revert m Hf. induction fuel as [|fuel IH]; intros m Hf; cbn [evict].
  { split; [split; [done|intros; congruence]|lia]. }
  destruct (max <? Z.of_nat (size m)) eqn:E; bool_prop; [|split; [split; [done|intros; congruence]|lia]].
  pose proof (min_by_key_spec (fun e => last_seen_order e.2) (entries m)) as Hmin.
  destruct (min_by_key _ _) as [[o ost]|].
  - destruct Hmin as [Ho%elem_of_entries Hleast]. pose proof (map_size_delete_Some o m (mk_is_Some _ _ Ho)) as Hsz.
    destruct (IH (delete o m)) as [[Hsub Hrec] Hsize]; [lia|]. split; [split|lia].
    + etransitivity; [exact Hsub|apply delete_subseteq].
    + intros k st k' st' Hk Hk' Hnone. destruct (decide (k' = o)) as [->|Hne].
      * rewrite Ho in Hk'. injection Hk' as <-. pose proof (lookup_weaken _ _ _ _ Hk Hsub) as Hkm.
        apply lookup_delete_Some in Hkm as [_ Hkm]. by apply (Hleast (k, st)), elem_of_entries.
      * apply (Hrec k st k' st'); [done|by rewrite lookup_delete_ne|done].
  - exfalso. assert (map_to_list m = []) as Hnil.
    { apply Permutation_nil_r. rewrite <- Hmin. symmetry. apply merge_sort_Permutation. }
    apply map_to_list_empty_iff in Hnil. subst m. rewrite map_size_empty in E. lia.
Qed.

Lemma prune_spec s ctx max :
  let kept := filter (fun e => in_context ctx e.2 = true) (tuples s) in
  let r := tuples (prune_to_context s ctx max) in
  keeps_recent kept r /\ Z.of_nat (size r) = Z.min (Z.of_nat (size kept)) (Z.max max 1).
Proof. apply evict_tuples_spec; lia. Qed.

Lemma prune_to_context_ok s ctx max : replay_ok s -> replay_ok (prune_to_context s ctx max).
Proof.
  intros [Hn Ht]. split; [done|]. destruct (prune_spec s ctx max) as [[Hsub _] _]. intros k st Hk.
  pose proof (lookup_weaken _ _ _ _ Hk Hsub) as H. apply map_lookup_filter_Some in H as [H _]. exact (Ht _ _ H).
Qed.

(** Nothing is evicted while the limit is not exceeded. *)
Lemma prune_within s ctx max tag :
  Z.of_nat (size (filter (fun e => in_context ctx e.2 = true) (tuples s))) <= Z.max max 1 ->
  tuples (prune_to_context s ctx max) !! tag = filter (fun e => in_context ctx e.2 = true) (tuples s) !! tag.
Proof.
  intros Hsz. destruct (prune_spec s ctx max) as [[Hsub _] Hsize]. rewrite Z.min_l in Hsize by done.
  by rewrite (map_subseteq_size_eq _ _ Hsub) by lia.
Qed.

(** ** Restart *)

(** What a tuple refuses. *)
Definition content (st : MsgReplayTupleState) : bytes * list Z * gset Z :=
  (context_id st, seen_msg_indices st, seen_msg_index_set st).

(** A tuple bound to [ctx] is what the next operation in [ctx] works on. *)
Lemma bind_context_same s tag ctx st : tuples s !! tag = Some st -> context_id st = ctx -> bind_context s tag ctx = st.
Proof.
  intros H <-. unfold bind_context. rewrite H. change (default default_tuple (Some st)) with st. destruct (bytes_eqb (context_id st) zero32) eqn:E.
  - by destruct st.
  - by rewrite bytes_eqb_refl.
Qed.

Lemma record_fresh s tag ctx st i :
  tuples s !! tag = Some st -> context_id st = ctx -> i ∉ seen_msg_index_set st ->
  record s tag ctx i = with_tuple s tag (push_index st i (sat_add (next_seen_order s) 1)) (sat_add (next_seen_order s) 1).
Proof. intros H Hc Hi. unfold record. rewrite (bind_context_same s tag ctx st) by done. by rewrite bool_decide_eq_false_2. Qed.

Lemma push_index_room st i order :
  len (seen_msg_indices st) < MAX_MSGS_PER_REPLAY_TUPLE ->
  push_index st i order = {| context_id := context_id st; seen_msg_indices := seen_msg_indices st ++ [i];
    seen_msg_index_set := {[i]} ∪ seen_msg_index_set st; last_seen_order := order |}.
Proof.
  intros H. unfold push_index. destruct (seen_msg_indices st ++ [i]) as [|o rest] eqn:E; [by destruct (seen_msg_indices st)|].
  rewrite (proj2 (Z.ltb_ge _ _)); [done|]. rewrite <- E, len_app. change (len [i]) with 1. lia.
Qed.

Lemma sat_add_add n k l : 0 <= k -> 0 <= l -> sat_add (sat_add n k) l = sat_add n (k + l).
Proof. unfold sat_add. lia. Qed.

(** Recording a queue into a tuple appends it, and moves the tuple's order. *)
Lemma record_all_spec indices s tag ctx st :
  tuples s !! tag = Some st -> tuple_ok (next_seen_order s) st -> is_u64 (next_seen_order s) -> context_id st = ctx ->
  NoDup (seen_msg_indices st ++ indices) -> len (seen_msg_indices st ++ indices) <= MAX_MSGS_PER_REPLAY_TUPLE ->
  let next := sat_add (next_seen_order s) (len indices) in
  exists st', tuples (record_all s tag ctx indices) = <[tag := st']> (tuples s) /\
    next_seen_order (record_all s tag ctx indices) = next /\ tuple_ok next st' /\
    content st' = (ctx, seen_msg_indices st ++ indices, list_to_set (seen_msg_indices st ++ indices)) /\
    last_seen_order st' = if bool_decide (indices = []) then last_seen_order st else next.
Proof.
  cbv zeta. revert s st. induction indices as [|i l IH]; intros s st Hs Hok Hu Hc Hnd Hlen.
  - exists st. cbn [record_all foldl]. change (len (@nil Z)) with 0. rewrite app_nil_r in *.
    replace (sat_add (next_seen_order s) 0) with (next_seen_order s) by (unfold sat_add, is_u64 in *; lia).
    split_and!; [by rewrite insert_id|done|done|unfold content; by rewrite Hc, (to_set _ _ Hok)|done].
  - pose proof (len_nonneg l). assert (len (i :: l) = 1 + len l) as Hl by (unfold len; cbn [length]; lia).
    rewrite len_app, Hl in Hlen. rewrite Hl, <- sat_add_add by lia.
    rewrite cons_middle in Hnd. pose proof (proj1 (NoDup_app _ _) Hnd) as (_ & Hdis & Hnd2).
    assert (i ∉ seen_msg_index_set st) as Hi.
    { rewrite (to_set _ _ Hok), elem_of_list_to_set. intros Hin. apply (Hdis i Hin). by constructor. }
    change (record_all s tag ctx (i :: l)) with (record_all (record s tag ctx i) tag ctx l).
    rewrite (record_fresh s tag ctx st i) by done. set (n1 := sat_add (next_seen_order s) 1).
    assert (next_seen_order s <= n1 <= U64_MAX) as Hn1 by (subst n1; unfold sat_add, is_u64 in *; lia).
    rewrite push_index_room by lia. set (st1 := {| context_id := _ |}). set (s1 := with_tuple _ _ _ _).
    assert (tuple_ok n1 st1) as Hok1.
    { subst st1. rewrite <- push_index_room by lia. eapply push_index_ok; [exact Hok|done|lia]. }
    destruct (IH s1 st1) as (st' & H1 & H2 & H3 & H4 & H5); [by apply lookup_insert_eq|done| |done|..].
    { subst s1. cbn. unfold is_u64 in *. lia. }
    { subst st1. cbn [seen_msg_indices]. by rewrite <- app_assoc. }
    { subst st1. cbn [seen_msg_indices]. rewrite !len_app. change (len [i]) with 1. lia. }
    exists st'. subst s1 st1. cbn [next_seen_order with_tuple tuples seen_msg_indices last_seen_order] in *.
    rewrite <- app_assoc in H4. split_and!; [by rewrite H1, insert_insert_eq|done|done|exact H4|]. rewrite H5.
    rewrite (bool_decide_eq_false_2 (i :: l = [])) by done. case_bool_decide as Hnil; [|done].
    subst l. change (len (@nil Z)) with 0. unfold sat_add in *. lia.
Qed.

Section Restart.
  Context {HX : HexCodec} {HL : HexCodecLaws HX}.

Definition persist_entry (e : bytes * MsgReplayTupleState) : PersistedMsgReplayTupleState :=
  {| pt_tuple_tag_hex := hex_encode e.1; pt_context_id_hex := hex_encode (context_id e.2);
     pt_seen_msg_indices := seen_msg_indices e.2; pt_last_seen_order := last_seen_order e.2 |}.

Lemma decode_hex32_encode b : digest32 b -> decode_hex32_or_zero (hex_encode b) = Ok b.
Proof using HL.
  intros [Hb Hl]. unfold decode_hex32_or_zero, decode_hex32. destruct (String.eqb (hex_encode b) EmptyString) eqn:E.
  - apply String.eqb_eq in E. pose proof (hex_decode_encode b Hb) as H. rewrite E, hex_decode_empty in H. injection H as <-. done.
  - rewrite hex_decode_encode by done. cbn. by rewrite Hl.
Qed.

(** A tuple restored under a tag not restored yet: the content is kept, the order
    is that of the restoration. *)
Lemma restore_tuple_fresh r tag st n :
  tuples r !! tag = None -> is_u64 (next_seen_order r) -> digest32 tag -> tuple_ok n st -> n <= next_seen_order r ->
  let next := sat_add (next_seen_order r) (len (seen_msg_indices st)) in
  exists st', restore_tuple r (persist_entry (tag, st)) = Ok (with_tuple r tag st' next) /\
    tuple_ok next st' /\ content st' = content st /\
    (seen_msg_indices st <> [] -> last_seen_order st' = next).
Proof using HL.
  intros Hnone Hu Htag Hok Hn. cbv zeta. unfold restore_tuple. cbn [persist_entry pt_tuple_tag_hex pt_context_id_hex pt_seen_msg_indices pt_last_seen_order fst snd].
  rewrite !decode_hex32_encode by (done || apply Hok). rewrite !bind_Ok. set (ctx := context_id st).
  assert (bind_context r tag ctx = with_context default_tuple ctx) as Hbind by (unfold bind_context; by rewrite Hnone).
  unfold ensure_tuple. rewrite Hbind. set (r1 := with_tuple r tag _ _).
  destruct (record_all_spec (seen_msg_indices st) r1 tag ctx (with_context default_tuple ctx)) as (st' & H1 & H2 & H3 & H4 & H5).
  { by apply lookup_insert_eq. }
  { apply default_tuple_ok; [apply Hu|apply Hok]. }
  { done. }
  { done. }
  { apply Hok. }
  { apply Hok. }
  cbn [with_context default_tuple seen_msg_indices app last_seen_order] in *. subst r1. cbn [with_tuple next_seen_order tuples] in *.
  exists (set_last_seen (last_seen_order st) st'). pose proof (to_order _ _ Hok). pose proof (len_nonneg (seen_msg_indices st)).
  assert (next_seen_order r <= sat_add (next_seen_order r) (len (seen_msg_indices st))) as Hle by (unfold sat_add, is_u64 in *; lia).
  split_and!.
  - cbv zeta. rewrite H1, H2, insert_insert_eq. unfold with_tuple. f_equal. f_equal. apply alter_insert_eq.
  - destruct H3. split; try done. cbn. lia.
  - unfold content in *. cbn. injection H4 as -> -> ->. subst ctx. by rewrite (to_set _ _ Hok).
  - intros Hne. cbn. rewrite H5, bool_decide_eq_false_2 by done. lia.
Qed.

(** How many indices a list of entries holds. *)
Definition held (l : list (bytes * MsgReplayTupleState)) : Z := foldr (fun e n => len (seen_msg_indices e.2) + n) 0 l.

Lemma held_nonneg l : 0 <= held l.
Proof.
  induction l as [|e l IH]; [done|]. change (0 <= len (seen_msg_indices e.2) + held l).
  pose proof (len_nonneg (seen_msg_indices e.2)). lia.
Qed.

Record restored (l : list (bytes * MsgReplayTupleState)) (r r' : MsgReplayState) : Prop := {
  rs_next : next_seen_order r' = sat_add (next_seen_order r) (held l);
  rs_other : forall t, t ∉ l.*1 -> tuples r' !! t = tuples r !! t;
  rs_entry : forall t st, (t, st) ∈ l ->
    exists st', tuples r' !! t = Some st' /\ tuple_ok (next_seen_order r') st' /\ content st' = content st /\
      (seen_msg_indices st <> [] -> sat_add (next_seen_order r) 1 <= last_seen_order st')
}.

Lemma restore_all l n r :
  NoDup l.*1 -> Forall (fun e => digest32 e.1 /\ tuple_ok n e.2 /\ tuples r !! e.1 = None) l ->
  is_u64 (next_seen_order r) -> n <= next_seen_order r ->
  exists r', fold_res restore_tuple r (map persist_entry l) = Ok r' /\ restored l r r'.
Proof using HL.
  revert r. induction l as [|[t st] l IH]; intros r Hnd Hall Hu Hn.
  { exists r. split; [done|]. split; [|done|intros t st []%not_elem_of_nil]. cbn. unfold sat_add, is_u64 in *. lia. }
  apply NoDup_cons in Hnd as [Ht Hnd]. apply Forall_cons in Hall as [(Hd & Hok & Hnone) Hall]. cbn [fst snd] in *.
  destruct (restore_tuple_fresh r t st n Hnone Hu Hd Hok Hn) as (st1 & Hr & Hok1 & Hc1 & Ho1).
  pose proof (len_nonneg (seen_msg_indices st)) as Hl0. pose proof (held_nonneg l) as Hh0.
  set (next := sat_add (next_seen_order r) (len (seen_msg_indices st))) in *.
  assert (next_seen_order r <= next <= U64_MAX) as Hnext by (subst next; unfold sat_add, is_u64 in *; lia).
  destruct (IH (with_tuple r t st1 next)) as (r' & Hf & [Hrn Hro Hre]); [done| |cbn; unfold is_u64 in *; lia|cbn; lia|].
  { apply Forall_forall. intros e He. pose proof (proj1 (Forall_forall _ _) Hall e He) as (? & ? & ?). split_and!; try done.
    cbn. rewrite lookup_insert_ne; [done|]. intros ->. apply Ht. by apply list_elem_of_fmap_2. }
  exists r'. split; [cbn [map fold_res]; rewrite Hr; exact Hf|]. cbn [with_tuple next_seen_order tuples] in *. split.
  - rewrite Hrn. subst next. by rewrite sat_add_add by lia.
  - intros u [Hu1 Hu2]%not_elem_of_cons. rewrite Hro by done. by apply lookup_insert_ne.
  - intros u su [[= -> ->]|Hin]%elem_of_cons.
    + exists st1. rewrite Hro by done. split; [apply lookup_insert_eq|]. split_and!; [|done|].
      * eapply tuple_ok_mono; [|exact Hok1]. rewrite Hrn. unfold sat_add. lia.
      * intros Hne. rewrite (Ho1 Hne). destruct (seen_msg_indices st) as [|i ix]; [done|]. subst next. unfold sat_add, len in *. cbn [length] in *. lia.
    + destruct (Hre u su Hin) as (st' & H1 & H2 & H3 & H4). exists st'. split_and!; try done.
      intros Hne. specialize (H4 Hne). unfold sat_add in *. lia.
Qed.

Lemma max_order_le m b : 0 <= b -> map_Forall (fun _ st => last_seen_order st <= b) m -> max_order m <= b.
Proof.
  intros Hb Hm. unfold max_order. assert (Forall (fun e : bytes * MsgReplayTupleState => last_seen_order e.2 <= b) (map_to_list m)) as H.
  { apply Forall_forall. intros [k st] H%elem_of_map_to_list. exact (Hm _ _ H). }
  assert (forall l a, a <= b -> Forall (fun e : bytes * MsgReplayTupleState => last_seen_order e.2 <= b) l ->
    foldl (fun acc e => Z.max acc (last_seen_order e.2)) a l <= b) as Hfold; [|by apply Hfold].
  induction l as [|e l IH]; intros a Ha Hl; cbn [foldl]; [done|]. apply Forall_cons in Hl as [H1 H2]. apply IH; [lia|done].
Qed.

Lemma entries_sorted {A} (m : gmap bytes A) : StronglySorted entry_le (entries m).
Proof.
  apply Sorted_StronglySorted; [|apply Sorted_merge_sort].
  - intros a b c. unfold entry_le. apply bytes_le_trans.
  - intros a b. apply bytes_le_total.
Qed.

Lemma entries_keys {A} (m : gmap bytes A) : NoDup (entries m).*1.
Proof. unfold entries. rewrite merge_sort_Permutation. apply NoDup_fst_map_to_list. Qed.

Lemma entries_ok s : replay_ok s ->
  Forall (fun e => digest32 e.1 /\ tuple_ok (next_seen_order s) e.2 /\ (∅ : gmap bytes MsgReplayTupleState) !! e.1 = None) (entries (tuples s)).
Proof.
  intros [_ Ht]. apply Forall_forall. intros [k st] H%elem_of_entries. destruct (Ht k st H). split_and!; [done|done|apply lookup_empty].
Qed.

(** Writing the state to disk and reading it back. *)
Definition restart (s : MsgReplayState) : result string MsgReplayState := into_runtime (from_runtime s).

Lemma restart_restored s :
  replay_ok s ->
  let r := {| tuples := ∅; next_seen_order := next_seen_order s |} in
  exists s', restart s = Ok s' /\ fold_res restore_tuple r (map persist_entry (entries (tuples s))) = Ok s' /\
    restored (entries (tuples s)) r s'.
Proof using HL.
  intros Hs r. pose proof (entries_ok s Hs) as Hall. unfold restart, into_runtime. rewrite andb_comm. cbn [from_runtime pr_tuples pr_tuple_tag_hex pr_seen_msg_indices pr_next_seen_order].
  cbn [String.eqb negb bool_decide orb andb decide]. rewrite bool_decide_eq_true_2 by done. cbn [negb orb andb].
  destruct (restore_all (entries (tuples s)) (next_seen_order s) r) as (r' & Hf & Hr); [apply entries_keys|exact Hall|apply Hs|cbn; lia|].
  change (map _ (entries (tuples s))) with (map persist_entry (entries (tuples s))). exists r'. split; [|done]. fold r. rewrite Hf, bind_Ok.
  transitivity (@Ok string _ {| tuples := tuples r'; next_seen_order := next_seen_order r' |}); [|by destruct r'].
  f_equal. f_equal. apply Z.max_l. destruct Hr as [Hn Ho He]. pose proof (held_nonneg (entries (tuples s))). destruct Hs as [[Hs0 _] Hs2].
  apply max_order_le; [rewrite Hn; subst r; cbn [next_seen_order]; unfold sat_add, U64_MAX; lia|]. intros t st Hst.
  destruct (decide (t ∈ (entries (tuples s)).*1)) as [([u su] & -> & Hin)%list_elem_of_fmap|Hnot].
  - destruct (He _ _ Hin) as (st' & H1 & H2 & _). cbn [fst] in Hst. rewrite H1 in Hst. injection Hst as <-. apply H2.
  - rewrite Ho in Hst by done. cbn in Hst. by rewrite lookup_empty in Hst.
Qed.

(** A restart keeps every tuple, its context and the indices it refuses. *)
Lemma restart_spec s :
  replay_ok s ->
  exists s', restart s = Ok s' /\ replay_ok s' /\ forall t, content <$> tuples s' !! t = content <$> tuples s !! t.
Proof using HL.
  intros Hs. destruct (restart_restored s Hs) as (s' & Hr & _ & [Hn Ho He]). exists s'. split; [done|].
  pose proof (held_nonneg (entries (tuples s))) as Hh. cbn [next_seen_order tuples] in *.
  assert (forall t, t ∉ (entries (tuples s)).*1 -> tuples s' !! t = None /\ tuples s !! t = None) as Hout.
  { intros t Ht. split; [rewrite Ho by done; apply lookup_empty|]. destruct (tuples s !! t) as [st|] eqn:E; [|done].
    destruct Ht. apply list_elem_of_fmap. exists (t, st). split; [done|]. by apply elem_of_entries. }
  split; [split|].
  - destruct Hs as [[]]. rewrite Hn. unfold sat_add, is_u64, U64_MAX in *. lia.
  - intros t st Hst. destruct (decide (t ∈ (entries (tuples s)).*1)) as [([u su] & -> & Hin)%list_elem_of_fmap|Hnot].
    + destruct (He _ _ Hin) as (st' & H1 & H2 & _). cbn [fst] in *. rewrite H1 in Hst. injection Hst as <-. split; [|done].
      apply elem_of_entries in Hin. by apply (ro_tuples _ Hs u su).
    + destruct (Hout t Hnot). congruence.
  - intros t. destruct (decide (t ∈ (entries (tuples s)).*1)) as [([u su] & -> & Hin)%list_elem_of_fmap|Hnot].
    + destruct (He _ _ Hin) as (st' & H1 & _ & H3 & _). apply elem_of_entries in Hin. cbn [fst]. rewrite H1, Hin. cbn. by rewrite H3.
    + destruct (Hout t Hnot) as [-> ->]. done.
Qed.

Lemma held_app l1 l2 : held (l1 ++ l2) = held l1 + held l2.
Proof.
  induction l1 as [|e l IH]; [done|]. change (len (seen_msg_indices e.2) + held (l ++ l2) = len (seen_msg_indices e.2) + held l + held l2). lia.
Qed.

Lemma held_entry l t st : (t, st) ∈ l -> len (seen_msg_indices st) <= held l.
Proof.
  intros (l1 & l2 & ->)%list_elem_of_split. rewrite held_app. pose proof (held_nonneg l1). pose proof (held_nonneg l2).
  change (held ((t, st) :: l2)) with (len (seen_msg_indices st) + held l2). lia.
Qed.

(** What is restored later is ordered later. *)
Lemma restore_order l1 l2 n r r' t1 t2 st1 st2 :
  NoDup (l1 ++ l2).*1 -> Forall (fun e => digest32 e.1 /\ tuple_ok n e.2 /\ tuples r !! e.1 = None) (l1 ++ l2) ->
  is_u64 (next_seen_order r) -> n <= next_seen_order r -> next_seen_order r + held (l1 ++ l2) <= U64_MAX ->
  fold_res restore_tuple r (map persist_entry (l1 ++ l2)) = Ok r' ->
  (t1, st1) ∈ l1 -> (t2, st2) ∈ l2 -> seen_msg_indices st2 <> [] ->
  exists r1 r2, tuples r' !! t1 = Some r1 /\ tuples r' !! t2 = Some r2 /\ last_seen_order r1 < last_seen_order r2.
Proof using HL.
  intros Hnd [Ha1 Ha2]%Forall_app Hu Hn Hsat Hf Hin1 Hin2 Hne. rewrite fmap_app in Hnd. apply NoDup_app in Hnd as (Hnd1 & Hdis & Hnd2).
  rewrite map_app, fold_res_app in Hf. rewrite held_app in Hsat. pose proof (held_nonneg l1). pose proof (held_entry _ _ _ Hin2) as Hh2.
  assert (1 <= len (seen_msg_indices st2)) as Hl2 by (destruct (seen_msg_indices st2); [done|unfold len; cbn [length]; lia]).
  destruct (restore_all l1 n r) as (r1 & Hf1 & [Hn1 Ho1 He1]); [done..|]. rewrite Hf1, bind_Ok in Hf.
  assert (next_seen_order r1 = next_seen_order r + held l1) as Hr1 by (rewrite Hn1; unfold sat_add; lia).
  destruct (restore_all l2 n r1) as (r2 & Hf2 & [Hn2 Ho2 He2]); [done| |unfold is_u64 in *; lia|lia|].
  { apply Forall_forall. intros e He. pose proof (proj1 (Forall_forall _ _) Ha2 e He) as (? & ? & ?). split_and!; try done.
    rewrite Ho1; [done|]. intros Hin. apply (Hdis _ Hin). by apply list_elem_of_fmap_2. }
  rewrite Hf2 in Hf. injection Hf as <-.
  destruct (He1 _ _ Hin1) as (s1 & H1 & Hok1 & _). destruct (He2 _ _ Hin2) as (s2 & H2 & _ & _ & Hord). specialize (Hord Hne).
  exists s1, s2. split_and!; [|done|].
  - rewrite Ho2; [done|]. intros Hin. apply (Hdis t1); [|done]. apply list_elem_of_fmap. by exists (t1, st1).
  - pose proof (to_order _ _ Hok1). unfold sat_add in Hord. lia.
Qed.

(** The order of eviction after a restart is the order of the tags. *)
Lemma restart_order s s' t1 t2 st1 st2 :
  replay_ok s -> next_seen_order s + held (entries (tuples s)) <= U64_MAX -> restart s = Ok s' ->
  tuples s !! t1 = Some st1 -> tuples s !! t2 = Some st2 -> seen_msg_indices st2 <> [] -> bytes_lt t1 t2 ->
  exists r1 r2, tuples s' !! t1 = Some r1 /\ tuples s' !! t2 = Some r2 /\ last_seen_order r1 < last_seen_order r2.
Proof using HL.
  intros Hs Hsat Hr H1 H2 Hne Hlt. destruct (restart_restored s Hs) as (s1 & Hs1 & Hf & _).
  rewrite Hr in Hs1. injection Hs1 as <-. apply elem_of_entries in H1 as Hin1, H2 as Hin2.
  pose proof (entries_sorted (tuples s)) as Hsort. pose proof (entries_keys (tuples s)) as Hnd. pose proof (entries_ok s Hs) as Hall.
  destruct (list_elem_of_split _ _ Hin1) as (l1 & l2 & Hl). rewrite Hl in *. clear Hl.
  rewrite cons_middle, app_assoc in *.
  assert ((t2, st2) ∈ l2) as Hin2'.
  { apply elem_of_app in Hin2 as [Hin2|Hin2]; [|done]. exfalso. apply elem_of_app in Hin2 as [Hin2|Hin2].
    - rewrite <- app_assoc in Hsort. apply StronglySorted_app_1_elem_of with (x1 := (t2, st2)) (x2 := (t1, st1)) in Hsort; [|done|by constructor].
      unfold entry_le in Hsort. cbn in Hsort. apply bytes_le_lteq in Hsort as [Hgt| ->]; [|by apply (irreflexivity bytes_lt t1)].
      apply (irreflexivity bytes_lt t1). by transitivity t2.
    - apply list_elem_of_singleton in Hin2. injection Hin2 as -> ->. by apply (irreflexivity bytes_lt t1). }
  eapply (restore_order _ _ _ {| tuples := ∅; next_seen_order := next_seen_order s |}); [exact Hnd|exact Hall|apply Hs|cbn [next_seen_order]; lia|exact Hsat|exact Hf| |exact Hin2'|exact Hne].
  apply elem_of_app. right. by constructor.
Qed.

(** ** Runs of a receiver *)

(** The steps that keep [tag] in the context [ctx], with the number of messages of
    [tag] they record; a restart writes the state and reads it back. *)
Inductive replay_step (tag ctx : bytes) : nat -> MsgReplayState -> MsgReplayState -> Prop :=
  | step_ensure s t c : digest32 t -> digest32 c -> (t = tag -> c = ctx) -> replay_step tag ctx 0 s (ensure_tuple s t c)
  | step_record s t c i : digest32 t -> digest32 c -> (t = tag -> c = ctx) ->
      replay_step tag ctx (if decide (t = tag) then 1 else 0) s (record s t c i)
  | step_prune s max : Z.of_nat (size (filter (fun e => in_context ctx e.2 = true) (tuples s))) <= Z.max max 1 ->
      replay_step tag ctx 0 s (prune_to_context s ctx max)
  | step_restart s s' : restart s = Ok s' -> replay_step tag ctx 0 s s'.

Inductive replay_run (tag ctx : bytes) : nat -> MsgReplayState -> MsgReplayState -> Prop :=
  | run_nil s : replay_run tag ctx 0 s s
  | run_cons k n s1 s2 s3 : replay_step tag ctx k s1 s2 -> replay_run tag ctx n s2 s3 -> replay_run tag ctx (k + n) s1 s3.

(** The index is in the queue of its tuple with at most [k] behind it. *)
Definition tracked (tag ctx : bytes) (i : Z) (k : nat) (s : MsgReplayState) : Prop :=
  exists st pre post, tuples s !! tag = Some st /\ context_id st = ctx /\
    seen_msg_indices st = pre ++ i :: post /\ (length post <= k)%nat.

Lemma replay_step_ok tag ctx k s s' : replay_ok s -> replay_step tag ctx k s s' -> replay_ok s'.
Proof using HL.
  intros Hs Hstep. destruct Hstep; [by apply ensure_tuple_ok|by apply record_ok|by apply prune_to_context_ok|].
  destruct (restart_spec s Hs) as (s1 & H1 & Hok & _). congruence.
Qed.

(** A push moves a tracked index by one place, unless the queue is full of newer ones. *)
Lemma push_tracked st i j pre post order :
  seen_msg_indices st = pre ++ i :: post -> (S (length post) < 4096)%nat ->
  exists pre', seen_msg_indices (push_index st j order) = pre' ++ i :: (post ++ [j]).
Proof.
  intros Hq Hk. destruct (push_index_queue st j order) as [-> _]. rewrite Hq, <- app_assoc. cbn [app].
  case_if; [|by exists pre]. destruct pre as [|p pre]; [|by exists pre]. exfalso. bool_prop.
  unfold len, MAX_MSGS_PER_REPLAY_TUPLE in *. cbn [app length] in *. rewrite length_app in *. cbn [length] in *. lia.
Qed.

Lemma step_tracked tag ctx i j k s s' :
  replay_ok s -> replay_step tag ctx k s s' -> (j + k < 4096)%nat -> tracked tag ctx i j s -> tracked tag ctx i (j + k) s'.
Proof using HL.
  intros Hs Hstep Hlt (st & pre & post & Hst & Hctx & Hq & Hpost).
  destruct Hstep as [s t c Ht Hc Hsame|s t c i' Ht Hc Hsame|s max Hsz|s s' Hr].
  - destruct (decide (t = tag)) as [->|Hne].
    + specialize (Hsame eq_refl). subst c. exists st, pre, post. split_and!; [|done|done|lia].
      unfold ensure_tuple. rewrite (bind_context_same s tag ctx st) by done. apply lookup_insert_eq.
    + exists st, pre, post. split_and!; [|done|done|lia]. cbn. by rewrite lookup_insert_ne.
  - destruct (decide (t = tag)) as [->|Hne].
    + specialize (Hsame eq_refl). subst c. unfold record. rewrite (bind_context_same s tag ctx st) by done. case_if.
      * exists st, pre, post. split_and!; [apply lookup_insert_eq|done|done|lia].
      * set (next := sat_add _ _). destruct (push_tracked st i i' pre post next Hq) as [pre' Hp]; [lia|].
        exists (push_index st i' next), pre', (post ++ [i']). split_and!; [apply lookup_insert_eq| |done|rewrite length_app; cbn; lia].
        destruct (push_index_queue st i' next) as (_ & -> & _). done.
    + exists st, pre, post. split_and!; [|done|done|lia]. unfold record. case_if; cbn; by rewrite lookup_insert_ne.
  - exists st, pre, post. split_and!; [|done|done|lia]. rewrite prune_within by done. apply map_lookup_filter_Some. split; [done|].
    unfold in_context. cbn. rewrite Hctx, bytes_eqb_refl. apply orb_true_r.
  - destruct (restart_spec s Hs) as (s1 & H1 & _ & Hcont). rewrite Hr in H1. injection H1 as <-. specialize (Hcont tag).
    rewrite Hst in Hcont. apply fmap_Some in Hcont as (st' & Hst' & Heq). unfold content in Heq. injection Heq as E1 E2 E3.
    exists st', pre, post. split_and!; [done|congruence|congruence|lia].
Qed.

Lemma run_tracked tag ctx n s s' : replay_run tag ctx n s s' ->
  forall i j, replay_ok s -> (j + n < 4096)%nat -> tracked tag ctx i j s -> replay_ok s' /\ tracked tag ctx i (j + n) s'.
Proof using HL.
  induction 1 as [s|k n s1 s2 s3 Hstep Hrun IH]; intros i j Hs Hlt Htr; [by rewrite Nat.add_0_r|].
  rewrite Nat.add_assoc in *. apply IH; [by eapply replay_step_ok|lia|]. eapply step_tracked; [done|done|lia|done].
Qed.

Lemma tracked_contains tag ctx i k s : replay_ok s -> tracked tag ctx i k s -> contains s tag i = true.
Proof.
  intros Hs (st & pre & post & Hst & _ & Hq & _). unfold contains. rewrite Hst. apply bool_decide_eq_true_2.
  destruct (ro_tuples _ Hs _ _ Hst) as [_ Hok]. rewrite (to_set _ _ Hok), elem_of_list_to_set, Hq. apply elem_of_app. right. by constructor.
Qed.

Lemma record_tracked s tag ctx i :
  replay_ok s -> digest32 ctx -> contains s tag i = false -> tracked tag ctx i 0 (record s tag ctx i).
Proof.
  intros Hs Hc Hnot. destruct (bind_context_ok s tag ctx Hs Hc) as [_ Hctx].
  assert (i ∉ seen_msg_index_set (bind_context s tag ctx)) as Hi.
  { unfold contains in Hnot. unfold bind_context. destruct (tuples s !! tag) as [st|]; cbn [default]; [apply bool_decide_eq_false in Hnot|];
    repeat case_if; cbn; first [done | by apply not_elem_of_empty]. }
  unfold record. rewrite bool_decide_eq_false_2 by done. set (next := sat_add _ _). set (st := bind_context s tag ctx) in *.
  destruct (push_index_queue st i next) as (Hq & Hpc & _).
  assert (exists pre, seen_msg_indices (push_index st i next) = pre ++ [i]) as [pre Hpre].
  { rewrite Hq. case_if; [|by eexists]. destruct (seen_msg_indices st) as [|x q]; [|by eexists].
    bool_prop. unfold len, MAX_MSGS_PER_REPLAY_TUPLE in *. cbn in *. lia. }
  exists (push_index st i next), pre, []. split_and!; [apply lookup_insert_eq|congruence|done|done].
Qed.

End Restart.

Section Claims.
  Context {HX : HexCodec} {HL : HexCodecLaws HX}.

(** C19: an accepted message is not accepted a second time.  After an index that was
    not held is recorded for a tag, whatever the receiver does next (messages of
    other tags, pruning within the limit, writing its state to disk and reading it
    back), the index is found again as long as fewer than 4096 further messages
    of that tag are recorded and the tag stays in its context. *)
Theorem replay_refused tag ctx i n s0 s :
  replay_ok s0 -> digest32 tag -> digest32 ctx -> contains s0 tag i = false ->
  replay_run tag ctx n (record s0 tag ctx i) s -> Z.of_nat n < MAX_MSGS_PER_REPLAY_TUPLE ->
  contains s tag i = true.
Proof using HL.
  intros Hs Ht Hc Hnot Hrun Hn. unfold MAX_MSGS_PER_REPLAY_TUPLE in Hn.
  destruct (run_tracked tag ctx n _ s Hrun i 0) as [Hok Htr]; [by apply record_ok|lia|by apply record_tracked|].
  by eapply tracked_contains.
Qed.

(** A restart keeps what is refused but not the order of eviction.  The state
    read back is well formed and holds the tuples, contexts and indices that were
    written; the tuples that hold an index are, however, ordered by their tags
    and no longer by when they were last used. *)
Theorem restart_forgets_recency s :
  replay_ok s ->
  exists s', restart s = Ok s' /\ replay_ok s' /\
    (forall t i, contains s' t i = contains s t i) /\
    (forall t1 t2 st1 st2,
       next_seen_order s + held (entries (tuples s)) <= U64_MAX ->
       tuples s !! t1 = Some st1 -> tuples s !! t2 = Some st2 -> seen_msg_indices st2 <> [] -> bytes_lt t1 t2 ->
       exists r1 r2, tuples s' !! t1 = Some r1 /\ tuples s' !! t2 = Some r2 /\ last_seen_order r1 < last_seen_order r2).
Proof using HL.
  intros Hs. destruct (restart_spec s Hs) as (s' & Hr & Hok & Hcont). exists s'. split_and!; [done|done| |].
  - intros t i. specialize (Hcont t). unfold contains. revert Hcont.
    destruct (tuples s !! t), (tuples s' !! t); cbn; intros Hcont; try done. unfold content in Hcont. by injection Hcont as _ _ ->.
  - intros t1 t2 st1 st2 Hsat H1 H2 Hne Hlt. exact (restart_order s s' t1 t2 st1 st2 Hs Hsat Hr H1 H2 Hne Hlt).
Qed.

End Claims.

(** ** Sample states *)

Definition sample_tag (b : Z) : bytes := replicate 32 b.

Lemma sample_tag_digest b : is_byte b -> digest32 (sample_tag b).
Proof. intros Hb. split; [by apply Forall_replicate|done]. Qed.

Lemma default_replay_ok : replay_ok default_replay.
Proof. split; [done|]. apply map_Forall_empty. Qed.

Lemma sample_tag_1 : digest32 (sample_tag 1).
Proof. by apply sample_tag_digest. Qed.

Lemma sample_tag_9 : digest32 (sample_tag 9).
Proof. by apply sample_tag_digest. Qed.

(** Tag 2 is used before tag 1. *)
Definition two_senders : MsgReplayState :=
  record (record default_replay (sample_tag 2) (sample_tag 9) 7) (sample_tag 1) (sample_tag 9) 8.

Lemma one_sender_ok : replay_ok (record default_replay (sample_tag 2) (sample_tag 9) 7).
Proof. apply record_ok; [apply default_replay_ok|by apply sample_tag_digest..]. Qed.

Lemma two_senders_ok : replay_ok two_senders.
Proof. apply record_ok; [apply one_sender_ok|by apply sample_tag_digest..]. Qed.

Lemma replay_refused_witness :
  exists s, @restart toy_hex two_senders = Ok s /\
    contains (prune_to_context (record s (sample_tag 1) (sample_tag 9) 9) (sample_tag 9) 2) (sample_tag 1) 8 = true.
Proof.
  destruct (restart_spec (HX := toy_hex) two_senders two_senders_ok) as (s & Hr & _). exists s. split; [done|].
  refine (replay_refused (HX := toy_hex) (sample_tag 1) (sample_tag 9) 8 1 (record default_replay (sample_tag 2) (sample_tag 9) 7) _ one_sender_ok sample_tag_1 sample_tag_9 _ _ _);
    [vm_compute; reflexivity| |reflexivity].
  fold two_senders.
  refine (run_cons _ _ 0 1 _ s _ (step_restart _ _ _ _ Hr) _).
  refine (run_cons (sample_tag 1) (sample_tag 9) 1 0 _ _ _ (step_record (sample_tag 1) _ s (sample_tag 1) (sample_tag 9) 9 sample_tag_1 sample_tag_9 (fun _ => eq_refl)) _).
  refine (run_cons _ _ 0 0 _ _ _ (step_prune _ _ _ _ _) (run_nil _ _ _)).
  vm_compute in Hr. injection Hr as <-. vm_compute. discriminate.
Defined.

(** Before the restart the tuple of tag 2 is the older one, afterwards the newer
    one: pruning to one tuple now lets the more recent message be replayed. *)
Lemma restart_forgets_recency_witness :
  exists s', @restart toy_hex two_senders = Ok s' /\ contains s' (sample_tag 1) 8 = true /\
    contains (prune_to_context two_senders (sample_tag 9) 1) (sample_tag 1) 8 = true /\
    contains (prune_to_context s' (sample_tag 9) 1) (sample_tag 1) 8 = false.
Proof.
  destruct (restart_forgets_recency (HX := toy_hex) two_senders two_senders_ok) as (s' & Hr & _ & Hsame & _).
  exists s'. split; [exact Hr|]. split; [rewrite Hsame; vm_compute; reflexivity|].
  vm_compute in Hr. injection Hr as <-. split; vm_compute; reflexivity.
Defined.
