(* ===== verification/MsgCrypto.v ===== *)
(** * Encryption of messages

    Models the second half of [crates/cityg-client/src/message_crypto.rs]: key,
    nonce and associated data of a message, the tags of the replay state, and
    [encrypt_message_v2] and [decrypt_message_v2_with_index] with their size
    limits and the check that the envelope is deterministic CBOR.  The decoder of
    the envelope is the class [EnvelopeCodec]; ChaCha20-Poly1305 is the class
    [Aead], with the law for messages of any admissible length. *)

From S2P Require Import Prelude Hash BarrierCrypto.

Definition PAYLOAD_ENVELOPE_V2_MODE : string := "fs-hybrid-msg-v2".
Definition PAYLOAD_AEAD_TAG_LEN : Z := 16.
Definition MAX_CT_PAYLOAD_BYTES : Z := 1048576.
Definition MAX_PAYLOAD_ENVELOPE_BYTES : Z := 1048640.
Definition PAYLOAD_MSG_EPOCH_INFO : bytes := str_bytes "city-g|fs/msg/epoch|v2".
Definition PAYLOAD_MSG_KEY_INFO : bytes := str_bytes "city-g|fs/msg/key|v2".

#[global] Arguments MAX_CT_PAYLOAD_BYTES : simpl never.
#[global] Arguments MAX_PAYLOAD_ENVELOPE_BYTES : simpl never.

Record MessageCryptoContext := {
  mc_gid : bytes;
  mc_we_epoch_id : bytes;
  mc_xk_hash : bytes;
  mc_fs_ec : Z;
  mc_barrier_version : Z;
  mc_sender_leaf : bytes;
  mc_epoch_key : bytes;
  mc_k_barrier : bytes
}.

(** [PayloadEnvelopeV2]: mode, message index, ciphertext. *)
Record PayloadEnvelopeV2 := { env_mode : string; env_msg_index : Z; env_ct_payload : bytes }.

Definition envelope_value (e : PayloadEnvelopeV2) : Value :=
  VArray [VText (env_mode e); VInteger (env_msg_index e); VBytes (env_ct_payload e)].

(** [ciborium::de::from_reader] at [PayloadEnvelopeV2]. *)
Class EnvelopeCodec := { decode_envelope : bytes -> option PayloadEnvelopeV2 }.

(** Decoding inverts encoding; an encoding is not empty, and the three heads and
    the mode take at most 64 bytes. *)
Class EnvelopeCodecLaws (HS : Hashing) (EC : EnvelopeCodec) := {
  decode_envelope_value : forall e, is_u64 (env_msg_index e) -> decode_envelope (cbor (envelope_value e)) = Some e;
  envelope_nonempty : forall e, cbor (envelope_value e) <> [];
  envelope_overhead : forall i ct, is_u64 i -> len ct <= U32_MAX ->
    len (cbor (envelope_value {| env_mode := PAYLOAD_ENVELOPE_V2_MODE; env_msg_index := i; env_ct_payload := ct |})) <= len ct + 64
}.

(** A message is encrypted to a ciphertext longer by the tag of 16 bytes, and
    decrypts; what decrypts is a byte string. *)
Class MsgAeadLaws (A : Aead) := {
  msg_aead_roundtrip : forall key nonce aad msg, is_bytes msg -> len msg <= U32_MAX ->
    exists ct, aead_encrypt key nonce aad msg = Some ct /\ len ct = len msg + PAYLOAD_AEAD_TAG_LEN /\
      aead_decrypt key nonce aad ct = Some msg;
  msg_aead_bytes : forall key nonce aad ct msg, aead_decrypt key nonce aad ct = Some msg -> is_bytes msg
}.

Section Crypto.
  Context {HS : Hashing} {A : Aead} {EC : EnvelopeCodec}.

Definition epoch_salt_args (c : MessageCryptoContext) : Value :=
  VStruct [("we_epoch_id", VBytes (mc_we_epoch_id c)); ("fs_ec", VInteger (mc_fs_ec c)); ("xk_hash", VBytes (mc_xk_hash c));
           ("e_k", VBytes (mc_epoch_key c)); ("barrier_version", VInteger (mc_barrier_version c));
           ("sender_leaf", VBytes (mc_sender_leaf c)); ("k_barrier", VBytes (mc_k_barrier c))].

Definition key_salt_args (c : MessageCryptoContext) (msg_index : Z) : Value :=
  VStruct [("we_epoch_id", VBytes (mc_we_epoch_id c)); ("fs_ec", VInteger (mc_fs_ec c));
           ("sender_leaf", VBytes (mc_sender_leaf c)); ("msg_index", VInteger msg_index)].

(** The fields of [MsgReplayContextArgs], which the tuple and the nonce extend. *)
Definition context_fields (c : MessageCryptoContext) : list (string * Value) :=
  [("gid", VBytes (mc_gid c)); ("we_epoch_id", VBytes (mc_we_epoch_id c)); ("fs_ec", VInteger (mc_fs_ec c));
   ("xk_hash", VBytes (mc_xk_hash c)); ("e_k", VBytes (mc_epoch_key c)); ("barrier_version", VInteger (mc_barrier_version c))].

Definition tuple_fields (c : MessageCryptoContext) : list (string * Value) :=
  context_fields c ++ [("sender_leaf", VBytes (mc_sender_leaf c))].

Definition derive_msg_key_material (c : MessageCryptoContext) (msg_index : Z) : result string bytes :=
  epoch_salt ← h_l "fs/msg/epoch_salt" (epoch_salt_args c);
  let k_msg_epoch := hkdf_blake3 epoch_salt (mc_epoch_key c) PAYLOAD_MSG_EPOCH_INFO in
  key_salt ← h_l "fs/msg/key_salt" (key_salt_args c msg_index);
  Ok (hkdf_blake3 key_salt k_msg_epoch PAYLOAD_MSG_KEY_INFO).

Definition derive_msg_nonce (c : MessageCryptoContext) (msg_index : Z) : result string bytes :=
  nonce_bytes ← h_l "fs/msg/nonce" (VStruct (tuple_fields c ++ [("msg_index", VInteger msg_index)]));
  Ok (take 12 nonce_bytes).

Definition message_aad (c : MessageCryptoContext) (msg_index : Z) : bytes :=
  cbor (VArray [VBytes (mc_gid c); VBytes (mc_we_epoch_id c); VInteger (mc_fs_ec c); VBytes (mc_xk_hash c);
                VBytes (mc_epoch_key c); VInteger (mc_barrier_version c); VBytes (mc_sender_leaf c); VInteger msg_index]).

Definition derive_msg_replay_tuple_tag (c : MessageCryptoContext) : result string bytes :=
  h_l "fs/msg/replay/tuple" (VStruct (tuple_fields c)).

Definition derive_msg_replay_context_id (c : MessageCryptoContext) : result string bytes :=
  h_l "fs/msg/replay/context" (VStruct (context_fields c)).

Definition ct_length_ok (ct : bytes) : bool := negb (len ct =? 0) && (len ct <=? MAX_CT_PAYLOAD_BYTES).

Definition encrypt_message_v2 (plaintext : bytes) (c : MessageCryptoContext) (msg_index : Z) : result string bytes :=
  fail_if (MAX_CT_PAYLOAD_BYTES <? sat_add (len plaintext) PAYLOAD_AEAD_TAG_LEN) "payload plaintext would exceed MAX_CT_PAYLOAD_BYTES" ;;
  key ← derive_msg_key_material c msg_index;
  nonce ← derive_msg_nonce c msg_index;
  let aad := message_aad c msg_index in
  ct_payload ← ok_or (aead_encrypt key nonce aad plaintext) "encryption failed";
  fail_if (negb (ct_length_ok ct_payload)) "payload ciphertext length is out of bounds" ;;
  let encoded := cbor (envelope_value {| env_mode := PAYLOAD_ENVELOPE_V2_MODE; env_msg_index := msg_index; env_ct_payload := ct_payload |}) in
  fail_if (MAX_PAYLOAD_ENVELOPE_BYTES <? len encoded) "payload envelope exceeds MAX_PAYLOAD_ENVELOPE_BYTES" ;;
  Ok encoded.

Definition decrypt_message_v2_with_index (data : bytes) (c : MessageCryptoContext) : result string (Z * bytes) :=
  fail_if ((len data =? 0) || (MAX_PAYLOAD_ENVELOPE_BYTES <? len data)) "payload envelope length is out of bounds" ;;
  envelope ← ok_or (decode_envelope data) "decode payload envelope v2";
  let canonical_bytes := cbor (envelope_value envelope) in
  fail_if (negb (bytes_eqb canonical_bytes data)) "payload envelope v2 is not deterministic CBOR" ;;
  fail_if (negb (String.eqb (env_mode envelope) PAYLOAD_ENVELOPE_V2_MODE)) "unexpected payload envelope mode" ;;
  let msg_index := env_msg_index envelope in
  let ct_payload := env_ct_payload envelope in
  fail_if (negb (ct_length_ok ct_payload)) "payload ciphertext length is out of bounds" ;;
  key ← derive_msg_key_material c msg_index;
  nonce ← derive_msg_nonce c msg_index;
  let aad := message_aad c msg_index in
  plaintext ← ok_or (aead_decrypt key nonce aad ct_payload) "decryption failed";
  Ok (msg_index, plaintext).

Definition decrypt_message_v2 (data : bytes) (c : MessageCryptoContext) : result string bytes :=
  r ← decrypt_message_v2_with_index data c; Ok r.2.

(** *** Derivations always succeed *)

Definition msg_key (c : MessageCryptoContext) (i : Z) : bytes :=
  hkdf_blake3 (digest_of ("fs/msg/key_salt", key_salt_args c i))
    (hkdf_blake3 (digest_of ("fs/msg/epoch_salt", epoch_salt_args c)) (mc_epoch_key c) PAYLOAD_MSG_EPOCH_INFO) PAYLOAD_MSG_KEY_INFO.

Definition msg_nonce (c : MessageCryptoContext) (i : Z) : bytes :=
  take 12 (digest_of ("fs/msg/nonce", VStruct (tuple_fields c ++ [("msg_index", VInteger i)]))).

Definition tuple_tag (c : MessageCryptoContext) : bytes := digest_of ("fs/msg/replay/tuple", VStruct (tuple_fields c)).
Definition context_tag (c : MessageCryptoContext) : bytes := digest_of ("fs/msg/replay/context", VStruct (context_fields c)).

Lemma derive_msg_key_material_ok c i : derive_msg_key_material c i = Ok (msg_key c i).
Proof. unfold derive_msg_key_material. by rewrite !h_l_ok by done. Qed.

Lemma derive_msg_nonce_ok c i : derive_msg_nonce c i = Ok (msg_nonce c i).
Proof. unfold derive_msg_nonce. by rewrite h_l_ok by done. Qed.

Lemma derive_msg_replay_tuple_tag_ok c : derive_msg_replay_tuple_tag c = Ok (tuple_tag c).
Proof. unfold derive_msg_replay_tuple_tag. by rewrite h_l_ok by done. Qed.

Lemma derive_msg_replay_context_id_ok c : derive_msg_replay_context_id c = Ok (context_tag c).
Proof. unfold derive_msg_replay_context_id. by rewrite h_l_ok by done. Qed.

(** *** What decrypts *)

Lemma decrypt_inv data c i p :
  decrypt_message_v2_with_index data c = Ok (i, p) ->
  exists ct, data = cbor (envelope_value {| env_mode := PAYLOAD_ENVELOPE_V2_MODE; env_msg_index := i; env_ct_payload := ct |}) /\
    1 <= len ct <= MAX_CT_PAYLOAD_BYTES /\ len data <= MAX_PAYLOAD_ENVELOPE_BYTES /\
    aead_decrypt (msg_key c i) (msg_nonce c i) (message_aad c i) ct = Some p.
Proof.
  unfold decrypt_message_v2_with_index. intros H.
  ok_step H as u0 E0. ok_step H as e E1. ok_step H as u1 E2. ok_step H as u2 E3. ok_step H as u3 E4.
  rewrite derive_msg_key_material_ok, bind_Ok, derive_msg_nonce_ok, bind_Ok in H. ok_step H as p' E5. injection H as <- <-.
  destruct (_ || _) eqn:L in E0; [done|]. destruct (negb _) eqn:C in E2; [done|]. destruct (negb _) eqn:M in E3; [done|].
  destruct (negb _) eqn:T in E4; [done|]. unfold ct_length_ok in T. bool_prop.
  destruct (aead_decrypt _ _ _ _) as [q|] eqn:D in E5; [|done]. injection E5 as <-.
  destruct e as [m i ct]. cbn [env_mode env_msg_index env_ct_payload] in *. apply String.eqb_eq in M. subst m.
  exists ct. split_and!; [|pose proof (len_nonneg ct); lia|lia|lia|exact D]. by symmetry.
Qed.

Context {EL : EnvelopeCodecLaws HS EC} {AL : MsgAeadLaws A}.

(** Every plaintext within the limit is encrypted, and decrypts. *)
Lemma encrypt_ok p c i :
  is_bytes p -> len p + PAYLOAD_AEAD_TAG_LEN <= MAX_CT_PAYLOAD_BYTES -> is_u64 i ->
  exists e, encrypt_message_v2 p c i = Ok e /\ len e <= MAX_PAYLOAD_ENVELOPE_BYTES /\ decrypt_message_v2_with_index e c = Ok (i, p).
Proof using EL AL.
  unfold MAX_CT_PAYLOAD_BYTES, PAYLOAD_AEAD_TAG_LEN. intros Hb Hp Hi. pose proof (len_nonneg p) as Hp0.
  destruct (msg_aead_roundtrip (msg_key c i) (msg_nonce c i) (message_aad c i) p Hb) as (ct & He & Hl & Hd); [unfold U32_MAX; lia|].
  unfold PAYLOAD_AEAD_TAG_LEN in Hl. set (e := {| env_mode := PAYLOAD_ENVELOPE_V2_MODE; env_msg_index := i; env_ct_payload := ct |}).
  assert (len (cbor (envelope_value e)) <= MAX_PAYLOAD_ENVELOPE_BYTES) as Hlen.
  { etransitivity; [apply envelope_overhead; [done|unfold U32_MAX; lia]|]. unfold MAX_PAYLOAD_ENVELOPE_BYTES. lia. }
  assert (ct_length_ok ct = true) as Hct.
  { unfold ct_length_ok, MAX_CT_PAYLOAD_BYTES. apply andb_true_iff. split; [apply negb_true_iff, Z.eqb_neq; lia|apply Z.leb_le; lia]. }
  assert (len (cbor (envelope_value e)) =? 0 = false) as Hne.
  { apply Z.eqb_neq. pose proof (envelope_nonempty e). destruct (cbor _); [done|]. unfold len. cbn [length]. lia. }
  exists (cbor (envelope_value e)). split_and!; [|done|].
  - unfold encrypt_message_v2. rewrite (proj2 (Z.ltb_ge _ _)) by (unfold sat_add, MAX_CT_PAYLOAD_BYTES, PAYLOAD_AEAD_TAG_LEN; lia). rstep.
    rewrite derive_msg_key_material_ok, bind_Ok, derive_msg_nonce_ok, bind_Ok, He. rstep. rewrite Hct. cbn [negb]. rstep.
    fold e. rewrite (proj2 (Z.ltb_ge _ _)) by lia. by rstep.
  - unfold decrypt_message_v2_with_index. rewrite Hne, (proj2 (Z.ltb_ge _ _)) by lia. cbn [orb]. rstep.
    rewrite decode_envelope_value by done. rstep. rewrite bytes_eqb_refl. cbn [negb]. rstep.
    change (env_msg_index e) with i. change (env_ct_payload e) with ct.
    rewrite Hct. cbn [negb]. rstep. rewrite derive_msg_key_material_ok, bind_Ok, derive_msg_nonce_ok, bind_Ok, Hd. by rstep.
Qed.

(** C29: encryption and decryption fit together.  A plaintext of at most 1048560
    bytes is encrypted to an envelope within the limit, which decrypts in the same
    context to the index and the plaintext; a longer one is refused.  Nothing but
    the deterministic encoding of an envelope decrypts, so no two byte strings
    carry the same index and ciphertext. *)
Theorem message_roundtrip (p : bytes) (c : MessageCryptoContext) (i : Z) :
  is_bytes p -> is_u64 i ->
  (if len p + PAYLOAD_AEAD_TAG_LEN <=? MAX_CT_PAYLOAD_BYTES
   then exists e, encrypt_message_v2 p c i = Ok e /\ len e <= MAX_PAYLOAD_ENVELOPE_BYTES /\ decrypt_message_v2_with_index e c = Ok (i, p)
   else exists msg, encrypt_message_v2 p c i = Err msg) /\
  forall data j q, decrypt_message_v2_with_index data c = Ok (j, q) ->
    exists ct, data = cbor (envelope_value {| env_mode := PAYLOAD_ENVELOPE_V2_MODE; env_msg_index := j; env_ct_payload := ct |}) /\
      1 <= len ct <= MAX_CT_PAYLOAD_BYTES /\ len data <= MAX_PAYLOAD_ENVELOPE_BYTES /\
      aead_decrypt (msg_key c j) (msg_nonce c j) (message_aad c j) ct = Some q.
Proof using EL AL.
  intros Hb Hi. split; [|intros data j q; apply decrypt_inv]. destruct (_ <=? _) eqn:E; bool_prop; [by apply encrypt_ok|].
  eexists. unfold encrypt_message_v2. rewrite (proj2 (Z.ltb_lt _ _)); [done|].
  unfold sat_add, MAX_CT_PAYLOAD_BYTES, U64_MAX in *. lia.
Qed.

End Crypto.

#[global] Arguments msg_key {HS} c i : simpl never.
#[global] Arguments msg_nonce {HS} c i : simpl never.
#[global] Arguments tuple_tag {HS} c : simpl never.
#[global] Arguments context_tag {HS} c : simpl never.
#[global] Arguments encrypt_message_v2 {HS A} plaintext c msg_index : simpl never.
#[global] Arguments decrypt_message_v2_with_index {HS A EC} data c : simpl never.

(** ** What the tags and the associated data pin down *)

(** Two contexts that differ in the barrier key only. *)
Definition same_but_barrier_key (c d : MessageCryptoContext) : Prop :=
  mc_gid c = mc_gid d /\ mc_we_epoch_id c = mc_we_epoch_id d /\ mc_fs_ec c = mc_fs_ec d /\ mc_xk_hash c = mc_xk_hash d /\
  mc_epoch_key c = mc_epoch_key d /\ mc_barrier_version c = mc_barrier_version d /\ mc_sender_leaf c = mc_sender_leaf d.

Definition tuple_inputs (c d : MessageCryptoContext) : list (string * Value) :=
  [("fs/msg/replay/tuple", VStruct (tuple_fields c)); ("fs/msg/replay/tuple", VStruct (tuple_fields d))].

Section Binding.
  Context {HS : Hashing} {HL : HashingLaws HS}.

Lemma tuple_tag_inj c d : tuple_tag c = tuple_tag d -> same_but_barrier_key c d \/ hl_collision (listed (tuple_inputs c d)).
Proof using HL.
  intros H. pose proof (derive_msg_replay_tuple_tag_ok c) as Hc. pose proof (derive_msg_replay_tuple_tag_ok d) as Hd. rewrite <- H in Hd.
  destruct (h_l_inj (listed (tuple_inputs c d)) _ _ _ _ _ Hc Hd) as [[_ E]|E]; [by left|by right; left| |by right].
  left. unfold VStruct in E. cbn [tuple_fields context_fields app fmap list_fmap] in E. by injection E.
Qed.

Lemma message_aad_inj c d i j : message_aad c i = message_aad d j -> same_but_barrier_key c d /\ i = j.
Proof using HL. intros H%cbor_inj. injection H as H1 H2 H3 H4 H5 H6 H7 H8. by split. Qed.

End Binding.

(** ** A concrete instance *)

Definition envelope_of_value (v : Value) : option PayloadEnvelopeV2 :=
  match v with
  | VArray [VText m; VInteger i; VBytes ct] => Some {| env_mode := m; env_msg_index := i; env_ct_payload := ct |}
  | _ => None
  end.

Definition toy_envelope_codec : EnvelopeCodec := {|
  decode_envelope b := match b with [Zpos p] => v ← decode p; envelope_of_value v | _ => None end
|}.

Instance toy_envelope_laws : EnvelopeCodecLaws toy_hashing toy_envelope_codec.
Proof.
  split.
  - intros [m i ct] _. cbn [decode_envelope toy_envelope_codec cbor toy_hashing]. unfold toy_cbor. by rewrite decode_encode.
  - done.
  - intros i ct _ _. pose proof (len_nonneg ct). change (len (cbor _)) with 1. lia.
Qed.

Definition all_bytes (l : bytes) : bool := forallb (fun b => (0 <=? b) && (b <? 256)) l.

Lemma all_bytes_spec l : all_bytes l = true <-> is_bytes l.
Proof.
  unfold all_bytes, is_bytes. rewrite forallb_forall, Forall_forall. unfold is_byte.
  split; intros H x Hx; specialize (H x); rewrite list_elem_of_In in *; specialize (H Hx); bool_prop; [lia|].
  apply andb_true_iff. split; [apply Z.leb_le|apply Z.ltb_lt]; lia.
Qed.

(** [toy_aead] on byte strings. *)
Definition toy_msg_aead : Aead := {|
  aead_encrypt key nonce aad msg := if all_bytes msg then @aead_encrypt toy_aead key nonce aad msg else None;
  aead_decrypt key nonce aad ct := m ← @aead_decrypt toy_aead key nonce aad ct; if all_bytes m then Some m else None
|}.

Instance toy_msg_aead_laws : MsgAeadLaws toy_msg_aead.
Proof.
  split.
  - intros key nonce aad msg Hb _. apply all_bytes_spec in Hb. cbn [aead_encrypt aead_decrypt toy_msg_aead]. rewrite Hb.
    eexists. split; [done|]. set (tag := take 16 (toy_digest 7 (key ++ nonce ++ aad ++ msg))).
    assert (length tag = 16%nat) as Ht.
    { unfold tag. rewrite length_take. unfold toy_digest. rewrite length_be_bytes. lia. }
    split; [rewrite len_app; unfold len, PAYLOAD_AEAD_TAG_LEN; rewrite Ht; lia|].
    cbn [aead_decrypt toy_aead]. rewrite length_app, Ht. replace (length msg + 16 - 16)%nat with (length msg) by lia.
    rewrite take_app_length, drop_app_length. fold tag. unfold bytes_eqb. rewrite bool_decide_true by done. cbn [mbind option_bind]. by rewrite Hb.
  - intros key nonce aad ct msg. cbn [aead_decrypt toy_msg_aead]. destruct (@aead_decrypt toy_aead _ _ _ _) as [m|]; [|done].
    cbn [mbind option_bind]. destruct (all_bytes m) eqn:E; [|done]. intros [= <-]. by apply all_bytes_spec.
Qed.

Definition toy_context : MessageCryptoContext :=
  {| mc_gid := replicate 32 1; mc_we_epoch_id := replicate 32 2; mc_xk_hash := replicate 32 3; mc_fs_ec := 4; mc_barrier_version := 5;
     mc_sender_leaf := replicate 32 6; mc_epoch_key := replicate 32 7; mc_k_barrier := replicate 32 8 |}.

Lemma message_roundtrip_witness :
  exists e, encrypt_message_v2 (HS := toy_hashing) (A := toy_msg_aead) [1; 2; 3] toy_context 9 = Ok e /\
    decrypt_message_v2_with_index (HS := toy_hashing) (A := toy_msg_aead) (EC := toy_envelope_codec) e toy_context = Ok (9, [1; 2; 3]).
Proof.
  assert (is_u64 9) as H9 by (split; discriminate).
  assert (is_bytes [1; 2; 3]) as Hb by (by apply all_bytes_spec).
  destruct (message_roundtrip (HS := toy_hashing) (A := toy_msg_aead) (EC := toy_envelope_codec) [1; 2; 3] toy_context 9 Hb H9) as [(e & He & _ & Hd) _].
  exists e. split; [exact He|exact Hd].
Defined.
