(* ===== verification/MsgAuth.v ===== *)
(** * Authenticated messages

    Models [crates/cityg-client/src/message_auth.rs]: the byte format of a signed
    message, its parser with the slice accesses that may panic, the signature
    over leaf, time and text, the binding of a leaf to a public key, and the
    signed identity of a member.  [pqcrypto_dilithium::dilithium5] is the class
    [Dilithium].  A panic is an outcome of its own, [Panics]: callers that handle
    errors do not handle it. *)

From S2P Require Import Prelude Hash AnchorSeed BarrierCrypto.

Inductive Fault := Panics | Fails (msg : string).

(** The result of code that returns its errors. *)
Definition no_panic {A} (r : result string A) : result Fault A := map_err Fails r.

Definition MESSAGE_PREFIX : bytes := str_bytes "CGM1".
Definition MESSAGE_SENDER_DEVICE_PK_ALG : string := "ML-DSA-65".

Record AuthenticatedMessage := {
  am_timestamp_ms : Z;
  am_plaintext : bytes;
  am_public_key : bytes;
  am_signature : bytes
}.

Record SignedIdentityBinding := { sib_alias : bytes; sib_pop_public_key : bytes; sib_signature : bytes }.

(** ** Slices *)

(** [&data[lo..hi]] *)
Definition slice (data : bytes) (lo hi : Z) : result Fault bytes :=
  if (lo <=? hi) && (hi <=? len data) then Ok (take (Z.to_nat (hi - lo)) (drop (Z.to_nat lo) data)) else Err Panics.

Lemma slice_at a r n :
  0 <= n -> slice (a ++ r) (len a) (len a + n) = if n <=? len r then Ok (take (Z.to_nat n) r) else Err Panics.
Proof.
  intros Hn. unfold slice. rewrite len_app, (proj2 (Z.leb_le (len a) (len a + n))) by lia. cbn [andb].
  replace (len a + n <=? len a + len r) with (n <=? len r) by (apply eq_true_iff_eq; rewrite !Z.leb_le; lia).
  case_if; [|done]. replace (len a + n - len a) with n by lia. unfold len. by rewrite Nat2Z.id, drop_app_length.
Qed.

Lemma slice_mid a b c : slice (a ++ b ++ c) (len a) (len a + len b) = Ok b.
Proof.
  rewrite slice_at by apply len_nonneg. rewrite len_app, (proj2 (Z.leb_le _ _)) by (pose proof (len_nonneg c); lia).
  unfold len. by rewrite Nat2Z.id, take_app_length.
Qed.

(** A slice that is taken splits what follows it. *)
Lemma slice_split a r n b : 0 <= n -> slice (a ++ r) (len a) (len a + n) = Ok b -> exists r', r = b ++ r' /\ len b = n.
Proof.
  intros Hn. rewrite slice_at by done. destruct (n <=? len r) eqn:E; [|done]. bool_prop. intros [= <-]. exists (drop (Z.to_nat n) r).
  split; [by rewrite take_drop|]. unfold len in *. rewrite length_take. lia.
Qed.

(** One step of a parser at the cursor [lo]. *)
Lemma slice_step data a r lo hi b :
  slice data lo hi = Ok b -> data = a ++ r -> lo = len a -> lo <= hi ->
  exists r', r = b ++ r' /\ data = (a ++ b) ++ r' /\ len b = hi - lo /\ len (a ++ b) = hi.
Proof.
  intros H -> -> Hle. replace hi with (len a + (hi - len a)) in H by lia.
  apply slice_split in H as (r' & -> & Hl); [|lia]. exists r'. rewrite <- app_assoc, len_app. split_and!; [done..|lia].
Qed.

(** ** The format *)

Definition encode_authenticated_message (timestamp_ms : Z) (plaintext public_key signature : bytes) : bytes :=
  MESSAGE_PREFIX ++ le_bytes 8 timestamp_ms ++ le_bytes 4 (len plaintext) ++ plaintext ++
  le_bytes 4 (len public_key) ++ public_key ++ le_bytes 4 (len signature) ++ signature.

Definition read_u32 (data : bytes) (cursor : Z) : result Fault Z :=
  buf ← slice data cursor (cursor + 4); Ok (le_value buf).

Definition decode_authenticated_message (data : bytes) : result Fault AuthenticatedMessage :=
  fail_if (len data <? 24) (Fails "authenticated message too short") ;;
  prefix ← slice data 0 4;
  fail_if (negb (bytes_eqb prefix MESSAGE_PREFIX)) (Fails "invalid message prefix") ;;
  ts ← slice data 4 12;
  let timestamp_ms := le_value ts in
  plaintext_len ← read_u32 data 12;
  let cursor := 16 in
  fail_if (len data <? cursor + plaintext_len) (Fails "authenticated message truncated (plaintext)") ;;
  plaintext ← slice data cursor (cursor + plaintext_len);
  let cursor := cursor + plaintext_len in
  public_key_len ← read_u32 data cursor;
  let cursor := cursor + 4 in
  fail_if (len data <? cursor + public_key_len) (Fails "authenticated message truncated (public key)") ;;
  public_key ← slice data cursor (cursor + public_key_len);
  let cursor := cursor + public_key_len in
  signature_len ← read_u32 data cursor;
  let cursor := cursor + 4 in
  fail_if (negb (len data =? cursor + signature_len)) (Fails "authenticated message truncated (signature)") ;;
  signature ← slice data cursor (len data);
  Ok {| am_timestamp_ms := timestamp_ms; am_plaintext := plaintext; am_public_key := public_key; am_signature := signature |}.

(** ** Signatures *)

(** [..._from_bytes] is whether the constructor of that type accepts the bytes. *)
Class Dilithium := {
  public_key_bytes : Z;
  signature_bytes : Z;
  pk_from_bytes : bytes -> bool;
  sk_from_bytes : bytes -> bool;
  sig_from_bytes : bytes -> bool;
  detached_sign : forall (sk payload coins : bytes), bytes;
  verify_detached_signature : forall (signature payload pk : bytes), bool
}.

(** A secret key whose signatures verify under [pk]. *)
Definition sig_pair {D : Dilithium} (sk pk : bytes) : Prop :=
  sk_from_bytes sk = true /\ pk_from_bytes pk = true /\ len pk = public_key_bytes /\
  forall payload coins, let s := detached_sign sk payload coins in
    sig_from_bytes s = true /\ len s = signature_bytes /\ verify_detached_signature s payload pk = true.

Class DilithiumLaws (D : Dilithium) := {
  public_key_bytes_range : 0 <= public_key_bytes <= U32_MAX;
  signature_bytes_range : 0 <= signature_bytes <= U32_MAX;
  sign_is_bytes : forall sk payload coins, is_bytes (detached_sign sk payload coins)
}.

Section Auth.
  Context {HS : Hashing} {D : Dilithium}.

Definition authenticated_message_min_bytes : Z := len MESSAGE_PREFIX + 8 + 4 + 4 + public_key_bytes + 4 + signature_bytes.

Definition message_payload (leaf_id : bytes) (timestamp_ms : Z) (plaintext : bytes) : bytes :=
  leaf_id ++ le_bytes 8 timestamp_ms ++ plaintext.

Definition sign_message (leaf_id : bytes) (timestamp_ms : Z) (plaintext secret_key coins : bytes) : result string bytes :=
  fail_if (negb (sk_from_bytes secret_key)) "invalid ML-DSA-65 secret key" ;;
  Ok (detached_sign secret_key (message_payload leaf_id timestamp_ms plaintext) coins).

Definition detached_sign_payload (payload secret_key coins : bytes) : result string bytes :=
  fail_if (negb (sk_from_bytes secret_key)) "invalid ML-DSA-65 secret key" ;;
  Ok (detached_sign secret_key payload coins).

Definition build_authenticated_message (leaf_id : bytes) (timestamp_ms : Z) (plaintext public_key secret_key coins : bytes)
  : result string bytes :=
  signature ← sign_message leaf_id timestamp_ms plaintext secret_key coins;
  Ok (encode_authenticated_message timestamp_ms plaintext public_key signature).

Definition verify_message_signature (leaf_id : bytes) (timestamp_ms : Z) (plaintext signature_b public_key_b : bytes) : result string unit :=
  fail_if (negb (pk_from_bytes public_key_b)) "invalid ML-DSA-65 public key" ;;
  fail_if (negb (sig_from_bytes signature_b)) "invalid ML-DSA-65 signature" ;;
  fail_if (negb (verify_detached_signature signature_b (message_payload leaf_id timestamp_ms plaintext) public_key_b))
    "signature verification failed".

Definition verify_sender_leaf_binding (gid sender_leaf public_key_b : bytes) : result string unit :=
  derived_leaf ← compute_leaf_id PerGroup gid MESSAGE_SENDER_DEVICE_PK_ALG public_key_b;
  fail_if (negb (bytes_eqb derived_leaf sender_leaf)) "sender leaf does not match authenticated sender public key".

Definition decode_verified_authenticated_message (gid sender_leaf data : bytes) : result Fault AuthenticatedMessage :=
  fail_if (len data <? authenticated_message_min_bytes) (Fails "authenticated message too short") ;;
  envelope ← decode_authenticated_message data;
  fail_if (negb (len (am_public_key envelope) =? public_key_bytes)) (Fails "unexpected public key length") ;;
  fail_if (negb (len (am_signature envelope) =? signature_bytes)) (Fails "unexpected signature length") ;;
  no_panic (verify_sender_leaf_binding gid sender_leaf (am_public_key envelope)) ;;
  no_panic (verify_message_signature sender_leaf (am_timestamp_ms envelope) (am_plaintext envelope) (am_signature envelope) (am_public_key envelope)) ;;
  Ok envelope.

Definition identity_message (alias pop_public_key : bytes) : bytes := cbor (VArray [VBytes alias; VBytes pop_public_key]).

Definition sign_identity_binding (alias pop_public_key pop_secret_key coins : bytes) : result string bytes :=
  fail_if (negb (sk_from_bytes pop_secret_key)) "invalid persisted room identity secret key" ;;
  Ok (detached_sign pop_secret_key (identity_message alias pop_public_key) coins).

Definition build_signed_identity_binding (alias pop_public_key pop_secret_key coins : bytes) : result string SignedIdentityBinding :=
  signature ← sign_identity_binding alias pop_public_key pop_secret_key coins;
  Ok {| sib_alias := alias; sib_pop_public_key := pop_public_key; sib_signature := signature |}.

(** The earlier encryption, a random nonce in front of the ciphertext. *)
Definition encrypt_message {A : Aead} (plaintext key nonce : bytes) : result string bytes :=
  ciphertext ← ok_or (aead_encrypt key nonce [] plaintext) "encryption failed";
  Ok (nonce ++ ciphertext).

Definition decrypt_message {A : Aead} (data key : bytes) : result string bytes :=
  fail_if (len data <? 12) "ciphertext too short (need at least 12-byte nonce)" ;;
  ok_or (aead_decrypt key (take 12 data) [] (drop 12 data)) "decryption failed".

End Auth.

(** ** The parser *)

Lemma read_u32_step data a r lo n :
  is_bytes data -> read_u32 data lo = Ok n -> data = a ++ r -> lo = len a ->
  exists r', r = le_bytes 4 n ++ r' /\ data = (a ++ le_bytes 4 n) ++ r' /\ 0 <= n <= U32_MAX /\ len (a ++ le_bytes 4 n) = lo + 4.
Proof.
  unfold read_u32. intros Hd H Hdata Hlo. ok_step H as buf E. injection H as <-.
  destruct (slice_step _ _ _ _ _ _ E Hdata Hlo) as (r' & -> & Hd' & Hl & Hla); [lia|].
  rewrite Hd' in Hd. apply is_bytes_app in Hd as [Hd _]. apply is_bytes_app in Hd as [_ Hb].
  destruct (u32_field buf Hb) as [-> Hr]; [lia|]. by exists r'.
Qed.

(** What parses is the encoding of what was read. *)
Lemma decode_canonical data m :
  is_bytes data -> decode_authenticated_message data = Ok m ->
  data = encode_authenticated_message (am_timestamp_ms m) (am_plaintext m) (am_public_key m) (am_signature m) /\
  is_u64 (am_timestamp_ms m) /\ len (am_plaintext m) <= U32_MAX /\ len (am_public_key m) <= U32_MAX /\ len (am_signature m) <= U32_MAX.
Proof.
  intros Hb H. unfold decode_authenticated_message in H. ok_step H as u0 E0. ok_step H as pre E1. ok_step H as u1 E2.
  destruct (slice_step _ [] data _ _ _ E1 eq_refl eq_refl) as (r1 & _ & D1 & _ & L1); [lia|].
  destruct (negb _) eqn:Hpre in E2; [done|]. apply negb_false_iff, bool_decide_eq_true in Hpre. subst pre.
  ok_step H as ts E3. destruct (slice_step _ _ _ _ _ _ E3 D1) as (r2 & _ & D2 & Lts & L2); [by rewrite L1|lia|].
  ok_step H as pl E4. destruct (read_u32_step _ _ _ _ _ Hb E4 D2) as (r3 & _ & D3 & Hpl & L3); [by rewrite L2|].
  ok_step H as u2 E5. ok_step H as p E6. destruct (slice_step _ _ _ _ _ _ E6 D3) as (r4 & _ & D4 & Lp & L4); [by rewrite L3|lia|].
  ok_step H as kl E7. destruct (read_u32_step _ _ _ _ _ Hb E7 D4) as (r5 & _ & D5 & Hkl & L5); [by rewrite L4|].
  ok_step H as u3 E8. ok_step H as pk E9. destruct (slice_step _ _ _ _ _ _ E9 D5) as (r6 & _ & D6 & Lk & L6); [by rewrite L5|lia|].
  ok_step H as sl E10. destruct (read_u32_step _ _ _ _ _ Hb E10 D6) as (r7 & _ & D7 & Hsl & L7); [by rewrite L6|].
  ok_step H as u4 E11. destruct (negb _) eqn:Hlen in E11; [done|]. bool_prop.
  ok_step H as sg E12. destruct (slice_step _ _ _ _ _ _ E12 D7) as (r8 & _ & D8 & Ls & L8); [by rewrite L7|lia|].
  injection H as <-. cbn [am_timestamp_ms am_plaintext am_public_key am_signature].
  assert (r8 = []) as ->.
  { rewrite D8, len_app, L8 in Ls at 1. assert (len data = len (((((((([] ++ MESSAGE_PREFIX) ++ ts) ++ le_bytes 4 pl) ++ p) ++ le_bytes 4 kl) ++ pk) ++ le_bytes 4 sl) ++ sg) + len r8) as Hd by (rewrite D8 at 1; by rewrite len_app).
    rewrite L8 in Hd. destruct r8; [done|]. unfold len in *. cbn [length] in *. lia. }
  assert (is_bytes ts) as Hts by (rewrite D2 in Hb; by apply is_bytes_app in Hb as [[_ ?]%is_bytes_app _]).
  pose proof (le_value_range ts Hts) as Hr. split_and!; [|split; [lia|]|lia..].
  - rewrite D8 at 1. rewrite app_nil_r. unfold encode_authenticated_message.
    replace (len p) with pl by lia. replace (len pk) with kl by lia. replace (len sg) with sl by lia.
    replace (le_bytes 8 (le_value ts)) with ts by (symmetry; replace 8%nat with (length ts) by (unfold len in Lts; lia); by apply le_bytes_value).
    by rewrite !app_nil_l, <- !app_assoc.
  - rewrite Lts in Hr. change (256 ^ (12 - 4)) with (U64_MAX + 1) in Hr. lia.
Qed.

(** Forward steps. *)
Lemma slice_is data a b c lo hi : data = a ++ b ++ c -> lo = len a -> hi = lo + len b -> slice data lo hi = Ok b.
Proof. intros -> -> ->. apply slice_mid. Qed.

Lemma read_u32_is data a n c lo :
  data = a ++ le_bytes 4 n ++ c -> lo = len a -> 0 <= n <= U32_MAX -> read_u32 data lo = Ok n.
Proof.
  intros Hd Hlo Hn. unfold read_u32. rewrite (slice_is data a (le_bytes 4 n) c) by (done || by rewrite len_to_le).
  rewrite bind_Ok, le_value_bytes by (unfold U32_MAX in Hn; cbn; lia). done.
Qed.

Lemma slice_short data lo hi : len data < hi -> slice data lo hi = Err Panics.
Proof. intros H. unfold slice. by rewrite (proj2 (Z.leb_gt hi (len data))), andb_false_r by lia. Qed.

Lemma slice_panics data lo hi : slice data lo hi = Err Panics -> lo <= hi -> len data < hi.
Proof. unfold slice. intros H Hle. destruct (_ && _) eqn:E; [done|]. apply andb_false_iff in E as [E|E]; bool_prop; lia. Qed.

(** The part every message starts with. *)
Definition message_head (ts p : bytes) : bytes := MESSAGE_PREFIX ++ ts ++ le_bytes 4 (len p) ++ p.

(** What is parsed after the text. *)
Definition decode_tail (data : bytes) (timestamp_ms : Z) (plaintext : bytes) (cursor : Z) : result Fault AuthenticatedMessage :=
  public_key_len ← read_u32 data cursor;
  let cursor := cursor + 4 in
  fail_if (len data <? cursor + public_key_len) (Fails "authenticated message truncated (public key)") ;;
  public_key ← slice data cursor (cursor + public_key_len);
  let cursor := cursor + public_key_len in
  signature_len ← read_u32 data cursor;
  let cursor := cursor + 4 in
  fail_if (negb (len data =? cursor + signature_len)) (Fails "authenticated message truncated (signature)") ;;
  signature ← slice data cursor (len data);
  Ok {| am_timestamp_ms := timestamp_ms; am_plaintext := plaintext; am_public_key := public_key; am_signature := signature |}.

Lemma len_message_head ts p : len ts = 8 -> len (message_head ts p) = 16 + len p.
Proof. intros H. unfold message_head. rewrite !len_app, len_to_le, H. change (len MESSAGE_PREFIX) with 4. lia. Qed.

Lemma decode_head ts p tail :
  len ts = 8 -> len p <= U32_MAX -> 24 <= len (message_head ts p ++ tail) ->
  decode_authenticated_message (message_head ts p ++ tail) =
  decode_tail (message_head ts p ++ tail) (le_value ts) p (16 + len p).
Proof.
  intros Hts Hp Hlen. pose proof (len_nonneg p). pose proof (len_nonneg tail). set (data := message_head ts p ++ tail) in *.
  assert (len data = 16 + len p + len tail) as Hd by (unfold data; rewrite len_app, len_message_head by done; lia).
  assert (data = MESSAGE_PREFIX ++ ts ++ le_bytes 4 (len p) ++ p ++ tail) as Hdata by (unfold data, message_head; by rewrite <- !app_assoc).
  unfold decode_authenticated_message. rewrite (proj2 (Z.ltb_ge _ _)) by lia. rstep.
  rewrite (slice_is data [] MESSAGE_PREFIX (ts ++ le_bytes 4 (len p) ++ p ++ tail) 0 4) by (exact Hdata || done). rstep.
  rewrite (slice_is data MESSAGE_PREFIX ts (le_bytes 4 (len p) ++ p ++ tail) 4 12) by (exact Hdata || (rewrite ?Hts; done)). rstep.
  rewrite (read_u32_is data (MESSAGE_PREFIX ++ ts) (len p) (p ++ tail)); [|by rewrite Hdata, <- !app_assoc|rewrite len_app, Hts; done|lia]. rstep.
  rewrite (proj2 (Z.ltb_ge _ _)) by lia. rstep.
  rewrite (slice_is data (MESSAGE_PREFIX ++ ts ++ le_bytes 4 (len p)) p tail 16 (16 + len p)); [|by rewrite Hdata, <- !app_assoc| |done].
  - by rstep.
  - rewrite !len_app, Hts, len_to_le. done.
Qed.

Lemma decode_encode ts p pk sg :
  is_u64 ts -> len p <= U32_MAX -> len pk <= U32_MAX -> len sg <= U32_MAX ->
  decode_authenticated_message (encode_authenticated_message ts p pk sg) =
  Ok {| am_timestamp_ms := ts; am_plaintext := p; am_public_key := pk; am_signature := sg |}.
Proof.
  intros Hts Hp Hk Hs. pose proof (len_nonneg p). pose proof (len_nonneg pk). pose proof (len_nonneg sg).
  set (tail := le_bytes 4 (len pk) ++ pk ++ le_bytes 4 (len sg) ++ sg).
  assert (encode_authenticated_message ts p pk sg = message_head (le_bytes 8 ts) p ++ tail) as ->.
  { unfold encode_authenticated_message, message_head, tail. by rewrite <- !app_assoc. }
  assert (len (le_bytes 8 ts) = 8) as H8 by apply len_to_le. pose proof (len_message_head (le_bytes 8 ts) p H8) as Hh.
  assert (len tail = 8 + len pk + len sg) as Ht by (unfold tail; rewrite !len_app, !len_to_le; lia).
  rewrite decode_head by (done || rewrite len_app; lia). rewrite le_value_bytes by (destruct Hts; unfold U64_MAX in *; cbn; lia).
  unfold decode_tail. set (data := message_head _ _ ++ tail).
  assert (len data = 24 + len p + len pk + len sg) as Hd by (unfold data; rewrite len_app; lia).
  rewrite (read_u32_is data (message_head (le_bytes 8 ts) p) (len pk) (pk ++ le_bytes 4 (len sg) ++ sg)) by (done || lia). rstep.
  rewrite (proj2 (Z.ltb_ge _ _)) by lia. rstep.
  rewrite (slice_is data (message_head (le_bytes 8 ts) p ++ le_bytes 4 (len pk)) pk (le_bytes 4 (len sg) ++ sg) (16 + len p + 4) (16 + len p + 4 + len pk));
    [|unfold data, tail; by rewrite <- !app_assoc|rewrite len_app, len_to_le; lia|lia]. rstep.
  rewrite (read_u32_is data (message_head (le_bytes 8 ts) p ++ le_bytes 4 (len pk) ++ pk) (len sg) sg);
    [|unfold data, tail; by rewrite <- !app_assoc|rewrite !len_app, len_to_le; lia|lia]. rstep.
  rewrite (proj2 (Z.eqb_eq _ _)) by lia. cbn [negb]. rstep.
  rewrite (slice_is data (message_head (le_bytes 8 ts) p ++ le_bytes 4 (len pk) ++ pk ++ le_bytes 4 (len sg)) sg []); [by rstep|..].
  - unfold data, tail. by rewrite app_nil_r, <- !app_assoc.
  - rewrite !len_app, !len_to_le. lia.
  - lia.
Qed.

(** ** Where the parser panics *)

(** The message ends within the length of the public key or of the signature. *)
Definition cut_in_length (data : bytes) : Prop :=
  exists ts p tail, len ts = 8 /\ len p <= U32_MAX /\ data = message_head ts p ++ tail /\
    (len tail < 4 \/ exists pk t, tail = le_bytes 4 (len pk) ++ pk ++ t /\ len pk <= U32_MAX /\ len t < 4).

(** One bind of a computation that panics: it panics here, or later. *)
Lemma bind_panics {A B} (m : result Fault A) (f : A -> result Fault B) :
  m ≫= f = Err Panics -> m = Err Panics \/ exists a, m = Ok a /\ f a = Err Panics.
Proof. destruct m as [a|e]; [right; by exists a|]. cbn. intros [= ->]. by left. Qed.

Lemma fail_if_panics {B} b msg (f : unit -> result Fault B) :
  fail_if b (Fails msg) ≫= f = Err Panics -> b = false /\ f tt = Err Panics.
Proof. destruct b; cbn; [done|by split]. Qed.

Lemma read_u32_panics data lo : read_u32 data lo = Err Panics -> len data < lo + 4.
Proof. unfold read_u32. intros [H|(a & _ & H)]%bind_panics; [|done]. apply slice_panics in H; lia. Qed.

Lemma read_u32_short data lo : len data < lo + 4 -> read_u32 data lo = Err Panics.
Proof. intros H. unfold read_u32. by rewrite slice_short by lia. Qed.

Lemma decode_tail_cut ts p tail t v :
  len ts = 8 -> len p <= U32_MAX ->
  (len tail < 4 \/ exists pk t, tail = le_bytes 4 (len pk) ++ pk ++ t /\ len pk <= U32_MAX /\ len t < 4) ->
  decode_tail (message_head ts p ++ tail) t v (16 + len p) = Err Panics.
Proof.
  intros Hts Hp Hcut. pose proof (len_message_head ts p Hts) as Hh. unfold decode_tail. destruct Hcut as [Ht|(pk & u & -> & Hk & Hu)].
  - by rewrite read_u32_short by (rewrite len_app; lia).
  - pose proof (len_nonneg pk). set (data := _ ++ _).
    assert (len data = 20 + len p + len pk + len u) as Hd by (unfold data; rewrite !len_app, len_to_le, Hh; lia). pose proof (len_nonneg u).
    rewrite (read_u32_is data (message_head ts p) (len pk) (pk ++ u)) by (done || lia). rstep.
    rewrite (proj2 (Z.ltb_ge _ _)) by lia. rstep.
    rewrite (slice_is data (message_head ts p ++ le_bytes 4 (len pk)) pk u (16 + len p + 4) (16 + len p + 4 + len pk));
      [|unfold data; by rewrite <- !app_assoc|rewrite len_app, len_to_le; lia|lia]. rstep.
    by rewrite read_u32_short by lia.
Qed.

Lemma decode_tail_panics ts p tail t v :
  is_bytes (message_head ts p ++ tail) -> len ts = 8 ->
  decode_tail (message_head ts p ++ tail) t v (16 + len p) = Err Panics ->
  len tail < 4 \/ exists pk t, tail = le_bytes 4 (len pk) ++ pk ++ t /\ len pk <= U32_MAX /\ len t < 4.
Proof.
  intros Hb Hts H. pose proof (len_message_head ts p Hts) as Hh. set (data := message_head ts p ++ tail) in *.
  assert (len data = 16 + len p + len tail) as Hd by (unfold data; rewrite len_app; lia). unfold decode_tail in H.
  apply bind_panics in H as [H%read_u32_panics|(kl & Hkl & H)]; [left; lia|right].
  destruct (read_u32_step data (message_head ts p) tail _ _ Hb Hkl eq_refl) as (r & -> & D & Hr & L); [lia|].
  apply fail_if_panics in H as [Hlen H]. apply Z.ltb_ge in Hlen.
  apply bind_panics in H as [H|(pk & Hpk & H)]; [apply slice_panics in H; lia|].
  destruct (slice_step data _ _ _ _ _ Hpk D) as (u & -> & D' & Hl & L'); [lia|lia|].
  exists pk, u. replace (len pk) with kl by lia. split_and!; [done|lia|].
  apply bind_panics in H as [H%read_u32_panics|(sl & Hsl & H)]; [rewrite D', len_app in H; lia|].
  apply fail_if_panics in H as [Hlen' H]. apply negb_false_iff, Z.eqb_eq in Hlen'.
  destruct (read_u32_step data _ _ _ _ Hb Hsl D') as (w & -> & D2 & Hs & L2); [lia|].
  apply bind_panics in H as [H|(sg & _ & H)]; [apply slice_panics in H; lia|done].
Qed.

Lemma decode_panics_iff data :
  is_bytes data -> decode_authenticated_message data = Err Panics <-> 24 <= len data /\ cut_in_length data.
Proof.
  intros Hb. split.
  - intros H. pose proof H as H0. unfold decode_authenticated_message in H. apply fail_if_panics in H as [Hlen H]. apply Z.ltb_ge in Hlen.
    apply bind_panics in H as [H|(pre & Hpre & H)]; [apply slice_panics in H; lia|].
    destruct (slice_step data [] data _ _ _ Hpre eq_refl eq_refl) as (r1 & _ & D1 & _ & L1); [lia|].
    apply fail_if_panics in H as [Hm H]. apply negb_false_iff, bool_decide_eq_true in Hm. subst pre.
    apply bind_panics in H as [H|(ts & Hts & H)]; [apply slice_panics in H; lia|].
    destruct (slice_step data _ _ _ _ _ Hts D1) as (r2 & _ & D2 & Lts & L2); [by rewrite L1|lia|].
    apply bind_panics in H as [H%read_u32_panics|(pl & Hpl & H)]; [lia|].
    destruct (read_u32_step data _ _ _ _ Hb Hpl D2) as (r3 & _ & D3 & Hr & L3); [by rewrite L2|].
    apply fail_if_panics in H as [Hl H]. apply Z.ltb_ge in Hl.
    apply bind_panics in H as [H|(p & Hp & _)]; [apply slice_panics in H; lia|].
    destruct (slice_step data _ _ _ _ _ Hp D3) as (tail & _ & D4 & Lp & L4); [by rewrite L3|lia|].
    assert (data = message_head ts p ++ tail) as ->.
    { rewrite D4. unfold message_head. replace (len p) with pl by lia. by rewrite app_nil_l, <- !app_assoc. }
    split; [done|]. exists ts, p, tail. split_and!; [lia|lia|done|].
    rewrite decode_head in H0 by lia. eapply decode_tail_panics; [exact Hb|lia|exact H0].
  - intros [Hlen (ts & p & tail & Hts & Hp & -> & Hcut)]. rewrite decode_head by done. by apply decode_tail_cut.
Qed.

Section Verified.
  Context {HS : Hashing} {D : Dilithium} {DL : DilithiumLaws D}.

(** What [compute_leaf_id] gives the sender of a message. *)
Definition sender_leaf_of (gid pk : bytes) : bytes := digest_of ("leaf-id", VArray [VBytes gid; VText MESSAGE_SENDER_DEVICE_PK_ALG; VBytes pk]).

Lemma compute_leaf_id_ok gid pk : compute_leaf_id PerGroup gid MESSAGE_SENDER_DEVICE_PK_ALG pk = Ok (sender_leaf_of gid pk).
Proof. unfold compute_leaf_id. by rewrite h_l_ok by done. Qed.

Lemma min_bytes_24 : 24 <= authenticated_message_min_bytes.
Proof using DL.
  pose proof (@public_key_bytes_range D DL). pose proof (@signature_bytes_range D DL). unfold authenticated_message_min_bytes.
  change (len MESSAGE_PREFIX) with 4. lia.
Qed.

Record verified_message (gid leaf data : bytes) (m : AuthenticatedMessage) : Prop := {
  vm_data : data = encode_authenticated_message (am_timestamp_ms m) (am_plaintext m) (am_public_key m) (am_signature m);
  vm_time : is_u64 (am_timestamp_ms m);
  vm_text : len (am_plaintext m) <= U32_MAX;
  vm_key : len (am_public_key m) = public_key_bytes;
  vm_signature : len (am_signature m) = signature_bytes;
  vm_leaf : leaf = sender_leaf_of gid (am_public_key m);
  vm_pk_ok : pk_from_bytes (am_public_key m) = true;
  vm_sig_ok : sig_from_bytes (am_signature m) = true;
  vm_verifies : verify_detached_signature (am_signature m)
    (message_payload leaf (am_timestamp_ms m) (am_plaintext m)) (am_public_key m) = true
}.

Lemma no_panic_unit (r : result string unit) : no_panic r = Ok tt <-> r = Ok tt.
Proof. destruct r as [[]|]; cbn; by split. Qed.

Lemma verify_sender_leaf_binding_ok gid leaf pk : verify_sender_leaf_binding gid leaf pk = Ok tt <-> leaf = sender_leaf_of gid pk.
Proof.
  unfold verify_sender_leaf_binding. rewrite compute_leaf_id_ok, bind_Ok. unfold bytes_eqb. case_bool_decide; cbn; split; congruence.
Qed.

Lemma verify_message_signature_ok leaf ts p sg pk :
  verify_message_signature leaf ts p sg pk = Ok tt <->
  pk_from_bytes pk = true /\ sig_from_bytes sg = true /\ verify_detached_signature sg (message_payload leaf ts p) pk = true.
Proof.
  unfold verify_message_signature. destruct (pk_from_bytes pk), (sig_from_bytes sg), (verify_detached_signature _ _ _); cbn; intuition congruence.
Qed.

Lemma decode_verified_sound gid leaf data m :
  is_bytes data -> decode_verified_authenticated_message gid leaf data = Ok m -> verified_message gid leaf data m.
Proof.
  intros Hb H. unfold decode_verified_authenticated_message in H. ok_step H as u0 E0. ok_step H as m' E1.
  destruct (decode_canonical data m' Hb E1) as (Hd & Ht & Hp & _ & _).
  ok_step H as u1 E2. ok_step H as u2 E3. ok_step H as [] E4. ok_step H as [] E5. injection H as <-.
  destruct (negb _) eqn:Hk in E2; [done|]. destruct (negb _) eqn:Hs in E3; [done|]. bool_prop.
  apply no_panic_unit, verify_sender_leaf_binding_ok in E4. apply no_panic_unit, verify_message_signature_ok in E5 as (? & ? & ?). by split.
Qed.

Lemma decode_verified_complete gid leaf data m :
  verified_message gid leaf data m -> decode_verified_authenticated_message gid leaf data = Ok m.
Proof using DL.
  intros [Hd Ht Hp Hk Hs Hl Hpk Hsg Hv]. pose proof (@public_key_bytes_range D DL). pose proof (@signature_bytes_range D DL).
  pose proof (len_nonneg (am_plaintext m)).
  assert (len data = 24 + len (am_plaintext m) + public_key_bytes + signature_bytes) as Hlen.
  { rewrite Hd. unfold encode_authenticated_message. rewrite !len_app, !len_to_le. change (len MESSAGE_PREFIX) with 4. lia. }
  unfold decode_verified_authenticated_message, authenticated_message_min_bytes. change (len MESSAGE_PREFIX) with 4.
  rewrite (proj2 (Z.ltb_ge _ _)) by lia. rstep. rewrite Hd at 1. rewrite decode_encode by (done || lia). rstep.
  cbn [am_public_key am_signature am_timestamp_ms am_plaintext].
  rewrite Hk, Hs, !Z.eqb_refl. cbn [negb]. rstep. rewrite (proj2 (verify_sender_leaf_binding_ok _ _ _) Hl). cbn [no_panic map_err]. rstep.
  rewrite (proj2 (verify_message_signature_ok _ _ _ _ _)) by done. cbn [no_panic map_err]. rstep. by destruct m.
Qed.

Lemma encode_bytes ts p pk sg : is_bytes p -> is_bytes pk -> is_bytes sg -> is_bytes (encode_authenticated_message ts p pk sg).
Proof.
  intros Hp Hk Hs. unfold encode_authenticated_message. repeat (apply is_bytes_app; split); try done; try apply le_bytes_bytes.
  repeat constructor; unfold is_byte; cbn; lia.
Qed.

(** A message built with the key of the leaf is verified. *)
Lemma build_verified gid ts p pk sk coins :
  is_u64 ts -> len p <= U32_MAX -> sig_pair sk pk ->
  exists sg, build_authenticated_message (sender_leaf_of gid pk) ts p pk sk coins = Ok (encode_authenticated_message ts p pk sg) /\
    is_bytes sg /\ len sg = signature_bytes /\
    verified_message gid (sender_leaf_of gid pk) (encode_authenticated_message ts p pk sg)
      {| am_timestamp_ms := ts; am_plaintext := p; am_public_key := pk; am_signature := sg |}.
Proof using DL.
  intros Ht Hp (Hsk & Hpk & Hl & Hs). set (leaf := sender_leaf_of gid pk).
  exists (detached_sign sk (message_payload leaf ts p) coins). destruct (Hs (message_payload leaf ts p) coins) as (H1 & H2 & H3).
  split_and!; [|apply sign_is_bytes|done|by split].
  unfold build_authenticated_message, sign_message. by rewrite Hsk.
Qed.

(** C20: what a receiver verifies.  A byte string is verified as a message of a leaf
    exactly when it is the encoding of a message whose public key and signature
    have the two fixed lengths, whose public key is the one the leaf was derived
    from in this group, and whose signature verifies over leaf, time and text; the
    parser reads those fields back.  What [build_authenticated_message] makes
    with the key of the leaf is always verified. *)
Theorem verified_iff_signed (gid leaf data : bytes) (m : AuthenticatedMessage) :
  is_bytes data ->
  (decode_verified_authenticated_message gid leaf data = Ok m <-> verified_message gid leaf data m) /\
  forall ts p pk sk coins, is_u64 ts -> len p <= U32_MAX -> sig_pair sk pk -> leaf = sender_leaf_of gid pk ->
    exists built sg, build_authenticated_message leaf ts p pk sk coins = Ok built /\
      decode_verified_authenticated_message gid leaf built =
        Ok {| am_timestamp_ms := ts; am_plaintext := p; am_public_key := pk; am_signature := sg |}.
Proof using DL.
  intros Hb. split; [split; [by apply decode_verified_sound|by apply decode_verified_complete]|].
  intros ts p pk sk coins Ht Hp Hsk ->. destruct (build_verified gid ts p pk sk coins Ht Hp Hsk) as (sg & Hbuild & _ & _ & Hv).
  exists (encode_authenticated_message ts p pk sg), sg. split; [done|by apply decode_verified_complete].
Qed.

(** The message of [n] bytes whose text runs to the end. *)
Definition cut_message (n : Z) : bytes := message_head (replicate 8 0) (replicate (Z.to_nat (n - 16)) 0).

Lemma cut_message_cut n : 16 <= n <= U32_MAX -> is_bytes (cut_message n) /\ len (cut_message n) = n /\ cut_in_length (cut_message n).
Proof.
  intros Hn. assert (len (replicate (Z.to_nat (n - 16)) 0) = n - 16) as Hl by (unfold len; rewrite length_replicate; lia).
  assert (is_byte 0) as H0 by (unfold is_byte; lia). split_and!.
  - unfold cut_message, message_head. repeat (apply is_bytes_app; split); try (by apply Forall_replicate); try apply le_bytes_bytes.
    repeat constructor; unfold is_byte; cbn; lia.
  - unfold cut_message. rewrite len_message_head by done. lia.
  - exists (replicate 8 0), (replicate (Z.to_nat (n - 16)) 0), []. split_and!; [done|lia|by rewrite app_nil_r|by left].
Qed.

Lemma verified_panics_iff gid leaf data :
  is_bytes data ->
  decode_verified_authenticated_message gid leaf data = Err Panics <->
  authenticated_message_min_bytes <= len data /\ cut_in_length data.
Proof using DL.
  intros Hb. pose proof min_bytes_24 as H24. unfold decode_verified_authenticated_message. split.
  - intros [Hl H]%fail_if_panics. apply Z.ltb_ge in Hl. apply bind_panics in H as [H|(m & _ & H)]; [by apply decode_panics_iff in H as [_ ?]|].
    exfalso. apply fail_if_panics in H as [_ H]. apply fail_if_panics in H as [_ H].
    apply bind_panics in H as [H|(? & _ & H)]; [by destruct (verify_sender_leaf_binding _ _ _)|].
    apply bind_panics in H as [H|(? & _ & H)]; [by destruct (verify_message_signature _ _ _ _ _)|done].
  - intros [Hl Hc]. rewrite (proj2 (Z.ltb_ge _ _)) by lia. rstep. by rewrite (proj2 (decode_panics_iff data Hb)) by (split; [lia|done]).
Qed.

(** The parser of a decrypted message panics instead of returning an error,
    exactly when the message is long enough for the first check but ends within
    the length field of the public key or of the signature; and such messages
    exist in every admissible length, without any signature or key. *)
Theorem decode_verified_panics (gid leaf : bytes) :
  (forall data, is_bytes data ->
     decode_verified_authenticated_message gid leaf data = Err Panics <->
     authenticated_message_min_bytes <= len data /\ cut_in_length data) /\
  forall n, authenticated_message_min_bytes <= n <= U32_MAX ->
    len (cut_message n) = n /\ decode_verified_authenticated_message gid leaf (cut_message n) = Err Panics.
Proof using DL.
  split; [intros data; apply verified_panics_iff|]. intros n Hn. pose proof min_bytes_24.
  destruct (cut_message_cut n) as (Hb & Hl & Hc); [lia|]. split; [done|]. apply verified_panics_iff; [done|]. rewrite Hl. by split; [apply Hn|].
Qed.

End Verified.

#[global] Arguments cut_message n : simpl never.
#[global] Arguments sender_leaf_of {HS} gid pk : simpl never.
#[global] Arguments decode_verified_authenticated_message {HS D} gid sender_leaf data : simpl never.

(** ** A concrete instance *)

(** Keys of two bytes, the public one with the seal; a signature is the digest of
    key and payload. *)
Definition toy_dilithium : Dilithium := {|
  public_key_bytes := 2;
  signature_bytes := 32;
  pk_from_bytes pk := len pk =? 2;
  sk_from_bytes sk := len sk =? 2;
  sig_from_bytes s := len s <=? 32;
  detached_sign sk payload coins := map (fun b => b mod 256) (toy_digest 11 (sk ++ payload));
  verify_detached_signature s payload pk := bytes_eqb s (map (fun b => b mod 256) (toy_digest 11 (pk ++ payload)))
|}.

Instance toy_dilithium_laws : DilithiumLaws toy_dilithium.
Proof.
  split; [done|done|]. intros sk payload coins. apply Forall_map, Forall_true. intros b. apply Z.mod_pos_bound. lia.
Qed.

Lemma toy_pair k : len k = 2 -> sig_pair (D := toy_dilithium) k k.
Proof.
  intros Hk. unfold sig_pair. cbn [sk_from_bytes pk_from_bytes public_key_bytes signature_bytes toy_dilithium]. rewrite Hk.
  split_and!; [done..|]. intros payload coins. cbn [detached_sign sig_from_bytes verify_detached_signature signature_bytes toy_dilithium].
  unfold len. rewrite length_map. unfold toy_digest. rewrite length_be_bytes. split_and!; [done..|apply bytes_eqb_refl].
Qed.

Lemma verified_iff_signed_witness :
  exists built sg, build_authenticated_message (D := toy_dilithium) (sender_leaf_of (HS := toy_hashing) [1] [5; 6]) 77 [104; 105] [5; 6] [5; 6] [] = Ok built /\
    decode_verified_authenticated_message (HS := toy_hashing) (D := toy_dilithium) [1] (sender_leaf_of (HS := toy_hashing) [1] [5; 6]) built =
      Ok {| am_timestamp_ms := 77; am_plaintext := [104; 105]; am_public_key := [5; 6]; am_signature := sg |}.
Proof.
  assert (is_u64 77) as H77 by (split; discriminate). assert (len (A := Z) [104; 105] <= U32_MAX) as Hl by discriminate.
  exact (proj2 (verified_iff_signed (HS := toy_hashing) (D := toy_dilithium) [1] (sender_leaf_of (HS := toy_hashing) [1] [5; 6]) []
    {| am_timestamp_ms := 0; am_plaintext := []; am_public_key := []; am_signature := [] |} (List.Forall_nil _))
    77 [104; 105] [5; 6] [5; 6] [] H77 Hl (toy_pair [5; 6] eq_refl) eq_refl).
Defined.
