(* ===== verification/Messages.v ===== *)
(** * Sending and receiving messages

    Models [perform_send_inner] and [perform_fetch_inner] of
    [crates/cityg-gui/src/native/network_messages.rs] and the parameters they
    take from a session ([params.rs]): the composition of the replay state, the
    encryption and the authentication of messages.  The two calls of the API client are what
    the server is given and what it returns; the clock and the randomness of the
    signature are arguments. *)

From S2P Require Import Prelude Hash BarrierCrypto Slots AnchorSeed MsgReplay MsgCrypto MsgAuth.

(** ** [String::from_utf8_lossy] *)

Definition in_range (lo hi b : Z) : bool := (lo <=? b) && (b <=? hi).
Definition utf8_cont (b : Z) : bool := in_range 128 191 b.

(** The admissible second bytes of sequences of three and of four bytes. *)
Definition utf8_second3 (b c : Z) : bool :=
  if b =? 224 then in_range 160 191 c else if b =? 237 then in_range 128 159 c else utf8_cont c.
Definition utf8_second4 (b c : Z) : bool :=
  if b =? 240 then in_range 144 191 c else if b =? 244 then in_range 128 143 c else utf8_cont c.

(** U+FFFD *)
Definition REPLACEMENT : bytes := [239; 191; 189].

Fixpoint from_utf8_lossy (l : bytes) : bytes :=
  match l with
  | [] => []
  | b :: l1 =>
      if b <? 128 then b :: from_utf8_lossy l1
      else if in_range 194 223 b then
        match l1 with
        | c :: l2 => if utf8_cont c then b :: c :: from_utf8_lossy l2 else REPLACEMENT ++ from_utf8_lossy l1
        | [] => REPLACEMENT
        end
      else if in_range 224 239 b then
        match l1 with
        | c :: l2 =>
            if utf8_second3 b c then
              match l2 with
              | d :: l3 => if utf8_cont d then b :: c :: d :: from_utf8_lossy l3 else REPLACEMENT ++ from_utf8_lossy l2
              | [] => REPLACEMENT
              end
            else REPLACEMENT ++ from_utf8_lossy l1
        | [] => REPLACEMENT
        end
      else if in_range 240 244 b then
        match l1 with
        | c :: l2 =>
            if utf8_second4 b c then
              match l2 with
              | d :: l3 =>
                  if utf8_cont d then
                    match l3 with
                    | e :: l4 => if utf8_cont e then b :: c :: d :: e :: from_utf8_lossy l4 else REPLACEMENT ++ from_utf8_lossy l3
                    | [] => REPLACEMENT
                    end
                  else REPLACEMENT ++ from_utf8_lossy l2
              | [] => REPLACEMENT
              end
            else REPLACEMENT ++ from_utf8_lossy l1
        | [] => REPLACEMENT
        end
      else REPLACEMENT ++ from_utf8_lossy l1
  end.

(** What a [String] holds. *)
Inductive utf8 : bytes -> Prop :=
  | utf8_nil : utf8 []
  | utf8_1 b l : 0 <= b < 128 -> utf8 l -> utf8 (b :: l)
  | utf8_2 b c l : in_range 194 223 b = true -> utf8_cont c = true -> utf8 l -> utf8 (b :: c :: l)
  | utf8_3 b c d l : in_range 224 239 b = true -> utf8_second3 b c = true -> utf8_cont d = true -> utf8 l -> utf8 (b :: c :: d :: l)
  | utf8_4 b c d e l : in_range 240 244 b = true -> utf8_second4 b c = true -> utf8_cont d = true -> utf8_cont e = true ->
      utf8 l -> utf8 (b :: c :: d :: e :: l).

Lemma in_range_spec lo hi b : in_range lo hi b = true <-> lo <= b <= hi.
Proof. unfold in_range. rewrite andb_true_iff, !Z.leb_le. done. Qed.

(** What was a [String] is read back unchanged. *)
Lemma from_utf8_lossy_valid l : utf8 l -> from_utf8_lossy l = l.
Proof.
  assert (forall lo hi b, b < lo -> in_range lo hi b = false) as Hlow.
  { intros lo hi b H. apply not_true_iff_false. rewrite in_range_spec. lia. }
  assert (forall lo hi b, hi < b -> in_range lo hi b = false) as Hhigh.
  { intros lo hi b H. apply not_true_iff_false. rewrite in_range_spec. lia. }
  induction 1 as [|b l Hb _ IH|b c l Hb Hc _ IH|b c d l Hb Hc Hd _ IH|b c d e l Hb Hc Hd He _ IH]; [done|..];
    cbn [from_utf8_lossy].
  - by rewrite (proj2 (Z.ltb_lt _ _)), IH by lia.
  - pose proof (proj1 (in_range_spec _ _ _) Hb). by rewrite (proj2 (Z.ltb_ge _ _)), Hb, Hc, IH by lia.
  - pose proof (proj1 (in_range_spec _ _ _) Hb). by rewrite (proj2 (Z.ltb_ge _ _)), (Hhigh 194 223), Hb, Hc, Hd, IH by lia.
  - pose proof (proj1 (in_range_spec _ _ _) Hb).
    by rewrite (proj2 (Z.ltb_ge _ _)), (Hhigh 194 223), (Hhigh 224 239), Hb, Hc, Hd, He, IH by lia.
Qed.

(** ** Entries and parameters *)

Inductive MessageDelivery := Pending | Sent | DeliveryFailed.

Record ChatMessageEntry := {
  ce_sender_leaf : option bytes;
  ce_fallback_label : string;
  ce_plaintext : bytes;
  ce_ciphertext_hex : string;
  ce_timestamp_ms : Z;
  ce_delivery : MessageDelivery;
  ce_pending_id : option Z
}.

(** What sender and receiver share: the context without the sender. *)
Record EpochParams := {
  ep_gid : bytes;
  ep_we_epoch_id : bytes;
  ep_xk_hash : bytes;
  ep_epoch_key : bytes;
  ep_fs_ec : Z;
  ep_barrier_version : Z;
  ep_k_barrier : bytes
}.

Record SendParams := {
  sp_epoch : EpochParams;
  sp_msg_index : Z;
  sp_leaf_id : bytes;
  sp_alias : string;
  sp_plaintext : bytes;
  sp_pop_secret_key : bytes;
  sp_pop_public_key : bytes
}.

Record FetchParams := {
  fp_epoch : EpochParams;
  fp_n_max : Z;
  fp_msg_replay_state : MsgReplayState;
  fp_leaf_id : bytes;
  fp_since : option Z
}.

(** A message as the server returns it. *)
Record ServerMessage := { sm_ciphertext : bytes; sm_sender : bytes; sm_timestamp_ms : Z }.

Record FetchOutcome := {
  fo_messages : list ChatMessageEntry;
  fo_last_timestamp_ms : option Z;
  fo_msg_replay_state : MsgReplayState
}.

Definition crypto_context (e : EpochParams) (sender_leaf : bytes) : MessageCryptoContext :=
  {| mc_gid := ep_gid e; mc_we_epoch_id := ep_we_epoch_id e; mc_xk_hash := ep_xk_hash e; mc_fs_ec := ep_fs_ec e;
     mc_barrier_version := ep_barrier_version e; mc_sender_leaf := sender_leaf; mc_epoch_key := ep_epoch_key e;
     mc_k_barrier := ep_k_barrier e |}.

(** The mark behind the name of a verified sender, U+2713. *)
Definition VERIFIED_MARK : string :=
  String (Ascii.ascii_of_nat 226) (String (Ascii.ascii_of_nat 156) (String (Ascii.ascii_of_nat 147) EmptyString)).

(** The variables of the loop over the messages. *)
Record FetchLoop := { fl_messages : list ChatMessageEntry; fl_max_timestamp : Z; fl_replay : MsgReplayState }.

Definition with_replay (st : FetchLoop) (r : MsgReplayState) : FetchLoop :=
  {| fl_messages := fl_messages st; fl_max_timestamp := fl_max_timestamp st; fl_replay := r |}.

Section Network.
  Context {HS : Hashing} {A : Aead} {EC : EnvelopeCodec} {D : Dilithium} {HX : HexCodec}.

(** What is posted to the server: the ciphertext and its sender, and the entry. *)
Definition perform_send (params : SendParams) (timestamp_ms : Z) (coins : bytes) : result string (bytes * ChatMessageEntry) :=
  authenticated_msg ← build_authenticated_message (sp_leaf_id params) timestamp_ms (sp_plaintext params)
    (sp_pop_public_key params) (sp_pop_secret_key params) coins;
  ciphertext ← encrypt_message_v2 authenticated_msg (crypto_context (sp_epoch params) (sp_leaf_id params)) (sp_msg_index params);
  Ok (ciphertext,
      {| ce_sender_leaf := Some (sp_leaf_id params); ce_fallback_label := sp_alias params; ce_plaintext := sp_plaintext params;
         ce_ciphertext_hex := hex_encode ciphertext; ce_timestamp_ms := timestamp_ms; ce_delivery := Sent; ce_pending_id := None |}).

(** The entry of a message whose sender is verified. *)
Definition received_entry (leaf_id : bytes) (m : AuthenticatedMessage) (message : ServerMessage) : ChatMessageEntry :=
  {| ce_sender_leaf := Some leaf_id; ce_fallback_label := (hex_encode (take 4 leaf_id) ++ VERIFIED_MARK)%string;
     ce_plaintext := from_utf8_lossy (am_plaintext m); ce_ciphertext_hex := hex_encode (sm_ciphertext message);
     ce_timestamp_ms := sm_timestamp_ms message; ce_delivery := Sent; ce_pending_id := None |}.

Definition already_fetched (since : option Z) (message : ServerMessage) : bool :=
  match since with Some threshold => sm_timestamp_ms message <=? threshold | None => false end.

(** One turn of the loop. *)
Definition fetch_message (params : FetchParams) (replay_context_id : bytes) (st : FetchLoop) (message : ServerMessage) : result Fault FetchLoop :=
  if already_fetched (fp_since params) message then Ok st
  else if negb (len (sm_sender message) =? 32) then Ok st
  else
    let leaf_id := sm_sender message in
    let replay_context := crypto_context (fp_epoch params) leaf_id in
    replay_tuple_tag ← no_panic (derive_msg_replay_tuple_tag replay_context);
    let replay := ensure_tuple (fl_replay st) replay_tuple_tag replay_context_id in
    match decrypt_message_v2_with_index (sm_ciphertext message) replay_context with
    | Err _ => Ok (with_replay st replay)
    | Ok (msg_index, authenticated_msg) =>
        if contains replay replay_tuple_tag msg_index then Ok (with_replay st replay)
        else
          match decode_verified_authenticated_message (ep_gid (fp_epoch params)) leaf_id authenticated_msg with
          | Err Panics => Err Panics
          | Err (Fails _) => Ok (with_replay st replay)
          | Ok envelope =>
              Ok {| fl_messages := fl_messages st ++ [received_entry leaf_id envelope message];
                    fl_max_timestamp := Z.max (fl_max_timestamp st) (sm_timestamp_ms message);
                    fl_replay := record replay replay_tuple_tag replay_context_id msg_index |}
          end
    end.

Definition perform_fetch (params : FetchParams) (response : list ServerMessage) : result Fault FetchOutcome :=
  replay_context_id ← no_panic (derive_msg_replay_context_id (crypto_context (fp_epoch params) (fp_leaf_id params)));
  let replay := prune_to_context (fp_msg_replay_state params) replay_context_id (fp_n_max params) in
  st ← fold_res (fetch_message params replay_context_id)
    {| fl_messages := []; fl_max_timestamp := default 0 (fp_since params); fl_replay := replay |} response;
  Ok {| fo_messages := fl_messages st;
        fo_last_timestamp_ms := if bool_decide (fl_messages st = []) then fp_since params else Some (fl_max_timestamp st);
        fo_msg_replay_state := fl_replay st |}.

End Network.

#[global] Arguments fetch_message {HS A EC D HX} params replay_context_id st message : simpl never.

(** ** The replay state of one context *)

(** Every tuple is of the context, and has room for [k] more indices. *)
Definition roomy (ctx : bytes) (k : Z) (s : MsgReplayState) : Prop :=
  replay_ok s /\ map_Forall (fun _ st => in_context ctx st = true /\ len (seen_msg_indices st) + k <= MAX_MSGS_PER_REPLAY_TUPLE) (tuples s).

Lemma roomy_mono ctx k l s : l <= k -> roomy ctx k s -> roomy ctx l s.
Proof. intros Hl [Hs Hm]. split; [done|]. intros t st Ht. destruct (Hm t st Ht). split; [done|lia]. Qed.

(** In its own context a tuple is never reset. *)
Lemma bind_context_kept ctx k s tag :
  roomy ctx k s ->
  seen_msg_indices (bind_context s tag ctx) = match tuples s !! tag with Some st => seen_msg_indices st | None => [] end /\
  seen_msg_index_set (bind_context s tag ctx) = match tuples s !! tag with Some st => seen_msg_index_set st | None => ∅ end.
Proof.
  intros [_ Hm]. unfold bind_context. cbv zeta. destruct (tuples s !! tag) as [st|] eqn:E.
  - change (default default_tuple (Some st)) with st. destruct (Hm _ _ E) as [Hc _]. unfold in_context in Hc.
    destruct (bytes_eqb (context_id st) zero32); [done|]. cbn [orb] in Hc. by rewrite Hc.
  - change (default default_tuple None) with default_tuple. cbn [context_id default_tuple]. by rewrite bytes_eqb_refl.
Qed.

Lemma contains_bind ctx k s tag i : roomy ctx k s -> contains s tag i = bool_decide (i ∈ seen_msg_index_set (bind_context s tag ctx)).
Proof.
  intros H. destruct (bind_context_kept ctx k s tag H) as [_ ->]. unfold contains. destruct (tuples s !! tag); [done|].
  by rewrite bool_decide_eq_false_2 by apply not_elem_of_empty.
Qed.

Lemma contains_with_tuple s tag st n t i :
  contains (with_tuple s tag st n) t i = if decide (t = tag) then bool_decide (i ∈ seen_msg_index_set st) else contains s t i.
Proof.
  unfold contains, with_tuple. cbn [tuples]. case_decide as Ht; [subst t; by rewrite lookup_insert_eq|by rewrite lookup_insert_ne].
Qed.

Lemma in_context_self ctx st : context_id st = ctx -> in_context ctx st = true.
Proof. intros <-. unfold in_context. rewrite bytes_eqb_refl. apply orb_true_r. Qed.

Lemma with_tuple_roomy ctx k s tag st n :
  roomy ctx k s -> replay_ok (with_tuple s tag st n) -> context_id st = ctx -> len (seen_msg_indices st) + k <= MAX_MSGS_PER_REPLAY_TUPLE ->
  roomy ctx k (with_tuple s tag st n).
Proof.
  intros [_ Hm] Hok Hc Hl. split; [done|]. intros t st' H. cbn in H. apply lookup_insert_Some in H as [[<- <-]|[_ H]]; [|exact (Hm _ _ H)].
  split; [by apply in_context_self|done].
Qed.

Lemma bind_context_room ctx k s tag : 0 <= k <= MAX_MSGS_PER_REPLAY_TUPLE -> roomy ctx k s -> len (seen_msg_indices (bind_context s tag ctx)) + k <= MAX_MSGS_PER_REPLAY_TUPLE.
Proof.
  intros Hk H. destruct (bind_context_kept ctx k s tag H) as [-> _]. destruct H as [_ Hm].
  destruct (tuples s !! tag) eqn:E; [by apply (Hm _ _ E)|]. change (len (@nil Z)) with 0. lia.
Qed.

Lemma ensure_tuple_roomy ctx k s tag :
  0 <= k <= MAX_MSGS_PER_REPLAY_TUPLE -> digest32 tag -> digest32 ctx -> roomy ctx k s ->
  roomy ctx k (ensure_tuple s tag ctx) /\ forall t i, contains (ensure_tuple s tag ctx) t i = contains s t i.
Proof.
  intros Hk Ht Hc Hs. pose proof (proj1 Hs) as Hok. split.
  - apply with_tuple_roomy; [done|by apply ensure_tuple_ok|by apply bind_context_ok|by apply bind_context_room].
  - intros t i. unfold ensure_tuple. rewrite contains_with_tuple. case_decide as E; [|done]. subst t. by rewrite (contains_bind ctx k).
Qed.

Lemma record_roomy ctx k s tag i :
  1 <= k <= MAX_MSGS_PER_REPLAY_TUPLE -> digest32 tag -> digest32 ctx -> roomy ctx k s -> contains s tag i = false ->
  roomy ctx (k - 1) (record s tag ctx i) /\
  forall t j, contains (record s tag ctx i) t j = contains s t j || bool_decide ((t, j) = (tag, i)).
Proof.
  intros Hk Ht Hc Hs Hnew. pose proof (proj1 Hs) as Hok. pose proof (record_ok s tag ctx i Hok Ht Hc) as Hok'.
  rewrite (contains_bind ctx k) in Hnew by done. apply bool_decide_eq_false in Hnew.
  pose proof (bind_context_room ctx k s tag ltac:(lia) Hs) as Hroom. unfold record in *. rewrite (bool_decide_eq_false_2 (i ∈ _)) in * by done.
  set (st := bind_context s tag ctx) in *. set (n := sat_add _ _) in *. rewrite (push_index_room st i n) in * by lia. split.
  - apply with_tuple_roomy; [by eapply roomy_mono; [|done]; lia|done|by apply bind_context_ok|]. cbn [seen_msg_indices].
    rewrite len_app. change (len [i]) with 1. lia.
  - intros t j. rewrite contains_with_tuple. cbn [seen_msg_index_set]. case_decide as E.
    + subst t. rewrite (contains_bind ctx k) by done. fold st. apply eq_true_iff_eq. rewrite orb_true_iff, !bool_decide_eq_true. set_solver.
    + rewrite (bool_decide_eq_false_2 ((t, j) = _)) by congruence. by rewrite orb_false_r.
Qed.

Lemma prune_roomy ctx max k s :
  replay_ok s -> (forall t, tuple_len s t + k <= MAX_MSGS_PER_REPLAY_TUPLE) -> roomy ctx k (prune_to_context s ctx max).
Proof.
  intros Hs Hk. split; [by apply prune_to_context_ok|]. intros t st H. destruct (prune_spec s ctx max) as [[Hsub _] _].
  apply (lookup_weaken _ _ _ _ H), map_lookup_filter_Some in Hsub as [Ht Hc]. split; [done|]. specialize (Hk t). unfold tuple_len in Hk. by rewrite Ht in Hk.
Qed.

(** ** What a fetch delivers *)

(** A digest is a byte string. *)
Class HashBytes (H : Hashing) := { derive_key_bytes : forall ctx m, is_bytes (blake3_derive_key ctx m) }.

Record Delivery := { d_message : ServerMessage; d_index : Z; d_content : AuthenticatedMessage }.

Section Spec.
  Context {HS : Hashing} {HL : HashingLaws HS} {HB : HashBytes HS} {A : Aead} {AL : MsgAeadLaws A} {EC : EnvelopeCodec}
    {EL : EnvelopeCodecLaws HS EC} {D : Dilithium} {DL : DilithiumLaws D} {HX : HexCodec}.

Definition tag_of (params : FetchParams) (m : ServerMessage) : bytes := tuple_tag (crypto_context (fp_epoch params) (sm_sender m)).
Definition ctx_of (params : FetchParams) : bytes := context_tag (crypto_context (fp_epoch params) (fp_leaf_id params)).

(** The index and the signed message inside a message that is looked at. *)
Definition opened (params : FetchParams) (m : ServerMessage) : option (Z * bytes) :=
  if already_fetched (fp_since params) m || negb (len (sm_sender m) =? 32) then None
  else result_ok (decrypt_message_v2_with_index (sm_ciphertext m) (crypto_context (fp_epoch params) (sm_sender m))).

Definition d_key (params : FetchParams) (d : Delivery) : bytes * Z := (tag_of params (d_message d), d_index d).
Definition d_entry (d : Delivery) : ChatMessageEntry := received_entry (sm_sender (d_message d)) (d_content d) (d_message d).

(** After the messages [seen] of a response: what is delivered is genuine, once
    each and was not known; exactly that is known in addition; and nothing that
    could be delivered is left out. *)
Record fetch_spec (params : FetchParams) (known : MsgReplayState) (seen : list ServerMessage) (g : list Delivery)
    (messages : list ChatMessageEntry) (replay : MsgReplayState) : Prop := {
  fs_messages : messages = map d_entry g;
  fs_nodup : NoDup (map (d_key params) g);
  fs_genuine : forall d, d ∈ g -> d_message d ∈ seen /\ contains known (tag_of params (d_message d)) (d_index d) = false /\
    exists data, opened params (d_message d) = Some (d_index d, data) /\
      verified_message (ep_gid (fp_epoch params)) (sm_sender (d_message d)) data (d_content d);
  fs_known : forall t i, contains replay t i = contains known t i || bool_decide ((t, i) ∈ map (d_key params) g);
  fs_complete : forall m i data, m ∈ seen -> opened params m = Some (i, data) ->
    contains replay (tag_of params m) i = true \/
    exists msg, decode_verified_authenticated_message (ep_gid (fp_epoch params)) (sm_sender m) data = Err (Fails msg)
}.

Lemma digest32_digest p : digest32 (digest_of p).
Proof using HB HL. split; [apply derive_key_bytes|]. unfold len, digest_of. by rewrite derive_key_len. Qed.

Lemma opened_bytes params m i data : opened params m = Some (i, data) -> is_bytes data.
Proof using AL.
  unfold opened. destruct (_ || _); [done|]. destruct (decrypt_message_v2_with_index _ _) as [[j q]|] eqn:E; [|done]. intros [= <- <-].
  apply decrypt_inv in E as (ct & _ & _ & _ & H). by eapply msg_aead_bytes.
Qed.

(** A turn that delivers nothing. *)
Lemma fetch_spec_skip params known seen g messages r r' m :
  fetch_spec params known seen g messages r -> (forall t i, contains r' t i = contains r t i) ->
  (forall i data, opened params m = Some (i, data) -> contains r' (tag_of params m) i = true \/
    exists msg, decode_verified_authenticated_message (ep_gid (fp_epoch params)) (sm_sender m) data = Err (Fails msg)) ->
  fetch_spec params known (seen ++ [m]) g messages r'.
Proof.
  intros [Hm Hnd Hg Hk Hc] Hsame Hnew. split; [done|done| | |].
  - intros d Hd. destruct (Hg d Hd) as (H1 & H2). split; [apply elem_of_app; by left|done].
  - intros t i. by rewrite Hsame.
  - intros m' i data [Hin| ->%list_elem_of_singleton]%elem_of_app Ho; [rewrite Hsame; by apply Hc|by apply Hnew].
Qed.

Lemma fetch_spec_deliver params known seen g messages r r' m i data a :
  fetch_spec params known seen g messages r -> opened params m = Some (i, data) ->
  verified_message (ep_gid (fp_epoch params)) (sm_sender m) data a -> contains r (tag_of params m) i = false ->
  (forall t j, contains r' t j = contains r t j || bool_decide ((t, j) = (tag_of params m, i))) ->
  fetch_spec params known (seen ++ [m]) (g ++ [{| d_message := m; d_index := i; d_content := a |}])
    (messages ++ [received_entry (sm_sender m) a m]) r'.
Proof.
  intros [Hm Hnd Hg Hk Hc] Ho Hv Hfresh Hr. pose proof Hfresh as Hf. rewrite Hk in Hf. apply orb_false_iff in Hf as [Hf1 Hf2%bool_decide_eq_false].
  split.
  - by rewrite map_app, Hm.
  - rewrite map_app. apply NoDup_app. split_and!; [done| |apply NoDup_singleton]. intros k Hin ->%list_elem_of_singleton. done.
  - intros d [Hd| ->%list_elem_of_singleton]%elem_of_app.
    + destruct (Hg d Hd) as (H1 & H2). split; [apply elem_of_app; by left|done].
    + split; [apply elem_of_app; right; by constructor|]. split; [done|]. by exists data.
  - intros t j. rewrite Hr, Hk, <- orb_assoc. f_equal. rewrite map_app. apply eq_true_iff_eq.
    rewrite orb_true_iff, !bool_decide_eq_true, elem_of_app. cbn [map]. rewrite list_elem_of_singleton. done.
  - intros m' j q [Hin| ->%list_elem_of_singleton]%elem_of_app Ho'.
    + rewrite Hr. destruct (Hc m' j q Hin Ho') as [-> |?]; [by left|by right].
    + rewrite Ho in Ho'. injection Ho' as <- <-. left. rewrite Hr, bool_decide_eq_true_2 by done. apply orb_true_r.
Qed.

(** One turn of the loop. *)
Lemma fetch_message_spec params known seen g st m k :
  fetch_spec params known seen g (fl_messages st) (fl_replay st) -> roomy (ctx_of params) k (fl_replay st) ->
  1 <= k <= MAX_MSGS_PER_REPLAY_TUPLE ->
  match fetch_message params (ctx_of params) st m with
  | Ok st' => roomy (ctx_of params) (k - 1) (fl_replay st') /\
      exists g', fetch_spec params known (seen ++ [m]) g' (fl_messages st') (fl_replay st')
  | Err e => e = Panics
  end.
Proof using HL HB AL.
  intros Hspec Hroom Hk. unfold fetch_message. pose proof (opened_bytes params m) as Hob. pose proof (fun r => fetch_spec_deliver params known seen g (fl_messages st) (fl_replay st) r m) as Hdel.
  pose proof (fun r => fetch_spec_skip params known seen g (fl_messages st) (fl_replay st) r m Hspec) as Hskip. unfold opened in Hob, Hdel, Hskip.
  destruct (already_fetched (fp_since params) m); [split; [by eapply roomy_mono; [|done]; lia|]; exists g; by apply Hskip|].
  destruct (negb (len (sm_sender m) =? 32)); [split; [by eapply roomy_mono; [|done]; lia|]; exists g; by apply Hskip|].
  cbn [orb] in *. rewrite derive_msg_replay_tuple_tag_ok. cbn [no_panic map_err]. rewrite bind_Ok. fold (tag_of params m).
  destruct (ensure_tuple_roomy (ctx_of params) k (fl_replay st) (tag_of params m)) as [Hroom' Hsame]; [lia|apply digest32_digest|apply digest32_digest|done|].
  set (r := ensure_tuple _ _ _) in *. assert (roomy (ctx_of params) (k - 1) r) as Hroom1 by (by eapply roomy_mono; [|done]; lia).
  specialize (Hskip r Hsame). destruct (decrypt_message_v2_with_index _ _) as [[i data]|e]; cbn [result_ok] in *; [|split; [done|]; exists g; by apply Hskip].
  destruct (contains r (tag_of params m) i) eqn:Hc; [split; [done|]; exists g; apply Hskip; intros j q [= <- <-]; by left|].
  destruct (decode_verified_authenticated_message _ _ _) as [a|[|msg]] eqn:Hd; [|done|].
  - destruct (record_roomy (ctx_of params) k r (tag_of params m) i) as [Hroom2 Hrec]; [lia|apply digest32_digest|apply digest32_digest|done|done|].
    split; [done|]. eexists. eapply Hdel; [done|done|by eapply decode_verified_sound; [apply (Hob i)|]|by rewrite <- Hsame|].
    intros t j. cbn [fl_replay]. by rewrite Hrec, Hsame.
  - split; [done|]. exists g. apply Hskip. intros j q [= <- <-]. right. by exists msg.
Qed.

Lemma fetch_fold params known response : forall seen g st k,
  fetch_spec params known seen g (fl_messages st) (fl_replay st) -> roomy (ctx_of params) k (fl_replay st) ->
  len response <= k <= MAX_MSGS_PER_REPLAY_TUPLE ->
  match fold_res (fetch_message params (ctx_of params)) st response with
  | Ok st' => replay_ok (fl_replay st') /\ exists g', fetch_spec params known (seen ++ response) g' (fl_messages st') (fl_replay st')
  | Err e => e = Panics
  end.
Proof using HL HB AL.
  induction response as [|m l IH]; intros seen g st k Hspec Hroom Hk; cbn [fold_res].
  { split; [apply Hroom|]. exists g. by rewrite app_nil_r. }
  assert (len (m :: l) = len l + 1) as Hl by (unfold len; cbn [length]; lia). pose proof (len_nonneg l).
  pose proof (fetch_message_spec params known seen g st m k Hspec Hroom ltac:(lia)) as Hstep.
  destruct (fetch_message params (ctx_of params) st m) as [st'|e]; [|done]. rewrite bind_Ok. destruct Hstep as [Hroom' [g' Hspec']].
  rewrite cons_middle, app_assoc. apply (IH _ g' st' (k - 1)); [done|done|lia].
Qed.

(** The state a fetch starts from. *)
Definition pruned (params : FetchParams) : MsgReplayState :=
  prune_to_context (fp_msg_replay_state params) (ctx_of params) (fp_n_max params).

(** Every tuple has room for a response. *)
Definition room_for (s : MsgReplayState) (response : list ServerMessage) : Prop :=
  forall t, tuple_len s t + len response <= MAX_MSGS_PER_REPLAY_TUPLE.

Lemma perform_fetch_spec params response :
  replay_ok (fp_msg_replay_state params) -> room_for (fp_msg_replay_state params) response ->
  match perform_fetch params response with
  | Ok out => replay_ok (fo_msg_replay_state out) /\
      exists g, fetch_spec params (pruned params) response g (fo_messages out) (fo_msg_replay_state out)
  | Err e => e = Panics
  end.
Proof using HL HB AL.
  intros Hs Hroom. unfold perform_fetch. rewrite derive_msg_replay_context_id_ok. cbn [no_panic map_err]. rewrite bind_Ok. fold (ctx_of params).
  set (st := {| fl_messages := _ |}). assert (len response <= MAX_MSGS_PER_REPLAY_TUPLE) as Hlen.
  { specialize (Hroom []). unfold tuple_len in Hroom. destruct (_ !! _) as [t|]; [pose proof (len_nonneg (seen_msg_indices t))|]; lia. }
  pose proof (fetch_fold params (pruned params) response [] [] st (len response)) as Hfold.
  destruct (fold_res _ st response) as [st'|e]; [rewrite bind_Ok|]; apply Hfold.
  all: try lia. all: try (by apply prune_roomy). all: split; [done|apply NoDup_nil_2|intros d []%not_elem_of_nil| |intros m i data []%not_elem_of_nil].
  all: intros t i; cbn [map]; rewrite bool_decide_eq_false_2 by apply not_elem_of_nil; by rewrite orb_false_r.
Qed.


(** No other message of the response claims the tag and the index. *)
Definition sole_claim (params : FetchParams) (response : list ServerMessage) (m : ServerMessage) (i : Z) : Prop :=
  forall m' data, m' ∈ response -> tag_of params m' = tag_of params m -> opened params m' = Some (i, data) -> m' = m.

Lemma opened_encrypted params c leaf ts data i :
  len leaf = 32 -> already_fetched (fp_since params) {| sm_ciphertext := c; sm_sender := leaf; sm_timestamp_ms := ts |} = false ->
  decrypt_message_v2_with_index c (crypto_context (fp_epoch params) leaf) = Ok (i, data) ->
  opened params {| sm_ciphertext := c; sm_sender := leaf; sm_timestamp_ms := ts |} = Some (i, data).
Proof. intros Hl Hs Hd. unfold opened. cbn [sm_sender sm_ciphertext]. by rewrite Hs, Hl, Hd. Qed.

(** A verified message that is alone with its index is delivered, if its index is not known. *)
Lemma fetch_delivers_one params response out m i data a :
  replay_ok (fp_msg_replay_state params) -> room_for (fp_msg_replay_state params) response -> perform_fetch params response = Ok out ->
  m ∈ response -> opened params m = Some (i, data) -> verified_message (ep_gid (fp_epoch params)) (sm_sender m) data a ->
  contains (pruned params) (tag_of params m) i = false -> sole_claim params response m i ->
  received_entry (sm_sender m) a m ∈ fo_messages out.
Proof using HL HB AL DL.
  intros Hs Hroom Hf Hin Ho Hv Hnew Hsole. pose proof (perform_fetch_spec params response Hs Hroom) as H. rewrite Hf in H.
  destruct H as [_ [g [Hm _ Hg Hk Hc]]]. destruct (Hc m i data Hin Ho) as [Hknown|[msg Hbad]]; [|by rewrite (decode_verified_complete _ _ _ _ Hv) in Hbad].
  rewrite Hk, Hnew in Hknown. cbn [orb] in Hknown. apply bool_decide_eq_true, list_elem_of_fmap in Hknown as ([m' j a'] & Hkey & Hd).
  unfold d_key in Hkey. cbn [d_message d_index] in Hkey. injection Hkey as Htag ->.
  destruct (Hg _ Hd) as (Hin' & _ & data' & Ho' & Hv'). cbn [d_message d_index d_content] in *.
  assert (m' = m) as -> by (by eapply Hsole). rewrite Ho in Ho'. injection Ho' as <-.
  apply decode_verified_complete in Hv, Hv'. rewrite Hv in Hv'. injection Hv' as <-.
  rewrite Hm. apply list_elem_of_fmap. by exists {| d_message := m; d_index := j; d_content := a |}.
Qed.

Lemma utf8_bytes l : utf8 l -> is_bytes l.
Proof.
  assert (forall lo hi b, in_range lo hi b = true -> 0 <= lo -> hi < 256 -> is_byte b) as Hr.
  { intros lo hi b H%in_range_spec Hlo Hhi. unfold is_byte. lia. }
  assert (forall b, utf8_cont b = true -> is_byte b) as Hcont by (intros b H; eapply Hr; [exact H|lia|lia]).
  induction 1 as [|b l Hb _ IH|b c l Hb Hc _ IH|b c d l Hb Hc Hd _ IH|b c d e l Hb Hc Hd He _ IH]; unfold is_bytes in *; rewrite ?Forall_cons; split_and?; try done; try (by apply Hcont).
  - unfold is_byte. lia.
  - eapply Hr; [exact Hb|lia|lia].
  - eapply Hr; [exact Hb|lia|lia].
  - unfold utf8_second3 in Hc. destruct (b =? 224), (b =? 237); try (by apply Hcont); (eapply Hr; [exact Hc|lia|lia]).
  - eapply Hr; [exact Hb|lia|lia].
  - unfold utf8_second4 in Hc. destruct (b =? 240), (b =? 244); try (by apply Hcont); (eapply Hr; [exact Hc|lia|lia]).
Qed.

(** A message sent, in any response that has it. *)
Lemma send_received (sp : SendParams) (params : FetchParams) (now : Z) (coins : bytes) :
  sp_epoch sp = fp_epoch params -> sp_leaf_id sp = sender_leaf_of (ep_gid (sp_epoch sp)) (sp_pop_public_key sp) ->
  sig_pair (sp_pop_secret_key sp) (sp_pop_public_key sp) -> is_bytes (sp_pop_public_key sp) -> utf8 (sp_plaintext sp) ->
  is_u64 (sp_msg_index sp) -> is_u64 now ->
  authenticated_message_min_bytes + len (sp_plaintext sp) + PAYLOAD_AEAD_TAG_LEN <= MAX_CT_PAYLOAD_BYTES ->
  replay_ok (fp_msg_replay_state params) ->
  exists c entry, perform_send sp now coins = Ok (c, entry) /\ forall ts response, room_for (fp_msg_replay_state params) response ->
    let m := {| sm_ciphertext := c; sm_sender := sp_leaf_id sp; sm_timestamp_ms := ts |} in
    forall out, perform_fetch params response = Ok out -> m ∈ response -> already_fetched (fp_since params) m = false ->
      contains (pruned params) (tag_of params m) (sp_msg_index sp) = false -> sole_claim params response m (sp_msg_index sp) ->
      exists e, e ∈ fo_messages out /\ ce_sender_leaf e = Some (sp_leaf_id sp) /\ ce_plaintext e = sp_plaintext sp /\ ce_timestamp_ms e = ts.
Proof using HL HB AL EL DL.
  intros Hep Hleaf Hpair Hpk Hutf Hi Hnow Hlen Hs. pose proof (utf8_bytes _ Hutf) as Hpb. pose proof (len_nonneg (sp_plaintext sp)).
  pose proof (@public_key_bytes_range D DL). pose proof (@signature_bytes_range D DL).
  assert (len (sp_plaintext sp) <= U32_MAX) as Hp32.
  { unfold authenticated_message_min_bytes, PAYLOAD_AEAD_TAG_LEN, MAX_CT_PAYLOAD_BYTES, U32_MAX in *. change (len MESSAGE_PREFIX) with 4 in *. lia. }
  destruct (build_verified (ep_gid (sp_epoch sp)) now (sp_plaintext sp) _ _ coins Hnow Hp32 Hpair) as (sg & Hbuild & Hsb & Hsl & Hv).
  set (data := encode_authenticated_message _ _ _ sg) in *. assert (is_bytes data) as Hdb by (by apply encode_bytes).
  assert (len data = authenticated_message_min_bytes + len (sp_plaintext sp)) as Hdl.
  { unfold data, encode_authenticated_message, authenticated_message_min_bytes. rewrite !len_app, !len_to_le, Hsl. destruct Hpair as (_ & _ & -> & _). lia. }
  destruct (encrypt_ok data (crypto_context (sp_epoch sp) (sp_leaf_id sp)) (sp_msg_index sp) Hdb) as (c & Hc & _ & Hd); [lia|done|].
  rewrite <- Hleaf in Hbuild, Hv. unfold perform_send. rewrite Hbuild, bind_Ok, Hc, bind_Ok. do 2 eexists. split; [done|].
  intros ts response Hroom. set (m := {| sm_ciphertext := c |}). intros out Hf Hin Hsince Hnew Hsole. rewrite Hep in Hd, Hv.
  assert (opened params m = Some (sp_msg_index sp, data)) as Ho.
  { apply opened_encrypted; [rewrite Hleaf; apply len_digest|done|done]. }
  eexists. split; [by eapply fetch_delivers_one|]. cbn [received_entry ce_sender_leaf ce_plaintext ce_timestamp_ms m sm_sender sm_timestamp_ms am_plaintext].
  by rewrite from_utf8_lossy_valid.
Qed.

(** A message sent is received.  With a key pair whose leaf is the sender's,
    every text that fits is signed, encrypted and posted; and a receiver with the
    keys of the epoch, to whom the server returns it with anything else, shows
    that text under that sender, provided the fetch returns, the message is newer
    than the watermark, its index is not known and no other message of the
    response claims the same index of the same sender. *)
Theorem sent_message_received (sp : SendParams) (params : FetchParams) (response : list ServerMessage) (now ts : Z) (coins : bytes) :
  sp_epoch sp = fp_epoch params -> sp_leaf_id sp = sender_leaf_of (ep_gid (sp_epoch sp)) (sp_pop_public_key sp) ->
  sig_pair (sp_pop_secret_key sp) (sp_pop_public_key sp) -> is_bytes (sp_pop_public_key sp) -> utf8 (sp_plaintext sp) ->
  is_u64 (sp_msg_index sp) -> is_u64 now ->
  authenticated_message_min_bytes + len (sp_plaintext sp) + PAYLOAD_AEAD_TAG_LEN <= MAX_CT_PAYLOAD_BYTES ->
  replay_ok (fp_msg_replay_state params) -> room_for (fp_msg_replay_state params) response ->
  exists c entry, perform_send sp now coins = Ok (c, entry) /\
    let m := {| sm_ciphertext := c; sm_sender := sp_leaf_id sp; sm_timestamp_ms := ts |} in
    forall out, perform_fetch params response = Ok out -> m ∈ response -> already_fetched (fp_since params) m = false ->
      contains (pruned params) (tag_of params m) (sp_msg_index sp) = false -> sole_claim params response m (sp_msg_index sp) ->
      exists e, e ∈ fo_messages out /\ ce_sender_leaf e = Some (sp_leaf_id sp) /\ ce_plaintext e = sp_plaintext sp /\ ce_timestamp_ms e = ts.
Proof using HL HB AL EL DL.
  intros Hep Hleaf Hpair Hpk Hutf Hi Hnow Hlen Hs Hroom.
  destruct (send_received sp params now coins Hep Hleaf Hpair Hpk Hutf Hi Hnow Hlen Hs) as (c & entry & Hc & H).
  exists c, entry. split; [done|]. by apply H.
Qed.

(** A signed message can be delivered again by any member.  The signature covers
    the leaf, the time and the text but not the index: whoever has the keys of
    the epoch and a message signed by another member encrypts it under a fresh
    index, without that member's key, and receivers show it once more. *)
Theorem resealed_message_delivered (params : FetchParams) (response : list ServerMessage) (leaf data : bytes) (a : AuthenticatedMessage) (i ts : Z) :
  is_bytes data -> verified_message (ep_gid (fp_epoch params)) leaf data a -> len data + PAYLOAD_AEAD_TAG_LEN <= MAX_CT_PAYLOAD_BYTES ->
  is_u64 i -> replay_ok (fp_msg_replay_state params) -> room_for (fp_msg_replay_state params) response ->
  exists c, encrypt_message_v2 data (crypto_context (fp_epoch params) leaf) i = Ok c /\
    let m := {| sm_ciphertext := c; sm_sender := leaf; sm_timestamp_ms := ts |} in
    forall out, perform_fetch params response = Ok out -> m ∈ response -> already_fetched (fp_since params) m = false ->
      contains (pruned params) (tag_of params m) i = false -> sole_claim params response m i ->
      received_entry leaf a m ∈ fo_messages out.
Proof using HL HB AL EL DL.
  intros Hb Hv Hlen Hi Hs Hroom.
  destruct (encrypt_ok data (crypto_context (fp_epoch params) leaf) i Hb Hlen Hi) as (c & Hc & _ & Hd). exists c. split; [done|].
  intros m out Hf Hin Hsince Hnew Hsole. assert (len leaf = 32) as Hl by (rewrite (vm_leaf _ _ _ _ Hv); apply len_digest).
  eapply (fetch_delivers_one params response out m i data a); try done. by apply opened_encrypted.
Qed.

(** C31: any member can crash every other member.  Whoever has the keys of the
    epoch can encrypt the message that panics the parser, under any sender and
    any fresh index; a receiver to whom the server returns it panics, whatever
    else is in the response. *)
Theorem member_crashes_receivers (params : FetchParams) (response : list ServerMessage) (n i ts : Z) (leaf : bytes) :
  authenticated_message_min_bytes <= n -> n + PAYLOAD_AEAD_TAG_LEN <= MAX_CT_PAYLOAD_BYTES -> is_u64 i -> len leaf = 32 ->
  replay_ok (fp_msg_replay_state params) -> room_for (fp_msg_replay_state params) response ->
  exists c, encrypt_message_v2 (cut_message n) (crypto_context (fp_epoch params) leaf) i = Ok c /\
    let m := {| sm_ciphertext := c; sm_sender := leaf; sm_timestamp_ms := ts |} in
    (m ∈ response -> already_fetched (fp_since params) m = false -> contains (pruned params) (tag_of params m) i = false ->
     sole_claim params response m i -> perform_fetch params response = Err Panics).
Proof using HL HB AL EL DL.
  intros Hn Hmax Hi Hleaf Hs Hroom. pose proof min_bytes_24. unfold MAX_CT_PAYLOAD_BYTES, PAYLOAD_AEAD_TAG_LEN in Hmax.
  destruct (cut_message_cut n) as (Hb & Hl & Hcut); [unfold U32_MAX; lia|].
  destruct (encrypt_ok (cut_message n) (crypto_context (fp_epoch params) leaf) i Hb) as (c & Hc & _ & Hd); [rewrite Hl; unfold MAX_CT_PAYLOAD_BYTES, PAYLOAD_AEAD_TAG_LEN; lia|done|].
  exists c. split; [done|]. intros m Hin Hsince Hnew Hsole.
  assert (opened params m = Some (i, cut_message n)) as Ho by (by apply opened_encrypted).
  assert (decode_verified_authenticated_message (ep_gid (fp_epoch params)) leaf (cut_message n) = Err Panics) as Hpanic.
  { apply verified_panics_iff; [done|]. rewrite Hl. by split. }
  pose proof (perform_fetch_spec params response Hs Hroom) as H1. destruct (perform_fetch params response) as [out|e]; [|by rewrite H1].
  exfalso. destruct H1 as [_ [g [_ _ Hg Hk Hcomp]]].
  destruct (Hcomp m i (cut_message n) Hin Ho) as [Hknown|[msg Hbad]]; [|cbn [m sm_sender] in Hbad; by rewrite Hpanic in Hbad].
  rewrite Hk, Hnew in Hknown. cbn [orb] in Hknown. apply bool_decide_eq_true, list_elem_of_fmap in Hknown as ([m' j a'] & Hkey & Hdel).
  unfold d_key in Hkey. cbn [d_message d_index] in Hkey. injection Hkey as Htag ->.
  destruct (Hg _ Hdel) as (Hin' & _ & data' & Ho' & Hv'). cbn [d_message d_index d_content] in *.
  assert (m' = m) as -> by (by eapply Hsole). rewrite Ho in Ho'. injection Ho' as <-.
  apply decode_verified_complete in Hv'. cbn [m sm_sender] in Hv'. by rewrite Hpanic in Hv'.
Qed.

End Spec.

(** ** A concrete exchange *)

Lemma be_bytes_bytes w n : is_bytes (be_bytes w n).
Proof.
  revert n. induction w as [|w IH]; intros n; cbn; [constructor|]. apply Forall_app. split; [apply IH|].
  constructor; [apply Z.mod_pos_bound; lia|constructor].
Qed.

Instance toy_hash_bytes : HashBytes toy_hashing.
Proof. split. intros ctx m. apply be_bytes_bytes. Qed.

Definition toy_epoch : EpochParams :=
  {| ep_gid := replicate 32 1; ep_we_epoch_id := replicate 32 2; ep_xk_hash := replicate 32 3; ep_epoch_key := replicate 32 7;
     ep_fs_ec := 4; ep_barrier_version := 5; ep_k_barrier := replicate 32 8 |}.

Definition toy_leaf : bytes := sender_leaf_of (HS := toy_hashing) (ep_gid toy_epoch) [5; 6].

Definition toy_send : SendParams :=
  {| sp_epoch := toy_epoch; sp_msg_index := 99; sp_leaf_id := toy_leaf; sp_alias := "alice"; sp_plaintext := [104; 195; 169];
     sp_pop_secret_key := [5; 6]; sp_pop_public_key := [5; 6] |}.

Definition toy_fetch : FetchParams :=
  {| fp_epoch := toy_epoch; fp_n_max := 16; fp_msg_replay_state := default_replay; fp_leaf_id := replicate 32 4; fp_since := Some 10 |}.

Definition toy_post (r : result string (bytes * ChatMessageEntry)) : list ServerMessage :=
  match r with Ok (c, _) => [{| sm_ciphertext := c; sm_sender := toy_leaf; sm_timestamp_ms := 11 |}] | Err _ => [] end.

Definition toy_sent : result string (bytes * ChatMessageEntry) :=
  perform_send (HS := toy_hashing) (A := toy_msg_aead) (D := toy_dilithium) (HX := toy_hex) toy_send 77 [].

Definition toy_fetched (l : list ServerMessage) : result Fault FetchOutcome :=
  perform_fetch (HS := toy_hashing) (A := toy_msg_aead) (EC := toy_envelope_codec) (D := toy_dilithium) (HX := toy_hex) toy_fetch l.

Lemma default_room l : len l <= 4096 -> room_for default_replay l.
Proof. intros Hl t. unfold tuple_len, MAX_MSGS_PER_REPLAY_TUPLE. cbn. by rewrite lookup_empty. Qed.

Lemma toy_exchange_returns : is_ok (toy_fetched (toy_post toy_sent)) = true.
Proof. vm_compute. reflexivity. Qed.

Lemma toy_unknown (t : bytes) (i : Z) : contains (pruned (HS := toy_hashing) toy_fetch) t i = false.
Proof. reflexivity. Qed.

Lemma toy_text : utf8 [104; 195; 169].
Proof. apply utf8_1; [lia|]. apply utf8_2; [reflexivity..|apply utf8_nil]. Qed.

Lemma sole_singleton {HS : Hashing} {A : Aead} {EC : EnvelopeCodec} params m i : sole_claim params [m] m i.
Proof. intros m' data Hin _ _. by apply list_elem_of_singleton in Hin. Qed.


Lemma sent_message_received_witness :
  exists out e, toy_fetched (toy_post toy_sent) = Ok out /\ e ∈ fo_messages out /\ ce_sender_leaf e = Some toy_leaf /\ ce_plaintext e = [104; 195; 169].
Proof.
  assert (is_bytes [5; 6]) as Hpk by (by apply all_bytes_spec). assert (is_u64 99 /\ is_u64 77) as [H99 H77] by (split; split; discriminate).
  pose proof toy_exchange_returns as Hok. destruct (toy_fetched (toy_post toy_sent)) as [out|] eqn:Hf; [|discriminate Hok].
  assert (len (toy_post toy_sent) <= 4096) as Hroom by (destruct toy_sent as [[]|]; discriminate).
  destruct (sent_message_received (HS := toy_hashing) (A := toy_msg_aead) (EC := toy_envelope_codec) (D := toy_dilithium) (HX := toy_hex)
    toy_send toy_fetch (toy_post toy_sent) 77 11 [] eq_refl eq_refl (toy_pair [5; 6] eq_refl) Hpk toy_text H99 H77 ltac:(discriminate)
    default_replay_ok (default_room _ Hroom)) as (c & entry & Hsend & Hrecv).
  assert (toy_sent = Ok (c, entry)) as Hs by exact Hsend. rewrite Hs in Hf. cbn [toy_post] in Hf, Hrecv. rewrite Hs in Hrecv. cbn [toy_post] in Hrecv.
  destruct (Hrecv out Hf) as (e & H1 & H2 & H3 & _); [by left|reflexivity|apply toy_unknown|apply sole_singleton|].
  exists out, e. split_and!; [reflexivity|exact H1|exact H2|exact H3].
Defined.

Lemma resealed_message_delivered_witness :
  exists data a c, verified_message (HS := toy_hashing) (D := toy_dilithium) (ep_gid toy_epoch) toy_leaf data a /\
    encrypt_message_v2 (HS := toy_hashing) (A := toy_msg_aead) data (crypto_context toy_epoch toy_leaf) 100 = Ok c.
Proof.
  assert (is_u64 77 /\ is_u64 100) as [H77 H100] by (split; split; discriminate).
  destruct (build_verified (HS := toy_hashing) (D := toy_dilithium) (ep_gid toy_epoch) 77 [104; 105] [5; 6] [5; 6] [] H77 ltac:(discriminate) (toy_pair [5; 6] eq_refl))
    as (sg & _ & Hsb & Hsl & Hv).
  assert (is_bytes (encode_authenticated_message 77 [104; 105] [5; 6] sg)) as Hb by (apply encode_bytes; [by apply all_bytes_spec..|exact Hsb]).
  assert (len (encode_authenticated_message 77 [104; 105] [5; 6] sg) + PAYLOAD_AEAD_TAG_LEN <= MAX_CT_PAYLOAD_BYTES) as Hl.
  { unfold encode_authenticated_message. rewrite !len_app, Hsl. discriminate. }
  destruct (resealed_message_delivered (HS := toy_hashing) (A := toy_msg_aead) (EC := toy_envelope_codec) (D := toy_dilithium) (HX := toy_hex)
    toy_fetch [] toy_leaf _ _ 100 11 Hb Hv Hl H100 default_replay_ok (default_room [] ltac:(discriminate))) as (c & Hc & _).
  do 2 eexists. exists c. split; [exact Hv|exact Hc].
Defined.

(** The panicking message under a fresh index, alone in the response. *)
Definition toy_crash : list ServerMessage :=
  match encrypt_message_v2 (HS := toy_hashing) (A := toy_msg_aead) (cut_message 60) (crypto_context toy_epoch toy_leaf) 3 with
  | Ok c => [{| sm_ciphertext := c; sm_sender := toy_leaf; sm_timestamp_ms := 11 |}]
  | Err _ => []
  end.

Lemma member_crashes_receivers_witness : toy_fetched toy_crash = Err Panics.
Proof.
  assert (is_u64 3) as H3 by (split; discriminate).
  assert (len toy_crash <= 4096) as Hroom by (unfold toy_crash; destruct (encrypt_message_v2 _ _ _); discriminate).
  destruct (member_crashes_receivers (HS := toy_hashing) (A := toy_msg_aead) (EC := toy_envelope_codec) (D := toy_dilithium) (HX := toy_hex)
    toy_fetch toy_crash 60 3 11 toy_leaf ltac:(discriminate) ltac:(discriminate) H3 (len_digest _) default_replay_ok (default_room _ Hroom)) as (c & Hc & Hcrash).
  cbn [fp_epoch toy_fetch] in Hc. apply Hcrash; [|reflexivity|apply toy_unknown|]; unfold toy_crash; rewrite Hc; [by left|apply sole_singleton].
Defined.
