(* ===== verification/Chat.v ===== *)
(** * The conversation of a session

    What the desktop client does with the messages it sends and receives:
    [append_messages], [queue_pending_message], [confirm_pending_message] and
    [mark_pending_message_failed] of
    [cityg-gui/src/native/session_state.rs], and [handle_fetch_result] of
    [session_fetch.rs], which makes the replay progress durable before it
    shows anything.  The scrolling, the notices and the activity log are left
    out, and so is a stale session, which ends the conversation.

    A message that this client sends comes to it twice, when the send returns
    and when a fetch returns it; [chat_consistent] says that the conversation
    shows it once, whichever comes first, and that what is shown is never
    ahead of the replay progress on disk. *)

From stdpp Require Import base gmap sets list strings sorting.
From Stdlib Require Import ZArith Lia.
From S2P Require Import Prelude MsgReplay Messages RoomState.

Local Open Scope Z_scope.

Instance replay_tuple_eq_dec : EqDecision MsgReplayTupleState.
Proof. solve_decision. Defined.

Instance replay_state_eq_dec : EqDecision MsgReplayState.
Proof. solve_decision. Defined.

Instance delivery_eq_dec : EqDecision MessageDelivery.
Proof. solve_decision. Defined.

(** [MessageKey] *)
Definition MessageKey : Type := string * option bytes.

Definition message_key (m : ChatMessageEntry) : MessageKey := (ce_ciphertext_hex m, ce_sender_leaf m).

(** The fields of [AppSession] that a fetch changes. *)
Record Session := {
  ss_we_epoch_id : bytes;
  ss_msg_replay_state : MsgReplayState;
  ss_last_fetch_timestamp_ms : option Z;
}.

(** What [persist_replay_progress] writes. *)
Definition progress (s : Session) : option Z * MsgReplayState := (ss_last_fetch_timestamp_ms s, ss_msg_replay_state s).

(** The part of [AppModel] with the conversation, and the progress file. *)
Record Chat := {
  ch_session : option Session;
  ch_messages : list ChatMessageEntry;
  ch_message_keys : gset MessageKey;
  ch_next_pending_message_id : Z;
  ch_disk : option (option Z * MsgReplayState);
}.

Definition time_le (a b : ChatMessageEntry) : bool := ce_timestamp_ms a <=? ce_timestamp_ms b.

(** [self.messages.sort_by_key(|m| m.timestamp_ms)] after the messages and keys are set. *)
Definition with_messages (c : Chat) (ms : list ChatMessageEntry) (keys : gset MessageKey) : Chat := {|
  ch_session := ch_session c; ch_messages := sort_by time_le ms; ch_message_keys := keys;
  ch_next_pending_message_id := ch_next_pending_message_id c; ch_disk := ch_disk c |}.

(** An entry as the conversation keeps it once it is sent. *)
Definition as_sent (m : ChatMessageEntry) : ChatMessageEntry := {|
  ce_sender_leaf := ce_sender_leaf m; ce_fallback_label := ce_fallback_label m; ce_plaintext := ce_plaintext m;
  ce_ciphertext_hex := ce_ciphertext_hex m; ce_timestamp_ms := ce_timestamp_ms m; ce_delivery := Sent; ce_pending_id := None |}.

(** One turn of the loop of [append_messages]. *)
Definition append_one (acc : list ChatMessageEntry * gset MessageKey) (m : ChatMessageEntry) : list ChatMessageEntry * gset MessageKey :=
  let (ms, keys) := acc in
  if String.eqb (ce_ciphertext_hex m) EmptyString then acc
  else if decide (message_key m ∈ keys) then acc
  else (ms ++ [as_sent m], {[message_key m]} ∪ keys).

Definition append_messages (c : Chat) (new_messages : list ChatMessageEntry) : Chat :=
  let (ms, keys) := foldl append_one (ch_messages c, ch_message_keys c) new_messages in with_messages c ms keys.

(** [queue_pending_message], given the session's leaf and alias and the clock. *)
Definition queue_pending_message (c : Chat) (leaf_id : bytes) (alias : string) (plaintext : bytes) (timestamp_ms : Z) : Chat * Z :=
  let pending_id := ch_next_pending_message_id c in
  let m := {| ce_sender_leaf := Some leaf_id; ce_fallback_label := alias; ce_plaintext := plaintext; ce_ciphertext_hex := EmptyString;
              ce_timestamp_ms := timestamp_ms; ce_delivery := Pending; ce_pending_id := Some pending_id |} in
  let c' := with_messages c (ch_messages c ++ [m]) (ch_message_keys c) in
  ({| ch_session := ch_session c'; ch_messages := ch_messages c'; ch_message_keys := ch_message_keys c';
      ch_next_pending_message_id := sat_add pending_id 1; ch_disk := ch_disk c' |}, pending_id).

(** The position of the first entry with the pending identifier. *)
Definition pending_at (ms : list ChatMessageEntry) (pending_id : Z) : option (nat * ChatMessageEntry) :=
  list_find (fun m => ce_pending_id m = Some pending_id) ms.

Definition confirm_pending_message (c : Chat) (pending_id : Z) (entry : ChatMessageEntry) : Chat :=
  let entry := as_sent entry in
  if decide (message_key entry ∈ ch_message_keys c) then
    with_messages c (filter (fun m => ce_pending_id m <> Some pending_id) (ch_messages c)) (ch_message_keys c)
  else
    with_messages c
      (match pending_at (ch_messages c) pending_id with
       | Some (index, _) => <[index := entry]> (ch_messages c)
       | None => ch_messages c ++ [entry]
       end)
      ({[message_key entry]} ∪ ch_message_keys c).

(** A failed entry keeps its place. *)
Definition as_failed (m : ChatMessageEntry) : ChatMessageEntry := {|
  ce_sender_leaf := ce_sender_leaf m; ce_fallback_label := ce_fallback_label m; ce_plaintext := ce_plaintext m;
  ce_ciphertext_hex := ce_ciphertext_hex m; ce_timestamp_ms := ce_timestamp_ms m; ce_delivery := DeliveryFailed; ce_pending_id := None |}.

Definition mark_pending_message_failed (c : Chat) (pending_id : Z) : Chat :=
  match pending_at (ch_messages c) pending_id with
  | Some (index, m) => {|
      ch_session := ch_session c; ch_messages := <[index := as_failed m]> (ch_messages c); ch_message_keys := ch_message_keys c;
      ch_next_pending_message_id := ch_next_pending_message_id c; ch_disk := ch_disk c |}
  | None => c
  end.

(** The session with the outcome of a fetch. *)
Definition updated_session (s : Session) (o : FetchOutcome) : Session := {|
  ss_we_epoch_id := ss_we_epoch_id s;
  ss_msg_replay_state := fo_msg_replay_state o;
  ss_last_fetch_timestamp_ms :=
    match fo_last_timestamp_ms o, ss_last_fetch_timestamp_ms s with
    | Some ts, Some prev => if prev <? ts then Some ts else Some prev
    | Some ts, None => Some ts
    | None, prev => prev
    end |}.

Definition set_session (c : Chat) (s : Session) (disk : option (option Z * MsgReplayState)) : Chat := {|
  ch_session := Some s; ch_messages := ch_messages c; ch_message_keys := ch_message_keys c;
  ch_next_pending_message_id := ch_next_pending_message_id c; ch_disk := disk |}.

(** The messages of an outcome are appended if there are any. *)
Definition show_messages (c : Chat) (ms : list ChatMessageEntry) : Chat := match ms with [] => c | _ => append_messages c ms end.

(** [handle_fetch_result]; [persists] is whether [persist_replay_progress]
    succeeds, and [None] a fetch that failed. *)
Definition handle_fetch_result (c : Chat) (outcome : option FetchOutcome) (expected_weid : bytes) (persists : bool) : Chat :=
  match ch_session c, outcome with
  | Some s, Some o =>
      if negb (bytes_eqb (ss_we_epoch_id s) expected_weid) then c
      else
        let s' := updated_session s o in
        if decide (progress s' = progress s) then show_messages c (fo_messages o)
        else if persists then show_messages (set_session c s' (Some (progress s'))) (fo_messages o)
        else c
  | _, _ => c
  end.

(** ** Events *)

Inductive ChatEvent :=
  | Queue (leaf_id : bytes) (alias : string) (plaintext : bytes) (timestamp_ms : Z)
  | Confirm (pending_id : Z) (entry : ChatMessageEntry)
  | SendFailed (pending_id : Z)
  | Fetched (outcome : option FetchOutcome) (expected_weid : bytes) (persists : bool).

Definition chat_step (c : Chat) (e : ChatEvent) : Chat :=
  match e with
  | Queue l a p t => (queue_pending_message c l a p t).1
  | Confirm id entry => confirm_pending_message c id entry
  | SendFailed id => mark_pending_message_failed c id
  | Fetched o w p => handle_fetch_result c o w p
  end.

(** ** What the conversation shows *)

(** The entries shown as sent or received. *)
Definition shown (ms : list ChatMessageEntry) : list ChatMessageEntry := filter (fun m => ce_delivery m = Sent) ms.

(** The entries and the keys agree: a key for each shown entry, and one entry for each key. *)
Record entries_ok (ms : list ChatMessageEntry) (keys : gset MessageKey) : Prop := {
  eo_pending : Forall (fun m => is_Some (ce_pending_id m) -> ce_delivery m = Pending) ms;
  eo_once : NoDup (message_key <$> shown ms);
  eo_keys k : k ∈ keys <-> k ∈ message_key <$> shown ms;
}.

Record chat_ok (c : Chat) : Prop := {
  co_sorted : StronglySorted (fun a b => time_le a b = true) (ch_messages c);
  co_entries : entries_ok (ch_messages c) (ch_message_keys c);
  co_durable s : ch_session c = Some s -> ch_disk c = Some (progress s);
}.

Lemma shown_perm l l' : l ≡ₚ l' -> shown l ≡ₚ shown l'.
Proof. intros H. unfold shown. by rewrite H. Qed.

Lemma entries_perm l l' keys : l ≡ₚ l' -> entries_ok l keys -> entries_ok l' keys.
Proof.
  intros H [H1 H2 H3]. pose proof (shown_perm _ _ H) as Hs. split.
  - by rewrite <- H.
  - by rewrite <- Hs.
  - intros k. by rewrite <- Hs.
Qed.

Lemma entries_snoc l keys m : entries_ok l keys -> message_key m ∉ keys -> ce_delivery m = Sent -> ce_pending_id m = None ->
  entries_ok (l ++ [m]) ({[message_key m]} ∪ keys).
Proof.
  intros [H1 H2 H3] Hn Hd Hp. assert (shown (l ++ [m]) = shown l ++ [m]) as Hs.
  { unfold shown. rewrite filter_app, filter_cons, decide_True by done. done. }
  split; rewrite ?Hs, ?fmap_app; cbn.
  - apply Forall_app. split; [done|]. repeat constructor. rewrite Hp. by intros [? ?].
  - apply NoDup_app. split; [done|]. split; [|apply NoDup_singleton]. intros k Hk ->%list_elem_of_singleton. by apply Hn, H3.
  - intros k. rewrite elem_of_union, elem_of_singleton, elem_of_app, list_elem_of_singleton, H3. tauto.
Qed.

(** An entry that is not shown may come and go. *)
Lemma entries_hidden l keys m : ce_delivery m <> Sent ->
  entries_ok (m :: l) keys <-> entries_ok l keys /\ (is_Some (ce_pending_id m) -> ce_delivery m = Pending).
Proof.
  intros Hd. assert (shown (m :: l) = shown l) as Hs by (unfold shown; by rewrite filter_cons, decide_False). split.
  - intros [H1 H2 H3]. rewrite Hs in *. inversion_clear H1. split; [by constructor|done].
  - intros [[H1 H2 H3] Hp]. split; rewrite ?Hs; [by constructor|done|done].
Qed.

Lemma insert_perm {A} (l : list A) i x y : l !! i = Some x -> exists rest, l ≡ₚ x :: rest /\ <[i := y]> l ≡ₚ y :: rest.
Proof.
  intros H. exists (take i l ++ drop (S i) l). split.
  - rewrite <- (take_drop_middle l i x H) at 1. by rewrite Permutation_middle.
  - rewrite insert_take_drop by (by eapply lookup_lt_Some). by rewrite Permutation_middle.
Qed.

Lemma pending_at_some ms id i m : pending_at ms id = Some (i, m) -> ms !! i = Some m /\ ce_pending_id m = Some id.
Proof. intros H. apply list_find_Some in H as (H1 & H2 & _). done. Qed.

(** The entry found at a pending identifier is replaced. *)
Lemma entries_replace ms keys id i old m : entries_ok ms keys -> pending_at ms id = Some (i, old) ->
  exists rest, entries_ok rest keys /\ <[i := m]> ms ≡ₚ m :: rest.
Proof.
  intros Hok H. apply pending_at_some in H as [H1 H2]. destruct (insert_perm ms i old m H1) as (rest & Hp1 & Hp2). exists rest. split; [|done].
  apply (entries_perm _ _ _ Hp1) in Hok. pose proof (eo_pending _ _ Hok) as Hpend. inversion_clear Hpend as [|?? Ho _].
  apply entries_hidden in Hok as [Hok _]; [done|]. rewrite Ho by (rewrite H2; by eexists). done.
Qed.

Lemma entries_drop_pending ms keys id : entries_ok ms keys -> entries_ok (filter (fun m => ce_pending_id m <> Some id) ms) keys.
Proof.
  intros [H1 H2 H3]. assert (shown (filter (fun m => ce_pending_id m <> Some id) ms) = shown ms) as Hs.
  { unfold shown. clear - H1. induction H1 as [|m ms Hm _ IH]; [done|]. rewrite !filter_cons.
    destruct (decide (ce_pending_id m <> Some id)) as [|Hid]; rewrite ?filter_cons, IH; [done|].
    rewrite decide_False; [done|]. apply dec_stable in Hid. rewrite Hm by (rewrite Hid; by eexists). done. }
  split; rewrite ?Hs; [|done|done]. apply Forall_forall. intros m [_ Hm]%list_elem_of_filter. by apply (proj1 (Forall_forall _ _) H1).
Qed.

Lemma append_fold_ok new : forall ms keys, entries_ok ms keys ->
  entries_ok (foldl append_one (ms, keys) new).1 (foldl append_one (ms, keys) new).2 /\ keys ⊆ (foldl append_one (ms, keys) new).2.
Proof.
  induction new as [|m new IH]; intros ms keys H; [done|]. cbn [foldl append_one]. destruct (String.eqb _ _); [by apply IH|].
  destruct (decide (message_key m ∈ keys)) as [|Hk]; [by apply IH|].
  destruct (IH (ms ++ [as_sent m]) ({[message_key m]} ∪ keys)) as [H1 H2]; [by apply (entries_snoc _ _ (as_sent m))|]. split; [done|]. set_solver.
Qed.

Lemma time_le_total a b : time_le a b = false -> time_le b a = true.
Proof. unfold time_le. lia. Qed.

Lemma time_le_trans a b d : time_le a b = true -> time_le b d = true -> time_le a d = true.
Proof. unfold time_le. lia. Qed.

Lemma with_messages_ok c ms keys : entries_ok ms keys -> (forall s, ch_session c = Some s -> ch_disk c = Some (progress s)) ->
  chat_ok (with_messages c ms keys).
Proof.
  intros H Hd. split; cbn; [apply sort_by_sorted; [apply time_le_total|apply time_le_trans]| |done].
  eapply entries_perm; [|exact H]. symmetry. apply sort_by_perm.
Qed.

Lemma show_messages_ok c ms : chat_ok c -> chat_ok (show_messages c ms) /\ ch_message_keys c ⊆ ch_message_keys (show_messages c ms).
Proof.
  intros [H1 H2 H3]. unfold show_messages. destruct ms as [|m ms]; [done|]. unfold append_messages.
  destruct (append_fold_ok (m :: ms) (ch_messages c) (ch_message_keys c) H2) as [Ha Hb].
  destruct (foldl append_one _ _) as [ms' keys']. split; [by apply with_messages_ok|done].
Qed.

Lemma sorted_times ms : StronglySorted (fun a b => time_le a b = true) ms <-> StronglySorted Z.le (ce_timestamp_ms <$> ms).
Proof.
  induction ms as [|m ms IH]; cbn; [split; constructor|]. split; intros H; inversion_clear H as [|?? H1 H2]; constructor; (try by apply IH).
  - apply Forall_fmap. eapply Forall_impl; [exact H2|]. cbn. unfold time_le. intros x Hx. lia.
  - apply (proj1 (Forall_fmap _ _ _)) in H2. eapply Forall_impl; [exact H2|]. cbn. unfold time_le. intros x Hx. lia.
Qed.

Lemma chat_step_ok c e : chat_ok c -> chat_ok (chat_step c e) /\ ch_message_keys c ⊆ ch_message_keys (chat_step c e).
Proof.
  intros Hok. pose proof Hok as [Hs He Hd]. destruct e as [l a pl t|id entry|id|o w p]; cbn [chat_step].
  - unfold queue_pending_message. cbn [fst]. split; [|done].
    set (m := {| ce_sender_leaf := Some l |}). assert (chat_ok (with_messages c (ch_messages c ++ [m]) (ch_message_keys c))) as [H1 H2 H3].
    { apply with_messages_ok; [|done]. eapply entries_perm; [apply Permutation_cons_append|]. by apply entries_hidden. }
    by split.
  - unfold confirm_pending_message. destruct (decide (message_key (as_sent entry) ∈ ch_message_keys c)) as [Hk|Hk].
    { split; [|done]. apply with_messages_ok; [|done]. by apply entries_drop_pending. }
    split; [|cbn; set_solver]. apply with_messages_ok; [|done].
    destruct (pending_at (ch_messages c) id) as [[i old]|] eqn:Ep; [|by apply (entries_snoc _ _ (as_sent entry))].
    destruct (entries_replace _ _ _ _ _ (as_sent entry) He Ep) as (rest & Hr & Hp).
    apply (entries_perm (rest ++ [as_sent entry])); [rewrite Hp; symmetry; apply Permutation_cons_append|]. by apply (entries_snoc _ _ (as_sent entry)).
  - unfold mark_pending_message_failed. destruct (pending_at (ch_messages c) id) as [[i m]|] eqn:Ep; [|done]. split; [|done]. split; cbn; [| |done].
    + apply sorted_times. rewrite list_fmap_insert. apply pending_at_some in Ep as [Hi _]. rewrite list_insert_id; [by apply sorted_times|].
      rewrite list_lookup_fmap, Hi. done.
    + destruct (entries_replace _ _ _ _ _ (as_failed m) He Ep) as (rest & Hr & Hp). apply (entries_perm (as_failed m :: rest)); [by symmetry|].
      apply entries_hidden; [done|]. split; [done|]. by intros [? ?].
  - unfold handle_fetch_result. destruct (ch_session c) as [s|] eqn:Es; [|done]. destruct o as [o|]; [|done]. destruct (negb _); [done|]. cbv zeta.
    destruct (decide (progress _ = progress s)); [by apply show_messages_ok|]. destruct p; [|done].
    apply (show_messages_ok (set_session c (updated_session s o) (Some (progress (updated_session s o))))). split; cbn; [done|done|congruence].
Qed.

Lemma confirm_key c id e : message_key e ∈ ch_message_keys (confirm_pending_message c id e).
Proof.
  unfold confirm_pending_message. change (message_key (as_sent e)) with (message_key e).
  destruct (decide (message_key e ∈ ch_message_keys c)); cbn; [done|set_solver].
Qed.

Lemma chat_run_ok c events : chat_ok c ->
  chat_ok (foldl chat_step c events) /\ ch_message_keys c ⊆ ch_message_keys (foldl chat_step c events)
  /\ forall id e, Confirm id e ∈ events -> message_key e ∈ ch_message_keys (foldl chat_step c events).
Proof.
  revert c. induction events as [|ev events IH]; intros c Hok; [split_and!; [done|done|by intros ?? ?%not_elem_of_nil]|].
  destruct (chat_step_ok c ev Hok) as [H1 H2]. destruct (IH _ H1) as (H3 & H4 & H5). split; [done|]. split; [set_solver|].
  intros id e [He|He]%elem_of_cons; [|by eapply H5]. apply H4. rewrite <- He. apply confirm_key.
Qed.

Lemma shown_once ms keys k : entries_ok ms keys -> k ∈ keys -> length (filter (fun m => message_key m = k) (shown ms)) = 1%nat.
Proof.
  intros [_ H2 H3] Hk%H3. revert H2 Hk. generalize (shown ms). clear. induction l as [|m l IH]; cbn [fmap list_fmap]; [by intros _ ?%not_elem_of_nil|].
  intros [Hn Hnd]%NoDup_cons Hk. rewrite filter_cons. destruct (decide (message_key m = k)) as [<-|Hne].
  - cbn. f_equal. rewrite filter_drop_all; [done|]. apply Forall_forall. intros x Hx Heq. apply Hn. apply list_elem_of_fmap. by exists x.
  - apply elem_of_cons in Hk as [?|Hk]; [congruence|]. by apply IH.
Qed.


(** ** Witness *)

Definition sample_session : Session := {| ss_we_epoch_id := [7]; ss_msg_replay_state := default_replay; ss_last_fetch_timestamp_ms := None |}.

Definition sample_chat : Chat := {|
  ch_session := Some sample_session; ch_messages := []; ch_message_keys := ∅; ch_next_pending_message_id := 0;
  ch_disk := Some (progress sample_session) |}.

Definition sample_entry : ChatMessageEntry := {|
  ce_sender_leaf := Some [1]; ce_fallback_label := "me"; ce_plaintext := [104]; ce_ciphertext_hex := "ab"; ce_timestamp_ms := 5;
  ce_delivery := Sent; ce_pending_id := None |}.

(** A message is queued, a fetch returns it, and then its send is confirmed. *)
Definition sample_events : list ChatEvent := [
  Queue [1] "me" [104] 4;
  Fetched (Some {| fo_messages := [sample_entry]; fo_last_timestamp_ms := Some 5; fo_msg_replay_state := default_replay |}) [7] true;
  Confirm 0 sample_entry].

