(* ===== verification/Srx.v ===== *)
(** * The revocation payload of a merge

    Models the SRX part of [crates/msphf-orchestrator/src/accept/mod.rs]
    ([parse_srx_payload] with its field parsers, [srx_contains_leaf_id]) and
    [ensure_srx_relations] of [accept/stages.rs].  The Merkle checks it calls are
    those of the file [Merkle]; the Smallwood proof system, serde's decoding of
    a membership witness and ciborium's decoder are the class [SrxProofs]. *)

From S2P Require Import Prelude Hash Errors Header Merkle Window AnchorSeed.

Definition MIN_SRX_MAX_BYTES : Z := 262144.

Record SrxPayload := {
  join_nonmem_parent : list AnchoredNonMembership;
  join_nonmem_revoked_since : list AnchoredNonMembership;
  revoked_since_mem_in_revoked : list RawMembershipWitness;
  join_leaf_ids : list bytes;
  join_frontier : option (list bytes);
  since_leaf_ids : list bytes;
  since_frontier : option (list bytes);
  anchor_mem_pool : list RawMembershipWitness
}.

(** [srx_smallwood::Inputs] *)
Record SmallwoodInputs := {
  shadow_root_before : bytes;
  shadow_root_after : bytes;
  sw_parent_root : bytes;
  sw_join_root : bytes;
  sw_revoked_since_root : bytes;
  sw_revoked_root : bytes;
  srx_commit : bytes;
  srx_payload_digest : bytes;
  srx_bridge_ctx : bytes;
  sw_proof_mode : string;
  sw_fs_policy_version : Z;
  sw_vrf_id : string
}.

Class SrxProofs := {
  (** [ciborium::de::from_reader] at [Value] *)
  decode_value : bytes -> option Value;
  (** [deserialize_value::<RawMembershipWitness>] *)
  decode_membership : Value -> option RawMembershipWitness;
  (** whether [srx_smallwood::Proof::from_bytes] succeeds *)
  smallwood_decodes : bytes -> bool;
  (** [srx_smallwood::verify] *)
  smallwood_verify : SmallwoodInputs -> bytes -> result AcceptanceError unit
}.

(** What [ensure_proofs] extracts from a header. *)
Record ProofArtifacts := {
  pa_commit : bytes;
  pa_vrf_pi : bytes;
  pa_fs_capss : bytes;
  pa_srx_root_sw : option bytes;
  pa_srx_smallwood : option bytes;
  pa_proof_mode : string;
  pa_vrf_id : string;
  pa_mask_a : bytes;
  pa_mask_b : bytes;
  pa_fs_policy_version : Z;
  pa_vrf_public : bytes
}.

(** ** Parsing *)

Definition srx_invalid {A} : result AcceptanceError A := afreeze FREEZE_SRX_INVALID.

Definition integer_to_u64 (int : Z) : result AcceptanceError Z := freeze_on (u64_try_from int) FREEZE_SRX_INVALID.

Definition value_array (v : Value) : result AcceptanceError (list Value) :=
  match v with VArray l => Ok l | _ => srx_invalid end.

Definition value_map (v : Value) : result AcceptanceError (list (Value * Value)) :=
  match v with VMap l => Ok l | _ => srx_invalid end.

Definition value_u64 (v : Value) : result AcceptanceError Z :=
  match v with VInteger int => integer_to_u64 int | _ => srx_invalid end.

Definition nullable {A} (parse : Value -> result AcceptanceError A) (v : Value) : result AcceptanceError (option A) :=
  match v with VNull => Ok None | _ => Some <$> parse v end.

Definition path_field (acc : option bytes * option Z) (kv : Value * Value) : result AcceptanceError (option bytes * option Z) :=
  idx ← value_u64 kv.1;
  if idx =? 1 then sibling ← value_bytes32 kv.2 FREEZE_SRX_INVALID; Ok (Some sibling, acc.2)
  else if idx =? 2 then
    value ← value_u64 kv.2; afreeze_if (1 <? value) FREEZE_SRX_INVALID ;; Ok (acc.1, Some value)
  else srx_invalid.

Definition parse_path_entry (entry : Value) : result AcceptanceError RawPathEntry :=
  map ← value_map entry;
  fields ← fold_res path_field (None, None) map;
  sibling ← freeze_on fields.1 FREEZE_SRX_INVALID;
  dir ← freeze_on fields.2 FREEZE_SRX_INVALID;
  Ok {| sibling := sibling; dir := dir |}.

Definition parse_path_entries (value : Value) : result AcceptanceError (list RawPathEntry) :=
  entries ← value_array value; map_res parse_path_entry entries.

(** The variables of [parse_nonmem_anchor]. *)
Record NonMemFields := {
  f_query : option bytes;
  f_root : option bytes;
  f_left : option bytes;
  f_right : option bytes;
  f_path : option (list RawPathEntry);
  f_left_ref : option Z;
  f_right_ref : option Z;
  f_left_below : list RawPathEntry;
  f_right_below : list RawPathEntry;
  f_above : list RawPathEntry;
  f_nmint : option bytes;
  f_lca_left : option Z;
  f_lca_right : option Z
}.

Definition no_fields : NonMemFields :=
  {| f_query := None; f_root := None; f_left := None; f_right := None; f_path := None; f_left_ref := None;
     f_right_ref := None; f_left_below := []; f_right_below := []; f_above := []; f_nmint := None; f_lca_left := None;
     f_lca_right := None |}.

Definition srx_bytes32 (v : Value) : result AcceptanceError bytes := value_bytes32 v FREEZE_SRX_INVALID.

Definition height_u8 (v : Value) : result AcceptanceError Z :=
  value ← value_u64 v; afreeze_if (255 <? value) FREEZE_SRX_INVALID ;; Ok value.

(** One assignment of the loop over the map's entries. *)
Definition nonmem_field (f : NonMemFields) (kv : Value * Value) : result AcceptanceError NonMemFields :=
  let '{| f_query := q; f_root := ro; f_left := l; f_right := r; f_path := p; f_left_ref := lr; f_right_ref := rr;
          f_left_below := lb; f_right_below := rb; f_above := ab; f_nmint := nm; f_lca_left := ll; f_lca_right := rl |} := f in
  idx ← value_u64 kv.1;
  let v := kv.2 in
  match idx with
  | 1 => x ← srx_bytes32 v; Ok (Build_NonMemFields (Some x) ro l r p lr rr lb rb ab nm ll rl)
  | 2 => x ← srx_bytes32 v; Ok (Build_NonMemFields q (Some x) l r p lr rr lb rb ab nm ll rl)
  | 3 => x ← nullable srx_bytes32 v; Ok (Build_NonMemFields q ro x r p lr rr lb rb ab nm ll rl)
  | 4 => x ← nullable srx_bytes32 v; Ok (Build_NonMemFields q ro l x p lr rr lb rb ab nm ll rl)
  | 5 => x ← parse_path_entries v; Ok (Build_NonMemFields q ro l r (Some x) lr rr lb rb ab nm ll rl)
  | 6 => x ← nullable value_u64 v; Ok (Build_NonMemFields q ro l r p x rr lb rb ab nm ll rl)
  | 7 => x ← nullable value_u64 v; Ok (Build_NonMemFields q ro l r p lr x lb rb ab nm ll rl)
  | 8 => x ← parse_path_entries v; Ok (Build_NonMemFields q ro l r p lr rr x rb ab nm ll rl)
  | 9 => x ← parse_path_entries v; Ok (Build_NonMemFields q ro l r p lr rr lb x ab nm ll rl)
  | 10 => x ← parse_path_entries v; Ok (Build_NonMemFields q ro l r p lr rr lb rb x nm ll rl)
  | 11 => x ← nullable srx_bytes32 v; Ok (Build_NonMemFields q ro l r p lr rr lb rb ab x ll rl)
  | 12 => x ← nullable height_u8 v; Ok (Build_NonMemFields q ro l r p lr rr lb rb ab nm x rl)
  | 13 => x ← nullable height_u8 v; Ok (Build_NonMemFields q ro l r p lr rr lb rb ab nm ll x)
  | _ => srx_invalid
  end.

Definition parse_nonmem_anchor (value : Value) : result AcceptanceError AnchoredNonMembership :=
  entries ← value_map value;
  f ← fold_res nonmem_field no_fields entries;
  query ← freeze_on (f_query f) FREEZE_SRX_INVALID;
  root ← freeze_on (f_root f) FREEZE_SRX_INVALID;
  path ← freeze_on (f_path f) FREEZE_SRX_INVALID;
  Ok {| an_witness := {| rnw_query := query; rnw_root := root; rnw_left := f_left f; rnw_right := f_right f;
          rnw_path := path; rnw_left_below := f_left_below f; rnw_right_below := f_right_below f; rnw_above := f_above f;
          rnw_nmint := f_nmint f; rnw_lca_left_height := f_lca_left f; rnw_lca_right_height := f_lca_right f |};
        an_left_ref := f_left_ref f; an_right_ref := f_right_ref f |}.

Definition parse_nonmem_anchor_list (value : Value) : result AcceptanceError (list AnchoredNonMembership) :=
  entries ← value_array value; map_res parse_nonmem_anchor entries.

Definition parse_leaf_array (value : Value) : result AcceptanceError (list bytes) :=
  entries ← value_array value; map_res srx_bytes32 entries.

Definition parse_optional_frontier (value : Value) : result AcceptanceError (option (list bytes)) :=
  nullable parse_leaf_array value.

Section Srx.
  Context {HS : Hashing} {MH : MerkleHash} {SP : SrxProofs}.

Definition parse_mem_list (value : Value) : result AcceptanceError (list RawMembershipWitness) :=
  entries ← value_array value; map_res (fun v => freeze_on (decode_membership v) FREEZE_SRX_INVALID) entries.

Definition parse_srx_payload (value : Value) : result AcceptanceError SrxPayload :=
  match value with
  | VArray [v0; v1; v2; v3; v4; v5; v6; v7; v8] =>
      join_parent ← parse_nonmem_anchor_list v0;
      join_revoked ← parse_nonmem_anchor_list v1;
      subset ← parse_mem_list v2;
      match v3 with VNull | VMap _ => Ok tt | _ => srx_invalid end ;;
      join_leaf_ids ← parse_leaf_array v4;
      join_frontier ← parse_optional_frontier v5;
      since_leaf_ids ← parse_leaf_array v6;
      since_frontier ← parse_optional_frontier v7;
      anchor_mem_pool ← parse_mem_list v8;
      Ok {| join_nonmem_parent := join_parent; join_nonmem_revoked_since := join_revoked;
            revoked_since_mem_in_revoked := subset; join_leaf_ids := join_leaf_ids; join_frontier := join_frontier;
            since_leaf_ids := since_leaf_ids; since_frontier := since_frontier; anchor_mem_pool := anchor_mem_pool |}
  | _ => srx_invalid
  end.

Definition srx_contains_leaf_id (hdr : header) (leaf_id : bytes) : result AcceptanceError (option bool) :=
  match hdr !! HDR_SRX_PAYLOAD with
  | None => Ok None
  | Some payload =>
      value ← match payload with
              | VBytes b => freeze_on (decode_value b) FREEZE_SRX_INVALID
              | VArray _ => Ok payload
              | _ => srx_invalid
              end;
      parsed ← parse_srx_payload value;
      Ok (Some (existsb (bytes_eqb leaf_id) (join_leaf_ids parsed)))
  end.

(** ** Key presence *)

Definition srx_only_presence (hdr : header) : list bool := contains_key hdr <$> SRX_ONLY_KEYS.

Definition has_legacy_srx_keys (hdr : header) : bool := existsb (contains_key hdr) LEGACY_SRX_KEYS.

Definition ensure_join_srx_keys_absent (hdr : header) : result AcceptanceError unit :=
  afreeze_if (existsb id (srx_only_presence hdr) || has_legacy_srx_keys hdr) FREEZE_SRX_INVALID.

Definition ensure_merge_srx_keys (hdr : header) (required : bool) : result AcceptanceError unit :=
  afreeze_if (has_legacy_srx_keys hdr) FREEZE_SRX_INVALID ;;
  let present_count := len (filter (fun b => b = true) (srx_only_presence hdr)) in
  if required then afreeze_if (negb (present_count =? 4)) FREEZE_SRX_REQUIRED
  else afreeze_if (negb (present_count =? 0)) FREEZE_SRX_INVALID.

(** ** The relations *)

Definition payload_digest (payload : bytes) : result string bytes := h_l "srx/payload/digest" (VBytes payload).

Definition compute_bridge_ctx (parent_root join_root revoked_since_root revoked_root srx_commit srx_payload_digest srx_root_sw
  : bytes) : result string bytes :=
  h_l "srx/bridge/v1"
    (VStruct [("parent_root", VBytes parent_root); ("join_root", VBytes join_root);
      ("revoked_since_root", VBytes revoked_since_root); ("revoked_root", VBytes revoked_root);
      ("srx_commit", VBytes srx_commit); ("srx_payload_digest", VBytes srx_payload_digest);
      ("srx_root_sw", VBytes srx_root_sw)]).

(** A set root computed from listed leaves equals the root of the header. *)
Definition check_set_root (leaves : list bytes) (root : bytes) : result AcceptanceError unit :=
  computed ← map_err (fun _ => AFreeze FREEZE_SRX_INVALID) (canonical_set_root leaves);
  afreeze_if (negb (len computed =? 32)) FREEZE_SRX_INVALID ;;
  afreeze_if (negb (bytes_eqb computed root)) FREEZE_SRX_INVALID.

Definition check_frontier (leaves : list bytes) (frontier : option (list bytes)) : result AcceptanceError unit :=
  match frontier with
  | None => Ok tt
  | Some frontier =>
      expected ← map_err (fun _ => AFreeze FREEZE_SRX_INVALID) (canonical_frontier leaves);
      afreeze_if (negb (bool_decide (expected = frontier))) FREEZE_SRX_FRONTIER_MISMATCH
  end.

(** The payload of the header, checked against its commitment and parsed. *)
Definition open_payload (hdr : header) (max_bytes : Z) : result AcceptanceError (bytes * bytes * SrxPayload) :=
  commit ← header_bytes32_or_freeze hdr HDR_SRX_COMMIT FREEZE_SRX_INVALID;
  payload ← freeze_on (get_bytes hdr HDR_SRX_PAYLOAD) FREEZE_SRX_INVALID;
  afreeze_if (max_bytes <? len payload) FREEZE_SRX_INVALID ;;
  recomputed ← acc_hash (h_l "srx/commit" (VBytes payload));
  afreeze_if (negb (bytes_eqb recomputed commit)) FREEZE_SRX_COMMIT_MISMATCH ;;
  value ← freeze_on (decode_value payload) FREEZE_SRX_INVALID;
  srx ← parse_srx_payload value;
  afreeze_if (max_bytes <? len payload) FREEZE_SRX_OVERSIZE_HINT ;;
  Ok (commit, payload, srx).

(** The set relations of a payload: the listed leaves have the announced roots, the joiners are
    outside the parent and the revoked sets, the newly revoked are inside the revoked set. *)
Definition check_sets (srx : SrxPayload) (parent_root join_delta_root revoked_since_root revoked_root : bytes)
  : result AcceptanceError unit :=
  validate_anchor_pool (anchor_mem_pool srx) ;;
  check_set_root (join_leaf_ids srx) join_delta_root ;;
  check_set_root (since_leaf_ids srx) revoked_since_root ;;
  check_frontier (join_leaf_ids srx) (join_frontier srx) ;;
  check_frontier (since_leaf_ids srx) (since_frontier srx) ;;
  validated_parent ← validate_anchored_nonmem_array (join_nonmem_parent srx) (anchor_mem_pool srx) parent_root
    FREEZE_SRX_SET_CONFLICT_PARENT;
  ensure_nonmem_coverage (join_leaf_ids srx) validated_parent ;;
  validated_since ← validate_anchored_nonmem_array (join_nonmem_revoked_since srx) (anchor_mem_pool srx) revoked_since_root
    FREEZE_SRX_SET_CONFLICT_REVOKE;
  ensure_nonmem_coverage (join_leaf_ids srx) validated_since ;;
  validated_subset ← validate_membership_array (revoked_since_mem_in_revoked srx) revoked_root;
  ensure_mem_coverage (since_leaf_ids srx) validated_subset.

(** The zero-knowledge part; [join_root] is the recomputed root, equal to the header's. *)
Definition check_smallwood (commit payload parent_root join_root revoked_since_root revoked_root root_before : bytes)
  (proofs : ProofArtifacts) : result AcceptanceError unit :=
  root_sw ← freeze_on (pa_srx_root_sw proofs) FREEZE_SRX_SMALLWOOD_INVALID;
  proof ← freeze_on (pa_srx_smallwood proofs) FREEZE_SRX_SMALLWOOD_INVALID;
  digest ← acc_hash (payload_digest payload);
  bridge_ctx ← acc_hash (compute_bridge_ctx parent_root join_root revoked_since_root revoked_root commit digest root_sw);
  afreeze_if (negb (smallwood_decodes proof)) FREEZE_SRX_SMALLWOOD_INVALID ;;
  smallwood_verify
    {| shadow_root_before := root_before; shadow_root_after := root_sw; sw_parent_root := parent_root;
       sw_join_root := join_root; sw_revoked_since_root := revoked_since_root; sw_revoked_root := revoked_root;
       srx_commit := commit; srx_payload_digest := digest; srx_bridge_ctx := bridge_ctx;
       sw_proof_mode := pa_proof_mode proofs; sw_fs_policy_version := pa_fs_policy_version proofs;
       sw_vrf_id := pa_vrf_id proofs |} proof.

Context {HpProof : Type}.

(** [ensure_srx_relations] on the verification cache, which it prunes, consults and fills. *)
Definition ensure_srx_relations (hdr : header) (parent_root join_delta_root revoked_since_root revoked_root : bytes)
  (require : bool) (srx_max_bytes : Z) (xk_hash seed_commit rho_commit hp_commit : bytes) (now : Z)
  (cache : VckCache HpProof) (proofs : ProofArtifacts) (srx_root_sw_before : bytes)
  : VckCache HpProof * result AcceptanceError unit :=
  let max_bytes := Z.max srx_max_bytes MIN_SRX_MAX_BYTES in
  match ensure_merge_srx_keys hdr require with
  | Err e => (cache, Err e)
  | Ok _ =>
    if negb require then (cache, Ok tt) else
    match r ← open_payload hdr max_bytes; key ← compute_vck_key xk_hash seed_commit rho_commit hp_commit hdr; Ok (r, key) with
    | Err e => (cache, Err e)
    | Ok (commit, payload, srx, key) =>
        let counts := (len (join_leaf_ids srx), len (since_leaf_ids srx), len (anchor_mem_pool srx)) in
        match try_skip_srx cache key counts.1.1 counts.1.2 counts.2 (len payload) (len payload) now with
        | (cache, Err e) => (cache, Err e)
        | (cache, Ok true) => (cache, Ok tt)
        | (cache, Ok false) =>
            match check_sets srx parent_root join_delta_root revoked_since_root revoked_root ;;
                  check_smallwood commit payload parent_root join_delta_root revoked_since_root revoked_root
                    srx_root_sw_before proofs with
            | Err e => (cache, Err e)
            | Ok _ => (record_srx cache key counts.1.1 counts.1.2 counts.2 (len payload) now, Ok tt)
            end
        end
    end
  end.

End Srx.
