(* ===== verification/Accept.v ===== *)
(** * Acceptance of anchors

    Models the acceptance context of [crates/msphf-orchestrator/src/accept]:
    its state ([accept/state.rs], [accept/telemetry.rs] and the struct
    [AcceptanceContext] of [accept/mod.rs]), the stages of [accept/stages.rs],
    the barrier gate and commit, the join path ([accept/join.rs]), the merge path
    ([accept/merge.rs]) and [accept_anchor], which composes them.  The Rust
    methods mutate the context and may return early, leaving what they changed:
    a method is here a function of the context that returns the context it
    leaves and a result, in the monad [acc].  Signatures and proof systems are
    the class [AnchorProofs], on which nothing is assumed. *)

From S2P Require Import Prelude Hash Errors Merkle BarrierWire Window Header AnchorSeed Srx.

(** ** Constants *)

Definition MAX_HP_PROOF_BYTES : Z := 524288.
Definition MAX_VRF_PROOF_BYTES : Z := 8192.
Definition RHO_GUARD_CAPACITY : Z := 64.
Definition DEFAULT_SRX_MAX_BYTES : Z := 1048576.
Definition FS_CAPSS_MAX_BYTES : Z := 16384.
Definition SRX_SMALLWOOD_MAX_BYTES : Z := 16384.
Definition DEFAULT_SRX_SMALLWOOD_PROFILE : string := "smallwood-v1/anemoi-jive-a1".
Definition MAX_HP_BYTES : Z := 16384.
Definition AEAD_TAG_LEN : Z := 16.
Definition HP_MAX_CIPHERTEXT_BYTES : Z := MAX_HP_BYTES + AEAD_TAG_LEN.
Definition MERKLE_DS_ID : string := "rpo-256/v2".
Definition TSWE_ALG_CODE : Z := 31.
Definition TSWE_ALG_LABEL : string := "tswe/msphf-we/fs-hybrid".
Definition BARRIER_HP_MODE : string := "barrier-sealed-v1".
Definition BARRIER_HP_CONTEXT_AUTHOR_LOCAL : string := "author-local".
Definition BARRIER_HP_CONTEXT_BARRIER_RECOVERY : string := "barrier-recovery".
Definition KBROAD_ML_KEM_ALG : string := "ml-kem-768".
Definition HP_AEAD_SUITE : string := "chacha20-poly1305".
Definition DEFAULT_PROOF_MODE : string := "lin+zkvrf".
Definition DEFAULT_VRF_ID : string := "lb-vrf/v1".
Definition DEFAULT_POLICY_VERSION : string := "0".
Definition BASE_PROFILE_VERSION : string := "v0.1.4".
Definition ML_DSA_65_PUBLIC_KEY_BYTES : Z := 2592.
Definition ML_DSA_65_SIGNATURE_BYTES : Z := 4627.
Definition ML_KEM_PUBLIC_KEY_BYTES : Z := 1184.

(** ** Policy-derived state (accept/state.rs) *)

Record DeviceChainState := { last_commit : option bytes; last_ec : Z; dc_last_pcs_refresh_ec : option Z }.

Definition default_chain : DeviceChainState := {| last_commit := None; last_ec := 0; dc_last_pcs_refresh_ec := None |}.

Record BarrierGroupState := {
  barrier_initialized : bool;
  barrier_version : Z;
  barrier_roots_hash : bytes;
  kem_tree_hash_after : bytes;
  last_checkpoint_ec : Z;
  last_accepted_ec : Z;
  group_srx_root : option bytes;
  n_max : Z;
  max_barrier_update_bytes : Z;
  last_pcs_refresh_ec : option Z;
  pcs_refresh_min_delta_device_ec : Z;
  pcs_refresh_min_delta_group_ec : Z;
  pcs_refresh_slot_width_ec : Z
}.

Definition default_group : BarrierGroupState :=
  {| barrier_initialized := false; barrier_version := 0; barrier_roots_hash := zero32; kem_tree_hash_after := zero32;
     last_checkpoint_ec := 0; last_accepted_ec := 0; group_srx_root := None; n_max := 1024;
     max_barrier_update_bytes := 1048576; last_pcs_refresh_ec := None; pcs_refresh_min_delta_device_ec := 1;
     pcs_refresh_min_delta_group_ec := 1; pcs_refresh_slot_width_ec := 1 |}.

Record FsCaps := { window_periods : Z; anchor_max : Z; first_device : Z; device_max : Z }.

Definition zero_caps : FsCaps := {| window_periods := 0; anchor_max := 0; first_device := 0; device_max := 0 |}.

Record FsPolicyConfig := {
  h : Z;
  fc_checkpoint_interval : Z;
  fc_checkpoint_head_threshold : Z;
  slack_anchor : Z;
  slack_first_device : Z;
  slack_device : Z
}.

Definition default_fs_policy : FsPolicyConfig :=
  {| h := 300; fc_checkpoint_interval := 3600; fc_checkpoint_head_threshold := 24; slack_anchor := 0;
     slack_first_device := 0; slack_device := 4 |}.

Definition synthesize_caps (f : FsPolicyConfig) : result FreezeError FsCaps :=
  fail_if ((h f =? 0) || (fc_checkpoint_interval f =? 0)) FREEZE_FS_POLICY_WINDOW_INCOMPATIBLE ;;
  fail_if (fc_checkpoint_interval f <? h f) FREEZE_FS_POLICY_WINDOW_INCOMPATIBLE ;;
  let window_periods := div_ceil (fc_checkpoint_interval f) (h f) in
  fail_if (window_periods =? 0) FREEZE_FS_POLICY_WINDOW_INCOMPATIBLE ;;
  anchor_max ← ok_or (checked_add window_periods (slack_anchor f)) FREEZE_FS_POLICY_WINDOW_INCOMPATIBLE;
  first_device ← ok_or (checked_add window_periods (slack_first_device f)) FREEZE_FS_POLICY_WINDOW_INCOMPATIBLE;
  device_max ← ok_or (checked_add window_periods (slack_device f)) FREEZE_FS_POLICY_WINDOW_INCOMPATIBLE;
  Ok {| window_periods := window_periods; anchor_max := anchor_max; first_device := first_device;
        device_max := device_max |}.

(** ** Telemetry *)

(** Addition on [u64] as the release profile compiles it. *)
Definition wrapping_add (a b : Z) : Z := (a + b) mod (U64_MAX + 1).

Record TelemetryCounters := {
  head_attempts : Z;
  head_insertions : Z;
  freeze_rho_replay : Z;
  freeze_window_full : Z;
  last_active_heads : Z
}.

Definition no_counters : TelemetryCounters :=
  {| head_attempts := 0; head_insertions := 0; freeze_rho_replay := 0; freeze_window_full := 0; last_active_heads := 0 |}.

Definition record_attempt (t : TelemetryCounters) : TelemetryCounters :=
  {| head_attempts := wrapping_add (head_attempts t) 1; head_insertions := head_insertions t;
     freeze_rho_replay := freeze_rho_replay t; freeze_window_full := freeze_window_full t;
     last_active_heads := last_active_heads t |}.

Definition record_success (active_heads : Z) (t : TelemetryCounters) : TelemetryCounters :=
  {| head_attempts := head_attempts t; head_insertions := wrapping_add (head_insertions t) 1;
     freeze_rho_replay := freeze_rho_replay t; freeze_window_full := freeze_window_full t;
     last_active_heads := active_heads |}.

Definition record_rho_freeze (t : TelemetryCounters) : TelemetryCounters :=
  {| head_attempts := head_attempts t; head_insertions := head_insertions t;
     freeze_rho_replay := wrapping_add (freeze_rho_replay t) 1; freeze_window_full := freeze_window_full t;
     last_active_heads := last_active_heads t |}.

Definition record_window_full (t : TelemetryCounters) : TelemetryCounters :=
  {| head_attempts := head_attempts t; head_insertions := head_insertions t; freeze_rho_replay := freeze_rho_replay t;
     freeze_window_full := wrapping_add (freeze_window_full t) 1; last_active_heads := last_active_heads t |}.

(** ** Proof systems *)

(** [capss::Inputs] with its [BindingInputs] *)
Record CapssInputs := {
  ci_seed_commit : bytes;
  ci_seed_bundle_commit : bytes;
  ci_rho_commit : bytes;
  ci_hp_commit : bytes;
  ci_xk_hash : bytes;
  ci_crs_id : string;
  ci_params_id : string;
  ci_proof_mode : string;
  ci_fs_policy_version : Z;
  ci_vrf_id : string;
  ci_parts : AnchorInstanceParts;
  ci_fs_epoch_commit : bytes;
  ci_fs_ec : Z;
  ci_fs_dev_prev_commit : bytes;
  ci_fs_dev_commit : bytes
}.

(** [CapssStrictInputs] *)
Record StrictInputs := {
  si_crs_id : string;
  si_params_id : string;
  si_seed_commit : bytes;
  si_seed_ctx_hash : bytes;
  si_xk_hash : bytes;
  si_rho_commit : bytes;
  si_pop_alg : string;
  si_pop_pk : bytes;
  si_anchor : AnchorInstance;
  si_leaf_id : bytes;
  si_pop_sig : bytes
}.

Record VrfCtx := {
  vx_xk_hash : bytes;
  vx_rho_commit : bytes;
  vx_seed_bundle_commit : bytes;
  vx_crs_id : string;
  vx_hp_commit : bytes;
  vx_params_id : string;
  vx_parts : AnchorInstanceParts;
  vx_proof_mode : string;
  vx_profile_version : string;
  vx_fs_policy_version : Z;
  vx_vrf_id : string;
  vx_fs_epoch_commit : bytes;
  vx_fs_ec : Z;
  vx_fs_dev_prev_commit : bytes;
  vx_fs_dev_commit : bytes;
  vx_srx_root_sw : option bytes;
  vx_we_epoch_id : bytes
}.

Class AnchorProofs := {
  (** [CapssWitnessBundle] *)
  CapssWitness : Type;
  capss_witness_eqb : CapssWitness -> CapssWitness -> bool;
  (** [hp_binding::HpProof] *)
  HpProof : Type;
  (** [verify_ml_dsa_65_detached_signature public_key message signature] *)
  verify_ml_dsa : bytes -> bytes -> bytes -> bool;
  (** [capss::Proof::from_bytes] *)
  capss_from_bytes : bytes -> result AcceptanceError unit;
  (** [capss::verify] *)
  capss_verify : CapssInputs -> bytes -> result AcceptanceError unit;
  (** [recompute_capss_witness] *)
  recompute_capss_witness : StrictInputs -> result MsphfError CapssWitness;
  (** [zk_vrf_impl::verify_result public context masks proof] *)
  vrf_verify : bytes -> VrfCtx -> bytes * bytes -> bytes -> result MsphfError bool
}.

(** ** The context *)

Inductive BootstrapPolicy := Disabled | CaMlDsa (public_key : bytes).

(** The settings [AcceptanceOptions] and [AcceptanceContext] have in common. *)
Record SuitePolicy := {
  bootstrap_policy : BootstrapPolicy;
  srx_max_bytes : Z;
  srx_required : bool;
  allowed_crs_ids : option (gset string);
  allowed_params_ids : option (gset bytes);
  deprecated_crs_ids : gset string;
  deprecated_params_ids : gset bytes;
  allowed_vrf_ids : option (gset string);
  deprecated_vrf_ids : gset string;
  allowed_proof_modes : option (gset string);
  deprecated_proof_modes : gset string;
  allowed_srx_modes : option (gset string);
  deprecated_srx_modes : gset string;
  leaf_id_mode : LeafIdMode;
  kbroad_registry : option (gmap bytes bytes)
}.

Record AcceptanceOptions := { ao_suites : SuitePolicy; fs_policy_config : FsPolicyConfig; rho_guard_capacity : Z }.

Definition default_suites : SuitePolicy :=
  {| bootstrap_policy := Disabled; srx_max_bytes := DEFAULT_SRX_MAX_BYTES; srx_required := true; allowed_crs_ids := None;
     allowed_params_ids := None; deprecated_crs_ids := ∅; deprecated_params_ids := ∅;
     allowed_vrf_ids := Some {["lb-vrf/v1"]}; deprecated_vrf_ids := ∅; allowed_proof_modes := Some {["lin+zkvrf"]};
     deprecated_proof_modes := ∅; allowed_srx_modes := Some {["srx/v1-complete"]}; deprecated_srx_modes := ∅;
     leaf_id_mode := PerGroup; kbroad_registry := None |}.

Definition default_options : AcceptanceOptions :=
  {| ao_suites := default_suites; fs_policy_config := default_fs_policy; rho_guard_capacity := RHO_GUARD_CAPACITY |}.

(** What the context reads of the forward secrecy policy and of the SRX migration. *)
Record FsPolicy := {
  fs_caps : FsCaps;
  fs_period : Z;
  checkpoint_interval : Z;
  checkpoint_head_threshold : Z;
  allowed_fs_policy_version : option string;
  srx_empty_root_sw : bytes;
  srx_migration_root_sw : option bytes;
  policy_version : string;
  policy_timestamp : option Z
}.

Inductive OutcomeKind := KNonMerge | KMerge (retired_heads : list bytes).

Record AcceptanceOutcome := {
  o_kind : OutcomeKind;
  o_we_epoch_id : bytes;
  o_wid : bytes;
  o_seed_ctx_hash : bytes;
  o_seed_commit : bytes;
  o_rho_commit : bytes;
  o_hp_commit : bytes;
  o_xk_hash : bytes;
  o_accept_seq : Z;
  o_accept_time : Z;
  o_mh_note : option string;
  o_fs_epoch_commit : option bytes;
  o_fs_ec : option Z;
  o_fs_dev_commit : option bytes
}.

Record BarrierGateDecision := {
  gd_barrier_version : Z;
  gd_fs_ec : Z;
  gd_revocation_roots_hash : bytes;
  gd_barrier_update_digest : bytes;
  gd_barrier_update_reason : option Z;
  gd_parsed_barrier_update : option AcceptParsedBarrierUpdate
}.

Record DeviceChainVerification := {
  dv_pop_pk : bytes;
  dv_fs_ec : Z;
  dv_fs_dev_prev_commit : bytes;
  dv_fs_dev_commit : bytes;
  dv_barrier_version : Z;
  dv_barrier_update_digest : bytes
}.

Section Context.
  Context {AP : AnchorProofs}.

(** [AcceptanceContext]; the settings that acceptance only reads are grouped in [suites] and [fs]. *)
Record AcceptanceContext := {
  suites : SuitePolicy;
  fs : FsPolicy;
  mh_window : MultiHeadWindow;
  rho_guard : RhoReplayGuard;
  vck_cache : VckCache HpProof;
  pivot_store : PivotParityStore;
  next_accept_seq : Z;
  pending_capss_witness : option CapssWitness;
  telemetry : gmap (bytes * bytes) TelemetryCounters;
  device_chains : gmap bytes (gmap bytes DeviceChainState);
  barrier_groups : gmap bytes BarrierGroupState;
  srx_root_sw : option bytes;
  fs_base_ts : option Z;
  fs_policy_version : option string;
  clock : Time.AcceptClock
}.

(** One field changed. *)
Definition with_suites (v : SuitePolicy) (c : AcceptanceContext) : AcceptanceContext :=
  Build_AcceptanceContext v (fs c) (mh_window c) (rho_guard c) (vck_cache c) (pivot_store c) (next_accept_seq c) (pending_capss_witness c) (telemetry c) (device_chains c) (barrier_groups c) (srx_root_sw c) (fs_base_ts c) (fs_policy_version c) (clock c).

Definition with_fs (v : FsPolicy) (c : AcceptanceContext) : AcceptanceContext :=
  Build_AcceptanceContext (suites c) v (mh_window c) (rho_guard c) (vck_cache c) (pivot_store c) (next_accept_seq c) (pending_capss_witness c) (telemetry c) (device_chains c) (barrier_groups c) (srx_root_sw c) (fs_base_ts c) (fs_policy_version c) (clock c).

Definition with_mh_window (v : MultiHeadWindow) (c : AcceptanceContext) : AcceptanceContext :=
  Build_AcceptanceContext (suites c) (fs c) v (rho_guard c) (vck_cache c) (pivot_store c) (next_accept_seq c) (pending_capss_witness c) (telemetry c) (device_chains c) (barrier_groups c) (srx_root_sw c) (fs_base_ts c) (fs_policy_version c) (clock c).

Definition with_rho_guard (v : RhoReplayGuard) (c : AcceptanceContext) : AcceptanceContext :=
  Build_AcceptanceContext (suites c) (fs c) (mh_window c) v (vck_cache c) (pivot_store c) (next_accept_seq c) (pending_capss_witness c) (telemetry c) (device_chains c) (barrier_groups c) (srx_root_sw c) (fs_base_ts c) (fs_policy_version c) (clock c).

Definition with_vck_cache (v : VckCache HpProof) (c : AcceptanceContext) : AcceptanceContext :=
  Build_AcceptanceContext (suites c) (fs c) (mh_window c) (rho_guard c) v (pivot_store c) (next_accept_seq c) (pending_capss_witness c) (telemetry c) (device_chains c) (barrier_groups c) (srx_root_sw c) (fs_base_ts c) (fs_policy_version c) (clock c).

Definition with_pivot_store (v : PivotParityStore) (c : AcceptanceContext) : AcceptanceContext :=
  Build_AcceptanceContext (suites c) (fs c) (mh_window c) (rho_guard c) (vck_cache c) v (next_accept_seq c) (pending_capss_witness c) (telemetry c) (device_chains c) (barrier_groups c) (srx_root_sw c) (fs_base_ts c) (fs_policy_version c) (clock c).

Definition with_next_accept_seq (v : Z) (c : AcceptanceContext) : AcceptanceContext :=
  Build_AcceptanceContext (suites c) (fs c) (mh_window c) (rho_guard c) (vck_cache c) (pivot_store c) v (pending_capss_witness c) (telemetry c) (device_chains c) (barrier_groups c) (srx_root_sw c) (fs_base_ts c) (fs_policy_version c) (clock c).

Definition with_pending_capss_witness (v : option CapssWitness) (c : AcceptanceContext) : AcceptanceContext :=
  Build_AcceptanceContext (suites c) (fs c) (mh_window c) (rho_guard c) (vck_cache c) (pivot_store c) (next_accept_seq c) v (telemetry c) (device_chains c) (barrier_groups c) (srx_root_sw c) (fs_base_ts c) (fs_policy_version c) (clock c).

Definition with_telemetry (v : gmap (bytes * bytes) TelemetryCounters) (c : AcceptanceContext) : AcceptanceContext :=
  Build_AcceptanceContext (suites c) (fs c) (mh_window c) (rho_guard c) (vck_cache c) (pivot_store c) (next_accept_seq c) (pending_capss_witness c) v (device_chains c) (barrier_groups c) (srx_root_sw c) (fs_base_ts c) (fs_policy_version c) (clock c).

Definition with_device_chains (v : gmap bytes (gmap bytes DeviceChainState)) (c : AcceptanceContext) : AcceptanceContext :=
  Build_AcceptanceContext (suites c) (fs c) (mh_window c) (rho_guard c) (vck_cache c) (pivot_store c) (next_accept_seq c) (pending_capss_witness c) (telemetry c) v (barrier_groups c) (srx_root_sw c) (fs_base_ts c) (fs_policy_version c) (clock c).

Definition with_barrier_groups (v : gmap bytes BarrierGroupState) (c : AcceptanceContext) : AcceptanceContext :=
  Build_AcceptanceContext (suites c) (fs c) (mh_window c) (rho_guard c) (vck_cache c) (pivot_store c) (next_accept_seq c) (pending_capss_witness c) (telemetry c) (device_chains c) v (srx_root_sw c) (fs_base_ts c) (fs_policy_version c) (clock c).

Definition with_srx_root_sw (v : option bytes) (c : AcceptanceContext) : AcceptanceContext :=
  Build_AcceptanceContext (suites c) (fs c) (mh_window c) (rho_guard c) (vck_cache c) (pivot_store c) (next_accept_seq c) (pending_capss_witness c) (telemetry c) (device_chains c) (barrier_groups c) v (fs_base_ts c) (fs_policy_version c) (clock c).

Definition with_fs_base_ts (v : option Z) (c : AcceptanceContext) : AcceptanceContext :=
  Build_AcceptanceContext (suites c) (fs c) (mh_window c) (rho_guard c) (vck_cache c) (pivot_store c) (next_accept_seq c) (pending_capss_witness c) (telemetry c) (device_chains c) (barrier_groups c) (srx_root_sw c) v (fs_policy_version c) (clock c).

Definition with_fs_policy_version (v : option string) (c : AcceptanceContext) : AcceptanceContext :=
  Build_AcceptanceContext (suites c) (fs c) (mh_window c) (rho_guard c) (vck_cache c) (pivot_store c) (next_accept_seq c) (pending_capss_witness c) (telemetry c) (device_chains c) (barrier_groups c) (srx_root_sw c) (fs_base_ts c) v (clock c).

Definition with_clock (v : Time.AcceptClock) (c : AcceptanceContext) : AcceptanceContext :=
  Build_AcceptanceContext (suites c) (fs c) (mh_window c) (rho_guard c) (vck_cache c) (pivot_store c) (next_accept_seq c) (pending_capss_witness c) (telemetry c) (device_chains c) (barrier_groups c) (srx_root_sw c) (fs_base_ts c) (fs_policy_version c) v.

End Context.

(** ** Methods of the context *)

Section Monad.
  Context {AP : AnchorProofs}.

(** A [&mut self] method: the context it leaves, with its result. *)
Definition acc (A : Type) : Type := AcceptanceContext -> AcceptanceContext * result AcceptanceError A.

#[global] Instance acc_ret : MRet acc := fun A a c => (c, Ok a).
#[global] Instance acc_bind : MBind acc := fun A B f m c =>
  match m c with (c', Ok a) => f a c' | (c', Err e) => (c', Err e) end.

(** A computation that does not touch the context, or only reads it. *)
Definition lift {A} (r : result AcceptanceError A) : acc A := fun c => (c, r).
Definition query {A} (f : AcceptanceContext -> result AcceptanceError A) : acc A := fun c => (c, f c).
Definition gets {A} (f : AcceptanceContext -> A) : acc A := fun c => (c, Ok (f c)).
Definition modify (f : AcceptanceContext -> AcceptanceContext) : acc unit := fun c => (f c, Ok tt).
Definition throw {A} (e : FreezeError) : acc A := fun c => (c, afreeze e).

End Monad.

Section Methods.
  Context {HS : Hashing} {WC : WireCodec} {MH : MerkleHash} {SP : SrxProofs} {AP : AnchorProofs}.

(** *** Group states *)

Definition barrier_group_state (c : AcceptanceContext) (gid : bytes) : option BarrierGroupState := barrier_groups c !! gid.

(** [*barrier_group_state_entry_mut(gid) = f(..)] *)
Definition update_group (gid : bytes) (f : BarrierGroupState -> BarrierGroupState) (c : AcceptanceContext) : AcceptanceContext :=
  with_barrier_groups (<[gid := f (default default_group (barrier_groups c !! gid))]> (barrier_groups c)) c.

Definition insert_barrier_group_state (gid : bytes) (state : BarrierGroupState) (c : AcceptanceContext) : AcceptanceContext :=
  with_barrier_groups (<[gid := state]> (barrier_groups c)) c.

Definition group_with_ecs (checkpoint accepted : Z) (s : BarrierGroupState) : BarrierGroupState :=
  {| barrier_initialized := barrier_initialized s; barrier_version := barrier_version s;
     barrier_roots_hash := barrier_roots_hash s; kem_tree_hash_after := kem_tree_hash_after s;
     last_checkpoint_ec := checkpoint; last_accepted_ec := accepted; group_srx_root := group_srx_root s; n_max := n_max s;
     max_barrier_update_bytes := max_barrier_update_bytes s; last_pcs_refresh_ec := last_pcs_refresh_ec s;
     pcs_refresh_min_delta_device_ec := pcs_refresh_min_delta_device_ec s;
     pcs_refresh_min_delta_group_ec := pcs_refresh_min_delta_group_ec s;
     pcs_refresh_slot_width_ec := pcs_refresh_slot_width_ec s |}.

Definition group_with_srx (root : option bytes) (s : BarrierGroupState) : BarrierGroupState :=
  {| barrier_initialized := barrier_initialized s; barrier_version := barrier_version s;
     barrier_roots_hash := barrier_roots_hash s; kem_tree_hash_after := kem_tree_hash_after s;
     last_checkpoint_ec := last_checkpoint_ec s; last_accepted_ec := last_accepted_ec s; group_srx_root := root;
     n_max := n_max s; max_barrier_update_bytes := max_barrier_update_bytes s; last_pcs_refresh_ec := last_pcs_refresh_ec s;
     pcs_refresh_min_delta_device_ec := pcs_refresh_min_delta_device_ec s;
     pcs_refresh_min_delta_group_ec := pcs_refresh_min_delta_group_ec s;
     pcs_refresh_slot_width_ec := pcs_refresh_slot_width_ec s |}.

Definition set_last_checkpoint_ec (gid : bytes) (ec : Z) (c : AcceptanceContext) : AcceptanceContext :=
  update_group gid (fun s => group_with_ecs ec (if last_accepted_ec s <? ec then ec else last_accepted_ec s) s) c.

Definition get_last_checkpoint_ec (c : AcceptanceContext) (gid : bytes) : Z :=
  match barrier_group_state c gid with Some s => last_checkpoint_ec s | None => 0 end.

Definition get_last_accepted_ec (c : AcceptanceContext) (gid : bytes) : Z :=
  match barrier_group_state c gid with Some s => last_accepted_ec s | None => 0 end.

Definition record_accepted_ec (gid : bytes) (ec : Z) (c : AcceptanceContext) : AcceptanceContext :=
  update_group gid (fun s => group_with_ecs (last_checkpoint_ec s) (if last_accepted_ec s <? ec then ec else last_accepted_ec s) s) c.

Definition set_last_accepted_ec (gid : bytes) (ec : Z) (c : AcceptanceContext) : AcceptanceContext :=
  update_group gid (fun s => group_with_ecs (last_checkpoint_ec s) ec s) c.

Definition group_srx_root_sw (c : AcceptanceContext) (gid : bytes) : option bytes :=
  match s ← barrier_group_state c gid; group_srx_root s with
  | Some root => Some root
  | None => Some (srx_empty_root_sw (fs c))
  end.

Definition ensure_group_srx_root_sw (gid : bytes) : acc bytes := fun c =>
  let fallback := default (srx_empty_root_sw (fs c)) (srx_migration_root_sw (fs c)) in
  let state := default default_group (barrier_groups c !! gid) in
  match group_srx_root state with
  | Some root => (update_group gid id c, Ok root)
  | None => (update_group gid (group_with_srx (Some fallback)) c, Ok fallback)
  end.

Definition set_group_srx_root_sw (gid : bytes) (root : option bytes) (c : AcceptanceContext) : AcceptanceContext :=
  update_group gid (group_with_srx root) c.

(** [ensure_srx_root_sw] of the whole context *)
Definition ensure_srx_root_sw : acc bytes := fun c =>
  match srx_root_sw c with
  | Some root => (c, Ok root)
  | None =>
      match srx_migration_root_sw (fs c) with
      | Some root => (with_srx_root_sw (Some root) c, Ok root)
      | None => (c, afreeze FREEZE_SUITE_FORBIDDEN)
      end
  end.

(** *** Device chains *)

Definition device_chain_get (c : AcceptanceContext) (gid device_pk : bytes) : option DeviceChainState :=
  per_gid ← device_chains c !! gid; per_gid !! device_pk.

Definition insert_device_chain_state (gid device_pk : bytes) (state : DeviceChainState) (c : AcceptanceContext) : AcceptanceContext :=
  with_device_chains (<[gid := <[device_pk := state]> (default ∅ (device_chains c !! gid))]> (device_chains c)) c.

(** [*device_chain_entry_mut(gid, device_pk) = f(..)] *)
Definition update_chain (gid device_pk : bytes) (f : DeviceChainState -> DeviceChainState) (c : AcceptanceContext) : AcceptanceContext :=
  insert_device_chain_state gid device_pk (f (default default_chain (device_chain_get c gid device_pk))) c.

Definition clear_device_chains (c : AcceptanceContext) : AcceptanceContext := with_device_chains ∅ c.

Definition clear_device_chains_for_gid (gid : bytes) (c : AcceptanceContext) : AcceptanceContext :=
  with_device_chains (delete gid (device_chains c)) c.

(** The chain moves to [commit] at [ec]. *)
Definition advance_chain (gid device_pk commit : bytes) (ec : Z) (c : AcceptanceContext) : AcceptanceContext :=
  update_chain gid device_pk
    (fun d => {| last_commit := Some commit; last_ec := ec; dc_last_pcs_refresh_ec := dc_last_pcs_refresh_ec d |}) c.

Definition verify_device_chain_state (c : AcceptanceContext) (gid : bytes) (existing : option DeviceChainState)
  (v : DeviceChainVerification) : result AcceptanceError unit :=
  let fs_ec := dv_fs_ec v in
  let group_cap := sat_add (get_last_accepted_ec c gid) (anchor_max (fs_caps (fs c))) in
  afreeze_if (group_cap <? fs_ec) FREEZE_FS_FORWARD_JUMP_GROUP ;;
  expected_prev_commit ←
    match existing with
    | Some state =>
        afreeze_if (fs_ec <? last_ec state) FREEZE_FS_DEV_CHAIN_BREAK ;;
        afreeze_if (sat_add (last_ec state) (device_max (fs_caps (fs c))) <? fs_ec) FREEZE_FS_FORWARD_JUMP_DEVICE ;;
        Ok (default zero32 (last_commit state))
    | None =>
        afreeze_if (negb (is_all_zero (dv_fs_dev_prev_commit v))) FREEZE_FS_DEV_CHAIN_BREAK ;;
        afreeze_if (sat_add (get_last_accepted_ec c gid) (first_device (fs_caps (fs c))) <? fs_ec) FREEZE_FS_FORWARD_JUMP_FIRST ;;
        Ok zero32
    end;
  afreeze_if (negb (bytes_eqb expected_prev_commit (dv_fs_dev_prev_commit v))) FREEZE_FS_DEV_CHAIN_BREAK ;;
  expected_dev_commit ← acc_hash (dev_chain_commit (dv_pop_pk v) fs_ec (dv_fs_dev_prev_commit v) (dv_barrier_version v)
    (dv_barrier_update_digest v));
  afreeze_if (negb (bytes_eqb expected_dev_commit (dv_fs_dev_commit v))) FREEZE_FS_DEV_CHAIN_BIND_MISMATCH.

(** *** The barrier gate *)

(** The conditions an update's fields satisfy when it moves the barrier from [prev] to [version]. *)
Definition update_advances (parsed : AcceptParsedBarrierUpdate) (prev version : Z) (roots : bytes) : bool :=
  (apu_barrier_version parsed =? version) && (apu_prev_barrier_version parsed =? prev)
  && bytes_eqb (apu_revocation_roots_hash parsed) roots.

Definition is_merge_type (t : AnchorType) : bool := bool_decide (t = MergeAnchor).

(** [matches!(reason, Some(1 | 2))] *)
Definition proactive_reason (reason : option Z) : bool :=
  match reason with Some r => (r =? 1) || (r =? 2) | None => false end.

(** The rate limits of a refresh, on the group and on the device. *)
Definition check_refresh_rate (c : AcceptanceContext) (gid : bytes) (hdr : header) (state : BarrierGroupState) (fs_ec : Z)
  : result AcceptanceError unit :=
  match last_pcs_refresh_ec state with
  | Some last_group_refresh =>
      afreeze_if (fs_ec <? sat_add last_group_refresh (Z.max (pcs_refresh_min_delta_group_ec state) 1))
        FREEZE_BARRIER_PCS_REFRESH_RATE_LIMITED ;;
      let slot_width := Z.max (pcs_refresh_slot_width_ec state) 1 in
      afreeze_if (fs_ec / slot_width =? last_group_refresh / slot_width) FREEZE_BARRIER_PCS_REFRESH_RATE_LIMITED
  | None => Ok tt
  end ;;
  match device_pk ← get_bytes hdr HDR_POP_PK; d ← device_chain_get c gid device_pk; dc_last_pcs_refresh_ec d with
  | Some last_device_refresh =>
      afreeze_if (fs_ec <? sat_add last_device_refresh (Z.max (pcs_refresh_min_delta_device_ec state) 1))
        FREEZE_BARRIER_PCS_REFRESH_RATE_LIMITED
  | None => Ok tt
  end.

(** The checks of the gate on a group that has a state. *)
Definition gate_group (c : AcceptanceContext) (gid : bytes) (hdr : header) (anchor_type : AnchorType)
  (state : BarrierGroupState) (d : BarrierGateDecision) : result AcceptanceError BarrierGateDecision :=
  let roots := gd_revocation_roots_hash d in
  let reason := gd_barrier_update_reason d in
  let version := gd_barrier_version d in
  let has_barrier_update := bool_decide (is_Some reason) in
  afreeze_if (bool_decide (last_pcs_refresh_ec state = Some (gd_fs_ec d))) FREEZE_FS_DEV_CHAIN_BREAK ;;
  afreeze_if (barrier_initialized state && has_barrier_update && bool_decide (gd_parsed_barrier_update d = None))
    FREEZE_BARRIER_UPDATE_MALFORMED ;;
  if negb (barrier_initialized state) then
    if has_barrier_update then
      match gd_parsed_barrier_update d with
      | None => afreeze FREEZE_BARRIER_UPDATE_MALFORMED
      | Some parsed =>
          if is_merge_type anchor_type && bool_decide (reason = Some 0) && (version =? 0) && update_advances parsed 0 0 roots
          then Ok d else afreeze FREEZE_BARRIER_GENESIS_REQUIRED
      end
    else afreeze FREEZE_BARRIER_GENESIS_REQUIRED
  else
    let current_bv := barrier_version state in
    if negb (bytes_eqb roots (barrier_roots_hash state)) then
      afreeze_if (proactive_reason reason) FREEZE_BARRIER_NON_REVOCATION_REASON_FORBIDDEN_WHILE_PENDING_REVOCATIONS ;;
      parsed ← freeze_on (gd_parsed_barrier_update d) FREEZE_BARRIER_UPDATE_REQUIRED_ON_REVOCATION_CHANGE;
      afreeze_if (negb (is_merge_type anchor_type && has_barrier_update && bool_decide (reason = Some 0)
                        && (version =? sat_add current_bv 1) && update_advances parsed current_bv version roots))
        FREEZE_BARRIER_UPDATE_REQUIRED_ON_REVOCATION_CHANGE ;;
      Ok d
    else if has_barrier_update then
      parsed ← freeze_on (gd_parsed_barrier_update d) FREEZE_BARRIER_UPDATE_MALFORMED;
      afreeze_if (negb (is_merge_type anchor_type && proactive_reason reason && (version =? sat_add current_bv 1)
                        && update_advances parsed current_bv version roots)) FREEZE_BARRIER_PROACTIVE_FORBIDDEN ;;
      (if bool_decide (reason = Some 1) then check_refresh_rate c gid hdr state (gd_fs_ec d) else Ok tt) ;;
      Ok d
    else
      afreeze_if (negb (version =? current_bv)) FREEZE_BARRIER_PROACTIVE_FORBIDDEN ;; Ok d.

Definition enforce_barrier_acceptance_gating (c : AcceptanceContext) (gid : bytes) (hdr : header) (anchor_type : AnchorType)
  : result AcceptanceError BarrierGateDecision :=
  barrier_version ← header_u64_or_freeze hdr HDR_BARRIER_VERSION FREEZE_FS_JOIN_MISSING;
  fs_ec ← header_u64_or_freeze hdr HDR_FS_EC FREEZE_FS_JOIN_MISSING;
  barrier_update_reason ← parse_barrier_update_reason hdr;
  barrier_update_digest ← Header.compute_barrier_update_digest hdr;
  revocation_roots_hash ← compute_revocation_roots_hash hdr;
  let has_barrier_update := bool_decide (is_Some barrier_update_reason) in
  afreeze_if (has_barrier_update && contains_key hdr HDR_MERGE_DELEGATION_SIG) FREEZE_BARRIER_MERGE_DELEGATION_FORBIDDEN ;;
  let snapshot := default default_group (barrier_group_state c gid) in
  parsed_barrier_update ←
    (if has_barrier_update
     then Some <$> parse_barrier_update_from_header hdr (n_max snapshot) (max_barrier_update_bytes snapshot)
     else Ok None);
  let decision :=
    {| gd_barrier_version := barrier_version; gd_fs_ec := fs_ec; gd_revocation_roots_hash := revocation_roots_hash;
       gd_barrier_update_digest := barrier_update_digest; gd_barrier_update_reason := barrier_update_reason;
       gd_parsed_barrier_update := parsed_barrier_update |} in
  match barrier_group_state c gid with
  | None => Ok decision
  | Some state => gate_group c gid hdr anchor_type state decision
  end.

(** The group after an accepted update. *)
Definition commit_group (gate : BarrierGateDecision) (s : BarrierGroupState) : BarrierGroupState :=
  {| barrier_initialized := true; barrier_version := gd_barrier_version gate;
     barrier_roots_hash := gd_revocation_roots_hash gate;
     kem_tree_hash_after :=
       match gd_parsed_barrier_update gate with Some p => apu_kem_tree_hash_after p | None => kem_tree_hash_after s end;
     last_checkpoint_ec := last_checkpoint_ec s; last_accepted_ec := last_accepted_ec s; group_srx_root := group_srx_root s;
     n_max := match gd_parsed_barrier_update gate with Some p => apu_tree_size p | None => n_max s end;
     max_barrier_update_bytes := max_barrier_update_bytes s;
     last_pcs_refresh_ec :=
       if bool_decide (gd_barrier_update_reason gate = Some 1) then Some (gd_fs_ec gate) else last_pcs_refresh_ec s;
     pcs_refresh_min_delta_device_ec := pcs_refresh_min_delta_device_ec s;
     pcs_refresh_min_delta_group_ec := pcs_refresh_min_delta_group_ec s;
     pcs_refresh_slot_width_ec := pcs_refresh_slot_width_ec s |}.

Definition apply_barrier_acceptance_commit (gid : bytes) (hdr : header) (gate : BarrierGateDecision) (c : AcceptanceContext)
  : AcceptanceContext :=
  match gd_barrier_update_reason gate with
  | None => c
  | Some reason =>
      let c := update_group gid (commit_group gate) c in
      match get_bytes hdr HDR_POP_PK with
      | Some device_pk =>
          if reason =? 1 then
            update_chain gid device_pk
              (fun d => {| last_commit := last_commit d; last_ec := last_ec d; dc_last_pcs_refresh_ec := Some (gd_fs_ec gate) |}) c
          else c
      | None => c
      end
  end.

(** *** Settings *)

Definition current_time (c : AcceptanceContext) : Z := Time.now (clock c).

Definition next_accept_instant : acc Z := fun c =>
  let '(clock', now) := Time.tick (clock c) in (with_clock clock' c, Ok now).

Definition invalidate_policy_caches (c : AcceptanceContext) : AcceptanceContext :=
  let ttl := mw_ttl (mh_window c) in
  with_pivot_store (Pivots.set_ttl (pivot_store c) ttl (current_time c)) (with_vck_cache (vck_new ttl) c).

Definition set_h_max (h : Z) (c : AcceptanceContext) : AcceptanceContext :=
  if h_max (mh_window c) =? h then c
  else invalidate_policy_caches (with_mh_window (Mhw.set_h_max (mh_window c) h) c).

Definition update_window_limits (h_max : option Z) (ttl : option Z) (c : AcceptanceContext) : AcceptanceContext :=
  let c := match h_max with Some h => with_mh_window (Mhw.set_h_max (mh_window c) h) c | None => c end in
  match ttl with
  | Some ttl =>
      let now := current_time c in
      let c := with_mh_window (Mhw.set_ttl (mh_window c) ttl now) c in
      let c := with_rho_guard (Rho.set_ttl (rho_guard c) ttl now) c in
      let c := with_vck_cache (vck_set_ttl (vck_cache c) ttl now) c in
      with_pivot_store (Pivots.set_ttl (pivot_store c) ttl now) c
  | None => c
  end.

Definition set_rho_guard_capacity (capacity : Z) (c : AcceptanceContext) : AcceptanceContext :=
  with_rho_guard (Rho.new (Z.max capacity 1) (mw_ttl (mh_window c))) c.

Definition clear_rho_guard_for (gid parent_root : bytes) (c : AcceptanceContext) : AcceptanceContext :=
  with_rho_guard (Rho.clear_for (rho_guard c) gid parent_root) c.

Definition clear_pivot_parities_for_gid (gid : bytes) (c : AcceptanceContext) : AcceptanceContext :=
  with_pivot_store (Pivots.clear_gid (pivot_store c) gid) c.

Definition insert_pivot_parity (parity : PivotParity) (now : Z) (c : AcceptanceContext) : AcceptanceContext :=
  with_pivot_store (Pivots.insert (pivot_store c) parity now) c.

Definition pivot_parities_for (gid parent_root : bytes) : acc (list PivotParity) := fun c =>
  let '(s, l) := Pivots.list_for (pivot_store c) gid parent_root (current_time c) in (with_pivot_store s c, Ok l).

Definition set_pending_capss_witness (w : option CapssWitness) (c : AcceptanceContext) : AcceptanceContext :=
  with_pending_capss_witness w c.

Definition take_pending_capss_witness : acc (option CapssWitness) := fun c =>
  (with_pending_capss_witness None c, Ok (pending_capss_witness c)).

(** The forward secrecy settings a configuration gives. *)
Definition fs_with_config (f : FsPolicy) (caps : FsCaps) (period interval threshold : Z) : FsPolicy :=
  {| fs_caps := caps; fs_period := period; checkpoint_interval := interval; checkpoint_head_threshold := threshold;
     allowed_fs_policy_version := allowed_fs_policy_version f; srx_empty_root_sw := srx_empty_root_sw f;
     srx_migration_root_sw := srx_migration_root_sw f; policy_version := policy_version f;
     policy_timestamp := policy_timestamp f |}.

Definition apply_fs_policy_config (config : FsPolicyConfig) (c : AcceptanceContext) : AcceptanceContext * result FreezeError unit :=
  match synthesize_caps config with
  | Err e => (c, Err e)
  | Ok caps =>
      (with_fs (fs_with_config (fs c) caps (h config) (fc_checkpoint_interval config) (fc_checkpoint_head_threshold config)) c, Ok tt)
  end.

Definition suites_with_srx_max (s : SuitePolicy) (max : Z) : SuitePolicy :=
  {| bootstrap_policy := bootstrap_policy s; srx_max_bytes := max; srx_required := srx_required s;
     allowed_crs_ids := allowed_crs_ids s; allowed_params_ids := allowed_params_ids s;
     deprecated_crs_ids := deprecated_crs_ids s; deprecated_params_ids := deprecated_params_ids s;
     allowed_vrf_ids := allowed_vrf_ids s; deprecated_vrf_ids := deprecated_vrf_ids s;
     allowed_proof_modes := allowed_proof_modes s; deprecated_proof_modes := deprecated_proof_modes s;
     allowed_srx_modes := allowed_srx_modes s; deprecated_srx_modes := deprecated_srx_modes s;
     leaf_id_mode := leaf_id_mode s; kbroad_registry := kbroad_registry s |}.

Definition set_srx_max_bytes (max : Z) (c : AcceptanceContext) : AcceptanceContext :=
  with_suites (suites_with_srx_max (suites c) (Z.max max MIN_SRX_MAX_BYTES)) c.

Definition with_options_internal (h_max ttl : Z) (options : AcceptanceOptions) : AcceptanceContext :=
  let mh_window := Mhw.new h_max ttl in
  let verify_ttl := mw_ttl mh_window in
  let srx_empty := match derive_srx_empty_root_sw DEFAULT_SRX_SMALLWOOD_PROFILE with Ok r => r | Err _ => zero32 end in
  let zeroed :=
    {| fs_caps := zero_caps; fs_period := 0; checkpoint_interval := 0; checkpoint_head_threshold := 0;
       allowed_fs_policy_version := None; srx_empty_root_sw := srx_empty; srx_migration_root_sw := None;
       policy_version := DEFAULT_POLICY_VERSION; policy_timestamp := None |} in
  let ctx :=
    {| suites := suites_with_srx_max (ao_suites options) (Z.max (srx_max_bytes (ao_suites options)) MIN_SRX_MAX_BYTES);
       fs := zeroed; mh_window := mh_window; rho_guard := Rho.new (Z.max (rho_guard_capacity options) 1) verify_ttl;
       vck_cache := vck_new verify_ttl; pivot_store := Pivots.new verify_ttl; next_accept_seq := 0;
       pending_capss_witness := None; telemetry := ∅; device_chains := ∅; barrier_groups := ∅;
       srx_root_sw := Some srx_empty; fs_base_ts := None; fs_policy_version := None; clock := Time.new_clock |} in
  match apply_fs_policy_config (fs_policy_config options) ctx with
  | (ctx, Ok _) => ctx
  | (ctx, Err _) => with_fs (fs_with_config (fs ctx) zero_caps 0 0 0) ctx
  end.

Definition ensure_fs_policy_version_allowed (c : AcceptanceContext) (version : string) : result AcceptanceError unit :=
  afreeze_if (match allowed_fs_policy_version (fs c) with Some e => negb (bool_decide (e = version)) | None => false end)
    FREEZE_FS_POLICY_VERSION_UNSUPPORTED.

(** The setters of the ids and modes whose proofs are cached: [f] replaces one field. *)
Definition set_suite_policy (f : SuitePolicy -> SuitePolicy) (c : AcceptanceContext) : AcceptanceContext :=
  invalidate_policy_caches (with_suites (f (suites c)) c).

Definition set_srx_empty_root_sw (root : bytes) (c : AcceptanceContext) : AcceptanceContext :=
  let previous := srx_empty_root_sw (fs c) in
  let f := fs c in
  let c := with_fs
    {| fs_caps := fs_caps f; fs_period := fs_period f; checkpoint_interval := checkpoint_interval f;
       checkpoint_head_threshold := checkpoint_head_threshold f; allowed_fs_policy_version := allowed_fs_policy_version f;
       srx_empty_root_sw := root; srx_migration_root_sw := srx_migration_root_sw f; policy_version := policy_version f;
       policy_timestamp := policy_timestamp f |} c in
  if bool_decide (srx_root_sw c = Some previous) then with_srx_root_sw (Some root) c else c.

Definition set_policy_state (version : string) (timestamp : option Z) (c : AcceptanceContext) : AcceptanceContext :=
  let f := fs c in
  with_fs
    {| fs_caps := fs_caps f; fs_period := fs_period f; checkpoint_interval := checkpoint_interval f;
       checkpoint_head_threshold := checkpoint_head_threshold f; allowed_fs_policy_version := allowed_fs_policy_version f;
       srx_empty_root_sw := srx_empty_root_sw f; srx_migration_root_sw := srx_migration_root_sw f;
       policy_version := version; policy_timestamp := timestamp |} c.

(** *** The window and the verification cache *)

Definition accept_non_merge (wid : bytes) (record : HeadRecord) (now : Z) (c : AcceptanceContext)
  : AcceptanceContext * result FreezeError unit :=
  let '(w, r) := Mhw.accept_head (mh_window c) wid record now in (with_mh_window w c, r).

(** [should_verify_hp] of the context; of its [HpBindingInputs] it reads these four. *)
Definition context_should_verify_hp `{!EqDecision HpProof} (xk_hash seed_commit rho_commit hp_commit : bytes) (proof : HpProof)
  (hdr : header) (now : Z) : acc bool :=
  key ← lift (compute_vck_key xk_hash seed_commit rho_commit hp_commit hdr);
  (fun c => let '(cache, verify) := should_verify_hp (vck_cache c) key proof now in (with_vck_cache cache c, Ok verify)) : acc bool.

Definition record_verified_hp (xk_hash seed_commit rho_commit hp_commit : bytes) (proof : HpProof) (hdr : header) (now : Z)
  : acc unit :=
  key ← lift (compute_vck_key xk_hash seed_commit rho_commit hp_commit hdr);
  modify (fun c => with_vck_cache (record_hp (vck_cache c) key proof now) c).

(** *** Telemetry *)

Definition update_telemetry (gid parent_root : bytes) (f : TelemetryCounters -> TelemetryCounters) (c : AcceptanceContext)
  : AcceptanceContext :=
  with_telemetry (<[(gid, parent_root) := f (default no_counters (telemetry c !! (gid, parent_root)))]> (telemetry c)) c.

Definition merge_telemetry_from (other c : AcceptanceContext) : AcceptanceContext :=
  with_telemetry (telemetry other ∪ telemetry c) c.

Definition telemetry_lookup (c : AcceptanceContext) (gid parent_root : bytes) : option TelemetryCounters :=
  telemetry c !! (gid, parent_root).

(** ** Stages (accept/stages.rs) *)

(** A set of allowed ids, if there is one, contains the id. *)
Definition not_allowed {A} `{Countable A} (allowed : option (gset A)) (id : A) : bool :=
  match allowed with Some s => negb (bool_decide (id ∈ s)) | None => false end.

Definition ensure_crs_id (c : AcceptanceContext) (hdr : header) : result AcceptanceError unit :=
  crs_id ← freeze_on (hdr !! HDR_CRS_ID ≫= text_of) FREEZE_MSPHF_CRS_INVALID;
  afreeze_if (bool_decide (crs_id = EmptyString)) FREEZE_MSPHF_CRS_INVALID ;;
  afreeze_if (not_allowed (allowed_crs_ids (suites c)) crs_id) FREEZE_MSPHF_CRS_INVALID ;;
  afreeze_if (bool_decide (crs_id ∈ deprecated_crs_ids (suites c))) FREEZE_SUITE_DEPRECATED.

Definition ensure_params_id (c : AcceptanceContext) (hdr : header) : result AcceptanceError unit :=
  canonical ←
    match hdr !! HDR_PARAMS_ID with
    | Some (VBytes b) => afreeze_if (negb (len b =? 32)) FREEZE_PARAMS_ID_INVALID ;; Ok b
    | Some (VText t) => afreeze_if (bool_decide (t = EmptyString)) FREEZE_PARAMS_ID_INVALID ;; Ok (str_bytes t)
    | _ => afreeze FREEZE_PARAMS_ID_INVALID
    end;
  afreeze_if (not_allowed (allowed_params_ids (suites c)) canonical) FREEZE_PARAMS_ID_INVALID ;;
  afreeze_if (bool_decide (canonical ∈ deprecated_params_ids (suites c))) FREEZE_SUITE_DEPRECATED.

Definition ensure_kbroad_pub (c : AcceptanceContext) (gid : bytes) (hdr : header) : result AcceptanceError unit :=
  value ← freeze_on (hdr !! HDR_KBROAD_PUB) FREEZE_FIELD_MISSING;
  pub_bytes ← freeze_on (as_bytes value) FREEZE_KBROAD_PARENT_MISMATCH;
  afreeze_if (negb (len pub_bytes =? ML_KEM_PUBLIC_KEY_BYTES)) FREEZE_KBROAD_PARENT_MISMATCH ;;
  match kbroad_registry (suites c) with
  | Some registry => afreeze_if (negb (bool_decide (registry !! gid = Some pub_bytes))) FREEZE_KBROAD_PARENT_MISMATCH
  | None => Ok tt
  end.

(** A field that is the given text, or its bytes. *)
Definition field_is (hdr : header) (key : Z) (label : string) : bool :=
  bool_decide ((hdr !! key ≫= text_of) = Some label).

Definition ensure_tswe_alg (hdr : header) : result AcceptanceError unit :=
  let matches :=
    match hdr !! HDR_TSWE_ALG with
    | Some (VInteger z) => z =? TSWE_ALG_CODE
    | _ => field_is hdr HDR_TSWE_ALG TSWE_ALG_LABEL
    end in
  afreeze_if (negb matches) FREEZE_TSWE_ALG_INVALID.

Definition ensure_merkle_suite (hdr : header) : result AcceptanceError unit :=
  afreeze_if (negb (field_is hdr HDR_MERKLE_SUITE MERKLE_DS_ID)) FREEZE_MERKLE_SUITE_INVALID.

Definition ensure_kbroad_alg (hdr : header) : result AcceptanceError unit :=
  afreeze_if (negb (field_is hdr HDR_KBROAD_ALG KBROAD_ML_KEM_ALG)) FREEZE_KBROAD_ALG_INVALID.

Definition ensure_merge_join_keys_absent (hdr : header) : result AcceptanceError unit :=
  afreeze_if (existsb (contains_key hdr)
    [HDR_BARRIER_LEAF_PK; HDR_POP_ALG; HDR_POP_SIG; HDR_BOOTSTRAP_ALG; HDR_BOOTSTRAP_SIG; HDR_BOOTSTRAP_PK])
    FREEZE_MERGE_JOIN_KEYS.

Definition ensure_bootstrap_absent (hdr : header) : result AcceptanceError unit :=
  afreeze_if (existsb (contains_key hdr) [HDR_BOOTSTRAP_SIG; HDR_BOOTSTRAP_ALG; HDR_BOOTSTRAP_PK]) FREEZE_BOOTSTRAP_INVALID.

(** The message a joining device signs. *)
Definition pop_message (anchor : AnchorInstance) (leaf_id : bytes) : result string bytes :=
  h_l "msphf/pop/msg"
    (VStruct [("xk", VBytes (to_cbor_bytes anchor)); ("leaf_id", VBytes leaf_id); ("epoch", VBytes (ai_we_epoch_id anchor))]).

(** Bytes of a given length. *)
Definition sized_bytes (hdr : header) (key n : Z) : option bytes :=
  b ← get_bytes hdr key; if len b =? n then Some b else None.

Definition ensure_join_pop (hdr : header) (anchor : AnchorInstance) (mode : LeafIdMode) : result AcceptanceError unit :=
  afreeze_if (negb (field_is hdr HDR_POP_ALG "ML-DSA-65")) FREEZE_POP_INVALID ;;
  pk ← freeze_on (sized_bytes hdr HDR_POP_PK ML_DSA_65_PUBLIC_KEY_BYTES) FREEZE_POP_INVALID;
  sig ← freeze_on (sized_bytes hdr HDR_POP_SIG ML_DSA_65_SIGNATURE_BYTES) FREEZE_POP_INVALID;
  leaf_id ← acc_hash (compute_leaf_id mode (gid (ai_parts anchor)) "ML-DSA-65" pk);
  msg ← acc_hash (pop_message anchor leaf_id);
  afreeze_if (negb (verify_ml_dsa pk msg sig)) FREEZE_POP_INVALID.

(** The four items of a sealed envelope, its context being one of [contexts]. *)
Definition check_envelope_items (contexts : list string) (items : list Value) : result AcceptanceError unit :=
  match items with
  | [_; context; ciphertext; aead] =>
      afreeze_if (match context with VText t => negb (bool_decide (t ∈ contexts)) | _ => true end) FREEZE_HASH_CBOR ;;
      afreeze_if (match ciphertext with VBytes b => (len b <? AEAD_TAG_LEN) || (HP_MAX_CIPHERTEXT_BYTES <? len b) | _ => true end)
        FREEZE_HASH_CBOR ;;
      afreeze_if (match aead with VText t => negb (bool_decide (t = HP_AEAD_SUITE)) | _ => true end) FREEZE_HASH_CBOR
  | _ => afreeze FREEZE_HASH_CBOR
  end.

Definition check_envelope_mode (items : list Value) : result AcceptanceError unit :=
  match items with
  | VText mode :: _ => afreeze_if (negb (bool_decide (mode = BARRIER_HP_MODE))) FREEZE_PARENT_EID_FORBIDDEN
  | _ => afreeze FREEZE_HASH_CBOR
  end.

Definition verify_join_payload_hp_envelope (hdr : header) (envelope_override : option Value) (expected_context : string)
  : result AcceptanceError unit :=
  envelope ← match envelope_override with Some v => Ok v | None => freeze_on (hdr !! HDR_HP_BYTES) FREEZE_FIELD_MISSING end;
  match envelope with
  | VArray items => check_envelope_mode items ;; check_envelope_items [expected_context] items
  | _ => afreeze FREEZE_HASH_CBOR
  end.

Definition validate_barrier_hp_envelope_bytes (b : bytes) : result AcceptanceError unit :=
  match decode_value b with
  | Some (VArray items) =>
      afreeze_if (negb (len items =? 4)) FREEZE_HASH_CBOR ;;
      check_envelope_mode items ;;
      check_envelope_items [BARRIER_HP_CONTEXT_AUTHOR_LOCAL; BARRIER_HP_CONTEXT_BARRIER_RECOVERY] items
  | _ => afreeze FREEZE_HASH_CBOR
  end.

(** An id that is the only supported one, allowed and not deprecated. *)
Definition check_suite_id (supported id : string) (allowed : option (gset string)) (deprecated : gset string)
  : result AcceptanceError unit :=
  afreeze_if (negb (bool_decide (id = supported))) FREEZE_SUITE_FORBIDDEN ;;
  afreeze_if (not_allowed allowed id) FREEZE_SUITE_FORBIDDEN ;;
  afreeze_if (bool_decide (id ∈ deprecated)) FREEZE_SUITE_DEPRECATED.

Definition srx_proof_fields (hdr : header) : result AcceptanceError (option bytes * option bytes) :=
  let has_root := contains_key hdr HDR_SRX_ROOT_SW in
  let has_smallwood := contains_key hdr HDR_SRX_SMALLWOOD in
  afreeze_if (negb (Bool.eqb has_root has_smallwood)) FREEZE_SRX_INVALID ;;
  if has_root then
    root ← header_bytes32_or_freeze hdr HDR_SRX_ROOT_SW FREEZE_SRX_SMALLWOOD_INVALID;
    proof ← freeze_on (get_bytes hdr HDR_SRX_SMALLWOOD) FREEZE_SRX_SMALLWOOD_INVALID;
    afreeze_if (SRX_SMALLWOOD_MAX_BYTES <? len proof) FREEZE_SRX_SMALLWOOD_INVALID ;;
    Ok (Some root, Some proof)
  else Ok (None, None).

Definition ensure_proofs (s : SuitePolicy) (hdr : header) : result AcceptanceError ProofArtifacts :=
  proof_mode ← header_string_or_freeze hdr HDR_PROOF_MODE;
  check_suite_id DEFAULT_PROOF_MODE proof_mode (allowed_proof_modes s) (deprecated_proof_modes s) ;;
  vrf_id ← header_string_or_freeze hdr HDR_VRF_ID;
  check_suite_id DEFAULT_VRF_ID vrf_id (allowed_vrf_ids s) (deprecated_vrf_ids s) ;;
  fs_policy_version ← fs_policy_version_of hdr;
  mask_a ← header_bytes32_or_freeze hdr HDR_VRF_MASK_A FREEZE_FIELD_MISSING;
  mask_b ← header_bytes32_or_freeze hdr HDR_VRF_MASK_B FREEZE_FIELD_MISSING;
  vrf_pi ← header_bytes_or_freeze hdr HDR_VRF_PROOF;
  vrf_public ← header_bytes_or_freeze hdr HDR_VRF_PUBLIC_KEY;
  fs_capss ← header_bytes_or_freeze hdr HDR_FS_CAPSS;
  srx ← srx_proof_fields hdr;
  stored_commit ← header_bytes32_or_freeze hdr HDR_PROOFS_COMMIT FREEZE_FIELD_MISSING;
  afreeze_if (FS_CAPSS_MAX_BYTES <? len fs_capss) FREEZE_CAPSS_INVALID ;;
  recomputed ← acc_hash (compute_proofs_commit_bytes vrf_pi fs_capss srx.1 srx.2);
  afreeze_if (negb (bytes_eqb recomputed stored_commit)) FREEZE_PROOFS_COMMIT_INVALID ;;
  Ok {| pa_commit := stored_commit; pa_vrf_pi := vrf_pi; pa_fs_capss := fs_capss; pa_srx_root_sw := srx.1;
        pa_srx_smallwood := srx.2; pa_proof_mode := proof_mode; pa_vrf_id := vrf_id; pa_mask_a := mask_a;
        pa_mask_b := mask_b; pa_fs_policy_version := fs_policy_version; pa_vrf_public := vrf_public |}.

(** *** The bootstrap signature of a genesis join *)

Definition build_bootstrap_digest (hdr : header) (a : AnchorInstance)
  (hp_commit seed_ctx_hash rho_commit seed_bundle_commit : bytes) : result AcceptanceError bytes :=
  crs_id ← match hdr !! HDR_CRS_ID with
           | Some (VText t) => Ok (VText t) | Some (VBytes b) => Ok (VBytes b) | _ => afreeze FREEZE_BOOTSTRAP_INVALID
           end;
  params_id ← match hdr !! HDR_PARAMS_ID with
              | Some (VText t) => Ok (VText t)
              | Some (VBytes b) => if len b =? 32 then Ok (VBytes b) else afreeze FREEZE_BOOTSTRAP_INVALID
              | _ => afreeze FREEZE_BOOTSTRAP_INVALID
              end;
  let p := ai_parts a in
  Ok (cbor (VArray [VBytes (gid p); VBytes (cat p); VBytes (ai_we_epoch_id a); VBytes (ai_anchor_hdr_ctx a); VBytes (tswe_salt p);
    VBytes (join_delta_root p); VBytes (revoked_root p); crs_id; params_id; VBytes hp_commit; VBytes seed_ctx_hash;
    VBytes rho_commit; VBytes seed_bundle_commit])).

Definition validate_bootstrap (hdr : header) (a : AnchorInstance) (hp_commit seed_ctx_hash rho_commit seed_bundle_commit : bytes)
  (policy : BootstrapPolicy) : result AcceptanceError unit :=
  match hdr !! HDR_BOOTSTRAP_ALG with
  | None =>
      afreeze_if (contains_key hdr HDR_BOOTSTRAP_SIG || contains_key hdr HDR_BOOTSTRAP_PK) FREEZE_BOOTSTRAP_INVALID ;;
      match policy with Disabled => Ok tt | CaMlDsa _ => afreeze FREEZE_BOOTSTRAP_INVALID end
  | Some value =>
      mode ← freeze_on (text_of value) FREEZE_BOOTSTRAP_INVALID;
      match policy with
      | CaMlDsa public_key =>
          if bool_decide (mode = "oob-ca-v1") then
            sig ← freeze_on (get_bytes hdr HDR_BOOTSTRAP_SIG) FREEZE_BOOTSTRAP_INVALID;
            afreeze_if (negb (len public_key =? ML_DSA_65_PUBLIC_KEY_BYTES) || negb (len sig =? ML_DSA_65_SIGNATURE_BYTES))
              FREEZE_BOOTSTRAP_INVALID ;;
            digest ← build_bootstrap_digest hdr a hp_commit seed_ctx_hash rho_commit seed_bundle_commit;
            afreeze_if (negb (verify_ml_dsa public_key digest sig)) FREEZE_BOOTSTRAP_INVALID
          else afreeze FREEZE_BOOTSTRAP_UNSUPPORTED
      | Disabled => afreeze FREEZE_BOOTSTRAP_UNSUPPORTED
      end
  end.

(** ** Steps the two paths share *)

Definition header_root_is (hdr : header) (key : Z) (expected : bytes) : result AcceptanceError bytes :=
  root ← header_bytes32_or_freeze hdr key FREEZE_FIELD_MISSING;
  afreeze_if (negb (bytes_eqb expected root)) FREEZE_FIELD_MISSING ;; Ok root.

(** The four roots of the header are those of the anchor; the parent root is returned. *)
Definition check_roots (hdr : header) (parts : AnchorInstanceParts) : result AcceptanceError bytes :=
  root ← header_root_is hdr HDR_PARENT_ROOT (parent_root parts);
  header_root_is hdr HDR_JOIN_DELTA_ROOT (join_delta_root parts) ;;
  header_root_is hdr HDR_REVOKED_SINCE_ROOT (revoked_since_prev_root parts) ;;
  header_root_is hdr HDR_REVOKED_ROOT (revoked_root parts) ;;
  Ok root.

(** The suite checks both paths start with. *)
Definition check_suites (hdr : header) (gid : bytes) : acc unit :=
  lift (ensure_tswe_alg hdr) ;;
  lift (ensure_merkle_suite hdr) ;;
  query (fun c => ensure_crs_id c hdr) ;;
  lift (ensure_kbroad_alg hdr) ;;
  query (fun c => ensure_kbroad_pub c gid hdr) ;;
  query (fun c => ensure_params_id c hdr).

Definition fs_policy_version_u64 (hdr : header) : result AcceptanceError Z :=
  match hdr !! HDR_FS_POLICY_VERSION with
  | Some (VInteger int) => freeze_on (u64_try_from int) FREEZE_FS_JOIN_MISSING
  | _ => afreeze FREEZE_FS_JOIN_MISSING
  end.

(** The policy version of the header is allowed and the one in force, or becomes it. *)
Definition adopt_fs_policy_version (hdr : header) : acc unit :=
  version ← lift (fs_policy_version_u64 hdr);
  let version := u64_to_string version in
  query (fun c => ensure_fs_policy_version_allowed c version) ;;
  query (fun c => afreeze_if (match fs_policy_version c with Some e => negb (bool_decide (e = version)) | None => false end)
    FREEZE_FS_POLICY_VERSION_UNSUPPORTED) ;;
  modify (with_fs_policy_version (Some version)).

(** Likewise the start of the epoch grid. *)
Definition adopt_fs_base_ts (hdr : header) : acc unit :=
  value ← lift (header_u64_or_freeze hdr HDR_FS_EPOCH_BASE_TS FREEZE_FS_JOIN_MISSING);
  query (fun c => afreeze_if (match fs_base_ts c with Some stored => negb (stored =? value) | None => false end)
    FREEZE_FS_BASE_MISMATCH) ;;
  modify (with_fs_base_ts (Some value)).

Definition check_window_periods : acc unit :=
  query (fun c => afreeze_if (window_periods (fs_caps (fs c)) =? 0) FREEZE_FS_POLICY_WINDOW_INCOMPATIBLE).

(** The device chain fields of a header. *)
Definition chain_fields (hdr : header) (pop_pk digest : bytes) : result AcceptanceError DeviceChainVerification :=
  fs_ec ← header_u64_or_freeze hdr HDR_FS_EC FREEZE_FS_JOIN_MISSING;
  prev ← header_bytes32_or_freeze hdr HDR_FS_DEV_PREV_COMMIT FREEZE_FS_JOIN_MISSING;
  commit ← header_bytes32_or_freeze hdr HDR_FS_DEV_COMMIT FREEZE_FS_JOIN_MISSING;
  version ← header_u64_or_freeze hdr HDR_BARRIER_VERSION FREEZE_FS_JOIN_MISSING;
  Ok {| dv_pop_pk := pop_pk; dv_fs_ec := fs_ec; dv_fs_dev_prev_commit := prev; dv_fs_dev_commit := commit;
        dv_barrier_version := version; dv_barrier_update_digest := digest |}.

Definition verify_chain (gid : bytes) (v : DeviceChainVerification) : acc unit :=
  query (fun c => verify_device_chain_state c gid (device_chain_get c gid (dv_pop_pk v)) v).

(** The commitments a header makes to itself: seed context, bundle, salt and epoch id. *)
Record Bindings := {
  b_ctx : bytes;
  b_seed_ctx_hash : bytes;
  b_bundle : bytes;
  b_weid : bytes;
  b_seed_commit : bytes;
  b_wid : bytes
}.

Definition check_seed_ctx (hdr : header) : result AcceptanceError (bytes * bytes) :=
  provided ← header_bytes32_or_freeze hdr HDR_SEED_CTX_HASH FREEZE_SEEDCTX_MISMATCH;
  let ctx := build_anchor_seed_ctx hdr in
  hash ← acc_hash (compute_seed_ctx_hash ctx);
  afreeze_if (negb (bytes_eqb hash provided)) FREEZE_SEEDCTX_MISMATCH ;;
  Ok (ctx, hash).

Definition check_bundle (ctx rho_commit parent_root provided : bytes) (parts : AnchorInstanceParts) : result AcceptanceError unit :=
  expected ← acc_hash (compute_seed_bundle_commit ctx rho_commit (gid parts) (cat parts) parent_root);
  afreeze_if (negb (bytes_eqb expected provided)) FREEZE_SEEDCTX_MISMATCH.

(** The salt and the claimed epoch id are those of the anchor. *)
Definition check_epoch_id (parts : AnchorInstanceParts) (root seed_ctx_hash claim : bytes) : result AcceptanceError bytes :=
  afreeze_if (negb (len (tswe_salt parts) =? 32)) FREEZE_FIELD_MISSING ;;
  expected_salt ← acc_hash (tswe_salt_hash (gid parts) root);
  afreeze_if (negb (bytes_eqb (tswe_salt parts) expected_salt)) FREEZE_TSWE_SALT_MISMATCH ;;
  derived ← acc_hash (derive_we_epoch_id (gid parts) (parent_root parts) seed_ctx_hash);
  afreeze_if (negb (bytes_eqb derived claim)) FREEZE_EPOCHID_MISMATCH ;;
  Ok derived.

(** [self.next_accept_seq], incremented. *)
Definition take_accept_seq : acc Z := fun c =>
  (with_next_accept_seq (wrapping_add (next_accept_seq c) 1) c, Ok (next_accept_seq c)).

(** The insertion of a head with its telemetry. *)
Definition insert_head (gid root wid : bytes) (insert : MultiHeadWindow -> MultiHeadWindow * result FreezeError unit) : acc unit :=
  fun c =>
    let '(w, r) := insert (mh_window c) in
    let c := with_mh_window w c in
    match r with
    | Ok _ => (update_telemetry gid root (record_success (Mhw.active_heads w wid)) c, Ok tt)
    | Err e =>
        (if bool_decide (e = WINDOW_FULL) then update_telemetry gid root record_window_full c else c, Err (AFreeze e))
    end.

(** *** Joins (accept/join.rs) *)

(** The replay guard records the commitment, or the anchor freezes. *)
Definition guard_rho (parts : AnchorInstanceParts) (rho_commit : bytes) (now : Z) : acc unit := fun c =>
  let '(g, fresh) := Rho.record (rho_guard c) (gid parts) (parent_root parts) rho_commit now in
  let c := with_rho_guard g c in
  if fresh then (c, Ok tt)
  else (update_telemetry (gid parts) (parent_root parts) record_rho_freeze c, afreeze FREEZE_RHO_PARITY).

Definition check_leaf_pk (hdr : header) : result AcceptanceError unit := afreeze_if (negb (leaf_pk_ok hdr)) FREEZE_HASH_CBOR.

(** The proofs of a join: signature, envelope, CAPSS, recomputed witness and VRF. *)
Definition check_join_proofs (c : AcceptanceContext) (hdr : header) (anchor : AnchorInstance) (b : Bindings)
  (v : DeviceChainVerification) (rho_commit hp_commit fs_epoch_commit xk : bytes) (pending : option CapssWitness)
  (proofs : ProofArtifacts) (pop_sig : bytes) : result AcceptanceError unit :=
  let parts := ai_parts anchor in
  crs_id ← header_string_or_freeze hdr HDR_CRS_ID;
  params_id ← header_string_or_freeze hdr HDR_PARAMS_ID;
  capss_from_bytes (pa_fs_capss proofs) ;;
  capss_verify
    {| ci_seed_commit := b_seed_commit b; ci_seed_bundle_commit := b_bundle b; ci_rho_commit := rho_commit;
       ci_hp_commit := hp_commit; ci_xk_hash := xk; ci_crs_id := crs_id; ci_params_id := params_id;
       ci_proof_mode := pa_proof_mode proofs; ci_fs_policy_version := pa_fs_policy_version proofs;
       ci_vrf_id := pa_vrf_id proofs; ci_parts := parts; ci_fs_epoch_commit := fs_epoch_commit; ci_fs_ec := dv_fs_ec v;
       ci_fs_dev_prev_commit := dv_fs_dev_prev_commit v; ci_fs_dev_commit := dv_fs_dev_commit v |} (pa_fs_capss proofs) ;;
  pop_alg ← header_string_or_freeze hdr HDR_POP_ALG;
  leaf_id ← acc_hash (compute_leaf_id (leaf_id_mode (suites c)) (gid parts) pop_alg (dv_pop_pk v));
  expected_rho ← acc_hash (derive_rho_commit_from_pop pop_sig xk);
  afreeze_if (negb (bytes_eqb expected_rho rho_commit)) FREEZE_CAPSS_INVALID ;;
  contains ← srx_contains_leaf_id hdr leaf_id;
  afreeze_if (bool_decide (contains = Some false)) FREEZE_SRX_INVALID ;;
  witness ←
    match recompute_capss_witness
      {| si_crs_id := crs_id; si_params_id := params_id; si_seed_commit := b_seed_commit b;
         si_seed_ctx_hash := b_seed_ctx_hash b; si_xk_hash := xk; si_rho_commit := rho_commit; si_pop_alg := pop_alg;
         si_pop_pk := dv_pop_pk v; si_anchor := anchor; si_leaf_id := leaf_id; si_pop_sig := pop_sig |} with
    | Ok w => Ok w
    | Err (MsphfWitnessReplayMismatch _) => afreeze FREEZE_CAPSS_INVALID
    | Err e => Err (acceptance_from_msphf e)
    end;
  afreeze_if (match pending with Some p => negb (capss_witness_eqb p witness) | None => false end) FREEZE_CAPSS_INVALID ;;
  afreeze_if (MAX_VRF_PROOF_BYTES <? len (pa_vrf_pi proofs)) FREEZE_VRF_INVALID ;;
  match vrf_verify (pa_vrf_public proofs)
    {| vx_xk_hash := xk; vx_rho_commit := rho_commit; vx_seed_bundle_commit := b_bundle b; vx_crs_id := crs_id;
       vx_hp_commit := hp_commit; vx_params_id := params_id; vx_parts := parts; vx_proof_mode := pa_proof_mode proofs;
       vx_profile_version := BASE_PROFILE_VERSION; vx_fs_policy_version := pa_fs_policy_version proofs;
       vx_vrf_id := pa_vrf_id proofs; vx_fs_epoch_commit := fs_epoch_commit; vx_fs_ec := dv_fs_ec v;
       vx_fs_dev_prev_commit := dv_fs_dev_prev_commit v; vx_fs_dev_commit := dv_fs_dev_commit v; vx_srx_root_sw := None;
       vx_we_epoch_id := b_weid b |} (pa_mask_a proofs, pa_mask_b proofs) (pa_vrf_pi proofs) with
  | Ok true => Ok tt
  | _ => afreeze FREEZE_VRF_INVALID
  end.

Definition is_genesis (parts : AnchorInstanceParts) (barrier_version : Z) : bool :=
  (barrier_version =? 0) && is_all_zero (parent_root parts) && is_all_zero (revoked_since_prev_root parts)
  && is_all_zero (revoked_root parts).

(** [to_cbor_vec] of the envelope, empty when the header has none. *)
Definition envelope_bytes (hdr : header) : bytes := match hdr !! HDR_HP_BYTES with Some v => cbor v | None => [] end.

(** The head and the pivot of an accepted anchor. *)
Definition head_record (parts : AnchorInstanceParts) (b : Bindings) (rho_commit hp_commit xk : bytes) (seq now : Z) : HeadRecord :=
  {| hr_we_epoch_id := b_weid b; hr_msphf_hp_commit := hp_commit; hr_seed_ctx_hash := b_seed_ctx_hash b;
     hr_rho_commit := rho_commit; hr_seed_commit := b_seed_commit b; hr_xk_hash := xk;
     hr_join_delta_root := join_delta_root parts; hr_revoked_since_root := revoked_since_prev_root parts;
     hr_revoked_root := revoked_root parts; hr_accept_seq := seq; hr_accept_time := now |}.

Definition pivot_of (parts : AnchorInstanceParts) (root : bytes) (b : Bindings) (rho_commit hp_commit xk : bytes) (seq : Z)
  (crs_id params_id : bytes) (proofs : ProofArtifacts) (srx_commit srx_root : option bytes) (is_join : bool)
  (envelope fs_epoch_commit : bytes) (fs_ec : Z) (fs_dev_commit : bytes) : PivotParity :=
  {| pp_gid := gid parts; pp_cat := cat parts; pp_parent_root := root; pp_we_epoch_id := b_weid b;
     pp_rho_commit := rho_commit; pp_seed_ctx_hash := b_seed_ctx_hash b; pp_seed_commit := b_seed_commit b;
     pp_hp_commit := hp_commit; pp_xk_hash := xk; pp_join_delta_root := join_delta_root parts;
     pp_revoked_since_root := revoked_since_prev_root parts; pp_revoked_root := revoked_root parts; pp_accept_seq := seq;
     pp_crs_id := crs_id; pp_params_id := params_id; pp_policy_version := u64_to_string (pa_fs_policy_version proofs);
     pp_proof_mode := pa_proof_mode proofs; pp_vrf_id := pa_vrf_id proofs; pp_vrf_proof := pa_vrf_pi proofs;
     pp_vrf_public := pa_vrf_public proofs; pp_mask_a := pa_mask_a proofs; pp_mask_b := pa_mask_b proofs;
     pp_fs_capss := pa_fs_capss proofs; pp_proofs_commit := pa_commit proofs; pp_srx_commit := srx_commit;
     pp_srx_root_sw := srx_root; pp_is_join := is_join; pp_hp_envelope := envelope;
     pp_fs_epoch_commit := Some fs_epoch_commit; pp_fs_ec := Some fs_ec; pp_fs_dev_commit := Some fs_dev_commit |}.

Definition outcome_of (kind : OutcomeKind) (b : Bindings) (rho_commit hp_commit xk : bytes) (seq now : Z) (mh_note : option string)
  (fs_epoch_commit : bytes) (fs_ec : Z) (fs_dev_commit : bytes) : AcceptanceOutcome :=
  {| o_kind := kind; o_we_epoch_id := b_weid b; o_wid := b_wid b; o_seed_ctx_hash := b_seed_ctx_hash b;
     o_seed_commit := b_seed_commit b; o_rho_commit := rho_commit; o_hp_commit := hp_commit; o_xk_hash := xk;
     o_accept_seq := seq; o_accept_time := now; o_mh_note := mh_note; o_fs_epoch_commit := Some fs_epoch_commit;
     o_fs_ec := Some fs_ec; o_fs_dev_commit := Some fs_dev_commit |}.

(** The anchor of the bindings. *)
Definition instance_of (parts : AnchorInstanceParts) (b : Bindings) (hp_commit : option bytes) : AnchorInstance :=
  {| ai_parts := parts; ai_we_epoch_id := b_weid b; ai_anchor_hdr_ctx := b_ctx b; ai_msphf_hp_commit := hp_commit |}.

(** The fields of a join that bind the header to itself, after the replay guard. *)
Definition join_commitments (hdr : header) (parts : AnchorInstanceParts) (root rho_commit : bytes)
  : result AcceptanceError (bytes * bytes * bytes * bytes) :=
  provided ← header_bytes32_or_freeze hdr HDR_SEED_CTX_HASH FREEZE_SEEDCTX_MISMATCH;
  hp_commit ← header_bytes32_or_freeze hdr HDR_HP_COMMIT FREEZE_FIELD_MISSING;
  seed ← check_seed_ctx hdr;
  bundle ← header_bytes32_or_freeze hdr HDR_SEED_BUNDLE_COMMIT FREEZE_SEEDCTX_MISMATCH;
  check_bundle seed.1 rho_commit root bundle parts ;;
  Ok (hp_commit, seed.1, seed.2, bundle).

(** The forward secrecy block of a join: policy version, epoch grid, device chain. *)
Definition join_fs (hdr : header) (gid pop_pk digest : bytes) : acc (bytes * DeviceChainVerification) :=
  lift (freeze_on (hdr !! HDR_FS_EC) FREEZE_FS_JOIN_MISSING) ;;
  adopt_fs_policy_version hdr ;;
  lift (header_u64_or_freeze hdr HDR_FS_EC FREEZE_FS_JOIN_MISSING) ;;
  fs_epoch_commit ← lift (header_bytes32_or_freeze hdr HDR_FS_EPOCH_COMMIT FREEZE_FS_JOIN_MISSING);
  adopt_fs_base_ts hdr ;;
  check_window_periods ;;
  v ← lift (chain_fields hdr pop_pk digest);
  verify_chain gid v ;;
  mret (fs_epoch_commit, v).

Definition check_bootstrap (hdr : header) (anchor : AnchorInstance) (b : Bindings) (v : DeviceChainVerification)
  (rho_commit hp_commit : bytes) : acc unit :=
  query (fun c =>
    if is_genesis (ai_parts anchor) (dv_barrier_version v)
    then validate_bootstrap hdr anchor hp_commit (b_seed_ctx_hash b) rho_commit (b_bundle b) (bootstrap_policy (suites c))
    else ensure_bootstrap_absent hdr).

(** What a join does once everything it must prove is proved. *)
Definition commit_join (hdr : header) (parts : AnchorInstanceParts) (root : bytes) (b : Bindings) (v : DeviceChainVerification)
  (rho_commit hp_commit fs_epoch_commit xk : bytes) (seq now : Z) (proofs : ProofArtifacts) (mh_note : option string)
  : acc AcceptanceOutcome :=
  verify_chain (gid parts) v ;;
  modify (advance_chain (gid parts) (dv_pop_pk v) (dv_fs_dev_commit v) (dv_fs_ec v)) ;;
  modify (record_accepted_ec (gid parts) (dv_fs_ec v)) ;;
  insert_head (gid parts) (parent_root parts) (b_wid b)
    (fun w => Mhw.accept_head w (b_wid b) (head_record parts b rho_commit hp_commit xk seq now) now) ;;
  crs_id ← lift (header_value_bytes hdr HDR_CRS_ID FREEZE_MSPHF_CRS_INVALID);
  params_id ← lift (header_value_bytes hdr HDR_PARAMS_ID FREEZE_PARAMS_ID_INVALID);
  srx_commit ← lift (match hdr !! HDR_SRX_COMMIT with Some val => Some <$> value_bytes32 val FREEZE_SRX_INVALID | None => Ok None end);
  srx_root ← gets (fun c => group_srx_root_sw c (gid parts));
  modify (insert_pivot_parity (pivot_of parts root b rho_commit hp_commit xk seq crs_id params_id proofs srx_commit srx_root true
    (envelope_bytes hdr) fs_epoch_commit (dv_fs_ec v) (dv_fs_dev_commit v)) now) ;;
  mret (outcome_of KNonMerge b rho_commit hp_commit xk seq now mh_note fs_epoch_commit (dv_fs_ec v) (dv_fs_dev_commit v)).

Definition accept_anchor_join (parts : AnchorInstanceParts) (claim : bytes) (hdr : header) (mh_note : option string)
  (digest : bytes) (now : Z) : acc AcceptanceOutcome :=
  check_suites hdr (gid parts) ;;
  lift (ensure_join_srx_keys_absent hdr) ;;
  lift (check_leaf_pk hdr) ;;
  root ← lift (check_roots hdr parts);
  modify (update_telemetry (gid parts) (parent_root parts) record_attempt) ;;
  rho_commit ← lift (header_bytes32_or_freeze hdr HDR_RHO_COMMIT FREEZE_RHO_PARITY);
  guard_rho parts rho_commit now ;;
  commitments ← lift (join_commitments hdr parts root rho_commit);
  let '(hp_commit, ctx, seed_ctx_hash, bundle) := commitments in
  pop_pk ← lift (header_bytes_or_freeze hdr HDR_POP_PK);
  fsv ← join_fs hdr (gid parts) pop_pk digest;
  let '(fs_epoch_commit, v) := fsv in
  weid ← lift (check_epoch_id parts root seed_ctx_hash claim);
  seed_commit ← lift (acc_hash (compute_seed_commit ctx (gid parts) (cat parts) weid));
  wid ← lift (acc_hash (compute_window_id (gid parts) root seed_ctx_hash));
  let b := {| b_ctx := ctx; b_seed_ctx_hash := seed_ctx_hash; b_bundle := bundle; b_weid := weid;
              b_seed_commit := seed_commit; b_wid := wid |} in
  let anchor := instance_of parts b (Some hp_commit) in
  xk ← lift (acc_hash (xk_hash anchor));
  seq ← take_accept_seq;
  check_bootstrap hdr anchor b v rho_commit hp_commit ;;
  query (fun c => ensure_join_pop hdr anchor (leaf_id_mode (suites c))) ;;
  pop_sig ← lift (extract_pop_signature hdr);
  lift (verify_join_payload_hp_envelope hdr None BARRIER_HP_CONTEXT_AUTHOR_LOCAL) ;;
  proofs ← query (fun c => ensure_proofs (suites c) hdr);
  pending ← take_pending_capss_witness;
  query (fun c => check_join_proofs c hdr anchor b v rho_commit hp_commit fs_epoch_commit xk pending proofs pop_sig) ;;
  commit_join hdr parts root b v rho_commit hp_commit fs_epoch_commit xk seq now proofs mh_note.

(** *** Merges (accept/merge.rs) *)

(** The forward secrecy fields of a merge header. *)
Record MergeFields := {
  m_checkpoint_ec : Z;
  m_fs_ec : Z;
  m_barrier_version : Z;
  m_fs_epoch_commit : bytes;
  m_fs_dev_prev_commit : bytes;
  m_fs_dev_commit : bytes;
  m_local_hp_commit : bytes;
  m_pop_pk : option bytes;
  m_digest : bytes
}.

Definition merge_fields (hdr : header) : result AcceptanceError MergeFields :=
  checkpoint ← header_u64_or_freeze hdr HDR_FS_CHECKPOINT_EC FREEZE_FS_JOIN_MISSING;
  fs_ec ← header_u64_or_freeze hdr HDR_FS_EC FREEZE_FS_JOIN_MISSING;
  header_u64_or_freeze hdr HDR_BARRIER_UPDATE_REASON FREEZE_FS_JOIN_MISSING ;;
  version ← header_u64_or_freeze hdr HDR_BARRIER_VERSION FREEZE_FS_JOIN_MISSING;
  epoch_commit ← header_bytes32_or_freeze hdr HDR_FS_EPOCH_COMMIT FREEZE_FS_JOIN_MISSING;
  prev ← header_bytes32_or_freeze hdr HDR_FS_DEV_PREV_COMMIT FREEZE_FS_JOIN_MISSING;
  commit ← header_bytes32_or_freeze hdr HDR_FS_DEV_COMMIT FREEZE_FS_JOIN_MISSING;
  hp_commit ← header_bytes32_or_freeze hdr HDR_HP_COMMIT FREEZE_FIELD_MISSING;
  digest ← Header.compute_barrier_update_digest hdr;
  Ok {| m_checkpoint_ec := checkpoint; m_fs_ec := fs_ec; m_barrier_version := version; m_fs_epoch_commit := epoch_commit;
        m_fs_dev_prev_commit := prev; m_fs_dev_commit := commit; m_local_hp_commit := hp_commit;
        m_pop_pk := get_bytes hdr HDR_POP_PK; m_digest := digest |}.

(** The chain fields of a merge by the device [pk]. *)
Definition merge_chain (m : MergeFields) (pk : bytes) : DeviceChainVerification :=
  {| dv_pop_pk := pk; dv_fs_ec := m_fs_ec m; dv_fs_dev_prev_commit := m_fs_dev_prev_commit m;
     dv_fs_dev_commit := m_fs_dev_commit m; dv_barrier_version := m_barrier_version m;
     dv_barrier_update_digest := m_digest m |}.

Definition merge_verify_chain (gid : bytes) (m : MergeFields) : acc unit :=
  match m_pop_pk m with Some pk => verify_chain gid (merge_chain m pk) | None => mret tt end.

Definition check_purge_fields (hdr : header) : result AcceptanceError unit :=
  afreeze_if (negb (bool_decide (hdr !! HDR_FS_EVOLUTION_BOUNDARY = Some (VBool true)))) FREEZE_MH_HEADS_INVALID ;;
  afreeze_if (negb (bool_decide (hdr !! HDR_ROLLUP_FS_MODE = Some (VText "fs-purge")))) FREEZE_MH_HEADS_INVALID ;;
  afreeze_if (match hdr !! HDR_FS_PURGE_TIMES with Some (VMap _) | None => false | Some _ => true end) FREEZE_HASH_CBOR.

(** The window of the heads to retire, and the record of the pivot among them. *)
Definition locate_heads (w : MultiHeadWindow) (hdr : header) (mh_heads : list bytes) (rho_commit : bytes)
  : result AcceptanceError (bytes * bytes * HeadRecord) :=
  first_head ← freeze_on (head mh_heads) FREEZE_MH_HEADS_INVALID;
  afreeze_if (negb (heads_sorted mh_heads)) FREEZE_MH_HEADS_INVALID ;;
  wid_old ← freeze_on (Mhw.find_head_window w first_head) FREEZE_MH_HEADS_INVALID;
  afreeze_if (existsb (fun head => bool_decide (Mhw.find_head w wid_old head = None)) mh_heads) FREEZE_MH_HEADS_INVALID ;;
  pivot_weid ← header_bytes32_or_freeze hdr HDR_ROLLUP_PIVOT_WEID FREEZE_MH_HEADS_INVALID;
  afreeze_if (negb (bool_decide (pivot_weid ∈ mh_heads))) FREEZE_MH_HEADS_INVALID ;;
  pivot_record ← freeze_on (Mhw.find_head w wid_old pivot_weid) FREEZE_MH_HEADS_INVALID;
  afreeze_if (negb (bytes_eqb rho_commit (hr_rho_commit pivot_record))) FREEZE_MSPHF_RHO_PARITY ;;
  Ok (wid_old, pivot_weid, pivot_record).

(** [stored_parities.into_iter().map(..).collect::<BTreeMap>()]: the last of two entries stays. *)
Definition parity_map_of (parities : list PivotParity) : gmap bytes PivotParity :=
  list_to_map ((fun p => (pp_we_epoch_id p, p)) <$> reverse parities).

Definition list_parities (gid root : bytes) (now : Z) : acc (gmap bytes PivotParity) := fun c =>
  let '(s, l) := Pivots.list_for (pivot_store c) gid root now in (with_pivot_store s c, Ok (parity_map_of l)).

(** The envelope in the header is itself sealed to the barrier. *)
Definition use_local_hp_transport (hdr : header) : bool :=
  match hdr !! HDR_HP_BYTES with
  | Some (VArray (VText mode :: _)) => bool_decide (mode = BARRIER_HP_MODE)
  | _ => false
  end.

Definition check_merge_envelope (hdr : header) (pivot : PivotParity) : result AcceptanceError unit :=
  afreeze_if (bool_decide (pp_hp_envelope pivot = [])) FREEZE_FIELD_MISSING ;;
  pivot_envelope ← freeze_on (decode_value (pp_hp_envelope pivot)) FREEZE_HASH_CBOR;
  verify_join_payload_hp_envelope hdr (Some (default pivot_envelope (hdr !! HDR_HP_BYTES)))
    BARRIER_HP_CONTEXT_BARRIER_RECOVERY.

(** The merge repeats the proofs of its pivot. *)
Definition check_pivot_proofs (proofs : ProofArtifacts) (pivot : PivotParity) : result AcceptanceError unit :=
  afreeze_if (negb (bytes_eqb (pa_fs_capss proofs) (pp_fs_capss pivot))) FREEZE_CAPSS_INVALID ;;
  afreeze_if (negb (bytes_eqb (pa_vrf_pi proofs) (pp_vrf_proof pivot)) || negb (bytes_eqb (pa_mask_a proofs) (pp_mask_a pivot))
    || negb (bytes_eqb (pa_mask_b proofs) (pp_mask_b pivot)) || negb (bytes_eqb (pa_vrf_public proofs) (pp_vrf_public pivot)))
    FREEZE_VRF_INVALID ;;
  afreeze_if (negb (bool_decide (u64_to_string (pa_fs_policy_version proofs) = pp_policy_version pivot))
    || negb (bool_decide (pa_proof_mode proofs = pp_proof_mode pivot)) || negb (bool_decide (pa_vrf_id proofs = pp_vrf_id pivot)))
    FREEZE_SUITE_FORBIDDEN.

(** The largest epoch counter of the heads to retire. *)
Definition max_head_ec (parities : gmap bytes PivotParity) (mh_heads : list bytes) : result AcceptanceError Z :=
  ecs ← map_res (fun head =>
    parity ← freeze_on (parities !! head) FREEZE_MH_HEADS_INVALID; freeze_on (pp_fs_ec parity) FREEZE_FS_JOIN_MISSING) mh_heads;
  match ecs with [] => afreeze FREEZE_MH_HEADS_INVALID | ec :: rest => Ok (foldl Z.max ec rest) end.

Definition check_checkpoint (c : AcceptanceContext) (gid : bytes) (checkpoint max_ec : Z) : result AcceptanceError unit :=
  afreeze_if (negb (checkpoint =? max_ec)) FREEZE_FS_CHECKPOINT_BACKDATE ;;
  afreeze_if (checkpoint <? get_last_checkpoint_ec c gid) FREEZE_FS_CHECKPOINT_MONOTONICITY ;;
  afreeze_if (get_last_accepted_ec c gid <? checkpoint) FREEZE_FS_CHECKPOINT_BACKDATE.

(** Whether the merge must carry an SRX payload. *)
Definition srx_required_for_merge (hdr : header) (parts : AnchorInstanceParts) (pivot_record : HeadRecord) : bool :=
  let is_reclaim_join_finalize :=
    contains_key hdr HDR_JOIN_FINALIZE_AUTH && bool_decide (hdr !! HDR_BARRIER_UPDATE_REASON = Some (VInteger 0)) in
  (negb (bytes_eqb (revoked_since_prev_root parts) (hr_revoked_since_root pivot_record))
   || negb (bytes_eqb (revoked_root parts) (hr_revoked_root pivot_record)))
  && negb is_reclaim_join_finalize.

(** [ensure_srx_relations] on the context's cache. *)
Definition merge_srx (hdr : header) (root : bytes) (parts : AnchorInstanceParts) (b : Bindings) (rho_commit xk : bytes)
  (pivot_record : HeadRecord) (now : Z) (proofs : ProofArtifacts) (root_before : bytes) : acc unit := fun c =>
  let '(cache, r) :=
    ensure_srx_relations hdr root (join_delta_root parts) (revoked_since_prev_root parts) (revoked_root parts) true
      (srx_max_bytes (suites c)) xk (b_seed_commit b) rho_commit (hr_msphf_hp_commit pivot_record) now (vck_cache c) proofs
      root_before in
  (with_vck_cache cache c, r).

(** **** Rollup commitments *)

Definition optional32 (hdr : header) (key : Z) : result AcceptanceError (option bytes) :=
  match hdr !! key with Some v => Some <$> value_bytes32 v FREEZE_HASH_CBOR | None => Ok None end.

(** One head against its replay entry. *)
Definition check_replay_entry (parities : gmap bytes PivotParity) (expected : bytes) (replay : RollupEpochEntry)
  : result AcceptanceError unit :=
  afreeze_if (negb (bytes_eqb (re_weid replay) expected)) FREEZE_HASH_CBOR ;;
  parity ← freeze_on (parities !! expected) FREEZE_MH_HEADS_INVALID;
  afreeze_if (negb (bytes_eqb (pp_xk_hash parity) (re_xk_hash replay)
      && bytes_eqb (pp_parent_root parity) (re_parent_root replay)
      && bytes_eqb (pp_join_delta_root parity) (re_join_delta_root replay)
      && bytes_eqb (pp_revoked_since_root parity) (re_revoked_since_root replay)
      && bytes_eqb (pp_revoked_root parity) (re_revoked_root replay))) FREEZE_MH_HEADS_INVALID ;;
  afreeze_if (negb (Bool.eqb (pp_is_join parity) (re_is_join replay))) FREEZE_MH_HEADS_INVALID ;;
  if re_is_join replay then
    validate_barrier_hp_envelope_bytes (pp_hp_envelope parity) ;;
    afreeze_if (bool_decide (pp_hp_envelope parity = [])) FREEZE_FIELD_MISSING
  else Ok tt.

Definition check_replay (parities : gmap bytes PivotParity) (mh_heads : list bytes) (entries : list RollupEpochEntry)
  : result AcceptanceError unit :=
  afreeze_if (negb (len entries =? len mh_heads)) FREEZE_MH_HEADS_INVALID ;;
  fold_res (fun _ p => check_replay_entry parities p.1 p.2) tt (zip mh_heads entries).

(** The heads with their verification keys and instance hashes. *)
Definition provenance_rows (parities : gmap bytes PivotParity) (mh_heads : list bytes)
  : result AcceptanceError (list (bytes * bytes * bytes)) :=
  map_res (fun weid =>
    parity ← freeze_on (parities !! weid) FREEZE_MH_HEADS_INVALID;
    vck ← compute_vck_from_parity parity;
    Ok (weid, vck, pp_xk_hash parity)) mh_heads.

Definition rollup_commit (label : string) (value : Value) : result string bytes := h_l label (VBytes (cbor value)).

Definition provenance_value (rows : list (bytes * bytes * bytes)) : Value :=
  VArray ((fun r => VArray [VBytes r.1.1; VBytes r.1.2; VBytes r.2]) <$> rows).

Definition vck_value (rows : list (bytes * bytes * bytes)) : Value := VArray ((fun r => VBytes r.1.2) <$> rows).

Definition check_rollup (hdr : header) (parities : gmap bytes PivotParity) (mh_heads : list bytes) : result AcceptanceError unit :=
  provenance ← optional32 hdr HDR_ROLLUP_PROVENANCE_COMMIT;
  replay ← match hdr !! HDR_ROLLUP_EPOCH_REPLAY with Some v => Some <$> parse_rollup_epoch_replay v | None => Ok None end;
  vck ← optional32 hdr HDR_ROLLUP_VCK_COMMIT;
  afreeze_if (bool_decide (is_Some vck) && bool_decide (provenance = None)) FREEZE_MH_HEADS_INVALID ;;
  let has_rollup := bool_decide (is_Some provenance) || bool_decide (is_Some replay) || bool_decide (is_Some vck) in
  afreeze_if (has_rollup && (bool_decide (provenance = None) || bool_decide (replay = None))) FREEZE_MH_HEADS_INVALID ;;
  match replay with Some entries => check_replay parities mh_heads entries | None => Ok tt end ;;
  match provenance with
  | Some commit =>
      rows ← provenance_rows parities mh_heads;
      computed ← acc_hash (rollup_commit "msphf/rollup/prov" (provenance_value rows));
      afreeze_if (negb (bytes_eqb computed commit)) FREEZE_MH_HEADS_INVALID ;;
      match vck with
      | Some vck_commit =>
          computed_vck ← acc_hash (rollup_commit "msphf/rollup/vck" (vck_value rows));
          afreeze_if (negb (bytes_eqb computed_vck vck_commit)) FREEZE_MH_HEADS_INVALID
      | None => Ok tt
      end
  | None => afreeze_if has_rollup FREEZE_MH_HEADS_INVALID
  end.

(** **** The path *)

(** What a merge does after the head is in the window. *)
Definition finish_merge (hdr : header) (parts : AnchorInstanceParts) (root : bytes) (m : MergeFields) (b : Bindings)
  (rho_commit hp_commit xk : bytes) (seq now : Z) (proofs : ProofArtifacts) (mh_heads : list bytes) (mh_note : option string)
  (required : bool) (root_before : bytes) (pivot : PivotParity) : acc AcceptanceOutcome :=
  modify (fun c => with_pivot_store (Pivots.retire (pivot_store c) (gid parts) root mh_heads) c) ;;
  crs_id ← lift (header_value_bytes hdr HDR_CRS_ID FREEZE_MSPHF_CRS_INVALID);
  params_id ← lift (header_value_bytes hdr HDR_PARAMS_ID FREEZE_PARAMS_ID_INVALID);
  srx_commit ← lift (if required then Some <$> header_bytes32_or_freeze hdr HDR_SRX_COMMIT FREEZE_SRX_INVALID else Ok None);
  srx_root ← (if required then lift (Some <$> header_bytes32_or_freeze hdr HDR_SRX_ROOT_SW FREEZE_SRX_INVALID)
              else gets (fun c => group_srx_root_sw c (gid parts)));
  (if required then
     query (fun c => afreeze_if (negb (bool_decide (group_srx_root_sw c (gid parts) = Some root_before))) FREEZE_SRX_INVALID) ;;
     modify (set_group_srx_root_sw (gid parts) srx_root)
   else mret tt) ;;
  let envelope := match hdr !! HDR_HP_BYTES with
                  | Some v => if bool_decide (cbor v = []) then pp_hp_envelope pivot else cbor v
                  | None => pp_hp_envelope pivot
                  end in
  modify (insert_pivot_parity (pivot_of parts root b rho_commit hp_commit xk seq crs_id params_id proofs srx_commit srx_root false
    envelope (m_fs_epoch_commit m) (m_fs_ec m) (m_fs_dev_commit m)) now) ;;
  modify (fun c => match m_pop_pk m with
                   | Some pk => advance_chain (gid parts) pk (m_fs_dev_commit m) (m_fs_ec m) c
                   | None => c
                   end) ;;
  modify (set_last_checkpoint_ec (gid parts) (m_checkpoint_ec m)) ;;
  modify (record_accepted_ec (gid parts) (m_fs_ec m)) ;;
  mret (outcome_of (KMerge mh_heads) b rho_commit hp_commit xk seq now mh_note (m_fs_epoch_commit m) (m_fs_ec m) (m_fs_dev_commit m)).

(** [AcceptanceContext::accept_merge] *)
Definition accept_merge (w : MultiHeadWindow) (wid_old wid_new : bytes) (mh_heads : list bytes) (r : HeadRecord) (now : Z)
  : MultiHeadWindow * result FreezeError unit :=
  if h_max w <? len mh_heads then (w, Err WINDOW_FULL) else Mhw.accept_merge w wid_old wid_new mh_heads r now.

(** From the revocation relations on: the group's SRX root, the rollup, the window. *)
Definition commit_merge (hdr : header) (parts : AnchorInstanceParts) (root : bytes) (m : MergeFields) (b : Bindings)
  (rho_commit xk : bytes) (seq now : Z) (proofs : ProofArtifacts) (mh_heads : list bytes) (mh_note : option string)
  (wid_old : bytes) (pivot_record : HeadRecord) (parities : gmap bytes PivotParity) (pivot : PivotParity) (required : bool)
  : acc AcceptanceOutcome :=
  root_before ← ensure_group_srx_root_sw (gid parts);
  (if required then merge_srx hdr root parts b rho_commit xk pivot_record now proofs root_before else mret tt) ;;
  lift (check_rollup hdr parities mh_heads) ;;
  take_pending_capss_witness ;;
  let hp_commit := if use_local_hp_transport hdr then m_local_hp_commit m else hr_msphf_hp_commit pivot_record in
  insert_head (gid parts) (parent_root parts) (b_wid b)
    (fun w => accept_merge w wid_old (b_wid b) mh_heads (head_record parts b rho_commit hp_commit xk seq now) now) ;;
  finish_merge hdr parts root m b rho_commit hp_commit xk seq now proofs mh_heads mh_note required root_before pivot.

(** From the pivot on: its proofs and the checkpoint, then the commit. *)
Definition merge_against_pivot (hdr : header) (parts : AnchorInstanceParts) (root : bytes) (m : MergeFields) (b : Bindings)
  (rho_commit xk : bytes) (seq now : Z) (proofs : ProofArtifacts) (mh_heads : list bytes) (mh_note : option string)
  (wid_old pivot_weid : bytes) (pivot_record : HeadRecord) : acc AcceptanceOutcome :=
  parities ← list_parities (gid parts) root now;
  pivot ← lift (freeze_on (parities !! pivot_weid) FREEZE_MH_HEADS_INVALID);
  lift (check_merge_envelope hdr pivot) ;;
  lift (check_pivot_proofs proofs pivot) ;;
  max_ec ← lift (max_head_ec parities mh_heads);
  query (fun c => check_checkpoint c (gid parts) (m_checkpoint_ec m) max_ec) ;;
  let required := srx_required_for_merge hdr parts pivot_record in
  lift (ensure_merge_srx_keys hdr required) ;;
  commit_merge hdr parts root m b rho_commit xk seq now proofs mh_heads mh_note wid_old pivot_record parities pivot required.

Definition accept_anchor_merge (parts : AnchorInstanceParts) (claim : bytes) (hdr : header) (mh_heads : list bytes)
  (mh_note : option string) (now : Z) : acc AcceptanceOutcome :=
  check_suites hdr (gid parts) ;;
  lift (ensure_merge_join_keys_absent hdr) ;;
  lift (afreeze_if (contains_key hdr HDR_KBROAD_REPLAY) FREEZE_HASH_CBOR) ;;
  adopt_fs_policy_version hdr ;;
  adopt_fs_base_ts hdr ;;
  check_window_periods ;;
  m ← lift (merge_fields hdr);
  merge_verify_chain (gid parts) m ;;
  lift (check_purge_fields hdr) ;;
  root ← lift (check_roots hdr parts);
  modify (update_telemetry (gid parts) (parent_root parts) record_attempt) ;;
  rho_commit ← lift (header_bytes32_or_freeze hdr HDR_RHO_COMMIT FREEZE_RHO_PARITY);
  seed ← lift (check_seed_ctx hdr);
  bundle ← lift (header_bytes32_or_freeze hdr HDR_SEED_BUNDLE_COMMIT FREEZE_SEEDCTX_MISMATCH);
  wid_new ← lift (acc_hash (compute_window_id (gid parts) root seed.2));
  located ← query (fun c => locate_heads (mh_window c) hdr mh_heads rho_commit);
  let '(wid_old, pivot_weid, pivot_record) := located in
  lift (check_bundle seed.1 rho_commit root bundle parts) ;;
  weid ← lift (check_epoch_id parts root seed.2 claim);
  seed_commit ← lift (acc_hash (compute_seed_commit seed.1 (gid parts) (cat parts) weid));
  let b := {| b_ctx := seed.1; b_seed_ctx_hash := seed.2; b_bundle := bundle; b_weid := weid; b_seed_commit := seed_commit;
              b_wid := wid_new |} in
  xk ← lift (acc_hash (xk_hash (instance_of parts b None)));
  seq ← take_accept_seq;
  lift (ensure_bootstrap_absent hdr) ;;
  proofs ← query (fun c => ensure_proofs (suites c) hdr);
  lift (afreeze_if (bool_decide (pa_vrf_pi proofs = []) || (MAX_VRF_PROOF_BYTES <? len (pa_vrf_pi proofs))) FREEZE_VRF_INVALID) ;;
  merge_against_pivot hdr parts root m b rho_commit xk seq now proofs mh_heads mh_note wid_old pivot_weid pivot_record.

(** ** Acceptance of an anchor *)

(** The heads a merge header lists. *)
Definition merge_heads (hdr : header) : result AcceptanceError (list bytes) :=
  match parse_mh_heads hdr with Ok (Some heads) => Ok heads | _ => afreeze FREEZE_MH_HEADS_INVALID end.

Definition accept_anchor (parts : AnchorInstanceParts) (claim : bytes) (hdr : header) : acc AcceptanceOutcome :=
  now ← next_accept_instant;
  modify (fun c => with_mh_window (Mhw.prune_all (mh_window c) now) c) ;;
  let anchor_type := classify_anchor_type hdr in
  let is_merge := is_merge_anchor hdr in
  lift (ensure_known_header_keys hdr is_merge) ;;
  lift (enforce_anchor_presence_rules hdr anchor_type) ;;
  gate ← query (fun c => enforce_barrier_acceptance_gating c (gid parts) hdr anchor_type);
  lift (afreeze_if (match get_bytes hdr HDR_FS_CAPSS with Some p => MAX_HP_PROOF_BYTES <? len p | None => false end)
    FREEZE_STARK_OVERSIZE) ;;
  mh_note ← lift (map_err acceptance_from_msphf (parse_mh_note hdr));
  outcome ←
    (if is_merge
     then mh_heads ← lift (merge_heads hdr); accept_anchor_merge parts claim hdr mh_heads mh_note now
     else accept_anchor_join parts claim hdr mh_note (gd_barrier_update_digest gate) now);
  modify (apply_barrier_acceptance_commit (gid parts) hdr gate) ;;
  mret outcome.

End Methods.
