(* ===== verification/AcceptLemmas.v ===== *)
(** * Reasoning about acceptance

    The proof rules for the methods of the acceptance context: a relation
    between the context before and after that every step of a method keeps
    ([stable]), the binds of a successful run ([acc_step]), and what each part of
    the join and merge paths leaves unchanged. *)

From S2P Require Import Prelude Hash Errors Merkle BarrierWire Window Header AnchorSeed Srx Accept.

Section Stable.
  Context {AP : AnchorProofs}.

(** Whatever the outcome, the context a method leaves is related to the one it found. *)
Definition stable {A} (R : AcceptanceContext -> AcceptanceContext -> Prop) (m : acc A) : Prop := forall c, R c (m c).1.

Context (R : AcceptanceContext -> AcceptanceContext -> Prop) {HR : PreOrder R}.

Lemma stable_ret {A} (a : A) : stable R (mret a).
Proof using HR. by intros c. Qed.

Lemma stable_bind {A B} (m : acc A) (f : A -> acc B) : stable R m -> (forall a, stable R (f a)) -> stable R (mbind f m).
Proof using HR.
  intros Hm Hf c. unfold mbind, acc_bind. specialize (Hm c). destruct (m c) as [c' [a|e]]; cbn in *; [|done].
  etrans; [exact Hm|apply Hf].
Qed.

Lemma stable_lift {A} (r : result AcceptanceError A) : stable R (lift r).
Proof using HR. by intros c. Qed.

Lemma stable_query {A} (f : AcceptanceContext -> result AcceptanceError A) : stable R (query f).
Proof using HR. by intros c. Qed.

Lemma stable_gets {A} (f : AcceptanceContext -> A) : stable R (gets f).
Proof using HR. by intros c. Qed.

Lemma stable_modify f : (forall c, R c (f c)) -> stable R (modify f).
Proof. intros H c. apply H. Qed.

Lemma stable_if {A} (b : bool) (m n : acc A) : stable R m -> stable R n -> stable R (if b then m else n).
Proof. by destruct b. Qed.

End Stable.

Create HintDb stable.

(** Goes through a method by its binds; what is left are its state changes. *)
Ltac stable_step :=
  match goal with
  | |- stable _ (mbind _ _) => apply stable_bind; [apply _| |intros ?]
  | |- stable _ (match ?x with _ => _ end) => destruct x
  | |- stable _ (mret _) => apply stable_ret; apply _
  | |- stable _ (lift _) => apply stable_lift; apply _
  | |- stable _ (query _) => apply stable_query; apply _
  | |- stable _ (gets _) => apply stable_gets; apply _
  | |- _ => solve [eauto with stable]
  end.
Ltac stable_go := repeat (intros; stable_step).

Section Runs.
  Context {AP : AnchorProofs}.

(** The binds of a run. *)
Lemma acc_bind_inv {A B} (f : A -> acc B) (m : acc A) c c' b :
  mbind f m c = (c', Ok b) -> exists c1 a, m c = (c1, Ok a) /\ f a c1 = (c', Ok b).
Proof. unfold mbind, acc_bind. destruct (m c) as [c1 [a|e]]; [|by intros [= _ ?]]. eauto. Qed.

Lemma acc_lift_inv {A} (r : result AcceptanceError A) c c' a : lift r c = (c', Ok a) -> c' = c /\ r = Ok a.
Proof. by intros [= -> ->]. Qed.

Lemma acc_query_inv {A} (f : AcceptanceContext -> result AcceptanceError A) c c' a : query f c = (c', Ok a) -> c' = c /\ f c = Ok a.
Proof. by intros [= -> ->]. Qed.

Lemma acc_modify_inv f c c' a : modify f c = (c', Ok a) -> c' = f c.
Proof. by intros [= <- _]. Qed.

Lemma acc_ret_inv {A} (x : A) c c' a : (mret x : acc A) c = (c', Ok a) -> c' = c /\ a = x.
Proof. by intros [= -> ->]. Qed.

End Runs.

(** One bind of [H : (x ← m; k) c = (c', Ok b)]: the value and the context in between are named. *)
Tactic Notation "acc_step" hyp(H) "as" ident(a) ident(c1) ident(E) :=
  apply acc_bind_inv in H as (c1 & a & E & H).

(** A bind that leaves the context alone. *)
Tactic Notation "acc_pure" hyp(H) "as" ident(a) ident(E) :=
  let c1 := fresh "c" in
  apply acc_bind_inv in H as (c1 & a & E & H);
  first [apply acc_lift_inv in E as [-> E] | apply acc_query_inv in E as [-> E]].

(** ** What a path changes before it commits *)

Section Core.
  Context {HS : Hashing} {WC : WireCodec} {MH : MerkleHash} {SP : SrxProofs} {AP : AnchorProofs}.

(** The part of the context that only the commit of an anchor changes. *)
Definition core (c : AcceptanceContext) : FsPolicy * SuitePolicy * gmap bytes BarrierGroupState *
    gmap bytes (gmap bytes DeviceChainState) * MultiHeadWindow * VckCache HpProof :=
  (fs c, suites c, barrier_groups c, device_chains c, mh_window c, vck_cache c).

Definition same_core (c c' : AcceptanceContext) : Prop := core c' = core c.

#[global] Instance same_core_preorder : PreOrder same_core.
Proof. split; [by intros c|]. intros c1 c2 c3 H1 H2. unfold same_core in *. congruence. Qed.

Lemma core_fields c c' : core c' = core c ->
  fs c' = fs c /\ suites c' = suites c /\ barrier_groups c' = barrier_groups c /\ device_chains c' = device_chains c /\
  mh_window c' = mh_window c.
Proof. unfold core. by intros [= -> -> -> -> -> _]. Qed.

Lemma core_cache c c' : core c' = core c -> vck_cache c' = vck_cache c.
Proof. unfold core. by intros [= _ _ _ _ _ ->]. Qed.

Lemma guard_rho_core parts rho now : stable same_core (guard_rho parts rho now).
Proof. intros c. unfold guard_rho. by destruct (Rho.record _ _ _ _ _) as [g []]. Qed.

Lemma take_accept_seq_core : stable same_core take_accept_seq.
Proof. by intros c. Qed.

Lemma take_pending_core : stable same_core take_pending_capss_witness.
Proof. by intros c. Qed.

Lemma list_parities_core gid root now : stable same_core (list_parities gid root now).
Proof. intros c. unfold list_parities. by destruct (Pivots.list_for _ _ _ _). Qed.

Lemma telemetry_core gid root f : stable same_core (modify (update_telemetry gid root f)).
Proof. by intros c. Qed.

Lemma modify_policy_core v : stable same_core (modify (with_fs_policy_version v)).
Proof. by intros c. Qed.

Lemma modify_base_ts_core v : stable same_core (modify (with_fs_base_ts v)).
Proof. by intros c. Qed.

End Core.

#[export] Hint Resolve guard_rho_core take_accept_seq_core take_pending_core list_parities_core telemetry_core
  modify_policy_core modify_base_ts_core : stable.

Section Phases.
  Context {HS : Hashing} {WC : WireCodec} {MH : MerkleHash} {SP : SrxProofs} {AP : AnchorProofs}.

Lemma check_suites_core hdr gid : stable same_core (check_suites hdr gid).
Proof. unfold check_suites. stable_go. Qed.

Lemma adopt_policy_core hdr : stable same_core (adopt_fs_policy_version hdr).
Proof. unfold adopt_fs_policy_version. stable_go. Qed.

Lemma adopt_base_core hdr : stable same_core (adopt_fs_base_ts hdr).
Proof. unfold adopt_fs_base_ts. stable_go. Qed.

Lemma window_periods_core : stable same_core check_window_periods.
Proof. unfold check_window_periods. stable_go. Qed.

Lemma verify_chain_core gid v : stable same_core (verify_chain gid v).
Proof. unfold verify_chain. stable_go. Qed.

Lemma merge_verify_chain_core gid m : stable same_core (merge_verify_chain gid m).
Proof. unfold merge_verify_chain, verify_chain. stable_go. Qed.

Lemma check_bootstrap_core hdr a b v rho hp : stable same_core (check_bootstrap hdr a b v rho hp).
Proof. unfold check_bootstrap. stable_go. Qed.

End Phases.

#[export] Hint Resolve check_suites_core adopt_policy_core adopt_base_core window_periods_core verify_chain_core
  merge_verify_chain_core check_bootstrap_core : stable.

Section Steps.
  Context {HS : Hashing} {WC : WireCodec} {MH : MerkleHash} {SP : SrxProofs} {AP : AnchorProofs}.

Lemma join_fs_core hdr gid pk d : stable same_core (join_fs hdr gid pk d).
Proof. unfold join_fs. stable_go. Qed.

(** One step of a path that does not commit: what is claimed of the end is claimed of the rest, and
    of a failure here. *)
Lemma core_bind {A B} (P : AcceptanceContext * result AcceptanceError B -> Prop) (m : acc A) (f : A -> acc B) c0 c :
  stable same_core m -> core c = core c0 ->
  (forall c1 e, core c1 = core c0 -> P (c1, Err e)) ->
  (forall c1 a, core c1 = core c0 -> m c = (c1, Ok a) -> P (f a c1)) ->
  P (mbind f m c).
Proof.
  intros Hm Hc He Hk. unfold mbind, acc_bind. specialize (Hm c). unfold same_core in Hm.
  destruct (m c) as [c1 [a|e]] eqn:E; cbn in Hm; [apply Hk|apply He]; congruence.
Qed.

End Steps.

#[export] Hint Resolve join_fs_core : stable.

(** ** The two phases of a path *)

Section TwoPhases.
  Context {HS : Hashing} {WC : WireCodec} {MH : MerkleHash} {SP : SrxProofs} {AP : AnchorProofs}.

(** The path failed before it changed anything but its books. *)
Definition refused (c : AcceptanceContext) {A} (res : AcceptanceContext * result AcceptanceError A) : Prop :=
  core res.1 = core c /\ exists e, res.2 = Err e.

(** The identifiers of an anchor that is about to be committed. *)
Record bound (parts : AnchorInstanceParts) (claim : bytes) (hdr : header) (root : bytes) (b : Bindings) : Prop := {
  bd_roots : check_roots hdr parts = Ok root;
  bd_seed : compute_seed_ctx_hash (build_anchor_seed_ctx hdr) = Ok (b_seed_ctx_hash b);
  bd_weid : derive_we_epoch_id (gid parts) (parent_root parts) (b_seed_ctx_hash b) = Ok (b_weid b);
  bd_claim : b_weid b = claim;
  bd_wid : compute_window_id (gid parts) root (b_seed_ctx_hash b) = Ok (b_wid b)
}.

Lemma check_seed_ctx_inv hdr s :
  check_seed_ctx hdr = Ok s -> s.1 = build_anchor_seed_ctx hdr /\ compute_seed_ctx_hash s.1 = Ok s.2.
Proof.
  unfold check_seed_ctx. intros H. ok_step H as p E1. ok_step H as h E2. ok_step H as u E3. injection H as <-.
  by apply acc_hash_inv in E2.
Qed.

Lemma check_epoch_id_inv parts root s claim weid :
  check_epoch_id parts root s claim = Ok weid ->
  derive_we_epoch_id (gid parts) (parent_root parts) s = Ok weid /\ weid = claim.
Proof.
  unfold check_epoch_id. intros H. ok_step H as u E1. ok_step H as salt E2. ok_step H as u2 E3. ok_step H as d E4.
  ok_step H as u3 E5. injection H as <-. apply acc_hash_inv in E4. apply afreeze_if_inv in E5. by bool_prop.
Qed.

Lemma check_roots_inv hdr parts root : check_roots hdr parts = Ok root -> root = parent_root parts.
Proof.
  unfold check_roots. intros H. ok_step H as r E1. do 3 (let u := fresh in let E := fresh in ok_step H as u E). injection H as <-.
  unfold header_root_is in E1. ok_step E1 as r' E. ok_step E1 as u E2. injection E1 as <-. apply afreeze_if_inv in E2. by bool_prop.
Qed.

(** A join that is about to be committed. *)
Record join_ready (parts : AnchorInstanceParts) (claim : bytes) (hdr : header) (digest : bytes) (root : bytes) (b : Bindings)
    (v : DeviceChainVerification) (rho hp xk : bytes) : Prop := {
  jr_bound : bound parts claim hdr root b;
  jr_pk : get_bytes hdr HDR_POP_PK = Some (dv_pop_pk v);
  jr_chain : chain_fields hdr (dv_pop_pk v) digest = Ok v;
  jr_leaf : leaf_pk_ok hdr = true;
  jr_pop : exists mode, ensure_join_pop hdr (instance_of parts b (Some hp)) mode = Ok tt;
  jr_rho : exists sig, get_bytes hdr HDR_POP_SIG = Some sig /\ derive_rho_commit_from_pop sig xk = Ok rho
}.

Lemma chain_fields_pk hdr pk d v : chain_fields hdr pk d = Ok v -> dv_pop_pk v = pk.
Proof. unfold chain_fields. intros H. do 4 (let x := fresh in let E := fresh in ok_step H as x E). by injection H as <-. Qed.

Lemma join_fs_inv hdr gid pk d c c1 r :
  join_fs hdr gid pk d c = (c1, Ok r) -> chain_fields hdr pk d = Ok r.2.
Proof.
  unfold join_fs. intros H. acc_pure H as u1 E1. acc_step H as u2 c2 E2. acc_pure H as u3 E3. acc_pure H as u4 E4.
  acc_step H as u5 c5 E5. acc_step H as u6 c6 E6. acc_pure H as v E7. acc_step H as u8 c8 E8. by apply acc_ret_inv in H as [_ ->].
Qed.

(** Steps through a path towards its commit. *)
Tactic Notation "path_step" constr(P) "as" ident(a) ident(E) :=
  let c1 := fresh "c" in let H1 := fresh "Hcore" in
  match goal with H : core ?c = core ?c0 |- _ =>
    apply (core_bind P _ _ c0 c); [solve [stable_go]|exact H|by intros; left; split; eauto|intros c1 a H1 E; clear H];
    first [apply acc_lift_inv in E as [_ E] | apply acc_query_inv in E as [_ E] | idtac]
  end.

Lemma join_commitments_inv hdr parts root rho hp ctx seed bundle :
  join_commitments hdr parts root rho = Ok (hp, ctx, seed, bundle) ->
  ctx = build_anchor_seed_ctx hdr /\ compute_seed_ctx_hash (build_anchor_seed_ctx hdr) = Ok seed.
Proof.
  unfold join_commitments. intros H. ok_step H as p E1. ok_step H as hp' E2. ok_step H as s E3. ok_step H as bd E4.
  ok_step H as u E5. injection H as -> <- <- ->. apply check_seed_ctx_inv in E3 as [Hs E3]. by rewrite <- Hs.
Qed.

Lemma check_join_proofs_rho c hdr a b v rho hp epoch xk pending proofs sig :
  check_join_proofs c hdr a b v rho hp epoch xk pending proofs sig = Ok tt -> derive_rho_commit_from_pop sig xk = Ok rho.
Proof.
  unfold check_join_proofs. intros H. do 6 (let x := fresh in let E := fresh in ok_step H as x E). ok_step H as r E7.
  ok_step H as u E8. clear H. apply acc_hash_inv in E7. apply afreeze_if_inv in E8. by bool_prop; subst.
Qed.

(** The same, the equation on the context the step reads kept as [H0]. *)
Tactic Notation "path_read" constr(P) "as" ident(a) ident(E) ident(H0) :=
  match goal with H : core ?c = core ?c0 |- _ => assert (H0 : id (core c = core c0)) by exact H end;
  path_step P as a E.

(** Where a join ends: refused with its state untouched, or in its commit. *)
Definition join_end (parts : AnchorInstanceParts) (claim : bytes) (hdr : header) (note : option string) (digest : bytes) (now : Z)
    (c : AcceptanceContext) (res : AcceptanceContext * result AcceptanceError AcceptanceOutcome) : Prop :=
  refused c res \/
  exists c1 root b v rho hp epoch xk seq proofs,
    core c1 = core c /\ join_ready parts claim hdr digest root b v rho hp xk /\
    res = commit_join hdr parts root b v rho hp epoch xk seq now proofs note c1.

Lemma join_phases parts claim hdr note digest now c :
  join_end parts claim hdr note digest now c (accept_anchor_join parts claim hdr note digest now c).
Proof.
  set (P := join_end parts claim hdr note digest now c). assert (core c = core c) as Hc by done. unfold accept_anchor_join.
  path_step P as u1 E1. path_step P as u2 E2. path_step P as u3 E3. path_step P as root E4. path_step P as u5 E5. path_step P as rho E6.
  path_step P as u7 E7. path_step P as cm E8. destruct cm as [[[hp ctx] seed] bundle]. path_step P as pk E9. path_step P as fsv E10.
  destruct fsv as [epoch v]. path_step P as weid E11. path_step P as sc E12. path_step P as wid E13. path_step P as xk E14.
  path_step P as seq E15. path_step P as u16 E16. path_step P as u17 E17. path_step P as sig E18. path_step P as u19 E19.
  path_step P as proofs E20. path_step P as pending E21. path_step P as u22 E22.
  apply join_fs_inv in E10 as Hv. cbn in Hv. pose proof (chain_fields_pk _ _ _ _ Hv) as <-. clear E10.
  right. do 10 eexists. split_and!; [eassumption| |reflexivity].
  apply acc_hash_inv in E13, E14. apply check_epoch_id_inv in E11 as [E11 ->]. apply header_bytes_inv in E9.
  apply join_commitments_inv in E8 as [-> Hseed]. split; cbn; [by split|done|done| | |].
  - by apply afreeze_if_inv, negb_false_iff in E3.
  - destruct u17. eauto.
  - destruct u22. exists sig. split; [by apply freeze_on_inv in E18|]. by eapply check_join_proofs_rho.
Qed.

(** What the gate and the chain check read is in the core. *)
Lemma core_reads c c1 :
  core c1 = core c ->
  (forall gid, barrier_group_state c1 gid = barrier_group_state c gid) /\
  (forall gid pk, device_chain_get c1 gid pk = device_chain_get c gid pk) /\
  (forall gid o v, verify_device_chain_state c1 gid o v = verify_device_chain_state c gid o v).
Proof.
  intros (Hf & _ & Hg & Hd & _)%core_fields. split_and!.
  - intros. unfold barrier_group_state. by rewrite Hg.
  - intros. unfold device_chain_get. by rewrite Hd.
  - intros. unfold verify_device_chain_state, get_last_accepted_ec, barrier_group_state. by rewrite Hf, Hg.
Qed.

(** The chain check of a merge, if its header names a device. *)
Definition merge_chain_ok (c : AcceptanceContext) (gid : bytes) (m : MergeFields) : Prop :=
  match m_pop_pk m with
  | Some pk => verify_device_chain_state c gid (device_chain_get c gid pk) (merge_chain m pk) = Ok tt
  | None => True
  end.

(** The identifiers that key the verification of a merge. *)
Record merge_identity (parts : AnchorInstanceParts) (hdr : header) (b : Bindings) (rho xk : bytes) : Prop := {
  mi_ctx : b_ctx b = build_anchor_seed_ctx hdr;
  mi_seed : compute_seed_commit (b_ctx b) (gid parts) (cat parts) (b_weid b) = Ok (b_seed_commit b);
  mi_rho : hdr !! HDR_RHO_COMMIT = Some (VBytes rho);
  mi_xk : xk_hash (instance_of parts b None) = Ok xk
}.

(** A merge that is about to be committed. *)
Record merge_ready (c : AcceptanceContext) (parts : AnchorInstanceParts) (claim : bytes) (hdr : header) (mh_heads : list bytes)
    (root : bytes) (b : Bindings) (m : MergeFields) (rho xk wid_old : bytes) (pivot_record : HeadRecord) (required : bool) : Prop := {
  mr_bound : bound parts claim hdr root b;
  mr_fields : merge_fields hdr = Ok m;
  mr_chain : merge_chain_ok c (gid parts) m;
  mr_located : exists pivot_weid, locate_heads (mh_window c) hdr mh_heads rho = Ok (wid_old, pivot_weid, pivot_record);
  mr_checkpoint : exists max_ec, check_checkpoint c (gid parts) (m_checkpoint_ec m) max_ec = Ok tt;
  mr_identity : merge_identity parts hdr b rho xk;
  mr_required : required = srx_required_for_merge hdr parts pivot_record
}.

(** Where a merge ends: refused with its state untouched, or in its commit. *)
Definition merge_end (parts : AnchorInstanceParts) (claim : bytes) (hdr : header) (mh_heads : list bytes) (note : option string)
    (now : Z) (c : AcceptanceContext) (res : AcceptanceContext * result AcceptanceError AcceptanceOutcome) : Prop :=
  refused c res \/
  exists c1 root b m rho xk seq proofs wid_old pivot_record parities pivot required,
    core c1 = core c /\ merge_ready c parts claim hdr mh_heads root b m rho xk wid_old pivot_record required /\
    res = commit_merge hdr parts root m b rho xk seq now proofs mh_heads note wid_old pivot_record parities pivot required c1.

Lemma merge_chain_inv gid m c c1 u :
  merge_verify_chain gid m c = (c1, Ok u) -> merge_chain_ok c gid m.
Proof.
  unfold merge_verify_chain, merge_chain_ok. destruct (m_pop_pk m); [|done]. intros [_ H]%acc_query_inv. by destruct u.
Qed.

Lemma merge_chain_core c c1 gid m : core c1 = core c -> merge_chain_ok c1 gid m -> merge_chain_ok c gid m.
Proof.
  intros (_ & Hd & Hv)%core_reads. unfold merge_chain_ok. destruct (m_pop_pk m); [|done]. by rewrite Hd, Hv.
Qed.

Lemma merge_phases parts claim hdr mh_heads note now c :
  merge_end parts claim hdr mh_heads note now c (accept_anchor_merge parts claim hdr mh_heads note now c).
Proof.
  set (P := merge_end parts claim hdr mh_heads note now c). assert (core c = core c) as Hc by done. unfold accept_anchor_merge.
  path_step P as u1 E1. path_step P as u2 E2. path_step P as u3 E3. path_step P as u4 E4. path_step P as u5 E5.
  path_step P as u6 E6. path_step P as m E7.
  path_read P as u8 E8 H8. path_step P as u9 E9. path_step P as root E10. path_step P as u11 E11. path_step P as rho E12.
  path_step P as seed E13. path_step P as bundle E14. path_step P as wid E15. path_read P as loc E16 H16.
  destruct loc as [[wid_old pivot_weid] pivot_record]. path_step P as u17 E17. path_step P as weid E18. path_step P as seedc E19.
  path_step P as xk E20. path_step P as seq E21. path_step P as u22 E22. path_step P as proofs E23. path_step P as u24 E24.
  unfold merge_against_pivot. path_step P as parities E25. path_step P as pivot E26. path_step P as u27 E27.
  path_step P as u28 E28. path_step P as max_ec E29. path_read P as u30 E30 H30. path_step P as u31 E31.
  unfold id in H8, H16, H30. apply merge_chain_inv, (merge_chain_core c) in E8; [|done].
  apply core_fields in H16 as (_ & _ & _ & _ & Hw). rewrite Hw in E16.
  assert (check_checkpoint c (gid parts) (m_checkpoint_ec m) max_ec = Ok tt) as Hcp.
  { destruct u30. apply core_reads in H30 as (Hg & _ & _). unfold check_checkpoint, get_last_checkpoint_ec, get_last_accepted_ec in E30 |- *.
    by rewrite Hg in E30. }
  apply acc_hash_inv in E15, E19, E20. apply check_epoch_id_inv in E18 as [E18 ->]. apply check_seed_ctx_inv in E13 as [Hs E13]. rewrite Hs in E13.
  apply header_bytes32_inv in E12 as [E12 _].
  right. do 13 eexists. split_and!; [eassumption| |reflexivity]. split; [by split|done|done|eauto|eauto|by split|done].
Qed.

End TwoPhases.

(** ** What a commit changes *)

Section Commits.
  Context {HS : Hashing} {WC : WireCodec} {MH : MerkleHash} {SP : SrxProofs} {AP : AnchorProofs}.

Definition group_of (c : AcceptanceContext) (gid : bytes) : BarrierGroupState := default default_group (barrier_groups c !! gid).

(** What a failing method leaves. *)
Definition fails {A} (R : AcceptanceContext -> AcceptanceContext -> Prop) (m : acc A) : Prop :=
  forall c c' e, m c = (c', Err e) -> R c c'.

Lemma fails_bind {A B} (R : AcceptanceContext -> AcceptanceContext -> Prop) `{!PreOrder R} (m : acc A) (f : A -> acc B) :
  stable R m -> (forall a, fails R (f a)) -> fails R (mbind f m).
Proof.
  intros Hm Hf c c' e. unfold mbind, acc_bind. specialize (Hm c). destruct (m c) as [c1 [a|e1]]; cbn in *.
  - intros H%Hf. by etrans.
  - by intros [= <- <-].
Qed.

Lemma fails_stable {A} R (m : acc A) : stable R m -> fails R m.
Proof. intros H c c' e E. specialize (H c). by rewrite E in H. Qed.

(** A method that cannot fail. *)
Definition total {A} (m : acc A) : Prop := forall c, exists c' a, m c = (c', Ok a).

Lemma total_fails {A} R (m : acc A) : total m -> fails R m.
Proof. intros H c c' e E. destruct (H c) as (? & ? & Hc). congruence. Qed.

Lemma total_modify {B} f (m : acc B) : total m -> total (modify f ;; m).
Proof. intros H c. apply H. Qed.

Lemma total_ret {A} (a : A) : total (mret a).
Proof. intros c. by exists c, a. Qed.

(** *** Insertion of a head *)

Lemma insert_head_inv gid root wid f c c' r :
  insert_head gid root wid f c = (c', r) ->
  fs c' = fs c /\ suites c' = suites c /\ barrier_groups c' = barrier_groups c /\ device_chains c' = device_chains c /\
  mh_window c' = (f (mh_window c)).1 /\ (r = Ok tt -> (f (mh_window c)).2 = Ok tt).
Proof.
  unfold insert_head. destruct (f (mh_window c)) as [w [[]|e]]; [by intros [= <- <-]|].
  case_bool_decide; by intros [= <- <-].
Qed.

(** *** Joins *)

(** The context of a join whose chain is verified, the window aside. *)
Definition joined (gid : bytes) (v : DeviceChainVerification) (c : AcceptanceContext) : AcceptanceContext :=
  record_accepted_ec gid (dv_fs_ec v) (advance_chain gid (dv_pop_pk v) (dv_fs_dev_commit v) (dv_fs_ec v) c).

(** The groups and the chains of two contexts are the same, as are the settings. *)
Definition same_groups (c c' : AcceptanceContext) : Prop :=
  fs c' = fs c /\ suites c' = suites c /\ barrier_groups c' = barrier_groups c /\ device_chains c' = device_chains c.

#[global] Instance same_groups_preorder : PreOrder same_groups.
Proof. split; [by intros c|]. intros c1 c2 c3 (?&?&?&?) (?&?&?&?). unfold same_groups. split_and!; congruence. Qed.

Lemma core_groups c c' : core c' = core c -> same_groups c c'.
Proof. intros (?&?&?&?&?)%core_fields. by split_and!. Qed.

Lemma commit_join_inv hdr parts root b v rho hp epoch xk seq now proofs note c c' r :
  commit_join hdr parts root b v rho hp epoch xk seq now proofs note c = (c', r) ->
  (c' = c /\ exists e, r = Err e) \/
  (verify_device_chain_state c (gid parts) (device_chain_get c (gid parts) (dv_pop_pk v)) v = Ok tt /\
   same_groups (joined (gid parts) v c) c' /\
   let insertion := Mhw.accept_head (mh_window c) (b_wid b) (head_record parts b rho hp xk seq now) now in
   mh_window c' = insertion.1 /\
   forall o, r = Ok o -> insertion.2 = Ok tt /\
     o = outcome_of KNonMerge b rho hp xk seq now note epoch (dv_fs_ec v) (dv_fs_dev_commit v)).
Proof.
  unfold commit_join. unfold mbind at 1, acc_bind at 1. unfold verify_chain, query at 1.
  destruct (verify_device_chain_state _ _ _ _) as [[]|e]; [|intros [= <- <-]; left; eauto].
  unfold mbind at 1, acc_bind at 1, modify at 1. unfold mbind at 1, acc_bind at 1, modify at 1. fold (joined (gid parts) v c).
  intros H. right. split; [done|]. unfold mbind at 1, acc_bind at 1 in H.
  destruct (insert_head _ _ _ _ _) as [c2 [[]|e]] eqn:Ei in H; apply insert_head_inv in Ei as (?&?&?&?&Hw&Hok);
    [|injection H as <- <-; by split_and!].
  cbn in Hw, Hok. unfold mbind, acc_bind, lift, gets, modify in H.
  destruct (header_value_bytes hdr HDR_CRS_ID _); [|injection H as <- <-; by split_and!].
  destruct (header_value_bytes hdr HDR_PARAMS_ID _); [|injection H as <- <-; by split_and!].
  match type of H with context [match ?x with Ok _ => _ | Err _ => _ end] => destruct x end;
    injection H as <- <-; (split_and!; [by split_and!|done|]); [|done]. intros o [= <-]. by split; [apply Hok|].
Qed.

(** *** Merges *)

(** The SRX roots of groups aside, nothing of the groups, the chains or the settings changed. *)
Definition srx_only (c c' : AcceptanceContext) : Prop :=
  fs c' = fs c /\ suites c' = suites c /\ device_chains c' = device_chains c /\
  forall g, group_with_srx None (group_of c' g) = group_with_srx None (group_of c g) /\
    (is_Some (barrier_groups c !! g) -> is_Some (barrier_groups c' !! g)).

#[global] Instance srx_only_preorder : PreOrder srx_only.
Proof.
  split; [by intros c|]. intros c1 c2 c3 (?&?&?&Ha) (?&?&?&Hb). split_and!; [congruence..|].
  intros g. destruct (Ha g), (Hb g). split; [congruence|auto].
Qed.

Lemma same_groups_srx_only c c' : same_groups c c' -> srx_only c c'.
Proof. intros (?&?&Hg&?). split_and!; [done..|]. intros g. unfold group_of. by rewrite Hg. Qed.

Lemma update_group_of gid f c g :
  group_of (update_group gid f c) g = if decide (g = gid) then f (group_of c gid) else group_of c g.
Proof.
  unfold group_of, update_group. cbn. destruct (decide (g = gid)) as [->|]; [by rewrite lookup_insert_eq|].
  by rewrite lookup_insert_ne.
Qed.

Lemma update_group_some gid f c g : is_Some (barrier_groups c !! g) -> is_Some (barrier_groups (update_group gid f c) !! g).
Proof. intros H. cbn. destruct (decide (g = gid)) as [->|]; [by rewrite lookup_insert_eq|by rewrite lookup_insert_ne]. Qed.

Lemma update_group_srx_only gid f c :
  (forall s, group_with_srx None (f s) = group_with_srx None s) -> srx_only c (update_group gid f c).
Proof.
  intros Hf. split_and!; [done..|]. intros g. split; [|apply update_group_some].
  rewrite update_group_of. case_decide; [subst; apply Hf|done].
Qed.

Lemma ensure_group_srx_only gid : stable srx_only (ensure_group_srx_root_sw gid).
Proof. intros c. unfold ensure_group_srx_root_sw. destruct (group_srx_root _); cbn; by apply update_group_srx_only. Qed.

Lemma set_group_srx_only gid r : stable srx_only (modify (set_group_srx_root_sw gid r)).
Proof. intros c. by apply update_group_srx_only. Qed.

Lemma insert_head_srx_only gid root wid f : stable srx_only (insert_head gid root wid f).
Proof.
  intros c. destruct (insert_head gid root wid f c) as [c' r] eqn:E. apply insert_head_inv in E as (?&?&?&?&_).
  by apply same_groups_srx_only.
Qed.

Lemma core_srx_only {A} (m : acc A) : stable same_core m -> stable srx_only m.
Proof. intros H c. by apply same_groups_srx_only, core_groups, H. Qed.

Lemma merge_srx_groups hdr root parts b rho xk r now proofs before c :
  same_groups c (merge_srx hdr root parts b rho xk r now proofs before c).1 /\
  mh_window (merge_srx hdr root parts b rho xk r now proofs before c).1 = mh_window c.
Proof. unfold merge_srx. by destruct (ensure_srx_relations _ _ _ _ _ _ _ _ _ _ _ _ _ _ _). Qed.

Lemma merge_srx_only hdr root parts b rho xk r now proofs before :
  stable srx_only (merge_srx hdr root parts b rho xk r now proofs before).
Proof. intros c. apply same_groups_srx_only, merge_srx_groups. Qed.

Lemma pivot_srx_only f : (forall c, same_groups c (f c)) -> stable srx_only (modify f).
Proof. intros H c. apply same_groups_srx_only, H. Qed.

(** The context of a merge, from the one that has its head: chain, checkpoint, epoch counter. *)
Definition merged (gid : bytes) (m : MergeFields) (c : AcceptanceContext) : AcceptanceContext :=
  record_accepted_ec gid (m_fs_ec m) (set_last_checkpoint_ec gid (m_checkpoint_ec m)
    (match m_pop_pk m with Some pk => advance_chain gid pk (m_fs_dev_commit m) (m_fs_ec m) c | None => c end)).

End Commits.

#[export] Hint Resolve ensure_group_srx_only set_group_srx_only insert_head_srx_only merge_srx_only : stable.
#[export] Hint Extern 2 (stable srx_only _) => apply core_srx_only; solve [eauto with stable] : stable.

Section MergeCommit.
  Context {HS : Hashing} {WC : WireCodec} {MH : MerkleHash} {SP : SrxProofs} {AP : AnchorProofs}.

Lemma finish_merge_fails hdr parts root m b rho hp xk seq now proofs heads note required before pivot :
  fails srx_only (finish_merge hdr parts root m b rho hp xk seq now proofs heads note required before pivot).
Proof.
  unfold finish_merge.
  apply fails_bind; [apply _|by apply pivot_srx_only|intros _]. apply fails_bind; [apply _|stable_go|intros crs].
  apply fails_bind; [apply _|stable_go|intros params]. apply fails_bind; [apply _|stable_go|intros srx_commit].
  apply fails_bind; [apply _|stable_go|intros srx_root]. apply fails_bind; [apply _|stable_go|intros _].
  apply total_fails. do 4 apply total_modify. apply total_ret.
Qed.

Lemma finish_merge_ok hdr parts root m b rho hp xk seq now proofs heads note required before pivot c c' o :
  finish_merge hdr parts root m b rho hp xk seq now proofs heads note required before pivot c = (c', Ok o) ->
  (exists c2, srx_only c c2 /\ mh_window c2 = mh_window c /\ same_groups (merged (gid parts) m c2) c') /\
  mh_window c' = mh_window c /\
  o = outcome_of (KMerge heads) b rho hp xk seq now note (m_fs_epoch_commit m) (m_fs_ec m) (m_fs_dev_commit m).
Proof.
  unfold finish_merge. intros H. acc_step H as u1 c1 E1. apply acc_modify_inv in E1.
  acc_pure H as crs E2. acc_pure H as params E3. acc_pure H as sc E4.
  acc_step H as sr c5 E5. assert (c5 = c1) as -> by (destruct required; by injection E5 as <- _).
  acc_step H as u6 c6 E6. acc_step H as u7 c7 E7. acc_step H as u8 c8 E8. acc_step H as u9 c9 E9. acc_step H as u10 c10 E10.
  apply acc_modify_inv in E7, E8, E9, E10. apply acc_ret_inv in H as [-> ->].
  assert (srx_only c1 c6 /\ mh_window c6 = mh_window c1) as [Hs Hw].
  { destruct required; [|by apply acc_ret_inv in E6 as [-> _]]. acc_pure E6 as u E. apply acc_modify_inv in E6 as ->.
    split; [by apply update_group_srx_only|done]. }
  assert (srx_only c c1) as Hs1 by (subst c1; by apply same_groups_srx_only).
  subst c7 c8 c9 c10. split_and!; [|destruct (m_pop_pk m); cbn; rewrite Hw, E1; done|done].
  exists c6. split_and!; [by etrans|by rewrite Hw, E1|]. unfold merged. by destruct (m_pop_pk m).
Qed.

Lemma commit_merge_fails hdr parts root m b rho xk seq now proofs heads note wid_old pr parities pivot required :
  fails srx_only (commit_merge hdr parts root m b rho xk seq now proofs heads note wid_old pr parities pivot required).
Proof.
  unfold commit_merge. apply fails_bind; [apply _|stable_go|intros before].
  apply fails_bind; [apply _|stable_go|intros _]. apply fails_bind; [apply _|stable_go|intros _].
  apply fails_bind; [apply _|stable_go|intros _]. apply fails_bind; [apply _|stable_go|intros _]. apply finish_merge_fails.
Qed.

Lemma commit_merge_ok hdr parts root m b rho xk seq now proofs heads note wid_old pr parities pivot required c c' o :
  commit_merge hdr parts root m b rho xk seq now proofs heads note wid_old pr parities pivot required c = (c', Ok o) ->
  exists hp c2, let insertion := accept_merge (mh_window c) wid_old (b_wid b) heads (head_record parts b rho hp xk seq now) now in
    insertion.2 = Ok tt /\ mh_window c' = insertion.1 /\ srx_only c c2 /\ same_groups (merged (gid parts) m c2) c' /\
    o = outcome_of (KMerge heads) b rho hp xk seq now note (m_fs_epoch_commit m) (m_fs_ec m) (m_fs_dev_commit m).
Proof.
  unfold commit_merge. intros H. acc_step H as before c1 E1. acc_step H as u2 c2 E2. acc_pure H as u3 E3. acc_step H as u4 c4 E4.
  acc_step H as u5 c5 E5. apply insert_head_inv in E5 as (?&?&?&?&Hw5&Hok).
  apply finish_merge_ok in H as ((c6 & Hs6 & _ & Hm) & Hw & ->).
  assert (srx_only c c1 /\ mh_window c1 = mh_window c) as [Hs1 Hw1].
  { pose proof (ensure_group_srx_only (gid parts) c) as Hs. rewrite E1 in Hs. split; [done|].
    unfold ensure_group_srx_root_sw in E1. destruct (group_srx_root _); by injection E1 as <- _. }
  assert (same_groups c1 c2 /\ mh_window c2 = mh_window c1) as [H12 Hw2].
  { destruct required; [|by apply acc_ret_inv in E2 as [-> _]].
    pose proof (merge_srx_groups hdr root parts b rho xk pr now proofs before c1) as Hs. by rewrite E2 in Hs. }
  assert (same_groups c1 c4) as H14 by (etrans; [exact H12|]; by injection E4 as <- _).
  assert (mh_window c4 = mh_window c) as Hw4 by (rewrite <- Hw1, <- Hw2; by injection E4 as <- _).
  rewrite Hw4 in Hw5, Hok.
  eexists _, c6. destruct u5. split_and!; [by apply Hok|by rewrite Hw| |exact Hm|reflexivity].
  etrans; [exact Hs1|]. etrans; [by apply same_groups_srx_only|].
  etrans; [|exact Hs6]. by apply same_groups_srx_only.
Qed.

End MergeCommit.

(** ** Windows *)

Section Windows.
  Context {HS : Hashing} {WC : WireCodec} {MH : MerkleHash} {SP : SrxProofs} {AP : AnchorProofs}.

Definition same_window (c c' : AcceptanceContext) : Prop := mh_window c' = mh_window c.

#[global] Instance same_window_preorder : PreOrder same_window.
Proof. split; [by intros c|]. intros c1 c2 c3 H1 H2. unfold same_window in *. congruence. Qed.

Lemma core_window {A} (m : acc A) : stable same_core m -> stable same_window m.
Proof. intros H c. specialize (H c). by apply core_fields in H as (_&_&_&_&?). Qed.

Lemma ensure_group_window gid : stable same_window (ensure_group_srx_root_sw gid).
Proof. intros c. unfold ensure_group_srx_root_sw. by destruct (group_srx_root _). Qed.

Lemma finish_merge_window hdr parts root m b rho hp xk seq now proofs heads note required before pivot :
  stable same_window (finish_merge hdr parts root m b rho hp xk seq now proofs heads note required before pivot).
Proof.
  unfold finish_merge. repeat (apply stable_bind; [apply _| |intros ?]);
    try (apply stable_modify; intros c; by destruct (m_pop_pk m)); try (stable_go; fail).
  all: try (destruct required); stable_go; by intros c.
Qed.

(** A commit changes the window by its one insertion, if it gets there. *)
Lemma commit_merge_window hdr parts root m b rho xk seq now proofs heads note wid_old pr parities pivot required c c' r :
  commit_merge hdr parts root m b rho xk seq now proofs heads note wid_old pr parities pivot required c = (c', r) ->
  mh_window c' = mh_window c \/
  exists hp, mh_window c' = (accept_merge (mh_window c) wid_old (b_wid b) heads (head_record parts b rho hp xk seq now) now).1.
Proof.
  unfold commit_merge, mbind, acc_bind. intros H.
  destruct (ensure_group_srx_root_sw _ _) as [c1 [before|e]] eqn:E1; pose proof (ensure_group_window (gid parts) c) as H1;
    rewrite E1 in H1; cbn in H1; [|injection H as <- <-; by left].
  match type of H with context [(if required then ?x else ?y) c1] => destruct ((if required then x else y) c1) as [c2 r2] eqn:E2 end.
  assert (mh_window c2 = mh_window c1) as H2.
  { destruct required; [|by injection E2 as <- _].
    pose proof (proj2 (merge_srx_groups hdr root parts b rho xk pr now proofs before c1)) as Hs. by rewrite E2 in Hs. }
  unfold same_window in H1. destruct r2 as [u2|e2]; [|injection H as <- <-; left; congruence].
  unfold lift in H. destruct (check_rollup _ _ _); [|injection H as <- <-; left; congruence].
  unfold take_pending_capss_witness in H.
  destruct (insert_head _ _ _ _ _) as [c4 r4] eqn:E4. apply insert_head_inv in E4 as (_&_&_&_&Hw&_). cbn in Hw. rewrite H2, H1 in Hw.
  right. eexists. rewrite <- Hw. destruct r4; [|by injection H as <- <-].
  eassert (stable same_window _) as Hf by apply finish_merge_window. specialize (Hf c4). erewrite H in Hf. exact Hf.
Qed.

End Windows.

(** ** The whole of [accept_anchor] *)

Section Whole.
  Context {HS : Hashing} {WC : WireCodec} {MH : MerkleHash} {SP : SrxProofs} {AP : AnchorProofs}.

(** The instant of the next acceptance, and the context once expired heads are gone. *)
Definition instant (c : AcceptanceContext) : Z := (Time.tick (clock c)).2.
Definition started (c : AcceptanceContext) : AcceptanceContext :=
  with_mh_window (Mhw.prune_all (mh_window c) (instant c)) (with_clock (Time.tick (clock c)).1 c).

(** The barrier commit after a path. *)
Definition commit_gate (gid : bytes) (hdr : header) (gate : BarrierGateDecision)
    (res : AcceptanceContext * result AcceptanceError AcceptanceOutcome) : AcceptanceContext * result AcceptanceError AcceptanceOutcome :=
  match res with
  | (c, Ok o) => (apply_barrier_acceptance_commit gid hdr gate c, Ok o)
  | (c, Err e) => (c, Err e)
  end.

(** An anchor is refused before anything but the expiry of heads, or goes through the gate and then
    through the commit of its path. *)
Lemma accept_anchor_cases parts claim hdr c :
  refused (started c) (accept_anchor parts claim hdr c) \/
  exists gate note, enforce_barrier_acceptance_gating (started c) (gid parts) hdr (classify_anchor_type hdr) = Ok gate /\
    ((classify_anchor_type hdr <> MergeAnchor /\
      accept_anchor parts claim hdr c =
        commit_gate (gid parts) hdr gate
          (accept_anchor_join parts claim hdr note (gd_barrier_update_digest gate) (instant c) (started c))) \/
     (classify_anchor_type hdr = MergeAnchor /\ exists heads, merge_heads hdr = Ok heads /\
      accept_anchor parts claim hdr c =
        commit_gate (gid parts) hdr gate (accept_anchor_merge parts claim hdr heads note (instant c) (started c)))).
Proof.
  unfold accept_anchor, started, instant. unfold mbind, acc_bind, next_accept_instant, modify, lift, query.
  destruct (Time.tick (clock c)) as [clock' now]. cbn [fst snd].
  set (c0 := with_mh_window _ _). change (mh_window (with_clock clock' c)) with (mh_window c) in c0.
  destruct (ensure_known_header_keys _ _); [|by left; split; eauto].
  destruct (enforce_anchor_presence_rules _ _); [|by left; split; eauto].
  destruct (enforce_barrier_acceptance_gating _ _ _ _) as [gate|] eqn:Eg; [|by left; split; eauto].
  destruct (afreeze_if _ FREEZE_STARK_OVERSIZE); [|by left; split; eauto].
  destruct (map_err _ _) as [note|]; [|by left; split; eauto].
  unfold is_merge_anchor. case_bool_decide as Ht.
  - destruct (merge_heads hdr) as [heads|] eqn:Eh; [|by left; split; eauto].
    right. exists gate, note. split; [done|]. right. split; [done|]. exists heads. split; [done|].
    unfold commit_gate. by destruct (accept_anchor_merge _ _ _ _ _ _ _) as [? []].
  - right. exists gate, note. split; [done|]. left. split; [done|].
    unfold commit_gate. by destruct (accept_anchor_join _ _ _ _ _ _ _) as [? []].
Qed.

(** An accepted anchor is a join with its identifiers, or a merge with its commit. *)
Lemma accepted_cases parts claim hdr c c' o :
  accept_anchor parts claim hdr c = (c', Ok o) ->
  (exists root b, bound parts claim hdr root b /\ o_we_epoch_id o = b_weid b /\ o_kind o = KNonMerge) \/
  (exists note c1 c2 mh_heads root b m rho xk seq proofs wid pr par pv required,
     core c1 = core (started c) /\ merge_ready (started c) parts claim hdr mh_heads root b m rho xk wid pr required /\
     commit_merge hdr parts root m b rho xk seq (instant c) proofs mh_heads note wid pr par pv required c1 = (c2, Ok o) /\
     o_we_epoch_id o = b_weid b /\ o_kind o = KMerge mh_heads).
Proof.
  intros H. destruct (accept_anchor_cases parts claim hdr c) as [(_ & e & He)|(gate & note & _ & [[_ E]|(_ & mh_heads & _ & E)])];
    [by rewrite H in He|left|right]; rewrite E in H; clear E.
  - destruct (join_phases parts claim hdr note (gd_barrier_update_digest gate) (instant c) (started c)) as
      [(_ & e & He)|(c1 & root & b & v & rho & hp & epoch & xk & seq & proofs & _ & [Hb _ _ _ _ _] & E)].
    { destruct (accept_anchor_join _ _ _ _ _ _ _) as [? r]. cbn in He. by subst r. }
    rewrite E in H. destruct (commit_join _ _ _ _ _ _ _ _ _ _ _ _ _ _) as [c2 r] eqn:Ec.
    apply commit_join_inv in Ec as [(_ & e & ->)|(_ & _ & _ & Hok)]; [done|]. destruct r as [o'|]; [|done]. injection H as _ <-.
    destruct (Hok _ eq_refl) as [_ ->]. by exists root, b.
  - destruct (merge_phases parts claim hdr mh_heads note (instant c) (started c)) as
      [(_ & e & He)|(c1 & root & b & m & rho & xk & seq & proofs & wid & pr & par & pv & req & Hc & Hm & E)].
    { destruct (accept_anchor_merge _ _ _ _ _ _ _) as [? r]. cbn in He. by subst r. }
    rewrite E in H. destruct (commit_merge _ _ _ _ _ _ _ _ _ _ _ _ _ _ _ _ _ _) as [c2 [o'|]] eqn:Ec; [|done]. injection H as _ <-.
    exists note, c1, c2, mh_heads, root, b, m, rho, xk, seq, proofs, wid, pr, par, pv, req. split_and!; [done..| |];
      apply commit_merge_ok in Ec as (hp & c3 & _ & _ & _ & _ & ->); done.
Qed.

(** A regular anchor is never accepted: the join path requires the leaf key that makes an anchor a
    join. *)
Lemma regular_anchor_refused parts claim hdr c c' o :
  accept_anchor parts claim hdr c = (c', Ok o) -> classify_anchor_type hdr <> Regular.
Proof.
  intros H Ht. destruct (accept_anchor_cases parts claim hdr c) as [(_ & e & He)|(gate & note & _ & [[_ E]|(Hm & _)])];
    [by rewrite H in He| |congruence]. rewrite E in H.
  destruct (join_phases parts claim hdr note (gd_barrier_update_digest gate) (instant c) (started c)) as
    [(_ & e & He)|(? & ? & ? & ? & ? & ? & ? & ? & ? & ? & _ & [_ _ _ Hl _ _] & _)].
  - destruct (accept_anchor_join _ _ _ _ _ _ _) as [? r]. cbn in He. by subst r.
  - unfold classify_anchor_type in Ht. unfold leaf_pk_ok, get_bytes in Hl. destruct (_ || _); [done|].
    unfold contains_key in Ht. destruct (hdr !! HDR_BARRIER_LEAF_PK); [|done]. by rewrite bool_decide_true in Ht by eauto.
Qed.

End Whole.
