(* ===== verification/Ledger.v ===== *)
(** * The ledger of a group

    What acceptance promises about one group, as an abstract state machine: the
    state of its key barrier, its epoch counters, the last refresh and the chain
    of every device ([Ledger]), and the steps an anchor may make on it
    ([ledger_step]).  [ledger_of] reads the ledger of a group off an acceptance
    context of [Accept], and [accept_anchor_refines] says that [accept_anchor]
    only ever makes these steps.  What follows about runs of acceptance is then
    proved on the ledger: the epoch counters, how fast they move, and that no
    epoch id is accepted twice. *)

From S2P Require Import Prelude Hash Errors Merkle BarrierWire Window Header AnchorSeed Srx Accept AcceptLemmas.

(** ** The abstract machine *)

Inductive View := NoGroup | Pending | Barrier (version : Z) (roots : bytes).

Record Ledger := {
  lg_view : View;
  lg_checkpoint : Z;
  lg_accepted : Z;
  lg_refresh : option Z;
  lg_min_delta : Z;
  (** the head of each device's chain, with its epoch counter *)
  lg_chains : gmap bytes (bytes * Z)
}.

(** What an anchor says that the ledger records. *)
Record AnchorFacts := {
  af_version : Z;
  af_roots : bytes;
  af_ec : Z;
  af_digest : bytes;
  (** the device, if the anchor names one, with its previous and its new commitment *)
  af_link : option (bytes * bytes * bytes)
}.

Inductive Event := EvJoin (f : AnchorFacts) | EvMerge (f : AnchorFacts) (reason checkpoint : Z).

(** The link extends the device's chain, within the limits on epoch counters. *)
Definition link_ok `{Hashing} (caps : FsCaps) (l : Ledger) (f : AnchorFacts) : Prop :=
  match af_link f with
  | None => True
  | Some (pk, prev, commit) =>
      af_ec f <= sat_add (lg_accepted l) (anchor_max caps) /\
      match lg_chains l !! pk with
      | Some (x, ec) => ec <= af_ec f <= sat_add ec (device_max caps) /\ prev = x
      | None => af_ec f <= sat_add (lg_accepted l) (first_device caps) /\ prev = zero32
      end /\
      dev_chain_commit pk (af_ec f) prev (af_version f) (af_digest f) = Ok commit
  end.

(** An anchor without an update names the barrier as it is. *)
Definition view_kept (v : View) (f : AnchorFacts) : Prop :=
  match v with
  | NoGroup => True
  | Pending => False
  | Barrier version roots => af_version f = version /\ af_roots f = roots
  end.

(** An update opens the barrier at version 0, or moves it one version on; it changes the revocation
    roots exactly if revocation is its reason. *)
Definition view_moved (v : View) (f : AnchorFacts) (reason : Z) : Prop :=
  match v with
  | NoGroup => True
  | Pending => af_version f = 0 /\ reason = 0
  | Barrier version roots => af_version f = sat_add version 1 /\ (reason = 0 <-> af_roots f <> roots)
  end.

(** The epoch of the last refresh is closed, and a refresh keeps its distance. *)
Definition refresh_kept (l : Ledger) (f : AnchorFacts) : Prop := lg_view l = NoGroup \/ lg_refresh l <> Some (af_ec f).
Definition refresh_spaced (l : Ledger) (f : AnchorFacts) (reason : Z) : Prop :=
  match lg_view l, lg_refresh l with
  | Barrier _ _, Some last => reason = 1 -> sat_add last (Z.max (lg_min_delta l) 1) <= af_ec f
  | _, _ => True
  end.

Definition opened (v : View) : View := match v with NoGroup => Pending | v => v end.

Definition linked (f : AnchorFacts) (m : gmap bytes (bytes * Z)) : gmap bytes (bytes * Z) :=
  match af_link f with Some (pk, _, commit) => <[pk := (commit, af_ec f)]> m | None => m end.

Definition after_join (l : Ledger) (f : AnchorFacts) : Ledger :=
  {| lg_view := opened (lg_view l); lg_checkpoint := lg_checkpoint l; lg_accepted := Z.max (lg_accepted l) (af_ec f);
     lg_refresh := lg_refresh l; lg_min_delta := lg_min_delta l; lg_chains := linked f (lg_chains l) |}.

Definition after_merge (l : Ledger) (f : AnchorFacts) (reason checkpoint : Z) : Ledger :=
  {| lg_view := Barrier (af_version f) (af_roots f); lg_checkpoint := checkpoint;
     lg_accepted := Z.max (lg_accepted l) (af_ec f);
     lg_refresh := if reason =? 1 then Some (af_ec f) else lg_refresh l; lg_min_delta := lg_min_delta l;
     lg_chains := linked f (lg_chains l) |}.

Definition touched (l : Ledger) : Ledger :=
  {| lg_view := opened (lg_view l); lg_checkpoint := lg_checkpoint l; lg_accepted := lg_accepted l;
     lg_refresh := lg_refresh l; lg_min_delta := lg_min_delta l; lg_chains := lg_chains l |}.

(** The steps of a group's ledger. *)
Inductive ledger_step `{Hashing} (caps : FsCaps) (l : Ledger) : option Event -> Ledger -> Prop :=
  | step_none : ledger_step caps l None l
  | step_touch : ledger_step caps l None (touched l)
  | step_join f :
      is_Some (af_link f) -> link_ok caps l f -> view_kept (lg_view l) f -> refresh_kept l f ->
      ledger_step caps l (Some (EvJoin f)) (after_join l f)
  | step_merge f reason checkpoint :
      0 <= reason <= 2 -> link_ok caps l f -> view_moved (lg_view l) f reason -> refresh_kept l f -> refresh_spaced l f reason ->
      lg_checkpoint l <= checkpoint <= lg_accepted l ->
      ledger_step caps l (Some (EvMerge f reason checkpoint)) (after_merge l f reason checkpoint).

Lemma step_none_inv `{Hashing} caps l l' : ledger_step caps l None l' -> l' = l \/ l' = touched l.
Proof. inversion 1; eauto. Qed.

Lemma step_join_inv `{Hashing} caps l f l' : ledger_step caps l (Some (EvJoin f)) l' ->
  is_Some (af_link f) /\ link_ok caps l f /\ view_kept (lg_view l) f /\ l' = after_join l f.
Proof. by inversion 1. Qed.

Lemma step_merge_inv `{Hashing} caps l f r cp l' : ledger_step caps l (Some (EvMerge f r cp)) l' ->
  link_ok caps l f /\ view_moved (lg_view l) f r /\ lg_checkpoint l <= cp <= lg_accepted l /\ l' = after_merge l f r cp.
Proof. by inversion 1. Qed.

(** ** The ledger of a context *)

Section LedgerOf.
  Context {HS : Hashing} {WC : WireCodec} {MH : MerkleHash} {SP : SrxProofs} {AP : AnchorProofs}.

Definition view_of (o : option BarrierGroupState) : View :=
  match o with
  | None => NoGroup
  | Some s => if barrier_initialized s then Barrier (barrier_version s) (barrier_roots_hash s) else Pending
  end.

Definition link_of (d : DeviceChainState) : bytes * Z := (default zero32 (last_commit d), last_ec d).

Definition ledger_of (c : AcceptanceContext) (g : bytes) : Ledger :=
  {| lg_view := view_of (barrier_groups c !! g);
     lg_checkpoint := last_checkpoint_ec (group_of c g);
     lg_accepted := last_accepted_ec (group_of c g);
     lg_refresh := last_pcs_refresh_ec (group_of c g);
     lg_min_delta := pcs_refresh_min_delta_group_ec (group_of c g);
     lg_chains := link_of <$> default ∅ (device_chains c !! g) |}.

(** What the header of an anchor says. *)
Definition facts_of (hdr : header) (f : AnchorFacts) : Prop :=
  hdr !! HDR_BARRIER_VERSION = Some (VInteger (af_version f)) /\
  hdr !! HDR_FS_EC = Some (VInteger (af_ec f)) /\ is_u64 (af_ec f) /\ is_u64 (af_version f) /\
  Header.compute_barrier_update_digest hdr = Ok (af_digest f) /\
  compute_revocation_roots_hash hdr = Ok (af_roots f) /\
  match af_link f with
  | Some (pk, prev, commit) =>
      get_bytes hdr HDR_POP_PK = Some pk /\ hdr !! HDR_FS_DEV_PREV_COMMIT = Some (VBytes prev) /\
      hdr !! HDR_FS_DEV_COMMIT = Some (VBytes commit)
  | None => get_bytes hdr HDR_POP_PK = None
  end.

Definition event_of (hdr : header) (ev : Event) : Prop :=
  match ev with
  | EvJoin f => classify_anchor_type hdr <> MergeAnchor /\ facts_of hdr f
  | EvMerge f reason checkpoint =>
      classify_anchor_type hdr = MergeAnchor /\ facts_of hdr f /\
      hdr !! HDR_BARRIER_UPDATE_REASON = Some (VInteger reason) /\
      hdr !! HDR_FS_CHECKPOINT_EC = Some (VInteger checkpoint)
  end.

(** *** Reading changes of the context on the ledger *)

Lemma ledger_groups c c' g : same_groups c c' -> ledger_of c' g = ledger_of c g.
Proof. intros (_ & _ & Hg & Hd). unfold ledger_of, group_of. by rewrite Hg, Hd. Qed.

Lemma device_chain_get_links c g pk : lg_chains (ledger_of c g) !! pk = link_of <$> device_chain_get c g pk.
Proof. cbn. rewrite lookup_fmap. unfold device_chain_get. by destruct (device_chains c !! g). Qed.

Lemma accepted_ledger c g : get_last_accepted_ec c g = lg_accepted (ledger_of c g).
Proof. unfold get_last_accepted_ec, barrier_group_state. cbn. unfold group_of. by destruct (barrier_groups c !! g). Qed.

Lemma checkpoint_ledger c g : get_last_checkpoint_ec c g = lg_checkpoint (ledger_of c g).
Proof. unfold get_last_checkpoint_ec, barrier_group_state. cbn. unfold group_of. by destruct (barrier_groups c !! g). Qed.

(** The refusal of a merge may have brought the group into being. *)
Lemma ledger_srx_only caps c c' g : srx_only c c' -> ledger_step caps (ledger_of c g) None (ledger_of c' g).
Proof.
  intros (_ & _ & Hd & Hg). destruct (Hg g) as [He Hs]. injection He as Hi Hv Hr Hk Hc Ha Hn Hm Hp Hpd Hpg Hps.
  assert (ledger_of c' g = ledger_of c g \/ ledger_of c' g = touched (ledger_of c g)) as [-> | ->]; [|constructor..].
  unfold ledger_of, touched. cbn [lg_view lg_checkpoint lg_accepted lg_refresh lg_min_delta lg_chains].
  rewrite Hd, Hc, Ha, Hp, Hpg. unfold group_of in Hi, Hv, Hr.
  destruct (barrier_groups c !! g) as [s|] eqn:E, (barrier_groups c' !! g) as [s'|] eqn:E'; cbn in *.
  - left. by rewrite Hi, Hv, Hr.
  - by destruct (Hs ltac:(eauto)).
  - right. by rewrite Hi.
  - by left.
Qed.

Lemma ledger_other c g g' f pk h :
  g <> g' -> ledger_of (update_group g f c) g' = ledger_of c g' /\ ledger_of (update_chain g pk h c) g' = ledger_of c g'.
Proof. intros Hg. unfold ledger_of, group_of. cbn. by rewrite !lookup_insert_ne. Qed.

Lemma update_chain_link g pk f c : lg_chains (ledger_of (update_chain g pk f c) g) =
  <[pk := link_of (f (default default_chain (device_chain_get c g pk)))]> (lg_chains (ledger_of c g)).
Proof. cbn. rewrite lookup_insert_eq. cbn. by rewrite fmap_insert. Qed.

(** The chain check is the link of the ledger. *)
Lemma verify_chain_link c g v (f : AnchorFacts) :
  verify_device_chain_state c g (device_chain_get c g (dv_pop_pk v)) v = Ok tt ->
  af_link f = Some (dv_pop_pk v, dv_fs_dev_prev_commit v, dv_fs_dev_commit v) -> af_ec f = dv_fs_ec v ->
  af_version f = dv_barrier_version v -> af_digest f = dv_barrier_update_digest v ->
  link_ok (fs_caps (fs c)) (ledger_of c g) f.
Proof.
  intros H Hl He Hv Hd. unfold link_ok. rewrite Hl, He, Hv, Hd. clear Hl He Hv Hd.
  rewrite device_chain_get_links, <- accepted_ledger. unfold verify_device_chain_state in H.
  ok_step H as u1 E1. ok_step H as prev E2. ok_step H as u3 E3. ok_step H as commit E4.
  apply afreeze_if_inv in E1, E3, H. apply acc_hash_inv in E4. bool_prop. subst.
  split_and!; [lia| |done].
  destruct (device_chain_get c g (dv_pop_pk v)) as [d|]; cbn [fmap option_fmap option_map].
  - ok_step E2 as u5 E5. ok_step E2 as u6 E6. apply afreeze_if_inv in E5, E6. bool_prop. injection E2 as <-. cbn. split; [lia|done].
  - ok_step E2 as u5 E5. ok_step E2 as u6 E6. apply afreeze_if_inv in E6. bool_prop. injection E2 as <-. split; [lia|done].
Qed.

End LedgerOf.

(** ** The gate on the ledger *)

(** Case split on the [if] a computation starts with. *)
Ltac if_in H := match type of H with (if ?b then _ else _) = _ => let E := fresh "Hif" in destruct b eqn:E end.

Section Gate.
  Context {HS : Hashing} {WC : WireCodec} {MH : MerkleHash} {SP : SrxProofs} {AP : AnchorProofs}.

(** What the decision of the gate repeats of the header. *)
Record gate_reads (hdr : header) (gate : BarrierGateDecision) : Prop := {
  gr_version : hdr !! HDR_BARRIER_VERSION = Some (VInteger (gd_barrier_version gate)) /\ is_u64 (gd_barrier_version gate);
  gr_ec : hdr !! HDR_FS_EC = Some (VInteger (gd_fs_ec gate)) /\ is_u64 (gd_fs_ec gate);
  gr_reason : parse_barrier_update_reason hdr = Ok (gd_barrier_update_reason gate);
  gr_digest : Header.compute_barrier_update_digest hdr = Ok (gd_barrier_update_digest gate);
  gr_roots : compute_revocation_roots_hash hdr = Ok (gd_revocation_roots_hash gate)
}.

Lemma gate_group_same c g hdr t s d gate : gate_group c g hdr t s d = Ok gate -> gate = d.
Proof.
  unfold gate_group. intros H. ok_step H as u1 E1. ok_step H as u2 E2. if_in H.
  - if_in H; [|done]. destruct (gd_parsed_barrier_update d); [|done]. if_in H; by inv_all.
  - if_in H; [ok_step H as u3 E3; ok_step H as p E4; ok_step H as u5 E5; by inv_all|].
    if_in H; [ok_step H as p E4; ok_step H as u5 E5; ok_step H as u6 E6; by inv_all|]. ok_step H as u3 E3. by inv_all.
Qed.

Lemma gate_inv c g hdr t gate :
  enforce_barrier_acceptance_gating c g hdr t = Ok gate ->
  gate_reads hdr gate /\ (forall s, barrier_groups c !! g = Some s -> gate_group c g hdr t s gate = Ok gate).
Proof.
  unfold enforce_barrier_acceptance_gating. intros H. ok_step H as version E1. ok_step H as ec E2. ok_step H as reason E3.
  ok_step H as digest E4. ok_step H as roots E5. ok_step H as u E6. ok_step H as parsed E7.
  apply header_u64_inv in E1, E2. unfold barrier_group_state in H. destruct (barrier_groups c !! g) as [s|] eqn:Eg.
  - pose proof (gate_group_same _ _ _ _ _ _ _ H) as ->. split; [by split|]. by intros ? [= <-].
  - injection H as <-. by split; [split|].
Qed.

(** The facts the gate decided on. *)
Definition gate_facts (gate : BarrierGateDecision) (f : AnchorFacts) : Prop :=
  af_version f = gd_barrier_version gate /\ af_roots f = gd_revocation_roots_hash gate /\ af_ec f = gd_fs_ec gate.

Lemma check_refresh_rate_spaced c g hdr s ec last u :
  check_refresh_rate c g hdr s ec = Ok u -> last_pcs_refresh_ec s = Some last ->
  sat_add last (Z.max (pcs_refresh_min_delta_group_ec s) 1) <= ec.
Proof.
  unfold check_refresh_rate. intros H Hl. rewrite Hl in H. ok_step H as u1 E1. ok_step E1 as u2 E2. clear H E1.
  apply afreeze_if_inv in E2. bool_prop. lia.
Qed.

Lemma update_advances_inv p prev v r : update_advances p prev v r = true ->
  apu_barrier_version p = v /\ apu_prev_barrier_version p = prev /\ apu_revocation_roots_hash p = r.
Proof. unfold update_advances. intros H. by bool_prop. Qed.

(** A gate that lets an anchor through lets it make a step of the ledger. *)
Lemma gate_ledger c g hdr t gate f :
  enforce_barrier_acceptance_gating c g hdr t = Ok gate -> gate_facts gate f ->
  refresh_kept (ledger_of c g) f /\
  match gd_barrier_update_reason gate with
  | None => view_kept (lg_view (ledger_of c g)) f
  | Some reason => view_moved (lg_view (ledger_of c g)) f reason /\ refresh_spaced (ledger_of c g) f reason
  end.
Proof.
  intros (_ & H)%gate_inv (Hv & Hr & He). unfold refresh_kept, refresh_spaced. cbn [ledger_of lg_view lg_refresh lg_min_delta].
  unfold group_of. destruct (barrier_groups c !! g) as [s|] eqn:Eg; [|split; [by left|by case_match]].
  specialize (H s eq_refl). unfold gate_group in H. ok_step H as u1 E1. ok_step H as u2 E2. apply afreeze_if_inv in E1. bool_prop.
  split; [right; by rewrite He|]. clear E1 E2. cbn [default from_option id view_of]. destruct (barrier_initialized s); cbn [negb] in H.
  - if_in H; bool_prop.
    + ok_step H as u3 E3. ok_step H as p E4. ok_step H as u5 E5. apply afreeze_if_inv, negb_false_iff in E5. clear H.
      rewrite !andb_true_iff in E5. destruct E5 as [[[[_ _] E6] E7] _]. bool_prop. rewrite E6. cbn. rewrite Hr.
      split; [split; [lia|by split]|]. by destruct (last_pcs_refresh_ec s).
    + if_in H.
      * ok_step H as p E4. ok_step H as u5 E5. apply afreeze_if_inv, negb_false_iff in E5.
        rewrite !andb_true_iff in E5. destruct E5 as [[[_ E6] E7] _]. unfold proactive_reason in E6.
        destruct (gd_barrier_update_reason gate) as [r|] eqn:Er; [|done]. bool_prop. cbn.
        split; [split; [lia|]; split; [by intros ->|congruence]|].
        destruct (last_pcs_refresh_ec s) eqn:El; [|done]. intros ->. rewrite He. ok_step H as u7 E8.
        rewrite bool_decide_eq_true_2 in E8 by done. by eapply check_refresh_rate_spaced.
      * ok_step H as u5 E5. apply afreeze_if_inv in E5. bool_prop. destruct (gd_barrier_update_reason gate); [|cbn; split; [lia|congruence]].
        exfalso. eauto.
  - if_in H; [|done]. destruct (gd_parsed_barrier_update gate); [|done]. if_in H; [|done]. clear H.
    repeat match goal with H : _ && _ = true |- _ => apply andb_true_iff in H as [? ?] end. bool_prop.
    match goal with H : gd_barrier_update_reason gate = Some 0 |- _ => rewrite H end. cbn. split; [split; [lia|done]|].
    by destruct (last_pcs_refresh_ec s).
Qed.

End Gate.

(** ** Refinement *)

Section Refinement.
  Context {HS : Hashing} {WC : WireCodec} {MH : MerkleHash} {SP : SrxProofs} {AP : AnchorProofs}.

Definition join_facts (gate : BarrierGateDecision) (v : DeviceChainVerification) : AnchorFacts :=
  {| af_version := dv_barrier_version v; af_roots := gd_revocation_roots_hash gate; af_ec := dv_fs_ec v;
     af_digest := dv_barrier_update_digest v;
     af_link := Some (dv_pop_pk v, dv_fs_dev_prev_commit v, dv_fs_dev_commit v) |}.

Definition merge_facts (gate : BarrierGateDecision) (m : MergeFields) : AnchorFacts :=
  {| af_version := m_barrier_version m; af_roots := gd_revocation_roots_hash gate; af_ec := m_fs_ec m; af_digest := m_digest m;
     af_link := match m_pop_pk m with Some pk => Some (pk, m_fs_dev_prev_commit m, m_fs_dev_commit m) | None => None end |}.

Lemma if_ltb_max a b : (if a <? b then b else a) = Z.max a b.
Proof. case_if; bool_prop; lia. Qed.

(** The chains after a link. *)
Lemma advance_links g pk commit ec c :
  lg_chains (ledger_of (advance_chain g pk commit ec c) g) = <[pk := (commit, ec)]> (lg_chains (ledger_of c g)).
Proof. apply update_chain_link. Qed.

(** The ledger after a change of the group, the chains aside. *)
Lemma ledger_update_group g f c :
  let s := f (group_of c g) in
  ledger_of (update_group g f c) g =
    {| lg_view := view_of (Some s); lg_checkpoint := last_checkpoint_ec s; lg_accepted := last_accepted_ec s;
       lg_refresh := last_pcs_refresh_ec s; lg_min_delta := pcs_refresh_min_delta_group_ec s;
       lg_chains := lg_chains (ledger_of c g) |}.
Proof.
  cbn. unfold ledger_of. rewrite update_group_of, decide_True by done. cbn [update_group with_barrier_groups barrier_groups device_chains].
  by rewrite lookup_insert_eq.
Qed.

Lemma joined_ledger gate g v c : ledger_of (joined g v c) g = after_join (ledger_of c g) (join_facts gate v).
Proof.
  unfold joined, record_accepted_ec. rewrite ledger_update_group, advance_links. unfold after_join. f_equal.
  - cbn. unfold group_of. cbn. by destruct (barrier_groups c !! g) as [s|]; cbn; [destruct (barrier_initialized s)|].
  - cbn. by rewrite if_ltb_max.
Qed.

(** A change of a chain's books is not seen. *)
Lemma ledger_same_link g pk f c x :
  lg_chains (ledger_of c g) !! pk = Some x -> (forall d, link_of (f d) = link_of d) ->
  ledger_of (update_chain g pk f c) g = ledger_of c g.
Proof.
  intros Hx Hf. pose proof (update_chain_link g pk f c) as H. rewrite Hf in H. rewrite device_chain_get_links in Hx.
  destruct (device_chain_get c g pk) as [d|] eqn:E; [|done]. cbn [default from_option id] in H.
  rewrite insert_id in H by (by rewrite device_chain_get_links, E).
  unfold ledger_of in *. cbn [lg_chains] in H. by rewrite H.
Qed.

Lemma merged_chains g m c gate : lg_chains (ledger_of (merged g m c) g) = linked (merge_facts gate m) (lg_chains (ledger_of c g)).
Proof.
  unfold merged, record_accepted_ec, set_last_checkpoint_ec. rewrite !ledger_update_group. cbn [lg_chains].
  unfold linked. cbn [merge_facts af_link af_ec]. destruct (m_pop_pk m); [apply advance_links|done].
Qed.

Lemma merged_group g m c :
  group_of (merged g m c) g = group_with_ecs (m_checkpoint_ec m)
    (Z.max (Z.max (last_accepted_ec (group_of c g)) (m_checkpoint_ec m)) (m_fs_ec m)) (group_of c g).
Proof.
  unfold merged, record_accepted_ec, set_last_checkpoint_ec. rewrite !update_group_of, !decide_True by done. cbn.
  rewrite !if_ltb_max. by destruct (m_pop_pk m).
Qed.

(** The ledger after a merge and the commit of its gate. *)
Lemma merged_ledger g m c c1 hdr gate r :
  same_groups (merged g m c) c1 -> gd_barrier_update_reason gate = Some r -> gate_facts gate (merge_facts gate m) ->
  m_pop_pk m = get_bytes hdr HDR_POP_PK -> m_checkpoint_ec m <= lg_accepted (ledger_of c g) ->
  ledger_of (apply_barrier_acceptance_commit g hdr gate c1) g =
    after_merge (ledger_of c g) (merge_facts gate m) r (m_checkpoint_ec m).
Proof.
  intros Hs Hr (Hv & _ & He) Hpk Hc. cbn [merge_facts af_version af_ec] in Hv, He.
  pose proof (merged_chains g m c gate) as Hl. pose proof (merged_group g m c) as Hgr.
  rewrite <- (ledger_groups _ _ g Hs) in Hl.
  assert (group_of c1 g = group_of (merged g m c) g) as Hg1 by (unfold group_of; destruct Hs as (_ & _ & -> & _); done).
  rewrite Hgr in Hg1. clear Hs Hgr.
  assert (ledger_of (apply_barrier_acceptance_commit g hdr gate c1) g = ledger_of (update_group g (commit_group gate) c1) g) as ->.
  { unfold apply_barrier_acceptance_commit. rewrite Hr, <- Hpk. destruct (m_pop_pk m) as [pk|] eqn:Em; [|done]. case_if; [|done].
    apply (ledger_same_link _ _ _ _ (m_fs_dev_commit m, m_fs_ec m)); [|done]. rewrite ledger_update_group. cbn [lg_chains].
    rewrite Hl. unfold linked. cbn [merge_facts af_link af_ec]. rewrite Em. apply lookup_insert_eq. }
  rewrite ledger_update_group, Hl, Hg1. unfold after_merge. cbn [merge_facts af_version af_roots af_ec]. cbn in Hc.
  f_equal; [cbn; by rewrite Hv|cbn; lia|]. cbn [commit_group last_pcs_refresh_ec]. rewrite Hr, <- He.
  destruct (Z.eqb_spec r 1) as [->|]; [by rewrite bool_decide_eq_true_2|]. by rewrite bool_decide_eq_false_2 by congruence.
Qed.

(** *** Other groups *)

Lemma joined_other g v c g' : g <> g' -> ledger_of (joined g v c) g' = ledger_of c g'.
Proof.
  intros Hg. unfold joined, record_accepted_ec, advance_chain.
  etrans; [by apply (ledger_other _ _ _ _ [] id)|]. by apply (ledger_other _ _ _ id).
Qed.

Lemma merged_other g m c g' : g <> g' -> ledger_of (merged g m c) g' = ledger_of c g'.
Proof.
  intros Hg. unfold merged, record_accepted_ec, set_last_checkpoint_ec.
  do 2 (etrans; [by apply (ledger_other _ _ _ _ [] id)|]). destruct (m_pop_pk m); [|done]. by apply (ledger_other _ _ _ id).
Qed.

Lemma commit_gate_other g hdr gate c g' : g <> g' -> ledger_of (apply_barrier_acceptance_commit g hdr gate c) g' = ledger_of c g'.
Proof.
  intros Hg. unfold apply_barrier_acceptance_commit. destruct (gd_barrier_update_reason gate); [|done].
  assert (ledger_of (update_group g (commit_group gate) c) g' = ledger_of c g') as Hu by (by apply (ledger_other _ _ _ _ [] id)).
  destruct (get_bytes hdr HDR_POP_PK); [|done]. case_if; [|done]. etrans; [by apply (ledger_other _ _ _ id)|done].
Qed.

(** *** What the two paths read of the header *)

Lemma chain_fields_reads hdr pk d v :
  chain_fields hdr pk d = Ok v ->
  hdr !! HDR_BARRIER_VERSION = Some (VInteger (dv_barrier_version v)) /\ hdr !! HDR_FS_EC = Some (VInteger (dv_fs_ec v)) /\
  hdr !! HDR_FS_DEV_PREV_COMMIT = Some (VBytes (dv_fs_dev_prev_commit v)) /\
  hdr !! HDR_FS_DEV_COMMIT = Some (VBytes (dv_fs_dev_commit v)) /\ dv_barrier_update_digest v = d.
Proof.
  unfold chain_fields. intros H. ok_step H as ec E1. ok_step H as prev E2. ok_step H as commit E3. ok_step H as version E4.
  injection H as <-. cbn. apply header_u64_inv in E1, E4. apply header_bytes32_inv in E2, E3. naive_solver.
Qed.

Lemma merge_fields_reads hdr m :
  merge_fields hdr = Ok m ->
  hdr !! HDR_BARRIER_VERSION = Some (VInteger (m_barrier_version m)) /\ hdr !! HDR_FS_EC = Some (VInteger (m_fs_ec m)) /\
  hdr !! HDR_FS_DEV_PREV_COMMIT = Some (VBytes (m_fs_dev_prev_commit m)) /\
  hdr !! HDR_FS_DEV_COMMIT = Some (VBytes (m_fs_dev_commit m)) /\
  hdr !! HDR_FS_CHECKPOINT_EC = Some (VInteger (m_checkpoint_ec m)) /\ is_Some (hdr !! HDR_BARRIER_UPDATE_REASON) /\
  Header.compute_barrier_update_digest hdr = Ok (m_digest m) /\ m_pop_pk m = get_bytes hdr HDR_POP_PK.
Proof.
  unfold merge_fields. intros H. ok_step H as cp E0. ok_step H as ec E1. ok_step H as r E2. ok_step H as version E3.
  ok_step H as epoch E4. ok_step H as prev E5. ok_step H as commit E6. ok_step H as hp E7. ok_step H as digest E8.
  injection H as <-. cbn. apply header_u64_inv in E0, E1, E2, E3. apply header_bytes32_inv in E5, E6. naive_solver.
Qed.

Lemma join_facts_ok hdr gate v :
  gate_reads hdr gate -> chain_fields hdr (dv_pop_pk v) (gd_barrier_update_digest gate) = Ok v ->
  get_bytes hdr HDR_POP_PK = Some (dv_pop_pk v) ->
  facts_of hdr (join_facts gate v) /\ gate_facts gate (join_facts gate v).
Proof.
  intros [[Hv1 Hv2] [He1 He2] _ Hd Hr] (Hv & He & Hp & Hc & Hdd)%chain_fields_reads Hpk.
  rewrite Hv1 in Hv. injection Hv as Hv. rewrite He1 in He. injection He as He.
  unfold facts_of, gate_facts. cbn. rewrite <- Hv, <- He, Hdd. by split_and!.
Qed.

Lemma merge_facts_ok hdr gate m :
  gate_reads hdr gate -> merge_fields hdr = Ok m -> facts_of hdr (merge_facts gate m) /\ gate_facts gate (merge_facts gate m).
Proof.
  intros [[Hv1 Hv2] [He1 He2] _ Hd Hr] (Hv & He & Hp & Hc & _ & _ & Hdd & Hpk)%merge_fields_reads.
  rewrite Hv1 in Hv. injection Hv as Hv. rewrite He1 in He. injection He as He.
  unfold facts_of, gate_facts. cbn. rewrite <- Hv, <- He. rewrite <- Hpk. by destruct (m_pop_pk m); split_and!.
Qed.

(** What a call of [accept_anchor] with these arguments does to the ledger of every group. *)
Definition refines (parts : AnchorInstanceParts) (hdr : header) (c : AcceptanceContext)
    (res : AcceptanceContext * result AcceptanceError AcceptanceOutcome) : Prop :=
  fs res.1 = fs c /\
  forall g, exists ev, ledger_step (fs_caps (fs c)) (ledger_of c g) ev (ledger_of res.1 g) /\
    (forall e, ev = Some e -> g = gid parts /\ event_of hdr e) /\
    (forall o, res.2 = Ok o -> g = gid parts -> is_Some ev).

Lemma refused_refines parts hdr c {e} c1 : srx_only c c1 -> refines parts hdr c (c1, Err e).
Proof. intros H. split; [by destruct H|]. intros g. exists None. split; [by apply ledger_srx_only|done]. Qed.

Lemma join_refines parts hdr c gate v c1 r :
  enforce_barrier_acceptance_gating c (gid parts) hdr (classify_anchor_type hdr) = Ok gate ->
  classify_anchor_type hdr <> MergeAnchor ->
  chain_fields hdr (dv_pop_pk v) (gd_barrier_update_digest gate) = Ok v -> get_bytes hdr HDR_POP_PK = Some (dv_pop_pk v) ->
  verify_device_chain_state c (gid parts) (device_chain_get c (gid parts) (dv_pop_pk v)) v = Ok tt ->
  same_groups (joined (gid parts) v c) c1 ->
  refines parts hdr c (commit_gate (gid parts) hdr gate (c1, r)).
Proof.
  intros Hg Ht Hf Hpk Hv Hs. pose proof (gate_inv _ _ _ _ _ Hg) as (Hrd & _).
  pose proof (join_facts_ok _ _ _ Hrd Hf Hpk) as (Hfo & Hgf).
  assert (gd_barrier_update_reason gate = None) as Hr.
  { destruct (gd_barrier_update_reason gate) eqn:E; [|done]. destruct Hrd as [_ _ Hr _ _]. rewrite E in Hr.
    apply reason_of_update in Hr as (_ & Hr & _). destruct Ht. apply classify_reason. by rewrite Hr. }
  assert (commit_gate (gid parts) hdr gate (c1, r) = (c1, r)) as -> by (unfold commit_gate, apply_barrier_acceptance_commit; rewrite Hr; by destruct r).
  pose proof (gate_ledger _ _ _ _ _ _ Hg Hgf) as [Hk Hw]. rewrite Hr in Hw.
  split; [by destruct Hs as (?&_)|]. intros g. cbn [fst snd]. rewrite (ledger_groups _ _ _ Hs).
  destruct (decide (g = gid parts)) as [->|Hne].
  - exists (Some (EvJoin (join_facts gate v))). rewrite (joined_ledger gate). split_and!; [|by intros ? [= <-]|done].
    constructor; [by eexists| |done|done]. by apply (verify_chain_link _ _ v).
  - exists None. rewrite joined_other by done. split_and!; [constructor|done|done].
Qed.

Lemma merge_refines parts hdr c gate m c1 c2 o :
  enforce_barrier_acceptance_gating c (gid parts) hdr (classify_anchor_type hdr) = Ok gate ->
  classify_anchor_type hdr = MergeAnchor -> merge_fields hdr = Ok m -> merge_chain_ok c (gid parts) m ->
  get_last_checkpoint_ec c (gid parts) <= m_checkpoint_ec m <= get_last_accepted_ec c (gid parts) ->
  srx_only c c1 -> same_groups (merged (gid parts) m c1) c2 ->
  refines parts hdr c (commit_gate (gid parts) hdr gate (c2, Ok o)).
Proof.
  intros Hg Ht Hf Hch Hcp Hs Hm. pose proof (gate_inv _ _ _ _ _ Hg) as (Hrd & _).
  pose proof (merge_facts_ok _ _ _ Hrd Hf) as (Hfo & Hgf).
  pose proof (merge_fields_reads _ _ Hf) as (_ & _ & _ & _ & Hck & [v Hrs] & _ & Hpk).
  pose proof (reason_of_update _ _ (gr_reason _ _ Hrd)) as Hr. destruct (gd_barrier_update_reason gate) as [r|] eqn:Er; [|naive_solver].
  pose proof (gate_ledger _ _ _ _ _ _ Hg Hgf) as [Hk Hw]. rewrite Er in Hw.
  rewrite checkpoint_ledger, accepted_ledger in Hcp.
  assert (forall g, lg_accepted (ledger_of c1 g) = lg_accepted (ledger_of c g) /\
    after_merge (ledger_of c1 g) (merge_facts gate m) r (m_checkpoint_ec m) =
    after_merge (ledger_of c g) (merge_facts gate m) r (m_checkpoint_ec m)) as Hc1.
  { intros g. pose proof (ledger_srx_only zero_caps _ _ g Hs) as H. apply step_none_inv in H as [-> | ->]; done. }
  unfold commit_gate. split; cbn [fst snd].
  { transitivity (fs c2); [unfold apply_barrier_acceptance_commit; rewrite Er; repeat case_match; done|].
    transitivity (fs c1); [|by destruct Hs]. destruct Hm as (-> & _). unfold merged. by destruct (m_pop_pk m). }
  intros g. destruct (decide (g = gid parts)) as [->|Hne].
  - exists (Some (EvMerge (merge_facts gate m) r (m_checkpoint_ec m))).
    rewrite (merged_ledger _ m c1 c2 hdr gate r), (proj2 (Hc1 _)) by (rewrite ?(proj1 (Hc1 _)); done || lia).
    split_and!; [|intros ? [= <-]; naive_solver|done]. destruct Hw as [Hw1 Hw2], Hr as (_ & _ & Hr). constructor; [done| |done..].
    unfold merge_chain_ok in Hch. destruct (m_pop_pk m) as [pk|] eqn:Em.
    + apply (verify_chain_link _ _ (merge_chain m pk)); try done. cbn. by rewrite Em.
    + unfold link_ok. cbn. by rewrite Em.
  - exists None. rewrite commit_gate_other, (ledger_groups _ _ _ Hm), merged_other by done.
    split_and!; [by apply ledger_srx_only|done|done].
Qed.

Lemma joined_core c c1 g v c' : core c1 = core c -> same_groups (joined g v c1) c' -> same_groups (joined g v c) c'.
Proof.
  intros (Hf & Hs & Hg & Hd & _)%core_fields (?&?&Hg'&Hd'). unfold same_groups.
  unfold joined, record_accepted_ec, advance_chain, update_chain, device_chain_get in *. cbn in *.
  rewrite Hg, Hd in *. split_and!; congruence.
Qed.

Lemma refused_step parts hdr c res : refused c res -> refines parts hdr c res.
Proof. destruct res as [c1 r]. intros (Hc & e & He). cbn in He. subst r. by apply refused_refines, same_groups_srx_only, core_groups. Qed.

(** Every call of [accept_anchor] is a step. *)
Lemma accept_anchor_steps parts claim hdr c : refines parts hdr c (accept_anchor parts claim hdr c).
Proof.
  change (refines parts hdr (started c) (accept_anchor parts claim hdr c)).
  destruct (accept_anchor_cases parts claim hdr c) as [H|(gate & note & Hg & [[Ht ->]|(Ht & heads & Hh & ->)])]; [by apply refused_step|..].
  - destruct (join_phases parts claim hdr note (gd_barrier_update_digest gate) (instant c) (started c)) as
      [H|(c1 & root & b & v & rho & hp & epoch & xk & seq & proofs & Hc & Hj & ->)].
    { destruct (accept_anchor_join _ _ _ _ _ _ _) as [c1 r]. pose proof H as (_ & e & He). cbn in He. subst r. by apply refused_step. }
    destruct (commit_join _ _ _ _ _ _ _ _ _ _ _ _ _ _) as [c2 r] eqn:E. apply commit_join_inv in E as [[-> [e ->]]|(Hv & Hs & _)].
    + by apply (refused_step _ _ _ (c1, Err e)); split; eauto.
    + apply core_reads in Hc as Hr. destruct Hr as (_ & Hd & Hr). rewrite Hd, Hr in Hv. destruct Hj as [_ Hpk Hcf _ _ _].
      by eapply join_refines; [..|eapply joined_core].
  - destruct (merge_phases parts claim hdr heads note (instant c) (started c)) as
      [H|(c1 & root & b & m & rho & xk & seq & proofs & wid & pr & par & pv & req & Hc & [_ Hf Hch _ [mx Hcp] _ _] & ->)].
    { destruct (accept_anchor_merge _ _ _ _ _ _ _) as [c1 r]. pose proof H as (_ & e & He). cbn in He. subst r. by apply refused_step. }
    destruct (commit_merge _ _ _ _ _ _ _ _ _ _ _ _ _ _ _ _ _ _) as [c2 [o|e]] eqn:E.
    + apply commit_merge_ok in E as (hp & c3 & _ & _ & Hs & Hm & _). unfold check_checkpoint in Hcp. ok_step Hcp as u1 E1. ok_step Hcp as u2 E2.
      apply afreeze_if_inv in E1, E2, Hcp. bool_prop.
      apply (merge_refines parts hdr (started c) gate m c3 c2); try done. etrans; [|exact Hs]. by apply same_groups_srx_only, core_groups.
    + apply commit_merge_fails in E. apply refused_refines. etrans; [|exact E]. by apply same_groups_srx_only, core_groups.
Qed.

(** C4: Acceptance implements the ledger.  A call of [accept_anchor], accepted or
    refused, makes one step of the abstract machine on the ledger of every group:
    no group but the anchor's own gets an event, an accepted anchor always
    records one, and what it records is what its header says.  So an accepted
    join extends its device's chain within the limits on epoch counters and
    leaves the barrier alone, and an accepted merge moves the barrier by exactly
    one version, changes the revocation roots exactly if its reason is
    revocation, and keeps the checkpoint between the last one and the last
    accepted epoch. *)
Theorem accept_anchor_refines parts claim hdr c c' r :
  accept_anchor parts claim hdr c = (c', r) ->
  forall g, exists ev, ledger_step (fs_caps (fs c)) (ledger_of c g) ev (ledger_of c' g) /\
    (forall e, ev = Some e -> g = gid parts /\ event_of hdr e) /\
    (forall o, r = Ok o -> g = gid parts -> is_Some ev).
Proof. intros H. pose proof (accept_anchor_steps parts claim hdr c) as [_ Hr]. by rewrite H in Hr. Qed.

End Refinement.
