(* ===== verification/AcceptRuns.v ===== *)
(** * Runs of acceptance

    What holds of a group however many anchors are offered to an acceptance
    context and in whatever order, refused ones included.  The theorems go
    through the ledger of [Ledger]: by [refines], a call of [accept_anchor] is a
    step of it. *)

From S2P Require Import Prelude Hash Errors Merkle BarrierWire Window Header AnchorSeed Srx Accept AcceptLemmas Ledger.

(** ** Steps of the ledger *)

Section Steps.
  Context {HS : Hashing}.

(** The epoch counters of a group are in order: no device, checkpoint or refresh is ahead of the group. *)
Record ledger_wf (l : Ledger) : Prop := {
  wf_checkpoint : lg_checkpoint l <= lg_accepted l;
  wf_refresh : forall e, lg_refresh l = Some e -> e <= lg_accepted l;
  wf_chains : forall pk x ec, lg_chains l !! pk = Some (x, ec) -> ec <= lg_accepted l
}.

(** The barrier, once open, stays open and does not go back. *)
Definition view_le (v v' : View) : Prop :=
  match v, v' with
  | Barrier n _, Barrier n' _ => n <= n'
  | Barrier _ _, _ => False
  | Pending, NoGroup => False
  | _, _ => True
  end.

(** Nothing recorded is taken back. *)
Record ledger_le (l l' : Ledger) : Prop := {
  le_view : view_le (lg_view l) (lg_view l');
  le_checkpoint : lg_checkpoint l <= lg_checkpoint l';
  le_accepted : lg_accepted l <= lg_accepted l';
  le_chains : forall pk x ec, lg_chains l !! pk = Some (x, ec) -> exists x' ec', lg_chains l' !! pk = Some (x', ec') /\ ec <= ec'
}.

#[global] Instance ledger_le_preorder : PreOrder ledger_le.
Proof.
  split.
  - intros l. split; [by destruct (lg_view l); cbn|lia|lia|]. intros pk x ec H. exists x, ec. split; [done|lia].
  - intros l1 l2 l3 [Hv1 Hc1 Ha1 Hx1] [Hv2 Hc2 Ha2 Hx2]. split; [|lia|lia|].
    + destruct (lg_view l1), (lg_view l2), (lg_view l3); cbn in *; lia || done.
    + intros pk x ec H. destruct (Hx1 _ _ _ H) as (x' & ec' & H' & ?). destruct (Hx2 _ _ _ H') as (x'' & ec'' & H'' & ?).
      exists x'', ec''. split; [done|lia].
Qed.

Lemma linked_le caps l f pk x ec :
  link_ok caps l f -> lg_chains l !! pk = Some (x, ec) -> exists x' ec', linked f (lg_chains l) !! pk = Some (x', ec') /\ ec <= ec'.
Proof.
  unfold link_ok, linked. intros Hl H. destruct (af_link f) as [[[pk' prev] commit]|]; [|by exists x, ec; split; [|lia]].
  destruct (decide (pk' = pk)) as [->|Hne].
  - exists commit, (af_ec f). rewrite lookup_insert_eq. split; [done|]. rewrite H in Hl. destruct Hl as (_ & [? _] & _). lia.
  - exists x, ec. rewrite lookup_insert_ne by done. split; [done|lia].
Qed.

(** A version is at most [u64::MAX], so a saturating step does not go back. *)
Definition ledger_u64 (l : Ledger) : Prop := match lg_view l with Barrier n _ => n <= U64_MAX | _ => True end.

Lemma ledger_step_le caps l ev l' : ledger_u64 l -> ledger_step caps l ev l' -> ledger_le l l'.
Proof.
  intros Hu H. destruct H as [| |f _ Hl Hv _|f reason checkpoint _ Hl Hv _ _ Hc]; [done|..]; split; cbn.
  1,5: by destruct (lg_view l); cbn.
  all: try lia; try (intros; by eapply linked_le). { intros pk x ec H. exists x, ec. split; [done|lia]. }
  unfold view_moved, ledger_u64, view_le, sat_add in *. destruct (lg_view l); [done..|]. lia.
Qed.

Lemma linked_bound l f pk x ec : (forall pk x ec, lg_chains l !! pk = Some (x, ec) -> ec <= lg_accepted l) ->
  linked f (lg_chains l) !! pk = Some (x, ec) -> ec <= Z.max (lg_accepted l) (af_ec f).
Proof.
  unfold linked. intros Hw H. destruct (af_link f) as [[[pk' prev] commit]|]; [|apply Hw in H; lia].
  apply lookup_insert_Some in H as [[-> [= -> ->]]|[_ H]]; [lia|]. apply Hw in H. lia.
Qed.

Lemma ledger_step_wf caps l ev l' : ledger_step caps l ev l' -> ledger_wf l -> ledger_wf l'.
Proof.
  intros H [Hc Hr Hx]. destruct H as [| |f _ Hl Hv _|f reason checkpoint _ Hl Hv _ _ Hcp]; [by split..| |]; split; cbn; try lia.
  - intros e He. apply Hr in He. lia.
  - intros pk x ec H. by eapply linked_bound.
  - intros e. case_if; [intros [= <-]; lia|]. intros He. apply Hr in He. lia.
  - intros pk x ec H. by eapply linked_bound.
Qed.

End Steps.

(** ** Runs *)

Section Runs.
  Context {HS : Hashing} {WC : WireCodec} {MH : MerkleHash} {SP : SrxProofs} {AP : AnchorProofs}.

(** One call of [accept_anchor] on an anchor that satisfies [P]. *)
Definition anchor_step (P : AcceptanceContext -> AnchorInstanceParts -> header -> Prop) (c c' : AcceptanceContext) : Prop :=
  exists parts claim hdr, P c parts hdr /\ c' = (accept_anchor parts claim hdr c).1.

Definition any_anchor (c : AcceptanceContext) (parts : AnchorInstanceParts) (hdr : header) : Prop := True.

Lemma anchor_step_refines P c c' : anchor_step P c c' ->
  exists parts hdr r, P c parts hdr /\ refines parts hdr c (c', r).
Proof.
  intros (parts & claim & hdr & HP & ->). exists parts, hdr, (accept_anchor parts claim hdr c).2.
  split; [done|]. rewrite <- surjective_pairing. apply accept_anchor_steps.
Qed.

(** Every group's counters are in order. *)
Definition well_kept (c : AcceptanceContext) : Prop := forall g, ledger_wf (ledger_of c g) /\ ledger_u64 (ledger_of c g).

Lemma refines_u64 parts hdr c c' r g : refines parts hdr c (c', r) -> ledger_u64 (ledger_of c g) -> ledger_u64 (ledger_of c' g).
Proof.
  intros [_ H] Hu. destruct (H g) as (ev & Hs & He & _). cbn [fst] in Hs.
  remember (ledger_of c' g) as l' eqn:Hl. clear Hl. destruct Hs as [| |f ? ? ? ?|f ? ? ? ? ? ? ? ?].
  - done.
  - unfold ledger_u64 in *. cbn [touched after_join lg_view]. by destruct (lg_view (ledger_of c g)).
  - unfold ledger_u64 in *. cbn [touched after_join lg_view]. by destruct (lg_view (ledger_of c g)).
  - cbn. destruct (He _ eq_refl) as (_ & _ & (_ & _ & _ & Hv & _) & _). unfold is_u64, U64_MAX in *. lia.
Qed.

Lemma anchor_step_kept P c c' : anchor_step P c c' -> well_kept c ->
  well_kept c' /\ forall g, ledger_le (ledger_of c g) (ledger_of c' g).
Proof.
  intros (parts & hdr & r & _ & Hr)%anchor_step_refines Hw.
  assert (forall g, exists ev, ledger_step (fs_caps (fs c)) (ledger_of c g) ev (ledger_of c' g)) as Hs
    by (intros g; destruct (proj2 Hr g) as (ev & ? & _); eauto).
  split; intros g; destruct (Hw g) as [Hg Hu], (Hs g) as [ev Hev]; [|by eapply ledger_step_le].
  split; [by eapply ledger_step_wf|by eapply refines_u64].
Qed.

Lemma run_kept P c c' : rtc (anchor_step P) c c' -> well_kept c -> well_kept c' /\ forall g, ledger_le (ledger_of c g) (ledger_of c' g).
Proof.
  induction 1 as [c|c1 c2 c3 H _ IH]; intros Hw; [split; [done|]; intros g; reflexivity|]. destruct (anchor_step_kept _ _ _ H Hw) as [Hw2 H12].
  destruct (IH Hw2) as [Hw3 H23]. split; [done|]. intros g. etrans; [apply H12|apply H23].
Qed.

(** A new context has no group yet. *)
Lemma new_groups h_max ttl options :
  barrier_groups (with_options_internal h_max ttl options) = ∅ /\ device_chains (with_options_internal h_max ttl options) = ∅.
Proof. unfold with_options_internal. destruct (apply_fs_policy_config _ _) as [c []] eqn:E; unfold apply_fs_policy_config in E;
  destruct (synthesize_caps _); by injection E as <- _. Qed.

Lemma new_well_kept h_max ttl options : well_kept (with_options_internal h_max ttl options).
Proof.
  intros g. destruct (new_groups h_max ttl options) as [Hg Hd]. unfold ledger_of, group_of. rewrite Hg, Hd, !lookup_empty.
  split; [|done]. split; cbn; [done|done|]. intros pk x ec. by rewrite fmap_empty, lookup_empty.
Qed.


(** *** How fast the epoch moves *)

Definition names_device (c : AcceptanceContext) (parts : AnchorInstanceParts) (hdr : header) : Prop :=
  is_Some (get_bytes hdr HDR_POP_PK).

Lemma event_link hdr ev f :
  event_of hdr ev -> (ev = EvJoin f \/ exists r cp, ev = EvMerge f r cp) -> is_Some (get_bytes hdr HDR_POP_PK) -> is_Some (af_link f).
Proof.
  intros He Hf [pk Hn].
  assert (facts_of hdr f) as (_ & _ & _ & _ & _ & _ & Hl) by (destruct Hf as [->|(r & cp & ->)]; naive_solver).
  destruct (af_link f); [eauto|congruence].
Qed.

Lemma link_ok_ec caps l f : is_Some (af_link f) -> link_ok caps l f -> af_ec f <= sat_add (lg_accepted l) (anchor_max caps).
Proof. unfold link_ok. destruct (af_link f) as [[[??]?]|]; [|by intros []]. by intros _ (?&_). Qed.

Lemma anchor_step_rate c c' g :
  0 <= anchor_max (fs_caps (fs c)) -> anchor_step names_device c c' ->
  fs c' = fs c /\ lg_accepted (ledger_of c' g) <= lg_accepted (ledger_of c g) + anchor_max (fs_caps (fs c)).
Proof.
  intros H0 (parts & hdr & r & Hn & Hf & Hr)%anchor_step_refines. split; [exact Hf|].
  destruct (Hr g) as (ev & Hs & He & _). cbn [fst] in Hs.
  remember (ledger_of c' g) as l' eqn:Hx. clear Hx.
  destruct Hs as [| |f ? Hl ? ?|f ? ? ? Hl ? ? ? ?]; [lia|cbn [touched lg_accepted]; lia|..];
    destruct (He _ eq_refl) as [_ Hev]; cbn [after_join after_merge lg_accepted]; (pose proof (event_link _ _ f Hev) as Hi'; specialize (Hi' ltac:(eauto) Hn));
    apply (link_ok_ec _ _ _ Hi') in Hl; unfold sat_add in Hl; lia.
Qed.

(** C16: Anchors cannot race the epoch of a group forward: in a run of [n] anchors
    that name their device, the last accepted epoch advances by at most [n]
    times the group cap of the policy, however many devices take part. *)
Theorem accepted_ec_rate n c c' g :
  0 <= anchor_max (fs_caps (fs c)) -> nsteps (anchor_step names_device) n c c' ->
  lg_accepted (ledger_of c' g) <= lg_accepted (ledger_of c g) + Z.of_nat n * anchor_max (fs_caps (fs c)).
Proof.
  intros H0 H. revert H0. induction H as [c|n c c1 c' Hs _ IH]; intros H0; [lia|].
  destruct (anchor_step_rate c c1 g H0 Hs) as [Hf Hg]. rewrite Hf in IH. specialize (IH H0). lia.
Qed.

End Runs.

(** ** No device is locked out *)

Section Liveness.
  Context {HS : Hashing} {WC : WireCodec} {MH : MerkleHash} {SP : SrxProofs} {AP : AnchorProofs}.

Lemma div_ceil_pos a b : 0 < b -> b <= a -> 1 <= div_ceil a b.
Proof. intros Hb Hab. unfold div_ceil. mlia. Qed.

(** The caps of an accepted policy let the epoch advance. *)
Lemma synthesize_caps_pos config caps :
  0 <= h config -> 0 <= slack_anchor config -> 0 <= slack_first_device config -> 0 <= slack_device config ->
  synthesize_caps config = Ok caps -> 1 <= anchor_max caps /\ 1 <= first_device caps /\ 1 <= device_max caps.
Proof.
  intros Hh Ha Hf Hd. unfold synthesize_caps. intros H. ok_step H as u1 E1. ok_step H as u2 E2. ok_step H as u3 E3.
  ok_step H as am E4. ok_step H as fd E5. ok_step H as dm E6. injection H as <-. cbn.
  unfold fail_if in E1, E2. destruct (_ || _) eqn:B1 in E1; [done|]. destruct (_ <? _) eqn:B2 in E2; [done|]. bool_prop.
  pose proof (div_ceil_pos (fc_checkpoint_interval config) (h config)) as Hw.
  unfold checked_add, ok_or in E4, E5, E6. repeat case_match; try done. simplify_eq. lia.
Qed.

Lemma dev_chain_commit_total pk ec prev version digest : exists commit, dev_chain_commit pk ec prev version digest = Ok commit.
Proof. unfold dev_chain_commit. rewrite h_l_ok by reflexivity. eauto. Qed.

(** A link that the chain check accepts, away from [closed]. *)
Lemma next_link c g pk version digest closed :
  ledger_wf (ledger_of c g) -> 1 <= anchor_max (fs_caps (fs c)) -> 1 <= first_device (fs_caps (fs c)) ->
  1 <= device_max (fs_caps (fs c)) -> lg_accepted (ledger_of c g) < U64_MAX ->
  exists v, dv_pop_pk v = pk /\ dv_barrier_version v = version /\ dv_barrier_update_digest v = digest /\ dv_fs_ec v <= U64_MAX /\
    closed <> Some (dv_fs_ec v) /\ verify_device_chain_state c g (device_chain_get c g pk) v = Ok tt.
Proof.
  intros [_ _ Hx] Ha Hf Hd Hu.
  pose (base := match device_chain_get c g pk with Some d => last_ec d | None => lg_accepted (ledger_of c g) end).
  pose (prev := match device_chain_get c g pk with Some d => default zero32 (last_commit d) | None => zero32 end).
  assert (base <= lg_accepted (ledger_of c g)) as Hb.
  { unfold base. destruct (device_chain_get c g pk) as [d|] eqn:E; [|lia]. eapply (Hx pk). rewrite device_chain_get_links, E. done. }
  pose (ec := if decide (closed = Some base) then base + 1 else base).
  assert (closed <> Some ec /\ base <= ec <= base + 1) as [Hc He].
  { unfold ec. case_decide; [|by split; [|lia]]. split; [|lia]. rewrite H. intros [= ?]. lia. }
  destruct (dev_chain_commit_total pk ec prev version digest) as [commit Hk].
  exists {| dv_pop_pk := pk; dv_fs_ec := ec; dv_fs_dev_prev_commit := prev; dv_fs_dev_commit := commit; dv_barrier_version := version;
            dv_barrier_update_digest := digest |}.
  split_and!; [done|done|done|cbn; lia|done|]. unfold verify_device_chain_state. cbn [dv_fs_ec dv_fs_dev_prev_commit dv_fs_dev_commit dv_pop_pk
    dv_barrier_version dv_barrier_update_digest]. rewrite accepted_ledger, Hk. unfold sat_add.
  clearbody ec. unfold base, prev in *. clear base prev.
  assert (forall x, bytes_eqb x x = true) as Hrefl by (intros x; by apply bool_decide_eq_true).
  destruct (device_chain_get c g pk) as [d|];
    repeat (match goal with |- context [?a <? ?b] => replace (a <? b) with false by lia end);
    cbn -[bytes_eqb zero32]; rewrite Hrefl; cbn -[bytes_eqb]; by rewrite Hrefl.
Qed.

(** No device is locked out by the rules on chains and epochs.  Under a policy
    the context accepts, after any run of acceptance and as long as the epoch
    counter has not reached its maximum, every device, known or new, has a next
    link that the chain check accepts, in an epoch other than the one the last
    refresh closed. *)
Theorem device_never_locked_out config caps c c' g pk version digest :
  0 <= h config -> 0 <= slack_anchor config -> 0 <= slack_first_device config -> 0 <= slack_device config ->
  synthesize_caps config = Ok caps -> fs_caps (fs c) = caps ->
  well_kept c -> rtc (anchor_step any_anchor) c c' -> lg_accepted (ledger_of c' g) < U64_MAX ->
  exists v, dv_pop_pk v = pk /\ dv_barrier_version v = version /\ dv_barrier_update_digest v = digest /\
    dv_fs_ec v <= U64_MAX /\ lg_refresh (ledger_of c' g) <> Some (dv_fs_ec v) /\
    verify_device_chain_state c' g (device_chain_get c' g pk) v = Ok tt.
Proof.
  intros Hh Ha Hf Hd Hs Hc Hw Hr Hu. destruct (synthesize_caps_pos _ _ Hh Ha Hf Hd Hs) as (? & ? & ?).
  assert (fs c' = fs c) as Hfs.
  { clear -Hr. induction Hr as [|c1 c2 c3 H _ IH]; [done|]. apply anchor_step_refines in H as (? & ? & ? & _ & H & _). cbn in H. congruence. }
  apply next_link; rewrite ?Hfs, ?Hc; [|done..]. by apply (run_kept _ _ _ Hr Hw).
Qed.

End Liveness.

(** ** What acceptance hashes for an anchor *)

Section Hashed.
  Context {HS : Hashing} {WC : WireCodec} {MH : MerkleHash} {SP : SrxProofs} {AP : AnchorProofs}.

(** The inputs of H_L from which acceptance computes the identifiers of an anchor, the commitment of
    its link, the commitment of its revocation payload and the keys of the verification cache, one
    for each head that may be its pivot. *)
Inductive hashes (c : AcceptanceContext) (parts : AnchorInstanceParts) (hdr : header) : string -> Value -> Prop :=
  | hashes_seed : hashes c parts hdr "seedctx" (VBytes (build_anchor_seed_ctx hdr))
  | hashes_weid s :
      compute_seed_ctx_hash (build_anchor_seed_ctx hdr) = Ok s ->
      hashes c parts hdr "weid" (epoch_preimage (gid parts) (parent_root parts) s)
  | hashes_window s :
      compute_seed_ctx_hash (build_anchor_seed_ctx hdr) = Ok s ->
      hashes c parts hdr "mhw/window" (epoch_preimage (gid parts) (parent_root parts) s)
  | hashes_link pk ec prev version digest :
      get_bytes hdr HDR_POP_PK = Some pk -> hdr !! HDR_FS_EC = Some (VInteger ec) ->
      hdr !! HDR_FS_DEV_PREV_COMMIT = Some (VBytes prev) -> hdr !! HDR_BARRIER_VERSION = Some (VInteger version) ->
      Header.compute_barrier_update_digest hdr = Ok digest ->
      hashes c parts hdr "fs/dev/chain/v2" (link_preimage pk ec prev version digest)
  | hashes_payload payload :
      get_bytes hdr HDR_SRX_PAYLOAD = Some payload -> hashes c parts hdr "srx/commit" (VBytes payload)
  | hashes_xk s b :
      compute_seed_ctx_hash (build_anchor_seed_ctx hdr) = Ok s ->
      derive_we_epoch_id (gid parts) (parent_root parts) s = Ok (b_weid b) -> b_ctx b = build_anchor_seed_ctx hdr ->
      hashes c parts hdr "msphf/xk" (as_cbor_tuple (instance_of parts b None))
  | hashes_vck b rho xk wid pivot v :
      merge_identity parts hdr b rho xk -> pivot ∈ Mhw.entry_of (mh_window (started c)) wid ->
      derive_we_epoch_id (gid parts) (parent_root parts) (b_seed_ctx_hash b) = Ok (b_weid b) ->
      compute_seed_ctx_hash (build_anchor_seed_ctx hdr) = Ok (b_seed_ctx_hash b) ->
      vck_fields xk (b_seed_commit b) rho (hr_msphf_hp_commit pivot) hdr = Ok v -> hashes c parts hdr "msphf/vck" v.

(** The set holds what is hashed for the anchor. *)
Definition within (hashed : string -> Value -> Prop) (c : AcceptanceContext) (parts : AnchorInstanceParts) (hdr : header) : Prop :=
  forall label v, hashes c parts hdr label v -> hashed label v.

End Hashed.

(** ** No epoch id is accepted twice *)

Section Depth.
  Context {HS : Hashing} {HL : HashingLaws HS} (hashed : string -> Value -> Prop).

(** A commitment [n] links down a device's chain from zero. *)
Inductive chain_at (pk : bytes) : nat -> bytes -> Prop :=
  | chain_zero : chain_at pk 0 zero32
  | chain_link n prev ec version digest commit :
      chain_at pk n prev -> hashed "fs/dev/chain/v2" (link_preimage pk ec prev version digest) ->
      dev_chain_commit pk ec prev version digest = Ok commit -> chain_at pk (S n) commit.

(** A link whose commitment is all zero, which is where every chain starts. *)
Definition zero_link : Prop :=
  exists pk ec prev version digest, hashed "fs/dev/chain/v2" (link_preimage pk ec prev version digest) /\
    dev_chain_commit pk ec prev version digest = Ok zero32.

Lemma chain_at_depth pk n x : chain_at pk n x -> forall m, chain_at pk m x -> n = m \/ hl_collision hashed \/ zero_link.
Proof using HL.
  induction 1 as [|n prev ec v d commit Hn IH Hi H]; intros m Hm; inversion Hm as [|m' prev' ec' v' d' commit' Hm' Hi' H'];
    subst; [by left|right; right; by do 5 eexists..|].
  destruct (dev_chain_commit_inj hashed _ _ _ _ _ _ _ _ _ _ _ Hi Hi' H H') as [(_ & _ & <- & _)|]; [|by right; left].
  destruct (IH _ Hm') as [->|]; auto.
Qed.

(** Every chain of the ledger starts from zero. *)
Definition grounded (l : Ledger) : Prop := forall pk x ec, lg_chains l !! pk = Some (x, ec) -> exists n, chain_at pk n x.

(** The chain of [pk] is at least [n] links long. *)
Definition deep (l : Ledger) (pk : bytes) (n : nat) : Prop :=
  exists x ec m, lg_chains l !! pk = Some (x, ec) /\ chain_at pk m x /\ (n <= m)%nat.

(** The link of an event is hashed. *)
Definition link_hashed (f : AnchorFacts) : Prop :=
  match af_link f with
  | Some (pk, prev, _) => hashed "fs/dev/chain/v2" (link_preimage pk (af_ec f) prev (af_version f) (af_digest f))
  | None => True
  end.

Definition event_hashed (ev : option Event) : Prop :=
  match ev with Some (EvJoin f) | Some (EvMerge f _ _) => link_hashed f | None => True end.

Lemma link_grounded caps l f pk prev commit :
  grounded l -> link_ok caps l f -> link_hashed f -> af_link f = Some (pk, prev, commit) ->
  exists n, chain_at pk n prev /\ chain_at pk (S n) commit.
Proof.
  unfold link_ok, link_hashed. intros Hg Hl Hi Hf. rewrite Hf in Hl, Hi. destruct Hl as (_ & Hc & Hh).
  assert (exists n, chain_at pk n prev) as [n Hn]; [|exists n; split; [done|by econstructor]].
  destruct (lg_chains l !! pk) as [[x ec]|] eqn:E; [destruct Hc as [_ ->]; by eapply Hg|].
  destruct Hc as [_ ->]. exists 0%nat. constructor.
Qed.

Lemma linked_grounded caps l f pk x ec :
  grounded l -> link_ok caps l f -> link_hashed f -> linked f (lg_chains l) !! pk = Some (x, ec) -> exists n, chain_at pk n x.
Proof.
  intros Hg Hl Hi. unfold linked. destruct (af_link f) as [[[pk' prev] commit]|] eqn:Hf; [|apply Hg].
  intros [[-> [= <- <-]]|[_ H]]%lookup_insert_Some; [|by eapply Hg].
  destruct (link_grounded _ _ _ _ _ _ Hg Hl Hi Hf) as (n & _ & H). eauto.
Qed.

Lemma linked_deep caps l f pk n :
  link_ok caps l f -> link_hashed f -> deep l pk n ->
  exists x ec m, linked f (lg_chains l) !! pk = Some (x, ec) /\ chain_at pk m x /\ (n <= m)%nat.
Proof.
  intros Hl Hi (x & ec & m & Hx & Hm & Hle). unfold linked. unfold link_ok in Hl. unfold link_hashed in Hi.
  destruct (af_link f) as [[[pk' prev] commit]|]; [|by exists x, ec, m].
  destruct (decide (pk' = pk)) as [->|Hne]; [|exists x, ec, m; by rewrite lookup_insert_ne].
  rewrite Hx in Hl. destruct Hl as (_ & [_ ->] & Hh). exists commit, (af_ec f), (S m). rewrite lookup_insert_eq.
  split_and!; [done|by econstructor|lia].
Qed.

Lemma ledger_step_grounded caps l ev l' : ledger_step caps l ev l' -> event_hashed ev -> grounded l -> grounded l'.
Proof.
  intros [| |f _ Hl _ _|f r cp _ Hl _ _ _ _] Hi Hg; [done|done|..]; intros pk x ec; by apply (linked_grounded caps).
Qed.

Lemma ledger_step_deep caps l ev l' pk n : ledger_step caps l ev l' -> event_hashed ev -> deep l pk n -> deep l' pk n.
Proof. intros [| |f _ Hl _ _|f r cp _ Hl _ _ _ _] Hi Hd; [done|done|..]; exact (linked_deep _ _ _ _ _ Hl Hi Hd). Qed.

(** The chain after a link is deeper than the chain before any earlier one. *)
Lemma relink_impossible caps l f pk prev commit n :
  grounded l -> link_ok caps l f -> link_hashed f -> af_link f = Some (pk, prev, commit) -> deep l pk n -> chain_at pk n commit ->
  hl_collision hashed \/ zero_link.
Proof using HL.
  intros Hg Hl Hi Hf (x & ec & m & Hx & Hm & Hle) Hn. unfold link_ok in Hl. unfold link_hashed in Hi. rewrite Hf in Hl, Hi.
  rewrite Hx in Hl. destruct Hl as (_ & [_ ->] & Hh).
  assert (chain_at pk (S m) commit) as Hs by (by econstructor).
  destruct (chain_at_depth _ _ _ Hn _ Hs) as [->|]; [lia|done].
Qed.

End Depth.

Section Reuse.
  Context {HS : Hashing} {HL : HashingLaws HS} {WC : WireCodec} {MH : MerkleHash} {SP : SrxProofs} {AP : AnchorProofs}.
  Context (hashed : string -> Value -> Prop).

(** The identifiers of an accepted anchor. *)
Lemma accepted_bound parts claim hdr c c' o :
  accept_anchor parts claim hdr c = (c', Ok o) -> exists s,
    compute_seed_ctx_hash (build_anchor_seed_ctx hdr) = Ok s /\
    derive_we_epoch_id (gid parts) (parent_root parts) s = Ok (o_we_epoch_id o).
Proof.
  intros [(root & b & [_ Hs Hw _ _] & -> & _)|(? & ? & ? & ? & ? & b & ? & ? & ? & ? & ? & ? & ? & ? & ? & ? & _ & [[_ Hs Hw _ _] _ _ _ _ _ _] & _ & -> & _)]%accepted_cases;
    exists (b_seed_ctx_hash b); by split.
Qed.

(** Every chain of every group starts from zero. *)
Definition chains_grounded (c : AcceptanceContext) : Prop := forall g, grounded hashed (ledger_of c g).

Lemma facts_hashed c parts hdr f : within hashed c parts hdr -> facts_of hdr f -> link_hashed hashed f.
Proof.
  intros Hi (Hv & He & _ & _ & Hd & _ & Hl). unfold link_hashed. destruct (af_link f) as [[[pk prev] commit]|]; [|done].
  destruct Hl as (Hpk & Hp & _). by apply Hi, hashes_link.
Qed.

Lemma event_of_hashed c parts hdr e : within hashed c parts hdr -> event_of hdr e -> event_hashed hashed (Some e).
Proof. intros Hi. destruct e; cbn; [intros [_ ?]|intros (_ & ? & _)]; by eapply facts_hashed. Qed.

Lemma anchor_step_ledger c c' g : anchor_step (within hashed) c c' ->
  exists caps ev, ledger_step caps (ledger_of c g) ev (ledger_of c' g) /\ event_hashed hashed ev.
Proof.
  intros (parts & hdr & r & Hi & _ & Hr)%anchor_step_refines. destruct (Hr g) as (ev & ? & He & _). do 2 eexists. split; [done|].
  destruct ev as [e|]; [|done]. eapply event_of_hashed; [done|]. by apply He.
Qed.

Lemma run_grounded c c' : rtc (anchor_step (within hashed)) c c' -> chains_grounded c -> chains_grounded c'.
Proof.
  induction 1 as [|c1 c2 c3 H _ IH]; [done|]. intros Hg. apply IH. intros g.
  destruct (anchor_step_ledger _ _ g H) as (caps & ev & Hs & He). by eapply ledger_step_grounded.
Qed.

Lemma run_deep c c' g pk n :
  rtc (anchor_step (within hashed)) c c' -> deep hashed (ledger_of c g) pk n -> deep hashed (ledger_of c' g) pk n.
Proof.
  induction 1 as [|c1 c2 c3 H _ IH]; [done|]. intros Hd. apply IH.
  destruct (anchor_step_ledger _ _ g H) as (caps & ev & Hs & He). by eapply ledger_step_deep.
Qed.

(** An accepted anchor with the event it is. *)
Lemma accepted_event parts claim hdr c c' o :
  accept_anchor parts claim hdr c = (c', Ok o) ->
  exists e, ledger_step (fs_caps (fs c)) (ledger_of c (gid parts)) (Some e) (ledger_of c' (gid parts)) /\ event_of hdr e.
Proof.
  intros H. pose proof (accept_anchor_steps parts claim hdr c) as [_ Hr]. rewrite H in Hr.
  destruct (Hr (gid parts)) as (ev & Hs & He & Hok). destruct (Hok o eq_refl eq_refl) as [e ->]. exists e. split; [done|]. by apply He.
Qed.

Lemma accepted_anchor_step (P : AcceptanceContext -> AnchorInstanceParts -> header -> Prop) parts claim hdr c c' r :
  P c parts hdr -> accept_anchor parts claim hdr c = (c', r) -> anchor_step P c c'.
Proof. intros HP H. exists parts, claim, hdr. by rewrite H. Qed.

(** Two joins that make the same link. *)
Lemma join_reuse parts1 parts2 claim1 claim2 hdr1 hdr2 c c1 c2 c3 o1 o2 f1 f2 :
  chains_grounded c -> within hashed c parts1 hdr1 -> accept_anchor parts1 claim1 hdr1 c = (c1, Ok o1) ->
  rtc (anchor_step (within hashed)) c1 c2 -> within hashed c2 parts2 hdr2 ->
  accept_anchor parts2 claim2 hdr2 c2 = (c3, Ok o2) -> gid parts1 = gid parts2 ->
  ledger_step (fs_caps (fs c)) (ledger_of c (gid parts1)) (Some (EvJoin f1)) (ledger_of c1 (gid parts1)) ->
  ledger_step (fs_caps (fs c2)) (ledger_of c2 (gid parts2)) (Some (EvJoin f2)) (ledger_of c3 (gid parts2)) ->
  facts_of hdr1 f1 -> facts_of hdr2 f2 -> hdr1 !! HDR_FS_DEV_COMMIT = hdr2 !! HDR_FS_DEV_COMMIT ->
  hl_collision hashed \/ zero_link hashed.
Proof using HL.
  intros Hg Hi1 H1 Hr Hi2 H2 Hgid Hs1 Hs2 Hf1 Hf2 Hd. rewrite <- Hgid in Hs2.
  assert (chains_grounded c2) as Hg2 by (eapply run_grounded, Hg; eapply rtc_l; [by eapply accepted_anchor_step|done]).
  pose proof (facts_hashed _ _ _ _ Hi1 Hf1) as Hh1. pose proof (facts_hashed _ _ _ _ Hi2 Hf2) as Hh2.
  apply step_join_inv in Hs1 as ([[[pk prev] x] Hl1] & Hk1 & _ & Hx2), Hs2 as ([[[pk' prev'] x'] Hl2] & Hk2 & _ & _).
  destruct Hf1 as (_ & _ & _ & _ & _ & _ & Hf1), Hf2 as (_ & _ & _ & _ & _ & _ & Hf2). rewrite Hl1 in Hf1. rewrite Hl2 in Hf2.
  destruct Hf1 as (_ & _ & Hf1), Hf2 as (_ & _ & Hf2). rewrite Hd, Hf2 in Hf1. injection Hf1 as ->.
  pose proof Hk1 as Hc1. unfold link_ok in Hc1. rewrite Hl1 in Hc1. destruct Hc1 as (_ & _ & Hc1).
  pose proof Hk2 as Hc2. unfold link_ok in Hc2. rewrite Hl2 in Hc2. destruct Hc2 as (_ & _ & Hc2).
  pose proof Hh1 as Hj1. pose proof Hh2 as Hj2. unfold link_hashed in Hj1, Hj2. rewrite Hl1 in Hj1. rewrite Hl2 in Hj2.
  destruct (dev_chain_commit_inj hashed _ _ _ _ _ _ _ _ _ _ _ Hj1 Hj2 Hc1 Hc2) as [(<- & _ & <- & _)|]; [|by left].
  destruct (link_grounded _ _ _ _ _ _ _ (Hg _) Hk1 Hh1 Hl1) as (n & _ & Hn).
  eapply (relink_impossible hashed _ (ledger_of c2 (gid parts1)) f2 pk prev x (S n)); try done.
  eapply run_deep; [exact Hr|]. rewrite Hx2. exists x, (af_ec f1), (S n). split_and!; [|done|lia].
  cbn [after_join lg_chains]. unfold linked. rewrite Hl1. apply lookup_insert_eq.
Qed.

(** Two merges that open the same version. *)
Lemma merge_reuse P c c1 c2 c3 g f1 f2 r1 r2 cp1 cp2 :
  well_kept c1 -> rtc (anchor_step P) c1 c2 ->
  ledger_step (fs_caps (fs c)) (ledger_of c g) (Some (EvMerge f1 r1 cp1)) (ledger_of c1 g) ->
  ledger_step (fs_caps (fs c2)) (ledger_of c2 g) (Some (EvMerge f2 r2 cp2)) (ledger_of c3 g) ->
  af_version f1 = af_version f2 -> is_u64 (af_version f1) -> af_version f1 = U64_MAX.
Proof.
  intros Hw Hr Hs1 Hs2 Hv Hu. apply step_merge_inv in Hs1 as (_ & _ & _ & Hx2), Hs2 as (_ & Hm & _ & _).
  destruct (run_kept _ _ _ Hr Hw) as [_ Hle]. destruct (Hle g) as [Hvl _ _ _]. rewrite Hx2 in Hvl.
  cbn [after_merge lg_view] in Hvl. destruct (lg_view (ledger_of c2 g)) as [| |n r]; [done|done|].
  cbn in Hvl, Hm. unfold sat_add, is_u64, U64_MAX in *. lia.
Qed.

(** C6: No epoch id is accepted twice.  If acceptance takes an anchor, then is
    offered any anchors whatever, and then takes another, their epoch ids
    differ, unless two inputs of H_L collide or a link of a chain has the
    commitment zero, among the inputs hashed for these anchors and for the
    chains at the start, or the first anchor was a merge to the last barrier
    version there is.  So a recorded anchor cannot be replayed, even long after
    its head has expired from the window. *)
Theorem epoch_id_never_reused parts1 parts2 claim1 claim2 hdr1 hdr2 c c1 c2 c3 o1 o2 :
  well_kept c -> chains_grounded c ->
  within hashed c parts1 hdr1 -> accept_anchor parts1 claim1 hdr1 c = (c1, Ok o1) ->
  rtc (anchor_step (within hashed)) c1 c2 ->
  within hashed c2 parts2 hdr2 -> accept_anchor parts2 claim2 hdr2 c2 = (c3, Ok o2) ->
  o_we_epoch_id o1 <> o_we_epoch_id o2 \/ hl_collision hashed \/ zero_link hashed \/
  hdr1 !! HDR_BARRIER_VERSION = Some (VInteger U64_MAX).
Proof using HL.
  intros Hw Hg Hi1 H1 Hr Hi2 H2. destruct (decide (o_we_epoch_id o1 = o_we_epoch_id o2)) as [Heq|]; [right|by left].
  destruct (accepted_bound _ _ _ _ _ _ H1) as (s1 & Hs1 & Hw1), (accepted_bound _ _ _ _ _ _ H2) as (s2 & Hs2 & Hw2). rewrite Heq in Hw1.
  destruct (we_epoch_id_inj hashed _ _ _ _ _ _ _ ltac:(by apply Hi1, hashes_weid) ltac:(by apply Hi2, hashes_weid) Hw1 Hw2)
    as [(Hgid & _ & ->)|]; [|by left].
  destruct (seed_ctx_hash_inj hashed _ _ _ ltac:(apply Hi1, hashes_seed) ltac:(apply Hi2, hashes_seed) Hs1 Hs2) as [Hk|]; [|by left].
  destruct (accepted_event _ _ _ _ _ _ H1) as (e1 & Hl1 & He1), (accepted_event _ _ _ _ _ _ H2) as (e2 & Hl2 & He2).
  pose proof (Hk HDR_BARRIER_UPDATE_REASON eq_refl) as Hreason.
  destruct e1 as [f1|f1 r1 cp1], e2 as [f2|f2 r2 cp2].
  - destruct He1 as [_ Hf1], He2 as [_ Hf2].
    destruct (join_reuse _ _ _ _ _ _ _ _ _ _ _ _ _ _ Hg Hi1 H1 Hr Hi2 H2 Hgid Hl1 Hl2 Hf1 Hf2 (Hk HDR_FS_DEV_COMMIT eq_refl)); auto.
  - destruct He1 as [Ht _], He2 as (_ & _ & Hr2 & _). destruct Ht. apply classify_reason. by rewrite Hreason, Hr2.
  - destruct He1 as (_ & _ & Hr1 & _), He2 as [Ht _]. destruct Ht. apply classify_reason. by rewrite <- Hreason, Hr1.
  - destruct He1 as (_ & (Hv1 & _ & _ & Hu1 & _) & _), He2 as (_ & (Hv2 & _) & _). rewrite <- Hgid in Hl2.
    rewrite (Hk HDR_BARRIER_VERSION eq_refl), Hv2 in Hv1. injection Hv1 as Hv.
    right; right. rewrite (Hk HDR_BARRIER_VERSION eq_refl), Hv2. do 2 f_equal. rewrite Hv.
    eapply (merge_reuse _ c c1 c2 c3); [|done..]. by eapply anchor_step_kept; [eapply (accepted_anchor_step any_anchor)|].
Qed.

End Reuse.
