(* ===== verification/AcceptWindow.v ===== *)
(** * Windows along a run of acceptance

    Every head in the window of an acceptance context is filed under the window
    id of its own group, parent root and seed context ([window_keyed]), since
    acceptance derives both from the same three values.  The epoch id of a head
    is a digest of the same three values: a window holds heads of one epoch id
    only. *)

From S2P Require Import Prelude Hash Errors Merkle BarrierWire Window Header AnchorSeed Srx Accept AcceptLemmas Ledger AcceptRuns.

(** ** What insertion adds *)

(** The heads of [w'] are heads of [w], but for one that may be [r] under [wid]. *)
Definition adds (wid : bytes) (r : HeadRecord) (w w' : MultiHeadWindow) : Prop :=
  forall x h, h ∈ Mhw.entry_of w' x -> h ∈ Mhw.entry_of w x \/ (x = wid /\ h = r).

Lemma adds_shrink wid r w w' : (forall x h, h ∈ Mhw.entry_of w' x -> h ∈ Mhw.entry_of w x) -> adds wid r w w'.
Proof. intros H x h Hh. left. by apply H. Qed.

Lemma adds_push wid r w w' :
  (forall x h, h ∈ Mhw.entry_of w' x -> h ∈ Mhw.entry_of w x) -> adds wid r w (Mhw.push w' wid r).
Proof.
  intros H x h. rewrite entry_push, elem_of_app. intros [Hh|Hh]; [left; by apply H|].
  case_decide; [|by apply not_elem_of_nil in Hh]. apply list_elem_of_singleton in Hh. by right.
Qed.

Lemma remove_head_sub l e l' r : Mhw.remove_head l e = Some l' -> r ∈ l' -> r ∈ l.
Proof.
  revert l'. induction l as [|a l IH]; intros l'; cbn; [done|]. case_if; [intros [= ->] ?; by constructor|].
  destruct (Mhw.remove_head l e) as [l1|]; cbn; [|done]. intros [= <-] [->|H]%elem_of_cons; [constructor|]. right. by eapply IH.
Qed.

Lemma retire_sub mh : forall w wid x r, r ∈ Mhw.entry_of (Mhw.retire w wid mh).1 x -> r ∈ Mhw.entry_of w x.
Proof.
  induction mh as [|e mh IH]; intros w wid x r; cbn [Mhw.retire]; [done|].
  destruct (Mhw.remove_head _ _) as [l|] eqn:E; [|done]. intros H%IH. rewrite entry_set in H. case_decide; [|done]. subst.
  by eapply remove_head_sub.
Qed.

Lemma merge_base_sub w wid_old wid_new now x r : r ∈ Mhw.entry_of (merge_base w wid_old wid_new now) x -> r ∈ Mhw.entry_of w x.
Proof.
  unfold merge_base. case_if; [done|]. cbn zeta. intros H%prune_sub. revert H. case_bool_decide as Eo; [|done].
  by rewrite drop_empty.
Qed.

Lemma accept_head_adds w wid r now : adds wid (with_accept_time r now) w (Mhw.accept_head w wid r now).1.
Proof. unfold Mhw.accept_head. case_if; [apply adds_shrink|apply adds_push]; intros x h; apply prune_sub. Qed.

Lemma accept_merge_adds w wid_old wid_new mh r now :
  adds wid_new (with_accept_time r now) w (accept_merge w wid_old wid_new mh r now).1.
Proof.
  unfold accept_merge. case_if; [by apply adds_shrink|]. rewrite accept_merge_eq. case_if; [by apply adds_shrink|].
  pose proof (fun x h => retire_sub mh (Mhw.prune w wid_old now) wid_old x h) as Hr.
  destruct (Mhw.retire _ _ _) as [w1 [u|e]]; cbn [fst] in Hr.
  - cbn zeta. case_if; [apply adds_shrink|apply adds_push]; intros x h ?%merge_base_sub%Hr; by eapply prune_sub.
  - apply adds_shrink. intros x h ?%Hr. by eapply prune_sub.
Qed.

(** ** Windows are keyed by what they hold *)

Section Keyed.
  Context {HS : Hashing} {HL : HashingLaws HS} {WC : WireCodec} {MH : MerkleHash} {SP : SrxProofs} {AP : AnchorProofs}.
  Context (hashed : string -> Value -> Prop).

(** The head belongs under [wid]. *)
Definition keyed_head (wid : bytes) (r : HeadRecord) : Prop :=
  exists g root, derive_we_epoch_id g root (hr_seed_ctx_hash r) = Ok (hr_we_epoch_id r) /\
    compute_window_id g root (hr_seed_ctx_hash r) = Ok wid /\
    hashed "mhw/window" (epoch_preimage g root (hr_seed_ctx_hash r)).

Definition window_keyed (w : MultiHeadWindow) : Prop := forall wid r, r ∈ Mhw.entry_of w wid -> keyed_head wid r.

Lemma adds_keyed wid r w w' : adds wid r w w' -> window_keyed w -> keyed_head wid r -> window_keyed w'.
Proof. intros Ha Hw Hr x h [Hh|[-> ->]]%Ha; [by apply Hw|done]. Qed.

Lemma bound_keyed c parts claim hdr root b rho hp xk seq now :
  within hashed c parts hdr -> bound parts claim hdr root b ->
  keyed_head (b_wid b) (with_accept_time (head_record parts b rho hp xk seq now) now).
Proof.
  intros Hh [Hr Hs Hw _ Hi]. apply check_roots_inv in Hr as ->. exists (gid parts), (parent_root parts). split_and!; [done|done|].
  by apply Hh, hashes_window.
Qed.

Lemma started_keyed c : window_keyed (mh_window c) -> window_keyed (mh_window (started c)).
Proof. intros H x h. cbn. rewrite entry_prune_all. intros [_ ?]%list_elem_of_filter. by apply H. Qed.

Lemma core_keyed c c1 : core c1 = core c -> window_keyed (mh_window c) -> window_keyed (mh_window c1).
Proof. by intros (_ & _ & _ & _ & ->)%core_fields. Qed.

Lemma commit_gate_window g hdr gate res : mh_window (commit_gate g hdr gate res).1 = mh_window res.1.
Proof.
  destruct res as [c [o|e]]; [|done]. cbn. unfold apply_barrier_acceptance_commit. destruct (gd_barrier_update_reason gate); [|done].
  destruct (get_bytes hdr HDR_POP_PK); [|done]. by case_if.
Qed.

Lemma accept_anchor_keyed parts claim hdr c :
  within hashed c parts hdr -> window_keyed (mh_window c) -> window_keyed (mh_window (accept_anchor parts claim hdr c).1).
Proof.
  intros Hh Hk%started_keyed. destruct (accept_anchor_cases parts claim hdr c) as [[H _]|(gate & note & _ & [[_ ->]|(_ & heads & _ & ->)])];
    [by eapply core_keyed| |]; rewrite commit_gate_window.
  - destruct (join_phases parts claim hdr note (gd_barrier_update_digest gate) (instant c) (started c)) as
      [[H _]|(c1 & root & b & v & rho & hp & epoch & xk & seq & proofs & Hc & [Hb _ _ _ _ _] & ->)]; [by eapply core_keyed|].
    apply (core_keyed _ c1) in Hk; [|done]. destruct (commit_join _ _ _ _ _ _ _ _ _ _ _ _ _ _) as [c2 r] eqn:E. cbn [fst].
    apply commit_join_inv in E as [[-> _]|(_ & _ & -> & _)]; [done|]. eapply adds_keyed, bound_keyed, Hb; [apply accept_head_adds|done|done].
  - destruct (merge_phases parts claim hdr heads note (instant c) (started c)) as
      [[H _]|(c1 & root & b & m & rho & xk & seq & proofs & wid & pr & par & pv & req & Hc & [Hb _ _ _ _ _ _] & ->)]; [by eapply core_keyed|].
    apply (core_keyed _ c1) in Hk; [|done]. destruct (commit_merge _ _ _ _ _ _ _ _ _ _ _ _ _ _ _ _ _ _) as [c2 r] eqn:E. cbn [fst].
    apply commit_merge_window in E as [->|[hp' ->]]; [done|]. eapply adds_keyed, bound_keyed, Hb; [apply accept_merge_adds|done|done].
Qed.

Lemma run_keyed c c' : rtc (anchor_step (within hashed)) c c' -> window_keyed (mh_window c) -> window_keyed (mh_window c').
Proof. induction 1 as [|c1 c2 c3 (parts & claim & hdr & Hh & ->) _ IH]; [done|]. intros H. by apply IH, accept_anchor_keyed. Qed.

Lemma new_window h_max ttl options : mh_window (with_options_internal h_max ttl options) = Mhw.new h_max ttl.
Proof. unfold with_options_internal. destruct (apply_fs_policy_config _ _) as [c []] eqn:E; unfold apply_fs_policy_config in E;
  destruct (synthesize_caps _); by injection E as <- _. Qed.

(** *** Merges *)

Lemma find_head_inv w wid e r : Mhw.find_head w wid e = Some r -> r ∈ Mhw.entry_of w wid /\ hr_we_epoch_id r = e.
Proof.
  unfold Mhw.find_head, Mhw.entry_of. destruct (heads w !! wid) as [l|]; [|done]. cbn. intros [Hin He]%List.find_some.
  split; [by apply list_elem_of_In|]. by bool_prop.
Qed.

Lemma keyed_same wid r1 r2 : keyed_head wid r1 -> keyed_head wid r2 -> hr_we_epoch_id r1 = hr_we_epoch_id r2 \/ hl_collision hashed.
Proof using HL.
  intros (g1 & p1 & Hw1 & Hi1 & Hh1) (g2 & p2 & Hw2 & Hi2 & Hh2). destruct (h_l_inj hashed _ _ _ _ _ Hi1 Hi2 Hh1 Hh2) as [[_ H]|]; [|by right].
  injection H as -> -> H. rewrite H in Hw1. left. congruence.
Qed.

Lemma locate_heads_one w hdr mh rho wid e pr :
  window_keyed w -> locate_heads w hdr mh rho = Ok (wid, e, pr) -> (exists head, mh = [head]) \/ hl_collision hashed.
Proof using HL.
  unfold locate_heads. intros Hk H. ok_step H as first E1. ok_step H as u2 E2. ok_step H as wid' E3. ok_step H as u4 E4. clear H.
  apply freeze_on_inv in E1. apply afreeze_if_inv in E2, E4. bool_prop. destruct mh as [|a [|b l]]; [done|eauto|].
  cbn in E2, E4. bool_prop. destruct (Mhw.find_head w wid' a) as [ra|] eqn:Ea; [|by destruct H].
  destruct (Mhw.find_head w wid' b) as [rb|] eqn:Eb; [|by destruct H0].
  apply find_head_inv in Ea as [Ha <-], Eb as [Hb <-].
  destruct (keyed_same wid' ra rb) as [Heq|]; [by apply Hk..| |by right].
  rewrite Heq in *. unfold bytes_ltb, bytes_lt in *. bool_prop. by rewrite bytes_cmp_refl in *.
Qed.

(** C40: A merge retires one head.  In a context that started from an empty window
    and has run acceptance since, an accepted merge lists exactly one head,
    unless two inputs of H_L hashed for the anchors of the run collide: the heads
    it lists must lie in one window, and the heads of a window all have the epoch
    id that goes with its id. *)
Theorem merge_retires_one_head c0 c parts claim hdr c' o retired :
  heads (mh_window c0) = ∅ -> rtc (anchor_step (within hashed)) c0 c ->
  accept_anchor parts claim hdr c = (c', Ok o) -> o_kind o = KMerge retired ->
  (exists head, retired = [head]) \/ hl_collision hashed.
Proof using HL.
  intros H0 Hrun H Ho. assert (window_keyed (mh_window (started c))) as Hk.
  { eapply started_keyed, run_keyed; [exact Hrun|]. intros wid r Hr. unfold Mhw.entry_of in Hr. rewrite H0, lookup_empty in Hr.
    by apply not_elem_of_nil in Hr. }
  apply accepted_cases in H as [(root & b & _ & _ & Hn)|(? & ? & ? & mh & ? & ? & ? & ? & ? & ? & ? & ? & ? & ? & ? & ? & _ & [_ _ _ [pw Hl] _ _ _] & _ & _ & Hm)];
    [congruence|]. rewrite Ho in Hm. injection Hm as ->. by eapply locate_heads_one.
Qed.

End Keyed.
