(* ===== verification/SrxRuns.v ===== *)
(** * Revocations that are accepted are proved

    A merge that changes the revocation roots carries a payload that lists the
    newly revoked devices, and acceptance checks it against the roots, unless
    the verification cache says that it has been checked before.  The theorem is
    that the cache does not weaken the check: along any run of acceptance, the
    payload of every accepted revocation satisfies the set relations for the
    very roots of the anchor. *)

From S2P Require Import Prelude Hash Errors Merkle BarrierWire Window Header AnchorSeed Srx Accept AcceptLemmas Ledger AcceptRuns AcceptWindow.

(** ** What the checks of a payload establish *)

Section Relations.
  Context {HS : Hashing} {MH : MerkleHash} {SP : SrxProofs}.

(** One of the witnesses is a Merkle path from the leaf to the root. *)
Definition member_of (witnesses : list RawMembershipWitness) (leaf root : bytes) : Prop :=
  exists w, w ∈ witnesses /\ rmw_leaf_id w = leaf /\ len (rmw_path w) <= MAX_MERKLE_DEPTH /\
    apply_path leaf (path_value (rmw_path w)) = root.

(** The payload lists exactly the joiners and the newly revoked devices of the roots, and carries
    for each newly revoked device a path to the root of the revoked set. *)
Record relations_hold (payload : bytes) (parts : AnchorInstanceParts) (srx : SrxPayload) : Prop := {
  rh_parsed : exists value, decode_value payload = Some value /\ parse_srx_payload value = Ok srx;
  rh_joined : canonical_set_root (join_leaf_ids srx) = Ok (join_delta_root parts);
  rh_since : canonical_set_root (since_leaf_ids srx) = Ok (revoked_since_prev_root parts);
  rh_revoked : forall leaf, leaf ∈ since_leaf_ids srx -> member_of (revoked_since_mem_in_revoked srx) leaf (revoked_root parts)
}.

Lemma check_set_root_inv leaves root u : check_set_root leaves root = Ok u -> canonical_set_root leaves = Ok root.
Proof.
  unfold check_set_root. intros H. ok_step H as r E1. ok_step H as u2 E2. apply afreeze_if_inv in H. bool_prop. subst.
  by destruct (canonical_set_root leaves); [injection E1 as ->|].
Qed.

Lemma to_array32_inv b r : to_array32 b = Ok r -> b = r.
Proof. unfold to_array32. by case_if; [intros [= ->]|]. Qed.

Lemma validate_path_inv path p : validate_path path = Ok p -> p = path_value path /\ len path <= MAX_MERKLE_DEPTH.
Proof.
  unfold validate_path. intros H. ok_step H as u E. unfold reject_if, fail_if in E. destruct (_ <? _) eqn:El; [done|]. bool_prop.
  split; [|done]. clear -H. revert p H. induction path as [|e path IH]; intros p H; cbn in H; [by injection H as <-|].
  ok_step H as x E1. ok_step H as l E2. injection H as <-. ok_step E1 as u1 E3. ok_step E1 as sib E4. injection E1 as <-.
  apply to_array32_inv in E4. cbn. rewrite E4. f_equal. by apply IH.
Qed.

Lemma validate_membership_inv raw root v :
  validate_membership_against raw root = Ok v ->
  rmw_leaf_id raw = vm_leaf_id v /\ len (rmw_path raw) <= MAX_MERKLE_DEPTH /\ apply_path (vm_leaf_id v) (path_value (rmw_path raw)) = root.
Proof.
  unfold validate_membership_against. intros H. ok_step H as leaf E1. ok_step H as r E2. ok_step H as u3 E3. ok_step H as path E4.
  ok_step H as u5 E5. injection H as <-. cbn. unfold reject_if, fail_if in E5. destruct (bytes_eqb _ _) eqn:Ee in E5; [|done].
  bool_prop. apply to_array32_inv in E1 as ->. by apply validate_path_inv in E4 as [-> ?].
Qed.

Lemma membership_array_inv raws root l :
  validate_membership_array raws root = Ok l -> Forall (fun v => member_of raws (vm_leaf_id v) root) l.
Proof.
  unfold validate_membership_array. intros H. ok_step H as acc E. injection H as <-.
  match type of E with fold_res ?f _ _ = _ => set (step := f) in E end.
  assert (forall ws a acc, fold_res step a ws = Ok acc -> ws ⊆ raws -> Forall (fun v => member_of raws (vm_leaf_id v) root) a.2 ->
    Forall (fun v => member_of raws (vm_leaf_id v) root) acc.2) as Hf; [|by eapply Hf in E].
  clear. induction ws as [|raw ws IH]; intros a acc H Hs Ha; cbn in H; [by injection H as <-|].
  ok_step H as a' E. eapply IH; [exact H|set_solver|]. unfold step in E. ok_step E as v E1. ok_step E as u E2. injection E as <-. cbn.
  apply Forall_app. split; [done|]. apply Forall_singleton.
  destruct (validate_membership_against raw root) as [v'|] eqn:Ev; [|done]. injection E1 as ->.
  apply validate_membership_inv in Ev as (? & ? & ?). exists raw. split_and!; [set_solver|done..].
Qed.

Lemma mem_coverage_inv leaves l u : ensure_mem_coverage leaves l = Ok u -> forall x, x ∈ leaves -> x ∈ vm_leaf_id <$> l.
Proof.
  unfold ensure_mem_coverage. revert u. induction leaves as [|a leaves IH]; intros u H x Hx; [by apply not_elem_of_nil in Hx|].
  cbn in H. ok_step H as u1 E. apply afreeze_if_inv in E. bool_prop. apply elem_of_cons in Hx as [->|Hx]; [|destruct u1; by eapply IH].
  by apply elem_of_list_to_set in E.
Qed.

Lemma check_sets_inv payload value srx parts u :
  decode_value payload = Some value -> parse_srx_payload value = Ok srx ->
  check_sets srx (parent_root parts) (join_delta_root parts) (revoked_since_prev_root parts) (revoked_root parts) = Ok u ->
  relations_hold payload parts srx.
Proof.
  intros Hv Hp H. unfold check_sets in H. ok_step H as u1 E1. ok_step H as u2 E2. ok_step H as u3 E3. ok_step H as u4 E4.
  ok_step H as u5 E5. ok_step H as vp E6. ok_step H as u7 E7. ok_step H as vs E8. ok_step H as u9 E9. ok_step H as sub E10.
  split; [eauto|by eapply check_set_root_inv|by eapply check_set_root_inv|]. intros leaf Hl.
  apply (mem_coverage_inv _ _ _ H) in Hl. apply list_elem_of_fmap in Hl as (v & -> & Hv'). apply membership_array_inv in E10.
  by eapply Forall_forall in E10.
Qed.

Lemma open_payload_inv hdr max commit payload srx :
  open_payload hdr max = Ok (commit, payload, srx) ->
  hdr !! HDR_SRX_COMMIT = Some (VBytes commit) /\ get_bytes hdr HDR_SRX_PAYLOAD = Some payload /\
  h_l "srx/commit" (VBytes payload) = Ok commit /\
  exists value, decode_value payload = Some value /\ parse_srx_payload value = Ok srx.
Proof.
  unfold open_payload. intros H. ok_step H as c E1. ok_step H as p E2. ok_step H as u3 E3. ok_step H as r E4. ok_step H as u5 E5.
  ok_step H as v E6. ok_step H as s E7. ok_step H as u8 E8. injection H as -> -> ->. apply header_bytes32_inv in E1 as [E1 _].
  apply freeze_on_inv in E2, E6. apply acc_hash_inv in E4. apply afreeze_if_inv in E5. bool_prop. subst. split_and!; eauto.
Qed.

End Relations.

(** ** The cache *)

Section Cache.
  Context {HS : Hashing} {HL : HashingLaws HS} {WC : WireCodec} {MH : MerkleHash} {SP : SrxProofs} {AP : AnchorProofs}.
  Context (hashed : string -> Value -> Prop).

(** The key was computed for a payload whose relations hold for the roots of its anchor. *)
Definition srx_verified (key : bytes) : Prop :=
  exists parts b xk seed rho hp hdr commit payload srx v,
    xk_hash (instance_of parts b None) = Ok xk /\ hashed "msphf/xk" (as_cbor_tuple (instance_of parts b None)) /\
    vck_fields xk seed rho hp hdr = Ok v /\ h_l "msphf/vck" v = Ok key /\ hashed "msphf/vck" v /\
    hdr !! HDR_SRX_COMMIT = Some (VBytes commit) /\ h_l "srx/commit" (VBytes payload) = Ok commit /\
    hashed "srx/commit" (VBytes payload) /\ relations_hold payload parts srx.

Definition cache_sound (cache : VckCache HpProof) : Prop :=
  forall key e, vc_entries cache !! key = Some e -> is_Some (ve_srx e) -> srx_verified key.

Lemma cache_sound_prune cache now : cache_sound cache -> cache_sound (vck_prune cache now).
Proof. intros H key e He Hs. cbn in He. apply map_lookup_filter_Some in He as [He _]. by eapply H. Qed.

Lemma vck_fields_inv xk seed rho hp hdr v commit :
  vck_fields xk seed rho hp hdr = Ok v -> hdr !! HDR_SRX_COMMIT = Some (VBytes commit) ->
  exists crs params proofs mode vrf version,
    v = vck_preimage "fs_policy_version" xk seed rho hp crs params commit proofs mode vrf version.
Proof.
  unfold vck_fields. intros H Hc. ok_step H as crs E1. ok_step H as params E2. ok_step H as c E3. ok_step H as proofs E4.
  ok_step H as mode E5. ok_step H as vrf E6. ok_step H as version E7. injection H as <-.
  eapply optional_commit_lookup in E3; [|exact Hc]. injection E3 as ->. by do 6 eexists.
Qed.

(** What is hashed for the check of a payload. *)
Record check_hashed (parts : AnchorInstanceParts) (b : Bindings) (xk seed rho hp : bytes) (hdr : header) : Prop := {
  ch_xk : hashed "msphf/xk" (as_cbor_tuple (instance_of parts b None));
  ch_payload : forall payload, get_bytes hdr HDR_SRX_PAYLOAD = Some payload -> hashed "srx/commit" (VBytes payload);
  ch_vck : forall v, vck_fields xk seed rho hp hdr = Ok v -> hashed "msphf/vck" v
}.

(** A key pins down the anchor's roots and the payload. *)
Lemma srx_verified_same key parts b xk seed rho hp hdr commit payload value srx v :
  srx_verified key -> check_hashed parts b xk seed rho hp hdr -> xk_hash (instance_of parts b None) = Ok xk ->
  vck_fields xk seed rho hp hdr = Ok v -> h_l "msphf/vck" v = Ok key ->
  hdr !! HDR_SRX_COMMIT = Some (VBytes commit) -> get_bytes hdr HDR_SRX_PAYLOAD = Some payload ->
  h_l "srx/commit" (VBytes payload) = Ok commit -> decode_value payload = Some value -> parse_srx_payload value = Ok srx ->
  relations_hold payload parts srx \/ hl_collision hashed.
Proof using HL.
  intros (parts' & b' & xk' & seed' & rho' & hp' & hdr' & commit' & payload' & srx' & v' & Hx' & Ix' & Hf' & Hk' & Ik' & Hc' & Hp' & Ip' & Hr)
    [Ix Ip Ik] Hx Hf Hk Hc Hl Hp Hv Hs.
  specialize (Ik _ Hf). specialize (Ip _ Hl). destruct (vck_fields_inv _ _ _ _ _ _ _ Hf' Hc') as (? & ? & ? & ? & ? & ? & ->).
  destruct (vck_fields_inv _ _ _ _ _ _ _ Hf Hc) as (? & ? & ? & ? & ? & ? & ->).
  destruct (h_l_inj hashed _ _ _ _ _ Hk' Hk Ik' Ik) as [[_ Heq]|]; [|by right]. injection Heq as -> _ _ _ _ _ -> _ _ _ _.
  destruct (h_l_inj hashed _ _ _ _ _ Hp' Hp Ip' Ip) as [[_ Heq]|]; [|by right]. injection Heq as ->.
  destruct (h_l_inj hashed _ _ _ _ _ Hx' Hx Ix' Ix) as [[_ Heq]|]; [|by right]. injection Heq as _ _ _ _ _ _ Hj Hsn Hrv _.
  left. destruct Hr as [(value' & Hv' & Hs') Hr1 Hr2 Hr3]. rewrite Hv in Hv'. injection Hv' as <-. rewrite Hs in Hs'. injection Hs' as <-.
  cbn in Hj, Hsn, Hrv. split; [eauto|..]; congruence || (rewrite <- Hrv; done).
Qed.

(** The payload of the header fits the roots of the anchor. *)
Definition revocation_proved (hdr : header) (parts : AnchorInstanceParts) : Prop :=
  exists payload srx, get_bytes hdr HDR_SRX_PAYLOAD = Some payload /\ relations_hold payload parts srx.

Lemma ensure_srx_sound hdr parts b xk seed rho hp max now cache proofs before cache' r :
  check_hashed parts b xk seed rho hp hdr -> xk_hash (instance_of parts b None) = Ok xk -> cache_sound cache ->
  ensure_srx_relations hdr (parent_root parts) (join_delta_root parts) (revoked_since_prev_root parts) (revoked_root parts) true
    max xk seed rho hp now cache proofs before = (cache', r) ->
  cache_sound cache' /\ (forall u, r = Ok u -> revocation_proved hdr parts \/ hl_collision hashed).
Proof using HL.
  intros Hi Hx Hs. unfold ensure_srx_relations. destruct (ensure_merge_srx_keys hdr true); [|by intros [= <- <-]]. cbn [negb].
  match goal with |- context [match ?m with Ok _ => _ | Err _ => _ end] => destruct m as [[[[commit payload] srx] key]|e] eqn:E end;
    [|by intros [= <- <-]].
  ok_step E as o E1. ok_step E as k E2. injection E as -> ->. apply open_payload_inv in E1 as (Hc & Hp & Hh & value & Hv & Hsrx).
  apply compute_vck_key_fields in E2 as (v & Hf & Hk).
  unfold try_skip_srx. pose proof (cache_sound_prune cache now Hs) as Hpr.
  destruct (e ← vc_entries (vck_prune cache now) !! key; ve_srx e) as [st|] eqn:Ee.
  - case_if; [by intros [= <- <-]|]. case_if; [by intros [= <- <-]|]. intros [= <- <-]. split; [done|]. intros _ _.
    destruct (vc_entries (vck_prune cache now) !! key) as [e|] eqn:Ek; [|done]. cbn in Ee.
    destruct (srx_verified_same key parts b xk seed rho hp hdr commit payload value srx v) as [?|]; try done;
      [by apply (Hpr key e Ek); rewrite Ee|left; by exists payload, srx|by right].
  - destruct (check_sets _ _ _ _ _ ;; _) as [u|e] eqn:Ec; [|by intros [= <- <-]]. ok_step Ec as u1 E3. intros [= <- <-].
    pose proof (check_sets_inv payload value srx parts u1 Hv Hsrx E3) as Hr. split; [|intros _ _; left; by exists payload, srx].
    intros key' e He Hs'. unfold record_srx in He. cbn [vck_with vc_entries] in He. apply lookup_insert_Some in He as [[<- _]|[_ He]].
    + destruct Hi as [Ix Ip Ik]. specialize (Ik _ Hf). specialize (Ip _ Hp).
      by exists parts, b, xk, seed, rho, hp, hdr, commit, payload, srx, v.
    + eapply (cache_sound_prune _ _ Hpr); [exact He|done].
Qed.

End Cache.

(** ** Runs *)

Section SrxRun.
  Context {HS : Hashing} {HL : HashingLaws HS} {WC : WireCodec} {MH : MerkleHash} {SP : SrxProofs} {AP : AnchorProofs}.
  Context (hashed : string -> Value -> Prop).

Definition same_cache (c c' : AcceptanceContext) : Prop := vck_cache c' = vck_cache c.

#[global] Instance same_cache_preorder : PreOrder same_cache.
Proof. split; [by intros c|]. intros c1 c2 c3 H1 H2. unfold same_cache in *. congruence. Qed.

Lemma insert_head_cache gid root wid f : stable same_cache (insert_head gid root wid f).
Proof. intros c. unfold insert_head. destruct (f (mh_window c)) as [w [[]|e]]; [done|]. by case_bool_decide. Qed.

Lemma commit_join_cache hdr parts root b v rho hp epoch xk seq now proofs note :
  stable same_cache (commit_join hdr parts root b v rho hp epoch xk seq now proofs note).
Proof.
  unfold commit_join. repeat (apply stable_bind; [apply _| |intros ?]); try (stable_go; fail); try apply insert_head_cache;
    try (by intros c).
Qed.

Lemma finish_merge_cache hdr parts root m b rho hp xk seq now proofs heads note required before pivot :
  stable same_cache (finish_merge hdr parts root m b rho hp xk seq now proofs heads note required before pivot).
Proof.
  unfold finish_merge. repeat (apply stable_bind; [apply _| |intros ?]); try (stable_go; fail);
    try (apply stable_modify; intros c; by destruct (m_pop_pk m)).
  all: try (destruct required); stable_go; by intros c.
Qed.

(** What a commit does to the cache is what the check of the payload does. *)
Lemma commit_merge_cache hdr parts root m b rho xk seq now proofs heads note wid pr parities pivot required c c' r :
  root = parent_root parts -> check_hashed hashed parts b xk (b_seed_commit b) rho (hr_msphf_hp_commit pr) hdr ->
  xk_hash (instance_of parts b None) = Ok xk -> cache_sound hashed (vck_cache c) ->
  commit_merge hdr parts root m b rho xk seq now proofs heads note wid pr parities pivot required c = (c', r) ->
  cache_sound hashed (vck_cache c') /\
  (forall o, r = Ok o -> required = true -> revocation_proved hdr parts \/ hl_collision hashed).
Proof using HL.
  intros -> Hi Hx Hs. unfold commit_merge, mbind at 1, acc_bind at 1.
  destruct (ensure_group_srx_root_sw _ _) as [c1 [before|e]] eqn:E1;
    (assert (vck_cache c1 = vck_cache c) as H1 by (unfold ensure_group_srx_root_sw in E1; destruct (group_srx_root _); by injection E1 as <- _));
    [|intros [= <- <-]; by rewrite H1].
  unfold mbind at 1, acc_bind at 1. rewrite <- H1 in Hs.
  match goal with |- context [(if required then ?x else ?y) c1] => destruct ((if required then x else y) c1) as [c2 r2] eqn:E2 end.
  assert (cache_sound hashed (vck_cache c2) /\ (forall u, r2 = Ok u -> required = true ->
    revocation_proved hdr parts \/ hl_collision hashed)) as [H2 Hok].
  { destruct required; [|by injection E2 as <- <-]. unfold merge_srx in E2.
    destruct (ensure_srx_relations _ _ _ _ _ _ _ _ _ _ _ _ _ _ _) as [cache r'] eqn:E3. injection E2 as <- <-.
    eapply ensure_srx_sound in E3 as [? Hu]; [|done..]. split; [done|]. intros u Hr _. by eapply Hu. }
  destruct r2 as [u2|e2]; [|by intros [= <- <-]]. intros H.
  match type of H with ?k c2 = _ => assert (stable same_cache k) as Hk end.
  { apply stable_bind; [apply _|stable_go|intros _]. apply stable_bind; [apply _|by intros c0|intros _].
    apply stable_bind; [apply _|apply insert_head_cache|intros _]. apply finish_merge_cache. }
  specialize (Hk c2). rewrite H in Hk. unfold same_cache in Hk. cbn in Hk. rewrite Hk. split; [done|]. intros o _. by apply Hok with u2.
Qed.

(** The pivot of a merge is a head of the window. *)
Lemma locate_heads_pivot w hdr mh rho wid e pr :
  locate_heads w hdr mh rho = Ok (wid, e, pr) ->
  pr ∈ Mhw.entry_of w wid /\ hdr !! HDR_ROLLUP_PIVOT_WEID = Some (VBytes (hr_we_epoch_id pr)).
Proof.
  unfold locate_heads. intros Hl. ok_step Hl as first E1. ok_step Hl as u2 E2. ok_step Hl as wid' E3. ok_step Hl as u4 E4.
  ok_step Hl as pw' E5. ok_step Hl as u6 E6. ok_step Hl as pr' E7. ok_step Hl as u8 E8. injection Hl as -> -> ->.
  apply freeze_on_inv, find_head_inv in E7 as [Hin Hw]. apply header_bytes32_inv in E5 as [E5 _]. by rewrite Hw.
Qed.

Lemma ready_hashed c parts claim hdr mh root b m rho xk wid pr required :
  within hashed c parts hdr -> merge_ready (started c) parts claim hdr mh root b m rho xk wid pr required ->
  root = parent_root parts /\ check_hashed hashed parts b xk (b_seed_commit b) rho (hr_msphf_hp_commit pr) hdr /\
  xk_hash (instance_of parts b None) = Ok xk.
Proof.
  intros Hi [[Hr Hs Hw _ _] _ _ [pw Hl] _ Hid _]. apply check_roots_inv in Hr. destruct (locate_heads_pivot _ _ _ _ _ _ _ Hl) as [Hin _].
  split_and!; [done| |apply Hid]. split.
  - eapply Hi, hashes_xk; [done|done|apply Hid].
  - intros payload Hp. by apply Hi, hashes_payload.
  - intros v Hv. by eapply Hi, hashes_vck.
Qed.

Lemma accept_anchor_cache parts claim hdr c :
  within hashed c parts hdr -> cache_sound hashed (vck_cache c) ->
  cache_sound hashed (vck_cache (accept_anchor parts claim hdr c).1).
Proof using HL.
  intros Hi Hk. change (cache_sound hashed (vck_cache (started c))) in Hk.
  assert (forall gate res, vck_cache (commit_gate (gid parts) hdr gate res).1 = vck_cache res.1) as Hg.
  { intros gate [c1 [o|e]]; [|done]. cbn. unfold apply_barrier_acceptance_commit. destruct (gd_barrier_update_reason gate); [|done].
    destruct (get_bytes hdr HDR_POP_PK); [|done]. by case_if. }
  destruct (accept_anchor_cases parts claim hdr c) as [[H%core_cache _]|(gate & note & _ & [[_ ->]|(_ & heads & _ & ->)])];
    [by rewrite H| |]; rewrite Hg.
  - destruct (join_phases parts claim hdr note (gd_barrier_update_digest gate) (instant c) (started c)) as
      [[H%core_cache _]|(c1 & root & b & v & rho & hp & epoch & xk & seq & proofs & Hc%core_cache & _ & ->)]; [by rewrite H|].
    rewrite commit_join_cache. by rewrite Hc.
  - destruct (merge_phases parts claim hdr heads note (instant c) (started c)) as
      [[H%core_cache _]|(c1 & root & b & m & rho & xk & seq & proofs & wid & pr & par & pv & req & Hc%core_cache & Hm & ->)];
      [by rewrite H|]. destruct (commit_merge _ _ _ _ _ _ _ _ _ _ _ _ _ _ _ _ _ _) as [c2 r] eqn:E.
    destruct (ready_hashed _ _ _ _ _ _ _ _ _ _ _ _ _ Hi Hm) as (? & ? & ?).
    eapply commit_merge_cache in E as [? _]; [done|done|done|done|by rewrite Hc].
Qed.

Lemma run_cache c c' :
  rtc (anchor_step (within hashed)) c c' -> cache_sound hashed (vck_cache c) -> cache_sound hashed (vck_cache c').
Proof using HL. induction 1 as [|c1 c2 c3 (parts & claim & hdr & Hi & ->) _ IH]; [done|]. intros H. by apply IH, accept_anchor_cache. Qed.

(** C7: Revocations are proved, also when the check is skipped.  In a context that
    started with an empty verification cache and has run acceptance since, an
    accepted merge repeats the revocation roots of its pivot, or finalises the
    reclaim of a slot, or carries a payload that fits its roots: the listed
    joiners and the listed newly revoked devices have the announced set roots,
    and for every newly revoked device the payload has a Merkle path to the
    revoked root.  Otherwise two inputs of H_L hashed for the anchors of the run
    collide. *)
Theorem accepted_revocation_proved c0 c parts claim hdr c' o retired :
  vc_entries (vck_cache c0) = ∅ -> rtc (anchor_step (within hashed)) c0 c -> within hashed c parts hdr ->
  accept_anchor parts claim hdr c = (c', Ok o) -> o_kind o = KMerge retired ->
  (exists pivot wid, pivot ∈ Mhw.entry_of (mh_window (started c)) wid /\
     hdr !! HDR_ROLLUP_PIVOT_WEID = Some (VBytes (hr_we_epoch_id pivot)) /\ srx_required_for_merge hdr parts pivot = false) \/
  revocation_proved hdr parts \/ hl_collision hashed.
Proof using HL.
  intros H0 Hrun Hi H Ho. assert (cache_sound hashed (vck_cache (started c))) as Hk.
  { apply (run_cache _ _ Hrun). intros key e He. by rewrite H0, lookup_empty in He. }
  apply accepted_cases in H as [(? & ? & _ & _ & Hn)|(? & c1 & ? & ? & root & ? & ? & ? & ? & ? & ? & ? & pr & ? & ? & req & Hc%core_cache &
    Hm & Ec & _ & _)]; [congruence|].
  destruct (ready_hashed _ _ _ _ _ _ _ _ _ _ _ _ _ Hi Hm) as (? & ? & ?).
  destruct req; [right|left].
  - eapply commit_merge_cache in Ec as [_ Hok]; [by eapply Hok|done|done|done|by rewrite Hc].
  - destruct Hm as [_ _ _ [pw Hl] _ _ Hq]. destruct (locate_heads_pivot _ _ _ _ _ _ _ Hl). eauto 10.
Qed.

End SrxRun.
