(* ===== verification/AcceptSamples.v ===== *)
(** * Concrete runs of acceptance

    Runs on a model hash and codec and with proof systems that accept
    everything.  [TwoAnchors]: a device joins a provisioned group, then merges
    its own head with a proactive update.  [Revocation]: the merge revokes a
    device, with its revocation payload.  [Identifiers]: the epoch identifier
    and the rollup parity key on sample headers.  They show that the
    theorems on runs are about runs that exist. *)

From S2P Require Import Prelude Hash Errors Merkle BarrierWire Window Header AnchorSeed Srx Accept AcceptLemmas Ledger AcceptRuns AcceptWindow SrxRuns.

(** ** A model encoding that is cheap to evaluate

    Type, length and contents, one number each; the digest sums the numbers up. *)

Fixpoint flat (v : Value) : bytes :=
  match v with
  | VInteger z => [0; z]
  | VBytes b => 1 :: len b :: b
  | VFloat z => [2; z]
  | VText s => [3; Zpos (encode s)]
  | VBool b => [4; if b then 1 else 0]
  | VNull => [5]
  | VTag t v => 6 :: t :: flat v
  | VArray l => 7 :: len l :: concat (map flat l)
  | VMap l => 8 :: len l :: concat (map (fun '(k, v) => flat k ++ flat v) l)
  end.

(** [n] values in a row. *)
Fixpoint many {A} (p : bytes -> option (A * bytes)) (n : nat) (r : bytes) : option (list A * bytes) :=
  match n with
  | O => Some ([], r)
  | S n => '(a, r) ← p r; '(l, r) ← many p n r; Some (a :: l, r)
  end.

Fixpoint unflat (fuel : nat) (r : bytes) : option (Value * bytes) :=
  match fuel with
  | O => None
  | S fuel =>
      match r with
      | 0 :: z :: r => Some (VInteger z, r)
      | 1 :: n :: r => Some (VBytes (take (Z.to_nat n) r), drop (Z.to_nat n) r)
      | 2 :: z :: r => Some (VFloat z, r)
      | 3 :: Zpos p :: r => s ← decode p; Some (VText s, r)
      | 4 :: b :: r => Some (VBool (b =? 1), r)
      | 5 :: r => Some (VNull, r)
      | 6 :: t :: r => '(v, r) ← unflat fuel r; Some (VTag t v, r)
      | 7 :: n :: r => '(l, r) ← many (unflat fuel) (Z.to_nat n) r; Some (VArray l, r)
      | 8 :: n :: r =>
          '(l, r) ← many (fun r => '(k, r) ← unflat fuel r; '(v, r) ← unflat fuel r; Some ((k, v), r)) (Z.to_nat n) r;
          Some (VMap l, r)
      | _ => None
      end
  end.

Definition flat_value (b : bytes) : option Value := '(v, _) ← unflat (length b) b; Some v.

(** Enough fuel reads a value back. *)
Definition reads (v : Value) : Prop := exists n, forall fuel r, (n <= fuel)%nat -> unflat fuel (flat v ++ r) = Some (v, r).

Lemma many_flat {A} (p : nat -> bytes -> option (A * bytes)) (f : A -> bytes) l :
  Forall (fun a => exists n, forall fuel r, (n <= fuel)%nat -> p fuel (f a ++ r) = Some (a, r)) l ->
  exists n, forall fuel r, (n <= fuel)%nat -> many (p fuel) (length l) (concat (map f l) ++ r) = Some (l, r).
Proof.
  induction 1 as [|a l [n Ha] _ [m IH]]; [by exists 0%nat|]. exists (Nat.max n m). intros fuel r Hf. cbn [length many map concat].
  rewrite <- (assoc_L (++)), Ha by lia. cbn. by rewrite IH by lia.
Qed.

Lemma flat_reads v : reads v.
Proof.
  induction v as [z|b|z|s|b| |t v [n IH]|l IH|l IH] using Value_ind'.
  - exists 1%nat. intros [|fuel] r Hf; [lia|done].
  - exists 1%nat. intros [|fuel] r Hf; [lia|]. cbn. unfold len. rewrite Nat2Z.id, take_app_length, drop_app_length. done.
  - exists 1%nat. intros [|fuel] r Hf; [lia|done].
  - exists 1%nat. intros [|fuel] r Hf; [lia|]. cbn -[encode decode]. by rewrite decode_encode.
  - exists 1%nat. intros [|fuel] r Hf; [lia|]. by destruct b.
  - exists 1%nat. intros [|fuel] r Hf; [lia|done].
  - exists (S n). intros [|fuel] r Hf; [lia|]. cbn. by rewrite IH by lia.
  - destruct (many_flat unflat flat l IH) as [n Hn]. exists (S n). intros [|fuel] r Hf; [lia|]. cbn. unfold len. rewrite Nat2Z.id.
    by rewrite Hn by lia.
  - destruct (many_flat (fun fuel r => '(k, r) ← unflat fuel r; '(v, r) ← unflat fuel r; Some ((k, v), r))
      (fun '(k, v) => flat k ++ flat v) l) as [n Hn].
    { eapply Forall_impl; [exact IH|]. intros [k v] [[n1 Hk] [n2 Hv]]. exists (Nat.max n1 n2). intros fuel r Hf.
      rewrite <- (assoc_L (++)), Hk by lia. cbn. by rewrite Hv by lia. }
    exists (S n). intros [|fuel] r Hf; [lia|]. cbn. unfold len. rewrite Nat2Z.id. by rewrite Hn by lia.
Qed.

Lemma flat_inj v w : flat v = flat w -> v = w.
Proof.
  intros H. destruct (flat_reads v) as [n Hn], (flat_reads w) as [m Hm]. specialize (Hn (Nat.max n m) [] ltac:(lia)).
  specialize (Hm (Nat.max n m) [] ltac:(lia)). rewrite H in Hn. congruence.
Qed.

Definition sum_digest (seed : Z) (m : bytes) : bytes :=
  be_bytes 32 (fold_left (fun a b => (a * 257 + b + 1) mod 65521) m (seed mod 65521)).

Definition flat_hashing : Hashing := {|
  blake3_derive_key ctx m := sum_digest (be_value (str_bytes ctx)) m;
  blake3_keyed k m := sum_digest (be_value k + 1) m;
  cbor := flat
|}.

Instance flat_hashing_laws : HashingLaws flat_hashing.
Proof. split; cbn; [done..|exact flat_inj]. Qed.

Definition flat_codec : WireCodec := {|
  decode_update raw := v ← flat_value raw; value_update v;
  decode_cover raw := v ← flat_value raw; value_cover v
|}.

Definition flat_srx : SrxProofs := {|
  decode_value := flat_value;
  decode_membership := fun v =>
    match v with VArray [VBytes leaf; VBytes root] => Some {| rmw_leaf_id := leaf; rmw_root := root; rmw_path := [] |} | _ => None end;
  smallwood_decodes := fun _ => true;
  smallwood_verify := fun _ _ => Ok tt
|}.

(** Proof systems that accept everything. *)
Definition open_proofs : AnchorProofs := {|
  CapssWitness := unit;
  capss_witness_eqb := fun _ _ => true;
  HpProof := unit;
  verify_ml_dsa := fun _ _ _ => true;
  capss_from_bytes := fun _ => Ok tt;
  capss_verify := fun _ _ => Ok tt;
  recompute_capss_witness := fun _ => Ok tt;
  vrf_verify := fun _ _ _ _ => Ok true
|}.

Definition run {E} (r : result E bytes) : bytes := match r with Ok b => b | Err _ => [] end.

(** ** The inputs hashed for an anchor, as a list *)

Section Inputs.
  Context {HS : Hashing} {WC : WireCodec} {MH : MerkleHash} {SP : SrxProofs} {AP : AnchorProofs}.

Definition link_inputs (hdr : header) : list (string * Value) :=
  match get_bytes hdr HDR_POP_PK, hdr !! HDR_FS_EC, hdr !! HDR_FS_DEV_PREV_COMMIT, hdr !! HDR_BARRIER_VERSION,
        Header.compute_barrier_update_digest hdr with
  | Some pk, Some (VInteger ec), Some (VBytes prev), Some (VInteger version), Ok digest =>
      [("fs/dev/chain/v2", link_preimage pk ec prev version digest)]
  | _, _, _, _, _ => []
  end.

Definition key_inputs (parts : AnchorInstanceParts) (hdr : header) (tuple : Value) (weid hp : bytes) : list (string * Value) :=
  match hdr !! HDR_RHO_COMMIT with
  | Some (VBytes rho) =>
      match vck_fields (run (h_l "msphf/xk" tuple))
              (run (compute_seed_commit (build_anchor_seed_ctx hdr) (gid parts) (cat parts) weid)) rho hp hdr with
      | Ok v => [("msphf/vck", v)]
      | Err _ => []
      end
  | _ => []
  end.

(** [pivots] are the commitments of the heads that may be the pivot. *)
Definition anchor_inputs (parts : AnchorInstanceParts) (hdr : header) (pivots : list bytes) : list (string * Value) :=
  let ctx := build_anchor_seed_ctx hdr in
  let s := run (compute_seed_ctx_hash ctx) in
  let weid := run (derive_we_epoch_id (gid parts) (parent_root parts) s) in
  let tuple := as_cbor_tuple {| ai_parts := parts; ai_we_epoch_id := weid; ai_anchor_hdr_ctx := ctx; ai_msphf_hp_commit := None |} in
  [("seedctx", VBytes ctx); ("weid", epoch_preimage (gid parts) (parent_root parts) s);
   ("mhw/window", epoch_preimage (gid parts) (parent_root parts) s); ("msphf/xk", tuple)] ++
  link_inputs hdr ++ match get_bytes hdr HDR_SRX_PAYLOAD with Some payload => [("srx/commit", VBytes payload)] | None => [] end ++
  (pivots ≫= key_inputs parts hdr tuple weid).

Lemma hashes_listed c parts hdr pivots label v :
  (forall wid pivot, pivot ∈ Mhw.entry_of (mh_window (started c)) wid -> hr_msphf_hp_commit pivot ∈ pivots) ->
  hashes c parts hdr label v -> (label, v) ∈ anchor_inputs parts hdr pivots.
Proof.
  intros Hp H. unfold anchor_inputs. cbn zeta. destruct H as [|s Hs|s Hs|pk ec prev ver dg H1 H2 H3 H4 H5|p H|s b Hs Hw Hb|b rho xk wid pivot v [Hb Hsc Hr Hx] Hin Hw Hs Hv].
  - set_solver.
  - rewrite Hs. set_solver.
  - rewrite Hs. set_solver.
  - apply elem_of_app. right. apply elem_of_app. left. unfold link_inputs. rewrite H1, H2, H3, H4, H5. set_solver.
  - rewrite H. set_solver.
  - rewrite Hs. cbn [run]. rewrite Hw. cbn [run]. unfold instance_of. rewrite Hb. set_solver.
  - rewrite Hs. cbn [run]. rewrite Hw. cbn [run]. rewrite !elem_of_app. right; right; right. apply list_elem_of_bind.
    exists (hr_msphf_hp_commit pivot). split; [|by eapply Hp]. unfold key_inputs. rewrite Hr, <- Hb, Hsc. unfold xk_hash, instance_of in Hx.
    rewrite Hx. cbn [run]. rewrite Hv. set_solver.
Qed.

(** No link of a listed chain input has the commitment zero. *)
Lemma zero_link_listed inputs : zero_link (listed inputs) -> zero32 ∈ map digest_of inputs.
Proof.
  intros (pk & ec & prev & version & digest & Hin & [_ H]%h_l_Ok_inv). rewrite H. apply list_elem_of_fmap. by eexists (_, _).
Qed.

End Inputs.

Module TwoAnchors.
  #[local] Existing Instances flat_hashing flat_codec toy_merkle flat_srx open_proofs.

Definition group_id : bytes := [7].
Definition parts : AnchorInstanceParts :=
  {| gid := group_id; cat := [8]; tswe_salt := run (tswe_salt_hash group_id zero32); parent_root := zero32;
     join_delta_root := zero32; revoked_since_prev_root := zero32; revoked_root := zero32; pox_r_commit := None |}.

Definition device : bytes := replicate 2592 0.
Definition signature : bytes := replicate 4627 0.

(** The fields of both anchors that commit to nothing. *)
Definition common : list (Z * Value) :=
  [(HDR_TSWE_ALG, VInteger TSWE_ALG_CODE); (HDR_MERKLE_SUITE, VText MERKLE_DS_ID); (HDR_CRS_ID, VText "crs");
   (HDR_KBROAD_ALG, VText KBROAD_ML_KEM_ALG); (HDR_KBROAD_PUB, VBytes (replicate 1184 0)); (HDR_PARAMS_ID, VText "params");
   (HDR_PARENT_ROOT, VBytes zero32); (HDR_JOIN_DELTA_ROOT, VBytes zero32); (HDR_REVOKED_SINCE_ROOT, VBytes zero32);
   (HDR_REVOKED_ROOT, VBytes zero32); (HDR_HP_COMMIT, VBytes zero32); (HDR_POP_PK, VBytes device);
   (HDR_PROOF_MODE, VText DEFAULT_PROOF_MODE); (HDR_VRF_ID, VText DEFAULT_VRF_ID); (HDR_VRF_MASK_A, VBytes zero32);
   (HDR_VRF_MASK_B, VBytes zero32); (HDR_VRF_PROOF, VBytes [1]); (HDR_VRF_PUBLIC_KEY, VBytes [2]); (HDR_FS_CAPSS, VBytes [3]);
   (HDR_PROOFS_COMMIT, VBytes (run (compute_proofs_commit_bytes [1] [3] None None)));
   (HDR_FS_POLICY_VERSION, VInteger 0); (HDR_FS_EPOCH_BASE_TS, VInteger 1000); (HDR_FS_EPOCH_COMMIT, VBytes zero32)].

(** The epoch counter, the chain link and the barrier version of an anchor. *)
Definition chain_part (ec version : Z) (prev digest : bytes) : list (Z * Value) :=
  [(HDR_FS_EC, VInteger ec); (HDR_BARRIER_VERSION, VInteger version); (HDR_FS_DEV_PREV_COMMIT, VBytes prev);
   (HDR_FS_DEV_COMMIT, VBytes (run (dev_chain_commit device ec prev version digest)))].

Definition envelope (context : string) : Value :=
  VArray [VText BARRIER_HP_MODE; VText context; VBytes (replicate 16 0); VText HP_AEAD_SUITE].

Definition seed_hash (fields : list (Z * Value)) : bytes := run (compute_seed_ctx_hash (build_anchor_seed_ctx (list_to_map fields))).
Definition epoch_id (fields : list (Z * Value)) : bytes := run (derive_we_epoch_id group_id zero32 (seed_hash fields)).

(** The commitments to the rest of the header. *)
Definition seal (fields : list (Z * Value)) (rho : bytes) : header :=
  list_to_map ((HDR_SEED_CTX_HASH, VBytes (seed_hash fields)) :: (HDR_RHO_COMMIT, VBytes rho) ::
    (HDR_SEED_BUNDLE_COMMIT, VBytes (run (compute_seed_bundle_commit (build_anchor_seed_ctx (list_to_map fields)) rho group_id [8] zero32)))
    :: fields).

(** The join. *)
Definition join_part : list (Z * Value) :=
  common ++ chain_part 5 0 zero32 zero32 ++
  [(HDR_POP_ALG, VText "ML-DSA-65"); (HDR_POP_SIG, VBytes signature); (HDR_BARRIER_LEAF_PK, VBytes (replicate 1184 0));
   (HDR_HP_BYTES, envelope BARRIER_HP_CONTEXT_AUTHOR_LOCAL)].
Definition join_xk : bytes := run (xk_hash {| ai_parts := parts; ai_we_epoch_id := epoch_id join_part;
  ai_anchor_hdr_ctx := build_anchor_seed_ctx (list_to_map join_part); ai_msphf_hp_commit := None |}).
Definition join_rho : bytes := run (derive_rho_commit_from_pop signature join_xk).
Definition join_header : header := seal join_part join_rho.

(** The merge of its head. *)
Definition roots_hash : bytes := run (compute_revocation_roots_hash join_header).
Definition update : bytes := flat (update_value
  {| buw_mode := "barrier-v1"; buw_barrier_version := 1; buw_prev_barrier_version := 0; buw_tree_size := 1;
     buw_revocation_roots_hash := roots_hash; buw_kem_tree_hash_before := zero32; buw_kem_tree_hash_after := zero32;
     buw_cover_payload := flat (cover_value sample_cover) |}).
Definition update_digest : bytes := run (h_l "barrier/update/digest" (VBytes update)).
Definition merge_part : list (Z * Value) :=
  common ++ chain_part 6 1 (run (dev_chain_commit device 5 zero32 0 zero32)) update_digest ++
  [(HDR_BARRIER_UPDATE, VBytes update); (HDR_BARRIER_UPDATE_REASON, VInteger 2); (HDR_MH_HEADS, VArray [VBytes (epoch_id join_part)]);
   (HDR_ROLLUP_PIVOT_WEID, VBytes (epoch_id join_part)); (HDR_FS_CHECKPOINT_EC, VInteger 5);
   (HDR_FS_EVOLUTION_BOUNDARY, VBool true); (HDR_ROLLUP_FS_MODE, VText "fs-purge");
   (HDR_HP_BYTES, envelope BARRIER_HP_CONTEXT_BARRIER_RECOVERY)].
Definition merge_header : header := seal merge_part join_rho.

(** The group, with an open barrier over one leaf. *)
Definition group : BarrierGroupState :=
  {| barrier_initialized := true; barrier_version := 0; barrier_roots_hash := roots_hash; kem_tree_hash_after := zero32;
     last_checkpoint_ec := 0; last_accepted_ec := 0; group_srx_root := None; n_max := 1; max_barrier_update_bytes := 4096;
     last_pcs_refresh_ec := None; pcs_refresh_min_delta_device_ec := 1; pcs_refresh_min_delta_group_ec := 1;
     pcs_refresh_slot_width_ec := 1 |}.

Definition start : AcceptanceContext :=
  insert_barrier_group_state group_id group (with_options_internal 16 Mhw.DEFAULT_T_WINDOW default_options).

Definition after_join := accept_anchor parts (epoch_id join_part) join_header start.
Definition after_merge := accept_anchor parts (epoch_id merge_part) merge_header after_join.1.

(** Both are accepted, and the merge says what it retires. *)
Lemma accepted_by {A} (P : A -> Prop) (res : AcceptanceContext * result AcceptanceError A) :
  match res.2 with Ok o => P o | Err _ => False end -> exists o, res = (res.1, Ok o) /\ P o.
Proof. destruct res as [c [o|e]]; [|done]. by exists o. Qed.

Lemma join_accepted : exists o, after_join = (after_join.1, Ok o) /\ o_kind o = KNonMerge.
Proof. apply (accepted_by (fun o => o_kind o = KNonMerge)). vm_compute. reflexivity. Qed.

Lemma merge_accepted : exists o, after_merge = (after_merge.1, Ok o) /\ o_kind o = KMerge [epoch_id join_part].
Proof. apply (accepted_by (fun o => o_kind o = KMerge [epoch_id join_part])). vm_compute. reflexivity. Qed.

Lemma headers_name_device : bool_decide (is_Some (get_bytes join_header HDR_POP_PK)) && bool_decide (is_Some (get_bytes merge_header HDR_POP_PK)) = true.
Proof. vm_compute. reflexivity. Qed.

Lemma join_step : anchor_step names_device start after_join.1.
Proof.
  exists parts, (epoch_id join_part), join_header. split; [|reflexivity].
  pose proof headers_name_device as H. apply andb_true_iff in H as [H _]. exact (bool_decide_eq_true_1 _ H).
Qed.

Lemma merge_step : anchor_step names_device after_join.1 after_merge.1.
Proof.
  exists parts, (epoch_id merge_part), merge_header. split; [|reflexivity].
  pose proof headers_name_device as H. apply andb_true_iff in H as [_ H]. exact (bool_decide_eq_true_1 _ H).
Qed.

Lemma any_step c c' : anchor_step names_device c c' -> anchor_step any_anchor c c'.
Proof. intros (p & cl & h & _ & H). by exists p, cl, h. Qed.

(** A group provisioned in a new context. *)
Lemma provisioned_kept h_max ttl options g s :
  let c := insert_barrier_group_state g s (with_options_internal h_max ttl options) in
  last_checkpoint_ec s <= last_accepted_ec s -> last_pcs_refresh_ec s = None -> barrier_version s <= U64_MAX ->
  well_kept c /\ (forall hashed, chains_grounded hashed c) /\ heads (mh_window c) = ∅.
Proof.
  destruct (new_groups h_max ttl options) as [Hg Hd]. intros c Hc Hr Hv.
  assert (forall g', lg_chains (ledger_of c g') = ∅) as He.
  { intros g'. change (link_of <$> default ∅ (device_chains (with_options_internal h_max ttl options) !! g') = ∅).
    rewrite Hd, lookup_empty. apply fmap_empty. }
  assert (barrier_groups c = <[g := s]> ∅) as Hgs.
  { change (<[g := s]> (barrier_groups (with_options_internal h_max ttl options)) = <[g := s]> (∅ : gmap bytes BarrierGroupState)). by rewrite Hg. }
  assert (heads (mh_window c) = ∅) as Hh.
  { change (heads (mh_window (with_options_internal h_max ttl options)) = ∅). by rewrite new_window. }
  clearbody c. split_and!; [|intros hashed g' pk x ec H; by rewrite He, lookup_empty in H|done].
  intros g'. destruct (decide (g = g')) as [<-|Hne].
  - split; [split|].
    + cbn. unfold group_of. by rewrite Hgs, lookup_insert_eq.
    + cbn. unfold group_of. rewrite Hgs, lookup_insert_eq. cbn. by rewrite Hr.
    + intros pk x ec H. by rewrite He, lookup_empty in H.
    + unfold ledger_u64. cbn. rewrite Hgs, lookup_insert_eq. cbn. by destruct (barrier_initialized s).
  - split; [split|].
    + cbn. unfold group_of. by rewrite Hgs, lookup_insert_ne.
    + cbn. unfold group_of. rewrite Hgs, lookup_insert_ne by done. by rewrite lookup_empty.
    + intros pk x ec H. by rewrite He, lookup_empty in H.
    + unfold ledger_u64. cbn. by rewrite Hgs, lookup_insert_ne, lookup_empty.
Qed.

Lemma start_kept : well_kept start /\ (forall hashed, chains_grounded hashed start) /\ heads (mh_window start) = ∅.
Proof. apply provisioned_kept; [cbn; lia|reflexivity|cbn; unfold U64_MAX; lia]. Qed.

(** *** What the run hashes *)

Definition run_inputs : list (string * Value) := anchor_inputs parts join_header [] ++ anchor_inputs parts merge_header [zero32].

Lemma started_sub c wid (r : HeadRecord) : r ∈ Mhw.entry_of (mh_window (started c)) wid -> r ∈ Mhw.entry_of (mh_window c) wid.
Proof. cbn. rewrite entry_prune_all. by intros [_ ?]%list_elem_of_filter. Qed.

(** What holds of every head of a window. *)
Definition all_heads (p : HeadRecord -> bool) (w : MultiHeadWindow) : bool :=
  forallb (fun '(_, l) => forallb p l) (map_to_list (heads w)).

Lemma all_heads_ok p w wid r : all_heads p w = true -> r ∈ Mhw.entry_of w wid -> p r = true.
Proof.
  unfold all_heads, Mhw.entry_of. intros H Hr. destruct (heads w !! wid) as [l|] eqn:E; [|by apply not_elem_of_nil in Hr]. cbn in Hr.
  rewrite forallb_forall in H. apply elem_of_map_to_list, list_elem_of_In, H in E. rewrite forallb_forall in E.
  by apply list_elem_of_In, E in Hr.
Qed.

Lemma join_head : all_heads (fun r => bytes_eqb (hr_msphf_hp_commit r) zero32) (mh_window after_join.1) = true.
Proof. vm_compute. reflexivity. Qed.

Lemma join_within inputs : within (listed (anchor_inputs parts join_header [] ++ inputs)) start parts join_header.
Proof.
  intros label v H. apply elem_of_app. left. revert H. apply hashes_listed. intros wid r H%started_sub.
  unfold Mhw.entry_of in H. destruct start_kept as (_ & _ & E). rewrite E, lookup_empty in H. by apply not_elem_of_nil in H.
Qed.

Lemma merge_within : within (listed run_inputs) after_join.1 parts merge_header.
Proof.
  intros label v H. apply elem_of_app. right. revert H. apply hashes_listed. intros wid r H%started_sub.
  apply (all_heads_ok _ _ _ _ join_head) in H. apply list_elem_of_singleton. by bool_prop.
Qed.

Lemma join_step_within : anchor_step (within (listed run_inputs)) start after_join.1.
Proof. exists parts, (epoch_id join_part), join_header. split; [apply join_within|reflexivity]. Qed.

Lemma run_digests : bool_decide (NoDup (map digest_of run_inputs)) && negb (existsb (bytes_eqb zero32) (map digest_of run_inputs)) = true.
Proof. vm_compute. reflexivity. Qed.

(** The model hash has no collision among these inputs, and no zero. *)
Lemma run_collision_free : ~ hl_collision (listed run_inputs).
Proof. apply collision_free. pose proof run_digests as H. by apply andb_true_iff in H as [H _]. Qed.

Lemma run_no_zero : ~ zero_link (listed run_inputs).
Proof.
  intros H%zero_link_listed. pose proof run_digests as Hd. apply andb_true_iff in Hd as [_ Hd]. apply negb_true_iff in Hd.
  assert (existsb (bytes_eqb zero32) (map digest_of run_inputs) = true); [|congruence]. apply existsb_exists. exists zero32.
  split; [by apply list_elem_of_In|]. by apply bool_decide_eq_true.
Qed.

(** ** The theorems on this run *)

Lemma accept_anchor_refines_witness :
  exists e, ledger_step (fs_caps (fs start)) (ledger_of start group_id) (Some e) (ledger_of after_join.1 group_id) /\ event_of join_header e.
Proof.
  destruct join_accepted as (o & Ho & _).
  destruct (accept_anchor_refines parts (epoch_id join_part) join_header start after_join.1 (Ok o) Ho group_id) as (ev & Hs & He & Hok).
  destruct (Hok o eq_refl eq_refl) as [e ->]. exists e. split; [exact Hs|]. apply (He e eq_refl).
Defined.


Lemma start_caps : anchor_max (fs_caps (fs start)) = 12.
Proof. vm_compute. reflexivity. Qed.

Lemma accepted_ec_rate_witness : lg_accepted (ledger_of after_merge.1 group_id) <= lg_accepted (ledger_of start group_id) + 2 * 12.
Proof.
  rewrite <- start_caps. apply (accepted_ec_rate 2 start after_merge.1 group_id); [rewrite start_caps; lia|].
  eapply nsteps_l; [apply join_step|]. eapply nsteps_l; [apply merge_step|]. apply nsteps_O.
Defined.

Lemma join_version : join_header !! HDR_BARRIER_VERSION = Some (VInteger 0).
Proof. vm_compute. reflexivity. Qed.

Lemma epoch_id_never_reused_witness :
  exists o1 o2, after_join.2 = Ok o1 /\ after_merge.2 = Ok o2 /\ o_we_epoch_id o1 <> o_we_epoch_id o2.
Proof.
  destruct join_accepted as (o1 & H1 & _), merge_accepted as (o2 & H2 & _). exists o1, o2.
  split; [rewrite H1; reflexivity|]. split; [rewrite H2; reflexivity|].
  destruct (epoch_id_never_reused (HL := flat_hashing_laws) (listed run_inputs) parts parts (epoch_id join_part) (epoch_id merge_part)
    join_header merge_header start after_join.1 after_join.1 after_merge.1 o1 o2) as [H|[H|[H|H]]];
    [apply start_kept|apply start_kept|apply join_within|exact H1|apply rtc_refl|exact merge_within|exact H2|exact H| | |].
  - destruct (run_collision_free H).
  - destruct (run_no_zero H).
  - rewrite join_version in H. discriminate H.
Defined.

Lemma merge_retires_one_head_witness : exists head, [epoch_id join_part] = [head].
Proof.
  destruct merge_accepted as (o & H & Ho).
  destruct (merge_retires_one_head (HL := flat_hashing_laws) (listed run_inputs) start after_join.1 parts (epoch_id merge_part)
    merge_header after_merge.1 o [epoch_id join_part]) as [Hh|Hc];
    [apply start_kept|eapply rtc_l; [exact join_step_within|apply rtc_refl]|exact H|exact Ho|exact Hh|destruct (run_collision_free Hc)].
Defined.

Lemma device_never_locked_out_witness :
  exists v, dv_pop_pk v = device /\ dv_barrier_version v = 1 /\ dv_barrier_update_digest v = zero32 /\ dv_fs_ec v <= U64_MAX /\
    lg_refresh (ledger_of start group_id) <> Some (dv_fs_ec v) /\
    verify_device_chain_state start group_id (device_chain_get start group_id device) v = Ok tt.
Proof.
  apply (device_never_locked_out default_fs_policy {| window_periods := 12; anchor_max := 12; first_device := 12; device_max := 16 |} start start);
    [vm_compute; congruence..|vm_compute; reflexivity|vm_compute; reflexivity|apply start_kept|apply rtc_refl|vm_compute; reflexivity].
Defined.

End TwoAnchors.

(** ** A revocation *)

Module Revocation.
  Import TwoAnchors.
  #[local] Existing Instances flat_hashing flat_codec toy_merkle flat_srx open_proofs.

(** The one revoked device; the root of a set with one leaf is the leaf. *)
Definition revoked : bytes := replicate 32 9.
Definition parts : AnchorInstanceParts :=
  {| gid := group_id; cat := [8]; tswe_salt := run (tswe_salt_hash group_id zero32); parent_root := zero32;
     join_delta_root := zero32; revoked_since_prev_root := revoked; revoked_root := revoked; pox_r_commit := None |}.

Definition payload : bytes := flat (VArray [VArray []; VArray []; VArray [VArray [VBytes revoked; VBytes revoked]]; VNull; VArray [];
  VNull; VArray [VBytes revoked]; VNull; VArray []]).

Definition roots_part : list (Z * Value) := [(HDR_REVOKED_SINCE_ROOT, VBytes revoked); (HDR_REVOKED_ROOT, VBytes revoked)].
Definition roots_after : bytes := run (compute_revocation_roots_hash (list_to_map roots_part)).
Definition update : bytes := flat (update_value
  {| buw_mode := "barrier-v1"; buw_barrier_version := 1; buw_prev_barrier_version := 0; buw_tree_size := 1;
     buw_revocation_roots_hash := roots_after; buw_kem_tree_hash_before := zero32; buw_kem_tree_hash_after := zero32;
     buw_cover_payload := flat (cover_value sample_cover) |}).
Definition update_digest : bytes := run (h_l "barrier/update/digest" (VBytes update)).

Definition srx_part : list (Z * Value) :=
  [(HDR_SRX_COMMIT, VBytes (run (h_l "srx/commit" (VBytes payload)))); (HDR_SRX_PAYLOAD, VBytes payload);
   (HDR_SRX_ROOT_SW, VBytes zero32); (HDR_SRX_SMALLWOOD, VBytes [4]);
   (HDR_PROOFS_COMMIT, VBytes (run (compute_proofs_commit_bytes [1] [3] (Some zero32) (Some [4]))))].

Definition merge_part : list (Z * Value) :=
  roots_part ++ srx_part ++ common ++ chain_part 6 1 (run (dev_chain_commit device 5 zero32 0 zero32)) update_digest ++
  [(HDR_BARRIER_UPDATE, VBytes update); (HDR_BARRIER_UPDATE_REASON, VInteger 0); (HDR_MH_HEADS, VArray [VBytes (epoch_id join_part)]);
   (HDR_ROLLUP_PIVOT_WEID, VBytes (epoch_id join_part)); (HDR_FS_CHECKPOINT_EC, VInteger 5);
   (HDR_FS_EVOLUTION_BOUNDARY, VBool true); (HDR_ROLLUP_FS_MODE, VText "fs-purge");
   (HDR_HP_BYTES, envelope BARRIER_HP_CONTEXT_BARRIER_RECOVERY)].
Definition merge_header : header := seal merge_part join_rho.

Definition after_revocation := accept_anchor parts (epoch_id merge_part) merge_header after_join.1.

Lemma revocation_accepted : exists o, after_revocation = (after_revocation.1, Ok o) /\ o_kind o = KMerge [epoch_id join_part].
Proof. apply (accepted_by (fun o => o_kind o = KMerge [epoch_id join_part])). vm_compute. reflexivity. Qed.

Lemma start_cache : vc_entries (vck_cache start) = ∅.
Proof. reflexivity. Qed.

Definition revocation_inputs : list (string * Value) := anchor_inputs TwoAnchors.parts join_header [] ++ anchor_inputs parts merge_header [zero32].

Lemma revocation_within : within (listed revocation_inputs) after_join.1 parts merge_header.
Proof.
  intros label v H. apply elem_of_app. right. revert H. apply hashes_listed. intros wid r H%started_sub.
  apply (all_heads_ok _ _ _ _ join_head) in H. apply list_elem_of_singleton. by bool_prop.
Qed.

Lemma revocation_digests : bool_decide (NoDup (map digest_of revocation_inputs)) = true.
Proof. vm_compute. reflexivity. Qed.

(** The roots of the pivot, the join of the first run, are not those of the merge. *)
Lemma join_roots : all_heads (srx_required_for_merge merge_header parts) (mh_window after_join.1) = true.
Proof. vm_compute. reflexivity. Qed.

Lemma accepted_revocation_proved_witness : revocation_proved merge_header parts.
Proof.
  destruct revocation_accepted as (o & H & Ho).
  destruct (accepted_revocation_proved (HL := flat_hashing_laws) (listed revocation_inputs) start after_join.1 parts (epoch_id merge_part)
    merge_header after_revocation.1 o [epoch_id join_part]) as [(r & wid & Hr & _ & Hf)|[Hp|Hc]];
    [exact start_cache| |exact revocation_within|exact H|exact Ho| |exact Hp|destruct (collision_free _ revocation_digests Hc)].
  - eapply rtc_l; [|apply rtc_refl]. exists TwoAnchors.parts, (epoch_id join_part), join_header. split; [apply join_within|reflexivity].
  - rewrite (all_heads_ok _ _ wid r join_roots (started_sub _ _ _ Hr)) in Hf. discriminate Hf.
Defined.

End Revocation.

(** ** Identifiers *)

Module Identifiers.
  #[local] Existing Instance flat_hashing.

(** Two headers that differ in a signature only. *)
Definition unsigned : header := {[HDR_FS_EC := VInteger 1]}.
Definition signed : header := <[HDR_POP_SIG := VBytes [1]]> unsigned.
Definition ctx_hash (hdr : header) : bytes := run (compute_seed_ctx_hash (build_anchor_seed_ctx hdr)).
Definition epoch (hdr : header) : bytes := run (derive_we_epoch_id [7] zero32 (ctx_hash hdr)).

Definition unsigned_inputs : list (string * Value) := epoch_inputs unsigned [7] zero32 (ctx_hash unsigned).

Lemma unsigned_digests : epoch_inputs signed [7] zero32 (ctx_hash signed) = unsigned_inputs /\
  bool_decide (NoDup (map digest_of unsigned_inputs)) = true.
Proof. split; vm_compute; reflexivity. Qed.

Lemma epoch_id_binds_header_witness :
  seed_ctx_key HDR_POP_SIG = false /\ (forall k, seed_ctx_key k = true -> unsigned !! k = signed !! k).
Proof.
  split; [reflexivity|].
  destruct (epoch_id_binds_header (HL := flat_hashing_laws) unsigned signed [7] [7] zero32 zero32 (ctx_hash unsigned) (ctx_hash signed)
    (epoch unsigned)) as [(_ & _ & H)|H]; [vm_compute; reflexivity..|exact H|].
  destruct unsigned_digests as [E D]. rewrite E in H. destruct (collision_free _ D). revert H. apply hl_collision_mono.
  intros l v [H|H]%elem_of_app; exact H.
Defined.

Definition parity : PivotParity := {|
  pp_gid := [7]; pp_cat := [8]; pp_parent_root := zero32; pp_we_epoch_id := zero32; pp_rho_commit := zero32;
  pp_seed_ctx_hash := zero32; pp_seed_commit := zero32; pp_hp_commit := zero32; pp_xk_hash := zero32;
  pp_join_delta_root := zero32; pp_revoked_since_root := zero32; pp_revoked_root := zero32; pp_accept_seq := 0;
  pp_crs_id := [1]; pp_params_id := [2]; pp_policy_version := "0"; pp_proof_mode := DEFAULT_PROOF_MODE;
  pp_vrf_id := DEFAULT_VRF_ID; pp_vrf_proof := [1]; pp_vrf_public := [2]; pp_mask_a := zero32; pp_mask_b := zero32;
  pp_fs_capss := [3]; pp_proofs_commit := zero32; pp_srx_commit := None; pp_srx_root_sw := None; pp_is_join := true;
  pp_hp_envelope := []; pp_fs_epoch_commit := None; pp_fs_ec := None; pp_fs_dev_commit := None |}.

Lemma parity_digests : bool_decide (NoDup (map digest_of (vck_inputs parity))) = true.
Proof. vm_compute. reflexivity. Qed.

Lemma rollup_vck_mismatch_witness : run (compute_vck parity) <> run (compute_vck_from_parity parity).
Proof.
  destruct (rollup_vck_mismatch (HL := flat_hashing_laws) parity (run (compute_vck parity)) (run (compute_vck_from_parity parity)))
    as [H|H]; [vm_compute; reflexivity|vm_compute; reflexivity|exact H|destruct (collision_free _ parity_digests H)].
Defined.

End Identifiers.
